(* ===== verification/_CoqProject ===== *)
-Q . S2P
Prelude.v
Workqueue.v
DelayingQueue.v
RateLimiters.v
ClientStore.v
Fifo.v
DeltaFifo.v
Informer.v
Validation.v
Labels.v
Selector.v
SelectorText.v
MetaSelector.v
NodeInfo.v
SchedulerCache.v
Predicates.v
InterPodAffinity.v
GenericScheduler.v
Decimal.v
Amount.v
Quantity.v
QuantityText.v
Rbac.v
RbacStorage.v
Allocator.v
PortAllocator.v
IPAllocator.v
ServiceRest.v
Services.v
Repair.v
IPRepair.v
EtcdStore.v
EtcdAllocator.v
EtcdServers.v
Expectations.v
ReplicaSet.v
ReplicaSystem.v
ReplicaWorker.v
