(* ===== verification/Prelude.v ===== *)
(** * A verification library for the Kubernetes core

    The sources under src/ are those of Kubernetes 1.6.  This library models the
    parts of it that every controller and the scheduler are built on, and some of
    what is built on them, as Rocq functions translated from the Go code, and
    proves that they do what they are meant to do.

    ** The program

    API servers keep the objects of the cluster in etcd, with optimistic
    transactions.  They check with rules of roles what a user may do, and give out
    cluster addresses and node ports to services from bitmaps that they share
    through etcd; repair loops bring the bitmaps back in line with the services.

    Controllers and the scheduler watch objects of the API server.  A reflector
    lists and watches a kind of object and feeds a [DeltaFIFO]; an informer pops
    deltas from it, keeps an indexed store of the objects up to date and
    notifies its listeners; the listeners of a controller put keys into a work
    queue, directly, after a delay or with a rate limit; workers take keys from
    the queue.  The replica set controller creates and deletes pods until there are
    as many as asked for; as its store lags behind the API server it records what it
    has asked for and waits until it has seen it.  The scheduler keeps its own cache
    of pods and nodes, fed by informers and by its own decisions, filters and scores
    the nodes for a pod and binds it to one.  Objects are picked with labels and
    label selectors, whose names and values are validated; resources are counted in
    decimal quantities.

    ** The files and the code they model

    - [Prelude] (this file): results of Go functions ([outcome] for code that can
      panic, [result] for code that returns an error), 64-bit integers with
      their wrap-around, [sort.Search], [strings.Split] and [strings.Join],
      iteration over maps in an unspecified order ([MapRange]), [sort.Sort]
      ([SortSort]), sums, and the lemmas and tactics the other files share.
    - [Workqueue]: pkg/util/workqueue/queue.go and metrics.go.  [Queue] is the
      type of the source, each method is one step under the lock; [WorkSystem]
      adds the goroutines blocked in Get.
    - [DelayingQueue]: pkg/util/workqueue/delaying_queue.go.  The loop of the
      waiting goroutine and its callers, as a step relation over time.
    - [RateLimiters]: default_rate_limiters.go and rate_limitting_queue.go.  The
      token bucket of the juju package is a parameter.
    - [ClientStore]: pkg/client/cache/store.go, thread_safe_store.go, index.go:
      keys, the indexed map and the store on top of it.
    - [Fifo]: pkg/client/cache/fifo.go.
    - [DeltaFifo]: pkg/client/cache/delta_fifo.go.
    - [Informer]: pkg/client/cache/shared_informer.go with the parts of
      controller.go and reflector.go that drive it: [informer_step] interleaves
      the reflector, the resync timer, the processing loop and the listeners.
    - [Validation]: pkg/util/validation/validation.go.  Regular expressions are
      matched by derivatives, with a lemma that this decides their language.
    - [Labels]: pkg/labels/labels.go.
    - [Selector] and [SelectorText]: pkg/labels/selector.go: requirements and
      selectors, the lexer and the parser, and in the second file the round
      trip through text.
    - [MetaSelector]: the selectors of API objects of pkg/apis/meta/v1/helpers.go.
    - [NodeInfo]: plugin/pkg/scheduler/schedulercache/node_info.go and util.go.
      Resource objects are locations of a heap, so that the sharing made by
      Clone is visible.
    - [SchedulerCache]: plugin/pkg/scheduler/schedulercache/cache.go.
    - [Predicates]: plugin/pkg/scheduler/algorithm/predicates: whether a pod fits
      on a node.
    - [InterPodAffinity]: the PodAffinityChecker of the same package, with the
      variables of its loops as locations, since it keeps their addresses.
    - [GenericScheduler]: generic_scheduler.go and scheduler.go of
      plugin/pkg/scheduler and pkg/util/workqueue/parallelizer.go; predicates,
      priority functions and extenders are arguments.
    - [Decimal], [Amount], [Quantity], [QuantityText]: pkg/api/resource, and what it
      uses of the vendored inf.v0: decimals of any size, checked 64-bit amounts,
      quantities that fall back from one to the other, their parser and printer.
    - [Rbac]: pkg/apis/rbac (matching and comparison of rules, the rules of a
      user) and plugin/pkg/auth/authorizer/rbac.
    - [RbacStorage]: pkg/registry/rbac: what a write of a role or binding is checked
      for.  The standard storage below is a class with its contract.
    - [Allocator], [PortAllocator], [IPAllocator]: pkg/registry/core/service: the
      bitmap as an instance of the interface of allocators, and the ranges of ports
      and addresses over any instance.
    - [ServiceRest]: Create, Update and Delete of pkg/registry/core/service/rest.go;
      [Services] runs them against a registry as a step relation.
    - [Repair] and [IPRepair]: the controllers that repair allocations, over an
      interface of pools that both allocators implement.
    - [EtcdStore]: pkg/storage/etcd3/store.go over any client of etcd.
    - [EtcdAllocator]: allocator/etcd/etcd.go over this store; [EtcdServers]: several
      servers that run it, each request to etcd being a step of its own.
    - [Expectations]: the expectations of pkg/controller/controller_utils.go.
    - [ReplicaSet]: pkg/controller/replicaset and the parts of pkg/controller that it
      uses: handlers, lookup cache, adoption, a round of the controller, the status.
      The API server is a world that the calls change ([PodControl], [RSClient]).
    - [ReplicaSystem]: the controller, the informer and the API server as a step
      relation, with the operations of the two files before.
    - [ReplicaWorker]: the workers, over the queue of [RateLimiters].

    Names are those of the source; where two Go types have a method of the
    same name the type is a prefix ([Queue_Add], [Delta_Add], [FIFO_Add]).

    ** What the theorems show

    - Work queue: in every run of any number of workers the queue, the dirty
      set and the processing set stay consistent, an item is processed by one
      worker at a time, no added item is lost, items are handed out in order of
      arrival, no wake-up is lost, the whole refines an abstract queue, and the
      metrics are exact.
    - Delaying queue and rate limiters: nothing is added early, no request is
      lost, the insertion keeps the order and one entry per item; the delays
      are exponential with a cap as long as nothing overflows, and what
      happens when it does.
    - Store: the indices are exactly those of the objects after any sequence
      of operations; looking up by index is filtering.
    - FIFO and DeltaFIFO: each implements a queue of keys with the newest
      object or the accumulated deltas; both never hand out an object twice or
      block while there is work.
    - Informer: the store and the queued deltas together always equal what the
      reflector has reported, so the store converges to it when the queue is
      drained; replaying the notifications of a listener gives the store.
    - Labels: the parser is total, text and selectors round-trip, matching
      and the operations on sets are the set-theoretic ones, validation accepts
      exactly the documented names.
    - Scheduler cache: for callers that respect stated obligations it never
      panics and implements the state machine of interface.go, the totals of
      each node are the sums over its pods modulo 2^64, and listing is exact.
      Other theorems state what goes wrong: snapshots share the totals with
      the cache, can be stale, and a pod added on another node than it was
      assumed on ends the process.
    - Scheduler: each predicate decides what it is documented to; a pod goes to a
      node that passes all predicates with the highest score, and to one if there is
      any; a scheduled pod fits with everything that the cache assumes there; the
      goroutines do each piece once; the check of affinity between pods decides what the
      terms mean if those of a pod have one topology key, and reads the wrong one
      otherwise; and how the end of a failed binding can race
      with the next decision.
    - Quantities: sums, differences and comparisons are those of the rational
      numbers, with and without overflow of the fast path; printing and parsing
      round-trip, and rounding is upwards.
    - Roles: the comparison of rules decides inclusion of the requests they allow,
      and nobody gains a right by the writing of roles and bindings that neither they
      nor one of the writers had.
    - Services: the bitmap refines a set; a creation that fails leaves the allocators
      as they were; services never share an address or port; repair runs converge to
      what the services use.  Others show which updates free a port in use, and
      which ports a repair loses.
    - Etcd: an update takes effect once, at one instant, and ends when the
      conflicts do; no number is given out twice by servers that share a bitmap, in
      any interleaving and with any lost answer, and the code of the allocator is a
      run of that system; an update from the cache can be lost.
    - Replica sets: a round asks for exactly the difference and for the least useful
      pods; for any delay of cache and handlers and any refused calls there are
      never more pods than asked for, and never fewer through the doing of the
      controller; a round of the code is a run of that system; the counters never
      wrap; the status is well formed; a failed round is retried.  One theorem shows
      that a controller that has just started can create too many.

    ** Conventions, bounds and fuel

    A method that holds a lock throughout is one atomic step, and concurrency
    is the interleaving of steps.  Condition variables are counts of blocked and
    of woken goroutines.  Time and durations are integers; where the source
    computes with int64 or int32 the wrap-around is written out.  Loops of the
    source that are not structural take fuel, and that it suffices is proved: the
    binary search the length of its range; the lexer and the parser of selectors the
    length of the text plus a constant (parsing never ends for lack of it); the
    removal of factors from an int64 64 turns, from a big integer one more than its
    logarithm, as have its words and bytes; a word of the bitmap 65 bits.  The
    retries of an update of etcd have no bound in the source: one turn more than
    there are conflicts is enough, and theorems about results hold for any fuel.
    Retries that are bounded in the source (four for a conflict of a repair, one for
    the status of a replica set) are structural.

    The theorems on the counters of expectations allow 2^62 calls and bursts of as
    many pods, far beyond what runs; those on the system of a replica set have one
    replica set whose selector nobody else's pods match, and rounds that do not begin
    after the timeout of five minutes with expectations still open.

    ** What is not modelled

    Logging, events and metrics other than those of the work queue; the network and
    HTTP; JSON and protobuf (decoded values are given, the codec of the store is a
    parameter); leases, lists and watches of etcd, and the watch cache of the API
    server; reflection and generated code.  In the modelled packages: volume counts
    and zones and service affinity among the predicates; the priority functions; reads and redirections of services; the start and stop of
    controllers.  The other controllers, quota and admission, the kubelet, the proxy,
    volumes, cloud providers, federation and the command line tools are outside of
    the library: most of their code is calls to the API server, to the host or to a
    provider, whose behaviour the sources do not give. *)

From stdpp Require Export base decidable numbers countable gmap strings list fin_maps sorting pretty.
From Stdlib Require Export ZArith Lia Ascii.
Open Scope char_scope.
Open Scope string_scope.
Open Scope list_scope.
Open Scope nat_scope.

(** ** Results of Go code

    A Go function that can panic (index out of range, nil dereference, an
    explicit [panic] or [glog.Fatalf]) returns an [outcome]; one that returns an
    [error] beside its value returns a [result]. *)

Inductive outcome (A : Type) : Type :=
  | Ret (a : A)
  | Panic (msg : string).
Arguments Ret {A} _.
Arguments Panic {A} _.

Inductive result (E A : Type) : Type :=
  | Ok (a : A)
  | Err (e : E).
Arguments Ok {E A} _.
Arguments Err {E A} _.

Definition outcome_bind {A B} (m : outcome A) (k : A → outcome B) : outcome B :=
  match m with
  | Ret a => k a
  | Panic s => Panic s
  end.

Definition result_bind {E A B} (m : result E A) (k : A → result E B) : result E B :=
  match m with
  | Ok a => k a
  | Err e => Err e
  end.

Declare Scope go_scope.
Delimit Scope go_scope with go.
Notation "x ?<- m ; k" := (outcome_bind m (λ x, k))
  (at level 100, m at next level, k at level 200, right associativity) : go_scope.
Notation "x !<- m ; k" := (result_bind m (λ x, k))
  (at level 100, m at next level, k at level 200, right associativity) : go_scope.
Open Scope go_scope.

(** ** Fixed-width integers *)

(** Two's complement wrap-around of an int64. *)
Definition wrap64 (z : Z) : Z := ((z + 2 ^ 63) mod 2 ^ 64 - 2 ^ 63)%Z.
Definition MaxInt64 : Z := (2 ^ 63 - 1)%Z.
Definition MinInt64 : Z := (- 2 ^ 63)%Z.
Definition is_int64 (z : Z) : Prop := (MinInt64 ≤ z ≤ MaxInt64)%Z.
#[export] Instance is_int64_dec z : Decision (is_int64 z).
Proof. unfold is_int64. apply _. Defined.
Definition add64 (a b : Z) : Z := wrap64 (a + b).
Definition sub64 (a b : Z) : Z := wrap64 (a - b).

(** The same for an int32. *)
Definition wrap32 (z : Z) : Z := ((z + 2 ^ 31) mod 2 ^ 32 - 2 ^ 31)%Z.
Definition is_int32 (z : Z) : Prop := (- 2 ^ 31 ≤ z < 2 ^ 31)%Z.

(** ** The standard library's [sort.Search]

    Binary search for the least index in [0, n) at which [f] holds; [fuel]
    bounds the iterations of its loop, which halves [j - i]. *)

Fixpoint search_loop (fuel : nat) (f : nat → bool) (i j : nat) : nat :=
  match fuel with
  | O => i
  | S fuel' =>
      if decide (i < j) then
        let h := i + (j - i) / 2 in
        if f h then search_loop fuel' f i h else search_loop fuel' f (S h) j
      else i
  end.

Definition sort_Search (n : nat) (f : nat → bool) : nat := search_loop n f 0 n.

(** ** Strings

    Go strings are sequences of bytes: [string] of the Standard Library. *)

(** [strings.Split(s, sep)] for a one-byte separator: never empty. *)
Fixpoint split_on (sep : ascii) (s : string) : list string :=
  match s with
  | EmptyString => [""]
  | String c s' =>
      if decide (c = sep) then "" :: split_on sep s'
      else match split_on sep s' with
           | [] => [String c ""]
           | w :: ws => String c w :: ws
           end
  end.

(** [strings.Join(l, sep)]. *)
Fixpoint join (sep : string) (l : list string) : string :=
  match l with
  | [] => ""
  | [s] => s
  | s :: l' => s +:+ sep +:+ join sep l'
  end.

Fixpoint string_has (c : ascii) (s : string) : bool :=
  match s with
  | EmptyString => false
  | String d s' => bool_decide (c = d) || string_has c s'
  end.

(** ** Numbers in text *)

Definition in_range (lo hi c : ascii) : bool :=
  bool_decide (nat_of_ascii lo ≤ nat_of_ascii c ≤ nat_of_ascii hi).

(** [strconv.ParseInt(s, 10, 64)] *)
Definition digit_value (c : ascii) : option Z :=
  if in_range "0" "9" c then Some (Z.of_nat (nat_of_ascii c) - 48)%Z else None.

Fixpoint parse_digits (acc : Z) (s : string) : option Z :=
  match s with
  | EmptyString => Some acc
  | String c s =>
      match digit_value c with
      | Some d => parse_digits (10 * acc + d)%Z s
      | None => None
      end
  end.

Definition ParseInt (s : string) : option Z :=
  let '(neg, digits) :=
    match s with
    | String "+" s' => (false, s')
    | String "-" s' => (true, s')
    | _ => (false, s)
    end in
  match digits with
  | EmptyString => None
  | _ =>
      match parse_digits 0 digits with
      | None => None
      | Some n =>
          let z := if neg : bool then (- n)%Z else n in
          if decide (is_int64 z) then Some z else None
      end
  end.

(** [strconv.FormatInt(z, 10)], also the text of a big integer. *)
Definition FormatInt (z : Z) : string := pretty z.

(** ** Iteration over Go maps

    The order in which [range] visits a map is unspecified: an instance picks
    one, and every theorem holds for all instances. *)

Class MapRange := {
  map_range : ∀ {K : Type} `{Countable K} {V : Type}, gmap K V → list (K * V);
  map_range_perm : ∀ {K : Type} `{Countable K} {V : Type} (m : gmap K V),
    map_range m ≡ₚ map_to_list m
}.

(** One admissible order, used when a definition is evaluated. *)
Definition canonical_range : MapRange := {|
  map_range := λ K _ _ V m, map_to_list m;
  map_range_perm := λ K _ _ V m, Permutation_refl _
|}.

(** ** The standard library's [sort.Sort]

    Not guaranteed to be stable: an instance returns some permutation sorted
    by the order, and every theorem holds for all instances. *)

Class SortSort := {
  sort_Sort : ∀ {A : Type} (R : relation A) `{!RelDecision R}, list A → list A;
  sort_Sort_perm : ∀ {A : Type} (R : relation A) `{!RelDecision R} (l : list A),
    sort_Sort R l ≡ₚ l;
  sort_Sort_sorted : ∀ {A : Type} (R : relation A) `{!RelDecision R, !Total R} (l : list A),
    Sorted R (sort_Sort R l)
}.

Definition canonical_sort : SortSort := {|
  sort_Sort := λ A R _ l, merge_sort R l;
  sort_Sort_perm := λ A R _ l, merge_sort_Permutation R l;
  sort_Sort_sorted := λ A R _ _ l, Sorted_merge_sort R l
|}.

(** ** Tactics *)

(** Split every [if decide] and boolean test of the goal and solve the
    arithmetic leaves. *)
Ltac split_ifs :=
  repeat (case_decide || case_match || case_bool_decide); simplify_eq/=.

(** Go through the elements of a concrete list: [H] is a membership in it. *)
Ltac each_elem H tac :=
  repeat (apply elem_of_cons in H as [->|H]; [tac|]); try (by apply elem_of_nil in H).

Create HintDb k8s.

(** ** Lemmas on integers *)

Lemma wrap64_id z : is_int64 z → wrap64 z = z.
Proof.
  unfold is_int64, wrap64, MinInt64, MaxInt64. intros ?.
  rewrite Z.mod_small; lia.
Qed.

Lemma wrap64_bounds z : is_int64 (wrap64 z).
Proof.
  unfold is_int64, wrap64, MinInt64, MaxInt64.
  pose proof (Z.mod_pos_bound (z + 2 ^ 63) (2 ^ 64)). lia.
Qed.

Lemma wrap64_add_l a b : wrap64 (wrap64 a + b) = wrap64 (a + b).
Proof.
  unfold wrap64.
  replace ((a + 2 ^ 63) mod 2 ^ 64 - 2 ^ 63 + b + 2 ^ 63)%Z
    with ((a + 2 ^ 63) mod 2 ^ 64 + b)%Z by lia.
  rewrite Zplus_mod_idemp_l. do 2 f_equal. lia.
Qed.

Lemma wrap64_add_r a b : wrap64 (a + wrap64 b) = wrap64 (a + b).
Proof. rewrite Z.add_comm, wrap64_add_l. f_equal. lia. Qed.

Lemma wrap64_sub_l a b : wrap64 (wrap64 a - b) = wrap64 (a - b).
Proof. unfold Z.sub. apply wrap64_add_l. Qed.

Lemma wrap64_sub_r a b : wrap64 (a - wrap64 b) = wrap64 (a - b).
Proof.
  unfold wrap64.
  replace (a - ((b + 2 ^ 63) mod 2 ^ 64 - 2 ^ 63) + 2 ^ 63)%Z
    with (a + 2 ^ 63 + 2 ^ 63 - (b + 2 ^ 63) mod 2 ^ 64)%Z by lia.
  rewrite Zminus_mod_idemp_r. do 2 f_equal. lia.
Qed.

Lemma wrap32_id z : is_int32 z → wrap32 z = z.
Proof. unfold is_int32, wrap32. intros ?. rewrite Z.mod_small; lia. Qed.

#[export] Hint Rewrite wrap64_add_l wrap64_add_r wrap64_sub_l wrap64_sub_r : wrap64.

(** ** Sums over lists *)

Definition sumZ {A} (f : A → Z) (l : list A) : Z := foldr (λ x acc, (f x + acc)%Z) 0%Z l.

Lemma sumZ_app {A} (f : A → Z) l1 l2 : sumZ f (l1 ++ l2) = (sumZ f l1 + sumZ f l2)%Z.
Proof. induction l1; simpl; lia. Qed.

#[export] Instance sumZ_perm {A} (f : A → Z) : Proper ((≡ₚ) ==> (=)) (sumZ f).
Proof. induction 1; simpl; lia. Qed.

(** ** Lemmas on [sort.Search] *)

#[global] Arguments Nat.div : simpl never.
#[global] Arguments Nat.modulo : simpl never.

Lemma midpoint_lt i j : i < j → i + (j - i) / 2 < j.
Proof. intros. pose proof (Nat.div_lt (j - i) 2). lia. Qed.

Lemma search_loop_range fuel f i j :
  i ≤ j → i ≤ search_loop fuel f i j ≤ j.
Proof.
  revert i j. induction fuel as [|fuel IH]; intros i j Hij; simpl; [lia|].
  case_decide; [|lia].
  pose proof (midpoint_lt i j).
  pose proof (IH i (i + (j - i) / 2)). pose proof (IH (S (i + (j - i) / 2)) j).
  destruct (f _); lia.
Qed.

Lemma search_loop_spec fuel (f : nat → bool) i j :
  (∀ a b, a ≤ b → f a = true → f b = true) →
  i ≤ j → j - i ≤ fuel →
  (∀ a, a < i → f a = false) → (∀ a, j ≤ a → f a = true) →
  (∀ a, a < search_loop fuel f i j → f a = false) ∧
  (∀ a, search_loop fuel f i j ≤ a → f a = true).
Proof.
  intros Hmono. revert i j.
  induction fuel as [|fuel IH]; intros i j Hij Hfuel Hlo Hhi; simpl.
  { replace j with i in * by lia. auto. }
  case_decide; [|replace j with i in * by lia; auto].
  pose proof (midpoint_lt i j).
  destruct (f (i + (j - i) / 2)) eqn:Hf; apply IH; try lia; eauto.
  intros a Ha. destruct (f a) eqn:Hfa; [|done].
  rewrite (Hmono a (i + (j - i) / 2)) in Hf; [done|lia|done].
Qed.

(** [sort.Search] on a monotone test returns the boundary. *)
Lemma sort_Search_spec n (f : nat → bool) :
  (∀ a b, a ≤ b → b < n → f a = true → f b = true) →
  sort_Search n f ≤ n ∧
  (∀ a, a < sort_Search n f → f a = false) ∧
  (∀ a, sort_Search n f ≤ a < n → f a = true).
Proof.
  intros Hmono. unfold sort_Search.
  pose (g := λ a, if decide (a < n) then f a else true).
  assert (Hext : ∀ fuel i j, j ≤ n → search_loop fuel f i j = search_loop fuel g i j).
  { induction fuel as [|fuel IH]; intros i j Hj; simpl; [done|].
    case_decide; [|done].
    pose proof (midpoint_lt i j).
    unfold g at 1. rewrite decide_True by lia.
    destruct (f _); apply IH; lia. }
  rewrite Hext by lia.
  pose proof (search_loop_range n g 0 n (Nat.le_0_l n)).
  destruct (search_loop_spec n g 0 n) as [Hlo Hhi]; try lia.
  - intros a b Hab. unfold g. repeat case_decide; try done; [|lia]. eauto.
  - intros a Ha. unfold g. rewrite decide_False; [done|lia].
  - split; [lia|]. split.
    + intros a Ha. specialize (Hlo a Ha). unfold g in Hlo. case_decide; done.
    + intros a [Ha ?]. specialize (Hhi a Ha). unfold g in Hhi. case_decide; done.
Qed.

(** ** Lemmas on map iteration *)

Section map_range.
Context `{!MapRange} {K : Type} `{Countable K} {V : Type}.
Implicit Types m : gmap K V.

Lemma elem_of_map_range m k v : (k, v) ∈ map_range m ↔ m !! k = Some v.
Proof. rewrite map_range_perm. apply elem_of_map_to_list. Qed.

Lemma NoDup_fst_map_range m : NoDup (map_range m).*1.
Proof. rewrite map_range_perm. apply NoDup_fst_map_to_list. Qed.

Lemma list_to_map_range m : (list_to_map (map_range m) : gmap K V) = m.
Proof.
  transitivity (list_to_map (map_to_list m) : gmap K V); [|apply list_to_map_to_list].
  apply list_to_map_proper.
  - apply NoDup_fst_map_range.
  - apply map_range_perm.
Qed.

(** Summing over a map what only the entry of one key contributes. *)
Lemma sumZ_map_range (f : V → Z) m k :
  sumZ (λ e : K * V, if decide (k = e.1) then f e.2 else 0%Z) (map_range m)
  = from_option f 0%Z (m !! k).
Proof.
  assert (Hzero : ∀ l : list (K * V), k ∉ l.*1 →
    sumZ (λ e : K * V, if decide (k = e.1) then f e.2 else 0%Z) l = 0%Z).
  { induction l as [|[k' v] l IH]; csimpl; [done|].
    intros [Hk Hl]%not_elem_of_cons. rewrite decide_False, IH; done. }
  rewrite map_range_perm. destruct (m !! k) as [v|] eqn:Hm.
  - rewrite <-(map_to_list_delete m k v) by done. simpl.
    rewrite decide_True by done. rewrite Hzero; [simpl; lia|].
    apply (not_elem_of_list_to_map (M := gmap K)).
    by rewrite list_to_map_to_list, lookup_delete_eq.
  - apply Hzero, (not_elem_of_list_to_map (M := gmap K)). by rewrite list_to_map_to_list.
Qed.

(** A loop over a map in which the entry of [k] overwrites what [g] reads. *)
Lemma foldl_map_range {S A} (g : S → A) (step : S → K * V → S) (f : V → A) k m s :
  (∀ s e, g (step s e) = if decide (k = e.1) then f e.2 else g s) →
  g (foldl step s (map_range m)) = from_option f (g s) (m !! k).
Proof.
  intros Hstep. rewrite <-(list_to_map_range m) at 2.
  pose proof (NoDup_fst_map_range m) as Hnd. revert s Hnd.
  induction (map_range m) as [|[k' v] l IH]; intros s Hnd; simpl.
  { by rewrite lookup_empty. }
  csimpl in Hnd. apply NoDup_cons in Hnd as [Hk Hnd]. rewrite IH, Hstep by done. simpl.
  apply (not_elem_of_list_to_map_1 (M := gmap K)) in Hk.
  destruct (decide (k = k')) as [->|Hne].
  - by rewrite Hk, lookup_insert_eq.
  - by rewrite lookup_insert_ne.
Qed.

Lemma length_map_range m : length (map_range m) = size m.
Proof. rewrite map_range_perm. apply length_map_to_list. Qed.

Lemma elem_of_fst_map_range m k : k ∈ (map_range m).*1 ↔ is_Some (m !! k).
Proof.
  rewrite list_elem_of_fmap. split.
  - intros [[k' v] [-> Hin]]. apply elem_of_map_range in Hin. eauto.
  - intros [v Hv]. exists (k, v). by rewrite elem_of_map_range.
Qed.
End map_range.

(** ** Lemmas on strings *)

Lemma split_on_nonempty sep s : split_on sep s ≠ [].
Proof. destruct s as [|c s]; simpl; [done|]. repeat case_match; done. Qed.

Lemma split_on_none sep s : string_has sep s = false → split_on sep s = [s].
Proof.
  induction s as [|c s IH]; simpl; [done|].
  intros [Hc Hs]%orb_false_iff. apply bool_decide_eq_false in Hc.
  rewrite decide_False by congruence. by rewrite (IH Hs).
Qed.

Lemma split_on_app sep s1 s2 :
  string_has sep s1 = false →
  split_on sep (s1 +:+ String sep s2) = s1 :: split_on sep s2.
Proof.
  induction s1 as [|c s1 IH]; simpl; [intros _; by rewrite decide_True|].
  intros [Hc Hs]%orb_false_iff. apply bool_decide_eq_false in Hc.
  rewrite decide_False by congruence. by rewrite (IH Hs).
Qed.

(** Splitting a joined list of words without the separator. *)
Lemma split_on_join sep l :
  l ≠ [] → Forall (λ s, string_has sep s = false) l →
  split_on sep (join (String sep "") l) = l.
Proof.
  intros Hne Hl. induction Hl as [|s l Hs Hl IH]; [done|].
  destruct l as [|s' l]; [by apply split_on_none|].
  change (join (String sep "") (s :: s' :: l)) with
    (s +:+ String sep (join (String sep "") (s' :: l))).
  rewrite split_on_app by done. f_equal. by apply IH.
Qed.

Lemma app_empty_r_str s : s +:+ "" = s.
Proof. induction s as [|c s IH]; [done|]. change (String c (s +:+ "") = String c s). by f_equal. Qed.

Lemma app_assoc_str (a b c : string) : (a +:+ b) +:+ c = a +:+ (b +:+ c).
Proof.
  induction a as [|x a IH]; [done|].
  change (String x ((a +:+ b) +:+ c) = String x (a +:+ (b +:+ c))). by rewrite IH.
Qed.

Lemma length_app_str s1 s2 : String.length (s1 +:+ s2) = String.length s1 + String.length s2.
Proof. induction s1 as [|c s1 IH]; [done|]. simpl. by rewrite <-IH. Qed.

(** ** Lemmas on numbers in text *)

Lemma parse_digits_app acc s1 s2 :
  parse_digits acc (s1 +:+ s2) = parse_digits acc s1 ≫= λ a, parse_digits a s2.
Proof.
  revert acc. induction s1 as [|c s1 IH]; intros acc; [done|]. simpl.
  destruct (digit_value c); [apply IH|done].
Qed.

Lemma digit_value_char x : (x < 10)%N → digit_value (pretty_N_char x) = Some (Z.of_N x).
Proof.
  intros Hx. assert (x ∈ [0; 1; 2; 3; 4; 5; 6; 7; 8; 9]%N) as Hin by set_solver by lia.
  each_elem Hin ltac:(vm_compute; reflexivity).
Qed.

Lemma parse_digits_pretty_go x s :
  parse_digits 0 (pretty_N_go x s) = parse_digits (Z.of_N x) s.
Proof.
  revert s. induction (N.lt_wf_0 x) as [x _ IH]; intros s.
  destruct (decide (x = 0)%N) as [->|Hx]; [by rewrite pretty_N_go_0|].
  rewrite pretty_N_go_step by lia. rewrite IH by (apply N.div_lt; lia). simpl.
  rewrite digit_value_char by (by apply N.mod_lt). f_equal.
  rewrite (N.div_mod' x 10) at 3. lia.
Qed.

Lemma parse_digits_pretty (x : N) : parse_digits 0 (pretty x) = Some (Z.of_N x).
Proof.
  unfold pretty, pretty_N. case_decide as Hx; [by subst x|]. apply parse_digits_pretty_go.
Qed.

(** Numbers are written without leading zeros. *)
Lemma pretty_go_head x s :
  (0 < x)%N → ∃ c s', pretty_N_go x s = String c s' ∧ digit_value c ≠ None ∧ c ≠ "0"%char.
Proof.
  revert s. induction (N.lt_wf_0 x) as [x _ IH]; intros s Hx. rewrite pretty_N_go_step by done.
  destruct (decide (x < 10)%N) as [Hlt|Hge].
  - rewrite N.div_small, pretty_N_go_0, N.mod_small by done. eexists _, _. split; [done|].
    rewrite digit_value_char by done. split; [done|].
    assert (x ∈ [1; 2; 3; 4; 5; 6; 7; 8; 9]%N) as Hin by set_solver by lia.
    each_elem Hin ltac:(discriminate).
  - apply IH; [apply N.div_lt; lia|]. apply N.div_str_pos. lia.
Qed.

Lemma ParseInt_FormatInt_nonneg (m : Z) : (0 ≤ m)%Z → is_int64 m → ParseInt (FormatInt m) = Some m.
Proof.
  intros Hm Hi. destruct m as [|p|p]; [done| |lia]. unfold FormatInt.
  change (pretty (Z.pos p)) with (pretty (N.pos p)).
  pose proof (parse_digits_pretty (N.pos p)) as Hparse.
  assert (∃ c s, pretty (N.pos p) = String c s ∧ digit_value c ≠ None ∧ c ≠ "0"%char) as (c & s & Hs & Hc & _).
  { unfold pretty, pretty_N. rewrite decide_False by done. by apply pretty_go_head. }
  rewrite Hs in *. unfold ParseInt.
  assert ((match String c s with
    | String "+" s' => (false, s') | String "-" s' => (true, s') | _ => (false, String c s)
    end) = (false, String c s)) as ->.
  { destruct c as [[] [] [] [] [] [] [] []]; done. }
  rewrite Hparse. by rewrite decide_True.
Qed.

(** ** Lemmas on lists *)

(** The list around an index, before and after an update there. *)
Lemma insert_split {A} (l : list A) i x :
  l !! i = Some x → ∃ l1 l2, l = l1 ++ x :: l2 ∧ ∀ y, <[i := y]> l = l1 ++ y :: l2.
Proof.
  intros (l1 & l2 & -> & ->)%list_elem_of_split_length. exists l1, l2. split; [done|].
  intros y. by rewrite insert_app_r_alt, Nat.sub_diag by lia.
Qed.

(** Visiting the elements of a list in another order of its indices. *)
Lemma omap_lookup_order {A} (l : list A) order :
  order ≡ₚ seq 0 (length l) → omap (λ i, l !! i) order ≡ₚ l.
Proof.
  intros ->. enough (H : ∀ pre, omap (λ i, (pre ++ l) !! i) (seq (length pre) (length l)) = l).
  { specialize (H []). simpl in H. by rewrite H. }
  induction l as [|x l IH]; intros pre; [done|]. csimpl.
  rewrite list_lookup_middle by done. f_equal. rewrite (cons_middle x), app_assoc.
  specialize (IH (pre ++ [x])). rewrite length_app in IH. simpl in IH.
  by rewrite Nat.add_1_r in IH.
Qed.

Lemma filter_all_true {A} (P : A → Prop) `{!∀ x, Decision (P x)} (l : list A) :
  Forall P l → filter P l = l.
Proof. induction 1; [done|]. rewrite filter_cons_True by done. congruence. Qed.

Lemma filter_all_false {A} (P : A → Prop) `{!∀ x, Decision (P x)} (l : list A) :
  Forall (λ x, ¬ P x) l → filter P l = [].
Proof. induction 1; [done|]. by rewrite filter_cons_False. Qed.

(** Counting on from anywhere goes once through the residues. *)
Lemma residues_order (start : Z) (k : nat) :
  (0 ≤ start)%Z →
  (λ i, Z.to_nat ((start + Z.of_nat i) mod Z.of_nat k)) <$> seq 0 k ≡ₚ seq 0 k.
Proof.
  intros Hstart. destruct (decide (k = 0)) as [->|Hk]; [done|].
  set (f := λ i, Z.to_nat ((start + Z.of_nat i) mod Z.of_nat k)).
  assert (Hlt : ∀ i, f i < k).
  { intros i. unfold f. pose proof (Z.mod_pos_bound (start + Z.of_nat i) (Z.of_nat k)). lia. }
  assert (Hnd : NoDup (f <$> seq 0 k)).
  { apply NoDup_fmap_2_strong; [|apply NoDup_seq]. intros i j Hi%elem_of_seq Hj%elem_of_seq Hij.
    unfold f in Hij. pose proof (Z.mod_pos_bound (start + Z.of_nat i) (Z.of_nat k)).
    pose proof (Z.mod_pos_bound (start + Z.of_nat j) (Z.of_nat k)).
    pose proof (Z.div_mod (start + Z.of_nat i) (Z.of_nat k)).
    pose proof (Z.div_mod (start + Z.of_nat j) (Z.of_nat k)).
    assert ((start + Z.of_nat i) / Z.of_nat k = (start + Z.of_nat j) / Z.of_nat k)%Z by nia.
    nia. }
  apply submseteq_length_Permutation; [|by rewrite length_fmap].
  apply NoDup_submseteq; [done|]. intros x (i & -> & _)%list_elem_of_fmap.
  apply elem_of_seq. specialize (Hlt i). lia.
Qed.

(** ** Trimming of white space *)

(** The encodings of the characters [strings.TrimSpace] removes. *)
Definition space_codes : list (list nat) :=
  [[32]; [9]; [10]; [11]; [12]; [13]; [194; 133]; [194; 160]; [225; 154; 128];
   [226; 128; 128]; [226; 128; 129]; [226; 128; 130]; [226; 128; 131]; [226; 128; 132];
   [226; 128; 133]; [226; 128; 134]; [226; 128; 135]; [226; 128; 136]; [226; 128; 137];
   [226; 128; 138]; [226; 128; 168]; [226; 128; 169]; [226; 128; 175]; [226; 129; 159];
   [227; 128; 128]].

(** [s] without the prefix [p]. *)
Fixpoint strip_prefix (p s : list nat) : option (list nat) :=
  match p, s with
  | [], _ => Some s
  | x :: p, y :: s => if decide (x = y) then strip_prefix p s else None
  | _ :: _, [] => None
  end.

(** Remove encodings from the front; every turn removes a byte of [fuel]. *)
Fixpoint trim_front (codes : list (list nat)) (fuel : nat) (s : list nat) : list nat :=
  match fuel with
  | 0 => s
  | S n =>
      match head (omap (λ p, strip_prefix p s) codes) with
      | Some s' => trim_front codes n s'
      | None => s
      end
  end.

Definition TrimSpace (s : string) : string :=
  let bytes := nat_of_ascii <$> String.list_ascii_of_string s in
  let left := trim_front space_codes (length bytes) bytes in
  let right := reverse (trim_front (reverse <$> space_codes) (length left) (reverse left)) in
  String.string_of_list_ascii (ascii_of_nat <$> right).

(** ** Reachability *)

Lemma rtc_invariant {A} (R : relation A) (P : A → Prop) (x y : A) :
  (∀ a b, R a b → P a → P b) → rtc R x y → P x → P y.
Proof. intros HR Hxy. induction Hxy; eauto. Qed.
