(* ===== verification/Workqueue.v ===== *)
(** * The controllers' work queue (pkg/util/workqueue/queue.go, metrics.go)

    [Queue] is the Go [Type]: an ordered slice of items to process, the set of
    dirty items and the set of items being processed.  Every method runs under
    the queue's lock, so a method is one atomic step; [Queue_Get] waits on a
    condition variable, which [WorkSystem] models with the number of blocked and
    of signalled goroutines.

    Theorems: the documented invariant of the three collections, that an item is
    never handed to two workers at once, that an added item is never lost, that
    no wake-up is lost, that the metrics count the dirty items, and that the
    queue refines the abstract queue of pending, running and re-added items. *)

From S2P Require Import Prelude.

(** ** Metrics

    The gauges, counters and summaries belong to a metrics provider; what is
    kept here is the sequence of observations the queue reports to them. *)

Record defaultQueueMetrics (A : Type) `{Countable A} := mkQueueMetrics {
  depth : Z;
  adds : Z;
  latency : list Z;
  workDuration : list Z;
  addTimes : gmap A Z;
  processingStartTimes : gmap A Z
}.
Arguments mkQueueMetrics {A _ _} _ _ _ _ _ _.
Arguments depth {A _ _} _.
Arguments adds {A _ _} _.
Arguments latency {A _ _} _.
Arguments workDuration {A _ _} _.
Arguments addTimes {A _ _} _.
Arguments processingStartTimes {A _ _} _.

(** Which waiting goroutines a method wakes. *)
Inductive notify := NoNotify | Signal | Broadcast.

Section workqueue.
Context {A : Type} `{Countable A}.
Implicit Types (x y : A) (now : Z).

(** Nanoseconds between two instants, in whole microseconds. *)
Definition sinceInMicroseconds (now start : Z) : Z := ((now - start) ÷ 1000)%Z.

(** A nil metrics pointer ([None]) ignores every call. *)
Definition metrics_add (now : Z) (item : A) (m : option (defaultQueueMetrics A))
    : option (defaultQueueMetrics A) :=
  m ← m;
  Some (mkQueueMetrics
          (depth m + 1) (adds m + 1) (latency m) (workDuration m)
          (match addTimes m !! item with
           | Some _ => addTimes m
           | None => <[item := now]> (addTimes m)
           end)
          (processingStartTimes m)).

Definition metrics_get (now : Z) (item : A) (m : option (defaultQueueMetrics A))
    : option (defaultQueueMetrics A) :=
  m ← m;
  let started := <[item := now]> (processingStartTimes m) in
  match addTimes m !! item with
  | Some startTime =>
      Some (mkQueueMetrics
              (depth m - 1) (adds m)
              (latency m ++ [sinceInMicroseconds now startTime])
              (workDuration m) (delete item (addTimes m)) started)
  | None =>
      Some (mkQueueMetrics
              (depth m - 1) (adds m) (latency m) (workDuration m) (addTimes m) started)
  end.

Definition metrics_done (now : Z) (item : A) (m : option (defaultQueueMetrics A))
    : option (defaultQueueMetrics A) :=
  m ← m;
  match processingStartTimes m !! item with
  | Some startTime =>
      Some (mkQueueMetrics
              (depth m) (adds m) (latency m)
              (workDuration m ++ [sinceInMicroseconds now startTime])
              (addTimes m) (delete item (processingStartTimes m)))
  | None => Some m
  end.

Definition newQueueMetrics (name : string) : option (defaultQueueMetrics A) :=
  if decide (String.length name = 0) then None
  else Some (mkQueueMetrics 0 0 [] [] ∅ ∅).

(** ** The queue *)

Record Queue := mkQueue {
  queue : list A;
  dirty : gset A;
  processing : gset A;
  shuttingDown : bool;
  metrics : option (defaultQueueMetrics A)
}.

Definition NewNamed (name : string) : Queue :=
  mkQueue [] ∅ ∅ false (newQueueMetrics name).

Definition New : Queue := NewNamed "".

Definition Queue_Add (now : Z) (item : A) (q : Queue) : Queue * notify :=
  if shuttingDown q then (q, NoNotify)
  else if decide (item ∈ dirty q) then (q, NoNotify)
  else
    let m := metrics_add now item (metrics q) in
    let d := {[item]} ∪ dirty q in
    if decide (item ∈ processing q) then
      (mkQueue (queue q) d (processing q) (shuttingDown q) m, NoNotify)
    else
      (mkQueue (queue q ++ [item]) d (processing q) (shuttingDown q) m, Signal).

Definition Queue_Len (q : Queue) : nat := length (queue q).

(** One pass of [Get] with the lock held: [None] when the goroutine has to
    wait, otherwise the returned item and shutdown flag with the new state. *)
Definition Queue_Get (now : Z) (q : Queue) : option ((option A * bool) * Queue) :=
  match queue q with
  | [] => if shuttingDown q then Some ((None, true), q) else None
  | item :: rest =>
      Some ((Some item, false),
            mkQueue rest (dirty q ∖ {[item]}) ({[item]} ∪ processing q) (shuttingDown q)
              (metrics_get now item (metrics q)))
  end.

Definition Queue_Done (now : Z) (item : A) (q : Queue) : Queue * notify :=
  let m := metrics_done now item (metrics q) in
  let p := processing q ∖ {[item]} in
  if decide (item ∈ dirty q) then
    (mkQueue (queue q ++ [item]) (dirty q) p (shuttingDown q) m, Signal)
  else (mkQueue (queue q) (dirty q) p (shuttingDown q) m, NoNotify).

Definition Queue_ShutDown (q : Queue) : Queue * notify :=
  (mkQueue (queue q) (dirty q) (processing q) true (metrics q), Broadcast).

Definition Queue_ShuttingDown (q : Queue) : bool := shuttingDown q.

(** ** Goroutines sharing a queue

    [waiters] goroutines are blocked in [cond.Wait], [woken] ones have been
    signalled and have yet to take the lock again and re-test the loop guard. *)

Record WorkSystem := mkSystem { wq : Queue; waiters : nat; woken : nat }.

Definition deliver (n : notify) (q : Queue) (s : WorkSystem) : WorkSystem :=
  match n with
  | NoNotify => mkSystem q (waiters s) (woken s)
  | Signal =>
      match waiters s with
      | O => mkSystem q O (woken s)
      | S w => mkSystem q w (S (woken s))
      end
  | Broadcast => mkSystem q O (woken s + waiters s)
  end.

Inductive event :=
  | EAdd (x : A)
  | EGet (x : A)
  | EGetShutdown
  | EBlock
  | EDone (x : A)
  | EShutDown.

#[export] Instance event_eq_dec : EqDecision event.
Proof. solve_decision. Defined.

(** What a goroutine does with the lock held at the head of [Get]'s loop. *)
Definition get_pass (now : Z) (s : WorkSystem) : event * WorkSystem :=
  match Queue_Get now (wq s) with
  | None => (EBlock, mkSystem (wq s) (S (waiters s)) (woken s))
  | Some ((Some x, _), q) => (EGet x, mkSystem q (waiters s) (woken s))
  | Some ((None, _), q) => (EGetShutdown, mkSystem q (waiters s) (woken s))
  end.

(** The users' protocol: [Done] is called for an item handed out by [Get] and
    not yet reported done. *)
Inductive sys_step : WorkSystem → event → WorkSystem → Prop :=
  | step_add s now x :
      sys_step s (EAdd x) (deliver (Queue_Add now x (wq s)).2 (Queue_Add now x (wq s)).1 s)
  | step_get s now :
      sys_step s (get_pass now s).1 (get_pass now s).2
  | step_wake s now w :
      woken s = S w →
      sys_step s (get_pass now (mkSystem (wq s) (waiters s) w)).1
                 (get_pass now (mkSystem (wq s) (waiters s) w)).2
  | step_done s now x :
      x ∈ processing (wq s) →
      sys_step s (EDone x) (deliver (Queue_Done now x (wq s)).2 (Queue_Done now x (wq s)).1 s)
  | step_shutdown s :
      sys_step s EShutDown (deliver (Queue_ShutDown (wq s)).2 (Queue_ShutDown (wq s)).1 s).

Inductive sys_run : WorkSystem → list event → WorkSystem → Prop :=
  | run_nil s : sys_run s [] s
  | run_snoc s tr s' e s'' : sys_run s tr s' → sys_step s' e s'' → sys_run s (tr ++ [e]) s''.

Definition initial (name : string) : WorkSystem := mkSystem (NewNamed name) 0 0.

(** The same steps seen by the queue alone. *)
Inductive queue_step : Queue → event → Queue → Prop :=
  | qstep_add q now x : queue_step q (EAdd x) (Queue_Add now x q).1
  | qstep_get q now x q' :
      Queue_Get now q = Some ((Some x, false), q') → queue_step q (EGet x) q'
  | qstep_stop q : queue q = [] → shuttingDown q = true → queue_step q EGetShutdown q
  | qstep_block q : queue q = [] → shuttingDown q = false → queue_step q EBlock q
  | qstep_done q now x :
      x ∈ processing q → queue_step q (EDone x) (Queue_Done now x q).1
  | qstep_shutdown q : queue_step q EShutDown (Queue_ShutDown q).1.

(** ** Invariants *)

(** The comment on the [queue] field, with the converse it leaves implicit. *)
Definition queue_wf (q : Queue) : Prop :=
  NoDup (queue q) ∧ (∀ x, x ∈ queue q ↔ x ∈ dirty q ∧ x ∉ processing q).

(** A goroutine waits only when there is a signalled one for every queued item,
    and none waits once the queue is shutting down. *)
Definition wakeups_wf (s : WorkSystem) : Prop :=
  (0 < waiters s → length (queue (wq s)) ≤ woken s) ∧
  (shuttingDown (wq s) = true → waiters s = 0).

Definition metrics_wf (q : Queue) : Prop :=
  match metrics q with
  | None => True
  | Some m =>
      depth m = Z.of_nat (size (dirty q)) ∧
      dom (addTimes m) = dirty q ∧
      dom (processingStartTimes m) = processing q
  end.

(** ** The abstract queue

    What the package comment promises, on the items waiting ([pending], in
    order), the items a worker holds ([running]) and those of them added again
    meanwhile ([again]). *)

Record AbsQueue := mkAbs {
  pending : list A;
  running : gset A;
  again : gset A;
  closed : bool
}.

Definition abs_add (x : A) (a : AbsQueue) : AbsQueue :=
  if closed a then a
  else if decide (x ∈ running a) then
    mkAbs (pending a) (running a) ({[x]} ∪ again a) (closed a)
  else if decide (x ∈ pending a) then a
  else mkAbs (pending a ++ [x]) (running a) (again a) (closed a).

Definition abs_done (x : A) (a : AbsQueue) : AbsQueue :=
  mkAbs (if decide (x ∈ again a) then pending a ++ [x] else pending a)
        (running a ∖ {[x]}) (again a ∖ {[x]}) (closed a).

Inductive abs_step : AbsQueue → event → AbsQueue → Prop :=
  | abs_step_add a x : abs_step a (EAdd x) (abs_add x a)
  | abs_step_get a x rest :
      pending a = x :: rest → x ∉ running a →
      abs_step a (EGet x) (mkAbs rest ({[x]} ∪ running a) (again a) (closed a))
  | abs_step_get_shutdown a :
      pending a = [] → closed a = true → abs_step a EGetShutdown a
  | abs_step_block a :
      pending a = [] → closed a = false → abs_step a EBlock a
  | abs_step_done a x : x ∈ running a → abs_step a (EDone x) (abs_done x a)
  | abs_step_shutdown a :
      abs_step a EShutDown (mkAbs (pending a) (running a) (again a) true).

Definition abstract (q : Queue) : AbsQueue :=
  mkAbs (queue q) (processing q) (dirty q ∩ processing q) (shuttingDown q).

(** ** Preservation of the invariants *)

Lemma NewNamed_wf name : queue_wf (NewNamed name) ∧ metrics_wf (NewNamed name).
Proof.
  split; [split; [constructor|set_solver]|].
  unfold metrics_wf, NewNamed, newQueueMetrics; cbn [metrics]. case_decide; simpl; [done|].
  rewrite !dom_empty_L. done.
Qed.

Lemma Queue_Add_wf now x q : queue_wf q → queue_wf (Queue_Add now x q).1.
Proof.
  intros [Hnd Hq]. unfold Queue_Add. split_ifs; try by split.
  - split; [done|]. set_solver.
  - split; simpl; [|set_solver].
    apply NoDup_app. repeat split; [done|set_solver|apply NoDup_singleton].
Qed.

Lemma Queue_Get_wf now r q q' :
  Queue_Get now q = Some (r, q') → queue_wf q → queue_wf q'.
Proof.
  unfold Queue_Get. intros Hget [Hnd Hq].
  destruct (queue q) as [|y rest] eqn:E; [split_ifs; by rewrite <-?E in * |].
  simplify_eq/=. apply NoDup_cons in Hnd as [Hy Hnd].
  split; [done|]. intros z. specialize (Hq z). rewrite elem_of_cons in Hq. set_solver.
Qed.

Lemma Queue_Done_wf now x q :
  x ∈ processing q → queue_wf q → queue_wf (Queue_Done now x q).1.
Proof.
  intros Hx [Hnd Hq]. unfold Queue_Done. split_ifs.
  - split; simpl.
    + apply NoDup_app. repeat split; [done|set_solver|apply NoDup_singleton].
    + intros z. rewrite elem_of_app, Hq. destruct (decide (z = x)); set_solver.
  - split; simpl; [done|]. intros z. rewrite Hq. set_solver.
Qed.

Lemma Queue_Get_shape now q x b q' :
  Queue_Get now q = Some ((Some x, b), q') →
  b = false ∧ queue q = x :: queue q' ∧
  dirty q' = dirty q ∖ {[x]} ∧ processing q' = {[x]} ∪ processing q ∧
  shuttingDown q' = shuttingDown q ∧ metrics q' = metrics_get now x (metrics q).
Proof. unfold Queue_Get. intros. split_ifs; naive_solver. Qed.

Lemma Queue_Get_stop now q b q' :
  Queue_Get now q = Some ((None, b), q') →
  b = true ∧ queue q = [] ∧ shuttingDown q = true ∧ q' = q.
Proof. unfold Queue_Get. intros. split_ifs; naive_solver. Qed.

Lemma Queue_Get_block now q :
  Queue_Get now q = None → queue q = [] ∧ shuttingDown q = false.
Proof. unfold Queue_Get. intros. split_ifs; naive_solver. Qed.

Lemma deliver_wq n q s : wq (deliver n q s) = q.
Proof. unfold deliver. split_ifs; done. Qed.

(** Every outcome of one pass of [Get]. *)
Lemma get_pass_cases now s :
  (∃ x q', get_pass now s = (EGet x, mkSystem q' (waiters s) (woken s)) ∧
     Queue_Get now (wq s) = Some ((Some x, false), q')) ∨
  (get_pass now s = (EGetShutdown, s) ∧
     queue (wq s) = [] ∧ shuttingDown (wq s) = true) ∨
  (get_pass now s = (EBlock, mkSystem (wq s) (S (waiters s)) (woken s)) ∧
     queue (wq s) = [] ∧ shuttingDown (wq s) = false).
Proof.
  unfold get_pass. destruct (Queue_Get now (wq s)) as [[[[x|] b] q']|] eqn:E.
  - left. pose proof (Queue_Get_shape _ _ _ _ _ E) as (-> & _). eauto.
  - right; left. apply Queue_Get_stop in E as (-> & ? & ? & ->). by destruct s.
  - right; right. apply Queue_Get_block in E as []. done.
Qed.

(** ** Metrics *)

(** ** Metrics *)

Lemma Queue_Add_metrics now x q : metrics_wf q → metrics_wf (Queue_Add now x q).1.
Proof.
  unfold metrics_wf, Queue_Add. intros Hm.
  destruct (shuttingDown q); [done|]. case_decide as Hx; [done|].
  destruct (metrics q) as [m|]; [destruct Hm as (Hd & Ha & Hp)|by case_decide].
  assert (addTimes m !! x = None) as HN by (apply not_elem_of_dom; set_solver).
  case_decide; simpl; rewrite HN, dom_insert_L, size_union, size_singleton, Hd by set_solver.
  all: split_and!; [lia|set_solver|done].
Qed.

Lemma Queue_Get_metrics now r q q' :
  Queue_Get now q = Some (r, q') → queue_wf q → metrics_wf q → metrics_wf q'.
Proof.
  intros Hget Hwf Hm. destruct r as [[x|] b]; cycle 1.
  { by apply Queue_Get_stop in Hget as (_ & _ & _ & ->). }
  apply Queue_Get_shape in Hget as (_ & Hq & Hd & Hp & _ & Hmm).
  destruct Hwf as [_ Hwf]. specialize (Hwf x). rewrite Hq, elem_of_cons in Hwf.
  assert (x ∈ dirty q) as Hx by naive_solver.
  unfold metrics_wf in *. rewrite Hmm, Hd, Hp.
  destruct (metrics q) as [m|]; [|done]. destruct Hm as (Hdep & Ha & Hps). simpl.
  assert (is_Some (addTimes m !! x)) as [t ->] by (apply elem_of_dom; by rewrite Ha).
  simpl. rewrite dom_delete_L, dom_insert_L, Ha, Hps, Hdep.
  split_and!; [|done|done].
  rewrite size_difference, size_singleton by set_solver.
  assert (size (dirty q) ≠ 0) by (rewrite size_empty_iff; set_solver). lia.
Qed.

Lemma Queue_Done_metrics now x q :
  x ∈ processing q → metrics_wf q → metrics_wf (Queue_Done now x q).1.
Proof.
  intros Hx Hm. unfold metrics_wf, Queue_Done in *.
  destruct (metrics q) as [m|]; [destruct Hm as (Hdep & Ha & Hps)|by case_decide].
  assert (is_Some (processingStartTimes m !! x)) as [t Ht]
    by (apply elem_of_dom; by rewrite Hps).
  case_decide; simpl; rewrite Ht; simpl; rewrite dom_delete_L, Hps; done.
Qed.

(** ** Wake-ups *)

Lemma deliver_wakeups n q s :
  wakeups_wf s →
  shuttingDown q = shuttingDown (wq s) →
  (n = NoNotify ∧ length (queue q) = length (queue (wq s)) ∨
   n = Signal ∧ length (queue q) = S (length (queue (wq s)))) →
  wakeups_wf (deliver n q s).
Proof.
  intros [Hw Hs] Hsd Hn. unfold wakeups_wf, deliver.
  destruct Hn as [[-> Hl]|[-> Hl]]; simpl; rewrite ?Hsd, ?Hl; [done|].
  destruct (waiters s) as [|w]; simpl; rewrite ?Hsd, ?Hl;
    (split; [lia|]); intros Hd; specialize (Hs Hd); lia.
Qed.

(** A goroutine that re-tests the loop guard leaves the invariant true even when
    it is itself the one the last queued item was signalled to. *)
Lemma get_pass_wakeups now q ws w :
  (0 < ws → length (queue q) ≤ S w) → (shuttingDown q = true → ws = 0) →
  wakeups_wf (get_pass now (mkSystem q ws w)).2.
Proof.
  intros Hw Hs.
  destruct (get_pass_cases now (mkSystem q ws w))
    as [(x & q' & -> & Hg) | [(-> & Hq & Hd) | (-> & Hq & Hd)]];
    unfold wakeups_wf; simpl in *.
  - apply Queue_Get_shape in Hg as (_ & Hq & _ & _ & Hd & _).
    rewrite Hd. rewrite Hq in Hw. simpl in Hw. split; [lia|done].
  - rewrite Hq; simpl. split; [lia|done].
  - rewrite Hq, Hd; simpl. split; [lia|done].
Qed.

(** ** Reachable states *)

Definition system_wf (s : WorkSystem) : Prop :=
  queue_wf (wq s) ∧ wakeups_wf s ∧ metrics_wf (wq s).

Lemma get_pass_system_wf now q ws w :
  queue_wf q → metrics_wf q →
  (0 < ws → length (queue q) ≤ S w) → (shuttingDown q = true → ws = 0) →
  system_wf (get_pass now (mkSystem q ws w)).2.
Proof.
  intros Hq Hm Hw Hs.
  assert (Hwk := get_pass_wakeups now q ws w Hw Hs). unfold system_wf.
  destruct (get_pass_cases now (mkSystem q ws w))
    as [(x & q' & Heq & Hg) | [(Heq & _) | (Heq & _)]]; rewrite Heq in *; simpl in *;
    split_and!; eauto using Queue_Get_wf, Queue_Get_metrics.
Qed.

Lemma sys_step_wf s e s' : sys_step s e s' → system_wf s → system_wf s'.
Proof.
  intros Hst (Hq & Hw & Hm). destruct Hst.
  - split_and!; [..|rewrite deliver_wq; by apply Queue_Add_metrics].
    { rewrite deliver_wq. by apply Queue_Add_wf. }
    apply deliver_wakeups; [done|..];
      unfold Queue_Add; split_ifs; rewrite ?length_app; simpl; auto with lia.
  - destruct s as [q ws w]. destruct Hw. apply get_pass_system_wf; simpl in *; auto.
  - destruct s as [q ws w']. destruct Hw. simpl in *. subst. by apply get_pass_system_wf.
  - split_and!; [..|rewrite deliver_wq; by apply Queue_Done_metrics].
    { rewrite deliver_wq. by apply Queue_Done_wf. }
    apply deliver_wakeups; [done|..];
      unfold Queue_Done; split_ifs; rewrite ?length_app; simpl; auto with lia.
  - split_and!; [done| |done]. split; simpl; [lia|done].
Qed.

Lemma sys_run_wf s tr s' : sys_run s tr s' → system_wf s → system_wf s'.
Proof. induction 1; eauto using sys_step_wf. Qed.

Lemma initial_wf name : system_wf (initial name).
Proof.
  destruct (NewNamed_wf name). split_and!; [done| |done]. split; simpl; lia.
Qed.

Lemma reachable_wf name tr s : sys_run (initial name) tr s → system_wf s.
Proof. intros Hr. eauto using sys_run_wf, initial_wf. Qed.

(** ** Traces *)

(** Whether a worker holds [x] after the events of a trace. *)
Definition holds_after (x : A) (tr : list event) : Prop :=
  ∃ l1 l2, tr = l1 ++ EGet x :: l2 ∧ EDone x ∉ l2.

(** The items handed out along a trace, in order. *)
Definition handed_out (tr : list event) : list A :=
  omap (λ e, match e with EGet x => Some x | _ => None end) tr.

Lemma get_pass_queue_step now q ws w :
  queue_step q (get_pass now (mkSystem q ws w)).1 (wq (get_pass now (mkSystem q ws w)).2).
Proof.
  destruct (get_pass_cases now (mkSystem q ws w))
    as [(x & q' & -> & Hg) | [(-> & ? & ?) | (-> & ? & ?)]]; simpl in *; by econstructor.
Qed.

Lemma sys_step_queue_step s e s' : sys_step s e s' → queue_step (wq s) e (wq s').
Proof.
  destruct 1; rewrite ?deliver_wq; try by constructor.
  - destruct s. apply get_pass_queue_step.
  - apply get_pass_queue_step.
Qed.

Lemma step_processing q e q' :
  queue_step q e q' →
  processing q' =
    match e with
    | EGet x => {[x]} ∪ processing q
    | EDone x => processing q ∖ {[x]}
    | _ => processing q
    end.
Proof.
  destruct 1 as [| q now x q' Hg | | | |]; try done.
  - unfold Queue_Add. split_ifs; done.
  - by apply Queue_Get_shape in Hg as (_ & _ & _ & -> & _).
  - unfold Queue_Done. split_ifs; done.
Qed.

(** What a step does to the ordered slice: it appends at the end, or hands out
    the head. *)
Lemma step_queue q e q' :
  queue_step q e q' → ∃ new, queue q ++ new = handed_out [e] ++ queue q'.
Proof.
  destruct 1 as [| q now x q' Hg | | | |]; try (exists []; by rewrite app_nil_r).
  - unfold Queue_Add. split_ifs; simpl; eauto using app_nil_r.
  - exists []. rewrite app_nil_r. by apply Queue_Get_shape in Hg as (_ & -> & _).
  - unfold Queue_Done. split_ifs; simpl; eauto using app_nil_r.
Qed.

Lemma step_dirty q e q' x :
  queue_step q e q' → x ∈ dirty q → e ≠ EGet x → x ∈ dirty q'.
Proof.
  destruct 1 as [| q now y q' Hg | | | |]; intros Hx Hne; try done.
  - unfold Queue_Add. split_ifs; set_solver.
  - apply Queue_Get_shape in Hg as (_ & _ & -> & _). set_solver.
  - unfold Queue_Done. split_ifs; done.
Qed.

Lemma step_get_fresh q x q' :
  queue_wf q → queue_step q (EGet x) q' → x ∉ processing q.
Proof.
  intros [_ Hwf] Hst. apply Hwf. inversion Hst as [|? ? ? ? Hg| | | |]; subst.
  apply Queue_Get_shape in Hg as (_ & -> & _). set_solver.
Qed.

Lemma step_add_dirty q x q' :
  queue_step q (EAdd x) q' → shuttingDown q = false → x ∈ dirty q'.
Proof.
  inversion 1; intros Hd; subst. unfold Queue_Add. rewrite Hd. split_ifs; set_solver.
Qed.

Lemma step_shuttingDown q e q' :
  queue_step q e q' → e ≠ EShutDown → shuttingDown q' = shuttingDown q.
Proof.
  destruct 1 as [| q now y q' Hg | | | |]; intros Hne; try done.
  - unfold Queue_Add. split_ifs; done.
  - by apply Queue_Get_shape in Hg as (_ & _ & _ & _ & -> & _).
  - unfold Queue_Done. split_ifs; done.
Qed.

Lemma holds_after_snoc x tr e :
  holds_after x (tr ++ [e]) ↔ e = EGet x ∨ (holds_after x tr ∧ e ≠ EDone x).
Proof.
  split.
  - intros (l1 & l2 & Heq & Hn). destruct l2 as [|e' l2 _] using rev_ind.
    + apply app_inj_tail in Heq as [_ ->]. auto.
    + rewrite app_comm_cons, app_assoc in Heq. apply app_inj_tail in Heq as [-> ->].
      right. split; [|set_solver]. exists l1, l2. split; [done|set_solver].
  - intros [->|[(l1 & l2 & -> & Hn) He]].
    + exists tr, []. split; [done|]. set_solver.
    + exists l1, (l2 ++ [e]). rewrite <-app_assoc. split; [done|set_solver].
Qed.

Lemma run_processing name tr s x :
  sys_run (initial name) tr s → x ∈ processing (wq s) ↔ holds_after x tr.
Proof.
  intros Hr. remember (initial name) as s0 eqn:E.
  induction Hr as [|s0 tr s1 e s2 Hr IH Hst]; subst.
  - simpl. split; [set_solver|]. intros (l1 & l2 & Hl & _). by destruct l1.
  - specialize (IH eq_refl). rewrite holds_after_snoc, <-IH, (step_processing _ _ _ (sys_step_queue_step _ _ _ Hst)).
    destruct e; set_solver.
Qed.

Lemma run_snoc_inv s tr e s'' :
  sys_run s (tr ++ [e]) s'' → ∃ s', sys_run s tr s' ∧ sys_step s' e s''.
Proof.
  intros Hr. remember (tr ++ [e]) as l eqn:Htr. destruct Hr; [by destruct tr|].
  apply app_inj_tail in Htr as [-> ->]. eauto.
Qed.

Lemma run_app_inv s tr1 tr2 s'' :
  sys_run s (tr1 ++ tr2) s'' → ∃ s', sys_run s tr1 s' ∧ sys_run s' tr2 s''.
Proof.
  revert s''. induction tr2 as [|e tr2 IH] using rev_ind; intros s''.
  - rewrite app_nil_r. eauto using run_nil.
  - rewrite app_assoc. intros (s' & Hr & Hst)%run_snoc_inv.
    destruct (IH _ Hr) as (s1 & ? & ?). eauto using run_snoc.
Qed.

Lemma run_cons s e s' tr s'' :
  sys_step s e s' → sys_run s' tr s'' → sys_run s (e :: tr) s''.
Proof.
  intros Hst. induction 1 as [s'|s' tr s1 e' s2 Hr IH Hst'].
  - apply (run_snoc _ [] s); [constructor|done].
  - rewrite app_comm_cons. eauto using run_snoc.
Qed.

Lemma run_dirty s tr s' x :
  sys_run s tr s' → x ∈ dirty (wq s) → EGet x ∉ tr → x ∈ dirty (wq s').
Proof.
  induction 1 as [|s tr s1 e s2 Hr IH Hst]; intros Hx Hn; [done|].
  eapply step_dirty; [by apply sys_step_queue_step|apply IH; set_solver|set_solver].
Qed.

Lemma run_open name tr s :
  sys_run (initial name) tr s → EShutDown ∉ tr → shuttingDown (wq s) = false.
Proof.
  intros Hr. remember (initial name) as s0 eqn:E.
  induction Hr as [|s0 tr s1 e s2 Hr IH Hst]; intros Hn; subst; [done|].
  rewrite (step_shuttingDown _ _ _ (sys_step_queue_step _ _ _ Hst)); set_solver.
Qed.

(** ** Refinement of the abstract queue *)

Lemma abstract_add now x q :
  queue_wf q → abstract (Queue_Add now x q).1 = abs_add x (abstract q).
Proof.
  intros [_ Hq]. unfold Queue_Add, abs_add, abstract; simpl.
  destruct (shuttingDown q) eqn:Hs; simpl; [by rewrite Hs|].
  repeat case_decide; simpl; rewrite ?Hs; try done; try (exfalso; naive_solver).
  all: f_equal; set_solver.
Qed.

Lemma abstract_done now x q :
  queue_wf q → x ∈ processing q →
  abstract (Queue_Done now x q).1 = abs_done x (abstract q).
Proof.
  intros [_ Hq] Hx. unfold Queue_Done, abs_done, abstract; simpl.
  repeat case_decide; simpl; try (exfalso; set_solver); f_equal; set_solver.
Qed.

Lemma queue_step_refines q e q' :
  queue_wf q → queue_step q e q' → abs_step (abstract q) e (abstract q').
Proof.
  intros Hwf Hst. destruct Hst as [q now x | q now x q' Hg | | | q now x Hx | q].
  - rewrite abstract_add by done. constructor.
  - pose proof (step_get_fresh _ _ _ Hwf (qstep_get _ _ _ _ Hg)) as Hx.
    apply Queue_Get_shape in Hg as (_ & Hq & Hd & Hp & Hs & _).
    unfold abstract at 2. rewrite Hd, Hp, Hs.
    replace (dirty q ∖ {[x]} ∩ ({[x]} ∪ processing q)) with (again (abstract q))
      by (simpl; set_solver).
    by apply abs_step_get.
  - by constructor.
  - by constructor.
  - rewrite abstract_done by done. by constructor.
  - apply (abs_step_shutdown (abstract q)).
Qed.

(** ** Theorems *)

(** C1.  In every state the users of a queue can reach, however their calls
    interleave, the slice of items to hand out has no duplicates and holds
    exactly the dirty items that no worker is processing. *)
Theorem workqueue_invariant name tr s :
  sys_run (initial name) tr s → queue_wf (wq s).
Proof. intros Hr. by apply reachable_wf in Hr as (? & _). Qed.

(** C2.  Stingy: between two hand-outs of the same item there is a [Done] for
    it, so no item is processed by two workers at once. *)
Theorem workqueue_stingy name x l1 l2 s :
  sys_run (initial name) (l1 ++ EGet x :: l2 ++ [EGet x]) s → EDone x ∈ l2.
Proof.
  rewrite app_comm_cons, app_assoc. intros (s' & Hr & Hst)%run_snoc_inv.
  apply sys_step_queue_step in Hst.
  apply step_get_fresh in Hst; [|by apply reachable_wf in Hr as (? & _)].
  rewrite (run_processing _ _ _ _ Hr) in Hst.
  destruct (decide (EDone x ∈ l2)) as [|Hn]; [done|].
  destruct Hst. by exists l1, l2.
Qed.

(** C3.  No item is lost: an item added while the queue is open is, until it is
    next handed out, either in the slice or held by a worker whose [Done] puts
    it back. *)
Theorem workqueue_no_lost_item name x l1 l2 s :
  sys_run (initial name) (l1 ++ EAdd x :: l2) s →
  EShutDown ∉ l1 → EGet x ∉ l2 →
  x ∈ queue (wq s) ∨
  (x ∈ processing (wq s) ∧ ∀ now, x ∈ queue (Queue_Done now x (wq s)).1).
Proof.
  intros Hr Hopen Hn. pose proof (reachable_wf _ _ _ Hr) as ([_ Hwf] & _).
  apply (run_app_inv _ l1) in Hr as (s1 & Hr1 & Hr2).
  apply (run_app_inv _ [EAdd x]) in Hr2 as (s2 & Hr2 & Hr3).
  apply (run_snoc_inv _ []) in Hr2 as (s1' & Hr1' & Hst).
  inversion Hr1'; subst; [|by destruct tr].
  assert (x ∈ dirty (wq s)) as Hd.
  { eapply run_dirty; [done| |done].
    eapply step_add_dirty; [by apply sys_step_queue_step|by eapply run_open]. }
  destruct (decide (x ∈ processing (wq s))); [right|left; by apply Hwf].
  split; [done|]. intros now. unfold Queue_Done. rewrite decide_True by done. set_solver.
Qed.

(** C22.  No wake-up is lost: whenever items are queued, either no goroutine is
    blocked in [Get] or one that has been signalled is about to take the lock;
    and after [ShutDown] no goroutine stays blocked. *)
Theorem workqueue_no_lost_wakeup name tr s :
  sys_run (initial name) tr s →
  (queue (wq s) ≠ [] → waiters s = 0 ∨ 0 < woken s) ∧
  (shuttingDown (wq s) = true → waiters s = 0).
Proof.
  intros Hr. apply reachable_wf in Hr as (_ & [Hw Hs] & _). split; [|done].
  intros Hq. destruct (queue (wq s)) eqn:E; [done|]. simpl in Hw.
  destruct (waiters s); [by left|right; lia].
Qed.

(**  Fair: along any interleaving, items are handed out in the order in
    which they entered the slice; what is left over is still in that order. *)
Theorem workqueue_fair s tr s' :
  sys_run s tr s' →
  ∃ entered, queue (wq s) ++ entered = handed_out tr ++ queue (wq s').
Proof.
  induction 1 as [s|s tr s1 e s2 Hr [new IH] Hst].
  - exists []. by rewrite app_nil_r.
  - apply sys_step_queue_step, step_queue in Hst as [new' Hn].
    exists (new ++ new'). unfold handed_out in *.
    by rewrite omap_app, app_assoc, IH, <-app_assoc, Hn, app_assoc.
Qed.

(** C21.  Refinement: every step of the queue is a step of the abstract queue of
    pending, running and re-added items, with the same observable event. *)
Theorem workqueue_refines name tr s e s' :
  sys_run (initial name) tr s → sys_step s e s' →
  abs_step (abstract (wq s)) e (abstract (wq s')).
Proof.
  intros Hr Hst. apply queue_step_refines; [|by apply sys_step_queue_step].
  by apply reachable_wf in Hr as (? & _).
Qed.

(**  The metrics of a named queue are exact: the depth gauge is the number of
    dirty items, and start times are kept for exactly the dirty and the
    processing items. *)
Theorem workqueue_metrics_exact name tr s m :
  sys_run (initial name) tr s → metrics (wq s) = Some m →
  depth m = Z.of_nat (size (dirty (wq s))) ∧
  dom (addTimes m) = dirty (wq s) ∧ dom (processingStartTimes m) = processing (wq s).
Proof.
  intros Hr Hm. apply reachable_wf in Hr as (_ & _ & Hwf).
  unfold metrics_wf in Hwf. by rewrite Hm in Hwf.
Qed.
End workqueue.

(** ** Witnesses *)

(** Two workers on a queue of numbers: the first blocks, an item is added and
    wakes it, the item is added again while it is processed and requeued. *)
Definition demo_trace : list (@event nat) :=
  [EBlock; EAdd 1; EGet 1; EAdd 1; EDone 1].

Definition demo_system : @WorkSystem nat _ _ :=
  let s1 := (get_pass 0 (initial "demo")).2 in
  let s2 := deliver (Queue_Add 1 1 (wq s1)).2 (Queue_Add 1 1 (wq s1)).1 s1 in
  let s3 := (get_pass 2 (mkSystem (wq s2) (waiters s2) 0)).2 in
  let s4 := deliver (Queue_Add 3 1 (wq s3)).2 (Queue_Add 3 1 (wq s3)).1 s3 in
  deliver (Queue_Done 4 1 (wq s4)).2 (Queue_Done 4 1 (wq s4)).1 s4.

Lemma demo_run : sys_run (initial "demo") demo_trace demo_system.
Proof.
  eapply run_cons; [exact (step_get _ 0%Z)|].
  eapply run_cons; [exact (step_add _ 1%Z 1)|].
  eapply run_cons; [refine (step_wake _ 2%Z 0 _); reflexivity|].
  eapply run_cons; [exact (step_add _ 3%Z 1)|].
  eapply run_cons; [refine (step_done _ 4%Z 1 _); vm_compute; constructor|].
  apply run_nil.
Qed.

Lemma workqueue_invariant_witness :
  sys_run (initial "demo") demo_trace demo_system ∧ queue_wf (wq demo_system).
Proof. exact (conj demo_run (workqueue_invariant _ _ _ demo_run)). Defined.

Lemma workqueue_stingy_witness :
  EDone 1 ∈ [EAdd 1; EDone 1].
Proof.
  refine (workqueue_stingy "demo" 1 [EBlock; EAdd 1] [EAdd 1; EDone 1]
            (get_pass 5 demo_system).2 _).
  apply (run_snoc _ demo_trace demo_system); [apply demo_run|].
  exact (step_get demo_system 5%Z).
Defined.

Lemma workqueue_no_lost_item_witness :
  1 ∈ queue (wq demo_system) ∨
  (1 ∈ processing (wq demo_system) ∧
   ∀ now, 1 ∈ queue (Queue_Done now 1 (wq demo_system)).1).
Proof.
  refine (workqueue_no_lost_item "demo" 1 [EBlock; EAdd 1; EGet 1] [EDone 1] _ demo_run _ _);
    apply (bool_decide_unpack _); vm_compute; exact I.
Defined.

Lemma workqueue_no_lost_wakeup_witness :
  queue (wq demo_system) = [1] ∧ (waiters demo_system = 0 ∨ 0 < woken demo_system).
Proof.
  split; [reflexivity|].
  apply (workqueue_no_lost_wakeup _ _ _ demo_run). vm_compute. discriminate.
Defined.

Lemma workqueue_fair_witness :
  ∃ entered, [] ++ entered = handed_out demo_trace ++ queue (wq demo_system).
Proof. exact (workqueue_fair _ _ _ demo_run). Defined.

Lemma workqueue_refines_witness :
  abs_step (abstract (wq demo_system)) (EGet 1)
           (abstract (wq (get_pass 5 demo_system).2)).
Proof.
  exact (workqueue_refines _ _ _ _ _ demo_run (step_get demo_system 5%Z)).
Defined.

Lemma workqueue_metrics_exact_witness :
  ∃ m, metrics (wq demo_system) = Some m ∧ depth m = 1%Z.
Proof.
  eexists. split; [reflexivity|].
  etransitivity; [eapply (workqueue_metrics_exact _ _ _ _ demo_run); reflexivity|].
  reflexivity.
Defined.
