(* ===== verification/RateLimiters.v ===== *)
(** * Rate limiters (pkg/util/workqueue/default_rate_limiters.go,
      rate_limitting_queue.go)

    The limiters that decide how long a failed item waits before it is retried.
    Durations are int64 nanoseconds; the exponential limiter computes its delay
    in float64, which is modelled on the integers a float64 can hold.  The token
    bucket is a third-party package: its state and its [Take] are parameters, and
    so is the value of a float64-to-int64 conversion that is out of range, which
    the language leaves to the implementation.

    Theorems: the exponential limiter returns the smaller of the doubled base
    delay and the cap, except where the doubled delay is exactly 2^63; the
    combined limiter returns the longest delay of its parts; [AddRateLimited] is
    [AddAfter] with that delay. *)

From S2P Require Import Prelude Workqueue DelayingQueue.
Open Scope Z_scope.

(** ** float64 on integers *)

Inductive float64 :=
  | F_fin (z : Z)
  | F_inf (negative : bool)
  | F_nan.

(** A non-negative integer rounded to 53 significant bits, ties to even. *)
Definition round53 (z : Z) : Z :=
  if decide (z < 2 ^ 53) then z
  else
    let e := Z.log2 z - 52 in
    let q := z / 2 ^ e in
    let r := z mod 2 ^ e in
    let half := 2 ^ (e - 1) in
    if decide (r < half) then q * 2 ^ e
    else if decide (half < r) then (q + 1) * 2 ^ e
    else if Z.even q then q * 2 ^ e else (q + 1) * 2 ^ e.

Definition float64_of_int (z : Z) : float64 := F_fin (Z.sgn z * round53 (Z.abs z)).

(** [math.Pow(2, float64(exp))] for a count of failures. *)
Definition pow2 (exp : Z) : float64 :=
  if decide (exp < 1024) then F_fin (2 ^ exp) else F_inf false.

(** Product of a number of at most 53 bits with a power of two: exact, or an
    overflow to infinity. *)
Definition float64_scale (a b : float64) : float64 :=
  match a, b with
  | F_fin x, F_fin y => if decide (Z.abs (x * y) < 2 ^ 1024) then F_fin (x * y)
                        else F_inf (bool_decide (x * y < 0))
  | F_fin x, F_inf s => if decide (x = 0) then F_nan
                        else F_inf (xorb s (bool_decide (x < 0)))
  | F_inf s, F_fin y => if decide (y = 0) then F_nan
                        else F_inf (xorb s (bool_decide (y < 0)))
  | F_inf s, F_inf s' => F_inf (xorb s s')
  | F_nan, _ | _, F_nan => F_nan
  end.

(** [backoff > math.MaxInt64]: the constant rounds to 2^63 as a float64. *)
Definition exceeds_MaxInt64 (f : float64) : bool :=
  match f with
  | F_fin z => bool_decide (2 ^ 63 < z)
  | F_inf negative => negb negative
  | F_nan => false
  end.

Section limiters.
Context {A : Type} `{Countable A}.
(** The vendored token bucket: its state and [Take(1)]. *)
Context {Bucket : Type} (Bucket_Take : Bucket → Z * Bucket).
(** What the platform returns for a float64 no int64 represents. *)
Context (unrepresentable : float64 → Z).
Implicit Types item : A.

(** [time.Duration(f)]. *)
Definition Duration_of (f : float64) : Z :=
  match f with
  | F_fin z => if decide (is_int64 z) then z else unrepresentable f
  | _ => unrepresentable f
  end.

(** ** The limiters *)

Record ItemExponentialFailureRateLimiter := mkExponential {
  exp_failures : gmap A Z;
  baseDelay : Z;
  maxDelay : Z
}.

Record ItemFastSlowRateLimiter := mkFastSlow {
  fs_failures : gmap A Z;
  maxFastAttempts : Z;
  fastDelay : Z;
  slowDelay : Z
}.

Definition NewItemExponentialFailureRateLimiter (base max : Z)
    : ItemExponentialFailureRateLimiter := mkExponential ∅ base max.

Definition DefaultItemBasedRateLimiter : ItemExponentialFailureRateLimiter :=
  NewItemExponentialFailureRateLimiter 1000000 (1000 * 1000000000).

Definition NewItemFastSlowRateLimiter (fast slow maxFast : Z) : ItemFastSlowRateLimiter :=
  mkFastSlow ∅ maxFast fast slow.

(** A missing key of a Go map of counts reads as zero. *)
Definition count_of (m : gmap A Z) (item : A) : Z := default 0 (m !! item).

Definition Exponential_When (item : A) (r : ItemExponentialFailureRateLimiter)
    : Z * ItemExponentialFailureRateLimiter :=
  let exp := count_of (exp_failures r) item in
  let r' := mkExponential (<[item := add64 (count_of (exp_failures r) item) 1]> (exp_failures r))
              (baseDelay r) (maxDelay r) in
  let backoff := float64_scale (float64_of_int (baseDelay r)) (pow2 exp) in
  if exceeds_MaxInt64 backoff then (maxDelay r, r')
  else
    let calculated := Duration_of backoff in
    if decide (maxDelay r < calculated) then (maxDelay r, r') else (calculated, r').

Definition Exponential_NumRequeues (item : A) (r : ItemExponentialFailureRateLimiter) : Z :=
  count_of (exp_failures r) item.

Definition Exponential_Forget (item : A) (r : ItemExponentialFailureRateLimiter)
    : ItemExponentialFailureRateLimiter :=
  mkExponential (delete item (exp_failures r)) (baseDelay r) (maxDelay r).

Definition FastSlow_When (item : A) (r : ItemFastSlowRateLimiter)
    : Z * ItemFastSlowRateLimiter :=
  let failures := <[item := add64 (count_of (fs_failures r) item) 1]> (fs_failures r) in
  let r' := mkFastSlow failures (maxFastAttempts r) (fastDelay r) (slowDelay r) in
  if decide (count_of failures item ≤ maxFastAttempts r) then (fastDelay r, r')
  else (slowDelay r, r').

Definition FastSlow_NumRequeues (item : A) (r : ItemFastSlowRateLimiter) : Z :=
  count_of (fs_failures r) item.

Definition FastSlow_Forget (item : A) (r : ItemFastSlowRateLimiter) : ItemFastSlowRateLimiter :=
  mkFastSlow (delete item (fs_failures r)) (maxFastAttempts r) (fastDelay r) (slowDelay r).

(** The [RateLimiter] interface with its implementations. *)
Inductive RateLimiter :=
  | BucketRateLimiter (b : Bucket)
  | ItemExponential (r : ItemExponentialFailureRateLimiter)
  | ItemFastSlow (r : ItemFastSlowRateLimiter)
  | MaxOfRateLimiter (limiters : list RateLimiter).

Definition NewMaxOfRateLimiter (limiters : list RateLimiter) : RateLimiter :=
  MaxOfRateLimiter limiters.

Definition DefaultControllerRateLimiter (bucket : Bucket) : RateLimiter :=
  NewMaxOfRateLimiter
    [ItemExponential (NewItemExponentialFailureRateLimiter 5000000 (1000 * 1000000000));
     BucketRateLimiter bucket].

Fixpoint When (item : A) (r : RateLimiter) : Z * RateLimiter :=
  match r with
  | BucketRateLimiter b => let '(d, b') := Bucket_Take b in (d, BucketRateLimiter b')
  | ItemExponential r => let '(d, r') := Exponential_When item r in (d, ItemExponential r')
  | ItemFastSlow r => let '(d, r') := FastSlow_When item r in (d, ItemFastSlow r')
  | MaxOfRateLimiter limiters =>
      let fix loop (ret : Z) (ls : list RateLimiter) : Z * list RateLimiter :=
        match ls with
        | [] => (ret, [])
        | limiter :: rest =>
            let '(curr, limiter') := When item limiter in
            let '(ret', rest') := loop (if decide (ret < curr) then curr else ret) rest in
            (ret', limiter' :: rest')
        end in
      let '(ret, limiters') := loop 0 limiters in
      (ret, MaxOfRateLimiter limiters')
  end.

Fixpoint NumRequeues (item : A) (r : RateLimiter) : Z :=
  match r with
  | BucketRateLimiter _ => 0
  | ItemExponential r => Exponential_NumRequeues item r
  | ItemFastSlow r => FastSlow_NumRequeues item r
  | MaxOfRateLimiter limiters =>
      let fix loop (ret : Z) (ls : list RateLimiter) : Z :=
        match ls with
        | [] => ret
        | limiter :: rest =>
            let curr := NumRequeues item limiter in
            loop (if decide (ret < curr) then curr else ret) rest
        end in
      loop 0 limiters
  end.

Fixpoint Forget (item : A) (r : RateLimiter) : RateLimiter :=
  match r with
  | BucketRateLimiter b => BucketRateLimiter b
  | ItemExponential r => ItemExponential (Exponential_Forget item r)
  | ItemFastSlow r => ItemFastSlow (FastSlow_Forget item r)
  | MaxOfRateLimiter limiters => MaxOfRateLimiter (map (Forget item) limiters)
  end.

(** ** The rate-limiting queue *)

Record rateLimitingType := mkRateLimiting {
  delaying : @delayingType A _ _;
  rateLimiter : RateLimiter
}.

Definition NewNamedRateLimitingQueue (limiter : RateLimiter) (name : string)
    : rateLimitingType := mkRateLimiting (newDelayingQueue name) limiter.

Definition AddRateLimited (named : bool) (now : Z) (item : A) (abandon_send : bool)
    (q : rateLimitingType) : option rateLimitingType :=
  let '(d, limiter) := When item (rateLimiter q) in
  dq ← AddAfter named now item d abandon_send (delaying q);
  Some (mkRateLimiting dq limiter).

Definition rateLimiting_NumRequeues (item : A) (q : rateLimitingType) : Z :=
  NumRequeues item (rateLimiter q).

Definition rateLimiting_Forget (item : A) (q : rateLimitingType) : rateLimitingType :=
  mkRateLimiting (delaying q) (Forget item (rateLimiter q)).

(** ** Lemmas *)

Lemma count_of_insert m item z item' :
  count_of (<[item := z]> m) item' = if decide (item = item') then z else count_of m item'.
Proof. unfold count_of. rewrite lookup_insert. by case_decide. Qed.

Lemma float64_of_small z : 0 ≤ z < 2 ^ 53 → float64_of_int z = F_fin z.
Proof.
  intros Hz. unfold float64_of_int, round53. rewrite decide_True by lia. f_equal. lia.
Qed.

(** The doubled delay, while it is a float64. *)
Lemma backoff_value base exp :
  0 < base < 2 ^ 53 → 0 ≤ exp →
  float64_scale (float64_of_int base) (pow2 exp) = F_fin (base * 2 ^ exp) ∨
  (2 ^ 63 < base * 2 ^ exp ∧
   float64_scale (float64_of_int base) (pow2 exp) = F_inf false).
Proof.
  intros Hb He. rewrite float64_of_small by lia. unfold pow2.
  case_decide as H1024; simpl.
  - pose proof (Z.pow_pos_nonneg 2 exp).
    case_decide as Hlt; [by left|right].
    assert (2 ^ 63 < 2 ^ 1024) by (apply Z.pow_lt_mono_r; lia).
    split; [lia|]. rewrite bool_decide_false by nia. done.
  - right. rewrite decide_False by lia.
    rewrite bool_decide_false by lia. split; [|done].
    assert (2 ^ 1024 ≤ 2 ^ exp) by (apply Z.pow_le_mono_r; lia).
    assert (2 ^ 63 < 2 ^ 1024) by (apply Z.pow_lt_mono_r; lia). nia.
Qed.

Lemma Exponential_When_state item r :
  (Exponential_When item r).2 =
    mkExponential (<[item := add64 (count_of (exp_failures r) item) 1]> (exp_failures r))
      (baseDelay r) (maxDelay r).
Proof. unfold Exponential_When. by repeat case_match. Qed.

Lemma Exponential_When_delay item r :
  0 < baseDelay r < 2 ^ 53 → 0 ≤ maxDelay r ≤ MaxInt64 →
  0 ≤ Exponential_NumRequeues item r →
  baseDelay r * 2 ^ Exponential_NumRequeues item r ≠ 2 ^ 63 →
  (Exponential_When item r).1 =
    Z.min (baseDelay r * 2 ^ Exponential_NumRequeues item r) (maxDelay r).
Proof.
  intros Hb Hm Hn Hne. unfold Exponential_When, Exponential_NumRequeues in *.
  set (c := count_of (exp_failures r) item) in *.
  assert (Hpos : 0 < baseDelay r * 2 ^ c) by (apply Z.mul_pos_pos; [|apply Z.pow_pos_nonneg]; lia).
  unfold MaxInt64 in Hm.
  destruct (backoff_value (baseDelay r) c) as [->|[Hbig ->]]; [lia..| |]; simpl; [|lia].
  case_bool_decide; simpl; [lia|]. unfold Duration_of.
  rewrite (decide_True (P := is_int64 _)) by (unfold is_int64, MinInt64, MaxInt64; lia).
  case_decide; simpl; lia.
Qed.

(** The loop of the combined limiter, on its own. *)
Fixpoint max_of_loop (item : A) (ret : Z) (ls : list RateLimiter) : Z * list RateLimiter :=
  match ls with
  | [] => (ret, [])
  | limiter :: rest =>
      let '(curr, limiter') := When item limiter in
      let '(ret', rest') := max_of_loop item (if decide (ret < curr) then curr else ret) rest in
      (ret', limiter' :: rest')
  end.

Lemma When_MaxOf item ls :
  When item (MaxOfRateLimiter ls) =
    ((max_of_loop item 0 ls).1, MaxOfRateLimiter (max_of_loop item 0 ls).2).
Proof.
  simpl. generalize 0 as ret.
  assert (Hl : ∀ ret,
    (fix loop (ret : Z) (ls : list RateLimiter) : Z * list RateLimiter :=
        match ls with
        | [] => (ret, [])
        | limiter :: rest =>
            let '(curr, limiter') := When item limiter in
            let '(ret', rest') := loop (if decide (ret < curr) then curr else ret) rest in
            (ret', limiter' :: rest')
        end) ret ls = max_of_loop item ret ls).
  { induction ls as [|l ls IH]; intros ret; simpl; [done|].
    destruct (When item l). by rewrite IH. }
  intros ret. rewrite Hl. by destruct (max_of_loop item ret ls).
Qed.

Lemma max_of_loop_spec item ret ls :
  max_of_loop item ret ls =
    (foldl Z.max ret ((λ l, (When item l).1) <$> ls), (λ l, (When item l).2) <$> ls).
Proof.
  revert ret. induction ls as [|l ls IH]; intros ret; [done|].
  cbn [max_of_loop]. destruct (When item l) as [curr l'] eqn:E. rewrite IH.
  rewrite !fmap_cons, E. simpl. do 2 f_equal. case_decide; lia.
Qed.

(** ** Theorems *)

(**  The exponential limiter: after [n] failures the delay is the base delay
    doubled [n] times, capped by the maximum, and the failure is counted for this
    item alone; the single case left out is a doubled delay of exactly 2^63. *)
Theorem exponential_backoff item (r : ItemExponentialFailureRateLimiter) :
  0 < baseDelay r < 2 ^ 53 → 0 ≤ maxDelay r ≤ MaxInt64 →
  let n := Exponential_NumRequeues item r in
  0 ≤ n < MaxInt64 → baseDelay r * 2 ^ n ≠ 2 ^ 63 →
  let '(delay, r') := Exponential_When item r in
  delay = Z.min (baseDelay r * 2 ^ n) (maxDelay r) ∧
  Exponential_NumRequeues item r' = n + 1 ∧
  (∀ item', item' ≠ item →
     Exponential_NumRequeues item' r' = Exponential_NumRequeues item' r).
Proof.
  intros Hb Hm n Hn Hne.
  pose proof (Exponential_When_delay item r Hb Hm (proj1 Hn) Hne) as Hd.
  pose proof (Exponential_When_state item r) as Hs.
  destruct (Exponential_When item r) as [delay r']; simpl in *. subst.
  unfold n, Exponential_NumRequeues in *; simpl. split_and!; [done|..].
  - rewrite count_of_insert, decide_True by done.
    apply wrap64_id. unfold is_int64, MinInt64, MaxInt64 in *. lia.
  - intros item' ?. by rewrite count_of_insert, decide_False.
Qed.

(**  The overflow the comment in [When] rules out: with a base delay of
    [2^k] nanoseconds the retry after [63 - k] failures passes the test against
    MaxInt64 and returns an out-of-range float64 conversion instead of the
    maximum delay. *)
Theorem exponential_overflow item (r : ItemExponentialFailureRateLimiter) k :
  0 ≤ k < 53 → baseDelay r = 2 ^ k → Exponential_NumRequeues item r = 63 - k →
  unrepresentable (F_fin (2 ^ 63)) ≤ maxDelay r →
  (Exponential_When item r).1 = unrepresentable (F_fin (2 ^ 63)).
Proof.
  intros Hk Hb Hn Hu. unfold Exponential_When. unfold Exponential_NumRequeues in Hn.
  rewrite Hn, Hb. unfold pow2. rewrite decide_True by lia.
  rewrite float64_of_small by (split; [lia|apply Z.pow_lt_mono_r; lia]). simpl.
  replace (2 ^ k * 2 ^ (63 - k)) with (2 ^ 63) by (rewrite <-Z.pow_add_r; [f_equal|..]; lia).
  rewrite decide_True by (rewrite Z.abs_eq by lia; apply Z.pow_lt_mono_r; lia). simpl.
  rewrite decide_False by lia. done.
Qed.

(**  The combined limiter asks every limiter, in order, and returns the
    longest of their delays, or zero; its count is the largest of their counts. *)
Theorem max_of_limiters item ls :
  When item (MaxOfRateLimiter ls) =
    (foldl Z.max 0 ((λ l, (When item l).1) <$> ls),
     MaxOfRateLimiter ((λ l, (When item l).2) <$> ls)) ∧
  NumRequeues item (MaxOfRateLimiter ls) = foldl Z.max 0 (NumRequeues item <$> ls).
Proof.
  split; [by rewrite When_MaxOf, max_of_loop_spec|].
  simpl. generalize 0 as ret. induction ls as [|l ls IH]; intros ret; simpl; [done|].
  rewrite IH. f_equal. case_decide; lia.
Qed.
End limiters.

(** ** Witnesses *)

Definition demo_limiter : @ItemExponentialFailureRateLimiter nat _ _ :=
  mkExponential {[1%nat := 3]} 5000000 (1000 * 1000000000).

Lemma exponential_backoff_witness :
  (Exponential_When (λ _, 0) 1%nat demo_limiter).1 = 40000000.
Proof.
  destruct (Exponential_When (λ _, 0) 1%nat demo_limiter) as [delay r'] eqn:E.
  pose proof (exponential_backoff (λ _, 0) 1%nat demo_limiter) as Hb.
  rewrite E in Hb. simpl. etransitivity; [apply Hb|reflexivity];
    vm_compute; repeat split; discriminate.
Defined.

Lemma exponential_overflow_witness :
  (Exponential_When (λ _, MinInt64) 1%nat
     (mkExponential {[1%nat := 63]} 1 (1000 * 1000000000))).1 = MinInt64.
Proof.
  refine (exponential_overflow (λ _, MinInt64) 1%nat
    (mkExponential {[1%nat := 63]} 1 (1000 * 1000000000)) 0 _ _ _ _);
    vm_compute; repeat split; discriminate.
Defined.
