(* ===== verification/ClientStore.v ===== *)
(** * The indexed client-side store
      (pkg/client/cache/store.go, thread_safe_store.go, index.go)

    [threadSafeMap] keeps objects by key and, for every named index function, the
    keys of the objects under each index value; [cache] computes keys for it.
    Objects are an abstract type with the caller's key and index functions.
    Every method holds the store's lock.

    Theorems: the indices always describe the stored objects, whatever the order
    in which Go visits the map of index functions; the lookups by index return
    exactly the matching objects; keys of namespaced objects split back into
    namespace and name. *)

From S2P Require Import Prelude.

(** ** Keys *)

Inductive key_error := NoMeta | TooManyKeys | NoKeys | UnexpectedKeyFormat (key : string).

(** What [MetaNamespaceKeyFunc] sees of an object: an [ExplicitKey], an object
    with metadata, or something [meta.Accessor] rejects. *)
Inductive keyed :=
  | ExplicitKey (key : string)
  | WithMeta (namespace name : string)
  | WithoutMeta.

Definition MetaNamespaceKeyFunc (obj : keyed) : result key_error string :=
  match obj with
  | ExplicitKey key => Ok key
  | WithoutMeta => Err NoMeta
  | WithMeta namespace name =>
      if decide (0 < String.length namespace)
      then Ok (namespace +:+ "/" +:+ name)
      else Ok name
  end.

Definition SplitMetaNamespaceKey (key : string) : result key_error (string * string) :=
  match split_on "/" key with
  | [name] => Ok ("", name)
  | [namespace; name] => Ok (namespace, name)
  | _ => Err (UnexpectedKeyFormat key)
  end.

Definition MetaNamespaceIndexFunc (obj : keyed) : result key_error (list string) :=
  match obj with
  | WithMeta namespace _ => Ok [namespace]
  | _ => Err NoMeta
  end.

Definition IndexFuncToKeyFuncAdapter {Obj} (indexFunc : Obj → result key_error (list string))
    (obj : Obj) : result key_error string :=
  indexKeys !<- indexFunc obj;
  match indexKeys with
  | [] => Err NoKeys
  | [key] => Ok key
  | _ => Err TooManyKeys
  end.

Section store.
Context `{!MapRange} {Obj Error : Type}.
Implicit Types (key name value : string) (obj : Obj).

Definition IndexFunc : Type := Obj → result Error (list string).

(** ** The thread-safe map *)

Record threadSafeMap := mkMap {
  items : gmap string Obj;
  indexers : gmap string IndexFunc;
  indices : gmap string (gmap string (gset string))
}.

Inductive store_error :=
  | NoSuchIndex (name : string)
  | IndexFuncFailed (e : Error)
  | IndexersOnRunning
  | IndexerConflict
  | KeyError (obj : Obj) (e : Error).

Definition NewThreadSafeStore (indexers : gmap string IndexFunc)
    (indices : gmap string (gmap string (gset string))) : threadSafeMap :=
  mkMap ∅ indexers indices.

(** The body of the loops over an index function's values. *)
Definition index_insert (key : string) (index : gmap string (gset string)) (indexValue : string)
    : gmap string (gset string) :=
  <[indexValue := {[key]} ∪ default ∅ (index !! indexValue)]> index.

Definition index_delete (key : string) (index : gmap string (gset string)) (indexValue : string)
    : gmap string (gset string) :=
  match index !! indexValue with
  | Some set => <[indexValue := set ∖ {[key]}]> index
  | None => index
  end.

(** The loop of [deleteFromIndices] over the index functions; an error ends it. *)
Fixpoint deleteFromIndices_loop (fs : list (string * IndexFunc)) (obj : Obj) (key : string)
    (ind : gmap string (gmap string (gset string)))
    : gmap string (gmap string (gset string)) * option Error :=
  match fs with
  | [] => (ind, None)
  | (name, indexFunc) :: rest =>
      match indexFunc obj with
      | Err e => (ind, Some e)
      | Ok indexValues =>
          match ind !! name with
          | None => deleteFromIndices_loop rest obj key ind
          | Some index =>
              deleteFromIndices_loop rest obj key
                (<[name := foldl (index_delete key) index indexValues]> ind)
          end
      end
  end.

Definition deleteFromIndices (obj : Obj) (key : string) (c : threadSafeMap)
    : threadSafeMap * option Error :=
  let '(ind, err) := deleteFromIndices_loop (map_range (indexers c)) obj key (indices c) in
  (mkMap (items c) (indexers c) ind, err).

(** The loop of [updateIndices] over the index functions. *)
Fixpoint updateIndices_loop (fs : list (string * IndexFunc)) (newObj : Obj) (key : string)
    (ind : gmap string (gmap string (gset string)))
    : gmap string (gmap string (gset string)) * option Error :=
  match fs with
  | [] => (ind, None)
  | (name, indexFunc) :: rest =>
      match indexFunc newObj with
      | Err e => (ind, Some e)
      | Ok indexValues =>
          updateIndices_loop rest newObj key
            (<[name := foldl (index_insert key) (default ∅ (ind !! name)) indexValues]> ind)
      end
  end.

(** [oldObj] is nil ([None]) for a new key; the error of [deleteFromIndices] is
    dropped. *)
Definition updateIndices (oldObj : option Obj) (newObj : Obj) (key : string) (c : threadSafeMap)
    : threadSafeMap * option Error :=
  let c1 := match oldObj with
            | Some o => (deleteFromIndices o key c).1
            | None => c
            end in
  let '(ind, err) := updateIndices_loop (map_range (indexers c1)) newObj key (indices c1) in
  (mkMap (items c1) (indexers c1) ind, err).

Definition Map_Add (key : string) (obj : Obj) (c : threadSafeMap) : threadSafeMap :=
  let oldObject := items c !! key in
  (updateIndices oldObject obj key
     (mkMap (<[key := obj]> (items c)) (indexers c) (indices c))).1.

Definition Map_Update (key : string) (obj : Obj) (c : threadSafeMap) : threadSafeMap :=
  let oldObject := items c !! key in
  (updateIndices oldObject obj key
     (mkMap (<[key := obj]> (items c)) (indexers c) (indices c))).1.

Definition Map_Delete (key : string) (c : threadSafeMap) : threadSafeMap :=
  match items c !! key with
  | Some obj =>
      let c' := (deleteFromIndices obj key c).1 in
      mkMap (delete key (items c')) (indexers c') (indices c')
  | None => c
  end.

Definition Map_Get (key : string) (c : threadSafeMap) : option Obj := items c !! key.

Definition Map_List (c : threadSafeMap) : list Obj := (map_range (items c)).*2.

Definition Map_ListKeys (c : threadSafeMap) : list string := (map_range (items c)).*1.

Definition Map_Replace (newItems : gmap string Obj) (c : threadSafeMap) : threadSafeMap :=
  foldl (λ c kv, (updateIndices None kv.2 kv.1 c).1)
    (mkMap newItems (indexers c) ∅) (map_range newItems).

(** Looking up the objects of a set of keys; a key without an object would read
    as nil. *)
Definition objects_of (c : threadSafeMap) (keys : list string) : list (option Obj) :=
  (λ key, items c !! key) <$> keys.

(** The keys under one value of an index; [sets.String.List] sorts them. *)
Definition index_keys (c : threadSafeMap) (name value : string) : gset string :=
  default ∅ (default ∅ (indices c !! name) !! value).

Definition Map_Index (name : string) (obj : Obj) (c : threadSafeMap)
    : result store_error (list (option Obj)) :=
  match indexers c !! name with
  | None => Err (NoSuchIndex name)
  | Some indexFunc =>
      match indexFunc obj with
      | Err e => Err (IndexFuncFailed e)
      | Ok indexKeys =>
          let returnKeySet : gset string :=
            foldl (λ s indexKey, s ∪ index_keys c name indexKey) ∅ indexKeys in
          Ok (objects_of c (map_range (gset_to_gmap () returnKeySet)).*1)
      end
  end.

Definition Map_ByIndex (name indexKey : string) (c : threadSafeMap)
    : result store_error (list (option Obj)) :=
  match indexers c !! name with
  | None => Err (NoSuchIndex name)
  | Some _ =>
      Ok (objects_of c (merge_sort String.le (elements (index_keys c name indexKey))))
  end.

Definition Map_ListIndexFuncValues (name : string) (c : threadSafeMap) : list string :=
  (map_range (default ∅ (indices c !! name))).*1.

Definition Map_AddIndexers (newIndexers : gmap string IndexFunc) (c : threadSafeMap)
    : result store_error threadSafeMap :=
  if decide (0 < size (items c)) then Err IndexersOnRunning
  else if decide (dom (indexers c) ## dom newIndexers) then
    Ok (mkMap (items c) (newIndexers ∪ indexers c) (indices c))
  else Err IndexerConflict.

(** ** The cache on top of it *)

Record cache := mkCache {
  cacheStorage : threadSafeMap;
  keyFunc : Obj → result Error string
}.

Definition with_storage (s : threadSafeMap) (c : cache) : cache := mkCache s (keyFunc c).

Definition Cache_Add (obj : Obj) (c : cache) : result store_error cache :=
  match keyFunc c obj with
  | Err e => Err (KeyError obj e)
  | Ok key => Ok (with_storage (Map_Add key obj (cacheStorage c)) c)
  end.

Definition Cache_Update (obj : Obj) (c : cache) : result store_error cache :=
  match keyFunc c obj with
  | Err e => Err (KeyError obj e)
  | Ok key => Ok (with_storage (Map_Update key obj (cacheStorage c)) c)
  end.

Definition Cache_Delete (obj : Obj) (c : cache) : result store_error cache :=
  match keyFunc c obj with
  | Err e => Err (KeyError obj e)
  | Ok key => Ok (with_storage (Map_Delete key (cacheStorage c)) c)
  end.

Definition Cache_GetByKey (key : string) (c : cache) : option Obj :=
  Map_Get key (cacheStorage c).

Definition Cache_Get (obj : Obj) (c : cache) : result store_error (option Obj) :=
  match keyFunc c obj with
  | Err e => Err (KeyError obj e)
  | Ok key => Ok (Cache_GetByKey key c)
  end.

Definition Cache_List (c : cache) : list Obj := Map_List (cacheStorage c).

Definition Cache_ListKeys (c : cache) : list string := Map_ListKeys (cacheStorage c).

Definition Cache_Index (name : string) (obj : Obj) (c : cache) :=
  Map_Index name obj (cacheStorage c).

Definition Cache_ByIndex (name indexKey : string) (c : cache) :=
  Map_ByIndex name indexKey (cacheStorage c).

(** The loop of [Replace] that keys the new objects. *)
Fixpoint key_objects (kf : Obj → result Error string) (list : list Obj) (acc : gmap string Obj)
    : result store_error (gmap string Obj) :=
  match list with
  | [] => Ok acc
  | item :: rest =>
      match kf item with
      | Err e => Err (KeyError item e)
      | Ok key => key_objects kf rest (<[key := item]> acc)
      end
  end.

Definition Cache_Replace (list : list Obj) (c : cache) : result store_error cache :=
  its !<- key_objects (keyFunc c) list ∅;
  Ok (with_storage (Map_Replace its (cacheStorage c)) c).

Definition NewStore (kf : Obj → result Error string) : cache :=
  mkCache (NewThreadSafeStore ∅ ∅) kf.

Definition NewIndexer (kf : Obj → result Error string) (fs : gmap string IndexFunc) : cache :=
  mkCache (NewThreadSafeStore fs ∅) kf.

(** ** The contract of the indices *)

(** [value] is one of the values the index function gives for [obj]. *)
Definition indexed_under (f : IndexFunc) (obj : Obj) (value : string) : Prop :=
  ∃ vs, f obj = Ok vs ∧ value ∈ vs.

(** No index function fails on [obj]. *)
Definition indexable (fs : gmap string IndexFunc) (obj : Obj) : Prop :=
  ∀ name f, fs !! name = Some f → ∃ vs, f obj = Ok vs.

(** The indices describe the objects stored, all of which can be indexed. *)
Definition store_wf (c : threadSafeMap) : Prop :=
  (∀ key obj, items c !! key = Some obj → indexable (indexers c) obj) ∧
  (∀ name f value key, indexers c !! name = Some f →
     key ∈ index_keys c name value ↔
     ∃ obj, items c !! key = Some obj ∧ indexed_under f obj value).

(** ** The index maps *)

Definition keys_in (ind : gmap string (gmap string (gset string))) (name value : string)
    : gset string := default ∅ (default ∅ (ind !! name) !! value).

Lemma foldl_index_insert key index vs value k :
  k ∈ default ∅ (foldl (index_insert key) index vs !! value) ↔
  (k = key ∧ value ∈ vs) ∨ k ∈ default ∅ (index !! value).
Proof.
  revert index. induction vs as [|v vs IH]; intros index; simpl; [set_solver|].
  rewrite IH. unfold index_insert. rewrite lookup_insert.
  case_decide; subst; simpl; set_solver.
Qed.

Lemma foldl_index_delete key index vs value k :
  k ∈ default ∅ (foldl (index_delete key) index vs !! value) ↔
  k ∈ default ∅ (index !! value) ∧ ¬ (k = key ∧ value ∈ vs).
Proof.
  revert index. induction vs as [|v vs IH]; intros index; simpl; [set_solver|].
  rewrite IH. unfold index_delete. destruct (index !! v) as [set|] eqn:E.
  - rewrite lookup_insert. case_decide; subst; [rewrite E|]; simpl; set_solver.
  - destruct (decide (v = value)) as [->|]; [rewrite E|]; set_solver.
Qed.

Lemma updateIndices_loop_spec fs obj key ind name value k :
  (∀ n f, (n, f) ∈ fs → ∃ vs, f obj = Ok vs) →
  k ∈ keys_in (updateIndices_loop fs obj key ind).1 name value ↔
  (k = key ∧ ∃ f, (name, f) ∈ fs ∧ indexed_under f obj value) ∨ k ∈ keys_in ind name value.
Proof.
  revert ind. induction fs as [|[n f] fs IH]; intros ind Hok; simpl; [set_solver|].
  destruct (Hok n f) as [vs Hvs]; [set_solver|]. rewrite Hvs, IH by set_solver.
  assert (Hn : k ∈ keys_in (<[n:=foldl (index_insert key) (default ∅ (ind !! n)) vs]> ind) name value
    ↔ (k = key ∧ name = n ∧ value ∈ vs) ∨ k ∈ keys_in ind name value).
  { unfold keys_in at 1. rewrite lookup_insert. case_decide; subst; simpl.
    - rewrite foldl_index_insert. unfold keys_in. tauto.
    - unfold keys_in. split; [tauto|]. intros [(_ & -> & _)|?]; done. }
  rewrite Hn. setoid_rewrite elem_of_cons. unfold indexed_under. split.
  - intros [(-> & f' & ? & ?)|[(-> & -> & ?)|?]]; [left; eauto|left; eauto 8|by right].
  - intros [(-> & f' & [[= -> ->]|?] & vs' & Hf & ?)|?]; [|left; eauto 8|by auto].
    rewrite Hvs in Hf. simplify_eq. auto.
Qed.

Lemma deleteFromIndices_loop_spec fs obj key ind name value k :
  (∀ n f, (n, f) ∈ fs → ∃ vs, f obj = Ok vs) →
  k ∈ keys_in (deleteFromIndices_loop fs obj key ind).1 name value ↔
  k ∈ keys_in ind name value ∧
  ¬ (k = key ∧ ∃ f, (name, f) ∈ fs ∧ indexed_under f obj value).
Proof.
  revert ind. induction fs as [|[n f] fs IH]; intros ind Hok; simpl; [set_solver|].
  destruct (Hok n f) as [vs Hvs]; [set_solver|]. rewrite Hvs.
  set (ind' := match ind !! n with
               | Some index => <[n:=foldl (index_delete key) index vs]> ind
               | None => ind end).
  assert (Hn : k ∈ keys_in ind' name value ↔
    k ∈ keys_in ind name value ∧ ¬ (k = key ∧ name = n ∧ value ∈ vs)).
  { unfold ind', keys_in. destruct (ind !! n) as [index|] eqn:E.
    - rewrite lookup_insert. case_decide; subst; simpl; [rewrite E; simpl|naive_solver].
      rewrite foldl_index_delete. tauto.
    - destruct (decide (name = n)) as [->|]; [rewrite E; simpl; rewrite lookup_empty|];
        set_solver. }
  replace (match ind !! n with
           | Some index => deleteFromIndices_loop fs obj key (<[n:=foldl (index_delete key) index vs]> ind)
           | None => deleteFromIndices_loop fs obj key ind end)
    with (deleteFromIndices_loop fs obj key ind') by (unfold ind'; by destruct (ind !! n)).
  rewrite IH by set_solver. rewrite Hn. setoid_rewrite elem_of_cons. unfold indexed_under.
  split.
  - intros [[Hk Hn1] Hn2]. split; [done|]. intros (-> & f' & [[= -> ->]|?] & vs' & Hf & ?).
    + rewrite Hvs in Hf. simplify_eq. tauto.
    + apply Hn2. eauto 8.
  - intros [Hk Hn1]. repeat split; [done|..].
    + intros (-> & -> & ?). apply Hn1. eauto 8.
    + intros (-> & f' & ? & ?). apply Hn1. eauto 8.
Qed.

(** ** Preservation of the contract *)

Lemma map_range_indexable (fs : gmap string IndexFunc) obj :
  indexable fs obj → ∀ n f, (n, f) ∈ map_range fs → ∃ vs, f obj = Ok vs.
Proof. intros Hi n f Hin. apply elem_of_map_range in Hin. eauto. Qed.

Lemma range_indexed (fs : gmap string IndexFunc) name f obj value :
  fs !! name = Some f →
  (∃ f', (name, f') ∈ map_range fs ∧ indexed_under f' obj value) ↔ indexed_under f obj value.
Proof.
  intros Hf. setoid_rewrite elem_of_map_range. split; [|eauto].
  intros (f' & Hf' & ?). congruence.
Qed.

Lemma deleteFromIndices_shape obj key c :
  items (deleteFromIndices obj key c).1 = items c ∧
  indexers (deleteFromIndices obj key c).1 = indexers c.
Proof. unfold deleteFromIndices. by destruct (deleteFromIndices_loop _ _ _ _). Qed.

Lemma updateIndices_shape old obj key c :
  items (updateIndices old obj key c).1 = items c ∧
  indexers (updateIndices old obj key c).1 = indexers c.
Proof.
  unfold updateIndices. destruct (updateIndices_loop _ _ _ _); simpl.
  destruct old; [apply deleteFromIndices_shape|done].
Qed.

Lemma deleteFromIndices_keys obj key c name f value k :
  indexable (indexers c) obj → indexers c !! name = Some f →
  k ∈ index_keys (deleteFromIndices obj key c).1 name value ↔
  k ∈ index_keys c name value ∧ ¬ (k = key ∧ indexed_under f obj value).
Proof.
  intros Hi Hf. unfold deleteFromIndices.
  pose proof (deleteFromIndices_loop_spec (map_range (indexers c)) obj key (indices c) name value k
                (map_range_indexable _ _ Hi)) as Hs.
  rewrite (range_indexed _ _ _ _ _ Hf) in Hs.
  by destruct (deleteFromIndices_loop _ _ _ _).
Qed.

Lemma updateIndices_keys old obj key c name f value k :
  indexable (indexers c) obj → (∀ o, old = Some o → indexable (indexers c) o) →
  indexers c !! name = Some f →
  k ∈ index_keys (updateIndices old obj key c).1 name value ↔
  (k = key ∧ indexed_under f obj value) ∨
  (k ∈ index_keys c name value ∧ ∀ o, old = Some o → ¬ (k = key ∧ indexed_under f o value)).
Proof.
  intros Hi Ho Hf. unfold updateIndices.
  set (c1 := match old with Some o => (deleteFromIndices o key c).1 | None => c end).
  assert (indexers c1 = indexers c) as Hc1
    by (unfold c1; destruct old; [apply deleteFromIndices_shape|done]).
  pose proof (updateIndices_loop_spec (map_range (indexers c1)) obj key (indices c1) name value k)
    as Hs. rewrite Hc1 in *. specialize (Hs (map_range_indexable _ _ Hi)).
  rewrite (range_indexed _ _ _ _ _ Hf) in Hs.
  destruct (updateIndices_loop _ _ _ _) as [ind err]; simpl in *.
  assert (k ∈ index_keys c1 name value ↔ k ∈ index_keys c name value ∧
    ∀ o, old = Some o → ¬ (k = key ∧ indexed_under f o value)) as H1.
  { unfold c1. destruct old as [o|]; [|naive_solver].
    rewrite (deleteFromIndices_keys _ _ _ _ f) by auto. naive_solver. }
  rewrite <-H1. exact Hs.
Qed.

Lemma Map_Add_wf key obj c :
  store_wf c → indexable (indexers c) obj → store_wf (Map_Add key obj c).
Proof.
  intros [Hix Hk] Hi. unfold Map_Add.
  set (c0 := mkMap (<[key:=obj]> (items c)) (indexers c) (indices c)).
  destruct (updateIndices_shape (items c !! key) obj key c0) as [Hits Hfs]. split.
  - rewrite Hits, Hfs. intros k o. simpl. rewrite lookup_insert. case_decide; naive_solver.
  - intros name f value k Hf. rewrite Hfs in Hf. rewrite Hits. simpl in *.
    rewrite (updateIndices_keys _ _ _ _ _ f) by eauto.
    change (index_keys c0 name value) with (index_keys c name value).
    rewrite (Hk _ _ _ _ Hf), lookup_insert. case_decide as Hkk; subst.
    + split; [intros [[_ ?]|[(o & Ho & ?) Hno]]; [eauto|exfalso; by eapply Hno]|].
      intros (o & [= <-] & ?). by left.
    + split; [intros [[-> _]|[? _]]; [done|done]|]. intros ?. right. split; [done|].
      intros o _ [-> _]. done.
Qed.

Lemma Map_Delete_wf key c : store_wf c → store_wf (Map_Delete key c).
Proof.
  intros [Hix Hk]. unfold Map_Delete. destruct (items c !! key) as [obj|] eqn:E; [|done].
  destruct (deleteFromIndices_shape obj key c) as [Hits Hfs]. split; simpl.
  - rewrite Hits, Hfs. intros k o [_ Ho]%lookup_delete_Some. eauto.
  - intros name f value k Hf. rewrite Hfs in Hf. rewrite Hits.
    change (index_keys _ name value) with (index_keys (deleteFromIndices obj key c).1 name value).
    rewrite (deleteFromIndices_keys _ _ _ _ f) by eauto. rewrite (Hk _ _ _ _ Hf).
    setoid_rewrite lookup_delete_Some. split.
    + intros [(o & Ho & ?) Hn]. exists o. split; [|done]. split; [|done]. intros ->.
      rewrite E in Ho. simplify_eq. tauto.
    + intros (o & [Hne Ho] & ?). split; [eauto|]. intros [-> _]. done.
Qed.

(** Rebuilding the indices item by item. *)
Lemma rebuild_indices (l : list (string * Obj)) c :
  (∀ k o, (k, o) ∈ l → indexable (indexers c) o) →
  let c' := foldl (λ c kv, (updateIndices None kv.2 kv.1 c).1) c l in
  items c' = items c ∧ indexers c' = indexers c ∧
  (∀ name f value k, indexers c !! name = Some f →
     k ∈ index_keys c' name value ↔
     (∃ o, (k, o) ∈ l ∧ indexed_under f o value) ∨ k ∈ index_keys c name value).
Proof.
  revert c. induction l as [|[k0 o0] l IH]; intros c Hok; simpl; [set_solver|].
  destruct (updateIndices_shape None o0 k0 c) as [Hits Hfs].
  destruct (IH (updateIndices None o0 k0 c).1) as (Hi' & Hf' & Hk').
  { rewrite Hfs. intros k o Hin. eapply Hok. by right. }
  rewrite Hi', Hf', Hits, Hfs. split_and!; [done|done|].
  intros name f value k Hf. rewrite Hk' by (by rewrite Hfs).
  rewrite (updateIndices_keys _ _ _ _ _ f); [|eapply Hok; by left|done|done].
  setoid_rewrite elem_of_cons. split.
  - intros [(o & ? & ?)|[[-> ?]|[? _]]]; eauto 6.
  - intros [(o & [[= -> ->]|?] & ?)|?]; eauto 6.
    right; right. split; [done|]. by intros.
Qed.

Lemma Map_Replace_wf its c :
  (∀ k o, its !! k = Some o → indexable (indexers c) o) → store_wf (Map_Replace its c).
Proof.
  intros Hok. unfold Map_Replace.
  destruct (rebuild_indices (map_range its) (mkMap its (indexers c) ∅)) as (Hits & Hfs & Hk).
  { intros k o Hin%elem_of_map_range. eauto. }
  split; rewrite ?Hits, ?Hfs; [done|]. simpl. intros name f value k Hf. rewrite Hk by done.
  setoid_rewrite elem_of_map_range. unfold index_keys at 1; simpl.
  rewrite lookup_empty; simpl. rewrite lookup_empty; simpl. set_solver.
Qed.

Lemma NewThreadSafeStore_wf fs : store_wf (NewThreadSafeStore fs ∅).
Proof.
  split; simpl; intros *; rewrite ?lookup_empty; [done|]. intros _.
  unfold index_keys; simpl. rewrite lookup_empty; simpl. rewrite lookup_empty. set_solver.
Qed.

(** ** Sequences of operations *)

Inductive map_op :=
  | OpAdd (key : string) (obj : Obj)
  | OpUpdate (key : string) (obj : Obj)
  | OpDelete (key : string)
  | OpReplace (its : gmap string Obj).

Definition run_op (c : threadSafeMap) (op : map_op) : threadSafeMap :=
  match op with
  | OpAdd key obj => Map_Add key obj c
  | OpUpdate key obj => Map_Update key obj c
  | OpDelete key => Map_Delete key c
  | OpReplace its => Map_Replace its c
  end.

(** The same operation on a plain map. *)
Definition spec_op (m : gmap string Obj) (op : map_op) : gmap string Obj :=
  match op with
  | OpAdd key obj | OpUpdate key obj => <[key := obj]> m
  | OpDelete key => delete key m
  | OpReplace its => its
  end.

Definition op_indexable (fs : gmap string IndexFunc) (op : map_op) : Prop :=
  match op with
  | OpAdd _ obj | OpUpdate _ obj => indexable fs obj
  | OpDelete _ => True
  | OpReplace its => ∀ k o, its !! k = Some o → indexable fs o
  end.

Lemma run_op_shape c op :
  items (run_op c op) = spec_op (items c) op ∧ indexers (run_op c op) = indexers c.
Proof.
  destruct op as [key obj|key obj|key|its]; simpl.
  1,2: exact (updateIndices_shape (items c !! key) obj key
         (mkMap (<[key:=obj]> (items c)) (indexers c) (indices c))).
  - unfold Map_Delete. destruct (items c !! key) as [obj|] eqn:E; simpl.
    + destruct (deleteFromIndices_shape obj key c) as [-> ->]. done.
    + by rewrite delete_id.
  - unfold Map_Replace.
    assert (∀ l c, items (foldl (λ c kv, (updateIndices None kv.2 kv.1 c).1) c l) = items c ∧
      indexers (foldl (λ c kv, (updateIndices None kv.2 kv.1 c).1) c l) = indexers c) as Hl.
    { intros l. induction l as [|[k o] l IH]; intros c1; simpl; [done|].
      destruct (IH (updateIndices None o k c1).1) as [-> ->]. apply updateIndices_shape. }
    destruct (Hl (map_range its) (mkMap its (indexers c) ∅)) as [-> ->]. done.
Qed.

Lemma run_op_wf c op :
  store_wf c → op_indexable (indexers c) op → store_wf (run_op c op).
Proof.
  intros Hc Hop. destruct op; simpl in *.
  - by apply Map_Add_wf.
  - by apply Map_Add_wf.
  - by apply Map_Delete_wf.
  - by apply Map_Replace_wf.
Qed.

Lemma run_ops_wf ops c :
  store_wf c → Forall (op_indexable (indexers c)) ops →
  store_wf (foldl run_op c ops) ∧ items (foldl run_op c ops) = foldl spec_op (items c) ops ∧
  indexers (foldl run_op c ops) = indexers c.
Proof.
  revert c. induction ops as [|op ops IH]; intros c Hc Hops; simpl; [done|].
  apply Forall_cons in Hops as [Hop Hops].
  destruct (run_op_shape c op) as [Hi Hf].
  destruct (IH (run_op c op)) as (H1 & H2 & H3); [by apply run_op_wf|by rewrite Hf|].
  by rewrite H2, H3, Hi, Hf.
Qed.

(** ** Lookups *)

#[export] Instance indexed_under_dec f obj value : Decision (indexed_under f obj value).
Proof.
  unfold indexed_under. destruct (f obj) as [vs|e].
  - destruct (decide (value ∈ vs)) as [Hv|Hv].
    + left. by exists vs.
    + right. intros (vs' & [= ->] & ?). done.
  - right. by intros (vs & ? & _).
Defined.

(** The objects of a store that satisfy a test, each once. *)
Definition matching (P : Obj → Prop) `{∀ o, Decision (P o)} (c : threadSafeMap) : list Obj :=
  (filter (λ kv, P kv.2) (map_to_list (items c))).*2.

Lemma objects_of_matching (P : Obj → Prop) `{∀ o, Decision (P o)} c (ks : list string) :
  NoDup ks → (∀ k, k ∈ ks ↔ ∃ o, items c !! k = Some o ∧ P o) →
  objects_of c ks ≡ₚ Some <$> matching P c.
Proof.
  intros Hnd Hks. unfold matching.
  set (L := filter (λ kv, P kv.2) (map_to_list (items c))).
  assert (HL : ∀ k o, (k, o) ∈ L ↔ items c !! k = Some o ∧ P o).
  { intros k o. unfold L. rewrite list_elem_of_filter, elem_of_map_to_list. simpl. tauto. }
  assert (ks ≡ₚ L.*1) as Hperm.
  { apply NoDup_Permutation; [done|..].
    - eapply sublist_NoDup; [apply (NoDup_fst_map_to_list (items c))|].
      apply fmap_sublist, sublist_filter.
    - intros k. rewrite Hks, list_elem_of_fmap. split.
      + intros (o & ?). exists (k, o). by rewrite HL.
      + intros ([k' o] & -> & ?%HL). eauto. }
  unfold objects_of. rewrite Hperm, <-!list_fmap_compose.
  apply reflexive_eq, list_fmap_ext. intros i [k o] Hin.
  apply list_elem_of_lookup_2, HL in Hin as [Hin _]. done.
Qed.

Lemma elem_of_union_keys c name (vs : list string) (s0 : gset string) k :
  k ∈ foldl (λ s v, s ∪ index_keys c name v) s0 vs ↔
  k ∈ s0 ∨ ∃ v, v ∈ vs ∧ k ∈ index_keys c name v.
Proof.
  revert s0. induction vs as [|v vs IH]; intros s0; simpl; [set_solver|].
  rewrite IH. set_solver.
Qed.

(** ** Theorems *)


(**  [ByIndex] and [Index] return the matching objects, each exactly once
    and none of them nil; an unknown index is an error. *)
Theorem store_lookup_by_index fs ops :
  Forall (op_indexable fs) ops →
  let c := foldl run_op (NewThreadSafeStore fs ∅) ops in
  (∀ name f value, fs !! name = Some f →
     ∃ l, Map_ByIndex name value c = Ok l ∧
          l ≡ₚ Some <$> matching (λ o, indexed_under f o value) c) ∧
  (∀ name f obj vs, fs !! name = Some f → f obj = Ok vs →
     ∃ l, Map_Index name obj c = Ok l ∧
          l ≡ₚ Some <$> matching (λ o, Exists (indexed_under f o) vs) c) ∧
  (∀ name value, fs !! name = None → Map_ByIndex name value c = Err (NoSuchIndex name)).
Proof.
  intros Hops c. destruct (run_ops_wf ops (NewThreadSafeStore fs ∅)) as ([_ Hk] & Hi & Hf).
  { apply NewThreadSafeStore_wf. } { done. }
  fold c in Hk, Hi, Hf. simpl in Hf. split_and!.
  - intros name f value Hn. unfold Map_ByIndex. rewrite Hf, Hn. eexists. split; [done|].
    apply objects_of_matching.
    + rewrite merge_sort_Permutation. apply NoDup_elements.
    + intros k. rewrite merge_sort_Permutation, elem_of_elements. apply Hk. by rewrite Hf.
  - intros name f obj vs Hn Hvs. unfold Map_Index. rewrite Hf, Hn, Hvs. eexists. split; [done|].
    apply objects_of_matching; [apply NoDup_fst_map_range|].
    intros k. rewrite elem_of_fst_map_range.
    assert (∀ s : gset string, is_Some (gset_to_gmap () s !! k) ↔ k ∈ s) as ->.
    { intros s'. unfold is_Some. setoid_rewrite lookup_gset_to_gmap_Some. naive_solver. }
    rewrite elem_of_union_keys. setoid_rewrite Exists_exists. split.
    + intros [?|(v & Hv & Hin)]; [set_solver|].
      apply (Hk name f) in Hin as (o & Ho & ?); [|by rewrite Hf]. exists o. split; [done|]. by exists v.
    + intros (o & Ho & v & Hv & ?). right. exists v. split; [done|].
      apply (Hk _ f); [by rewrite Hf|eauto].
  - intros name value Hn. unfold Map_ByIndex. by rewrite Hf, Hn.
Qed.
End store.

(**  Round trip: the key of an object with metadata splits back into its
    namespace and name, provided neither contains a slash. *)
Theorem meta_key_roundtrip namespace name :
  string_has "/" namespace = false → string_has "/" name = false →
  ∃ key, MetaNamespaceKeyFunc (WithMeta namespace name) = Ok key ∧
         SplitMetaNamespaceKey key = Ok (namespace, name).
Proof.
  intros Hns Hn. unfold MetaNamespaceKeyFunc. case_decide as Hlen.
  - eexists. split; [done|]. unfold SplitMetaNamespaceKey.
    change ("/" +:+ name) with (String "/" name).
    rewrite split_on_app, (split_on_none _ name) by done. done.
  - eexists. split; [done|]. unfold SplitMetaNamespaceKey. rewrite split_on_none by done.
    destruct namespace; [done|simpl in Hlen; lia].
Qed.

Lemma meta_key_roundtrip_witness :
  ∃ key, MetaNamespaceKeyFunc (WithMeta "kube-system" "dns") = Ok key ∧
         SplitMetaNamespaceKey key = Ok ("kube-system", "dns").
Proof. apply (meta_key_roundtrip "kube-system" "dns"); reflexivity. Defined.

(** ** A store of namespaced objects *)

Definition demo_indexers : gmap string (@IndexFunc keyed key_error) :=
  {["namespace" := MetaNamespaceIndexFunc]}.

Definition demo_ops : list (@map_op keyed) :=
  [OpAdd "a/x" (WithMeta "a" "x"); OpAdd "b/x" (WithMeta "b" "x");
   OpUpdate "a/x" (WithMeta "a" "x"); OpDelete "b/x"; OpAdd "a/y" (WithMeta "a" "y")].

Lemma demo_ops_indexable : Forall (op_indexable demo_indexers) demo_ops.
Proof.
  unfold demo_ops. rewrite !Forall_cons, Forall_nil. split_and!.
  all: try exact I; intros name f Hf; unfold demo_indexers in Hf;
    apply lookup_singleton_Some in Hf as [<- <-]; eexists; reflexivity.
Qed.


Lemma store_lookup_by_index_witness :
  ∃ l, Map_ByIndex "namespace" "a"
         (foldl (@run_op canonical_range keyed key_error)
            (NewThreadSafeStore demo_indexers ∅) demo_ops) = Ok l ∧ length l = 2.
Proof.
  destruct (@store_lookup_by_index canonical_range keyed key_error demo_indexers demo_ops
              demo_ops_indexable) as [H _].
  destruct (H "namespace" MetaNamespaceIndexFunc "a") as (l & Hl & Hp); [reflexivity|].
  exists l. split; [exact Hl|]. rewrite Hp. vm_compute. reflexivity.
Defined.
