(* ===== verification/Fifo.v ===== *)
(** * The FIFO queue of objects (pkg/client/cache/fifo.go)

    [FIFO] keeps the latest version of every pending object by key, and a slice of
    keys in the order of arrival.  [Delete] removes an object but leaves its key in
    the slice, and [Pop] skips such keys.  Every method holds the queue's lock; the
    condition variable is the numbers of blocked ([f_waiting]) and signalled
    ([f_woken]) goroutines inside [Pop].

    Theorems: the queue refines a map of pending objects, no goroutine stays blocked
    while a key is queued, and draining the queue processes every pending object
    exactly once, in order, after which the queue reports that it has synced. *)

From S2P Require Import Prelude.

Section fifo.
Context `{!MapRange} {Obj Error : Type} (keyFunc : Obj → result Error string).
Implicit Types (obj : Obj) (id : string).

(** ** Data *)

Record FIFO := mkFIFO {
  f_items : gmap string Obj;
  f_queue : list string;
  f_populated : bool;
  f_initialPopulationCount : nat;
  f_waiting : nat;
  f_woken : nat
}.

(** The error of a [PopProcessFunc]: [ErrRequeue] wraps the error [Pop] returns. *)
Inductive process_error :=
  | ProcessErr (e : option Error)
  | ErrRequeue (e : option Error).

Inductive fifo_pop :=
  | PopBlocked (f : FIFO)
  | PopReturned (id : string) (item : Obj) (requeued : bool) (err : option Error) (f : FIFO).

(** ** Operations *)

Definition NewFIFO : FIFO := mkFIFO ∅ [] false 0 0 0.

Definition FIFO_HasSynced (f : FIFO) : bool :=
  f_populated f && bool_decide (f_initialPopulationCount f = 0).

(** [f.cond.Broadcast()] *)
Definition fifo_broadcast (f : FIFO) : FIFO :=
  mkFIFO (f_items f) (f_queue f) (f_populated f) (f_initialPopulationCount f)
    0 (f_woken f + f_waiting f).

Definition fifo_set_populated (f : FIFO) : FIFO :=
  mkFIFO (f_items f) (f_queue f) true (f_initialPopulationCount f) (f_waiting f) (f_woken f).

Definition fifo_set_contents (its : gmap string Obj) (q : list string) (f : FIFO) : FIFO :=
  mkFIFO its q (f_populated f) (f_initialPopulationCount f) (f_waiting f) (f_woken f).

Definition FIFO_Add (obj : Obj) (f : FIFO) : FIFO * option Error :=
  match keyFunc obj with
  | Err e => (f, Some e)
  | Ok id =>
      let f := fifo_set_populated f in
      let q := match f_items f !! id with
               | None => f_queue f ++ [id]
               | Some _ => f_queue f
               end in
      (fifo_broadcast (fifo_set_contents (<[id := obj]> (f_items f)) q f), None)
  end.

Definition fifo_addIfNotPresent (id : string) (obj : Obj) (f : FIFO) : FIFO :=
  let f := fifo_set_populated f in
  match f_items f !! id with
  | Some _ => f
  | None => fifo_broadcast (fifo_set_contents (<[id := obj]> (f_items f)) (f_queue f ++ [id]) f)
  end.

Definition FIFO_AddIfNotPresent (obj : Obj) (f : FIFO) : FIFO * option Error :=
  match keyFunc obj with
  | Err e => (f, Some e)
  | Ok id => (fifo_addIfNotPresent id obj f, None)
  end.

Definition FIFO_Update (obj : Obj) (f : FIFO) : FIFO * option Error := FIFO_Add obj f.

Definition FIFO_Delete (obj : Obj) (f : FIFO) : FIFO * option Error :=
  match keyFunc obj with
  | Err e => (f, Some e)
  | Ok id =>
      let f := fifo_set_populated f in
      (fifo_set_contents (delete id (f_items f)) (f_queue f) f, None)
  end.

Definition FIFO_List (f : FIFO) : list Obj := (map_range (f_items f)).*2.

Definition FIFO_ListKeys (f : FIFO) : list string := (map_range (f_items f)).*1.

Definition FIFO_GetByKey (key : string) (f : FIFO) : option Obj := f_items f !! key.

Definition FIFO_Get (obj : Obj) (f : FIFO) : result Error (option Obj) :=
  key !<- keyFunc obj; Ok (FIFO_GetByKey key f).

(** One run of [Pop]'s loops, from the entry or from a wake-up, until it blocks in
    [Wait] or returns; [q] is the slice still to look at. *)
Fixpoint fifo_pop_loop (process : Obj → process_error) (q : list string) (f : FIFO) : fifo_pop :=
  match q with
  | [] => PopBlocked (mkFIFO (f_items f) [] (f_populated f) (f_initialPopulationCount f)
                        (S (f_waiting f)) (f_woken f))
  | id :: q =>
      let count := if decide (0 < f_initialPopulationCount f)
                   then f_initialPopulationCount f - 1 else f_initialPopulationCount f in
      match f_items f !! id with
      | None =>
          fifo_pop_loop process q
            (mkFIFO (f_items f) q (f_populated f) count (f_waiting f) (f_woken f))
      | Some item =>
          let f := mkFIFO (delete id (f_items f)) q (f_populated f) count
                     (f_waiting f) (f_woken f) in
          match process item with
          | ErrRequeue e => PopReturned id item true e (fifo_addIfNotPresent id item f)
          | ProcessErr e => PopReturned id item false e f
          end
      end
  end.

Definition FIFO_Pop (process : Obj → process_error) (f : FIFO) : fifo_pop :=
  fifo_pop_loop process (f_queue f) f.

(** The loop of [Replace] that keys the new objects. *)
Fixpoint fifo_key_items (list : list Obj) (acc : gmap string Obj)
    : result Error (gmap string Obj) :=
  match list with
  | [] => Ok acc
  | item :: rest => key !<- keyFunc item; fifo_key_items rest (<[key := item]> acc)
  end.

Definition FIFO_Replace (list : list Obj) (f : FIFO) : FIFO * option Error :=
  match fifo_key_items list ∅ with
  | Err e => (f, Some e)
  | Ok items =>
      let count := if f_populated f then f_initialPopulationCount f else size items in
      let f := mkFIFO items (map_range items).*1 true count (f_waiting f) (f_woken f) in
      (if decide (0 < length (f_queue f)) then fifo_broadcast f else f, None)
  end.

Definition FIFO_Resync (f : FIFO) : FIFO :=
  let inQueue : gset string := list_to_set (f_queue f) in
  let q := f_queue f ++ filter (λ id, id ∉ inQueue) (map_range (f_items f)).*1 in
  let f := fifo_set_contents (f_items f) q f in
  if decide (0 < length (f_queue f)) then fifo_broadcast f else f.

(** ** Steps *)

Inductive fifo_op :=
  | FAdd (obj : Obj) | FUpdate (obj : Obj) | FAddIfNotPresent (obj : Obj)
  | FDelete (obj : Obj) | FReplace (list : list Obj) | FResync.

Definition run_fifo_op (op : fifo_op) (f : FIFO) : FIFO :=
  match op with
  | FAdd obj => (FIFO_Add obj f).1
  | FUpdate obj => (FIFO_Update obj f).1
  | FAddIfNotPresent obj => (FIFO_AddIfNotPresent obj f).1
  | FDelete obj => (FIFO_Delete obj f).1
  | FReplace list => (FIFO_Replace list f).1
  | FResync => FIFO_Resync f
  end.

Definition pop_state (p : fifo_pop) : FIFO :=
  match p with PopBlocked f | PopReturned _ _ _ _ f => f end.

(** A goroutine calls a method, or a signalled one goes on inside [Pop]. *)
Inductive fifo_step : FIFO → FIFO → Prop :=
  | fstep_op op f : fifo_step f (run_fifo_op op f)
  | fstep_pop process f : fifo_step f (pop_state (FIFO_Pop process f))
  | fstep_wake process its q p c w k :
      fifo_step (mkFIFO its q p c w (S k)) (pop_state (FIFO_Pop process (mkFIFO its q p c w k))).

Definition fifo_reachable : FIFO → Prop := rtc fifo_step NewFIFO.

(** What the queue keeps true. *)
Record fifo_wf (f : FIFO) : Prop := {
  fifo_queued : ∀ id, is_Some (f_items f !! id) → id ∈ f_queue f;
  fifo_awake : f_queue f ≠ [] → f_waiting f = 0
}.

(** ** The abstract queue: a map of pending objects *)

Definition abs_fifo_op (op : fifo_op) (m : gmap string Obj) : gmap string Obj :=
  match op with
  | FAdd obj | FUpdate obj =>
      match keyFunc obj with Ok id => <[id := obj]> m | Err _ => m end
  | FAddIfNotPresent obj =>
      match keyFunc obj with
      | Ok id => if decide (is_Some (m !! id)) then m else <[id := obj]> m
      | Err _ => m
      end
  | FDelete obj => match keyFunc obj with Ok id => delete id m | Err _ => m end
  | FReplace list => match fifo_key_items list ∅ with Ok its => its | Err _ => m end
  | FResync => m
  end.

(** [Pop] takes an object out, or puts it back when asked to requeue it. *)
Definition abs_fifo_pop (m : gmap string Obj) (p : fifo_pop) : Prop :=
  match p with
  | PopBlocked f => m = ∅ ∧ f_items f = ∅
  | PopReturned id item requeued _ f =>
      m !! id = Some item ∧ f_items f = (if requeued then m else delete id m)
  end.

(** ** Draining *)

(** Pop until it blocks. *)
Fixpoint fifo_drain (fuel : nat) (f : FIFO) : list Obj * option FIFO :=
  match fuel with
  | 0 => ([], None)
  | S n =>
      match FIFO_Pop (λ _, ProcessErr None) f with
      | PopBlocked f => ([], Some f)
      | PopReturned _ item _ _ f => let '(l, r) := fifo_drain n f in (item :: l, r)
      end
  end.

(** The first occurrences in a slice of keys. *)
Fixpoint first_occurrences (seen : gset string) (q : list string) : list string :=
  match q with
  | [] => []
  | id :: q =>
      if decide (id ∈ seen) then first_occurrences seen q
      else id :: first_occurrences ({[id]} ∪ seen) q
  end.

(** ** Lemmas *)

Lemma fifo_broadcast_wf f :
  (∀ id, is_Some (f_items f !! id) → id ∈ f_queue f) → fifo_wf (fifo_broadcast f).
Proof. by split. Qed.

Lemma fifo_add_wf id obj f q' :
  fifo_wf f → f_queue f `prefix_of` q' → id ∈ q' →
  fifo_wf (fifo_broadcast (fifo_set_contents (<[id := obj]> (f_items f)) q' f)).
Proof.
  intros [Hq Hw] [k ->] Hid. apply fifo_broadcast_wf; simpl.
  intros id'. rewrite lookup_insert. case_decide; [by subst|]. intros ?%Hq. set_solver.
Qed.

Lemma fifo_set_populated_wf f : fifo_wf f → fifo_wf (fifo_set_populated f).
Proof. intros []. by split. Qed.

Lemma fifo_addIfNotPresent_wf id obj f : fifo_wf f → fifo_wf (fifo_addIfNotPresent id obj f).
Proof.
  intros Hf%fifo_set_populated_wf. unfold fifo_addIfNotPresent.
  destruct (f_items _ !! id); [done|]. apply fifo_add_wf; [done|by eexists|set_solver].
Qed.

Lemma FIFO_Add_wf obj f : fifo_wf f → fifo_wf (FIFO_Add obj f).1.
Proof.
  intros Hf. unfold FIFO_Add. destruct (keyFunc obj) as [id|]; [|done].
  apply fifo_set_populated_wf in Hf. simpl in *. destruct (f_items f !! id) eqn:E; simpl.
  - apply (fifo_add_wf _ _ (fifo_set_populated f)); [done..|]. apply Hf. by eexists.
  - apply (fifo_add_wf _ _ (fifo_set_populated f)); [done|by eexists|set_solver].
Qed.

Lemma fifo_refilled_wf its q p c w k :
  (∀ id, is_Some (its !! id) → id ∈ q) →
  let f := mkFIFO its q p c w k in
  fifo_wf (if decide (0 < length (f_queue f)) then fifo_broadcast f else f).
Proof.
  intros Hq. cbv zeta. case_decide as Hlen; simpl in *; [by apply fifo_broadcast_wf|].
  split; [done|]. simpl. destruct q; simpl in *; [done|lia].
Qed.

Lemma run_fifo_op_wf op f : fifo_wf f → fifo_wf (run_fifo_op op f).
Proof.
  intros Hf. destruct op; simpl.
  - by apply FIFO_Add_wf.
  - by apply FIFO_Add_wf.
  - unfold FIFO_AddIfNotPresent. destruct (keyFunc obj); [|done].
    by apply fifo_addIfNotPresent_wf.
  - unfold FIFO_Delete. destruct (keyFunc obj) as [id|]; [|done]. destruct Hf as [Hq Hw].
    split; simpl; [|done]. intros id'. rewrite lookup_delete_is_Some. naive_solver.
  - unfold FIFO_Replace. destruct (fifo_key_items list ∅) as [its|]; [|done].
    apply fifo_refilled_wf. intros id. by rewrite elem_of_fst_map_range.
  - apply fifo_refilled_wf. intros id Hid. apply elem_of_app.
    destruct (decide (id ∈ f_queue f)) as [|Hn]; [by left|right].
    apply list_elem_of_filter. rewrite elem_of_list_to_set, elem_of_fst_map_range. done.
Qed.

Lemma fifo_pop_loop_spec process q f :
  (∀ id, is_Some (f_items f !! id) → id ∈ q) → (q ≠ [] → f_waiting f = 0) →
  fifo_wf (pop_state (fifo_pop_loop process q f)) ∧
  abs_fifo_pop (f_items f) (fifo_pop_loop process q f).
Proof.
  revert f. induction q as [|id q IH]; intros f Hq Hw; simpl.
  - assert (f_items f = ∅) as Hem.
    { apply map_empty. intros id. apply eq_None_not_Some. intros ?%Hq. set_solver. }
    split; [|done]. split; simpl; [done|]. naive_solver.
  - specialize (Hw ltac:(done)). destruct (f_items f !! id) as [item|] eqn:E.
    + set (f1 := mkFIFO (delete id (f_items f)) q _ _ _ _).
      assert (fifo_wf f1) as Hf1.
      { split; simpl; [|done]. intros id'. rewrite lookup_delete_is_Some.
        intros [Hne ?%Hq]. set_solver. }
      destruct (process item); simpl; [done|].
      split; [by apply fifo_addIfNotPresent_wf|]. split; [done|].
      unfold fifo_addIfNotPresent. simpl. rewrite lookup_delete_eq. simpl.
      by rewrite insert_delete_id.
    + apply (IH (mkFIFO (f_items f) q _ _ _ _)); simpl; [|done].
      intros id' Hid'. destruct (decide (id' = id)) as [->|]; [by destruct Hid'; congruence|].
      apply Hq in Hid'. set_solver.
Qed.

Lemma FIFO_Pop_wf process f : fifo_wf f → fifo_wf (pop_state (FIFO_Pop process f)).
Proof. intros []. by apply fifo_pop_loop_spec. Qed.

Lemma fifo_step_wf f f' : fifo_step f f' → fifo_wf f → fifo_wf f'.
Proof.
  intros [op g|process g|process its q p c w k] Hf.
  - by apply run_fifo_op_wf.
  - by apply FIFO_Pop_wf.
  - apply FIFO_Pop_wf. destruct Hf. by split.
Qed.

Lemma fifo_reachable_wf f : fifo_reachable f → fifo_wf f.
Proof.
  intros Hf. eapply (rtc_invariant _ fifo_wf); [exact fifo_step_wf|exact Hf|].
  split; simpl; [|done]. intros id. rewrite lookup_empty. by intros [].
Qed.

Lemma run_fifo_op_items op f : f_items (run_fifo_op op f) = abs_fifo_op op (f_items f).
Proof.
  destruct op; simpl.
  1,2: unfold FIFO_Update, FIFO_Add; by destruct (keyFunc obj).
  - unfold FIFO_AddIfNotPresent, fifo_addIfNotPresent. destruct (keyFunc obj) as [id|]; [|done].
    simpl. by destruct (f_items f !! id) eqn:E.
  - unfold FIFO_Delete. by destruct (keyFunc obj).
  - unfold FIFO_Replace. destruct (fifo_key_items list ∅); [|done]. cbv zeta. by case_decide.
  - unfold FIFO_Resync. cbv zeta. by case_decide.
Qed.

Lemma first_occurrences_delete (m : gmap string Obj) id seen q :
  omap (delete id m !!.) (first_occurrences seen q) =
  omap (m !!.) (first_occurrences ({[id]} ∪ seen) q).
Proof.
  revert seen. induction q as [|x q IH]; intros seen; simpl; [done|].
  destruct (decide (x ∈ seen)) as [Hx|Hx].
  { rewrite decide_True by set_solver. apply IH. }
  simpl. destruct (decide (x = id)) as [->|Hne].
  - rewrite lookup_delete_eq, decide_True, IH by set_solver. do 2 f_equal. set_solver.
  - rewrite lookup_delete_ne, decide_False, IH by set_solver. simpl.
    replace ({[x]} ∪ ({[id]} ∪ seen)) with ({[id]} ∪ ({[x]} ∪ seen)) by set_solver. done.
Qed.

Lemma elem_of_first_occurrences seen q id :
  id ∈ first_occurrences seen q ↔ id ∈ q ∧ id ∉ seen.
Proof.
  revert seen. induction q as [|x q IH]; intros seen; simpl; [set_solver|].
  case_decide; [rewrite IH; set_solver|]. rewrite elem_of_cons, IH.
  destruct (decide (id = x)); set_solver.
Qed.

Lemma NoDup_first_occurrences seen q : NoDup (first_occurrences seen q).
Proof.
  revert seen. induction q as [|x q IH]; intros seen; simpl; [constructor|].
  case_decide; [done|]. constructor; [|done]. rewrite elem_of_first_occurrences. set_solver.
Qed.

Lemma omap_lookup_all (m : gmap string Obj) ks :
  NoDup ks → (∀ id, is_Some (m !! id) → id ∈ ks) → omap (m !!.) ks ≡ₚ (map_to_list m).*2.
Proof.
  revert m. induction ks as [|k ks IH]; intros m Hnd Hks.
  - replace m with (∅ : gmap string Obj); [by rewrite map_to_list_empty|].
    symmetry. apply map_empty. intros id. apply eq_None_not_Some. intros ?%Hks. set_solver.
  - apply NoDup_cons in Hnd as [Hk Hnd]. simpl. destruct (m !! k) as [x|] eqn:E.
    + rewrite <-(map_to_list_delete m k x) by done. simpl. constructor.
      rewrite <-(IH (delete k m)); [|done|].
      * apply reflexive_eq, list_omap_ext, Forall_Forall2_diag, Forall_forall. intros y Hy.
        rewrite lookup_delete_ne; [done|]. by intros ->.
      * intros id. rewrite lookup_delete_is_Some. intros [Hne ?%Hks]. set_solver.
    + apply IH; [done|]. intros id Hid. pose proof (Hks id Hid).
      destruct Hid. set_solver by congruence.
Qed.

(** [Pop] with a process function that succeeds, on each shape of the slice. *)
Lemma fifo_drain_spec q : ∀ fuel f,
  f_queue f = q → length q < fuel → (∀ id, is_Some (f_items f !! id) → id ∈ q) →
  ∃ w, fifo_drain fuel f =
    (omap (f_items f !!.) (first_occurrences ∅ q),
     Some (mkFIFO ∅ [] (f_populated f) (f_initialPopulationCount f - length q) w (f_woken f))).
Proof.
  induction q as [|id q IH]; intros fuel f Hq Hfuel Hits;
    (destruct fuel as [|fuel]; [simpl in Hfuel; lia|]).
  - simpl. unfold FIFO_Pop. rewrite Hq. simpl. eexists.
    replace (f_items f) with (∅ : gmap string Obj); [by rewrite Nat.sub_0_r|].
    symmetry. apply map_empty. intros id. apply eq_None_not_Some. intros ?%Hits. set_solver.
  - set (c := if decide (0 < f_initialPopulationCount f)
              then f_initialPopulationCount f - 1 else f_initialPopulationCount f).
    assert (Hc : c - length q = f_initialPopulationCount f - S (length q))
      by (unfold c; case_decide; lia).
    destruct (f_items f !! id) as [item|] eqn:E.
    + destruct (IH fuel (mkFIFO (delete id (f_items f)) q (f_populated f) c
                           (f_waiting f) (f_woken f))) as [w Hw]; simpl in *; [done|lia|..].
      { intros id'. rewrite lookup_delete_is_Some. intros [Hne ?%Hits]. set_solver. }
      exists w. unfold FIFO_Pop. rewrite Hq. simpl. rewrite E. fold c. rewrite Hw, Hc.
      rewrite first_occurrences_delete, decide_False by set_solver. simpl. by rewrite E.
    + destruct (IH (S fuel) (mkFIFO (f_items f) q (f_populated f) c
                           (f_waiting f) (f_woken f))) as [w Hw]; [done|simpl in Hfuel; lia|..].
      { simpl. intros id' Hid'. destruct (decide (id' = id)) as [->|]; [destruct Hid'; congruence|].
        apply Hits in Hid'. set_solver. }
      exists w. simpl in Hw |- *. unfold FIFO_Pop in *. rewrite Hq. simpl in *. rewrite E. fold c. rewrite Hw, Hc.
      rewrite decide_False by set_solver. simpl. rewrite E.
      by rewrite <-first_occurrences_delete, delete_id by done.
Qed.

(** ** Theorems *)

(**  Refinement and liveness of the FIFO: in every reachable state each pending
    object's key is queued, no goroutine is blocked in [Pop] while a key is queued,
    and every method acts as it does on a plain map of pending objects; [Pop] takes
    out the latest version of an object, or blocks when nothing is pending. *)
Theorem fifo_refines f :
  fifo_reachable f →
  (∀ id, is_Some (f_items f !! id) → id ∈ f_queue f) ∧
  (f_queue f ≠ [] → f_waiting f = 0) ∧
  (∀ op, f_items (run_fifo_op op f) = abs_fifo_op op (f_items f)) ∧
  (∀ process, abs_fifo_pop (f_items f) (FIFO_Pop process f)).
Proof.
  intros Hf%fifo_reachable_wf. destruct Hf as [Hq Hw]. split_and!; [done..| |].
  - intros op. apply run_fifo_op_items.
  - intros process. by apply fifo_pop_loop_spec.
Qed.

(**  Draining a reachable FIFO returns every pending object exactly once, in the
    order in which their keys were first queued, then blocks; the queue then has
    synced iff it was populated and the initial population still to count did not
    exceed the number of queued keys. *)
Theorem fifo_drain_exact f :
  fifo_reachable f →
  ∃ l f', fifo_drain (S (length (f_queue f))) f = (l, Some f') ∧
    l = omap (f_items f !!.) (first_occurrences ∅ (f_queue f)) ∧
    l ≡ₚ (map_to_list (f_items f)).*2 ∧
    f_items f' = ∅ ∧ f_queue f' = [] ∧
    FIFO_HasSynced f' = f_populated f &&
      bool_decide (f_initialPopulationCount f ≤ length (f_queue f)).
Proof.
  intros [Hq Hw]%fifo_reachable_wf.
  destruct (fifo_drain_spec (f_queue f) (S (length (f_queue f))) f) as [w Hd];
    [done|lia|done|].
  eexists _, _. split; [exact Hd|]. split; [done|]. split_and!; [|done..|].
  - apply omap_lookup_all; [apply NoDup_first_occurrences|].
    intros id Hid. apply elem_of_first_occurrences. set_solver.
  - unfold FIFO_HasSynced. simpl. f_equal. apply bool_decide_ext. lia.
Qed.
End fifo.

(** ** A run with a second list before the first is popped *)

Definition demo_key (o : string * nat) : result () string := Ok o.1.

Definition demo_fifo : FIFO :=
  @run_fifo_op canonical_range _ _ demo_key (FReplace [("b", 2)])
    (@run_fifo_op canonical_range _ _ demo_key (FReplace [("a", 1); ("b", 1)]) NewFIFO).

Lemma demo_fifo_reachable : @fifo_reachable canonical_range _ _ demo_key demo_fifo.
Proof.
  eapply rtc_l; [apply (fstep_op _ (FReplace [("a", 1); ("b", 1)]))|].
  eapply rtc_l; [apply (fstep_op _ (FReplace [("b", 2)]))|]. apply rtc_refl.
Qed.

Lemma fifo_refines_witness :
  f_queue demo_fifo = ["b"] ∧
  abs_fifo_pop (f_items demo_fifo) (FIFO_Pop (λ _, ErrRequeue (Some ())) demo_fifo).
Proof.
  split; [vm_compute; reflexivity|].
  apply (fifo_refines _ _ demo_fifo_reachable).
Defined.

(** The queue is empty, but the first batch is never counted down. *)
Lemma fifo_drain_exact_witness :
  ∃ f', fifo_drain (Error := ()) 2 demo_fifo = ([("b", 2)], Some f') ∧ FIFO_HasSynced f' = false.
Proof.
  destruct (fifo_drain_exact _ _ demo_fifo_reachable) as (l & f' & Hd & Hl & _ & _ & _ & Hs).
  exists f'. split; [|rewrite Hs; vm_compute; reflexivity].
  change (S (length (f_queue demo_fifo))) with 2 in Hd. rewrite Hd, Hl. vm_compute. reflexivity.
Defined.
