(* ===== verification/DeltaFifo.v ===== *)
(** * The queue of object changes (pkg/client/cache/delta_fifo.go)

    [DeltaFIFO] keeps, for every key with unprocessed changes, the list of those
    changes from oldest to newest, and a slice of keys in the order of arrival.
    An object is an [iface]: a caller's object, a tombstone
    ([DeletedFinalStateUnknown]) or a [Deltas] value.  The objects the consumer knows
    of ([knownObjects]) are an argument of the methods that read them: the value its
    methods have at the time of the call.  The lock and the condition variable are
    modelled as in [Fifo].

    Theorem: the contract written in the comment on the type, under every method and
    every delta compressor. *)

From S2P Require Import Prelude Fifo.

Section delta_fifo.
Context `{!MapRange} {Obj Error : Type}.

(** ** Data *)

Inductive DeltaType := Added | Updated | Deleted | Sync.

#[export] Instance DeltaType_eq_dec : EqDecision DeltaType.
Proof. solve_decision. Defined.

(** The dynamic types of the values that pass through the queue. *)
Inductive iface :=
  | Plain (o : Obj)
  | DeletedFinalStateUnknown (key : string) (obj : option iface)
  | DeltasObj (ds : list (DeltaType * iface)).

Definition Delta : Type := DeltaType * iface.
Definition Deltas : Type := list Delta.

Context (keyFunc : iface → result Error string) (deltaCompressor : option (Deltas → Deltas)).

Record DeltaFIFO := mkDeltaFIFO {
  d_items : gmap string Deltas;
  d_queue : list string;
  d_populated : bool;
  d_initialPopulationCount : nat;
  d_waiting : nat;
  d_woken : nat
}.

(** What [knownObjects] answers at one moment. *)
Record KeyListerGetter := mkKeyListerGetter {
  known_ListKeys : list string;
  known_GetByKey : string → result Error (option iface)
}.

Inductive delta_error :=
  | KeyFuncError (e : Error)
  | ErrZeroLengthDeltasObject
  | ObjectMustBeDeltas.

(** ** Deltas *)

Definition Oldest (d : Deltas) : option Delta := head d.
Definition Newest (d : Deltas) : option Delta := last d.
Definition copyDeltas (d : Deltas) : Deltas := d.

Definition is_tombstone (obj : iface) : bool :=
  match obj with DeletedFinalStateUnknown _ _ => true | _ => false end.

Definition isDeletionDup (a b : Delta) : option Delta :=
  if decide (b.1 ≠ Deleted ∨ a.1 ≠ Deleted) then None
  else if is_tombstone b.2 then Some a else Some b.

Definition isDup (a b : Delta) : option Delta :=
  match isDeletionDup a b with
  | Some out => Some out
  | None => None
  end.

(** [a] is the newest delta and [b] the one before it. *)
Definition dedupDeltas (deltas : Deltas) : Deltas :=
  match reverse deltas with
  | a :: b :: older =>
      match isDup a b with
      | Some out => reverse older ++ [out]
      | None => deltas
      end
  | _ => deltas
  end.

(** ** Operations *)

Definition NewDeltaFIFO : DeltaFIFO := mkDeltaFIFO ∅ [] false 0 0 0.

Definition KeyOf (obj : iface) : result delta_error string :=
  let key_of obj :=
    match obj with
    | DeletedFinalStateUnknown key _ => Ok key
    | _ => match keyFunc obj with Ok key => Ok key | Err e => Err (KeyFuncError e) end
    end in
  match obj with
  | DeltasObj d =>
      match Newest d with
      | None => Err ErrZeroLengthDeltasObject
      | Some n => key_of n.2
      end
  | _ => key_of obj
  end.

Definition Delta_HasSynced (f : DeltaFIFO) : bool :=
  d_populated f && bool_decide (d_initialPopulationCount f = 0).

Definition delta_broadcast (f : DeltaFIFO) : DeltaFIFO :=
  mkDeltaFIFO (d_items f) (d_queue f) (d_populated f) (d_initialPopulationCount f)
    0 (d_woken f + d_waiting f).

Definition delta_set_populated (f : DeltaFIFO) : DeltaFIFO :=
  mkDeltaFIFO (d_items f) (d_queue f) true (d_initialPopulationCount f)
    (d_waiting f) (d_woken f).

Definition delta_set_contents (its : gmap string Deltas) (q : list string) (f : DeltaFIFO)
    : DeltaFIFO :=
  mkDeltaFIFO its q (d_populated f) (d_initialPopulationCount f) (d_waiting f) (d_woken f).

Definition willObjectBeDeletedLocked (id : string) (f : DeltaFIFO) : bool :=
  match last (default [] (d_items f !! id)) with
  | Some d => bool_decide (d.1 = Deleted)
  | None => false
  end.

Definition queueActionLocked (actionType : DeltaType) (obj : iface) (f : DeltaFIFO)
    : DeltaFIFO * option delta_error :=
  match KeyOf obj with
  | Err e => (f, Some e)
  | Ok id =>
      if bool_decide (actionType = Sync) && willObjectBeDeletedLocked id f then (f, None)
      else
        let newDeltas := default [] (d_items f !! id) ++ [(actionType, obj)] in
        let newDeltas := dedupDeltas newDeltas in
        let newDeltas := match deltaCompressor with
                         | Some compress => compress newDeltas
                         | None => newDeltas
                         end in
        let exists_ := bool_decide (is_Some (d_items f !! id)) in
        if decide (0 < length newDeltas) then
          let q := if exists_ then d_queue f else d_queue f ++ [id] in
          (delta_broadcast (delta_set_contents (<[id := newDeltas]> (d_items f)) q f), None)
        else if exists_ then
          (delta_set_contents (delete id (d_items f)) (d_queue f) f, None)
        else (f, None)
  end.

Definition Delta_Add (obj : iface) (f : DeltaFIFO) : DeltaFIFO * option delta_error :=
  queueActionLocked Added obj (delta_set_populated f).

Definition Delta_Update (obj : iface) (f : DeltaFIFO) : DeltaFIFO * option delta_error :=
  queueActionLocked Updated obj (delta_set_populated f).

Definition Delta_Delete (known : option KeyListerGetter) (obj : iface) (f : DeltaFIFO)
    : DeltaFIFO * option delta_error :=
  match KeyOf obj with
  | Err e => (f, Some e)
  | Ok id =>
      let f := delta_set_populated f in
      let itemsExist := bool_decide (is_Some (d_items f !! id)) in
      let skip :=
        match known with
        | None => negb itemsExist
        | Some k =>
            match known_GetByKey k id with
            | Ok None => negb itemsExist
            | _ => false
            end
        end in
      if skip then (f, None) else queueActionLocked Deleted obj f
  end.

Definition delta_addIfNotPresent (id : string) (deltas : Deltas) (f : DeltaFIFO) : DeltaFIFO :=
  let f := delta_set_populated f in
  match d_items f !! id with
  | Some _ => f
  | None =>
      delta_broadcast (delta_set_contents (<[id := deltas]> (d_items f)) (d_queue f ++ [id]) f)
  end.

(** [deltas.Newest()] is nil for an empty [Deltas], and reading its object panics. *)
Definition Delta_AddIfNotPresent (obj : iface) (f : DeltaFIFO)
    : outcome (DeltaFIFO * option delta_error) :=
  match obj with
  | DeltasObj deltas =>
      match Newest deltas with
      | None => Panic "nil pointer dereference"
      | Some n =>
          match KeyOf n.2 with
          | Err e => Ret (f, Some e)
          | Ok id => Ret (delta_addIfNotPresent id deltas f, None)
          end
      end
  | _ => Ret (f, Some ObjectMustBeDeltas)
  end.

(** The loop of [listLocked]. *)
Fixpoint list_newest (its : list (string * Deltas)) : outcome (list iface) :=
  match its with
  | [] => Ret []
  | (_, item) :: rest =>
      match Newest (copyDeltas item) with
      | None => Panic "nil pointer dereference"
      | Some n => l ?<- list_newest rest; Ret (n.2 :: l)
      end
  end.

Definition Delta_List (f : DeltaFIFO) : outcome (list iface) := list_newest (map_range (d_items f)).

Definition Delta_ListKeys (f : DeltaFIFO) : list string := (map_range (d_items f)).*1.

Definition Delta_GetByKey (key : string) (f : DeltaFIFO) : option Deltas :=
  copyDeltas <$> d_items f !! key.

Definition Delta_Get (obj : iface) (f : DeltaFIFO) : result delta_error (option Deltas) :=
  key !<- KeyOf obj; Ok (Delta_GetByKey key f).

(** The result of one run of [Pop]; [S] is the state the process function works on and
    [E] the type of its errors. *)
Inductive delta_pop (S E : Type) :=
  | DeltaBlocked (f : DeltaFIFO) (s : S)
  | DeltaReturned (id : string) (item : Deltas) (err : option E) (f : DeltaFIFO) (s : S).
Arguments DeltaBlocked {S E}.
Arguments DeltaReturned {S E}.

Fixpoint delta_pop_loop {S E} (process : Deltas → S → S * @process_error E)
    (q : list string) (f : DeltaFIFO) (s : S) : delta_pop S E :=
  match q with
  | [] =>
      DeltaBlocked (mkDeltaFIFO (d_items f) [] (d_populated f) (d_initialPopulationCount f)
                      (1 + d_waiting f) (d_woken f)) s
  | id :: q =>
      let count := if decide (0 < d_initialPopulationCount f)
                   then d_initialPopulationCount f - 1 else d_initialPopulationCount f in
      match d_items f !! id with
      | None =>
          delta_pop_loop process q
            (mkDeltaFIFO (d_items f) q (d_populated f) count (d_waiting f) (d_woken f)) s
      | Some item =>
          let f := mkDeltaFIFO (delete id (d_items f)) q (d_populated f) count
                     (d_waiting f) (d_woken f) in
          let '(s, err) := process item s in
          match err with
          | ErrRequeue e => DeltaReturned id item e (delta_addIfNotPresent id item f) s
          | ProcessErr e => DeltaReturned id item e f s
          end
      end
  end.

Definition Delta_Pop {S E} (process : Deltas → S → S * @process_error E)
    (f : DeltaFIFO) (s : S) : delta_pop S E :=
  delta_pop_loop process (d_queue f) f s.

(** The loop of [Replace] over the new list. *)
Fixpoint replace_sync (list : list iface) (keys : gset string) (f : DeltaFIFO)
    : gset string * DeltaFIFO * option delta_error :=
  match list with
  | [] => (keys, f, None)
  | item :: rest =>
      match KeyOf item with
      | Err e => (keys, f, Some e)
      | Ok key =>
          let keys := {[key]} ∪ keys in
          match queueActionLocked Sync item f with
          | (f, Some e) => (keys, f, Some e)
          | (f, None) => replace_sync rest keys f
          end
      end
  end.

(** Queue a tombstone for [k]. *)
Definition queue_tombstone (k : string) (deletedObj : option iface) (f : DeltaFIFO) :=
  queueActionLocked Deleted (DeletedFinalStateUnknown k deletedObj) f.

(** The deletions [Replace] detects against the queue's own items. *)
Fixpoint replace_delete_queued (its : list (string * Deltas)) (keys : gset string) (f : DeltaFIFO)
    : DeltaFIFO * option delta_error :=
  match its with
  | [] => (f, None)
  | (k, oldItem) :: rest =>
      if decide (k ∈ keys) then replace_delete_queued rest keys f
      else
        match queue_tombstone k (snd <$> Newest oldItem) f with
        | (f, Some e) => (f, Some e)
        | (f, None) => replace_delete_queued rest keys f
        end
  end.

(** The deletions it detects against the known objects, and their number. *)
Fixpoint replace_delete_known (known : KeyListerGetter) (ks : list string) (keys : gset string)
    (queuedDeletions : nat) (f : DeltaFIFO) : nat * DeltaFIFO * option delta_error :=
  match ks with
  | [] => (queuedDeletions, f, None)
  | k :: rest =>
      if decide (k ∈ keys) then replace_delete_known known rest keys queuedDeletions f
      else
        let deletedObj := match known_GetByKey known k with
                          | Ok (Some o) => Some o
                          | _ => None
                          end in
        match queue_tombstone k deletedObj f with
        | (f, Some e) => (1 + queuedDeletions, f, Some e)
        | (f, None) => replace_delete_known known rest keys (1 + queuedDeletions) f
        end
  end.

Definition set_initial_population (count : nat) (f : DeltaFIFO) : DeltaFIFO :=
  if d_populated f then f
  else mkDeltaFIFO (d_items f) (d_queue f) true count (d_waiting f) (d_woken f).

Definition Delta_Replace (known : option KeyListerGetter) (list : list iface) (f : DeltaFIFO)
    : DeltaFIFO * option delta_error :=
  match replace_sync list ∅ f with
  | (_, f, Some e) => (f, Some e)
  | (keys, f, None) =>
      match known with
      | None =>
          match replace_delete_queued (map_range (d_items f)) keys f with
          | (f, Some e) => (f, Some e)
          | (f, None) => (set_initial_population (length list) f, None)
          end
      | Some k =>
          match replace_delete_known k (known_ListKeys k) keys 0 f with
          | (_, f, Some e) => (f, Some e)
          | (queuedDeletions, f, None) =>
              (set_initial_population (length list + queuedDeletions) f, None)
          end
      end
  end.

Definition syncKey (known : KeyListerGetter) (key : string) (f : DeltaFIFO)
    : DeltaFIFO * option delta_error :=
  match known_GetByKey known key with
  | Err _ | Ok None => (f, None)
  | Ok (Some obj) =>
      match KeyOf obj with
      | Err e => (f, Some e)
      | Ok id =>
          if decide (0 < length (default [] (d_items f !! id))) then (f, None)
          else queueActionLocked Sync obj f
      end
  end.

(** [Resync] reads the known keys under the lock, then syncs them one at a time,
    each under the lock again; an error ends it. *)
Fixpoint Resync_loop (known : KeyListerGetter) (keys : list string) (f : DeltaFIFO)
    : DeltaFIFO * option delta_error :=
  match keys with
  | [] => (f, None)
  | k :: rest =>
      match syncKey known k f with
      | (f, Some e) => (f, Some e)
      | (f, None) => Resync_loop known rest f
      end
  end.

(** ** Steps *)

Inductive delta_op :=
  | DAdd (obj : iface) | DUpdate (obj : iface)
  | DDelete (known : option KeyListerGetter) (obj : iface)
  | DAddIfNotPresent (obj : iface)
  | DReplace (known : option KeyListerGetter) (list : list iface)
  | DSyncKey (known : KeyListerGetter) (key : string).

Definition run_delta_op (op : delta_op) (f : DeltaFIFO) : DeltaFIFO :=
  match op with
  | DAdd obj => (Delta_Add obj f).1
  | DUpdate obj => (Delta_Update obj f).1
  | DDelete known obj => (Delta_Delete known obj f).1
  | DAddIfNotPresent obj =>
      match Delta_AddIfNotPresent obj f with Ret (f, _) => f | Panic _ => f end
  | DReplace known list => (Delta_Replace known list f).1
  | DSyncKey known key => (syncKey known key f).1
  end.

Definition delta_pop_state {S E} (p : delta_pop S E) : DeltaFIFO :=
  match p with DeltaBlocked f _ | DeltaReturned _ _ _ f _ => f end.

Inductive delta_step : DeltaFIFO → DeltaFIFO → Prop :=
  | dstep_op op f : delta_step f (run_delta_op op f)
  | dstep_pop S E (process : Deltas → S → S * @process_error E) (s : S) f :
      delta_step f (delta_pop_state (Delta_Pop process f s))
  | dstep_wake S E (process : Deltas → S → S * @process_error E) (s : S) its q p c w k :
      delta_step (mkDeltaFIFO its q p c w (1 + k))
        (delta_pop_state (Delta_Pop process (mkDeltaFIFO its q p c w k) s)).

Definition delta_reachable : DeltaFIFO → Prop := rtc delta_step NewDeltaFIFO.

(** The contract in the comment on [DeltaFIFO]: the items are queued and have at
    least one delta each. *)
Record delta_wf (f : DeltaFIFO) : Prop := {
  delta_queued : ∀ id, is_Some (d_items f !! id) → id ∈ d_queue f;
  delta_nonempty : ∀ id ds, d_items f !! id = Some ds → ds ≠ [];
  delta_awake : d_queue f ≠ [] → d_waiting f = 0
}.

(** ** Lemmas *)

Lemma delta_put_wf id ds f q' :
  delta_wf f → ds ≠ [] → d_queue f `prefix_of` q' → id ∈ q' →
  delta_wf (delta_broadcast (delta_set_contents (<[id := ds]> (d_items f)) q' f)).
Proof.
  intros [Hq Hn Hw] Hds [k ->] Hid. split; simpl; [| |done].
  - intros id'. rewrite lookup_insert. case_decide; [by subst|]. intros ?%Hq. set_solver.
  - intros id' ds'. rewrite lookup_insert. case_decide; [naive_solver|apply Hn].
Qed.

Lemma delta_set_populated_wf f : delta_wf f → delta_wf (delta_set_populated f).
Proof. intros []. by split. Qed.

Lemma set_initial_population_wf c f : delta_wf f → delta_wf (set_initial_population c f).
Proof. intros []. unfold set_initial_population. by destruct (d_populated f). Qed.

Lemma delta_addIfNotPresent_wf id ds f :
  delta_wf f → ds ≠ [] → delta_wf (delta_addIfNotPresent id ds f).
Proof.
  intros Hf%delta_set_populated_wf Hds. unfold delta_addIfNotPresent.
  destruct (d_items _ !! id); [done|]. apply delta_put_wf; [done..|by eexists|set_solver].
Qed.

Lemma queueActionLocked_wf a obj f : delta_wf f → delta_wf (queueActionLocked a obj f).1.
Proof.
  intros Hf. unfold queueActionLocked. destruct (KeyOf obj) as [id|]; [|done].
  destruct (_ && _); [done|]. cbv zeta. case_decide as Hlen.
  - simpl. apply delta_put_wf; [done|intros Hnil; rewrite Hnil in Hlen; simpl in Hlen; lia|..];
      case_bool_decide; [done|by eexists|by apply Hf|set_solver].
  - destruct Hf as [Hq Hn Hw]. case_bool_decide; [|done]. split; simpl; [| |done].
    + intros id'. rewrite lookup_delete_is_Some. naive_solver.
    + intros id' ds. rewrite lookup_delete_Some. naive_solver.
Qed.

Lemma replace_sync_wf list keys f : delta_wf f → delta_wf (replace_sync list keys f).1.2.
Proof.
  revert keys f. induction list as [|item list IH]; intros keys f Hf; simpl; [done|].
  destruct (KeyOf item); [|done].
  pose proof (queueActionLocked_wf Sync item f Hf) as Hq.
  destruct (queueActionLocked Sync item f) as [f' [e|]]; simpl in *; auto.
Qed.

Lemma replace_delete_queued_wf its keys f :
  delta_wf f → delta_wf (replace_delete_queued its keys f).1.
Proof.
  revert f. induction its as [|[k old] its IH]; intros f Hf; simpl; [done|].
  case_decide; [auto|]. unfold queue_tombstone.
  pose proof (queueActionLocked_wf Deleted
    (DeletedFinalStateUnknown k (snd <$> Newest old)) f Hf) as Hq.
  destruct (queueActionLocked Deleted _ f) as [f' [e|]]; simpl in *; auto.
Qed.

Lemma replace_delete_known_wf known ks keys n f :
  delta_wf f → delta_wf (replace_delete_known known ks keys n f).1.2.
Proof.
  revert n f. induction ks as [|k ks IH]; intros n f Hf; simpl; [done|].
  case_decide; [auto|]. unfold queue_tombstone. set (o := match _ with Ok _ => _ | Err _ => _ end).
  pose proof (queueActionLocked_wf Deleted (DeletedFinalStateUnknown k o) f Hf) as Hq.
  destruct (queueActionLocked Deleted _ f) as [f' [e|]]; simpl in *; auto.
Qed.

Lemma Delta_Replace_wf known list f : delta_wf f → delta_wf (Delta_Replace known list f).1.
Proof.
  intros Hf. unfold Delta_Replace. pose proof (replace_sync_wf list ∅ f Hf) as H1.
  destruct (replace_sync list ∅ f) as [[keys f1] [e|]]; simpl in *; [done|].
  destruct known as [k|].
  - pose proof (replace_delete_known_wf k (known_ListKeys k) keys 0 f1 H1) as H2.
    destruct (replace_delete_known _ _ _ _ _) as [[n f2] [e|]]; simpl in *; [done|].
    by apply set_initial_population_wf.
  - pose proof (replace_delete_queued_wf (map_range (d_items f1)) keys f1 H1) as H2.
    destruct (replace_delete_queued _ _ _) as [f2 [e|]]; simpl in *; [done|].
    by apply set_initial_population_wf.
Qed.

Lemma run_delta_op_wf op f : delta_wf f → delta_wf (run_delta_op op f).
Proof.
  intros Hf. destruct op as [obj|obj|known obj|obj|known list|known key]; simpl.
  - by apply queueActionLocked_wf, delta_set_populated_wf.
  - by apply queueActionLocked_wf, delta_set_populated_wf.
  - unfold Delta_Delete. destruct (KeyOf obj); [|done].
    destruct (match known with Some _ => _ | None => _ end); [by apply delta_set_populated_wf|].
    by apply queueActionLocked_wf, delta_set_populated_wf.
  - unfold Delta_AddIfNotPresent. destruct obj as [| |ds]; [done..|].
    destruct (Newest ds) as [n|] eqn:E; [|done]. destruct (KeyOf n.2); [|done].
    apply delta_addIfNotPresent_wf; [done|]. by intros ->.
  - by apply Delta_Replace_wf.
  - unfold syncKey. destruct (known_GetByKey known key) as [[obj|]|]; [|done..].
    destruct (KeyOf obj); [|done]. case_decide; [done|]. by apply queueActionLocked_wf.
Qed.

Lemma delta_pop_loop_wf {S E} (process : Deltas → S → S * @process_error E) q f (s : S) :
  (∀ id, is_Some (d_items f !! id) → id ∈ q) →
  (∀ id ds, d_items f !! id = Some ds → ds ≠ []) → (q ≠ [] → d_waiting f = 0) →
  delta_wf (delta_pop_state (delta_pop_loop process q f s)).
Proof.
  revert f. induction q as [|id q IH]; intros f Hq Hn Hw; simpl; [by split|].
  specialize (Hw ltac:(done)). destruct (d_items f !! id) as [item|] eqn:Eid.
  - set (f1 := mkDeltaFIFO (delete id (d_items f)) q _ _ _ _).
    assert (delta_wf f1) as Hf1.
    { split; simpl; [| |done].
      - intros id'. rewrite lookup_delete_is_Some. intros [Hne ?%Hq]. set_solver.
      - intros id' ds. rewrite lookup_delete_Some. naive_solver. }
    destruct (process item s) as [s' []]; simpl; [done|].
    apply delta_addIfNotPresent_wf; eauto.
  - apply IH; simpl; [|done..]. intros id' Hid'.
    destruct (decide (id' = id)) as [->|]; [by destruct Hid'; congruence|].
    apply Hq in Hid'. set_solver.
Qed.

Lemma delta_step_wf f f' : delta_step f f' → delta_wf f → delta_wf f'.
Proof.
  intros [op g|S E process s g|S E process s its q p c w k] Hf.
  - by apply run_delta_op_wf.
  - destruct Hf. by apply delta_pop_loop_wf.
  - destruct Hf. by apply delta_pop_loop_wf.
Qed.

Lemma list_newest_total its :
  (∀ k ds, (k, ds) ∈ its → ds ≠ []) → ∃ l, list_newest its = Ret l ∧ length l = length its.
Proof.
  induction its as [|[k ds] its IH]; intros Hne; simpl; [by eexists|].
  destruct IH as (l & -> & Hl); [set_solver|].
  unfold copyDeltas. destruct (Newest ds) as [n|] eqn:E.
  - eexists. split; [done|]. simpl. by rewrite Hl.
  - apply last_None in E. by destruct (Hne k ds); [left|].
Qed.

(** ** Theorems *)

(** C24.  Under any sequence of methods, wake-ups and process functions, and for any
    compressor: every item is queued, no item has an empty list of deltas (so [List]
    never dereferences nil), and no goroutine is blocked while a key is queued. *)
Theorem delta_fifo_contract f :
  delta_reachable f →
  (∀ id, is_Some (d_items f !! id) → id ∈ d_queue f) ∧
  (∀ id ds, d_items f !! id = Some ds → ds ≠ []) ∧
  (∃ l, Delta_List f = Ret l ∧ length l = size (d_items f)) ∧
  (d_queue f ≠ [] → d_waiting f = 0).
Proof.
  intros Hf.
  assert (delta_wf f) as [Hq Hn Hw].
  { eapply (rtc_invariant _ delta_wf); [exact delta_step_wf|exact Hf|].
    split; simpl; [| |done]; intros id; [|intros ds]; rewrite lookup_empty; [by intros []|done]. }
  split_and!; [done..| |done].
  destruct (list_newest_total (map_range (d_items f))) as (l & Hl & Hlen).
  - intros k ds Hin. apply (Hn k). by apply elem_of_map_range.
  - exists l. split; [done|]. by rewrite Hlen, length_map_range.
Qed.
End delta_fifo.

Arguments DeltaBlocked {Obj S E}.
Arguments DeltaReturned {Obj S E}.

(** ** A run: an object added and deleted before it is popped *)

Definition demo_delta_key (x : @iface string) : result () string :=
  match x with Plain o => Ok o | _ => Err () end.

Definition demo_delta_fifo : @DeltaFIFO string :=
  run_delta_op (H := canonical_range) demo_delta_key None (DDelete None (Plain "a"))
    (run_delta_op (H := canonical_range) demo_delta_key None (DAdd (Plain "a")) NewDeltaFIFO).

Lemma delta_fifo_contract_witness :
  d_queue demo_delta_fifo = ["a"] ∧
  (∃ l, Delta_List (H := canonical_range) demo_delta_fifo = Ret l ∧
        length l = size (d_items demo_delta_fifo)).
Proof.
  split; [vm_compute; reflexivity|].
  refine (proj1 (proj2 (proj2 (delta_fifo_contract (H := canonical_range)
            demo_delta_key None demo_delta_fifo _)))).
  eapply rtc_l; [apply (dstep_op _ _ (DAdd (Plain "a")))|].
  eapply rtc_l; [apply (dstep_op _ _ (DDelete None (Plain "a")))|]. apply rtc_refl.
Defined.
