(* ===== verification/Informer.v ===== *)
(** * The shared informer (pkg/client/cache/shared_informer.go, controller.go)

    A [sharedIndexInformer] keeps a local indexed store in step with the API server.
    The reflector puts changes into a [DeltaFIFO]; the controller's loop pops them
    and runs [HandleDeltas] under the queue's lock, which changes the store and
    appends a notification for every listener; each listener has two goroutines that
    hand its notifications to its handler.  The queue consults the store for
    deletions and for resyncs.  The steps below are the critical sections of those
    goroutines; a resync is one step per key.

    The reflector delivers objects that have a key ([keyFunc_total]): it drops
    objects of another type and objects without metadata.

    Theorems: every step acts on the state that the queue still owes the store as the
    event does on a plain map; once the queue is drained the store is that map; the
    notifications of every listener, late ones included, replay to the store; and the
    conditions under which a new list is not fully taken over. *)

From S2P Require Import Prelude Fifo DeltaFifo ClientStore.

#[local] Arguments KeyOf : simpl never.
#[local] Arguments queueActionLocked : simpl never.

Section informer.
Context `{!MapRange} {Obj Error : Type} (keyFunc : @iface Obj → result Error string).
Notation iface := (@iface Obj).
Notation cache := (@cache iface Error).
Notation store_error := (@store_error iface Error).

(** ** Data *)

Inductive notification :=
  | updateNotification (oldObj newObj : iface)
  | addNotification (newObj : iface)
  | deleteNotification (oldObj : iface).

(** [popped] is the notification between the two goroutines of the listener, and
    [handled] those its handler has seen. *)
Record processorListener := mkListener {
  pendingNotifications : list notification;
  popped : option notification;
  handled : list notification
}.

Record sharedIndexInformer := mkInformer {
  started : bool;
  indexer : cache;
  i_fifo : @DeltaFIFO Obj;
  listeners : list processorListener;
  resyncing : list string
}.

(** ** Operations *)

Definition DeletionHandlingMetaNamespaceKeyFunc (obj : iface) : result Error string :=
  match obj with
  | DeletedFinalStateUnknown key _ => Ok key
  | _ => keyFunc obj
  end.

Definition newProcessListener : processorListener := mkListener [] None [].

Definition NewSharedIndexInformer (indexers : gmap string (@IndexFunc iface Error))
    : sharedIndexInformer :=
  mkInformer false (NewIndexer DeletionHandlingMetaNamespaceKeyFunc indexers)
    NewDeltaFIFO [] [].

Definition listener_add (n : notification) (l : processorListener) : processorListener :=
  mkListener (pendingNotifications l ++ [n]) (popped l) (handled l).

Definition distribute (n : notification) (ls : list processorListener) : list processorListener :=
  listener_add n <$> ls.

(** One turn of the loop of [HandleDeltas]. *)
Definition handle_delta (d : @Delta Obj) (st : cache * list processorListener)
    : (cache * list processorListener) * option store_error :=
  let '(ix, ls) := st in
  match d.1 with
  | Sync | Added | Updated =>
      match Cache_Get d.2 ix with
      | Ok (Some old) =>
          match Cache_Update d.2 ix with
          | Err e => (st, Some e)
          | Ok ix => ((ix, distribute (updateNotification old d.2) ls), None)
          end
      | _ =>
          match Cache_Add d.2 ix with
          | Err e => (st, Some e)
          | Ok ix => ((ix, distribute (addNotification d.2) ls), None)
          end
      end
  | Deleted =>
      match Cache_Delete d.2 ix with
      | Err e => (st, Some e)
      | Ok ix => ((ix, distribute (deleteNotification d.2) ls), None)
      end
  end.

Fixpoint HandleDeltas (ds : @Deltas Obj) (st : cache * list processorListener)
    : (cache * list processorListener) * option store_error :=
  match ds with
  | [] => (st, None)
  | d :: rest =>
      match handle_delta d st with
      | (st, Some e) => (st, Some e)
      | (st, None) => HandleDeltas rest st
      end
  end.

(** The store as the queue's [knownObjects]. *)
Definition known_objects (ix : cache) : @KeyListerGetter Obj Error :=
  mkKeyListerGetter (Cache_ListKeys ix) (λ key, Ok (Cache_GetByKey key ix)).

Definition informer_Run (s : sharedIndexInformer) : sharedIndexInformer :=
  mkInformer true (indexer s) NewDeltaFIFO (listeners s) (resyncing s).

Definition informer_HasSynced (s : sharedIndexInformer) : bool :=
  if started s then Delta_HasSynced (i_fifo s) else false.

(** A late handler gets an [addNotification] for every object in the store. *)
Definition AddEventHandler (s : sharedIndexInformer) : sharedIndexInformer :=
  let listener :=
    if started s then
      foldl (λ l obj, listener_add (addNotification obj) l) newProcessListener
        (Cache_List (indexer s))
    else newProcessListener in
  mkInformer (started s) (indexer s) (i_fifo s) (listeners s ++ [listener]) (resyncing s).

Definition informer_AddIndexers (newIndexers : gmap string (@IndexFunc iface Error))
    (s : sharedIndexInformer) : option sharedIndexInformer :=
  if started s then None
  else
    match Map_AddIndexers newIndexers (cacheStorage (indexer s)) with
    | Err _ => None
    | Ok m => Some (mkInformer (started s) (with_storage m (indexer s)) (i_fifo s)
                      (listeners s) (resyncing s))
    end.

Definition with_fifo (f : @DeltaFIFO Obj) (s : sharedIndexInformer) : sharedIndexInformer :=
  mkInformer (started s) (indexer s) f (listeners s) (resyncing s).

(** What the reflector calls on the queue. *)
Definition reflector_Add (o : Obj) (s : sharedIndexInformer) : sharedIndexInformer :=
  with_fifo (Delta_Add keyFunc None (Plain o) (i_fifo s)).1 s.

Definition reflector_Update (o : Obj) (s : sharedIndexInformer) : sharedIndexInformer :=
  with_fifo (Delta_Update keyFunc None (Plain o) (i_fifo s)).1 s.

Definition reflector_Delete (o : Obj) (s : sharedIndexInformer) : sharedIndexInformer :=
  with_fifo (Delta_Delete keyFunc None (Some (known_objects (indexer s))) (Plain o)
               (i_fifo s)).1 s.

Definition syncWith (list : list Obj) (s : sharedIndexInformer) : sharedIndexInformer :=
  with_fifo (Delta_Replace keyFunc None (Some (known_objects (indexer s))) (Plain <$> list)
               (i_fifo s)).1 s.

(** [Resync]: the keys are read first, then synced one by one. *)
Definition resync_start (s : sharedIndexInformer) : sharedIndexInformer :=
  mkInformer (started s) (indexer s) (i_fifo s) (listeners s)
    (known_ListKeys (known_objects (indexer s))).

Definition resync_next (k : string) (rest : list string) (s : sharedIndexInformer)
    : sharedIndexInformer :=
  let '(f, err) := syncKey keyFunc None (known_objects (indexer s)) k (i_fifo s) in
  mkInformer (started s) (indexer s) f (listeners s)
    (match err with Some _ => [] | None => rest end).

(** One [Pop] of the controller's [processLoop], with [RetryOnError] false: an item
    whose processing failed is dropped. *)
Definition process_pop (f : @DeltaFIFO Obj) (s : sharedIndexInformer) : sharedIndexInformer :=
  let process ds st := let '(st, err) := HandleDeltas ds st in (st, ProcessErr err) in
  match Delta_Pop process f (indexer s, listeners s) with
  | DeltaBlocked f (ix, ls) | DeltaReturned _ _ _ f (ix, ls) =>
      mkInformer (started s) ix f ls (resyncing s)
  end.

(** The two goroutines of a listener. *)
Definition listener_pop (l : processorListener) : processorListener :=
  match popped l, pendingNotifications l with
  | None, n :: rest => mkListener rest (Some n) (handled l)
  | _, _ => l
  end.

Definition listener_run (l : processorListener) : processorListener :=
  match popped l with
  | Some n => mkListener (pendingNotifications l) None (handled l ++ [n])
  | None => l
  end.

Definition with_listeners (ls : list processorListener) (s : sharedIndexInformer)
    : sharedIndexInformer :=
  mkInformer (started s) (indexer s) (i_fifo s) ls (resyncing s).

(** ** Steps *)

(** What an event means for the state of the server. *)
Inductive label :=
  | LSet (o : Obj) | LDelete (o : Obj) | LReplace (list : list Obj) | LTau.

Inductive informer_step : sharedIndexInformer → label → sharedIndexInformer → Prop :=
  | st_run s : started s = false → informer_step s LTau (informer_Run s)
  | st_indexers fs s s' : informer_AddIndexers fs s = Some s' → informer_step s LTau s'
  | st_handler s : informer_step s LTau (AddEventHandler s)
  | st_add o s : started s = true → informer_step s (LSet o) (reflector_Add o s)
  | st_update o s : started s = true → informer_step s (LSet o) (reflector_Update o s)
  | st_delete o s : started s = true → informer_step s (LDelete o) (reflector_Delete o s)
  | st_replace l s : started s = true → informer_step s (LReplace l) (syncWith l s)
  | st_resync s : started s = true → resyncing s = [] → informer_step s LTau (resync_start s)
  | st_synckey k rest s :
      started s = true → resyncing s = k :: rest → informer_step s LTau (resync_next k rest s)
  | st_pop s : started s = true → informer_step s LTau (process_pop (i_fifo s) s)
  | st_wake its q p c w k s :
      started s = true → i_fifo s = mkDeltaFIFO its q p c w (1 + k) →
      informer_step s LTau (process_pop (mkDeltaFIFO its q p c w k) s)
  | st_listener i l s :
      listeners s !! i = Some l →
      informer_step s LTau (with_listeners (<[i := listener_pop l]> (listeners s)) s)
  | st_deliver i l s :
      listeners s !! i = Some l →
      informer_step s LTau (with_listeners (<[i := listener_run l]> (listeners s)) s).

Inductive informer_run (s : sharedIndexInformer) : list label → sharedIndexInformer → Prop :=
  | irun_nil : informer_run s [] s
  | irun_snoc tr s1 l s2 :
      informer_run s tr s1 → informer_step s1 l s2 → informer_run s (tr ++ [l]) s2.

(** ** The state the queue still owes the store *)

Notation DKey := DeletionHandlingMetaNamespaceKeyFunc.

(** The objects in the informer's store. *)
Definition stored (s : sharedIndexInformer) : gmap string iface := items (cacheStorage (indexer s)).

Definition delta_result (d : @Delta Obj) : option iface :=
  match d.1 with Deleted => None | _ => Some d.2 end.

(** The object under [k] once the deltas queued for it have been applied. *)
Definition view_of (st : gmap string iface) (f : @DeltaFIFO Obj) (k : string) : option iface :=
  foldl (λ _ d, delta_result d) (st !! k) (default [] (d_items f !! k)).

Definition view (s : sharedIndexInformer) : string → option iface := view_of (stored s) (i_fifo s).

Definition has_key (o : Obj) (k : string) : bool :=
  match keyFunc (Plain o) with
  | Ok k' => bool_decide (k' = k)
  | Err _ => false
  end.

(** The object a list gives for a key: the last one under it. *)
Fixpoint relisted (l : list Obj) (k : string) : option iface :=
  match l with
  | [] => None
  | o :: l =>
      match relisted l k with
      | Some x => Some x
      | None => if has_key o k then Some (Plain o) else None
      end
  end.

(** What an event does to the server's objects, as a map. *)
Definition spec_label (l : label) (v : string → option iface) (k : string) : option iface :=
  match l with
  | LSet o => if has_key o k then Some (Plain o) else v k
  | LDelete o => if has_key o k then None else v k
  | LReplace l => relisted l k
  | LTau => v k
  end.

(** A list is taken over fully when no listed object has a queued deletion and every
    queued object that is missing from the list is in the store or deleted. *)
Definition takes_over (s : sharedIndexInformer) (l : list Obj) : Prop :=
  ∀ k, match relisted l k with
       | Some _ => willObjectBeDeletedLocked k (i_fifo s) = false
       | None => is_Some (stored s !! k) ∨ view s k = None
       end.

Definition clean_label (s : sharedIndexInformer) (l : label) : Prop :=
  match l with LReplace l => takes_over s l | _ => True end.

Inductive clean_run (s : sharedIndexInformer) : list label → sharedIndexInformer → Prop :=
  | crun_nil : clean_run s [] s
  | crun_snoc tr s1 l s2 :
      clean_run s tr s1 → clean_label s1 l → informer_step s1 l s2 →
      clean_run s (tr ++ [l]) s2.

(** The notifications of a listener, in the order of their delivery. *)
Definition notifications (l : processorListener) : list notification :=
  handled l ++ option_list (popped l) ++ pendingNotifications l.

Definition apply_notification (m : gmap string iface) (n : notification) : gmap string iface :=
  match n with
  | addNotification o | updateNotification _ o =>
      match DKey o with Ok k => <[k := o]> m | Err _ => m end
  | deleteNotification o => match DKey o with Ok k => delete k m | Err _ => m end
  end.

Definition replay (ns : list notification) : gmap string iface := foldl apply_notification ∅ ns.

#[local] Arguments handle_delta : simpl never.

(** ** Invariants *)

(** A delta queued under [k]. *)
Definition delta_of (k : string) (d : @Delta Obj) : Prop :=
  DKey d.2 = Ok k ∧ (d.1 ≠ Deleted → ∃ o, d.2 = Plain o).

Definition fifo_of_keys (f : @DeltaFIFO Obj) : Prop :=
  ∀ k ds, d_items f !! k = Some ds → Forall (delta_of k) ds.

Definition store_of_keys (st : gmap string iface) : Prop :=
  ∀ k o, st !! k = Some o → ∃ p, o = Plain p ∧ keyFunc o = Ok k.

Record informer_wf (s : sharedIndexInformer) : Prop := {
  wf_keyFunc : ClientStore.keyFunc (indexer s) = DKey;
  wf_store : store_of_keys (stored s);
  wf_fifo : fifo_of_keys (i_fifo s);
  wf_unstarted : started s = false → stored s = ∅ ∧ d_items (i_fifo s) = ∅;
  wf_replay : Forall (λ l, replay (notifications l) = stored s) (listeners s)
}.

Hypothesis keyFunc_total : ∀ o, ∃ k, keyFunc (Plain o) = Ok k.

(** ** Deltas *)

Lemma foldl_delta_last cur (ds : @Deltas Obj) :
  foldl (λ _ d, delta_result d) cur ds =
  match last ds with Some d => delta_result d | None => cur end.
Proof.
  destruct ds as [|d ds _] using rev_ind; [done|]. by rewrite foldl_snoc, last_snoc.
Qed.

Lemma view_of_last st f k :
  view_of st f k =
  match last (default [] (d_items f !! k)) with Some d => delta_result d | None => st !! k end.
Proof. apply foldl_delta_last. Qed.

Lemma dedupDeltas_snoc (ds : @Deltas Obj) d :
  dedupDeltas (ds ++ [d]) = ds ++ [d] ∨
  ∃ ds' b out, ds = ds' ++ [b] ∧ b.1 = Deleted ∧ d.1 = Deleted ∧ (out = b ∨ out = d) ∧
    dedupDeltas (ds ++ [d]) = ds' ++ [out].
Proof.
  unfold dedupDeltas. destruct ds as [|b ds' _] using rev_ind; [by left|].
  rewrite !reverse_snoc. unfold isDup, isDeletionDup. case_decide as Hd; [by left|].
  right. exists ds', b, (if is_tombstone b.2 then d else b).
  assert (b.1 = Deleted) by (destruct (decide (b.1 = Deleted)); tauto).
  assert (d.1 = Deleted) by (destruct (decide (d.1 = Deleted)); tauto).
  split_and!; [done..|by destruct (is_tombstone b.2); auto|].
  by destruct (is_tombstone b.2); rewrite reverse_involutive.
Qed.

Lemma dedup_result (ds : @Deltas Obj) d :
  ∃ out, last (dedupDeltas (ds ++ [d])) = Some out ∧ delta_result out = delta_result d ∧
         out.1 = d.1.
Proof.
  destruct (dedupDeltas_snoc ds d) as [->|(ds' & b & out & -> & Hb & Hd & Ho & ->)];
    rewrite last_snoc; [by eexists|].
  exists out. unfold delta_result. destruct Ho as [-> | ->]; by rewrite ?Hb, ?Hd.
Qed.

Lemma dedup_Forall (P : @Delta Obj → Prop) ds d :
  Forall P ds → P d → Forall P (dedupDeltas (ds ++ [d])).
Proof.
  intros Hds Hd.
  destruct (dedupDeltas_snoc ds d) as [->|(ds' & b & out & -> & _ & _ & Ho & ->)].
  - by apply Forall_app_2; [|constructor].
  - apply Forall_app in Hds as [? Hb]. rewrite Forall_singleton in Hb. apply Forall_app_2; [done|].
    rewrite Forall_singleton. naive_solver.
Qed.

Lemma willBeDeleted_last k f :
  willObjectBeDeletedLocked k f =
  match last (default [] (d_items f !! k)) : option (@Delta Obj) with
  | Some d => bool_decide (d.1 = Deleted)
  | None => false
  end.
Proof. done. Qed.

Lemma willBeDeleted_view st f k :
  willObjectBeDeletedLocked k f = true → view_of st f k = None.
Proof.
  rewrite view_of_last. unfold willObjectBeDeletedLocked, delta_result.
  destruct (last _); [|done]. intros ->%bool_decide_eq_true. done.
Qed.

(** [queueActionLocked] without a compressor, on an object with a key. *)
Lemma queueAction_spec a obj k f :
  KeyOf keyFunc obj = Ok k →
  ∃ f', queueActionLocked keyFunc None a obj f = (f', None) ∧
    (fifo_of_keys f → delta_of k (a, obj) → fifo_of_keys f') ∧
    (∀ st k', view_of st f' k' =
       if decide (k' = k)
       then if bool_decide (a = Sync) && willObjectBeDeletedLocked k f then None
            else delta_result (a, obj)
       else view_of st f k') ∧
    (∀ k', willObjectBeDeletedLocked k' f' =
       if decide (k' = k)
       then if bool_decide (a = Sync) && willObjectBeDeletedLocked k f then true
            else bool_decide (a = Deleted)
       else willObjectBeDeletedLocked k' f).
Proof.
  intros Hk. unfold queueActionLocked. rewrite Hk.
  destruct (bool_decide (a = Sync) && willObjectBeDeletedLocked k f) eqn:Hs.
  { apply andb_true_iff in Hs as [_ Hs]. eexists. split_and!; [done|done|..].
    - intros st k'. case_decide; [|done]. subst. by apply willBeDeleted_view.
    - intros k'. case_decide; [by subst|done]. }
  cbv zeta. destruct (dedup_result (default [] (d_items f !! k)) (a, obj)) as (out & Hl & Hr & Ht).
  set (nd := dedupDeltas _) in *.
  assert (nd ≠ []) by (intros Hnil; by rewrite Hnil in Hl).
  rewrite decide_True by (destruct nd; [done|simpl; lia]).
  eexists. split; [done|]. split_and!.
  - intros Hf Hd k' ds. simpl. rewrite lookup_insert. 
    destruct (decide (k = k')) as [<-|Hkk]; [|exact (Hf k' ds)].
    intros [= <-]. apply dedup_Forall; [|done].
    destruct (d_items f !! k) eqn:E; [by eapply Hf|constructor].
  - intros st k'. rewrite !view_of_last. simpl. rewrite lookup_insert.
    destruct (decide (k = k')), (decide (k' = k)); try congruence; simpl; [by rewrite Hl|done].
  - intros k'. rewrite !willBeDeleted_last. simpl. rewrite lookup_insert.
    destruct (decide (k = k')), (decide (k' = k)); try congruence; simpl; [|done].
    by rewrite Hl, Ht.
Qed.

(** ** Replacing *)

Lemma KeyOf_Plain o k : keyFunc (Plain o) = Ok k → KeyOf keyFunc (Plain o) = Ok k.
Proof. intros Hk. unfold KeyOf. by rewrite Hk. Qed.

Lemma has_key_spec o k k' : keyFunc (Plain o) = Ok k → has_key o k' = bool_decide (k = k').
Proof. intros Hk. unfold has_key. by rewrite Hk. Qed.

Lemma replace_sync_spec l : ∀ keys f,
  ∃ keys' f', replace_sync keyFunc None (Plain <$> l) keys f = (keys', f', None) ∧
    (∀ k, k ∈ keys' ↔ k ∈ keys ∨ is_Some (relisted l k)) ∧
    (fifo_of_keys f → fifo_of_keys f') ∧
    (∀ st k, view_of st f' k =
       match relisted l k with
       | Some o => if willObjectBeDeletedLocked k f then None else Some o
       | None => view_of st f k
       end).
Proof.
  induction l as [|o l IH]; intros keys f; csimpl.
  { eexists _, _. split; [done|]. split_and!; [|done..]. intros k. rewrite is_Some_alt. naive_solver. }
  destruct (keyFunc_total o) as [ko Hko]. rewrite (KeyOf_Plain _ _ Hko).
  destruct (queueAction_spec Sync (Plain o) ko f) as (f1 & -> & Hf1 & Hv1 & Hw1);
    [by apply KeyOf_Plain|].
  destruct (IH ({[ko]} ∪ keys) f1) as (keys' & f' & -> & Hkeys & Hf' & Hv').
  eexists _, _. split; [done|]. split_and!.
  - intros k. rewrite Hkeys, (has_key_spec _ _ _ Hko), elem_of_union, elem_of_singleton.
    destruct (relisted l k), (bool_decide_reflect (ko = k)); rewrite !is_Some_alt; simpl;
      intuition congruence.
  - intros Hf. apply Hf', Hf1; [done|]. split; [done|]. intros _. by eexists.
  - intros st k. rewrite Hv', Hw1, Hv1, (has_key_spec _ _ _ Hko), bool_decide_eq_true_2 by done.
    simpl. destruct (decide (k = ko)) as [->|Hne].
    + rewrite bool_decide_eq_true_2 by done.
      by destruct (relisted l ko), (willObjectBeDeletedLocked ko f).
    + rewrite bool_decide_eq_false_2 by done. by destruct (relisted l k).
Qed.

Lemma replace_delete_known_spec known ks keys : ∀ n f,
  ∃ n' f', replace_delete_known keyFunc None known ks keys n f = (n', f', None) ∧
    (fifo_of_keys f → fifo_of_keys f') ∧
    (∀ st k, view_of st f' k = if decide (k ∈ ks ∧ k ∉ keys) then None else view_of st f k).
Proof.
  induction ks as [|k0 ks IH]; intros n f; [|simpl].
  { eexists _, _. split; [done|]. split; [done|]. intros st k. rewrite decide_False; [done|].
    set_solver. }
  destruct (decide (k0 ∈ keys)) as [Hin|Hin].
  - destruct (IH n f) as (n' & f' & -> & Hf' & Hv'). eexists _, _. split; [done|].
    split; [done|]. intros st k. rewrite Hv'. apply decide_ext. set_solver.
  - unfold queue_tombstone.
    set (o := match _ with Ok _ => _ | Err _ => _ end).
    destruct (queueAction_spec Deleted (DeletedFinalStateUnknown k0 o) k0 f)
      as (f1 & -> & Hf1 & Hv1 & _); [done|].
    destruct (IH (S n) f1) as (n' & f' & -> & Hf' & Hv'). eexists _, _. split; [done|].
    split; [intros Hf; apply Hf', Hf1; [done|]; split; [done|]; by intros []|].
    intros st k. rewrite Hv', Hv1. simpl. destruct (decide (k = k0)) as [->|].
    + rewrite (decide_True (P := k0 ∈ k0 :: ks ∧ k0 ∉ keys)) by set_solver.
      by destruct (decide (k0 ∈ ks ∧ k0 ∉ keys)).
    + apply decide_ext. set_solver.
Qed.

(** The view after [syncWith]. *)
Definition view_after_list (l : list Obj) (s : sharedIndexInformer) (k : string) : option iface :=
  match relisted l k with
  | Some o => if willObjectBeDeletedLocked k (i_fifo s) then None else Some o
  | None => if decide (is_Some (stored s !! k)) then None else view s k
  end.

Lemma view_of_population c st f k : view_of st (set_initial_population c f) k = view_of st f k.
Proof. unfold set_initial_population. by destruct (d_populated f). Qed.

Lemma syncWith_spec l s :
  (fifo_of_keys (i_fifo s) → fifo_of_keys (i_fifo (syncWith l s))) ∧
  (∀ k, view (syncWith l s) k = view_after_list l s k).
Proof.
  unfold syncWith, Delta_Replace, view, stored, view_after_list.
  destruct (replace_sync_spec l ∅ (i_fifo s)) as (keys & f1 & -> & Hkeys & Hf1 & Hv1).
  destruct (replace_delete_known_spec (known_objects (indexer s))
    (known_ListKeys (known_objects (indexer s))) keys 0 f1) as (n & f2 & -> & Hf2 & Hv2).
  simpl. split.
  - intros Hf%Hf1%Hf2. unfold set_initial_population. by destruct (d_populated f2).
  - intros k. rewrite view_of_population, Hv2, Hv1. unfold Cache_ListKeys, Map_ListKeys.
    pose proof (elem_of_fst_map_range (items (cacheStorage (indexer s))) k) as Hin.
    specialize (Hkeys k). destruct (relisted l k) as [x|].
    + rewrite decide_False; [done|]. intros [_ Hn]. apply Hn, Hkeys. by right; eexists.
    + apply decide_ext. rewrite Hin, Hkeys. split; [by intros []|].
      intros Hs. split; [done|]. intros [[]%not_elem_of_empty|[? [=]]].
Qed.

Lemma Delta_Delete_spec o k known f :
  keyFunc (Plain o) = Ok k →
  ∃ f', (Delta_Delete keyFunc None (Some known) (Plain o) f).1 = f' ∧
    (fifo_of_keys f → fifo_of_keys f') ∧
    (∀ st, (∀ k', known_GetByKey known k' = Ok (st !! k')) →
       ∀ k', view_of st f' k' = if decide (k' = k) then None else view_of st f k').
Proof.
  intros Hk. eexists. split; [done|]. unfold Delta_Delete. rewrite (KeyOf_Plain _ _ Hk).
  set (skip := match known_GetByKey known k with Ok _ => _ | Err _ => _ end).
  destruct (queueAction_spec Deleted (Plain o) k (delta_set_populated f))
    as (f1 & -> & Hf1 & Hv1 & _); [by apply KeyOf_Plain|].
  destruct skip eqn:Hskip; simpl; split; [done| | |].
  - intros st Hst k'. destruct (decide (k' = k)) as [->|]; [|done]. unfold view_of. simpl.
    unfold skip in Hskip. rewrite Hst in Hskip.
    destruct (st !! k) eqn:E; [done|]. simpl in Hskip.
    apply negb_true_iff, bool_decide_eq_false in Hskip.
    destruct (d_items f !! k); [destruct Hskip; by eexists|done].
  - intros Hf. apply Hf1; [done|]. split; [done|]. by intros [].
  - intros st _ k'. rewrite Hv1. by case_decide.
Qed.

(** ** Processing *)

Definition put (k : string) (d : @Delta Obj) (m : gmap string iface) : gmap string iface :=
  partial_alter (λ _, delta_result d) k m.

Definition notify (ns : list notification) (l : processorListener) : processorListener :=
  mkListener (pendingNotifications l ++ ns) (popped l) (handled l).

Lemma handle_delta_spec k d ix ls :
  ClientStore.keyFunc ix = DKey → delta_of k d →
  ∃ ix' n, handle_delta d (ix, ls) = ((ix', notify [n] <$> ls), None) ∧
    ClientStore.keyFunc ix' = DKey ∧
    items (cacheStorage ix') = put k d (items (cacheStorage ix)) ∧
    (∀ m, apply_notification m n = put k d m).
Proof.
  intros Hkf [Hk Hp]. destruct d as [a obj]. simpl in *.
  pose proof (run_op_shape (cacheStorage ix) (OpUpdate k obj)) as [Hup _].
  pose proof (run_op_shape (cacheStorage ix) (OpAdd k obj)) as [Hadd _].
  pose proof (run_op_shape (cacheStorage ix) (OpDelete k)) as [Hdel _].
  unfold handle_delta, Cache_Get, Cache_Update, Cache_Add, Cache_Delete, distribute. simpl in *.
  rewrite Hkf, Hk.
  assert (∀ n : notification, listener_add n <$> ls = notify [n] <$> ls) as Hls by done.
  destruct (decide (a = Deleted)) as [->|Ha].
  - eexists _, _. split; [by rewrite Hls|]. split_and!; [done|exact Hdel|].
    intros m. simpl. by rewrite Hk.
  - destruct (Cache_GetByKey k ix) as [old|].
    + eexists _, _. split; [by rewrite Hls; destruct a|].
      split_and!; [done|by destruct a|]. intros m. simpl. rewrite Hk. by destruct a.
    + eexists _, _. split; [by rewrite Hls; destruct a|].
      split_and!; [done|by destruct a|]. intros m. simpl. rewrite Hk. by destruct a.
Qed.

Lemma HandleDeltas_spec k ds : ∀ ix ls,
  ClientStore.keyFunc ix = DKey → Forall (delta_of k) ds →
  ∃ ix' ns, HandleDeltas ds (ix, ls) = ((ix', notify ns <$> ls), None) ∧
    ClientStore.keyFunc ix' = DKey ∧
    items (cacheStorage ix') = foldl (λ m d, put k d m) (items (cacheStorage ix)) ds ∧
    (∀ m, foldl apply_notification m ns = foldl (λ m d, put k d m) m ds).
Proof.
  induction ds as [|d ds IH]; intros ix ls Hkf Hds; simpl.
  - exists ix, []. split_and!; [|done..]. f_equal. f_equal. symmetry.
    rewrite <-(list_fmap_id ls) at 2. apply list_fmap_ext. intros i [p o h] _.
    unfold notify. simpl. by rewrite app_nil_r.
  - apply Forall_cons in Hds as [Hd Hds].
    destruct (handle_delta_spec k d ix ls Hkf Hd) as (ix1 & n & -> & Hkf1 & Hi1 & Hn).
    destruct (IH ix1 (notify [n] <$> ls) Hkf1 Hds) as (ix2 & ns & -> & Hkf2 & Hi2 & Hns).
    exists ix2, (n :: ns). split_and!; [|done|by rewrite Hi2, Hi1|].
    + rewrite <-list_fmap_compose. do 2 f_equal. apply list_fmap_ext. intros i [p o h] _.
      unfold notify. simpl. by rewrite <-(assoc_L (++)).
    + intros m. simpl. by rewrite Hns, Hn.
Qed.

Lemma foldl_put_lookup k ds m k' :
  foldl (λ m d, put k d m) m ds !! k' =
  if decide (k' = k) then foldl (λ _ d, delta_result d) (m !! k) ds else m !! k'.
Proof.
  revert m. induction ds as [|d ds IH]; intros m; simpl; [by case_decide; subst|].
  rewrite IH. unfold put. case_decide; [by rewrite lookup_partial_alter_eq|].
  by rewrite lookup_partial_alter_ne.
Qed.

Lemma foldl_put_store k ds st :
  store_of_keys st → Forall (delta_of k) ds → store_of_keys (foldl (λ m d, put k d m) st ds).
Proof.
  intros Hst Hds k' o. rewrite foldl_put_lookup. case_decide as Hk; [|apply Hst]. subst k'.
  rewrite foldl_delta_last. destruct (last ds) as [d|] eqn:Hl; [|apply Hst].
  assert (d ∈ ds) as Hin by by apply last_Some_elem_of.
  rewrite Forall_forall in Hds. destruct (Hds d Hin) as [Hdk Hdp].
  unfold delta_result. intros Ho.
  destruct (decide (d.1 = Deleted)) as [Hd|Hd]; [by rewrite Hd in Ho|].
  destruct (Hdp Hd) as [p Hp].
  assert (d.2 = o) as <- by (destruct d as [[] ?]; simpl in *; congruence).
  exists p. split; [done|]. rewrite Hp in *. done.
Qed.

Lemma replay_notify ns l :
  replay (notifications (notify ns l)) = foldl apply_notification (replay (notifications l)) ns.
Proof.
  unfold replay, notifications, notify. simpl.
  by rewrite !(assoc_L (++)), (foldl_app _ _ ns).
Qed.

(** One run of [Pop] with a process function that never requeues. *)
Lemma delta_pop_loop_cases {S E} (process : @Deltas Obj → S → S * option E) q f (st : S) :
  match delta_pop_loop (λ ds s, let '(s, e) := process ds s in (s, ProcessErr e)) q f st with
  | DeltaBlocked f' st' => d_items f' = d_items f ∧ st' = st
  | DeltaReturned k ds _ f' st' =>
      d_items f !! k = Some ds ∧ d_items f' = delete k (d_items f) ∧ st' = (process ds st).1
  end.
Proof.
  revert f. induction q as [|k q IH]; intros f; simpl; [done|].
  destruct (d_items f !! k) as [ds|] eqn:Hk;
    [|exact (IH (mkDeltaFIFO (d_items f) q _ _ _ _))].
  destruct (process ds st) eqn:Hp. simpl. by rewrite Hp.
Qed.

Lemma process_pop_spec f s :
  informer_wf s → d_items f = d_items (i_fifo s) → started s = true →
  informer_wf (process_pop f s) ∧ ∀ k, view (process_pop f s) k = view s k.
Proof.
  intros [Hkf Hst Hfi Hun Hre] Hf Hs. unfold process_pop, Delta_Pop.
  pose proof (delta_pop_loop_cases HandleDeltas (d_queue f) f (indexer s, listeners s)) as Hpop.
  destruct (delta_pop_loop _ _ _ _) as [f' [ix ls]|k ds e f' [ix ls]].
  - destruct Hpop as [Hi [= -> ->]]. rewrite Hf in Hi. split.
    + split; simpl; [done..| |by rewrite Hs|done]. intros k ds. rewrite Hi. apply Hfi.
    + intros k. unfold view, view_of. simpl. by rewrite Hi.
  - destruct Hpop as (Hk & Hi & Hh). rewrite Hf in Hk, Hi.
    pose proof (Hfi _ _ Hk) as Hds.
    destruct (HandleDeltas_spec k ds (indexer s) (listeners s) Hkf Hds)
      as (ix' & ns & HH & Hkf' & Hst' & Hns). rewrite HH in Hh. simplify_eq/=. split.
    + split; unfold stored; simpl; [done|..].
      * rewrite Hst'. by apply foldl_put_store.
      * intros k' ds'. rewrite Hi, lookup_delete_Some. intros [_ ?]. by eapply Hfi.
      * by rewrite Hs.
      * apply Forall_fmap. eapply Forall_impl; [exact Hre|]. intros l Hl. simpl.
        by rewrite replay_notify, Hl, Hns, Hst'.
    + intros k'. unfold view, view_of, stored. simpl. rewrite Hst', Hi, foldl_put_lookup.
      rewrite lookup_delete. destruct (decide (k' = k)) as [->|Hne].
      * rewrite decide_True by done. symmetry.
        exact (f_equal (λ o, foldl (λ _ d, delta_result d) _ (default [] o)) Hk).
      * by rewrite decide_False by done.
Qed.

(** ** Every step *)

Definition view_after (s : sharedIndexInformer) (l : label) : string → option iface :=
  match l with
  | LReplace l => view_after_list l s
  | _ => spec_label l (view s)
  end.

(** A step that changes only the queue. *)
Lemma with_fifo_wf f s :
  informer_wf s → started s = true → fifo_of_keys f → informer_wf (with_fifo f s).
Proof. intros [] Hs Hf. split; simpl; try done. by rewrite Hs. Qed.

Lemma with_listeners_wf i l l' s :
  informer_wf s → listeners s !! i = Some l → notifications l' = notifications l →
  informer_wf (with_listeners (<[i := l']> (listeners s)) s).
Proof.
  intros [Hkf Hst Hfi Hun Hre] Hl Hn. split; simpl; try done.
  apply Forall_insert; [done|]. rewrite Hn. rewrite Forall_lookup in Hre. by apply (Hre i).
Qed.

Lemma listener_pop_notifications l : notifications (listener_pop l) = notifications l.
Proof. destruct l as [[|n p] [m|] h]; done. Qed.

Lemma listener_run_notifications l : notifications (listener_run l) = notifications l.
Proof.
  destruct l as [p [m|] h]; unfold notifications; simpl; [|done].
  by rewrite <-(assoc_L (++)).
Qed.

Lemma queue_change_spec a o s :
  informer_wf s → started s = true → a ≠ Deleted → a ≠ Sync →
  let s' := with_fifo (queueActionLocked keyFunc None a (Plain o)
                         (delta_set_populated (i_fifo s))).1 s in
  informer_wf s' ∧ ∀ k, view s' k = spec_label (LSet o) (view s) k.
Proof.
  intros Hwf Hs Ha1 Ha2. destruct (keyFunc_total o) as [ko Hko].
  destruct (queueAction_spec a (Plain o) ko (delta_set_populated (i_fifo s)))
    as (f1 & -> & Hf1 & Hv1 & _); [by apply KeyOf_Plain|]. simpl. split.
  - apply with_fifo_wf; [done..|]. apply Hf1; [apply Hwf|]. split; [done|]. intros _. by eexists.
  - intros k. unfold view. simpl. rewrite Hv1, (has_key_spec _ _ _ Hko).
    rewrite bool_decide_eq_false_2 by done. simpl.
    destruct (decide (k = ko)) as [->|]; [rewrite bool_decide_eq_true_2 by done; by destruct a|].
    by rewrite bool_decide_eq_false_2 by done.
Qed.

Lemma reflector_Delete_spec o s :
  informer_wf s → started s = true →
  informer_wf (reflector_Delete o s) ∧
  ∀ k, view (reflector_Delete o s) k = spec_label (LDelete o) (view s) k.
Proof.
  intros Hwf Hs. destruct (keyFunc_total o) as [ko Hko]. unfold reflector_Delete.
  destruct (Delta_Delete_spec o ko (known_objects (indexer s)) (i_fifo s) Hko)
    as (f1 & -> & Hf1 & Hv1). split.
  - apply with_fifo_wf; [done..|]. apply Hf1, Hwf.
  - intros k. unfold view. simpl. rewrite Hv1 by done. rewrite (has_key_spec _ _ _ Hko).
    destruct (decide (k = ko)) as [->|]; [by rewrite bool_decide_eq_true_2 by done|].
    by rewrite bool_decide_eq_false_2 by done.
Qed.

Lemma resync_next_spec k rest s :
  informer_wf s → started s = true →
  informer_wf (resync_next k rest s) ∧ ∀ k', view (resync_next k rest s) k' = view s k'.
Proof.
  intros Hwf Hs. unfold resync_next, syncKey. simpl. unfold Cache_GetByKey, Map_Get.
  pose proof Hwf as [Hkf Hst Hfi Hun Hre]. fold (stored s).
  destruct (stored s !! k) as [obj|] eqn:Hk; simpl.
  2:{ split; [|done]. by split. }
  destruct (Hst _ _ Hk) as (p & -> & Hp). rewrite (KeyOf_Plain _ _ Hp).
  case_decide as Hlen.
  { split; [|done]. by split. }
  destruct (queueAction_spec Sync (Plain p) k (i_fifo s)) as (f1 & -> & Hf1 & Hv1 & _);
    [by apply KeyOf_Plain|].
  assert (default [] (d_items (i_fifo s) !! k) = []) as Hnil.
  { destruct (default [] _); simpl in *; [done|lia]. }
  split.
  - destruct (with_fifo_wf f1 s Hwf Hs); [|by split]. apply Hf1; [done|]. split; [done|].
    intros _. by eexists.
  - intros k'. unfold view. simpl. fold (stored s). rewrite Hv1.
    destruct (decide (k' = k)) as [->|]; [|done].
    rewrite willBeDeleted_last, (view_of_last _ _ k), Hnil. simpl.
    by rewrite Hk.
Qed.

(** The notifications of a late listener. *)
Lemma foldl_listener_add l ns :
  foldl (λ l obj, listener_add (addNotification obj) l) l ns = notify (addNotification <$> ns) l.
Proof.
  revert l. induction ns as [|n ns IH]; intros [p o h]; csimpl.
  - unfold notify. simpl. by rewrite app_nil_r.
  - rewrite IH. unfold notify. simpl. by rewrite <-(assoc_L (++)).
Qed.

Lemma replay_adds (l : list (string * iface)) : ∀ m0,
  (∀ k o, (k, o) ∈ l → DKey o = Ok k) → NoDup l.*1 →
  (∀ k o, (k, o) ∈ l → foldl apply_notification m0 (addNotification <$> l.*2) !! k = Some o) ∧
  (∀ k, k ∉ l.*1 → foldl apply_notification m0 (addNotification <$> l.*2) !! k = m0 !! k).
Proof.
  induction l as [|[k0 o0] l IH]; intros m0 Hk Hnd; csimpl; [by split; [set_solver|]|].
  apply NoDup_cons in Hnd as [Hk0 Hnd].
  rewrite (Hk k0 o0) by set_solver.
  destruct (IH (<[k0 := o0]> m0)) as [H1 H2]; [set_solver|done|]. split.
  - intros k o [[= -> ->]|Hin]%elem_of_cons; [|by apply H1].
    rewrite H2 by done. by rewrite lookup_insert_eq.
  - intros k Hn. rewrite H2 by set_solver. rewrite lookup_insert_ne; [done|]. set_solver.
Qed.

Lemma replay_store st :
  store_of_keys st → foldl apply_notification ∅ (addNotification <$> (map_range st).*2) = st.
Proof.
  intros Hst.
  destruct (replay_adds (map_range st) ∅) as [H1 H2].
  - intros k o Hin. apply elem_of_map_range in Hin. by destruct (Hst _ _ Hin) as (p & -> & ?).
  - apply NoDup_fst_map_range.
  - apply map_eq. intros k. destruct (st !! k) as [o|] eqn:E.
    + apply H1. by apply elem_of_map_range.
    + rewrite H2; [apply lookup_empty|]. rewrite elem_of_fst_map_range, E. by intros [].
Qed.

Lemma AddEventHandler_wf s : informer_wf s → informer_wf (AddEventHandler s).
Proof.
  intros [Hkf Hst Hfi Hun Hre]. split; try done. simpl.
  apply Forall_app_2; [done|]. apply Forall_singleton.
  change (stored (AddEventHandler s)) with (stored s).
  destruct (started s).
  - rewrite foldl_listener_add, replay_notify. by apply replay_store.
  - by destruct Hun as [-> _].
Qed.

Lemma informer_step_spec s l s' :
  informer_wf s → informer_step s l s' →
  informer_wf s' ∧ ∀ k, view s' k = view_after s l k.
Proof.
  intros Hwf Hst. pose proof Hwf as [Hkf Hsto Hfi Hun Hre].
  destruct Hst as [s Hs|fs s s' Hs|s|o s Hs|o s Hs|o s Hs|l s Hs|s Hs _|k rest s Hs Hr|s Hs
    |its q p c w k s Hs Hf|i li s Hl|i li s Hl]; simpl.
  - destruct (Hun Hs) as [H1 H2]. split.
    + split; simpl; try done.
    + intros k. unfold view, view_of. simpl. by rewrite H2.
  - unfold informer_AddIndexers in Hs. destruct (started s) eqn:Es; [done|].
    unfold Map_AddIndexers in Hs. case_decide; [done|]. case_decide; [|done].
    simplify_eq/=. split; [|done]. by split.
  - split; [|done]. by apply AddEventHandler_wf.
  - by apply queue_change_spec.
  - by apply queue_change_spec.
  - by apply reflector_Delete_spec.
  - destruct (syncWith_spec l s) as [H1 H2]. split; [|done].
    apply with_fifo_wf; [done..|]. by apply H1.
  - split; [|done]. by split.
  - by apply resync_next_spec.
  - by apply process_pop_spec.
  - apply process_pop_spec; [done| |done]. by rewrite Hf.
  - split; [|done]. eapply with_listeners_wf; [done..|apply listener_pop_notifications].
  - split; [|done]. eapply with_listeners_wf; [done..|apply listener_run_notifications].
Qed.

Lemma NewSharedIndexInformer_wf fs : informer_wf (NewSharedIndexInformer fs).
Proof. split; simpl; try done; intros k; unfold stored; simpl; by rewrite lookup_empty. Qed.

Lemma informer_run_wf fs tr s : informer_run (NewSharedIndexInformer fs) tr s → informer_wf s.
Proof.
  induction 1 as [|tr s1 l s2 _ IH Hst]; [apply NewSharedIndexInformer_wf|].
  by apply (informer_step_spec s1 l).
Qed.

Lemma clean_run_informer_run s0 tr s : clean_run s0 tr s → informer_run s0 tr s.
Proof. induction 1; econstructor; eauto. Qed.

(** The server's objects after a trace of events. *)
Definition spec_run (tr : list label) (k : string) : option iface :=
  foldl (λ v l, spec_label l v) (λ _, None) tr k.

Lemma takes_over_view l s k : takes_over s l → view_after_list l s k = relisted l k.
Proof.
  intros Ht. specialize (Ht k). unfold view_after_list.
  destruct (relisted l k) as [o|]; [by rewrite Ht|].
  destruct Ht as [Hs|Hv]; [by rewrite decide_True|]. by case_decide.
Qed.

Lemma spec_label_ext l v v' k : (∀ k, v k = v' k) → spec_label l v k = spec_label l v' k.
Proof. intros Hv. destruct l; simpl; by rewrite ?Hv. Qed.

(** ** Theorems *)

(** C4.  Convergence: when the queue holds no more deltas, the store is exactly the
    map that the events received so far describe, whatever the interleaving of the
    reflector, the resyncs, the processing loop and the listeners, as long as every
    list was taken over fully. *)
Theorem informer_converges fs tr s :
  clean_run (NewSharedIndexInformer fs) tr s → d_items (i_fifo s) = ∅ →
  ∀ k, stored s !! k = spec_run tr k.
Proof.
  intros Hrun Hem k.
  assert (∀ k, view s k = spec_run tr k) as Hv.
  { clear Hem k. induction Hrun as [|tr s1 l s2 Hrun IH Hc Hst]; [done|]. intros k.
    apply clean_run_informer_run, informer_run_wf in Hrun.
    destruct (informer_step_spec s1 l s2 Hrun Hst) as [_ ->].
    unfold spec_run. rewrite foldl_snoc. destruct l as [o|o|l|]; simpl.
    - apply (spec_label_ext (LSet o)), IH.
    - apply (spec_label_ext (LDelete o)), IH.
    - by apply takes_over_view.
    - apply IH. }
  rewrite <-Hv. unfold view, view_of. by rewrite Hem, lookup_empty.
Qed.

(**  Refinement of every step from every reachable state: sets and deletions act
    on the objects owed to the store as on a map, resyncs, processing and listeners
    do not change them, and a list replaces them except for the listed objects with a
    queued deletion and the queued objects unknown to the store. *)
Theorem informer_step_refines fs tr s l s' :
  informer_run (NewSharedIndexInformer fs) tr s → informer_step s l s' →
  ∀ k, view s' k = view_after s l k.
Proof.
  intros Hrun Hst. apply informer_run_wf in Hrun. by apply (informer_step_spec s l s').
Qed.

(** C23.  The notifications of every listener, replayed in order, give the objects in
    the store: those delivered, in flight and pending, for early and late listeners. *)
Theorem listeners_replay_store fs tr s i l :
  informer_run (NewSharedIndexInformer fs) tr s → listeners s !! i = Some l →
  replay (notifications l) = stored s.
Proof.
  intros Hrun Hl. apply informer_run_wf in Hrun as [_ _ _ _ Hre].
  rewrite Forall_lookup in Hre. by apply (Hre i).
Qed.
End informer.

(** ** Runs *)

(** Objects are a key with a version. *)
Definition demo_inf_key (x : @iface (string * nat)) : result () string :=
  match x with Plain o => Ok o.1 | _ => Err () end.

Lemma demo_inf_key_total o : ∃ k, demo_inf_key (Plain o) = Ok k.
Proof. by eexists. Qed.

#[local] Existing Instance canonical_range.

Notation demo_new := (NewSharedIndexInformer demo_inf_key ∅).
Notation demo_s1 := (informer_Run demo_new).
Notation demo_s2 := (AddEventHandler demo_s1).
Notation demo_s3 := (syncWith demo_inf_key [("a", 1); ("b", 1)] demo_s2).
Notation demo_s4 := (process_pop (i_fifo demo_s3) demo_s3).
Notation demo_s5 := (reflector_Delete demo_inf_key ("a", 1) demo_s4).
Notation demo_s6 := (process_pop (i_fifo demo_s5) demo_s5).
Notation demo_s7 := (process_pop (i_fifo demo_s6) demo_s6).

Definition demo_inf_trace : list (@label (string * nat)) :=
  [LTau; LTau; LReplace [("a", 1); ("b", 1)]; LTau; LDelete ("a", 1); LTau; LTau].

Lemma demo_takes_over : takes_over demo_inf_key demo_s2 [("a", 1); ("b", 1)].
Proof.
  intros k. unfold takes_over. simpl. unfold has_key. simpl.
  repeat case_bool_decide; simpl; try reflexivity. right. reflexivity.
Qed.

Lemma demo_clean_run : clean_run demo_inf_key demo_new demo_inf_trace demo_s7.
Proof.
  refine (crun_snoc _ _ [_; _; _; _; _; _] demo_s6 LTau _ _ I (st_pop _ demo_s6 eq_refl)).
  refine (crun_snoc _ _ [_; _; _; _; _] demo_s5 LTau _ _ I (st_pop _ demo_s5 eq_refl)).
  refine (crun_snoc _ _ [_; _; _; _] demo_s4 (LDelete ("a", 1)) _ _ I
            (st_delete _ _ demo_s4 eq_refl)).
  refine (crun_snoc _ _ [_; _; _] demo_s3 LTau _ _ I (st_pop _ demo_s3 eq_refl)).
  refine (crun_snoc _ _ [_; _] demo_s2 (LReplace [("a", 1); ("b", 1)]) _ _
            demo_takes_over (st_replace _ _ demo_s2 eq_refl)).
  refine (crun_snoc _ _ [_] demo_s1 LTau _ _ I (st_handler _ demo_s1)).
  refine (crun_snoc _ _ [] demo_new LTau _ _ I (st_run _ demo_new eq_refl)).
  constructor.
Qed.

Lemma informer_converges_witness :
  stored demo_s7 !! "b" = Some (Plain ("b", 1)) ∧ stored demo_s7 !! "a" = None.
Proof.
  split.
  - rewrite (informer_converges demo_inf_key demo_inf_key_total ∅ _ _ demo_clean_run);
      vm_compute; reflexivity.
  - rewrite (informer_converges demo_inf_key demo_inf_key_total ∅ _ _ demo_clean_run);
      vm_compute; reflexivity.
Defined.

Lemma demo_run_to_5 :
  informer_run demo_inf_key demo_new
    [LTau; LTau; LReplace [("a", 1); ("b", 1)]; LTau; LDelete ("a", 1)] demo_s5.
Proof.
  refine (irun_snoc _ _ [_; _; _; _] demo_s4 _ _ _ (st_delete _ _ demo_s4 eq_refl)).
  refine (irun_snoc _ _ [_; _; _] demo_s3 _ _ _ (st_pop _ demo_s3 eq_refl)).
  refine (irun_snoc _ _ [_; _] demo_s2 _ _ _ (st_replace _ _ demo_s2 eq_refl)).
  refine (irun_snoc _ _ [_] demo_s1 _ _ _ (st_handler _ demo_s1)).
  refine (irun_snoc _ _ [] demo_new _ _ _ (st_run _ demo_new eq_refl)).
  constructor.
Qed.

(** The object recreated on the server while its deletion is still queued is listed
    again, but the list is not taken over for it. *)
Lemma informer_step_refines_witness :
  view (syncWith demo_inf_key [("a", 2); ("b", 1)] demo_s5) "a" = None.
Proof.
  assert (informer_step demo_inf_key demo_s5 (LReplace [("a", 2); ("b", 1)])
            (syncWith demo_inf_key [("a", 2); ("b", 1)] demo_s5)) as Hst.
  { apply st_replace. vm_compute. reflexivity. }
  rewrite (informer_step_refines demo_inf_key demo_inf_key_total ∅ _ demo_s5 _ _ demo_run_to_5 Hst).
  vm_compute. reflexivity.
Defined.

Lemma listeners_replay_store_witness :
  ∃ l, listeners demo_s5 !! 0 = Some l ∧ replay demo_inf_key (notifications l) = stored demo_s5.
Proof.
  eexists. split; [reflexivity|].
  apply (listeners_replay_store demo_inf_key demo_inf_key_total ∅ _ demo_s5 0 _ demo_run_to_5).
  reflexivity.
Defined.
