(* ===== verification/Validation.v ===== *)
(** * Validation of names, labels, ports and the like
      (pkg/util/validation/validation.go)

    The regular expressions of the source are values of [regex], written as in the
    Go constants and matched by derivatives; a pattern between [^] and [$] matches
    the whole string.  The functions return the list of error messages.

    Theorems: qualified names, label values and port names are valid exactly when they
    have the documented shape; the matcher is shown to decide the language of a
    regular expression ([MatchString_lang]). *)

From S2P Require Import Prelude.
From stdpp Require Import pretty.

(** ** Regular expressions *)

Definition char_class : Type := ascii → bool.

Inductive regex :=
  | RVoid
  | REps
  | RChar (c : char_class)
  | RSeq (r1 r2 : regex)
  | RAlt (r1 r2 : regex)
  | RStar (r : regex).

(** [r?] and [r+] *)
Definition ROpt (r : regex) : regex := RAlt r REps.
Definition RPlus (r : regex) : regex := RSeq r (RStar r).

(** The strings a pattern matches. *)
Inductive re_lang : regex → string → Prop :=
  | lang_eps : re_lang REps ""
  | lang_char (cls : char_class) c : cls c = true → re_lang (RChar cls) (String c "")
  | lang_seq r1 r2 s1 s2 : re_lang r1 s1 → re_lang r2 s2 → re_lang (RSeq r1 r2) (s1 +:+ s2)
  | lang_alt_l r1 r2 s : re_lang r1 s → re_lang (RAlt r1 r2) s
  | lang_alt_r r1 r2 s : re_lang r2 s → re_lang (RAlt r1 r2) s
  | lang_star_nil r : re_lang (RStar r) ""
  | lang_star_cons r s1 s2 :
      re_lang r s1 → re_lang (RStar r) s2 → re_lang (RStar r) (s1 +:+ s2).

Fixpoint nullable (r : regex) : bool :=
  match r with
  | RVoid | RChar _ => false
  | REps | RStar _ => true
  | RSeq r1 r2 => nullable r1 && nullable r2
  | RAlt r1 r2 => nullable r1 || nullable r2
  end.

(** Sequence and alternative without the trivial operands. *)
Definition mk_seq (r1 r2 : regex) : regex :=
  match r1, r2 with
  | RVoid, _ | _, RVoid => RVoid
  | REps, r | r, REps => r
  | _, _ => RSeq r1 r2
  end.

Definition mk_alt (r1 r2 : regex) : regex :=
  match r1, r2 with
  | RVoid, r | r, RVoid => r
  | _, _ => RAlt r1 r2
  end.

Fixpoint deriv (c : ascii) (r : regex) : regex :=
  match r with
  | RVoid | REps => RVoid
  | RChar cls => if cls c then REps else RVoid
  | RSeq r1 r2 =>
      let left := mk_seq (deriv c r1) r2 in
      if nullable r1 then mk_alt left (deriv c r2) else left
  | RAlt r1 r2 => mk_alt (deriv c r1) (deriv c r2)
  | RStar r => mk_seq (deriv c r) (RStar r)
  end.

(** [regexp.MustCompile] of [^r$], then [MatchString]. *)
Fixpoint MatchString (r : regex) (s : string) : bool :=
  match s with
  | EmptyString => nullable r
  | String c s => MatchString (deriv c r) s
  end.

(** ** Character classes *)

Definition is_char (d c : ascii) : bool := bool_decide (c = d).

Definition lower : char_class := in_range "a" "z".
Definition upper : char_class := in_range "A" "Z".
Definition digit : char_class := in_range "0" "9".
Definition alnum : char_class := λ c, upper c || lower c || digit c.
Definition lower_digit : char_class := λ c, lower c || digit c.
Definition lower_digit_hyphen : char_class := λ c, is_char "-" c || lower_digit c.

(** ** The patterns *)

Definition qnameCharFmt : string := "[A-Za-z0-9]".
Definition qnameExtCharFmt : string := "[-A-Za-z0-9_.]".
Definition qualifiedNameFmt : string :=
  "(" +:+ qnameCharFmt +:+ qnameExtCharFmt +:+ "*)?" +:+ qnameCharFmt.

Definition qnameChar : char_class := alnum.
Definition qnameExtChar : char_class :=
  λ c, is_char "-" c || alnum c || is_char "_" c || is_char "." c.

Definition qualifiedNameRegexp : regex :=
  RSeq (ROpt (RSeq (RChar qnameChar) (RStar (RChar qnameExtChar)))) (RChar qnameChar).

Definition labelValueFmt : string := "(" +:+ qualifiedNameFmt +:+ ")?".
Definition labelValueRegexp : regex := ROpt qualifiedNameRegexp.

Definition dns1123LabelFmt : string := "[a-z0-9]([-a-z0-9]*[a-z0-9])?".
Definition dns1123LabelRegexp : regex :=
  RSeq (RChar lower_digit)
    (ROpt (RSeq (RStar (RChar lower_digit_hyphen)) (RChar lower_digit))).

Definition dns1123SubdomainFmt : string :=
  dns1123LabelFmt +:+ "(\." +:+ dns1123LabelFmt +:+ ")*".
Definition dns1123SubdomainRegexp : regex :=
  RSeq dns1123LabelRegexp (RStar (RSeq (RChar (is_char ".")) dns1123LabelRegexp)).

Definition dns1035LabelFmt : string := "[a-z]([-a-z0-9]*[a-z0-9])?".
Definition dns1035LabelRegexp : regex :=
  RSeq (RChar lower)
    (ROpt (RSeq (RStar (RChar lower_digit_hyphen)) (RChar lower_digit))).

Definition wildcardDNS1123SubdomainFmt : string := "\*\." +:+ dns1123SubdomainFmt.
Definition wildcardDNS1123SubdomainRegexp : regex :=
  RSeq (RChar (is_char "*")) (RSeq (RChar (is_char ".")) dns1123SubdomainRegexp).

Definition cIdentifierFmt : string := "[A-Za-z_][A-Za-z0-9_]*".
Definition cIdentifierRegexp : regex :=
  RSeq (RChar (λ c, upper c || lower c || is_char "_" c))
    (RStar (RChar (λ c, alnum c || is_char "_" c))).

Definition portNameCharsetRegex : regex := RPlus (RChar lower_digit_hyphen).
(** Not anchored: some letter occurs in the string. *)
Definition portNameOneLetterRegexp : regex :=
  RSeq (RStar (RChar (λ _, true))) (RSeq (RChar lower) (RStar (RChar (λ _, true)))).

Definition percentFmt : string := "[0-9]+%".
Definition percentRegexp : regex := RSeq (RPlus (RChar digit)) (RChar (is_char "%")).

Definition httpHeaderNameFmt : string := "[-A-Za-z0-9]+".
Definition httpHeaderNameRegexp : regex := RPlus (RChar (λ c, is_char "-" c || alnum c)).

Definition configMapKeyFmt : string := "[-._a-zA-Z0-9]+".
Definition configMapKeyRegexp : regex :=
  RPlus (RChar (λ c, is_char "-" c || is_char "." c || is_char "_" c || alnum c)).

(** ** Error messages *)

Definition MaxLenError (length : N) : string :=
  "must be no more than " +:+ pretty length +:+ " characters".

(** The loop of [RegexError] over the examples. *)
Fixpoint regex_examples (i : nat) (examples : list string) : string :=
  match examples with
  | [] => ""
  | e :: rest =>
      (if decide (0 < i) then " or " else "") +:+ "'" +:+ e +:+ "', " +:+
      regex_examples (S i) rest
  end.

Definition RegexError (msg fmt : string) (examples : list string) : string :=
  match examples with
  | [] => msg +:+ " (regex used for validation is '" +:+ fmt +:+ "')"
  | _ => msg +:+ " (e.g. " +:+ regex_examples 0 examples +:+
           "regex used for validation is '" +:+ fmt +:+ "')"
  end.

Definition EmptyError : string := "must be non-empty".

Definition prefixEach (msgs : list string) (prefix : string) : list string :=
  (λ m, prefix +:+ m) <$> msgs.

Definition InclusiveRangeError (lo hi : Z) : string :=
  "must be between " +:+ pretty lo +:+ " and " +:+ pretty hi +:+ ", inclusive".

Definition qualifiedNameErrMsg : string :=
  "must consist of alphanumeric characters, '-', '_' or '.', and must start and end with an alphanumeric character".
Definition labelValueErrMsg : string :=
  "a valid label must be an empty string or consist of alphanumeric characters, '-', '_' or '.', and must start and end with an alphanumeric character".
Definition dns1123LabelErrMsg : string :=
  "a valid DNS (RFC 1123) label must consist of lower case alphanumeric characters or '-', and must start and end with an alphanumeric character".
Definition dns1123SubdomainErrorMsg : string :=
  "a valid DNS (RFC 1123) subdomain must consist of lower case alphanumeric characters, '-' or '.', and must start and end with an alphanumeric character".
Definition dns1035LabelErrMsg : string :=
  "a valid DNS (RFC 1035) label must consist of lower case alphanumeric characters or '-', and must start and end with an alphanumeric character".
Definition wildcardDNS1123SubdomainErrMsg : string :=
  "a valid wildcard DNS (RFC 1123) subdomain must start with '*.', followed by a valid DNS subdomain, which must consist of lower case alphanumeric characters, '-' or '.' and end with an alphanumeric character".
Definition identifierErrMsg : string :=
  "a valid C identifier must start with alphabetic character or '_', followed by a string of alphanumeric characters or '_'".
Definition percentErrMsg : string :=
  "a valid percent string must be a numeric string followed by an ending '%'".
Definition httpHeaderNameErrMsg : string :=
  "a valid HTTP header must consist of alphanumeric characters or '-'".
Definition configMapKeyErrMsg : string :=
  "a valid config key must consist of alphanumeric characters, '-', '_' or '.'".

(** ** The checks *)

(** Append an error when a test fails. *)
Definition unless (test : bool) (msg : string) (errs : list string) : list string :=
  if test then errs else errs ++ [msg].

Definition no_longer_than (n : N) (s : string) : bool := bool_decide (N.of_nat (String.length s) ≤ n)%N.

Definition IsDNS1123Label (value : string) : list string :=
  let errs := unless (no_longer_than 63 value) (MaxLenError 63) [] in
  unless (MatchString dns1123LabelRegexp value)
    (RegexError dns1123LabelErrMsg dns1123LabelFmt ["my-name"; "123-abc"]) errs.

Definition IsDNS1123Subdomain (value : string) : list string :=
  let errs := unless (no_longer_than 253 value) (MaxLenError 253) [] in
  unless (MatchString dns1123SubdomainRegexp value)
    (RegexError dns1123SubdomainErrorMsg dns1123SubdomainFmt ["example.com"]) errs.

Definition IsDNS1035Label (value : string) : list string :=
  let errs := unless (no_longer_than 63 value) (MaxLenError 63) [] in
  unless (MatchString dns1035LabelRegexp value)
    (RegexError dns1035LabelErrMsg dns1035LabelFmt ["my-name"; "abc-123"]) errs.

Definition IsWildcardDNS1123Subdomain (value : string) : list string :=
  let errs := unless (no_longer_than 253 value) (MaxLenError 253) [] in
  unless (MatchString wildcardDNS1123SubdomainRegexp value)
    (RegexError wildcardDNS1123SubdomainErrMsg wildcardDNS1123SubdomainFmt ["*.example.com"]) errs.

Definition IsQualifiedName (value : string) : list string :=
  let name_errors name errs :=
    let errs :=
      if decide (String.length name = 0) then errs ++ ["name part " +:+ EmptyError]
      else unless (no_longer_than 63 name) ("name part " +:+ MaxLenError 63) errs in
    unless (MatchString qualifiedNameRegexp name)
      ("name part " +:+ RegexError qualifiedNameErrMsg qualifiedNameFmt
                          ["MyName"; "my.name"; "123-abc"]) errs in
  match split_on "/" value with
  | [name] => name_errors name []
  | [prefix; name] =>
      name_errors name
        (if decide (String.length prefix = 0) then ["prefix part " +:+ EmptyError]
         else prefixEach (IsDNS1123Subdomain prefix) "prefix part ")
  | _ =>
      ["a qualified name " +:+ RegexError qualifiedNameErrMsg qualifiedNameFmt
                                 ["MyName"; "my.name"; "123-abc"] +:+
       " with an optional DNS subdomain prefix and '/' (e.g. 'example.com/MyName')"]
  end.

Definition IsValidLabelValue (value : string) : list string :=
  let errs := unless (no_longer_than 63 value) (MaxLenError 63) [] in
  unless (MatchString labelValueRegexp value)
    (RegexError labelValueErrMsg labelValueFmt ["MyValue"; "my_value"; "12345"]) errs.

Definition IsCIdentifier (value : string) : list string :=
  if MatchString cIdentifierRegexp value then []
  else [RegexError identifierErrMsg cIdentifierFmt ["my_name"; "MY_NAME"; "MyName"]].

Definition IsValidPortNum (port : Z) : list string :=
  if decide (1 ≤ port ≤ 65535)%Z then [] else [InclusiveRangeError 1 65535].

Definition maxID : Z := (2 ^ 31 - 1)%Z.

Definition IsValidGroupId (gid : Z) : list string :=
  if decide (0 ≤ gid ≤ maxID)%Z then [] else [InclusiveRangeError 0 maxID].

Definition IsValidUserId (uid : Z) : list string :=
  if decide (0 ≤ uid ≤ maxID)%Z then [] else [InclusiveRangeError 0 maxID].

(** [strings.Contains(s, "--")] *)
Fixpoint has_double_hyphen (s : string) : bool :=
  match s with
  | String "-" (String "-" _) => true
  | String _ s => has_double_hyphen s
  | EmptyString => false
  end.

Fixpoint last_char (s : string) : option ascii :=
  match s with
  | EmptyString => None
  | String c "" => Some c
  | String _ s => last_char s
  end.

Definition first_char (s : string) : option ascii :=
  match s with EmptyString => None | String c _ => Some c end.

Definition IsValidPortName (port : string) : list string :=
  let errs := unless (no_longer_than 15 port) (MaxLenError 15) [] in
  let errs := unless (MatchString portNameCharsetRegex port)
    "must contain only alpha-numeric characters (a-z, 0-9), and hyphens (-)" errs in
  let errs := unless (MatchString portNameOneLetterRegexp port)
    "must contain at least one letter or number (a-z, 0-9)" errs in
  let errs := unless (negb (has_double_hyphen port)) "must not contain consecutive hyphens" errs in
  unless (negb (bool_decide (first_char port = Some "-"%char)
                || bool_decide (last_char port = Some "-"%char)))
    "must not begin or end with a hyphen" errs.

Definition IsValidPercent (percent : string) : list string :=
  if MatchString percentRegexp percent then []
  else [RegexError percentErrMsg percentFmt ["1%"; "93%"]].

Definition IsHTTPHeaderName (value : string) : list string :=
  if MatchString httpHeaderNameRegexp value then []
  else [RegexError httpHeaderNameErrMsg httpHeaderNameFmt ["X-Header-Name"]].

Definition IsConfigMapKey (value : string) : list string :=
  let errs := unless (no_longer_than 253 value) (MaxLenError 253) [] in
  let errs := unless (MatchString configMapKeyRegexp value)
    (RegexError configMapKeyErrMsg configMapKeyFmt ["key.name"; "KEY_NAME"; "key-name"]) errs in
  match value with
  | "." => errs ++ ["must not be '.'"]
  | ".." => errs ++ ["must not be '..'"]
  | String "." (String "." _) => errs ++ ["must not start with '..'"]
  | _ => errs
  end.

(** ** The matcher *)

Lemma app_String s1 s2 c s :
  s1 +:+ s2 = String c s →
  (s1 = "" ∧ s2 = String c s) ∨ ∃ s1', s1 = String c s1' ∧ s = s1' +:+ s2.
Proof. destruct s1 as [|c' s1']; simpl; [auto|]. intros [= -> <-]. eauto. Qed.

Lemma app_empty s1 s2 : s1 +:+ s2 = "" → s1 = "" ∧ s2 = "".
Proof. by destruct s1. Qed.

Lemma lang_seq_inv r1 r2 s :
  re_lang (RSeq r1 r2) s ↔ ∃ s1 s2, s = s1 +:+ s2 ∧ re_lang r1 s1 ∧ re_lang r2 s2.
Proof. split; [inversion 1; eauto 6|]. intros (s1 & s2 & -> & ? & ?). by constructor. Qed.

Lemma lang_alt_inv r1 r2 s : re_lang (RAlt r1 r2) s ↔ re_lang r1 s ∨ re_lang r2 s.
Proof. split; [inversion 1; auto|]. intros [?|?]; [by apply lang_alt_l|by apply lang_alt_r]. Qed.

Lemma lang_eps_inv s : re_lang REps s ↔ s = "".
Proof. split; [by inversion 1|]. intros ->. constructor. Qed.

Lemma lang_char_inv cls s : re_lang (RChar cls) s ↔ ∃ c, s = String c "" ∧ cls c = true.
Proof. split; [inversion 1; eauto|]. intros (c & -> & ?). by constructor. Qed.

Lemma lang_void_inv s : re_lang RVoid s ↔ False.
Proof. split; [inversion 1|done]. Qed.

Lemma lang_star_String r c s :
  re_lang (RStar r) (String c s) ↔
  ∃ s1 s2, s = s1 +:+ s2 ∧ re_lang r (String c s1) ∧ re_lang (RStar r) s2.
Proof.
  split.
  - intros Hl. remember (RStar r) as r' eqn:Hr. remember (String c s) as s' eqn:Hs.
    revert c s Hs. induction Hl; intros c0 s0 Hs; simplify_eq.
    apply app_String in Hs as [[-> ->]|(s1' & -> & ->)]; eauto 6.
  - intros (s1 & s2 & -> & H1 & H2). by apply (lang_star_cons r (String c s1)).
Qed.

Lemma nullable_spec r : nullable r = true ↔ re_lang r "".
Proof.
  induction r as [| |cls|r1 IH1 r2 IH2|r1 IH1 r2 IH2|r IH]; simpl.
  - by rewrite lang_void_inv.
  - by rewrite lang_eps_inv.
  - rewrite lang_char_inv. naive_solver.
  - rewrite andb_true_iff, IH1, IH2, lang_seq_inv. split; [intros []; by exists "", ""|].
    intros (s1 & s2 & Hs & ? & ?). symmetry in Hs. by apply app_empty in Hs as [-> ->].
  - by rewrite orb_true_iff, IH1, IH2, lang_alt_inv.
  - split; [constructor|done].
Qed.

Lemma mk_alt_lang r1 r2 s : re_lang (mk_alt r1 r2) s ↔ re_lang (RAlt r1 r2) s.
Proof.
  rewrite lang_alt_inv.
  destruct r1, r2; simpl; rewrite ?lang_alt_inv, ?lang_void_inv; tauto.
Qed.

Lemma lang_seq_void r s : re_lang (RSeq RVoid r) s ↔ False.
Proof. rewrite lang_seq_inv. setoid_rewrite lang_void_inv. naive_solver. Qed.

Lemma lang_seq_void_r r s : re_lang (RSeq r RVoid) s ↔ False.
Proof. rewrite lang_seq_inv. setoid_rewrite lang_void_inv. naive_solver. Qed.

Lemma lang_seq_eps r s : re_lang (RSeq REps r) s ↔ re_lang r s.
Proof.
  rewrite lang_seq_inv. setoid_rewrite lang_eps_inv. split; [naive_solver|].
  intros. by exists "", s.
Qed.

Lemma lang_seq_eps_r r s : re_lang (RSeq r REps) s ↔ re_lang r s.
Proof.
  rewrite lang_seq_inv. setoid_rewrite lang_eps_inv. split.
  - intros (s1 & s2 & -> & ? & ->). by rewrite app_empty_r_str.
  - intros. exists s, "". by rewrite app_empty_r_str.
Qed.

Lemma mk_seq_lang r1 r2 s : re_lang (mk_seq r1 r2) s ↔ re_lang (RSeq r1 r2) s.
Proof.
  destruct r1, r2; simpl;
    rewrite ?lang_seq_void, ?lang_seq_void_r, ?lang_seq_eps, ?lang_seq_eps_r, ?lang_void_inv;
    done.
Qed.

Lemma deriv_seq_lang r1 r2 c s :
  re_lang (RSeq r1 r2) (String c s) ↔
  (∃ s1 s2, s = s1 +:+ s2 ∧ re_lang r1 (String c s1) ∧ re_lang r2 s2) ∨
  (nullable r1 = true ∧ re_lang r2 (String c s)).
Proof.
  rewrite lang_seq_inv. split.
  - intros (s1 & s2 & Hs & H1 & H2). symmetry in Hs.
    apply app_String in Hs as [[-> ->]|(s1' & -> & ->)]; [right|left; eauto 6].
    by rewrite nullable_spec.
  - intros [(s1 & s2 & -> & H1 & H2)|[Hn H2]]; [by exists (String c s1), s2|].
    exists "", (String c s). by rewrite nullable_spec in Hn.
Qed.

Lemma deriv_lang r : ∀ c s, re_lang (deriv c r) s ↔ re_lang r (String c s).
Proof.
  induction r as [| |cls|r1 IH1 r2 IH2|r1 IH1 r2 IH2|r IH]; intros c s; simpl.
  - by rewrite !lang_void_inv.
  - rewrite lang_void_inv, lang_eps_inv. naive_solver.
  - rewrite lang_char_inv. destruct (cls c) eqn:E.
    + rewrite lang_eps_inv. split; [intros ->; eauto|]. by intros (c0 & [= _ ->] & _).
    + rewrite lang_void_inv. split; [done|]. intros (c0 & [= <- _] & ?). congruence.
  - rewrite deriv_seq_lang.
    assert (re_lang (mk_seq (deriv c r1) r2) s ↔
      ∃ s1 s2, s = s1 +:+ s2 ∧ re_lang r1 (String c s1) ∧ re_lang r2 s2) as Hl.
    { rewrite mk_seq_lang, lang_seq_inv. by setoid_rewrite IH1. }
    destruct (nullable r1).
    + rewrite mk_alt_lang, lang_alt_inv, Hl, IH2. tauto.
    + rewrite Hl. naive_solver.
  - by rewrite mk_alt_lang, !lang_alt_inv, IH1, IH2.
  - rewrite mk_seq_lang, lang_seq_inv, lang_star_String. by setoid_rewrite IH.
Qed.

Lemma MatchString_lang r s : MatchString r s = true ↔ re_lang r s.
Proof.
  revert r. induction s as [|c s IH]; intros r; simpl; [apply nullable_spec|].
  by rewrite IH, deriv_lang.
Qed.

(** ** The shape of names *)

Fixpoint all_chars (cls : char_class) (s : string) : bool :=
  match s with
  | EmptyString => true
  | String c s => cls c && all_chars cls s
  end.

(** A name as its error message describes it, without a prefix. *)
Definition name_shape (s : string) : Prop :=
  all_chars qnameExtChar s = true ∧
  ∃ a b, first_char s = Some a ∧ last_char s = Some b ∧ alnum a = true ∧ alnum b = true.

Lemma all_chars_app cls s1 s2 : all_chars cls (s1 +:+ s2) = all_chars cls s1 && all_chars cls s2.
Proof.
  induction s1 as [|c s1 IH]; [done|].
  change (String c s1 +:+ s2) with (String c (s1 +:+ s2)). simpl.
  by rewrite IH, andb_assoc.
Qed.

Lemma last_char_snoc s c : last_char (s +:+ String c "") = Some c.
Proof.
  induction s as [|d s IH]; [done|].
  change (String d s +:+ String c "") with (String d (s +:+ String c "")).
  simpl. rewrite IH. by destruct s.
Qed.

Lemma last_char_inv s c : last_char s = Some c → ∃ s', s = s' +:+ String c "".
Proof.
  induction s as [|d s IH]; [done|]. simpl. destruct s as [|e s]; [intros [= ->]; by exists ""|].
  intros (s' & Hs)%IH. exists (String d s'). by rewrite Hs.
Qed.

Lemma star_char_lang cls s : re_lang (RStar (RChar cls)) s ↔ all_chars cls s = true.
Proof.
  induction s as [|c s IH]; simpl; [split; [done|constructor]|].
  rewrite lang_star_String, andb_true_iff, <-IH. setoid_rewrite lang_char_inv. split.
  - intros (s1 & s2 & -> & (c' & [= <- ->] & ?) & ?). done.
  - intros [? ?]. exists "", s. split_and!; [done| |done]. by exists c.
Qed.

Lemma alnum_ext c : alnum c = true → qnameExtChar c = true.
Proof. unfold qnameExtChar. intros ->. by rewrite orb_true_r. Qed.

Lemma qualified_lang_shape s : re_lang qualifiedNameRegexp s ↔ name_shape s.
Proof.
  unfold qualifiedNameRegexp, ROpt, name_shape. rewrite lang_seq_inv. split.
  - intros (s1 & s2 & -> & H1 & (b & -> & Hb)%lang_char_inv).
    rewrite last_char_snoc, all_chars_app. simpl. rewrite (alnum_ext b Hb), !andb_true_r.
    apply lang_alt_inv in H1 as [H1| ->%lang_eps_inv].
    + apply lang_seq_inv in H1 as (t1 & t2 & -> & (a & -> & Ha)%lang_char_inv & Ht%star_char_lang).
      change (String a "" +:+ t2) with (String a t2). simpl. rewrite (alnum_ext a Ha).
      split; [done|]. by exists a, b.
    + simpl. split; [done|]. by exists b, b.
  - intros (Hall & a & b & Ha & Hb & Haa & Hbb).
    apply last_char_inv in Hb as [s' ->]. rewrite all_chars_app in Hall.
    apply andb_true_iff in Hall as [Hall _].
    exists s', (String b ""). split_and!; [done| |by apply lang_char_inv; eauto].
    apply lang_alt_inv. destruct s' as [|a' t]; [right; by apply lang_eps_inv|left].
    simpl in Ha, Hall. injection Ha as ->. apply andb_true_iff in Hall as [_ Hall].
    apply lang_seq_inv. exists (String a ""), t.
    split_and!; [done|by apply lang_char_inv; eauto|by apply star_char_lang].
Qed.

Lemma unless_nil test msg errs : unless test msg errs = [] ↔ test = true ∧ errs = [].
Proof.
  unfold unless. destruct test; [tauto|]. split; [|by intros []].
  intros ?%app_eq_nil. naive_solver.
Qed.

Lemma qualified_match s : MatchString qualifiedNameRegexp s = true ↔ name_shape s.
Proof. by rewrite MatchString_lang, qualified_lang_shape. Qed.

Lemma name_shape_nonempty s : name_shape s → String.length s ≠ 0.
Proof. intros (_ & a & b & Ha & _). by destruct s. Qed.

Lemma IsValidLabelValue_spec value :
  IsValidLabelValue value = [] ↔
  no_longer_than 63 value = true ∧ (value = "" ∨ name_shape value).
Proof.
  unfold IsValidLabelValue. rewrite !unless_nil, MatchString_lang. unfold labelValueRegexp, ROpt.
  rewrite lang_alt_inv, lang_eps_inv, qualified_lang_shape. naive_solver.
Qed.

Lemma IsQualifiedName_spec value :
  IsQualifiedName value = [] ↔
  ∃ name, name_shape name ∧ no_longer_than 63 name = true ∧
    (split_on "/" value = [name] ∨
     ∃ prefix, split_on "/" value = [prefix; name] ∧ prefix ≠ "" ∧ IsDNS1123Subdomain prefix = []).
Proof.
  unfold IsQualifiedName.
  assert (∀ name errs,
    unless (MatchString qualifiedNameRegexp name)
      ("name part " +:+ RegexError qualifiedNameErrMsg qualifiedNameFmt
                          ["MyName"; "my.name"; "123-abc"])
      (if decide (String.length name = 0) then errs ++ ["name part " +:+ EmptyError]
       else unless (no_longer_than 63 name) ("name part " +:+ MaxLenError 63) errs) = [] ↔
    name_shape name ∧ no_longer_than 63 name = true ∧ errs = []) as Hname.
  { intros name errs. rewrite unless_nil, qualified_match. case_decide as Hz.
    - split; [intros [?%name_shape_nonempty _]; done|].
      intros [?%name_shape_nonempty _]. done.
    - rewrite unless_nil. tauto. }
  destruct (split_on "/" value) as [|w1 [|w2 [|w3 ws]]]; [naive_solver| | |naive_solver].
  - rewrite Hname. naive_solver.
  - rewrite Hname. split.
    + intros (? & ? & Hp). exists w2. split_and!; [done..|right]. exists w1.
      case_decide; [done|]. split_and!; [done|by intros ->|].
      by destruct (IsDNS1123Subdomain w1).
    + intros (name & ? & ? & [?|(prefix & [= <- <-] & Hne & Hp)]); [done|].
      rewrite decide_False by (by destruct w1). by rewrite Hp.
Qed.

(** *** Port names *)

Fixpoint any_char (cls : char_class) (s : string) : bool :=
  match s with
  | EmptyString => false
  | String c s => cls c || any_char cls s
  end.

Lemma plus_char_lang cls s : re_lang (RPlus (RChar cls)) s ↔ s ≠ "" ∧ all_chars cls s = true.
Proof.
  unfold RPlus. rewrite lang_seq_inv. split.
  - intros (s1 & s2 & -> & (c & -> & Hc)%lang_char_inv & Hs%star_char_lang).
    change (String c "" +:+ s2) with (String c s2). simpl. by rewrite Hc, Hs.
  - intros [Hne Hs]. destruct s as [|c s]; [done|]. simpl in Hs. apply andb_true_iff in Hs as [Hc Hs].
    exists (String c ""), s. split_and!; [done|by apply lang_char_inv; eauto|by apply star_char_lang].
Qed.

Lemma all_chars_true s : all_chars (λ _, true) s = true.
Proof. by induction s. Qed.

Lemma one_letter_lang s : re_lang portNameOneLetterRegexp s ↔ any_char lower s = true.
Proof.
  unfold portNameOneLetterRegexp. rewrite lang_seq_inv. split.
  - intros (s1 & s2 & -> & _ & (t1 & t2 & -> & (c & -> & Hc)%lang_char_inv & _)%lang_seq_inv).
    change (String c "" +:+ t2) with (String c t2).
    induction s1 as [|d s1 IH]; [change ("" +:+ String c t2) with (String c t2); simpl; by rewrite Hc|].
    change (String d s1 +:+ String c t2) with (String d (s1 +:+ String c t2)). simpl.
    rewrite IH. apply orb_true_r.
  - intros Hs.
    assert (∃ s1 c t2, s = s1 +:+ String c t2 ∧ lower c = true) as (s1 & c & t2 & -> & Hc).
    { induction s as [|d s IH]; [done|]. simpl in Hs. destruct (lower d) eqn:Hd.
      - by exists "", d, s.
      - destruct (IH Hs) as (s1 & c & t2 & -> & Hc). by exists (String d s1), c, t2. }
    exists s1, (String c t2). split_and!; [done|apply star_char_lang, all_chars_true|].
    apply lang_seq_inv. exists (String c ""), t2.
    split_and!; [done|by apply lang_char_inv; eauto|apply star_char_lang, all_chars_true].
Qed.

(** ** Theorems *)

(**  A label value is accepted exactly when it has at most 63 characters and is
    empty or consists of alphanumerics, hyphens, underscores and dots, starting and
    ending with an alphanumeric; a qualified name exactly when its name part is a
    non-empty such string and its prefix, if any, is a DNS subdomain. *)
Theorem label_validation_spec value :
  (IsValidLabelValue value = [] ↔
   no_longer_than 63 value = true ∧ (value = "" ∨ name_shape value)) ∧
  (IsQualifiedName value = [] ↔
   ∃ name, name_shape name ∧ no_longer_than 63 name = true ∧
     (split_on "/" value = [name] ∨
      ∃ prefix, split_on "/" value = [prefix; name] ∧ prefix ≠ "" ∧
                IsDNS1123Subdomain prefix = [])).
Proof. split; [apply IsValidLabelValue_spec|apply IsQualifiedName_spec]. Qed.

(**  A port name is accepted exactly when it is as its comment says: non-empty, at
    most 15 characters out of lower-case letters, digits and hyphens, at least one of
    them a letter, no two adjacent hyphens and none at either end. *)
Theorem port_name_spec port :
  IsValidPortName port = [] ↔
  port ≠ "" ∧ no_longer_than 15 port = true ∧ all_chars lower_digit_hyphen port = true ∧
  any_char lower port = true ∧ has_double_hyphen port = false ∧
  first_char port ≠ Some "-"%char ∧ last_char port ≠ Some "-"%char.
Proof.
  unfold IsValidPortName. rewrite !unless_nil, !MatchString_lang, one_letter_lang.
  unfold portNameCharsetRegex. rewrite plus_char_lang, !negb_true_iff, orb_false_iff.
  rewrite !bool_decide_eq_false. naive_solver.
Qed.
