(* ===== verification/Labels.v ===== *)
(** * Label sets (pkg/labels/labels.go)

    A [Set] is a finite map; [Labels] is the interface selectors match against.
    The loops over a set visit it in the unspecified order of Go maps.

    Theorems: the answers of the loops do not depend on that order and are the
    set-theoretic ones. *)

From S2P Require Import Prelude Validation.

(** The interface [Labels]. *)
Class Labels (L : Type) := {
  Has : L → string → bool;
  Get : L → string → string
}.

Notation Set_ := (gmap string string).

#[export] Instance Set_Labels : Labels Set_ := {|
  Has ls label := bool_decide (is_Some (ls !! label));
  Get ls label := default "" (ls !! label)
|}.

(** ** Validation of a label *)

Inductive label_error :=
  | InvalidKey (k : string) (errs : list string)
  | InvalidValue (v : string) (errs : list string)
  | InvalidSelector (l : list string).

Definition validateLabelKey (k : string) : result label_error () :=
  match IsQualifiedName k with
  | [] => Ok ()
  | errs => Err (InvalidKey k errs)
  end.

Definition validateLabelValue (v : string) : result label_error () :=
  match IsValidLabelValue v with
  | [] => Ok ()
  | errs => Err (InvalidValue v errs)
  end.

Section labels.
Context `{!MapRange}.

(** ** Operations *)

Definition Set_String (ls : Set_) : string :=
  join "," (merge_sort String.le ((λ kv, kv.1 +:+ "=" +:+ kv.2) <$> map_range ls)).

Definition FormatLabels (labelMap : Set_) : string :=
  match Set_String labelMap with
  | EmptyString => "<none>"
  | l => l
  end.

(** The loop of [Conflicts] over the smaller set. *)
Fixpoint conflicts_loop (small : list (string * string)) (big : Set_) : bool :=
  match small with
  | [] => false
  | (k, v) :: rest =>
      match big !! k with
      | Some val => if decide (val ≠ v) then true else conflicts_loop rest big
      | None => conflicts_loop rest big
      end
  end.

Definition Conflicts (labels1 labels2 : Set_) : bool :=
  let '(small, big) :=
    if decide (size labels2 < size labels1) then (labels2, labels1) else (labels1, labels2) in
  conflicts_loop (map_range small) big.

Definition Merge (labels1 labels2 : Set_) : Set_ :=
  let mergedMap := foldl (λ m kv, <[kv.1 := kv.2]> m) ∅ (map_range labels1) in
  foldl (λ m kv, <[kv.1 := kv.2]> m) mergedMap (map_range labels2).

(** The loop of [Equals] and of [AreLabelsInWhiteList]. *)
Fixpoint included_loop (l : list (string * string)) (m : Set_) : bool :=
  match l with
  | [] => true
  | (k, v) :: rest =>
      match m !! k with
      | None => false
      | Some value => if decide (value ≠ v) then false else included_loop rest m
      end
  end.

Definition Equals (labels1 labels2 : Set_) : bool :=
  if decide (size labels1 ≠ size labels2) then false
  else included_loop (map_range labels1) labels2.

Definition AreLabelsInWhiteList (labels whitelist : Set_) : bool :=
  if decide (size whitelist = 0) then true else included_loop (map_range labels) whitelist.

(** The loop of [ConvertSelectorToLabelsMap]; the map built so far is returned
    beside the error. *)
Fixpoint convert_loop (labels : list string) (labelsMap : Set_) : Set_ * option label_error :=
  match labels with
  | [] => (labelsMap, None)
  | label :: rest =>
      match split_on "=" label with
      | [l0; l1] =>
          let key := TrimSpace l0 in
          match validateLabelKey key with
          | Err e => (labelsMap, Some e)
          | Ok _ =>
              let value := TrimSpace l1 in
              match validateLabelValue value with
              | Err e => (labelsMap, Some e)
              | Ok _ => convert_loop rest (<[key := value]> labelsMap)
              end
          end
      | l => (labelsMap, Some (InvalidSelector l))
      end
  end.

Definition ConvertSelectorToLabelsMap (selector : string) : Set_ * option label_error :=
  if decide (String.length selector = 0) then (∅, None)
  else convert_loop (split_on "," selector) ∅.

(** ** Lemmas *)

Lemma conflicts_loop_spec l big :
  conflicts_loop l big = true ↔ ∃ k v v', (k, v) ∈ l ∧ big !! k = Some v' ∧ v' ≠ v.
Proof.
  induction l as [|[k v] l IH]; simpl; [set_solver|].
  destruct (big !! k) as [v'|] eqn:E; [case_decide as Hv|].
  - split; [|done]. intros _. exists k, v, v'. set_solver.
  - rewrite IH. split; [set_solver|].
    intros (k0 & v0 & v0' & [[= -> ->]|?]%elem_of_cons & ? & ?); [|eauto 6].
    destruct Hv. congruence.
  - rewrite IH. split; [set_solver|].
    intros (k0 & v0 & v0' & [[= -> ->]|?]%elem_of_cons & ? & ?); [congruence|eauto 6].
Qed.

Lemma included_loop_spec l m :
  included_loop l m = true ↔ ∀ k v, (k, v) ∈ l → m !! k = Some v.
Proof.
  induction l as [|[k v] l IH]; simpl; [set_solver|].
  destruct (m !! k) as [v'|] eqn:E; [case_decide as Hv|].
  - split; [done|]. intros Hl. specialize (Hl k v). rewrite E in Hl. set_solver.
  - rewrite IH. subst. split; [|set_solver].
    intros Hl k0 v0 [[= -> ->]|?]%elem_of_cons; auto.
  - split; [done|]. intros Hl. specialize (Hl k v). rewrite E in Hl. set_solver.
Qed.

Lemma foldl_insert_lookup (l : list (string * string)) : ∀ (m : Set_) k,
  NoDup l.*1 →
  foldl (λ m kv, <[kv.1 := kv.2]> m) m l !! k =
  match (list_to_map l : Set_) !! k with Some v => Some v | None => m !! k end.
Proof.
  induction l as [|[k0 v0] l IH]; intros m k Hnd; simpl; [by rewrite lookup_empty|].
  apply NoDup_cons in Hnd as [Hk0 Hnd]. rewrite IH by done. rewrite !lookup_insert.
  case_decide; [subst|done]. by rewrite (not_elem_of_list_to_map_1 l k) by done.
Qed.

Lemma Merge_lookup l1 l2 k :
  Merge l1 l2 !! k = match l2 !! k with Some v => Some v | None => l1 !! k end.
Proof.
  unfold Merge. rewrite !foldl_insert_lookup by apply NoDup_fst_map_range.
  assert (∀ m : Set_, list_to_map (map_range m) = m) as Hm.
  { intros m. rewrite (list_to_map_proper _ (map_to_list m));
      [apply list_to_map_to_list|apply NoDup_fst_map_range|apply map_range_perm]. }
  rewrite !Hm, lookup_empty. by destruct (l2 !! k), (l1 !! k).
Qed.

(** ** Theorems *)

(**  The loops over label sets compute, whatever the order of iteration: whether
    two sets give some label different values, the union in which the second set
    wins, equality, and inclusion in a non-empty white list. *)
Theorem label_set_operations (labels1 labels2 : Set_) :
  (Conflicts labels1 labels2 = true ↔
   ∃ k v1 v2, labels1 !! k = Some v1 ∧ labels2 !! k = Some v2 ∧ v1 ≠ v2) ∧
  Merge labels1 labels2 = labels2 ∪ labels1 ∧
  (Equals labels1 labels2 = true ↔ labels1 = labels2) ∧
  (AreLabelsInWhiteList labels1 labels2 = true ↔ labels2 = ∅ ∨ labels1 ⊆ labels2).
Proof.
  assert (∀ m1 m2 : Set_, included_loop (map_range m1) m2 = true ↔ m1 ⊆ m2) as Hinc.
  { intros m1 m2. rewrite included_loop_spec, map_subseteq_spec.
    by setoid_rewrite elem_of_map_range. }
  split_and!.
  - unfold Conflicts. case_decide; rewrite conflicts_loop_spec;
      setoid_rewrite elem_of_map_range; naive_solver.
  - apply map_eq. intros k. rewrite Merge_lookup, lookup_union.
    by destruct (labels2 !! k), (labels1 !! k).
  - unfold Equals. case_decide as Hs; [split; [done|by intros ->]|].
    rewrite Hinc. split; [|by intros ->]. intros Hsub.
    destruct (decide (labels1 = labels2)) as [|Hne]; [done|].
    assert (labels1 ⊂ labels2) as Hlt%map_subset_size; [|lia].
    split; [done|]. intros ?. apply Hne. by apply (anti_symm (⊆)).
  - unfold AreLabelsInWhiteList. case_decide as Hs.
    + apply map_size_empty_inv in Hs. naive_solver.
    + rewrite Hinc. split; [auto|]. intros [->|?]; [|done]. by rewrite map_size_empty in Hs.
Qed.
End labels.
