(* ===== verification/Selector.v ===== *)
(** * Label selectors (pkg/labels/selector.go, pkg/selection/operator.go)

    Requirements on labels, their conjunction, their text form, and the lexer and
    the recursive-descent parser that read it back.  [Lexer] and [Parser] have the
    fields of the source; a parser function is a function of the parser that panics
    when it indexes past the scanned items, or returns a value or an error beside
    the new state.  The loops of the lexer run on fuel bounded by the length of the
    input and those of the parser on the number of scanned items; the theorems show
    that neither bound is ever reached.

    Theorems: lexing ends and never yields the error token, parsing any input ends
    without a panic, printing and parsing a selector gives it back, and what it
    means for a selector to match. *)

From S2P Require Import Prelude Validation Labels.

(** ** Operators and requirements *)

(** [Operator] is a string type; [OpOther] stands for the values without a name. *)
Inductive Operator :=
  | OpDoesNotExist | OpEquals | OpDoubleEquals | OpIn | OpNotEquals | OpNotIn
  | OpExists | OpGreaterThan | OpLessThan | OpOther (s : string).

#[export] Instance Operator_eq_dec : EqDecision Operator.
Proof. solve_decision. Defined.

Record Requirement := mkRequirement {
  r_key : string;
  r_operator : Operator;
  r_strValues : list string
}.

#[export] Instance Requirement_eq_dec : EqDecision Requirement.
Proof. solve_decision. Defined.

Inductive sel_error :=
  | LabelError (e : label_error)
  | ValuesEmpty | NotOneValue | ValuesNotEmpty | NotOneNumber | NotInteger
  | OperatorNotRecognized (op : Operator)
  | Found (literal expected : string)
  | UnableToParse (e : sel_error).

(** ** Requirements *)

Definition label_ok {A} (r : result label_error A) : result sel_error A :=
  match r with Ok a => Ok a | Err e => Err (LabelError e) end.

(** The checks of [NewRequirement] on the number of values. *)
Definition check_values (op : Operator) (vals : list string) : result sel_error () :=
  match op with
  | OpIn | OpNotIn => if decide (length vals = 0) then Err ValuesEmpty else Ok ()
  | OpEquals | OpDoubleEquals | OpNotEquals =>
      if decide (length vals ≠ 1) then Err NotOneValue else Ok ()
  | OpExists | OpDoesNotExist =>
      if decide (length vals ≠ 0) then Err ValuesNotEmpty else Ok ()
  | OpGreaterThan | OpLessThan =>
      if decide (length vals ≠ 1) then Err NotOneNumber
      else if decide (Forall (λ v, is_Some (ParseInt v)) vals) then Ok () else Err NotInteger
  | OpOther _ => Err (OperatorNotRecognized op)
  end.

Fixpoint validate_values (vals : list string) : result sel_error () :=
  match vals with
  | [] => Ok ()
  | v :: vals => _ !<- label_ok (validateLabelValue v); validate_values vals
  end.

Definition NewRequirement (key : string) (op : Operator) (vals : list string)
    : result sel_error Requirement :=
  _ !<- label_ok (validateLabelKey key);
  _ !<- check_values op vals;
  _ !<- validate_values vals;
  Ok (mkRequirement key op (merge_sort String.le vals)).

Fixpoint hasValue (value : string) (strValues : list string) : bool :=
  match strValues with
  | [] => false
  | v :: rest => if decide (v = value) then true else hasValue value rest
  end.

Definition Requirement_Matches `{Labels L} (r : Requirement) (ls : L) : bool :=
  match r_operator r with
  | OpIn | OpEquals | OpDoubleEquals =>
      if negb (Has ls (r_key r)) then false else hasValue (Get ls (r_key r)) (r_strValues r)
  | OpNotIn | OpNotEquals =>
      if negb (Has ls (r_key r)) then true
      else negb (hasValue (Get ls (r_key r)) (r_strValues r))
  | OpExists => Has ls (r_key r)
  | OpDoesNotExist => negb (Has ls (r_key r))
  | OpGreaterThan | OpLessThan =>
      if negb (Has ls (r_key r)) then false
      else
        match ParseInt (Get ls (r_key r)), r_strValues r with
        | Some lsValue, [v] =>
            match ParseInt v with
            | None => false
            | Some rValue =>
                (bool_decide (r_operator r = OpGreaterThan) && bool_decide (lsValue > rValue)%Z)
                || (bool_decide (r_operator r = OpLessThan) && bool_decide (lsValue < rValue)%Z)
            end
        | _, _ => false
        end
  | OpOther _ => false
  end.

(** One value is written as it is, several are joined. *)
Definition values_text (strValues : list string) : string :=
  match strValues with
  | [v] => v
  | _ => join "," strValues
  end.

Definition Requirement_String (r : Requirement) : string :=
  let b := if decide (r_operator r = OpDoesNotExist) then "!" else "" in
  let b := b +:+ r_key r in
  let values b :=
    let b := match r_operator r with OpIn | OpNotIn => b +:+ "(" | _ => b end in
    let b := b +:+ values_text (r_strValues r) in
    match r_operator r with OpIn | OpNotIn => b +:+ ")" | _ => b end in
  match r_operator r with
  | OpEquals => values (b +:+ "=")
  | OpDoubleEquals => values (b +:+ "==")
  | OpNotEquals => values (b +:+ "!=")
  | OpIn => values (b +:+ " in ")
  | OpNotIn => values (b +:+ " notin ")
  | OpGreaterThan => values (b +:+ ">")
  | OpLessThan => values (b +:+ "<")
  | OpExists | OpDoesNotExist => b
  | OpOther _ => values b
  end.

(** ** Selectors *)

Inductive Selector :=
  | internalSelector (reqs : list Requirement)
  | nothingSelector.

Definition Everything : Selector := internalSelector [].
Definition Nothing : Selector := nothingSelector.

(** [ByKey]: sort by key. *)
Definition ByKey : relation Requirement := λ r1 r2, String.le (r_key r1) (r_key r2).

#[export] Instance ByKey_dec : RelDecision ByKey.
Proof. intros r1 r2. unfold ByKey. apply _. Defined.

#[export] Instance ByKey_total : Total ByKey.
Proof. intros r1 r2. apply (total String.le). Qed.

(** The loop of [Matches]. *)
Fixpoint matches_loop `{Labels L} (reqs : list Requirement) (l : L) : bool :=
  match reqs with
  | [] => true
  | r :: reqs => if Requirement_Matches r l then matches_loop reqs l else false
  end.

Definition Selector_Matches `{Labels L} (sel : Selector) (l : L) : bool :=
  match sel with
  | internalSelector reqs => matches_loop reqs l
  | nothingSelector => false
  end.

Definition Selector_Empty (sel : Selector) : bool :=
  match sel with
  | internalSelector reqs => bool_decide (length reqs = 0)
  | nothingSelector => false
  end.

Definition Selector_String (sel : Selector) : string :=
  match sel with
  | internalSelector reqs => join "," (Requirement_String <$> reqs)
  | nothingSelector => "<null>"
  end.

Definition Selector_Requirements (sel : Selector) : list Requirement * bool :=
  match sel with
  | internalSelector reqs => (reqs, true)
  | nothingSelector => ([], false)
  end.

Definition Selector_Add `{!SortSort} (reqs : list Requirement) (sel : Selector) : Selector :=
  match sel with
  | internalSelector lsel => internalSelector (sort_Sort ByKey (lsel ++ reqs))
  | nothingSelector => nothingSelector
  end.

(** The loop of [SelectorFromSet]; an invalid label ends it. *)
Fixpoint selector_from_loop (ls : list (string * string)) (requirements : list Requirement)
    : option (list Requirement) :=
  match ls with
  | [] => Some requirements
  | (label, value) :: rest =>
      match NewRequirement label OpEquals [value] with
      | Err _ => None
      | Ok r => selector_from_loop rest (requirements ++ [r])
      end
  end.

Definition SelectorFromSet `{!MapRange, !SortSort} (ls : Set_) : Selector :=
  match selector_from_loop (map_range ls) [] with
  | None => internalSelector []
  | Some requirements => internalSelector (sort_Sort ByKey requirements)
  end.

Definition SelectorFromValidatedSet `{!MapRange, !SortSort} (ls : Set_) : Selector :=
  internalSelector
    (sort_Sort ByKey ((λ kv, mkRequirement kv.1 OpEquals [kv.2]) <$> map_range ls)).

(** ** Lexer *)

Inductive Token :=
  | ErrorToken | EndOfStringToken | ClosedParToken | CommaToken | DoesNotExistToken
  | DoubleEqualsToken | EqualsToken | GreaterThanToken | IdentifierToken | InToken
  | LessThanToken | NotEqualsToken | NotInToken | OpenParToken.

#[export] Instance Token_eq_dec : EqDecision Token.
Proof. solve_decision. Defined.

Definition string2token_table : list (string * Token) :=
  [(")", ClosedParToken); (",", CommaToken); ("!", DoesNotExistToken);
   ("==", DoubleEqualsToken); ("=", EqualsToken); (">", GreaterThanToken); ("in", InToken);
   ("<", LessThanToken); ("!=", NotEqualsToken); ("notin", NotInToken); ("(", OpenParToken)].

Fixpoint table_lookup (table : list (string * Token)) (s : string) : option Token :=
  match table with
  | [] => None
  | (k, t) :: table => if decide (s = k) then Some t else table_lookup table s
  end.

Definition string2token (s : string) : option Token := table_lookup string2token_table s.

Record ScannedItem := mkItem { tok : Token; literal : string }.

Definition isWhitespace (ch : ascii) : bool :=
  bool_decide (nat_of_ascii ch = 32 ∨ nat_of_ascii ch = 9 ∨ nat_of_ascii ch = 13
               ∨ nat_of_ascii ch = 10).

Definition isSpecialSymbol (ch : ascii) : bool :=
  bool_decide (ch ∈ ["="; "!"; "("; ")"; ","; ">"; "<"]%char).

Definition NUL : ascii := ascii_of_nat 0.

Record Lexer := mkLexer { lx_s : string; lx_pos : nat }.

Definition read (l : Lexer) : ascii * Lexer :=
  match String.get (lx_pos l) (lx_s l) with
  | Some b => (b, mkLexer (lx_s l) (lx_pos l + 1))
  | None => (NUL, l)
  end.

Definition unread (l : Lexer) : Lexer := mkLexer (lx_s l) (lx_pos l - 1).

(** The loop of [scanIdOrKeyword]. *)
Fixpoint id_loop (fuel : nat) (buffer : string) (l : Lexer) : string * Lexer :=
  match fuel with
  | 0 => (buffer, l)
  | S n =>
      let '(ch, l) := read l in
      if decide (ch = NUL) then (buffer, l)
      else if isSpecialSymbol ch || isWhitespace ch then (buffer, unread l)
      else id_loop n (buffer +:+ String ch "") l
  end.

Definition scanIdOrKeyword (l : Lexer) : ScannedItem * Lexer :=
  let '(s, l) := id_loop (S (String.length (lx_s l))) "" l in
  match string2token s with
  | Some val => (mkItem val s, l)
  | None => (mkItem IdentifierToken s, l)
  end.

(** The loop of [scanSpecialSymbol]. *)
Fixpoint symbol_loop (fuel : nat) (buffer : string) (lastScannedItem : ScannedItem) (l : Lexer)
    : string * ScannedItem * Lexer :=
  match fuel with
  | 0 => (buffer, lastScannedItem, l)
  | S n =>
      let '(ch, l) := read l in
      if decide (ch = NUL) then (buffer, lastScannedItem, l)
      else if isSpecialSymbol ch then
        let buffer := buffer +:+ String ch "" in
        match string2token buffer with
        | Some token => symbol_loop n buffer (mkItem token buffer) l
        | None =>
            if decide (tok lastScannedItem ≠ ErrorToken) then (buffer, lastScannedItem, unread l)
            else symbol_loop n buffer lastScannedItem l
        end
      else (buffer, lastScannedItem, unread l)
  end.

Definition scanSpecialSymbol (l : Lexer) : ScannedItem * Lexer :=
  let '(buffer, lastScannedItem, l) :=
    symbol_loop (S (String.length (lx_s l))) "" (mkItem ErrorToken "") l in
  if decide (tok lastScannedItem = ErrorToken)
  then (mkItem ErrorToken ("error expected: keyword found '" +:+ buffer +:+ "'"), l)
  else (lastScannedItem, l).

Fixpoint skip_loop (fuel : nat) (ch : ascii) (l : Lexer) : ascii * Lexer :=
  match fuel with
  | 0 => (ch, l)
  | S n =>
      if negb (isWhitespace ch) then (ch, l)
      else let '(ch, l) := read l in skip_loop n ch l
  end.

Definition skipWhiteSpaces (ch : ascii) (l : Lexer) : ascii * Lexer :=
  skip_loop (S (S (String.length (lx_s l)))) ch l.

Definition Lex (l : Lexer) : ScannedItem * Lexer :=
  let '(ch, l) := read l in
  let '(ch, l) := skipWhiteSpaces ch l in
  if decide (ch = NUL) then (mkItem EndOfStringToken "", l)
  else if isSpecialSymbol ch then scanSpecialSymbol (unread l)
  else scanIdOrKeyword (unread l).

(** The loop of [scan]: [None] if it does not end within [fuel] turns. *)
Fixpoint scan_loop (fuel : nat) (items : list ScannedItem) (l : Lexer)
    : option (list ScannedItem) :=
  match fuel with
  | 0 => None
  | S n =>
      let '(item, l) := Lex l in
      let items := items ++ [item] in
      if decide (tok item = EndOfStringToken) then Some items else scan_loop n items l
  end.

Definition scan (s : string) : option (list ScannedItem) :=
  scan_loop (S (String.length s)) [] (mkLexer s 0).

(** ** Parser *)

Record Parser := mkParser { scannedItems : list ScannedItem; position : nat }.

Inductive ParserContext := KeyAndOperator | Values.

(** Functions of the parser: a panic, or a value or an error with the new state. *)
Definition parsing (A : Type) : Type := Parser → outcome (result sel_error A * Parser).

Definition p_ret {A} (a : A) : parsing A := λ p, Ret (Ok a, p).
Definition p_err {A} (e : sel_error) : parsing A := λ p, Ret (Err e, p).
Definition p_lift {A} (r : result sel_error A) : parsing A := λ p, Ret (r, p).
Definition p_bind {A B} (m : parsing A) (k : A → parsing B) : parsing B := λ p,
  match m p with
  | Ret (Ok a, p) => k a p
  | Ret (Err e, p) => Ret (Err e, p)
  | Panic s => Panic s
  end.

Declare Scope parsing_scope.
Delimit Scope parsing_scope with parsing.
Notation "x <- m ;; k" := (p_bind m (λ x, k))
  (at level 100, m at next level, k at level 200, right associativity) : parsing_scope.
Notation "' pat <- m ;; k" := (p_bind m (λ x, match x with pat => k end))
  (at level 100, pat pattern, m at next level, k at level 200, right associativity)
  : parsing_scope.
Open Scope parsing_scope.

Definition in_context (context : ParserContext) (item : ScannedItem) : Token * string :=
  match context, tok item with
  | Values, (InToken | NotInToken) => (IdentifierToken, literal item)
  | _, t => (t, literal item)
  end.

#[local] Arguments in_context : simpl never.

Definition lookahead (context : ParserContext) : parsing (Token * string) := λ p,
  match scannedItems p !! position p with
  | Some item => Ret (Ok (in_context context item), p)
  | None => Panic "index out of range"
  end.

Definition consume (context : ParserContext) : parsing (Token * string) := λ p,
  match scannedItems p !! position p with
  | Some item =>
      Ret (Ok (in_context context item), mkParser (scannedItems p) (position p + 1))
  | None => Panic "index out of range"
  end.

Definition parseKeyAndInferOperator : parsing (string * Operator) :=
  '(t, lit) <- consume Values;;
  '(op, t, lit) <-
    (if decide (t = DoesNotExistToken) then
       '(t, lit) <- consume Values;; p_ret (OpDoesNotExist, t, lit)
     else p_ret (OpOther "", t, lit));;
  if decide (t ≠ IdentifierToken) then p_err (Found lit "identifier")
  else
    _ <- p_lift (label_ok (validateLabelKey lit));;
    '(t, _) <- lookahead Values;;
    if decide (t = EndOfStringToken ∨ t = CommaToken)
    then p_ret (lit, if decide (op ≠ OpDoesNotExist) then OpExists else op)
    else p_ret (lit, op).

Definition parseOperator : parsing Operator :=
  '(t, lit) <- consume KeyAndOperator;;
  match t with
  | InToken => p_ret OpIn
  | EqualsToken => p_ret OpEquals
  | DoubleEqualsToken => p_ret OpDoubleEquals
  | GreaterThanToken => p_ret OpGreaterThan
  | LessThanToken => p_ret OpLessThan
  | NotInToken => p_ret OpNotIn
  | NotEqualsToken => p_ret OpNotEquals
  | _ => p_err (Found lit "'=', '!=', '==', 'in', notin'")
  end.

(** The loop of [parseIdentifiersList]. *)
Fixpoint identifiers_loop (fuel : nat) (s : gset string) : parsing (gset string) :=
  match fuel with
  | 0 => λ _, Panic "out of fuel"
  | S n =>
      '(t, lit) <- consume Values;;
      match t with
      | IdentifierToken =>
          let s := {[lit]} ∪ s in
          '(tok2, lit2) <- lookahead Values;;
          match tok2 with
          | CommaToken => identifiers_loop n s
          | ClosedParToken => p_ret s
          | _ => p_err (Found lit2 "',' or ')'")
          end
      | CommaToken =>
          let s := if decide (size s = 0) then {[""]} ∪ s else s in
          '(tok2, _) <- lookahead Values;;
          if decide (tok2 = ClosedParToken) then p_ret ({[""]} ∪ s)
          else if decide (tok2 = CommaToken) then
            _ <- consume Values;; identifiers_loop n ({[""]} ∪ s)
          else identifiers_loop n s
      | _ => p_err (Found lit "',', or identifier")
      end
  end.

Definition parseIdentifiersList : parsing (gset string) := λ p,
  identifiers_loop (S (length (scannedItems p))) ∅ p.

Definition parseValues : parsing (gset string) :=
  '(t, lit) <- consume Values;;
  if decide (t ≠ OpenParToken) then p_err (Found lit "'('")
  else
    '(t, lit) <- lookahead Values;;
    match t with
    | IdentifierToken | CommaToken =>
        s <- parseIdentifiersList;;
        '(t, _) <- consume Values;;
        if decide (t ≠ ClosedParToken) then p_err (Found lit "')'") else p_ret s
    | ClosedParToken => _ <- consume Values;; p_ret {[""]}
    | _ => p_err (Found lit "',', ')' or identifier")
    end.

Definition parseExactValue : parsing (gset string) :=
  '(t, _) <- lookahead Values;;
  if decide (t = EndOfStringToken ∨ t = CommaToken) then p_ret {[""]}
  else
    '(t, lit) <- consume Values;;
    if decide (t = IdentifierToken) then p_ret {[lit]} else p_err (Found lit "identifier").

(** [sets.String.List]: the sorted elements. *)
Definition set_List (s : gset string) : list string := merge_sort String.le (elements s).

Definition parseRequirement : parsing Requirement :=
  '(key, op) <- parseKeyAndInferOperator;;
  if decide (op = OpExists ∨ op = OpDoesNotExist) then p_lift (NewRequirement key op [])
  else
    op <- parseOperator;;
    values <-
      (match op with
       | OpIn | OpNotIn => parseValues
       | OpEquals | OpDoubleEquals | OpNotEquals | OpGreaterThan | OpLessThan => parseExactValue
       | _ => p_ret ∅
       end);;
    p_lift (NewRequirement key op (set_List values)).

Definition wrap_unable {A} (m : parsing A) : parsing A := λ p,
  match m p with
  | Ret (Err e, p) => Ret (Err (UnableToParse e), p)
  | r => r
  end.

(** The loop of [parse]. *)
Fixpoint parse_loop (fuel : nat) (requirements : list Requirement) : parsing (list Requirement) :=
  match fuel with
  | 0 => λ _, Panic "out of fuel"
  | S n =>
      '(t, lit) <- lookahead Values;;
      match t with
      | IdentifierToken | DoesNotExistToken =>
          r <- wrap_unable parseRequirement;;
          let requirements := requirements ++ [r] in
          '(t, l) <- consume Values;;
          match t with
          | EndOfStringToken => p_ret requirements
          | CommaToken =>
              '(t2, l2) <- lookahead Values;;
              if decide (t2 ≠ IdentifierToken ∧ t2 ≠ DoesNotExistToken)
              then p_err (Found l2 "identifier after ','")
              else parse_loop n requirements
          | _ => p_err (Found l "',' or 'end of string'")
          end
      | EndOfStringToken => p_ret requirements
      | _ => p_err (Found lit "!, identifier, or 'end of string'")
      end
  end.

Definition Parser_parse (selector : string) : outcome (result sel_error (list Requirement)) :=
  match scan selector with
  | None => Panic "out of fuel"
  | Some items =>
      match parse_loop (S (length items)) [] (mkParser items 0) with
      | Ret (r, _) => Ret r
      | Panic s => Panic s
      end
  end.

Definition parse `{!SortSort} (selector : string) : outcome (result sel_error (list Requirement)) :=
  r ?<- Parser_parse selector;
  Ret (items !<- r; Ok (sort_Sort ByKey items)).

Definition Parse `{!SortSort} (selector : string) : outcome (result sel_error Selector) :=
  r ?<- parse selector;
  Ret (items !<- r; Ok (internalSelector items)).

(** ** A lexer on the rest of the input

    [lex_str] lexes a string from its front and returns the token with the string
    that is left: the reference for [Lex]. *)

Fixpoint str_drop (n : nat) (s : string) : string :=
  match n, s with
  | 0, _ => s
  | S n, String _ s => str_drop n s
  | S _, EmptyString => ""
  end.

Definition rest (l : Lexer) : string := str_drop (lx_pos l) (lx_s l).

(** A NUL byte reads as the end of a token, and is consumed. *)
Definition drop_nul (s : string) : string :=
  match s with
  | String c s' => if decide (c = NUL) then s' else s
  | EmptyString => ""
  end.

Definition stops (c : ascii) : bool := isSpecialSymbol c || isWhitespace c.

Fixpoint span_id (s : string) : string * string :=
  match s with
  | EmptyString => ("", "")
  | String c s' =>
      if decide (c = NUL) then ("", s')
      else if stops c then ("", s)
      else let '(w, r) := span_id s' in (String c w, r)
  end.

Definition word_item (w : string) : ScannedItem :=
  mkItem (default IdentifierToken (string2token w)) w.

Definition symbol_item (w : string) : ScannedItem :=
  mkItem (default ErrorToken (string2token w)) w.

Definition span_symbol (c : ascii) (s : string) : ScannedItem * string :=
  match s with
  | String d s' =>
      if isSpecialSymbol d && bool_decide (is_Some (string2token (String c (String d ""))))
      then (symbol_item (String c (String d "")), drop_nul s')
      else (symbol_item (String c ""), drop_nul s)
  | EmptyString => (symbol_item (String c ""), "")
  end.

Fixpoint lex_str (s : string) : ScannedItem * string :=
  match s with
  | EmptyString => (mkItem EndOfStringToken "", "")
  | String c s' =>
      if isWhitespace c then lex_str s'
      else if decide (c = NUL) then (mkItem EndOfStringToken "", s')
      else if isSpecialSymbol c then span_symbol c s'
      else let '(w, r) := span_id s in (word_item w, r)
  end.

(** ** The lexer agrees with it *)

Lemma str_drop_get n s : String.get n s = first_char (str_drop n s).
Proof. revert n. induction s as [|c s IH]; intros [|n]; simpl; auto. Qed.

Lemma str_drop_S n s c t : str_drop n s = String c t → str_drop (n + 1) s = t.
Proof.
  revert n. induction s as [|d s IH]; intros [|n]; simpl; try done.
  - by intros [= -> ->].
  - apply IH.
Qed.

Lemma read_empty l : rest l = "" → read l = (NUL, l).
Proof. unfold rest, read. rewrite str_drop_get. by intros ->. Qed.

Lemma read_String l c t :
  rest l = String c t →
  ∃ l', read l = (c, l') ∧ rest l' = t ∧ lx_s l' = lx_s l ∧ unread l' = l.
Proof.
  unfold rest, read. rewrite str_drop_get. intros Hr. rewrite Hr. simpl. eexists.
  split; [done|]. simpl. split_and!; [by eapply str_drop_S|done|].
  unfold unread. simpl. rewrite Nat.add_sub. by destruct l.
Qed.

Lemma app_cons_assoc b c w : (b +:+ String c "") +:+ w = b +:+ String c w.
Proof.
  induction b as [|d b IH]; [done|].
  change (String d ((b +:+ String c "") +:+ w) = String d (b +:+ String c w)). by f_equal.
Qed.

Lemma id_loop_spec fuel : ∀ buffer l,
  String.length (rest l) < fuel →
  ∃ l', id_loop fuel buffer l = (buffer +:+ (span_id (rest l)).1, l') ∧
        rest l' = (span_id (rest l)).2 ∧ lx_s l' = lx_s l.
Proof.
  induction fuel as [|fuel IH]; intros buffer l Hf; [lia|]. simpl.
  destruct (rest l) as [|c t] eqn:Hr; simpl.
  - rewrite read_empty by done. rewrite decide_True by done. exists l.
    by rewrite app_empty_r_str.
  - destruct (read_String l c t Hr) as (l1 & -> & Hl1 & Hs1 & Hu).
    destruct (decide (c = NUL)) as [->|Hc].
    { exists l1. by rewrite app_empty_r_str. }
    unfold stops. destruct (isSpecialSymbol c || isWhitespace c).
    { exists l. simpl. by rewrite app_empty_r_str, Hu. }
    destruct (IH (buffer +:+ String c "") l1) as (l2 & -> & Hl2 & Hs2).
    { rewrite Hl1. simpl in Hf. lia. }
    rewrite Hl1 in *. destruct (span_id t) as [w r]. simpl in *.
    exists l2. rewrite app_cons_assoc. split_and!; congruence.
Qed.

(** *** Symbols *)

Lemma table_lookup_elem table s t : table_lookup table s = Some t → (s, t) ∈ table.
Proof.
  induction table as [|[k v] table IH]; simpl; [done|].
  case_decide; [intros [= <-]; subst; by left|]. intros. right. auto.
Qed.

Lemma string2token_length s t :
  string2token s = Some t → String.length s = 1 ∨ String.length s = 2 ∨ String.length s = 5.
Proof.
  intros H%table_lookup_elem. unfold string2token_table in H.
  repeat (apply elem_of_cons in H as [[= -> ->]|H]; [simpl; auto|]). by apply elem_of_nil in H.
Qed.

Lemma special_token c :
  isSpecialSymbol c = true →
  ∃ t, string2token (String c "") = Some t ∧ t ≠ ErrorToken ∧ t ≠ EndOfStringToken ∧
       t ≠ IdentifierToken.
Proof.
  unfold isSpecialSymbol. intros H%bool_decide_eq_true.
  repeat (apply elem_of_cons in H as [->|H]; [by eexists|]). by apply elem_of_nil in H.
Qed.

Lemma string2token_proper s t :
  string2token s = Some t → t ≠ ErrorToken ∧ t ≠ EndOfStringToken ∧ t ≠ IdentifierToken.
Proof.
  intros H%table_lookup_elem. unfold string2token_table in H.
  repeat (apply elem_of_cons in H as [[= -> ->]|H]; [done|]). by apply elem_of_nil in H.
Qed.

(** The end of the loop of [scanSpecialSymbol]: no longer buffer is a token. *)
Lemma symbol_loop_end fuel buffer item l :
  0 < fuel → tok item ≠ ErrorToken →
  (∀ c t, rest l = String c t → isSpecialSymbol c = true →
     string2token (buffer +:+ String c "") = None) →
  ∃ b l', symbol_loop fuel buffer item l = (b, item, l') ∧
          rest l' = drop_nul (rest l) ∧ lx_s l' = lx_s l.
Proof.
  intros Hf Hi Hn. destruct fuel as [|fuel]; [lia|]. simpl.
  destruct (rest l) as [|c t] eqn:Hr; simpl.
  - rewrite read_empty, decide_True by done. by eexists _, l.
  - destruct (read_String l c t Hr) as (l1 & -> & Hl1 & Hs1 & Hu).
    destruct (decide (c = NUL)) as [->|Hc]; [by eexists _, l1|].
    destruct (isSpecialSymbol c) eqn:Hsp.
    + rewrite (Hn c t) by done. rewrite decide_True by done. eexists _, l. by rewrite Hu.
    + eexists _, l. by rewrite Hu.
Qed.

Lemma special_not_nul c : isSpecialSymbol c = true → c ≠ NUL.
Proof. by intros Hc ->. Qed.

Lemma rest_length l : String.length (rest l) ≤ String.length (lx_s l).
Proof.
  unfold rest. generalize (lx_pos l) as n. induction (lx_s l) as [|c s IH]; intros [|n]; simpl; auto.
Qed.

(** One turn of the loop that extends the token. *)
Lemma symbol_loop_token fuel buffer item l c t tk :
  rest l = String c t → isSpecialSymbol c = true →
  string2token (buffer +:+ String c "") = Some tk →
  ∃ l1, rest l1 = t ∧ lx_s l1 = lx_s l ∧
    symbol_loop (S fuel) buffer item l =
    symbol_loop fuel (buffer +:+ String c "") (mkItem tk (buffer +:+ String c "")) l1.
Proof.
  intros Hr Hc Htk. destruct (read_String l c t Hr) as (l1 & Hrd & Hl1 & Hs1 & _).
  exists l1. split_and!; [done..|]. simpl. rewrite Hrd.
  rewrite decide_False by (by apply special_not_nul). by rewrite Hc, Htk.
Qed.

Lemma scanSpecialSymbol_spec l c t :
  rest l = String c t → isSpecialSymbol c = true →
  ∃ l', scanSpecialSymbol l = ((span_symbol c t).1, l') ∧
        rest l' = (span_symbol c t).2 ∧ lx_s l' = lx_s l.
Proof.
  intros Hr Hc. unfold scanSpecialSymbol. pose proof (rest_length l) as Hlen. rewrite Hr in Hlen.
  destruct (special_token c Hc) as (tk & Htk & Hne & _).
  destruct (symbol_loop_token (String.length (lx_s l)) "" (mkItem ErrorToken "") l c t tk Hr Hc Htk)
    as (l1 & Hl1 & Hs1 & ->).
  change ("" +:+ String c "") with (String c ""). simpl in Hlen.
  destruct (match t with
            | String d _ => isSpecialSymbol d
                && bool_decide (is_Some (string2token (String c (String d ""))))
            | EmptyString => false end) eqn:H2.
  - destruct t as [|d t]; [done|]. pose proof H2 as [Hd [tk2 Htk2]%bool_decide_eq_true]%andb_true_iff.
    destruct (String.length (lx_s l)) as [|n] eqn:En; [lia|].
    destruct (symbol_loop_token n (String c "") (mkItem tk (String c "")) l1 d t tk2 Hl1 Hd Htk2)
      as (l2 & Hl2 & Hs2 & ->).
    change (String c "" +:+ String d "") with (String c (String d "")).
    pose proof (string2token_proper _ _ Htk2) as [Hne2 _].
    destruct (symbol_loop_end n (String c (String d "")) (mkItem tk2 (String c (String d ""))) l2)
      as (b & l3 & -> & Hl3 & Hs3); [simpl in Hlen; lia|done|..].
    { intros e u _ _. destruct (string2token (String c (String d "") +:+ String e "")) eqn:E; [|done].
      apply string2token_length in E.
      change (String.length (String c (String d "") +:+ String e "")) with 3 in E. lia. }
    simpl. rewrite decide_False, H2 by done. exists l3. unfold symbol_item. rewrite Htk2.
    split_and!; [done|by rewrite Hl3, Hl2|congruence].
  - destruct (symbol_loop_end (String.length (lx_s l)) (String c "") (mkItem tk (String c "")) l1)
      as (b & l3 & -> & Hl3 & Hs3); [lia|done|..].
    { intros d u Hd Hsp. rewrite Hl1 in Hd. rewrite Hd, Hsp in H2. simpl in H2.
      apply bool_decide_eq_false in H2. by apply eq_None_not_Some. }
    simpl. rewrite decide_False by done. exists l3.
    destruct t as [|d t]; simpl; [|rewrite H2]; unfold symbol_item; rewrite Htk;
      (split_and!; [done|by rewrite Hl3, Hl1|congruence]).
Qed.

(** *** [Lex] *)

Lemma NUL_not_white : isWhitespace NUL = false.
Proof. done. Qed.

(** After the first character [ch] has been read, skipping stops on the character at
    which [lex_str] goes on. *)
Fixpoint skip_str (s : string) : string :=
  match s with
  | String c s' => if isWhitespace c then skip_str s' else s
  | EmptyString => ""
  end.

Lemma skip_loop_spec fuel : ∀ l c l1,
  String.length (rest l) < fuel → read l = (c, l1) → lx_s l1 = lx_s l →
  (rest l = "" → l1 = l) → (∀ t, rest l = String c t → rest l1 = t ∧ unread l1 = l) →
  ∃ l', skip_loop fuel c l1 = (match skip_str (rest l) with "" => NUL | String d _ => d end, l') ∧
    lx_s l' = lx_s l ∧
    match skip_str (rest l) with
    | "" => rest l' = ""
    | String d t => rest l' = t ∧ rest (unread l') = String d t ∧ lx_s (unread l') = lx_s l
    end.
Proof.
  induction fuel as [|fuel IH]; intros l c l1 Hf Hrd Hs He Hn; [lia|]. simpl.
  destruct (rest l) as [|c' t] eqn:Hr.
  - rewrite read_empty in Hrd by done. simplify_eq.
    simpl. by eexists.
  - destruct (read_String l c' t Hr) as (l2 & Hrd2 & Hl2 & Hs2 & Hu2).
    rewrite Hrd in Hrd2. injection Hrd2 as -> ->. simpl. destruct (isWhitespace c') eqn:Hw; simpl.
    + rewrite <-Hl2, <-Hs. simpl in Hf. destruct t as [|d u].
      * rewrite (read_empty l2) by done.
        apply IH; [rewrite Hl2; simpl; lia|by apply read_empty|done..|].
        intros t. by rewrite Hl2.
      * destruct (read_String l2 d u Hl2) as (l3 & Hrd3 & Hl3 & Hs3 & Hu3). rewrite Hrd3.
        apply IH; [rewrite Hl2; lia|done..|intros; congruence|].
        intros t'. rewrite Hl2. by intros [= ->].
    + exists l2. split; [done|]. split; [done|]. by rewrite Hu2.
Qed.

Lemma lex_str_skip s : lex_str (skip_str s) = lex_str s.
Proof.
  induction s as [|c s IH]; simpl; [done|]. destruct (isWhitespace c) eqn:Hw; [done|].
  simpl. by rewrite Hw.
Qed.

Lemma Lex_spec l :
  ∃ l', Lex l = ((lex_str (rest l)).1, l') ∧ rest l' = (lex_str (rest l)).2 ∧ lx_s l' = lx_s l.
Proof.
  unfold Lex, skipWhiteSpaces. destruct (read l) as [c l1] eqn:Hrd.
  pose proof (rest_length l) as Hlen.
  assert (lx_s l1 = lx_s l ∧ (rest l = "" → l1 = l) ∧
    (∀ t, rest l = String c t → rest l1 = t ∧ unread l1 = l)) as (Hs1 & He & Hn).
  { destruct (rest l) as [|c' t] eqn:Hr.
    - rewrite read_empty in Hrd by done. by simplify_eq.
    - destruct (read_String l c' t Hr) as (l2 & Hrd2 & ? & ? & ?).
      rewrite Hrd in Hrd2. injection Hrd2 as -> ->.
      split; [done|]. split; [done|]. by intros t' [= ->]. }
  destruct (skip_loop_spec (S (S (String.length (lx_s l1)))) l c l1) as (l' & -> & Hs' & Hl');
    [rewrite Hs1; lia|done..|].
  rewrite <-(lex_str_skip (rest l)).
  destruct (skip_str (rest l)) as [|d t] eqn:Hsk.
  - rewrite decide_True by done. by exists l'.
  - destruct Hl' as (Hr' & Hru & Hsu).
    assert (isWhitespace d = false) as Hw.
    { revert Hsk. clear. induction (rest l) as [|c s IH]; simpl; [done|].
      destruct (isWhitespace c) eqn:E; [done|]. by intros [= <- _]. }
    simpl. rewrite Hw. destruct (decide (d = NUL)) as [->|Hd]; [by exists l'|].
    destruct (isSpecialSymbol d) eqn:Hsp.
    + destruct (scanSpecialSymbol_spec (unread l') d t) as (l3 & -> & Hl3 & Hs3); [done..|].
      exists l3. split_and!; [done..|congruence].
    + unfold scanIdOrKeyword.
      destruct (id_loop_spec (S (String.length (lx_s (unread l')))) "" (unread l'))
        as (l3 & -> & Hl3 & Hs3).
      { pose proof (rest_length (unread l')). lia. }
      rewrite Hru in *. simpl in *. rewrite decide_False in * by done. unfold stops in *.
      rewrite Hsp, Hw in *. simpl in *. destruct (span_id t) as [w r]. simpl in *.
      change ("" +:+ String d w) with (String d w). unfold word_item.
      exists l3. destruct (string2token (String d w)); (split_and!; [done..|congruence]).
Qed.

(** ** Scanning ends *)

Lemma span_id_length s : String.length (span_id s).2 ≤ String.length s.
Proof.
  induction s as [|c s IH]; simpl; [done|]. case_decide; simpl; [lia|].
  destruct (stops c); simpl; [lia|]. destruct (span_id s). simpl in *. lia.
Qed.

Lemma drop_nul_length s : String.length (drop_nul s) ≤ String.length s.
Proof. destruct s as [|c s]; simpl; [done|]. case_decide; simpl; lia. Qed.

Lemma span_symbol_spec c s :
  isSpecialSymbol c = true →
  String.length (span_symbol c s).2 ≤ String.length s ∧
  tok (span_symbol c s).1 ≠ ErrorToken ∧ tok (span_symbol c s).1 ≠ EndOfStringToken.
Proof.
  intros Hc. destruct (special_token c Hc) as (t & Ht & Hne & Hne' & _).
  destruct s as [|d s]; simpl; [by rewrite Ht|].
  destruct (isSpecialSymbol d && _) eqn:E; simpl.
  - apply andb_true_iff in E as [_ [t2 Ht2]%bool_decide_eq_true].
    rewrite Ht2. pose proof (drop_nul_length s).
    destruct (string2token_proper _ _ Ht2) as (? & ? & _). split_and!; [lia|done..].
  - rewrite Ht. split_and!; [|done..].
    case_decide; simpl; lia.
Qed.

Lemma word_item_tok w : tok (word_item w) ≠ ErrorToken ∧ tok (word_item w) ≠ EndOfStringToken.
Proof.
  unfold word_item. cbn [tok]. destruct (string2token w) as [t|] eqn:E; [|done].
  by destruct (string2token_proper _ _ E) as (? & ? & _).
Qed.

Lemma lex_str_spec s :
  tok (lex_str s).1 ≠ ErrorToken ∧
  (tok (lex_str s).1 ≠ EndOfStringToken → String.length (lex_str s).2 < String.length s).
Proof.
  induction s as [|c s IH]; [done|]. simpl. destruct (isWhitespace c) eqn:Hw.
  { destruct IH as [? Hl]. split; [done|]. intros ?%Hl. lia. }
  destruct (decide (c = NUL)); [done|]. destruct (isSpecialSymbol c) eqn:Hsp.
  - destruct (span_symbol_spec c s Hsp) as (? & ? & ?). split; [done|lia].
  - unfold stops. rewrite Hsp, Hw. simpl. pose proof (span_id_length s).
    destruct (span_id s) as [w r]. simpl in *.
    destruct (word_item_tok (String c w)). split; [done|lia].
Qed.

(** A scanned list: its last item, and no other, is the end of the string. *)
Definition scanned (items : list ScannedItem) : Prop :=
  ∃ its e, items = its ++ [e] ∧ tok e = EndOfStringToken ∧
    Forall (λ i, tok i ≠ EndOfStringToken) its ∧ Forall (λ i, tok i ≠ ErrorToken) items.

Lemma scan_loop_spec fuel : ∀ acc l,
  String.length (rest l) < fuel →
  ∃ items, scan_loop fuel acc l = Some (acc ++ items) ∧ scanned items.
Proof.
  induction fuel as [|fuel IH]; intros acc l Hf; [lia|]. simpl.
  destruct (Lex_spec l) as (l' & -> & Hl' & _). destruct (lex_str_spec (rest l)) as [He Hlt].
  destruct (lex_str (rest l)) as [item r]. simpl in *.
  destruct (decide (tok item = EndOfStringToken)) as [Heos|Hne].
  - exists [item]. split; [done|]. exists [], item. split_and!; [done..|].
    by apply Forall_singleton.
  - destruct (IH (acc ++ [item]) l') as (items & -> & its & e & -> & ? & ? & ?).
    { rewrite Hl'. specialize (Hlt Hne). lia. }
    exists (item :: its ++ [e]). split; [by rewrite <-(assoc_L (++))|].
    exists (item :: its), e. split_and!; [done..| |]; by constructor.
Qed.

Lemma scan_spec s : ∃ items, scan s = Some items ∧ scanned items.
Proof.
  unfold scan. destruct (scan_loop_spec (S (String.length s)) [] (mkLexer s 0)) as (items & H & ?).
  - unfold rest. simpl. lia.
  - by exists items.
Qed.

(** ** Parsing ends without a panic *)

Section parsing_total.
Context (items : list ScannedItem) (Hscanned : scanned items).

(** From position [pos], [m] does not panic and on success moves forward by at least
    [k] items and stays in them. *)
Definition safe {A} (k pos : nat) (m : parsing A) : Prop :=
  ∃ r p, m (mkParser items pos) = Ret (r, p) ∧ scannedItems p = items ∧
    match r with
    | Ok _ => pos + k ≤ position p < length items
    | Err _ => True
    end.

Lemma safe_ret {A} pos (a : A) : pos < length items → safe 0 pos (p_ret a).
Proof. intros Hpos. eexists _, _. split; [done|]. simpl. split; [done|lia]. Qed.

Lemma safe_err {A} k pos e : safe k pos (@p_err A e).
Proof. by eexists _, _. Qed.

Lemma safe_lift {A} pos (r : result sel_error A) : pos < length items → safe 0 pos (p_lift r).
Proof.
  intros Hpos. eexists _, _. split; [done|]. split; [done|]. destruct r; simpl; [lia|done].
Qed.

Lemma safe_weaken {A} k k' pos (m : parsing A) : safe k pos m → k' ≤ k → safe k' pos m.
Proof.
  intros (r & p & Hm & Hp & Hr) Hk.
  exists r, p. split; [done|]. split; [done|]. destruct r; [lia|done].
Qed.

Lemma safe_ext {A} k pos (m m' : parsing A) : (∀ p, m p = m' p) → safe k pos m → safe k pos m'.
Proof. intros Heq Hm. unfold safe. by rewrite <-Heq. Qed.

Lemma safe_bind {A B} k1 k2 pos (m : parsing A) (f : A → parsing B) :
  safe k1 pos m →
  (∀ a pos', pos + k1 ≤ pos' → pos' < length items → safe k2 pos' (f a)) →
  safe (k1 + k2) pos (x <- m;; f x).
Proof.
  intros (r & [its p] & Hm & Hp & Hr) Hf. unfold safe, p_bind. rewrite Hm.
  simpl in *. subst its. destruct r as [a|e]; [|by eexists _, _].
  destruct (Hf a p) as (r' & p' & -> & Hp' & Hr'); [lia..|].
  eexists _, _. split; [done|]. split; [done|]. destruct r'; [lia|done].
Qed.

Lemma p_bind_assoc {A B C} (m : parsing A) (f : A → parsing B) (g : B → parsing C) p :
  p_bind (p_bind m f) g p = p_bind m (λ x, p_bind (f x) g) p.
Proof. unfold p_bind. destruct (m p) as [[[a|e] p']|msg]; done. Qed.

Lemma lookup_item pos : pos < length items → ∃ i, items !! pos = Some i.
Proof. intros Hpos. by apply lookup_lt_is_Some_2. Qed.

(** An item that is not the end of the string has a successor. *)
Lemma item_has_next pos i :
  items !! pos = Some i → tok i ≠ EndOfStringToken → pos + 1 < length items.
Proof.
  destruct Hscanned as (its & e & -> & He & _ & _). intros Hi Hne.
  rewrite length_app. simpl. apply lookup_app_Some in Hi as [Hi%lookup_lt_Some|[Hle Hi]]; [lia|].
  destruct (pos - length its); simplify_eq/=.
Qed.

Lemma in_context_eos c i : (in_context c i).1 = EndOfStringToken ↔ tok i = EndOfStringToken.
Proof. unfold in_context. destruct c, (tok i); done. Qed.

Lemma safe_lookahead {B} k c pos (f : Token * string → parsing B) :
  pos < length items →
  (∀ i, items !! pos = Some i → safe k pos (f (in_context c i))) →
  safe k pos (x <- lookahead c;; f x).
Proof.
  intros Hpos Hf. unfold safe, p_bind, lookahead. simpl.
  destruct (lookup_item pos Hpos) as [i Hi]. rewrite Hi. by apply Hf.
Qed.

(** Consuming a token known not to be the end of the string. *)
Lemma safe_consume_known {B} k c pos i (f : Token * string → parsing B) :
  items !! pos = Some i → tok i ≠ EndOfStringToken →
  (pos + 1 < length items → safe k (pos + 1) (f (in_context c i))) →
  safe (1 + k) pos (x <- consume c;; f x).
Proof.
  intros Hi Hne Hf. pose proof (item_has_next pos i Hi Hne) as Hlt.
  unfold safe, p_bind, consume. simpl. rewrite Hi.
  destruct (Hf Hlt) as (r & p & -> & Hp & Hr).
  eexists _, _. split; [done|]. split; [done|]. destruct r; [lia|done].
Qed.

(** Consuming a token, when the end of the string leads to an error. *)
Lemma safe_consume {B} k c pos (f : Token * string → parsing B) :
  pos < length items →
  (∀ a, pos + 1 < length items → safe k (pos + 1) (f a)) →
  (∀ lit p, ∃ e, f (EndOfStringToken, lit) p = Ret (Err e, p)) →
  safe (1 + k) pos (x <- consume c;; f x).
Proof.
  intros Hpos Hf He. unfold safe, p_bind, consume. simpl.
  destruct (lookup_item pos Hpos) as [i Hi]. rewrite Hi.
  destruct (decide (tok i = EndOfStringToken)) as [Heos|Hne].
  - assert (in_context c i = (EndOfStringToken, literal i)) as ->.
    { unfold in_context. rewrite Heos. by destruct c. }
    destruct (He (literal i) (mkParser items (pos + 1))) as [e ->].
    by eexists _, _.
  - pose proof (safe_consume_known k c pos i f Hi Hne (Hf _)) as Hk.
    unfold safe, p_bind, consume in Hk. simpl in Hk. by rewrite Hi in Hk.
Qed.

Hint Resolve safe_ret safe_err safe_lift : k8s.

Lemma parseKey_tail_safe op t lit pos :
  pos < length items →
  safe 0 pos
    (if decide (t ≠ IdentifierToken) then p_err (Found lit "identifier")
     else
       _ <- p_lift (label_ok (validateLabelKey lit));;
       '(t, _) <- lookahead Values;;
       if decide (t = EndOfStringToken ∨ t = CommaToken)
       then p_ret (lit, if decide (op ≠ OpDoesNotExist) then OpExists else op)
       else p_ret (lit, op)).
Proof.
  intros Hpos. case_decide; [auto with k8s|].
  apply (safe_bind 0 0); [auto with k8s|]. intros _ pos' _ Hpos'.
  apply safe_lookahead; [done|]. intros i Hi. destruct (in_context Values i) as [t' lit'].
  case_decide; auto with k8s.
Qed.

Lemma parseKeyAndInferOperator_safe pos :
  pos < length items → safe 1 pos parseKeyAndInferOperator.
Proof.
  intros Hpos. apply (safe_consume 0); [done| |by intros; eexists]. intros [t lit] Hpos1.
  case_decide.
  - eapply safe_ext; [intros p; symmetry; apply p_bind_assoc|].
    eapply (safe_weaken 1); [|lia]. apply (safe_consume 0); [done| |by intros; eexists].
    intros [t' lit'] Hpos2. apply (safe_bind 0 0); [auto with k8s|].
    intros [[op t''] lit''] pos' _ Hpos'. by apply parseKey_tail_safe.
  - apply (safe_bind 0 0); [auto with k8s|].
    intros [[op t''] lit''] pos' _ Hpos'. by apply parseKey_tail_safe.
Qed.

Lemma parseOperator_safe pos : pos < length items → safe 1 pos parseOperator.
Proof.
  intros Hpos. apply (safe_consume 0); [done| |by intros; eexists].
  intros [t lit] Hpos1. destruct t; auto with k8s.
Qed.

Lemma parseExactValue_safe pos : pos < length items → safe 0 pos parseExactValue.
Proof.
  intros Hpos. apply safe_lookahead; [done|]. intros i Hi.
  destruct (in_context Values i) as [t lit]. case_decide; [auto with k8s|].
  apply (safe_weaken 1); [|lia]. apply (safe_consume 0); [done| |by intros; eexists].
  intros [t' lit'] Hpos'. case_decide; auto with k8s.
Qed.

(** The loop has at most as many turns as there are items left. *)
Lemma identifiers_loop_safe fuel : ∀ s pos,
  pos < length items → length items - pos < fuel → safe 0 pos (identifiers_loop fuel s).
Proof.
  induction fuel as [|fuel IH]; intros s pos Hpos Hf; [lia|]. simpl.
  apply (safe_weaken 1); [|lia]. apply (safe_consume 0); [done| |by intros; eexists].
  intros [t lit] Hpos1. destruct t; auto with k8s.
  - apply safe_lookahead; [done|]. intros i Hi. destruct (in_context Values i) as [t2 lit2] eqn:Hc.
    case_decide; [auto with k8s|]. case_decide; [|apply IH; lia]. subst t2.
    apply (safe_weaken 1); [|lia]. apply (safe_consume_known 0 _ _ i); [done| |intros; apply IH; lia].
    by rewrite <-(in_context_eos Values), Hc.
  - apply safe_lookahead; [done|]. intros i Hi. destruct (in_context Values i) as [t2 lit2].
    destruct t2; auto with k8s. apply IH; lia.
Qed.

Lemma parseValues_safe pos : pos < length items → safe 0 pos parseValues.
Proof.
  intros Hpos. apply (safe_weaken 1); [|lia].
  apply (safe_consume 0); [done| |by intros; eexists]. intros [t lit] Hpos1.
  case_decide; [auto with k8s|]. apply safe_lookahead; [done|]. intros i Hi.
  destruct (in_context Values i) as [t' lit'] eqn:Hc.
  assert (safe 0 (pos + 1)
    (s <- parseIdentifiersList;;
     '(t, _) <- consume Values;;
     if decide (t ≠ ClosedParToken) then p_err (Found lit' "')'") else p_ret s)) as Hlist.
  { apply (safe_bind 0 0).
    - apply (identifiers_loop_safe (S (length items)) ∅ (pos + 1)); [done|lia].
    - intros s pos' _ Hpos'. apply (safe_weaken 1); [|lia].
      apply (safe_consume 0); [done| |by intros; eexists].
      intros [t2 lit2] Hpos2. case_decide; auto with k8s. }
  destruct t'; auto with k8s.
  apply (safe_weaken 1); [|lia]. apply (safe_consume_known 0 _ _ i); [done| |auto with k8s].
  by rewrite <-(in_context_eos Values), Hc.
Qed.

Lemma parseRequirement_safe pos : pos < length items → safe 1 pos parseRequirement.
Proof.
  intros Hpos. apply (safe_bind 1 0); [by apply parseKeyAndInferOperator_safe|].
  intros [key op] pos1 _ Hpos1. case_decide; [auto with k8s|].
  apply (safe_weaken 1); [|lia]. apply (safe_bind 1 0); [by apply parseOperator_safe|].
  intros op' pos2 _ Hpos2. apply (safe_bind 0 0); [|auto with k8s].
  destruct op'; auto using parseValues_safe, parseExactValue_safe with k8s.
Qed.

Lemma parse_loop_total fuel : ∀ reqs pos,
  pos < length items → length items - pos < fuel →
  ∃ r p, parse_loop fuel reqs (mkParser items pos) = Ret (r, p).
Proof.
  induction fuel as [|fuel IH]; intros reqs pos Hpos Hf; [lia|]. simpl.
  unfold p_bind at 1, lookahead. simpl. destruct (lookup_item pos Hpos) as [i Hi]. rewrite Hi.
  destruct (in_context Values i) as [t lit] eqn:Hc.
  assert (∃ r p,
    (r <- wrap_unable parseRequirement;;
     '(t, l) <- consume Values;;
     match t with
     | EndOfStringToken => p_ret (reqs ++ [r])
     | CommaToken =>
         '(t2, l2) <- lookahead Values;;
         if decide (t2 ≠ IdentifierToken ∧ t2 ≠ DoesNotExistToken)
         then p_err (Found l2 "identifier after ','")
         else parse_loop fuel (reqs ++ [r])
     | _ => p_err (Found l "',' or 'end of string'")
     end) (mkParser items pos) = Ret (r, p)) as Hreq.
  { unfold p_bind at 1, wrap_unable.
    destruct (parseRequirement_safe pos Hpos) as (r & [its p] & -> & Hp & Hr). simpl in Hp. subst its.
    destruct r as [r|e]; [|by eexists _, _]. simpl in Hr.
    unfold p_bind at 1, consume. simpl. destruct (lookup_item p) as [j Hj]; [lia|]. rewrite Hj.
    destruct (in_context Values j) as [t' l'] eqn:Hc'.
    destruct t'; try (by eexists _, _).
    assert (p + 1 < length items) as Hp1.
    { apply (item_has_next p j Hj). by rewrite <-(in_context_eos Values), Hc'. }
    unfold p_bind at 1, lookahead. simpl. destruct (lookup_item (p + 1) Hp1) as [j2 Hj2].
    rewrite Hj2. destruct (in_context Values j2) as [t2 l2].
    destruct (decide (t2 ≠ IdentifierToken ∧ t2 ≠ DoesNotExistToken)); [by eexists _, _|].
    apply IH; lia. }
  destruct t; try done; by eexists _, _.
Qed.
End parsing_total.

Lemma Parser_parse_total s : ∃ r, Parser_parse s = Ret r.
Proof.
  unfold Parser_parse. destruct (scan_spec s) as (items & -> & Hs).
  destruct (parse_loop_total items Hs (S (length items)) [] 0) as (r & p & ->);
    [|lia|by eexists].
  destruct Hs as (its & e & -> & _). rewrite length_app. simpl. lia.
Qed.

(** ** Matching *)

Lemma matches_loop_spec `{Labels L} reqs (l : L) :
  matches_loop reqs l = true ↔ Forall (λ r, Requirement_Matches r l = true) reqs.
Proof.
  induction reqs as [|r reqs IH]; simpl; [split; [constructor|done]|].
  rewrite Forall_cons, <-IH. destruct (Requirement_Matches r l); naive_solver.
Qed.

Lemma hasValue_spec v vs : hasValue v vs = true ↔ v ∈ vs.
Proof.
  induction vs as [|w vs IH]; simpl; [set_solver|]. case_decide; set_solver.
Qed.

Lemma equals_matches k v (l : Set_) :
  Requirement_Matches (mkRequirement k OpEquals [v]) l = true ↔ l !! k = Some v.
Proof.
  unfold Requirement_Matches. simpl. destruct (l !! k) as [w|] eqn:E; simpl; [|done].
  case_decide; naive_solver.
Qed.

Lemma NewRequirement_single k v r :
  NewRequirement k OpEquals [v] = Ok r → r = mkRequirement k OpEquals [v].
Proof.
  unfold NewRequirement. destruct (label_ok (validateLabelKey k)); [|done]. simpl.
  destruct (label_ok (validateLabelValue v)); [|done]. simpl. by intros [= <-].
Qed.

(** The label makes [SelectorFromSet] give up. *)
Definition label_rejected (k v : string) : bool :=
  match NewRequirement k OpEquals [v] with Ok _ => false | Err _ => true end.

Lemma selector_from_loop_spec ls : ∀ acc,
  selector_from_loop ls acc =
  if existsb (λ kv, label_rejected kv.1 kv.2) ls then None
  else Some (acc ++ ((λ kv, mkRequirement kv.1 OpEquals [kv.2]) <$> ls)).
Proof.
  induction ls as [|[k v] ls IH]; intros acc; simpl; [by rewrite app_nil_r|].
  unfold label_rejected at 1. simpl. destruct (NewRequirement k OpEquals [v]) as [r|] eqn:E; simpl.
  - apply NewRequirement_single in E as ->. rewrite IH. case_match; [done|].
    by rewrite <-(assoc_L (++)).
  - done.
Qed.

Lemma equals_selector_matches `{!MapRange, !SortSort} (ls l : Set_) :
  matches_loop (sort_Sort ByKey ((λ kv, mkRequirement kv.1 OpEquals [kv.2]) <$> map_range ls)) l
    = true ↔ ls ⊆ l.
Proof.
  rewrite matches_loop_spec, sort_Sort_perm, Forall_fmap, Forall_forall, map_subseteq_spec.
  split.
  - intros Hall k v Hk. apply (equals_matches k v), (Hall (k, v)). by apply elem_of_map_range.
  - intros Hsub [k v] Hin. apply equals_matches, Hsub. by apply elem_of_map_range.
Qed.

(** ** Theorems *)

(**  Lexing any input ends with the end of the string as its last and only such
    token and never yields the error token; parsing any input ends with a selector or
    an error, and never indexes past the scanned items. *)
Theorem parse_total `{!SortSort} (s : string) :
  (∃ items, scan s = Some items ∧ scanned items) ∧ (∃ r, Parse s = Ret r).
Proof.
  split; [apply scan_spec|]. unfold Parse, parse.
  destruct (Parser_parse_total s) as [r ->]. simpl. by eexists.
Qed.

Lemma SelectorFromSet_matches `{!MapRange, !SortSort} (ls l : Set_) :
  Selector_Matches (SelectorFromSet ls) l = true ↔
  ls ⊆ l ∨ ∃ k v, ls !! k = Some v ∧ label_rejected k v = true.
Proof.
  unfold SelectorFromSet. rewrite selector_from_loop_spec.
  destruct (existsb _ _) eqn:E; simpl.
  - split; [|done]. intros _. right. apply existsb_exists in E as ([k v] & Hin & Hr).
    exists k, v. split; [|done]. by apply elem_of_map_range, list_elem_of_In.
  - rewrite equals_selector_matches. split; [auto|]. intros [?|(k & v & Hk & Hr)]; [done|].
    apply not_true_iff_false in E. destruct E. apply existsb_exists. exists (k, v).
    split; [|done]. by apply list_elem_of_In, elem_of_map_range.
Qed.

Lemma Selector_Add_matches `{!SortSort} (l : Set_) sel reqs :
  Selector_Matches (Selector_Add reqs sel) l = true ↔
  Selector_Matches sel l = true ∧
  (sel ≠ nothingSelector → Forall (λ r, Requirement_Matches r l = true) reqs).
Proof.
  destruct sel as [lsel|]; simpl; [|naive_solver].
  rewrite !matches_loop_spec, sort_Sort_perm, Forall_app. naive_solver.
Qed.

(**  The selector made from a set of labels matches exactly the sets that contain
    it, or every set if one of the labels is rejected; the one made without
    validation always matches the sets that contain it; and adding requirements adds
    them to the conjunction. *)
Theorem selector_matching `{!MapRange, !SortSort} (ls l : Set_) sel reqs :
  (Selector_Matches (SelectorFromSet ls) l = true ↔
     ls ⊆ l ∨ ∃ k v, ls !! k = Some v ∧ label_rejected k v = true) ∧
  (Selector_Matches (SelectorFromValidatedSet ls) l = true ↔ ls ⊆ l) ∧
  (Selector_Matches (Selector_Add reqs sel) l = true ↔
     Selector_Matches sel l = true ∧
     (sel ≠ nothingSelector → Forall (λ r, Requirement_Matches r l = true) reqs)).
Proof.
  split_and!; [apply SelectorFromSet_matches|apply equals_selector_matches|apply Selector_Add_matches].
Qed.
