(* ===== verification/SelectorText.v ===== *)
(** * Reading back the text of a selector (pkg/labels/selector.go)

    The round trip between [Selector_String] and [Parse]: the tokens of a printed
    requirement, the lexer on the printed text and the parser on the tokens. *)

From S2P Require Import Prelude Validation Labels Selector.

(** ** Valid selectors *)

(** A requirement as [NewRequirement] makes it, without repeated values. *)
Definition valid_requirement (r : Requirement) : Prop :=
  NewRequirement (r_key r) (r_operator r) (r_strValues r) = Ok r ∧ NoDup (r_strValues r).

(** Requirements on distinct keys, in the order of the keys. *)
Definition valid_selector (reqs : list Requirement) : Prop :=
  Forall valid_requirement reqs ∧ NoDup (r_key <$> reqs) ∧ StronglySorted ByKey reqs.

(** ** Characters of valid keys and values *)

(** A character that the lexer keeps inside a word. *)
Definition plain (c : ascii) : bool := negb (bool_decide (c = NUL)) && negb (stops c).

Definition plain_word (s : string) : Prop := all_chars plain s = true.

(** The characters a pattern can match. *)
Fixpoint re_chars (r : regex) : char_class :=
  match r with
  | RVoid | REps => λ _, false
  | RChar cls => cls
  | RSeq r1 r2 | RAlt r1 r2 => λ c, re_chars r1 c || re_chars r2 c
  | RStar r => re_chars r
  end.

Lemma all_chars_mono (f g : char_class) s :
  (∀ c, f c = true → g c = true) → all_chars f s = true → all_chars g s = true.
Proof.
  intros Hfg. induction s as [|c s IH]; simpl; [done|].
  rewrite !andb_true_iff. naive_solver.
Qed.

Lemma re_lang_chars r s : re_lang r s → all_chars (re_chars r) s = true.
Proof.
  induction 1 as [|cls c Hc|r1 r2 s1 s2 _ IH1 _ IH2|r1 r2 s _ IH|r1 r2 s _ IH|r|r s1 s2 _ IH1 _ IH2];
    simpl; [done|by rewrite Hc| | | |done|].
  - rewrite all_chars_app, andb_true_iff. split.
    + eapply all_chars_mono; [|exact IH1]. simpl. by intros c ->.
    + eapply all_chars_mono; [|exact IH2]. simpl. intros c ->. apply orb_true_r.
  - eapply all_chars_mono; [|exact IH]. simpl. by intros c ->.
  - eapply all_chars_mono; [|exact IH]. simpl. intros c ->. apply orb_true_r.
  - rewrite all_chars_app, IH1. exact IH2.
Qed.

Lemma name_chars_plain c : qnameExtChar c = true → plain c = true.
Proof. destruct c as [[] [] [] [] [] [] [] []]; vm_compute; congruence. Qed.

Lemma subdomain_chars_plain c : re_chars dns1123SubdomainRegexp c = true → plain c = true.
Proof. destruct c as [[] [] [] [] [] [] [] []]; vm_compute; congruence. Qed.

Lemma name_shape_plain s : name_shape s → plain_word s.
Proof. intros [Hs _]. eapply all_chars_mono; [exact name_chars_plain|done]. Qed.

Lemma join_split_on sep s : join (String sep "") (split_on sep s) = s.
Proof.
  induction s as [|c s IH]; simpl; [done|].
  pose proof (split_on_nonempty sep s). destruct (split_on sep s) as [|w ws]; [done|].
  case_decide as Hc.
  - subst c. change (String sep (join (String sep "") (w :: ws)) = String sep s). by rewrite IH.
  - destruct ws as [|w' ws]; [simpl in *; congruence|].
    change (String c (join (String sep "") (w :: w' :: ws)) = String c s). by rewrite IH.
Qed.

Lemma valid_key_plain k : IsQualifiedName k = [] → k ≠ "" ∧ plain_word k.
Proof.
  intros (name & Hn & _ & Hk)%IsQualifiedName_spec.
  pose proof (name_shape_plain _ Hn) as Hp. pose proof (name_shape_nonempty _ Hn) as Hne.
  rewrite <-(join_split_on "/" k). destruct Hk as [->|(prefix & -> & Hpre & Hsub)].
  - simpl. split; [by intros ->|done].
  - change (join "/" [prefix; name]) with (prefix +:+ String "/" name). split.
    + by destruct prefix.
    + unfold IsDNS1123Subdomain in Hsub. apply unless_nil in Hsub as [Hm _].
      apply MatchString_lang, re_lang_chars in Hm. unfold plain_word.
      rewrite all_chars_app. simpl. rewrite (all_chars_mono _ _ _ subdomain_chars_plain Hm).
      by rewrite Hp.
Qed.

Lemma valid_value_plain v : IsValidLabelValue v = [] → plain_word v.
Proof. intros [_ [-> |?%name_shape_plain]]%IsValidLabelValue_spec; done. Qed.

Lemma validate_values_plain vs : validate_values vs = Ok () → Forall plain_word vs.
Proof.
  induction vs as [|v vs IH]; simpl; [constructor|].
  unfold validateLabelValue. destruct (IsValidLabelValue v) eqn:E; [|done].
  simpl. constructor; [by apply valid_value_plain|auto].
Qed.

(** ** What validity gives *)

Lemma valid_requirement_inv r :
  valid_requirement r →
  r_key r ≠ "" ∧ plain_word (r_key r) ∧ validateLabelKey (r_key r) = Ok () ∧
  Forall plain_word (r_strValues r) ∧ check_values (r_operator r) (r_strValues r) = Ok () ∧
  merge_sort String.le (r_strValues r) = r_strValues r.
Proof.
  intros [Hr _]. unfold NewRequirement in Hr. destruct r as [key op vs]; simpl in *.
  destruct (validateLabelKey key) as [[]|] eqn:Hk; [|done].
  destruct (check_values op vs) as [[]|] eqn:Hc; [|done].
  destruct (validate_values vs) as [[]|] eqn:Hv; [|done]. simpl in Hr.
  unfold validateLabelKey in Hk. destruct (IsQualifiedName key) eqn:Hq; [|done].
  apply valid_key_plain in Hq as [? ?]. split_and!; try done.
  - by apply validate_values_plain.
  - by injection Hr.
Qed.

Lemma set_List_sorted vs :
  NoDup vs → merge_sort String.le vs = vs → set_List (list_to_set vs) = vs.
Proof.
  intros Hnd Hs. unfold set_List.
  apply (StronglySorted_unique String.le).
  - apply Sorted_StronglySorted; [apply _|]. apply Sorted_merge_sort. apply _.
  - rewrite <-Hs. apply Sorted_StronglySorted; [apply _|]. apply Sorted_merge_sort. apply _.
  - rewrite merge_sort_Permutation. by apply elements_list_to_set.
Qed.

(** ** Lexing the printed text *)

(** The items [scan] finds in a string. *)
Inductive lexes : string → list ScannedItem → Prop :=
  | lexes_end s : tok (lex_str s).1 = EndOfStringToken → lexes s [(lex_str s).1]
  | lexes_cons s its :
      tok (lex_str s).1 ≠ EndOfStringToken → lexes (lex_str s).2 its →
      lexes s ((lex_str s).1 :: its).

Lemma lexes_det s its its' : lexes s its → lexes s its' → its = its'.
Proof.
  intros H. revert its'. induction H as [s Hs|s its Hs Hl IH]; intros its' H'; inversion H'; subst;
    [done|done|done|]. f_equal. by apply IH.
Qed.

Lemma scan_loop_lexes fuel : ∀ acc l r,
  scan_loop fuel acc l = Some r → ∃ its, r = acc ++ its ∧ lexes (rest l) its.
Proof.
  induction fuel as [|fuel IH]; intros acc l r; simpl; [done|].
  destruct (Lex_spec l) as (l' & -> & Hl' & _). case_decide as Ht.
  - intros [= <-]. eexists. split; [done|]. by apply lexes_end.
  - intros (its & -> & Hi)%IH. eexists. split; [by rewrite <-(assoc_L (++))|].
    simpl. apply lexes_cons; [done|]. by rewrite <-Hl'.
Qed.

Lemma scan_lexes s its : lexes s its → scan s = Some its.
Proof.
  intros Hl. destruct (scan_spec s) as (items & Hs & _). rewrite Hs.
  unfold scan in Hs. apply scan_loop_lexes in Hs as (its' & -> & Hl'). simpl in *.
  f_equal. by eapply lexes_det.
Qed.

(** Where a word ends. *)
Definition ends_word (s : string) : Prop :=
  match s with "" => True | String c _ => c ≠ NUL ∧ stops c = true end.

Lemma plain_inv c : plain c = true → c ≠ NUL ∧ isSpecialSymbol c = false ∧ isWhitespace c = false.
Proof.
  unfold plain, stops. rewrite andb_true_iff, !negb_true_iff, orb_false_iff, bool_decide_eq_false.
  tauto.
Qed.

Lemma span_id_word w s : plain_word w → ends_word s → span_id (w +:+ s) = (w, s).
Proof.
  intros Hw Hs. induction w as [|c w IH].
  - destruct s as [|c s]; [done|]. destruct Hs as [Hn Hst].
    change ("" +:+ String c s) with (String c s). simpl. by rewrite decide_False, Hst by done.
  - unfold plain_word in Hw. simpl in Hw. apply andb_true_iff in Hw as [Hc Hw].
    apply plain_inv in Hc as (Hn & Hsp & Hws).
    change (String c w +:+ s) with (String c (w +:+ s)). simpl.
    rewrite decide_False by done. unfold stops. rewrite Hsp, Hws. simpl. by rewrite IH.
Qed.

Lemma lexes_word w s its :
  w ≠ "" → plain_word w → ends_word s → lexes s its → lexes (w +:+ s) (word_item w :: its).
Proof.
  intros Hne Hw Hs Hl. destruct w as [|c w]; [done|].
  assert (lex_str (String c w +:+ s) = (word_item (String c w), s)) as Hlex.
  { pose proof Hw as Hw'. unfold plain_word in Hw'. simpl in Hw'.
    apply andb_true_iff in Hw' as [(Hn & Hsp & Hws)%plain_inv _].
    pose proof (span_id_word (String c w) s Hw Hs) as Hspan.
    change (String c w +:+ s) with (String c (w +:+ s)) in *. unfold lex_str.
    rewrite Hws, decide_False, Hsp by done. fold lex_str. by rewrite Hspan. }
  pose proof (lexes_cons (String c w +:+ s) its) as Hcons. rewrite Hlex in Hcons.
  apply Hcons; [apply word_item_tok|done].
Qed.

Lemma lexes_space s its : lexes s its → lexes (String " " s) its.
Proof.
  assert (lex_str (String " " s) = lex_str s) as Hlex by done.
  inversion 1; subst; rewrite <-Hlex; [apply lexes_end|apply lexes_cons]; by rewrite Hlex.
Qed.

Definition no_nul (s : string) : Prop := drop_nul s = s.

(** A symbol of one character that the next one does not extend. *)
Lemma lexes_symbol c s its :
  isSpecialSymbol c = true → no_nul s →
  (∀ d, first_char s = Some d → string2token (String c (String d "")) = None) →
  lexes s its → lexes (String c s) (symbol_item (String c "") :: its).
Proof.
  intros Hc Hn Hd Hl.
  assert (lex_str (String c s) = (symbol_item (String c ""), s)) as Hlex.
  { assert (isWhitespace c = false) as Hw.
    { revert Hc. clear. destruct c as [[] [] [] [] [] [] [] []]; vm_compute; congruence. }
    simpl. rewrite Hw, decide_False, Hc by (by apply special_not_nul).
    unfold span_symbol. destruct s as [|d s]; [done|].
    rewrite (Hd d), bool_decide_eq_false_2, andb_false_r by (done || by intros []).
    by rewrite Hn. }
  pose proof (lexes_cons (String c s) its) as Hcons. rewrite Hlex in Hcons.
  apply Hcons; [|done]. destruct (special_token c Hc) as (t & Ht & _ & Hne & _).
  simpl. by rewrite Ht.
Qed.

(** The two symbols of two characters. *)
Lemma lexes_symbol2 c s its :
  c ∈ ["="; "!"]%char → no_nul s → lexes s its →
  lexes (String c (String "=" s)) (symbol_item (String c "=") :: its).
Proof.
  intros Hc Hn Hl.
  assert (lex_str (String c (String "=" s)) = (symbol_item (String c "="), s)) as Hlex.
  { apply elem_of_cons in Hc as [->|[->|[]%elem_of_nil]%elem_of_cons]; simpl; by rewrite Hn. }
  pose proof (lexes_cons (String c (String "=" s)) its) as Hcons. rewrite Hlex in Hcons.
  apply Hcons; [|done].
  by apply elem_of_cons in Hc as [->|[->|[]%elem_of_nil]%elem_of_cons].
Qed.

Lemma two_char_token c d t :
  string2token (String c (String d "")) = Some t → c ∈ ["="; "!"; "i"]%char ∧ d ∈ ["="; "n"]%char.
Proof.
  intros H%table_lookup_elem. unfold string2token_table in H.
  repeat (apply elem_of_cons in H as [H|H];
    [first [discriminate H|injection H as -> -> ->; split; set_solver]|]).
  by apply elem_of_nil in H.
Qed.

(** ** The tokens of a selector *)

Definition value_items (v : string) : list ScannedItem :=
  match v with "" => [] | _ => [word_item v] end.

Definition comma_item : ScannedItem := symbol_item ",".
Definition end_item : ScannedItem := mkItem EndOfStringToken "".

(** Items between commas. *)
Fixpoint comma_items (l : list (list ScannedItem)) : list ScannedItem :=
  match l with
  | [] => []
  | [its] => its
  | its :: l => its ++ comma_item :: comma_items l
  end.

Definition set_items (vs : list string) : list ScannedItem :=
  symbol_item "(" :: comma_items (value_items <$> vs) ++ [symbol_item ")"].

Definition requirement_items (r : Requirement) : list ScannedItem :=
  let key := word_item (r_key r) in
  let exact op := [key; symbol_item op] ++ comma_items (value_items <$> r_strValues r) in
  match r_operator r with
  | OpEquals => exact "="
  | OpDoubleEquals => exact "=="
  | OpNotEquals => exact "!="
  | OpGreaterThan => exact ">"
  | OpLessThan => exact "<"
  | OpIn => key :: word_item "in" :: set_items (r_strValues r)
  | OpNotIn => key :: word_item "notin" :: set_items (r_strValues r)
  | OpExists => [key]
  | OpDoesNotExist => [symbol_item "!"; key]
  | OpOther _ => []
  end.

(** What may follow a requirement or a value. *)
Definition tail_ok (s : string) : Prop := s = "" ∨ ∃ t, s = String "," t.

Lemma tail_ends s : tail_ok s → ends_word s.
Proof. by intros [->|[t ->]]. Qed.

Lemma tail_no_nul s : tail_ok s → no_nul s.
Proof. by intros [->|[t ->]]. Qed.

Lemma word_no_nul w s : plain_word w → no_nul s → no_nul (w +:+ s).
Proof.
  destruct w as [|c w]; [done|]. unfold plain_word. simpl.
  rewrite andb_true_iff. intros [(Hn & _)%plain_inv _] _.
  change (String c w +:+ s) with (String c (w +:+ s)). unfold no_nul. simpl.
  by rewrite decide_False.
Qed.

(** A value, possibly empty, before something that ends a word. *)
Lemma lexes_value v s its :
  plain_word v → ends_word s → lexes s its → lexes (v +:+ s) (value_items v ++ its).
Proof.
  intros Hv Hs Hl. destruct v as [|c v]; [done|]. by apply lexes_word.
Qed.

(** What may follow a symbol that is not to be read as part of a longer one. *)
Definition after_symbol (s : string) : Prop := no_nul s ∧ first_char s ≠ Some "="%char.

Lemma special_alone c d :
  isSpecialSymbol c = true → d ≠ "="%char → string2token (String c (String d "")) = None.
Proof.
  intros Hc Hd. destruct (string2token _) as [t|] eqn:E; [|done].
  pose proof E as [Hc' Hd']%two_char_token.
  apply elem_of_cons in Hd' as [->|[->|[]%elem_of_nil]%elem_of_cons]; [done|].
  repeat (apply elem_of_cons in Hc' as [->|Hc']; [done|]). by apply elem_of_nil in Hc'.
Qed.

Lemma after_word w s : plain_word w → after_symbol s → after_symbol (w +:+ s).
Proof.
  intros Hw [Hn Hs]. split; [by apply word_no_nul|]. destruct w as [|c w]; [done|].
  unfold plain_word in Hw. simpl in Hw. apply andb_true_iff in Hw as [(_ & Hsp & _)%plain_inv _].
  change (String c w +:+ s) with (String c (w +:+ s)). simpl. by intros [= ->].
Qed.

Lemma lexes_one c s its :
  isSpecialSymbol c = true → after_symbol s → lexes s its →
  lexes (String c s) (symbol_item (String c "") :: its).
Proof.
  intros Hc [Hn Hs] Hl. apply lexes_symbol; [done..| |done].
  intros d Hd. apply special_alone; [done|]. congruence.
Qed.

Lemma tail_after s : tail_ok s → after_symbol s.
Proof. by intros [->|[t ->]]. Qed.

(** The values of a set, up to the closing parenthesis. *)
Lemma lexes_values vs t its :
  Forall plain_word vs → lexes (String ")" t) its →
  lexes (join "," vs +:+ String ")" t) (comma_items (value_items <$> vs) ++ its) ∧
  after_symbol (join "," vs +:+ String ")" t).
Proof.
  intros Hvs Hl. induction Hvs as [|v vs Hv Hvs IH]; [done|].
  destruct vs as [|v' vs].
  - simpl. split; [by apply lexes_value|]. by apply after_word.
  - destruct IH as [IHl IHa].
    change (join "," (v :: v' :: vs)) with (v +:+ String "," (join "," (v' :: vs))).
    rewrite app_assoc_str.
    change (String "," (join "," (v' :: vs)) +:+ String ")" t) with
      (String "," (join "," (v' :: vs) +:+ String ")" t)).
    change (comma_items (value_items <$> v :: v' :: vs)) with
      (value_items v ++ comma_item :: comma_items (value_items <$> v' :: vs)).
    split; [|by apply after_word]. rewrite <-(assoc_L (++)).
    apply lexes_value; [done..|]. simpl. by apply lexes_one.
Qed.

Lemma lexes_set vs tail its :
  Forall plain_word vs → tail_ok tail → lexes tail its →
  lexes (String "(" (join "," vs +:+ String ")" tail)) (set_items vs ++ its).
Proof.
  intros Hvs Ht Hl. unfold set_items. simpl. rewrite <-(assoc_L (++)). simpl.
  destruct (lexes_values vs tail (symbol_item ")" :: its) Hvs) as [Hlv Ha].
  - by apply lexes_one; [|apply tail_after|].
  - by apply lexes_one.
Qed.

Lemma lexes_exact key op v tail its :
  key ≠ "" → plain_word key → plain_word v → tail_ok tail → lexes tail its →
  op ∈ ["="; "=="; "!="; ">"; "<"] →
  lexes (key +:+ (op +:+ (v +:+ tail))) (word_item key :: symbol_item op :: value_items v ++ its).
Proof.
  intros Hne Hk Hv Ht Hl Hop.
  assert (lexes (v +:+ tail) (value_items v ++ its)) as Hlv by by apply lexes_value, Hl; [|apply tail_ends].
  assert (after_symbol (v +:+ tail)) as Ha by by apply after_word, tail_after.
  apply lexes_word; [done..| |].
  - each_elem Hop ltac:(done).
  - assert (∀ x, "=" +:+ x = String "=" x) as E1 by done.
    assert (∀ x, "==" +:+ x = String "=" (String "=" x)) as E2 by done.
    assert (∀ x, "!=" +:+ x = String "!" (String "=" x)) as E3 by done.
    assert (∀ x, ">" +:+ x = String ">" x) as E4 by done.
    assert (∀ x, "<" +:+ x = String "<" x) as E5 by done.
    each_elem Hop ltac:(rewrite ?E1, ?E2, ?E3, ?E4, ?E5;
      first [by apply lexes_one|apply lexes_symbol2; [set_solver|apply Ha|done]]).
Qed.

Lemma lexes_in key word vs tail its :
  key ≠ "" → plain_word key → word ∈ ["in"; "notin"] → Forall plain_word vs →
  tail_ok tail → lexes tail its →
  lexes (key +:+ String " " (word +:+ String " " (String "(" (join "," vs +:+ String ")" tail))))
    (word_item key :: word_item word :: set_items vs ++ its).
Proof.
  intros Hne Hk Hw Hvs Ht Hl. apply lexes_word; [done..|].
  apply lexes_space. apply lexes_word; [..|done|].
  - each_elem Hw ltac:(done).
  - each_elem Hw ltac:(done).
  - apply lexes_space. by apply lexes_set.
Qed.

Lemma values_text_join vs : values_text vs = join "," vs.
Proof. by destruct vs as [|v [|]]. Qed.

(** The text of a valid requirement lexes to its tokens. *)
Lemma requirement_lexes r tail its :
  valid_requirement r → tail_ok tail → lexes tail its →
  lexes (Requirement_String r +:+ tail) (requirement_items r ++ its).
Proof.
  intros Hr Ht Hl.
  destruct (valid_requirement_inv r Hr) as (Hne & Hk & _ & Hvs & Hcheck & _). clear Hr.
  destruct r as [key op vs]. simpl in *. unfold Requirement_String, requirement_items.
  cbv beta zeta. cbn [r_key r_operator r_strValues].
  assert (∀ s, "" +:+ s = s) as E0 by done.
  assert (∀ s, " in " +:+ s = String " " ("in" +:+ String " " s)) as Ein by done.
  assert (∀ s, " notin " +:+ s = String " " ("notin" +:+ String " " s)) as Enotin by done.
  assert (∀ s, "(" +:+ s = String "(" s) as Eopen by done.
  assert (∀ s, ")" +:+ s = String ")" s) as Eclose by done.
  assert (∀ s, "!" +:+ s = String "!" s) as Ebang by done.
  destruct op; simpl in Hcheck; rewrite ?decide_True, ?decide_False by done;
    rewrite ?values_text_join, ?E0, ?app_assoc_str.
  - rewrite Ebang. apply lexes_one; [done|apply after_word; [done|by apply tail_after]|].
    by apply lexes_word; [..|apply tail_ends|].
  - destruct vs as [|v [|]]; [done| |done]. rewrite Forall_singleton in Hvs.
    by apply lexes_exact; [..|set_solver].
  - destruct vs as [|v [|]]; [done| |done]. rewrite Forall_singleton in Hvs.
    by apply lexes_exact; [..|set_solver].
  - rewrite Ein, Eopen, Eclose. by apply lexes_in; [..|set_solver|done|done|done].
  - destruct vs as [|v [|]]; [done| |done]. rewrite Forall_singleton in Hvs.
    by apply lexes_exact; [..|set_solver].
  - rewrite Enotin, Eopen, Eclose. by apply lexes_in; [..|set_solver|done|done|done].
  - by apply lexes_word; [..|apply tail_ends|].
  - destruct vs as [|v [|]]; [done| |done]. rewrite Forall_singleton in Hvs.
    by apply lexes_exact; [..|set_solver].
  - destruct vs as [|v [|]]; [done| |done]. rewrite Forall_singleton in Hvs.
    by apply lexes_exact; [..|set_solver].
  - done.
Qed.

Definition selector_items (reqs : list Requirement) : list ScannedItem :=
  comma_items (requirement_items <$> reqs) ++ [end_item].

Lemma after_key w s : w ≠ "" → plain_word w → after_symbol (w +:+ s).
Proof.
  intros Hne Hw. destruct w as [|c w]; [done|]. unfold plain_word in Hw. simpl in Hw.
  apply andb_true_iff in Hw as [(Hn & Hsp & _)%plain_inv _].
  change (String c w +:+ s) with (String c (w +:+ s)).
  split; [unfold no_nul; simpl; by rewrite decide_False|]. simpl. by intros [= ->].
Qed.

Lemma requirement_after r s : valid_requirement r → after_symbol (Requirement_String r +:+ s).
Proof.
  intros (Hne & Hk & _)%valid_requirement_inv.
  destruct r as [key op vs]. simpl in *. unfold Requirement_String.
  cbv beta zeta. cbn [r_key r_operator r_strValues].
  assert (∀ s, "" +:+ s = s) as E0 by done.
  destruct op; rewrite ?decide_True, ?decide_False by done; rewrite ?E0, ?app_assoc_str;
    first [by apply after_key|done].
Qed.

Lemma selector_after r reqs :
  valid_requirement r → after_symbol (join "," (Requirement_String <$> r :: reqs)).
Proof.
  intros Hr. destruct reqs as [|r' reqs].
  - simpl. rewrite <-(app_empty_r_str (Requirement_String r)). by apply requirement_after.
  - by apply requirement_after.
Qed.

Lemma selector_lexes reqs :
  Forall valid_requirement reqs →
  lexes (Selector_String (internalSelector reqs)) (selector_items reqs).
Proof.
  intros Hv. unfold selector_items. unfold Selector_String.
  assert (lexes "" [end_item]) as Hend by by apply (lexes_end "").
  destruct reqs as [|r reqs]; [done|]. revert r Hv.
  induction reqs as [|r' reqs IH]; intros r [Hr Hv]%Forall_cons.
  - simpl. rewrite <-(app_empty_r_str (Requirement_String r)).
    apply requirement_lexes; [done|by left|done].
  - change (join "," (Requirement_String <$> r :: r' :: reqs)) with
      (Requirement_String r +:+ String "," (join "," (Requirement_String <$> r' :: reqs))).
    change (comma_items (requirement_items <$> r :: r' :: reqs)) with
      (requirement_items r ++ comma_item :: comma_items (requirement_items <$> r' :: reqs)).
    rewrite <-(assoc_L (++)). apply requirement_lexes; [done|right; eauto|].
    apply (lexes_one ","); [done|apply selector_after; by inversion Hv|by apply IH].
Qed.

(** ** Parsing the tokens *)

Definition remaining (p : Parser) : list ScannedItem := drop (position p) (scannedItems p).

(** From [p], [m] returns [a] and leaves the items [its]. *)
Definition parses {A} (m : parsing A) (p : Parser) (a : A) (its : list ScannedItem) : Prop :=
  ∃ p', m p = Ret (Ok a, p') ∧ remaining p' = its ∧ scannedItems p' = scannedItems p.

Lemma parses_ret {A} (a : A) p : parses (p_ret a) p a (remaining p).
Proof. by eexists. Qed.

Lemma parses_lift {A} (a : A) r p : r = Ok a → parses (p_lift r) p a (remaining p).
Proof. intros ->. by eexists. Qed.

Lemma parses_bind {A B} (m : parsing A) (f : A → parsing B) p a b its1 its2 :
  parses m p a its1 →
  (∀ p', remaining p' = its1 → scannedItems p' = scannedItems p → parses (f a) p' b its2) →
  parses (p_bind m f) p b its2.
Proof.
  intros (p1 & Hm & Hr & Hs) Hf. destruct (Hf p1 Hr Hs) as (p2 & Hp2 & ? & ?).
  exists p2. unfold p_bind. rewrite Hm. split_and!; [done..|congruence].
Qed.

Lemma remaining_cons p i its :
  remaining p = i :: its →
  scannedItems p !! position p = Some i ∧
  remaining (mkParser (scannedItems p) (position p + 1)) = its.
Proof.
  unfold remaining. intros Hr. simpl. split.
  - rewrite <-(Nat.add_0_r (position p)), <-lookup_drop. by rewrite Hr.
  - rewrite <-drop_drop, Hr. done.
Qed.

Lemma parses_lookahead {B} c (f : Token * string → parsing B) p i its b its2 :
  remaining p = i :: its → parses (f (in_context c i)) p b its2 →
  parses (p_bind (lookahead c) f) p b its2.
Proof.
  intros [Hi _]%remaining_cons Hf. unfold parses, p_bind, lookahead. by rewrite Hi.
Qed.

Lemma parses_consume {B} c (f : Token * string → parsing B) p i its b its2 :
  remaining p = i :: its →
  (∀ p', remaining p' = its → scannedItems p' = scannedItems p →
     parses (f (in_context c i)) p' b its2) →
  parses (p_bind (consume c) f) p b its2.
Proof.
  intros [Hi Hr]%remaining_cons Hf. apply (parses_bind _ _ _ (in_context c i) _ its).
  - eexists. unfold consume. rewrite Hi. split_and!; [done..|done].
  - done.
Qed.

Lemma in_context_word w :
  w ≠ "" → plain_word w → in_context Values (word_item w) = (IdentifierToken, w).
Proof.
  intros Hne Hw. unfold in_context, word_item. simpl.
  destruct (string2token w) as [t|] eqn:E; [|done]. simpl.
  apply table_lookup_elem in E. unfold string2token_table in E.
  repeat (apply elem_of_cons in E as [[= -> ->]|E]; [done|]). by apply elem_of_nil in E.
Qed.

(** What follows a requirement: a comma or the end. *)
Definition tail_items (its : list ScannedItem) : Prop :=
  ∃ i its', its = i :: its' ∧ (i = comma_item ∨ i = end_item).

Lemma in_context_tail c i :
  i = comma_item ∨ i = end_item →
  (in_context c i).1 = EndOfStringToken ∨ (in_context c i).1 = CommaToken.
Proof. intros [->| ->]; destruct c; auto. Qed.

(** *** Keys *)

Lemma parses_key_tail op key p i its o :
  validateLabelKey key = Ok () → remaining p = i :: its →
  o = (if decide ((in_context Values i).1 = EndOfStringToken ∨ (in_context Values i).1 = CommaToken)
       then (if decide (op ≠ OpDoesNotExist) then OpExists else op) else op) →
  parses
    (_ <- p_lift (label_ok (validateLabelKey key));;
     '(t, _) <- lookahead Values;;
     if decide (t = EndOfStringToken ∨ t = CommaToken)
     then p_ret (key, if decide (op ≠ OpDoesNotExist) then OpExists else op)
     else p_ret (key, op)) p (key, o) (i :: its).
Proof.
  intros Hk Hr Ho. rewrite Hk. simpl.
  apply (parses_bind _ _ _ () _ (remaining p)); [by apply parses_lift|].
  intros p' Hr' _. rewrite Hr in Hr'. apply (parses_lookahead _ _ _ i its); [done|].
  destruct (in_context Values i) as [t lit]. simpl in *. subst o.
  case_decide; rewrite <-Hr'; apply parses_ret.
Qed.

Lemma parses_key key p i its :
  key ≠ "" → plain_word key → validateLabelKey key = Ok () →
  remaining p = word_item key :: i :: its →
  parses parseKeyAndInferOperator p
    (key, if decide ((in_context Values i).1 = EndOfStringToken ∨
                     (in_context Values i).1 = CommaToken)
          then OpExists else OpOther "") (i :: its).
Proof.
  intros Hne Hp Hk Hr. apply (parses_consume _ _ _ _ _ _ _ Hr). intros p1 Hr1 _.
  rewrite in_context_word by done. rewrite decide_False by done.
  apply (parses_bind _ _ _ (OpOther "", IdentifierToken, key) _ (remaining p1)); [apply parses_ret|].
  intros p2 Hr2 _. rewrite decide_False by (by intros []). rewrite Hr1 in Hr2.
  by apply parses_key_tail.
Qed.

Lemma parses_not_key key p i its :
  key ≠ "" → plain_word key → validateLabelKey key = Ok () →
  i = comma_item ∨ i = end_item →
  remaining p = symbol_item "!" :: word_item key :: i :: its →
  parses parseKeyAndInferOperator p (key, OpDoesNotExist) (i :: its).
Proof.
  intros Hne Hp Hk Hi Hr. apply (parses_consume _ _ _ _ _ _ _ Hr). intros p1 Hr1 _.
  change (in_context Values (symbol_item "!")) with (DoesNotExistToken, "!").
  cbv beta iota. rewrite decide_True by done.
  apply (parses_bind _ _ _ (OpDoesNotExist, IdentifierToken, key) _ (i :: its)).
  - apply (parses_consume _ _ _ _ _ _ _ Hr1). intros p2 Hr2 _.
    rewrite in_context_word by done. rewrite <-Hr2. apply parses_ret.
  - intros p2 Hr2 _. rewrite decide_False by (by intros []). apply parses_key_tail; [done..|].
    rewrite decide_True by (by apply in_context_tail). by rewrite decide_False by (by intros []).
Qed.

(** *** Values *)

Lemma parses_exact_value v p its :
  plain_word v → tail_items its → remaining p = value_items v ++ its →
  parses parseExactValue p {[v]} its.
Proof.
  intros Hv (i & its' & -> & Hi) Hr. destruct v as [|c v].
  - apply (parses_lookahead _ _ _ _ _ _ _ Hr).
    pose proof (in_context_tail Values i Hi) as Ht.
    destruct (in_context Values i) as [t lit]. simpl in Ht.
    rewrite decide_True by done. simpl in Hr. rewrite <-Hr. apply parses_ret.
  - apply (parses_lookahead _ _ _ _ _ _ _ Hr). rewrite in_context_word by done.
    rewrite decide_False by (by intros []).
    apply (parses_consume _ _ _ _ _ _ _ Hr). intros p1 Hr1 _. rewrite in_context_word by done.
    rewrite decide_True by done. simpl in Hr1. rewrite <-Hr1. apply parses_ret.
Qed.

Lemma comma_items_cons v v' vs :
  comma_items (value_items <$> v :: v' :: vs) =
  value_items v ++ comma_item :: comma_items (value_items <$> v' :: vs).
Proof. done. Qed.

(** The loop on a list of non-empty values. *)
Lemma parses_identifiers vs : ∀ fuel (s : gset string) p its,
  vs ≠ [] → Forall (λ v, v ≠ "" ∧ plain_word v) vs →
  remaining p = comma_items (value_items <$> vs) ++ symbol_item ")" :: its →
  length (remaining p) < fuel →
  parses (identifiers_loop fuel s) p (list_to_set vs ∪ s) (symbol_item ")" :: its).
Proof.
  induction vs as [|v vs IH]; intros fuel s p its Hne Hvs Hr Hf; [done|].
  apply Forall_cons in Hvs as [[Hv Hp] Hvs].
  assert (value_items v = [word_item v]) as Hval by by destruct v.
  destruct fuel as [|fuel]; [lia|]. destruct vs as [|v' vs].
  - simpl in Hr. rewrite Hval in Hr. apply (parses_consume _ _ _ _ _ _ _ Hr). intros p1 Hr1 _.
    rewrite in_context_word by done. apply (parses_lookahead _ _ _ _ _ _ _ Hr1).
    change (in_context Values (symbol_item ")")) with (ClosedParToken, ")"). cbv beta iota.
    replace (list_to_set [v] ∪ s) with ({[v]} ∪ s) by set_solver.
    rewrite <-Hr1. apply parses_ret.
  - rewrite comma_items_cons, Hval in Hr. simpl in Hr.
    apply Forall_cons in Hvs as Hvs'. destruct Hvs' as [[Hv' Hp'] _].
    assert (value_items v' = [word_item v']) as Hval' by by destruct v'.
    apply (parses_consume _ _ _ _ _ _ _ Hr). intros p1 Hr1 _. rewrite in_context_word by done.
    apply (parses_lookahead _ _ _ _ _ _ _ Hr1).
    change (in_context Values comma_item) with (CommaToken, ","). cbv beta iota zeta.
    rewrite Hr in Hf. simpl in Hf. destruct fuel as [|fuel]; [lia|].
    apply (parses_consume _ _ _ _ _ _ _ Hr1). intros p2 Hr2 _.
    change (in_context Values comma_item) with (CommaToken, ","). cbv beta iota zeta.
    rewrite decide_False.
    2:{ intros Hz%size_empty_inv. set_solver. }
    assert (∃ i its', remaining p2 = i :: its' ∧ i = word_item v') as (i & its' & Hr2' & ->).
    { rewrite Hr2. destruct vs; simpl; rewrite Hval'; by eexists _, _. }
    apply (parses_lookahead _ _ _ _ _ _ _ Hr2'). rewrite in_context_word by done.
    rewrite decide_False, decide_False by done.
    replace (list_to_set (v :: v' :: vs) ∪ s) with (list_to_set (v' :: vs) ∪ ({[v]} ∪ s))
      by set_solver.
    apply IH; [done..|]. rewrite Hr2, length_app in *. simpl in *. lia.
Qed.

(** In a sorted list without repetitions only the first value can be empty. *)
Lemma sorted_tail_nonempty v vs :
  merge_sort String.le (v :: vs) = v :: vs → NoDup (v :: vs) → Forall (λ v, v ≠ "") vs.
Proof.
  intros Hs [Hn _]%NoDup_cons. apply Forall_forall. intros w Hw ->.
  assert (StronglySorted String.le (v :: vs)) as [Hle _]%StronglySorted_cons.
  { rewrite <-Hs. apply Sorted_StronglySorted; [apply _|]. apply Sorted_merge_sort. apply _. }
  rewrite Forall_forall in Hle. specialize (Hle "" Hw).
  destruct v as [|c v]; [done|]. by vm_compute in Hle.
Qed.

(** The loop when the first value is empty. *)
Lemma parses_identifiers_empty v vs fuel p its :
  Forall (λ v, v ≠ "" ∧ plain_word v) (v :: vs) →
  remaining p = comma_item :: comma_items (value_items <$> v :: vs) ++ symbol_item ")" :: its →
  length (remaining p) < fuel →
  parses (identifiers_loop fuel ∅) p (list_to_set ("" :: v :: vs)) (symbol_item ")" :: its).
Proof.
  intros Hvs Hr Hf. pose proof Hvs as [[Hv Hp] _]%Forall_cons.
  assert (value_items v = [word_item v]) as Hval by by destruct v.
  rewrite Hr in Hf. simpl in Hf. destruct fuel as [|fuel]; [lia|].
  apply (parses_consume _ _ _ _ _ _ _ Hr). intros p1 Hr1 _.
  change (in_context Values comma_item) with (CommaToken, ","). cbv beta iota zeta.
  rewrite (decide_True (P := size ∅ = 0)) by done.
  assert (∃ its', remaining p1 = word_item v :: its') as (its' & Hr1').
  { rewrite Hr1. destruct vs; simpl; rewrite Hval; by eexists. }
  apply (parses_lookahead _ _ _ _ _ _ _ Hr1'). rewrite in_context_word by done.
  rewrite decide_False, decide_False by done.
  replace (list_to_set ("" :: v :: vs)) with (list_to_set (v :: vs) ∪ ({[""]} ∪ ∅) : gset string)
    by set_solver.
  apply parses_identifiers; [done..|]. rewrite Hr1. simpl. lia.
Qed.

Lemma parses_set_tail (m : parsing (gset string)) s p its lit :
  parses m p s (symbol_item ")" :: its) →
  parses
    (s <- m;;
     '(t, _) <- consume Values;;
     if decide (t ≠ ClosedParToken) then p_err (Found lit "')'") else p_ret s) p s its.
Proof.
  intros Hm. apply (parses_bind _ _ _ _ _ _ _ Hm).
  intros p1 Hr1 _. apply (parses_consume _ _ _ _ _ _ _ Hr1). intros p2 Hr2 _.
  change (in_context Values (symbol_item ")")) with (ClosedParToken, ")"). cbv beta iota.
  rewrite decide_False by (by intros []). rewrite <-Hr2. apply parses_ret.
Qed.

Lemma remaining_length p : length (remaining p) < S (length (scannedItems p)).
Proof. unfold remaining. rewrite length_drop. lia. Qed.

Lemma parses_values vs p its :
  vs ≠ [] → Forall plain_word vs → NoDup vs → merge_sort String.le vs = vs →
  remaining p = set_items vs ++ its →
  parses parseValues p (list_to_set vs) its.
Proof.
  intros Hne Hvs Hnd Hs Hr. destruct vs as [|v vs]; [done|].
  unfold set_items in Hr. simpl in Hr. apply (parses_consume _ _ _ _ _ _ _ Hr). intros p1 Hr1 _.
  change (in_context Values (symbol_item "(")) with (OpenParToken, "("). cbv beta iota.
  rewrite decide_False by (by intros []). rewrite <-(assoc_L (++)) in Hr1. simpl in Hr1.
  apply Forall_cons in Hvs as [Hv Hvs].
  pose proof (sorted_tail_nonempty v vs Hs Hnd) as Htl.
  assert (Forall (λ v, v ≠ "" ∧ plain_word v) vs) as Hvs' by (apply Forall_and; done).
  pose proof (remaining_length p1) as Hlen.
  destruct (decide (v = "")) as [->|Hvne]; [destruct vs as [|v' vs]|].
  - apply (parses_lookahead _ _ _ _ _ _ _ Hr1).
    change (in_context Values (symbol_item ")")) with (ClosedParToken, ")"). cbv beta iota.
    apply (parses_consume _ _ _ _ _ _ _ Hr1). intros p2 Hr2 _.
    replace (list_to_set [""]) with ({[""]} : gset string) by set_solver.
    rewrite <-Hr2. apply parses_ret.
  - apply (parses_lookahead _ _ _ _ _ _ _ Hr1).
    change (in_context Values comma_item) with (CommaToken, ","). cbv beta iota.
    apply parses_set_tail. by apply parses_identifiers_empty.
  - assert (value_items v = [word_item v]) as Hval by by destruct v.
    assert (∃ its', remaining p1 = word_item v :: its') as (its' & Hr1').
    { rewrite Hr1. destruct vs; simpl; rewrite Hval; by eexists. }
    apply (parses_lookahead _ _ _ _ _ _ _ Hr1'). rewrite in_context_word by done. cbv beta iota.
    apply parses_set_tail. rewrite <-(right_id_L ∅ (∪) (list_to_set (v :: vs))).
    by apply (parses_identifiers (v :: vs)); [|constructor|..].
Qed.

(** *** Requirements *)

(** A key, an operator and values. *)
Lemma parses_binary r i its1 p its :
  valid_requirement r →
  remaining p = word_item (r_key r) :: i :: its1 →
  ¬ ((in_context Values i).1 = EndOfStringToken ∨ (in_context Values i).1 = CommaToken) →
  (∀ p', remaining p' = i :: its1 → parses parseOperator p' (r_operator r) its1) →
  (∀ p', remaining p' = its1 →
     parses (match r_operator r with
             | OpIn | OpNotIn => parseValues
             | OpEquals | OpDoubleEquals | OpNotEquals | OpGreaterThan | OpLessThan =>
                 parseExactValue
             | _ => p_ret ∅
             end) p' (list_to_set (r_strValues r)) its) →
  parses parseRequirement p r its.
Proof.
  intros Hr Hrem Hi Hop Hval. pose proof Hr as [Hnew Hnd].
  destruct (valid_requirement_inv r Hr) as (Hne & Hk & Hkey & _ & _ & Hsort).
  pose proof (parses_key _ _ _ _ Hne Hk Hkey Hrem) as Hpk. rewrite decide_False in Hpk by done.
  apply (parses_bind _ _ _ _ _ _ _ Hpk). intros p1 Hr1 _. cbv beta iota.
  rewrite decide_False by (by intros []).
  apply (parses_bind _ _ _ _ _ _ _ (Hop p1 Hr1)). intros p2 Hr2 _.
  apply (parses_bind _ _ _ _ _ _ _ (Hval p2 Hr2)). intros p3 Hr3 _.
  rewrite <-Hr3. apply parses_lift. by rewrite set_List_sorted.
Qed.

(** The items of the operators on one value and on sets. *)
Definition exact_ops : list (ScannedItem * Operator) :=
  [(symbol_item "=", OpEquals); (symbol_item "==", OpDoubleEquals);
   (symbol_item "!=", OpNotEquals); (symbol_item ">", OpGreaterThan);
   (symbol_item "<", OpLessThan)].

Definition set_ops : list (ScannedItem * Operator) :=
  [(word_item "in", OpIn); (word_item "notin", OpNotIn)].

Lemma exact_ops_inv i op : (i, op) ∈ exact_ops → op ∈ exact_ops.*2.
Proof. intros H. apply list_elem_of_fmap. by exists (i, op). Qed.

Lemma set_ops_inv i op : (i, op) ∈ set_ops → op ∈ set_ops.*2.
Proof. intros H. apply list_elem_of_fmap. by exists (i, op). Qed.

Lemma parses_operator i op its p :
  remaining p = i :: its →
  (i, op) ∈ exact_ops ++ set_ops →
  parses parseOperator p op its ∧
  ¬ ((in_context Values i).1 = EndOfStringToken ∨ (in_context Values i).1 = CommaToken).
Proof.
  intros Hr Hop.
  repeat (apply elem_of_cons in Hop as [[= -> ->]|Hop];
    [split; [|by intros []];
     apply (parses_consume _ _ _ _ _ _ _ Hr); intros p1 Hr1 _; rewrite <-Hr1; apply parses_ret|]).
  by apply elem_of_nil in Hop.
Qed.

Lemma parses_exact r i p its :
  valid_requirement r → tail_items its →
  (i, r_operator r) ∈ exact_ops →
  remaining p = word_item (r_key r) :: i :: comma_items (value_items <$> r_strValues r) ++ its →
  parses parseRequirement p r its.
Proof.
  intros Hr Ht Hop Hrem.
  destruct (valid_requirement_inv r Hr) as (_ & _ & _ & Hvs & Hcheck & _).
  apply (parses_binary _ _ _ _ _ Hr Hrem).
  - apply (parses_operator i (r_operator r) [] (mkParser [i] 0)); [done|].
    apply elem_of_app. by left.
  - intros p1 Hr1. apply (parses_operator i); [done|]. apply elem_of_app. by left.
  - intros p1 Hr1.
    apply exact_ops_inv in Hop. unfold exact_ops in Hop. simpl in Hop.
    assert (∃ v, r_strValues r = [v]) as [v Hv].
    { destruct r as [key op vs]; simpl in *.
      each_elem Hop ltac:(destruct vs as [|v [|]]; [done|by eexists|done]). }
    rewrite Hv in *. rewrite Forall_singleton in Hvs.
    replace (list_to_set [v]) with ({[v]} : gset string) by set_solver.
    pose proof (parses_exact_value v p1 its Hvs Ht Hr1) as Hp.
    each_elem Hop ltac:(done).
Qed.

Lemma parses_set r word p its :
  valid_requirement r →
  (word_item word, r_operator r) ∈ set_ops →
  remaining p = word_item (r_key r) :: word_item word :: set_items (r_strValues r) ++ its →
  parses parseRequirement p r its.
Proof.
  intros Hr Hop Hrem. pose proof Hr as [_ Hnd].
  destruct (valid_requirement_inv r Hr) as (_ & _ & _ & Hvs & Hcheck & Hsort).
  apply (parses_binary _ _ _ _ _ Hr Hrem).
  - apply (parses_operator (word_item word) (r_operator r) [] (mkParser [word_item word] 0));
      [done|]. apply elem_of_app. by right.
  - intros p1 Hr1. apply (parses_operator (word_item word)); [done|]. apply elem_of_app. by right.
  - intros p1 Hr1.
    apply set_ops_inv in Hop. unfold set_ops in Hop. simpl in Hop.
    assert (r_strValues r ≠ []) as Hne.
    { intros Hnil. rewrite Hnil in Hcheck. destruct (r_operator r); try done; set_solver. }
    pose proof (parses_values _ _ _ Hne Hvs Hnd Hsort Hr1) as Hp.
    each_elem Hop ltac:(done).
Qed.

(** A key alone, or negated. *)
Lemma parses_unary r p its :
  valid_requirement r → tail_items its →
  r_operator r = OpExists ∧ remaining p = word_item (r_key r) :: its ∨
  r_operator r = OpDoesNotExist ∧ remaining p = symbol_item "!" :: word_item (r_key r) :: its →
  parses parseRequirement p r its.
Proof.
  intros Hr (i & its' & -> & Hi) Hop. pose proof Hr as [Hnew _].
  destruct (valid_requirement_inv r Hr) as (Hne & Hk & Hkey & _ & Hcheck & _).
  destruct r as [key op vs]; simpl in *.
  assert (vs = []) as ->.
  { destruct vs as [|v vs]; [done|]. by destruct Hop as [[-> _]|[-> _]]. }
  assert (parses parseKeyAndInferOperator p (key, op) (i :: its')) as Hpk.
  { destruct Hop as [[-> Hrem]|[-> Hrem]]; [|by apply parses_not_key].
    pose proof (parses_key _ _ _ _ Hne Hk Hkey Hrem) as Hpk.
    by rewrite decide_True in Hpk by (by apply in_context_tail). }
  apply (parses_bind _ _ _ _ _ _ _ Hpk). intros p1 Hr1 _. cbv beta iota.
  rewrite decide_True by (destruct Hop as [[-> _]|[-> _]]; auto).
  rewrite <-Hr1. by apply parses_lift.
Qed.

Lemma parses_requirement r p its :
  valid_requirement r → tail_items its → remaining p = requirement_items r ++ its →
  parses parseRequirement p r its.
Proof.
  intros Hr Ht Hrem.
  destruct (valid_requirement_inv r Hr) as (_ & _ & _ & _ & Hcheck & _).
  unfold requirement_items in Hrem. destruct (r_operator r) eqn:Hop; simpl in Hrem.
  - apply parses_unary; auto.
  - eapply parses_exact; [done..| |exact Hrem]. rewrite Hop. repeat constructor.
  - eapply parses_exact; [done..| |exact Hrem]. rewrite Hop. repeat constructor.
  - eapply parses_set; [done..| |exact Hrem]. rewrite Hop. repeat constructor.
  - eapply parses_exact; [done..| |exact Hrem]. rewrite Hop. repeat constructor.
  - eapply parses_set; [done..| |exact Hrem]. rewrite Hop. repeat constructor.
  - apply parses_unary; auto.
  - eapply parses_exact; [done..| |exact Hrem]. rewrite Hop. repeat constructor.
  - eapply parses_exact; [done..| |exact Hrem]. rewrite Hop. repeat constructor.
  - done.
Qed.

(** *** Selectors *)

Lemma requirement_first r :
  valid_requirement r →
  ∃ i its, requirement_items r = i :: its ∧
    ((in_context Values i).1 = IdentifierToken ∨ (in_context Values i).1 = DoesNotExistToken).
Proof.
  intros Hr. destruct (valid_requirement_inv r Hr) as (Hne & Hk & _ & _ & Hcheck & _).
  unfold requirement_items. destruct (r_operator r); try done;
    (eexists _, _; split; [reflexivity|]); first [by right|by rewrite in_context_word; [left|..]].
Qed.

(** What [parse_loop] does after a requirement. *)
Definition after_requirement (fuel : nat) (requirements : list Requirement)
    : parsing (list Requirement) :=
  '(t, l) <- consume Values;;
  match t with
  | EndOfStringToken => p_ret requirements
  | CommaToken =>
      '(t2, l2) <- lookahead Values;;
      if decide (t2 ≠ IdentifierToken ∧ t2 ≠ DoesNotExistToken)
      then p_err (Found l2 "identifier after ','")
      else parse_loop fuel requirements
  | _ => p_err (Found l "',' or 'end of string'")
  end.

Lemma parse_loop_step r fuel acc p its out its2 :
  valid_requirement r → tail_items its → remaining p = requirement_items r ++ its →
  (∀ p', remaining p' = its → parses (after_requirement fuel (acc ++ [r])) p' out its2) →
  parses (parse_loop (S fuel) acc) p out its2.
Proof.
  intros Hr Ht Hrem Hk. destruct (requirement_first r Hr) as (i & its' & Hi & Hc).
  pose proof Hrem as Hrem'. rewrite Hi in Hrem'. simpl in Hrem'.
  apply (parses_lookahead _ _ _ _ _ _ _ Hrem').
  assert (parses (r <- wrap_unable parseRequirement;; after_requirement fuel (acc ++ [r]))
            p out its2) as Hgoal.
  { apply (parses_bind _ _ _ r _ its); [|auto].
    destruct (parses_requirement r p its Hr Ht Hrem) as (p1 & Hp & ? & ?).
    exists p1. unfold wrap_unable. by rewrite Hp. }
  destruct (in_context Values i) as [t lit]. simpl in Hc. by destruct Hc as [-> | ->].
Qed.

Lemma parse_loop_parses reqs : ∀ r fuel acc p,
  Forall valid_requirement (r :: reqs) →
  remaining p = comma_items (requirement_items <$> r :: reqs) ++ [end_item] →
  length (remaining p) < fuel →
  parses (parse_loop fuel acc) p (acc ++ r :: reqs) [].
Proof.
  induction reqs as [|r' reqs IH]; intros r fuel acc p [Hr Hv]%Forall_cons Hrem Hf.
  all: destruct fuel as [|fuel]; [lia|].
  - apply (parse_loop_step r _ _ _ [end_item]); [done|by eexists _, _; auto|done|].
    intros p1 Hr1. apply (parses_consume _ _ _ _ _ _ _ Hr1). intros p2 Hr2 _.
    rewrite <-Hr2. apply parses_ret.
  - change (comma_items (requirement_items <$> r :: r' :: reqs)) with
      (requirement_items r ++ comma_item :: comma_items (requirement_items <$> r' :: reqs)) in Hrem.
    rewrite <-(assoc_L (++)) in Hrem.
    set (its := comma_items (requirement_items <$> r' :: reqs) ++ [end_item]) in *.
    change ((comma_item :: comma_items (requirement_items <$> r' :: reqs)) ++ [end_item]) with
      (comma_item :: its) in Hrem.
    apply (parse_loop_step r _ _ _ (comma_item :: its)); [done|by eexists _, _; auto|done|].
    intros p1 Hr1. apply (parses_consume _ _ _ _ _ _ _ Hr1). intros p2 Hr2 _.
    pose proof Hv as [Hr' _]%Forall_cons.
    destruct (requirement_first r' Hr') as (i & its' & Hi & Hc).
    assert (∃ its'', remaining p2 = i :: its'') as [its'' Hr2'].
    { rewrite Hr2. unfold its. destruct reqs; simpl; rewrite Hi; by eexists. }
    change (in_context Values comma_item) with (CommaToken, ","). cbv beta iota.
    apply (parses_lookahead _ _ _ _ _ _ _ Hr2').
    destruct (in_context Values i) as [t2 l2]. simpl in Hc.
    rewrite decide_False by (destruct Hc as [-> | ->]; tauto).
    replace (acc ++ r :: r' :: reqs) with ((acc ++ [r]) ++ r' :: reqs)
      by (by rewrite <-(assoc_L (++))).
    apply IH; [done..|]. rewrite Hrem, length_app in Hf. rewrite Hr2. simpl in Hf. lia.
Qed.

(** *** Sorting *)

Lemma perm_same_keys (l l' : list Requirement) :
  NoDup (r_key <$> l) → l ≡ₚ l' → r_key <$> l = r_key <$> l' → l = l'.
Proof.
  intros Hnd Hp Hk. apply list_eq. intros n.
  assert (r_key <$> l !! n = r_key <$> l' !! n) as Hn by (by rewrite <-!list_lookup_fmap, Hk).
  destruct (l !! n) as [x|] eqn:Hx, (l' !! n) as [y|] eqn:Hy; simplify_eq/=; [|done].
  f_equal. apply list_elem_of_lookup_2 in Hy. rewrite <-Hp in Hy.
  apply list_elem_of_lookup in Hy as [m Hm].
  assert (n = m) as ->; [|congruence].
  apply (NoDup_lookup _ n m (r_key x) Hnd); rewrite list_lookup_fmap; [by rewrite Hx|].
  rewrite Hm. simpl. congruence.
Qed.

Lemma sort_valid `{!SortSort} reqs : valid_selector reqs → sort_Sort ByKey reqs = reqs.
Proof.
  intros (_ & Hnd & Hsort).
  assert (r_key <$> sort_Sort ByKey reqs = r_key <$> reqs) as Hk.
  { apply (StronglySorted_unique String.le).
    - apply Sorted_StronglySorted; [apply _|].
      apply (Sorted_fmap r_key ByKey); [done|]. apply sort_Sort_sorted, _.
    - by apply (StronglySorted_fmap r_key ByKey).
    - apply Permutation_map, sort_Sort_perm. }
  symmetry. apply perm_same_keys; [done|symmetry; apply sort_Sort_perm|done].
Qed.

(** ** Theorems *)

(** C37.  Round trip: the text of a selector whose requirements are as [NewRequirement]
    makes them, on distinct keys in order, parses back to the selector. *)
Theorem selector_roundtrip `{!SortSort} reqs :
  valid_selector reqs →
  Parse (Selector_String (internalSelector reqs)) = Ret (Ok (internalSelector reqs)).
Proof.
  intros Hv. pose proof (sort_valid reqs Hv) as Hsort. destruct Hv as [Hv _].
  pose proof (selector_lexes reqs Hv) as Hlex. apply scan_lexes in Hlex.
  unfold Parse, parse, Parser_parse. rewrite Hlex.
  destruct reqs as [|r reqs]; [simpl; by rewrite Hsort|].
  destruct (parse_loop_parses reqs r (S (length (selector_items (r :: reqs)))) []
    (mkParser (selector_items (r :: reqs)) 0)) as (p & -> & _); [done|done| |].
  - unfold remaining. cbn [position scannedItems]. rewrite drop_0. lia.
  - simpl. by rewrite Hsort.
Qed.

Definition demo_reqs : list Requirement :=
  [mkRequirement "app" OpIn [""; "in"; "web"]; mkRequirement "example.com/tier" OpDoesNotExist [];
   mkRequirement "notin" OpNotEquals [""]; mkRequirement "size" OpGreaterThan ["10"]].

Lemma demo_reqs_valid : valid_selector demo_reqs.
Proof.
  split_and!.
  - repeat constructor; try (vm_compute; reflexivity); apply (bool_decide_unpack _); vm_compute; exact I.
  - apply (bool_decide_unpack _). vm_compute. exact I.
  - apply (bool_decide_unpack _). vm_compute. exact I.
Qed.

Lemma selector_roundtrip_witness :
  @Parse canonical_sort "app in (,in,web),!example.com/tier,notin!=,size>10" =
  Ret (Ok (internalSelector demo_reqs)).
Proof.
  change "app in (,in,web),!example.com/tier,notin!=,size>10" with
    (Selector_String (internalSelector demo_reqs)).
  apply (@selector_roundtrip canonical_sort demo_reqs demo_reqs_valid).
Defined.
