(* ===== verification/MetaSelector.v ===== *)
(** * Label selectors of API objects (pkg/apis/meta/v1/helpers.go)

    The selector that an object carries, as labels and expressions, and its conversion
    to a selector of pkg/labels, which pods are matched with.

    Theorem: what the selector of the conversion matches. *)

From S2P Require Import Prelude Validation Labels Selector.

Record LabelSelectorRequirement := mkExpression {
  ex_Key : string;
  ex_Operator : string;
  ex_Values : list string
}.

Record LabelSelector := mkLabelSelector {
  MatchLabels : Set_;
  MatchExpressions : list LabelSelectorRequirement
}.

#[export] Instance LabelSelectorRequirement_eq_dec : EqDecision LabelSelectorRequirement.
Proof. solve_decision. Defined.

#[export] Instance LabelSelector_eq_dec : EqDecision LabelSelector.
Proof. solve_decision. Defined.

Inductive selector_error :=
  | InvalidRequirement (e : sel_error)
  | InvalidOperator (op : string).

Section selectors.
Context `{!MapRange, !SortSort}.

Fixpoint match_labels_loop (ls : list (string * string)) (selector : Selector) : result selector_error Selector :=
  match ls with
  | [] => Ok selector
  | (k, v) :: ls =>
      match NewRequirement k OpEquals [v] with
      | Err e => Err (InvalidRequirement e)
      | Ok r => match_labels_loop ls (Selector_Add [r] selector)
      end
  end.

Definition expression_operator (op : string) : option Operator :=
  if decide (op = "In") then Some OpIn
  else if decide (op = "NotIn") then Some OpNotIn
  else if decide (op = "Exists") then Some OpExists
  else if decide (op = "DoesNotExist") then Some OpDoesNotExist
  else None.

Fixpoint match_expressions_loop (exprs : list LabelSelectorRequirement) (selector : Selector)
    : result selector_error Selector :=
  match exprs with
  | [] => Ok selector
  | expr :: exprs =>
      match expression_operator (ex_Operator expr) with
      | None => Err (InvalidOperator (ex_Operator expr))
      | Some op =>
          match NewRequirement (ex_Key expr) op (ex_Values expr) with
          | Err e => Err (InvalidRequirement e)
          | Ok r => match_expressions_loop exprs (Selector_Add [r] selector)
          end
      end
  end.

(** [None] is a nil selector. *)
Definition LabelSelectorAsSelector (ps : option LabelSelector) : result selector_error Selector :=
  match ps with
  | None => Ok Nothing
  | Some ps =>
      if decide (size (MatchLabels ps) + length (MatchExpressions ps) = 0)%nat then Ok Everything
      else
        selector !<- match_labels_loop (map_range (MatchLabels ps)) Everything;
        match_expressions_loop (MatchExpressions ps) selector
  end.
End selectors.

(** ** What a converted selector matches *)

Section matching.
Context `{!MapRange, !SortSort}.

(** What an expression asks of the labels. *)
Definition expression_holds (ls : Set_) (expr : LabelSelectorRequirement) : Prop :=
  match expression_operator (ex_Operator expr) with
  | Some OpIn => ∃ v, ls !! ex_Key expr = Some v ∧ v ∈ ex_Values expr
  | Some OpNotIn => ∀ v, ls !! ex_Key expr = Some v → v ∉ ex_Values expr
  | Some OpExists => is_Some (ls !! ex_Key expr)
  | Some OpDoesNotExist => ls !! ex_Key expr = None
  | _ => False
  end.

Lemma NewRequirement_fields k op vals r :
  NewRequirement k op vals = Ok r → r_key r = k ∧ r_operator r = op ∧ r_strValues r ≡ₚ vals.
Proof.
  unfold NewRequirement. destruct (label_ok _); [|done]. simpl. destruct (check_values _ _); [|done]. simpl.
  destruct (validate_values _); [|done]. simpl. intros [= <-]. split_and!; [done|done|]. apply merge_sort_Permutation.
Qed.

Lemma expression_matches (ls : Set_) expr op r :
  expression_operator (ex_Operator expr) = Some op → NewRequirement (ex_Key expr) op (ex_Values expr) = Ok r →
  Requirement_Matches r ls = true ↔ expression_holds ls expr.
Proof.
  intros Hop Hr. unfold expression_holds. rewrite Hop.
  apply NewRequirement_fields in Hr as (Hk & Ho & Hv). unfold Requirement_Matches. rewrite Hk, Ho.
  assert (Hcases : op = OpIn ∨ op = OpNotIn ∨ op = OpExists ∨ op = OpDoesNotExist).
  { unfold expression_operator in Hop. repeat case_decide; naive_solver. }
  clear Hop Ho. destruct Hcases as [->|[->|[->| ->]]]; simpl; destruct (ls !! ex_Key expr) as [v|] eqn:Hl; simpl;
    rewrite ?negb_true_iff, <-?not_true_iff_false, ?hasValue_spec, ?Hv; naive_solver.
Qed.

Lemma match_labels_loop_spec (ls : Set_) pairs s s' :
  match_labels_loop pairs s = Ok s' → s ≠ nothingSelector →
  s' ≠ nothingSelector ∧
  (Selector_Matches s' ls = true ↔ Selector_Matches s ls = true ∧ Forall (λ kv, ls !! kv.1 = Some kv.2) pairs).
Proof.
  revert s. induction pairs as [|[k v] pairs IH]; intros s; simpl.
  { intros [= <-] Hs. split; [done|]. split; [by split|by intros []]. }
  destruct (NewRequirement k OpEquals [v]) as [r|e] eqn:Hr; [|done]. apply NewRequirement_single in Hr as ->.
  intros Hloop Hs. apply IH in Hloop as [Hs' Hmatch]; [|by destruct s]. split; [done|].
  rewrite Hmatch, Selector_Add_matches, Forall_singleton, equals_matches, Forall_cons. simpl. naive_solver.
Qed.

Lemma match_expressions_loop_spec (ls : Set_) exprs s s' :
  match_expressions_loop exprs s = Ok s' → s ≠ nothingSelector →
  (Selector_Matches s' ls = true ↔ Selector_Matches s ls = true ∧ Forall (expression_holds ls) exprs).
Proof.
  revert s. induction exprs as [|expr exprs IH]; intros s; simpl.
  { intros [= <-] Hs. split; [by split|by intros []]. }
  destruct (expression_operator (ex_Operator expr)) as [op|] eqn:Hop; [|done].
  destruct (NewRequirement (ex_Key expr) op (ex_Values expr)) as [r|e] eqn:Hr; [|done].
  intros Hloop Hs. rewrite (IH _ Hloop) by (by destruct s).
  rewrite Selector_Add_matches, Forall_singleton, Forall_cons, (expression_matches ls expr op r Hop Hr). naive_solver.
Qed.

(** The labels are there with the values asked for, and every expression holds; no
    selector at all matches nothing. *)
Lemma label_selector_matches (ps : option LabelSelector) s (ls : Set_) :
  LabelSelectorAsSelector ps = Ok s →
  Selector_Matches s ls = true ↔
  ∃ sel, ps = Some sel ∧ MatchLabels sel ⊆ ls ∧ Forall (expression_holds ls) (MatchExpressions sel).
Proof.
  destruct ps as [sel|]; simpl; [|intros [= <-]; naive_solver]. case_decide as Hempty.
  - intros [= <-]. assert (Hl : MatchLabels sel = ∅) by (apply map_size_empty_iff; lia).
    assert (He : MatchExpressions sel = []) by (apply length_zero_iff_nil; lia).
    split; [|done]. intros _. exists sel. rewrite Hl, He. split_and!; [done|apply map_empty_subseteq|constructor].
  - destruct (match_labels_loop _ _) as [s1|e] eqn:H1; [|done]. simpl. intros H2.
    apply (match_labels_loop_spec ls) in H1 as [Hs1 Hm1]; [|done].
    rewrite (match_expressions_loop_spec ls _ _ _ H2 Hs1), Hm1. rewrite Forall_forall.
    split.
    + intros ((_ & Hall) & Hex). exists sel. split_and!; [done| |done].
      apply map_subseteq_spec. intros k v Hk. apply (Hall (k, v)), elem_of_map_range, Hk.
    + intros (sel' & [= <-] & Hsub & Hex). split_and!; [done| |done].
      rewrite map_subseteq_spec in Hsub. intros [k v] Hin. apply Hsub. by apply elem_of_map_range.
Qed.
End matching.
