(* ===== verification/NodeInfo.v ===== *)
(** * The scheduler's view of a node

    Models plugin/pkg/scheduler/schedulercache/node_info.go and util.go, with
    GetNonzeroRequests of algorithm/priorities/util/non_zero.go: the resources
    that the pods of a node request, kept up to date as pods come and go.

    A [NodeInfo] points at three [Resource] objects.  Pointers are kept as
    locations of a [heap], because [Clone] copies the pointers and not the
    objects.  The slices of pods are copied by [Clone] and are plain lists. *)

From S2P Require Import Prelude Labels MetaSelector ClientStore.

(** ** The API objects, as far as the scheduler cache reads them *)

(** A [resource.Quantity], by what its two readings return. *)
Record Quantity := mkQuantity { MilliValue : Z; Value : Z }.

Notation ResourceList := (gmap string Quantity).

Definition ResourceCPU : string := "cpu".
Definition ResourceMemory : string := "memory".
Definition ResourceNvidiaGPU : string := "alpha.kubernetes.io/nvidia-gpu".
Definition ResourcePods : string := "pods".
Definition ResourceOpaqueIntPrefix : string := "pod.alpha.kubernetes.io/opaque-int-resource-".

Definition IsOpaqueIntResourceName (name : string) : bool :=
  String.prefix ResourceOpaqueIntPrefix name.

Record PodAffinityTerm := mkPodAffinityTerm {
  term_LabelSelector : option LabelSelector;
  term_Namespaces : option (list string);
  TopologyKey : string
}.

(** Of a decoded affinity, the two pod parts with their required terms. *)
Record Affinity := mkAffinity {
  PodAffinity : option (list PodAffinityTerm);
  PodAntiAffinity : option (list PodAffinityTerm)
}.

Record Container := mkContainer {
  c_requests : ResourceList;
  c_hostPorts : list Z
}.

Record GCEPersistentDisk := mkGCE { gce_pdName : string; gce_readOnly : bool }.
Record ISCSI := mkISCSI { iqn : string; lun : Z; targetPortal : string; iscsi_readOnly : bool }.
Record RBD := mkRBD {
  cephMonitors : list string;
  rbdPool : string;
  rbdImage : string;
  rbd_readOnly : bool
}.

(** The volume sources that can conflict; an EBS volume is its volume id. *)
Record Volume := mkVolume {
  v_gce : option GCEPersistentDisk;
  v_ebs : option string;
  v_rbd : option RBD;
  v_iscsi : option ISCSI
}.

Record NodeSelectorRequirement := mkNodeSelectorRequirement {
  nsr_key : string;
  nsr_operator : string;
  nsr_values : list string
}.

Record Toleration := mkToleration {
  tol_key : string;
  tol_operator : string;
  tol_value : string;
  tol_effect : string
}.

(** [p_nodeAffinity] is the node affinity of the specification, if it has one,
    with its required terms, if it has any.  [p_affinity] and [p_tolerations] are
    what GetAffinityFromPodAnnotations and GetTolerationsFromPodAnnotations
    return for the pod's annotations. *)
Record Pod := mkPod {
  p_namespace : string;
  p_name : string;
  p_labels : gmap string string;
  p_nodeName : string;
  p_containers : list Container;
  p_initContainers : list Container;
  p_volumes : list Volume;
  p_nodeSelector : gmap string string;
  p_nodeAffinity : option (option (list (list NodeSelectorRequirement)));
  p_affinity : result string (option Affinity);
  p_tolerations : result string (list Toleration)
}.

Definition p_requests (pod : Pod) : list ResourceList := c_requests <$> p_containers pod.

Record Taint := mkTaint { taint_key : string; taint_value : string; taint_effect : string }.

(** [n_taints] is what GetTaintsFromNodeAnnotations returns for the node's
    annotations; [n_conditions] lists the types and statuses of its
    conditions. *)
Record Node := mkNode {
  n_name : string;
  n_labels : gmap string string;
  n_allocatable : ResourceList;
  n_taints : result string (list Taint);
  n_conditions : list (string * string)
}.

(** ** Resources and the heap *)

(** A Go map that may be nil is an [option] of a map. *)
Record Resource := mkResource {
  MilliCPU : Z;
  Memory : Z;
  NvidiaGPU : Z;
  OpaqueIntResources : option (gmap string Z)
}.

Definition emptyResource : Resource := mkResource 0 0 0 None.
#[export] Instance Resource_inhabited : Inhabited Resource := populate emptyResource.

(** Reading a nil map, or a key that is absent, gives zero. *)
Definition opaque_get (m : option (gmap string Z)) (rName : string) : Z :=
  default 0%Z (m ≫= λ g, g !! rName).

(** Writing to a nil map panics. *)
Definition map_assign (m : option (gmap string Z)) (rName : string) (v : Z)
    : outcome (option (gmap string Z)) :=
  match m with
  | None => Panic "assignment to entry in nil map"
  | Some g => Ret (Some (<[rName := v]> g))
  end.

Record heap := mkHeap { objects : gmap nat Resource; next : nat }.

Definition load (h : heap) (l : nat) : Resource := objects h !!! l.
Definition store (h : heap) (l : nat) (r : Resource) : heap :=
  mkHeap (<[l := r]> (objects h)) (next h).
Definition alloc (h : heap) (r : Resource) : heap * nat :=
  (mkHeap (<[next h := r]> (objects h)) (S (next h)), next h).

Definition empty_heap : heap := mkHeap ∅ 0.

(** ** NodeInfo *)

Definition ConditionUnknown : string := "Unknown".

Record NodeInfo := mkNodeInfo {
  ni_node : option Node;
  ni_pods : list Pod;
  ni_podsWithAffinity : list Pod;
  requestedResource : nat;
  nonzeroRequest : nat;
  allocatableResource : nat;
  ni_allowedPodNumber : Z;
  ni_taints : list Taint;
  ni_taintsErr : option string;
  memoryPressureCondition : string;
  diskPressureCondition : string;
  generation : Z
}.

Inductive sched_error :=
  | NoCorrespondingPod (pod node : string)
  | NotInitial (key : string)
  | AssumedElsewhere (key : string)
  | NotAssumed (key : string)
  | AlreadyAdded (key : string)
  | UpdateNotAdded (key : string)
  | RemoveNotAdded (key : string)
  | PodKeyError (e : key_error).

Definition getPodKey (pod : Pod) : result key_error string :=
  MetaNamespaceKeyFunc (WithMeta (p_namespace pod) (p_name pod)).

Definition DefaultMilliCpuRequest : Z := 100.
Definition DefaultMemoryRequest : Z := (200 * 1024 * 1024)%Z.

Definition GetNonzeroRequests (requests : ResourceList) : Z * Z :=
  (match requests !! ResourceCPU with
   | None => DefaultMilliCpuRequest
   | Some q => MilliValue q
   end,
   match requests !! ResourceMemory with
   | None => DefaultMemoryRequest
   | Some q => Value q
   end).

(** The switch in the inner loop of calculateResource. *)
Definition count_request (res : Resource) (request : string * Quantity) : Resource :=
  let '(rName, rQuant) := request in
  let '(mkResource cpu mem gpu opaque) := res in
  if decide (rName = ResourceCPU) then
    mkResource (add64 cpu (MilliValue rQuant)) mem gpu opaque
  else if decide (rName = ResourceMemory) then
    mkResource cpu (add64 mem (Value rQuant)) gpu opaque
  else if decide (rName = ResourceNvidiaGPU) then
    mkResource cpu mem (add64 gpu (Value rQuant)) opaque
  else if IsOpaqueIntResourceName rName then
    let opaque' := default ∅ opaque in
    mkResource cpu mem gpu
      (Some (<[rName := add64 (opaque_get (Some opaque') rName) (Value rQuant)]> opaque'))
  else res.

Definition hasPodAffinityConstraints (pod : Pod) : bool :=
  match p_affinity pod with
  | Err _ => false
  | Ok None => false
  | Ok (Some affinity) => bool_decide (is_Some (PodAffinity affinity)) || bool_decide (is_Some (PodAntiAffinity affinity))
  end.

Section node_info.
Context `{!MapRange}.

Definition count_container (acc : Resource * Z * Z) (requests : ResourceList) : Resource * Z * Z :=
  let '(res, non0_cpu, non0_mem) := acc in
  let res' := foldl count_request res (map_range requests) in
  let '(non0_cpu_req, non0_mem_req) := GetNonzeroRequests requests in
  (res', add64 non0_cpu non0_cpu_req, add64 non0_mem non0_mem_req).

Definition calculateResource (pod : Pod) : Resource * Z * Z :=
  foldl count_container (emptyResource, 0%Z, 0%Z) (p_requests pod).

(** [for rName, rQuant := range ... { m[rName] = op(m[rName], rQuant) }] *)
Fixpoint opaque_loop (op : Z → Z → Z) (l : list (string * Z)) (m : option (gmap string Z))
    : outcome (option (gmap string Z)) :=
  match l with
  | [] => Ret m
  | (rName, rQuant) :: l' =>
      m' ?<- map_assign m rName (op (opaque_get m rName) rQuant);
      opaque_loop op l' m'
  end.

(** The requested resources, with those of a pod added or subtracted. *)
Definition Resource_combine (op : Z → Z → Z) (r res : Resource) : outcome Resource :=
  let extra := default ∅ (OpaqueIntResources res) in
  let opaque :=
    match OpaqueIntResources r with
    | None => if decide (0 < size extra) then Some ∅ else None
    | Some g => Some g
    end in
  opaque' ?<- opaque_loop op (map_range extra) opaque;
  Ret (mkResource (op (MilliCPU r) (MilliCPU res)) (op (Memory r) (Memory res))
         (op (NvidiaGPU r) (NvidiaGPU res)) opaque').

Definition Nonzero_combine (op : Z → Z → Z) (r : Resource) (non0_cpu non0_mem : Z) : Resource :=
  mkResource (op (MilliCPU r) non0_cpu) (op (Memory r) non0_mem) (NvidiaGPU r)
    (OpaqueIntResources r).

(** Write both totals, bump the generation and install the pod lists. *)
Definition account (op : Z → Z → Z) (pod : Pod) (pods podsWithAffinity : list Pod)
    (h : heap) (n : NodeInfo) : outcome (heap * NodeInfo) :=
  let '(res, non0_cpu, non0_mem) := calculateResource pod in
  r' ?<- Resource_combine op (load h (requestedResource n)) res;
  let h1 := store h (requestedResource n) r' in
  let h2 := store h1 (nonzeroRequest n)
              (Nonzero_combine op (load h1 (nonzeroRequest n)) non0_cpu non0_mem) in
  Ret (h2, mkNodeInfo (ni_node n) pods podsWithAffinity
             (requestedResource n) (nonzeroRequest n) (allocatableResource n)
             (ni_allowedPodNumber n) (ni_taints n) (ni_taintsErr n)
             (memoryPressureCondition n) (diskPressureCondition n)
             (add64 (generation n) 1)).

Definition addPod (pod : Pod) (h : heap) (n : NodeInfo) : outcome (heap * NodeInfo) :=
  account add64 pod (ni_pods n ++ [pod])
    (if hasPodAffinityConstraints pod then ni_podsWithAffinity n ++ [pod]
     else ni_podsWithAffinity n) h n.

(** The index of the first pod with the given key. *)
Fixpoint find_pod (k1 : string) (l : list Pod) : option nat :=
  match l with
  | [] => None
  | pod :: l' =>
      match getPodKey pod with
      | Err _ => S <$> find_pod k1 l'
      | Ok k2 => if decide (k1 = k2) then Some 0 else S <$> find_pod k1 l'
      end
  end.

(** [l[i] = l[len(l)-1]; l = l[:len(l)-1]] *)
Definition delete_swap (i : nat) (l : list Pod) : list Pod :=
  match last l with
  | None => l
  | Some x => take (length l - 1) (<[i := x]> l)
  end.

Definition set_podsWithAffinity (l : list Pod) (n : NodeInfo) : NodeInfo :=
  mkNodeInfo (ni_node n) (ni_pods n) l
    (requestedResource n) (nonzeroRequest n) (allocatableResource n)
    (ni_allowedPodNumber n) (ni_taints n) (ni_taintsErr n)
    (memoryPressureCondition n) (diskPressureCondition n) (generation n).

Definition removePod (pod : Pod) (h : heap) (n : NodeInfo)
    : outcome (result sched_error () * heap * NodeInfo) :=
  match getPodKey pod with
  | Err e => Ret (Err (PodKeyError e), h, n)
  | Ok k1 =>
      let n1 :=
        match find_pod k1 (ni_podsWithAffinity n) with
        | Some i => set_podsWithAffinity (delete_swap i (ni_podsWithAffinity n)) n
        | None => n
        end in
      match find_pod k1 (ni_pods n1) with
      | Some i =>
          hn ?<- account sub64 pod (delete_swap i (ni_pods n1)) (ni_podsWithAffinity n1) h n1;
          Ret (Ok (), hn.1, hn.2)
      | None =>
          match ni_node n1 with
          | None => Panic "nil pointer dereference"
          | Some node => Ret (Err (NoCorrespondingPod (p_name pod) (n_name node)), h, n1)
          end
      end
  end.

Fixpoint addPods (pods : list Pod) (h : heap) (n : NodeInfo) : outcome (heap * NodeInfo) :=
  match pods with
  | [] => Ret (h, n)
  | pod :: pods' => hn ?<- addPod pod h n; addPods pods' hn.1 hn.2
  end.

Definition NewNodeInfo (pods : list Pod) (h : heap) : outcome (heap * NodeInfo) :=
  let '(h1, l1) := alloc h emptyResource in
  let '(h2, l2) := alloc h1 emptyResource in
  let '(h3, l3) := alloc h2 emptyResource in
  addPods pods h3 (mkNodeInfo None [] [] l1 l2 l3 0 [] None "" "" 0).

(** The switch in the loop of SetNode over the allocatable resources. *)
Definition set_allocatable (acc : Resource * Z) (entry : string * Quantity) : Resource * Z :=
  let '(rName, rQuant) := entry in
  let '(mkResource cpu mem gpu opaque, allowed) := acc in
  if decide (rName = ResourceCPU) then
    (mkResource (MilliValue rQuant) mem gpu opaque, allowed)
  else if decide (rName = ResourceMemory) then
    (mkResource cpu (Value rQuant) gpu opaque, allowed)
  else if decide (rName = ResourceNvidiaGPU) then
    (mkResource cpu mem (Value rQuant) opaque, allowed)
  else if decide (rName = ResourcePods) then
    (mkResource cpu mem gpu opaque, Value rQuant)
  else if IsOpaqueIntResourceName rName then
    (mkResource cpu mem gpu (Some (<[rName := Value rQuant]> (default ∅ opaque))), allowed)
  else acc.

(** The loop of SetNode over the conditions: memory and disk pressure. *)
Definition set_condition (acc : string * string) (cond : string * string) : string * string :=
  let '(memory, disk) := acc in
  let '(type, status) := cond in
  if decide (type = "MemoryPressure") then (status, disk)
  else if decide (type = "DiskPressure") then (memory, status)
  else acc.

Definition SetNode (node : Node) (h : heap) (n : NodeInfo) : heap * NodeInfo :=
  let '(alloc', allowed) :=
    foldl set_allocatable (load h (allocatableResource n), ni_allowedPodNumber n)
      (map_range (n_allocatable node)) in
  let '(taints, taintsErr) :=
    match n_taints node with
    | Ok ts => (ts, None)
    | Err e => ([], Some e)
    end in
  let '(memory, disk) :=
    foldl set_condition (memoryPressureCondition n, diskPressureCondition n)
      (n_conditions node) in
  (store h (allocatableResource n) alloc',
   mkNodeInfo (Some node) (ni_pods n) (ni_podsWithAffinity n)
     (requestedResource n) (nonzeroRequest n) (allocatableResource n)
     allowed taints taintsErr memory disk (add64 (generation n) 1)).

Definition NodeInfo_RemoveNode (h : heap) (n : NodeInfo) : heap * NodeInfo :=
  let '(h', l) := alloc h emptyResource in
  (h', mkNodeInfo None (ni_pods n) (ni_podsWithAffinity n)
         (requestedResource n) (nonzeroRequest n) l
         0 [] None ConditionUnknown ConditionUnknown (add64 (generation n) 1)).

(** [&( *n.requestedResource)] is the pointer itself: the clone shares the
    three resource objects. *)
Definition Clone (n : NodeInfo) : NodeInfo :=
  mkNodeInfo (ni_node n) (ni_pods n) (ni_podsWithAffinity n)
    (requestedResource n) (nonzeroRequest n) (allocatableResource n)
    (ni_allowedPodNumber n) (ni_taints n) (ni_taintsErr n)
    (memoryPressureCondition n) (diskPressureCondition n) (generation n).

(** ** Readings, on a pointer that may be nil *)

Definition RequestedResource (h : heap) (n : option NodeInfo) : Resource :=
  match n with
  | None => emptyResource
  | Some n => load h (requestedResource n)
  end.

Definition NonZeroRequest (h : heap) (n : option NodeInfo) : Resource :=
  match n with
  | None => emptyResource
  | Some n => load h (nonzeroRequest n)
  end.

Definition AllocatableResource (h : heap) (n : option NodeInfo) : Resource :=
  match n with
  | None => emptyResource
  | Some n => load h (allocatableResource n)
  end.

Definition NodeInfo_Pods (n : option NodeInfo) : list Pod :=
  match n with
  | None => []
  | Some n => ni_pods n
  end.

(** ** CreateNodeNameToInfoMap (util.go) *)

Notation infos := (gmap string NodeInfo).

(** [if _, ok := m[name]; !ok { m[name] = NewNodeInfo() }] *)
Definition info_of (name : string) (h : heap) (m : infos) : outcome (heap * NodeInfo) :=
  match m !! name with
  | Some n => Ret (h, n)
  | None => NewNodeInfo [] h
  end.

Fixpoint create_add_pods (pods : list Pod) (h : heap) (m : infos) : outcome (heap * infos) :=
  match pods with
  | [] => Ret (h, m)
  | pod :: pods' =>
      hn ?<- info_of (p_nodeName pod) h m;
      hn' ?<- addPod pod hn.1 hn.2;
      create_add_pods pods' hn'.1 (<[p_nodeName pod := hn'.2]> m)
  end.

Fixpoint create_set_nodes (nodes : list Node) (h : heap) (m : infos) : outcome (heap * infos) :=
  match nodes with
  | [] => Ret (h, m)
  | node :: nodes' =>
      hn ?<- info_of (n_name node) h m;
      let '(h', n') := SetNode node hn.1 hn.2 in
      create_set_nodes nodes' h' (<[n_name node := n']> m)
  end.

Definition CreateNodeNameToInfoMap (pods : list Pod) (nodes : list Node) (h : heap)
    : outcome (heap * infos) :=
  hm ?<- create_add_pods pods h ∅;
  create_set_nodes nodes hm.1 hm.2.

End node_info.

(** ** What a resource holds

    [amount name r] reads the amount of the named resource, [units name q] the
    part of a quantity that counts for it. *)

Definition tracked (name : string) : bool :=
  bool_decide (name = ResourceCPU) || bool_decide (name = ResourceMemory)
  || bool_decide (name = ResourceNvidiaGPU) || IsOpaqueIntResourceName name.

Definition amount (name : string) (r : Resource) : Z :=
  if decide (name = ResourceCPU) then MilliCPU r
  else if decide (name = ResourceMemory) then Memory r
  else if decide (name = ResourceNvidiaGPU) then NvidiaGPU r
  else if IsOpaqueIntResourceName name then opaque_get (OpaqueIntResources r) name
  else 0%Z.

Definition units (name : string) (q : Quantity) : Z :=
  if decide (name = ResourceCPU) then MilliValue q else Value q.

(** The request of a container for a resource, and the request that counts for
    the priority functions, which have defaults. *)
Definition requested (name : string) (requests : ResourceList) : Z :=
  if tracked name then from_option (units name) 0%Z (requests !! name) else 0%Z.

Definition nonzero_cpu (requests : ResourceList) : Z := (GetNonzeroRequests requests).1.
Definition nonzero_mem (requests : ResourceList) : Z := (GetNonzeroRequests requests).2.

(** The requests of all the containers of a pod. *)
Definition pod_requested (name : string) (pod : Pod) : Z := sumZ (requested name) (p_requests pod).
Definition pod_nonzero_cpu (pod : Pod) : Z := sumZ nonzero_cpu (p_requests pod).
Definition pod_nonzero_mem (pod : Pod) : Z := sumZ nonzero_mem (p_requests pod).

(** Totals as the sums, modulo 2^64, of what the containers of the pods ask. *)
Definition totals (r nonzero : Resource) (pods : list Pod) : Prop :=
  (∀ name, amount name r = wrap64 (sumZ (pod_requested name) pods)) ∧
  MilliCPU nonzero = wrap64 (sumZ pod_nonzero_cpu pods) ∧
  Memory nonzero = wrap64 (sumZ pod_nonzero_mem pods).

Definition int64_resource (r : Resource) : Prop :=
  ∀ name, wrap64 (amount name r) = amount name r.

Section specification.
Context `{!MapRange}.

Definition pod_res (pod : Pod) : Resource := (calculateResource pod).1.1.
Definition pod_non0_cpu (pod : Pod) : Z := (calculateResource pod).1.2.
Definition pod_non0_mem (pod : Pod) : Z := (calculateResource pod).2.

(** The two totals are those of the pods. *)
Definition accounts (r nonzero : Resource) (pods : list Pod) : Prop :=
  (∀ name, amount name r = wrap64 (sumZ (λ p, amount name (pod_res p)) pods)) ∧
  MilliCPU nonzero = wrap64 (sumZ pod_non0_cpu pods) ∧
  Memory nonzero = wrap64 (sumZ pod_non0_mem pods).

Definition info_accounts (h : heap) (n : NodeInfo) : Prop :=
  accounts (load h (requestedResource n)) (load h (nonzeroRequest n)) (ni_pods n).

Inductive rfield := FRequested | FNonzero | FAllocatable.

Definition loc_of (f : rfield) (n : NodeInfo) : nat :=
  match f with
  | FRequested => requestedResource n
  | FNonzero => nonzeroRequest n
  | FAllocatable => allocatableResource n
  end.

(** The nodes of a map own their resource objects: no two fields point at
    the same one. *)
Record infos_ok (h : heap) (m : gmap string NodeInfo) : Prop := {
  io_alloc name n f : m !! name = Some n → loc_of f n < next h;
  io_sep name1 n1 f1 name2 n2 f2 :
    m !! name1 = Some n1 → m !! name2 = Some n2 → loc_of f1 n1 = loc_of f2 n2 →
    name1 = name2 ∧ f1 = f2;
  io_accounts name n : m !! name = Some n → info_accounts h n
}.

(** [h'] differs from [h] only in the objects of [n]. *)
Definition only_touches (h : heap) (n : NodeInfo) (h' : heap) : Prop :=
  next h' = next h ∧ ∀ l, (∀ f, l ≠ loc_of f n) → load h' l = load h l.

Definition own_objects (n : NodeInfo) : Prop :=
  ∀ f1 f2, loc_of f1 n = loc_of f2 n → f1 = f2.

(** Everything but the pods and the generation is the same. *)
Definition same_node (n n' : NodeInfo) : Prop :=
  (∀ f, loc_of f n' = loc_of f n) ∧ ni_node n' = ni_node n ∧
  ni_allowedPodNumber n' = ni_allowedPodNumber n ∧ ni_taints n' = ni_taints n ∧
  ni_taintsErr n' = ni_taintsErr n ∧
  memoryPressureCondition n' = memoryPressureCondition n ∧
  diskPressureCondition n' = diskPressureCondition n.

Definition pod_key (pod : Pod) : string :=
  match getPodKey pod with
  | Ok key => key
  | Err _ => ""
  end.

(** The pods of a node have different keys, and those with affinity
    constraints are listed apart. *)
Definition lists_ok (n : NodeInfo) : Prop :=
  NoDup (pod_key <$> ni_pods n) ∧
  ni_podsWithAffinity n ≡ₚ filter (λ p, hasPodAffinityConstraints p = true) (ni_pods n).

End specification.

(** ** The request of a pod *)

Lemma opaque_not_special name :
  IsOpaqueIntResourceName name = true →
  name ≠ ResourceCPU ∧ name ≠ ResourceMemory ∧ name ≠ ResourceNvidiaGPU.
Proof. intros H. repeat split; intros ->; vm_compute in H; discriminate. Qed.

Lemma amount_untracked name r : tracked name = false → amount name r = 0%Z.
Proof.
  unfold tracked, amount. intros [[[H1 H2]%orb_false_iff H3]%orb_false_iff H4]%orb_false_iff.
  apply bool_decide_eq_false in H1, H2, H3.
  rewrite !decide_False by done. by rewrite H4.
Qed.

Lemma amount_empty name : amount name emptyResource = 0%Z.
Proof. unfold amount. repeat case_decide; simpl; try done. by destruct (IsOpaqueIntResourceName name). Qed.

Lemma amount_count_request name r e :
  amount name (count_request r e) =
  if decide (name = e.1) then
    if tracked name then add64 (amount name r) (units name e.2) else 0%Z
  else amount name r.
Proof.
  destruct e as [k q], r as [cpu mem gpu opaque]. unfold count_request.
  destruct (tracked name) eqn:Ht; cycle 1.
  { rewrite !(amount_untracked name) by done. cbn [fst]. by case_decide. }
  unfold amount, units, tracked in *. cbn [fst snd].
  destruct (decide (k = ResourceCPU)) as [->|Hc].
  { by repeat case_decide; simplify_eq/=. }
  destruct (decide (k = ResourceMemory)) as [->|Hm].
  { by repeat case_decide; simplify_eq/=. }
  destruct (decide (k = ResourceNvidiaGPU)) as [->|Hg].
  { by repeat case_decide; simplify_eq/=. }
  destruct (decide (name = k)) as [->|Hk].
  - rewrite !bool_decide_eq_false_2 in Ht by done. simpl in Ht. rewrite Ht.
    rewrite !decide_False by done. simpl. unfold opaque_get. simpl.
    rewrite lookup_insert_eq. simpl. by destruct opaque.
  - destruct (IsOpaqueIntResourceName k) eqn:Hop; [|done].
    repeat case_decide; try done. simpl. destruct (IsOpaqueIntResourceName name); [|done].
    unfold opaque_get. simpl. rewrite lookup_insert_ne by done. by destruct opaque.
Qed.

Lemma wrap64_wrap64 z : wrap64 (wrap64 z) = wrap64 z.
Proof. apply wrap64_id, wrap64_bounds. Qed.

Lemma amount_count_requests name l r :
  wrap64 (amount name r) = amount name r →
  amount name (foldl count_request r l) =
  wrap64 (amount name r + sumZ (λ e, if decide (name = e.1) then
    (if tracked name then units name e.2 else 0) else 0)%Z l)%Z.
Proof.
  revert r. induction l as [|e l IH]; intros r Hr; simpl.
  { by rewrite Z.add_0_r. }
  rewrite IH; rewrite amount_count_request.
  - destruct (tracked name) eqn:Ht.
    + case_decide; [|f_equal; lia].
      unfold add64. rewrite wrap64_add_l. f_equal. lia.
    + rewrite (amount_untracked name r) by done. by repeat case_decide.
  - repeat case_decide; repeat case_match; try done. apply wrap64_wrap64.
Qed.

Section request.
Context `{!MapRange}.

Lemma count_containers name cs res c0 m0 :
  wrap64 (amount name res) = amount name res → wrap64 c0 = c0 → wrap64 m0 = m0 →
  let '(res', c', m') := foldl count_container (res, c0, m0) cs in
  amount name res' = wrap64 (amount name res + sumZ (requested name) cs)%Z ∧
  c' = wrap64 (c0 + sumZ nonzero_cpu cs)%Z ∧
  m' = wrap64 (m0 + sumZ nonzero_mem cs)%Z.
Proof.
  revert res c0 m0. induction cs as [|c cs IH]; intros res c0 m0 Hr Hc Hm; simpl.
  { by rewrite !Z.add_0_r. }
  set (res1 := foldl count_request res (map_range c)).
  assert (Hres1 : amount name res1 = wrap64 (amount name res + requested name c)%Z).
  { unfold res1. rewrite amount_count_requests by done. f_equal. f_equal.
    unfold requested. destruct (tracked name).
    - apply (sumZ_map_range (units name)).
    - generalize (map_range c). induction l; simpl; [done|]. by case_decide. }
  specialize (IH res1 (add64 c0 (nonzero_cpu c)) (add64 m0 (nonzero_mem c))).
  destruct (foldl count_container _ cs) as [[res' c'] m'] eqn:Hf.
  destruct IH as (H1 & H2 & H3).
  - rewrite Hres1. apply wrap64_wrap64.
  - apply wrap64_wrap64.
  - apply wrap64_wrap64.
  - rewrite H1, H2, H3, Hres1. unfold add64. rewrite !wrap64_add_l.
    split_and!; f_equal; lia.
Qed.

(** ** Adding to and subtracting from a total *)

Lemma opaque_loop_spec op l m :
  NoDup l.*1 → l = [] ∨ is_Some m →
  ∃ m', opaque_loop op l m = Ret m' ∧
    ∀ name, opaque_get m' name =
      match (list_to_map l : gmap string Z) !! name with
      | Some q => op (opaque_get m name) q
      | None => opaque_get m name
      end.
Proof.
  revert m. induction l as [|[k q] l IH]; intros m Hnd Hm.
  { exists m. split; [done|]. intros name. simpl. by rewrite lookup_empty. }
  destruct Hm as [?|[g ->]]; [done|]. csimpl in Hnd. apply NoDup_cons in Hnd as [Hk Hnd].
  destruct (IH (Some (<[k := op (opaque_get (Some g) k) q]> g)) Hnd) as (m' & Hrun & Hget);
    [by right|].
  exists m'. split; [done|]. intros name. rewrite Hget. simpl.
  apply (not_elem_of_list_to_map_1 (M := gmap string)) in Hk.
  destruct (decide (name = k)) as [->|Hne].
  - rewrite Hk, lookup_insert_eq. unfold opaque_get. simpl. by rewrite lookup_insert_eq.
  - rewrite (lookup_insert_ne _ k name) by done.
    unfold opaque_get. simpl. by rewrite lookup_insert_ne.
Qed.

(** A wrapping operation for which zero is neutral: [add64] and [sub64]. *)
Definition wrapping (op : Z → Z → Z) : Prop :=
  ∀ x, wrap64 x = x → op x 0%Z = x.

Lemma add64_wrapping : wrapping add64.
Proof. intros x Hx. unfold add64. by rewrite Z.add_0_r. Qed.

Lemma sub64_wrapping : wrapping sub64.
Proof. intros x Hx. unfold sub64. by rewrite Z.sub_0_r. Qed.

Lemma Resource_combine_spec op r res :
  wrapping op → int64_resource r →
  ∃ r', Resource_combine op r res = Ret r' ∧
    ∀ name, amount name r' =
      if tracked name then op (amount name r) (amount name res) else 0%Z.
Proof.
  intros Hop Hr. unfold Resource_combine.
  set (extra := default ∅ (OpaqueIntResources res)).
  set (m := match OpaqueIntResources r with None => _ | Some g => _ end).
  assert (Hm : ∀ name, opaque_get m name = opaque_get (OpaqueIntResources r) name).
  { intros name. unfold m. destruct (OpaqueIntResources r); [done|]. by case_decide. }
  destruct (opaque_loop_spec op (map_range extra) m) as (m' & -> & Hget).
  - apply NoDup_fst_map_range.
  - unfold m. destruct (OpaqueIntResources r); [by right|]. case_decide as Hs; [by right|].
    left. apply length_zero_iff_nil. rewrite length_map_range. lia.
  - eexists. split; [done|]. intros name.
    destruct (tracked name) eqn:Ht; [|by apply amount_untracked].
    specialize (Hr name). specialize (Hget name). rewrite list_to_map_range, Hm in Hget.
    unfold amount, tracked in *. repeat case_decide; simpl; try done.
    rewrite !bool_decide_eq_false_2 in Ht by done. simpl in Ht. rewrite Ht in *.
    rewrite Hget. unfold extra. unfold opaque_get at 4.
    destruct (OpaqueIntResources res) as [g|]; simpl; [|by rewrite lookup_empty, Hop].
    destruct (g !! name); simpl; [done|]. by rewrite Hop.
Qed.

Lemma accounts_int64 r nz pods : accounts r nz pods → int64_resource r.
Proof. intros [Hr _] name. rewrite Hr. apply wrap64_wrap64. Qed.

Lemma load_store_eq h l r : load (store h l r) l = r.
Proof. unfold load, store. simpl. by rewrite lookup_total_insert_eq. Qed.

Lemma load_store_ne h l l' r : l ≠ l' → load (store h l r) l' = load h l'.
Proof. intros. unfold load, store. simpl. by rewrite lookup_total_insert_ne. Qed.

(** What [account] does, whatever the totals were. *)
Lemma account_spec op pod pods aff h n :
  wrapping op → own_objects n → int64_resource (load h (requestedResource n)) →
  ∃ h' n', account op pod pods aff h n = Ret (h', n') ∧
    only_touches h n h' ∧ same_node n n' ∧ ni_pods n' = pods ∧
    ni_podsWithAffinity n' = aff ∧ generation n' = add64 (generation n) 1 ∧
    load h' (allocatableResource n) = load h (allocatableResource n) ∧
    (∀ name, amount name (load h' (requestedResource n)) =
       if tracked name then op (amount name (load h (requestedResource n)))
                             (amount name (pod_res pod)) else 0%Z) ∧
    MilliCPU (load h' (nonzeroRequest n)) =
      op (MilliCPU (load h (nonzeroRequest n))) (pod_non0_cpu pod) ∧
    Memory (load h' (nonzeroRequest n)) =
      op (Memory (load h (nonzeroRequest n))) (pod_non0_mem pod).
Proof.
  intros Hop Hown Hr. unfold account, pod_res, pod_non0_cpu, pod_non0_mem.
  destruct (calculateResource pod) as [[res c0] m0]. simpl.
  destruct (Resource_combine_spec op _ res Hop Hr) as (r' & -> & Hr'). simpl.
  assert (requestedResource n ≠ nonzeroRequest n).
  { intros H0. by apply (Hown FRequested FNonzero) in H0. }
  assert (requestedResource n ≠ allocatableResource n).
  { intros H1. by apply (Hown FRequested FAllocatable) in H1. }
  assert (nonzeroRequest n ≠ allocatableResource n).
  { intros H2. by apply (Hown FNonzero FAllocatable) in H2. }
  eexists _, _. split; [done|]. split_and!; try done.
  - split; [done|]. intros l Hl. pose proof (Hl FRequested). pose proof (Hl FNonzero).
    simpl in *. by rewrite !load_store_ne.
  - by rewrite !load_store_ne.
  - intros name. by rewrite load_store_ne, load_store_eq.
  - by rewrite load_store_eq, load_store_ne.
  - by rewrite load_store_eq, load_store_ne.
Qed.

Lemma account_add_accounts pod aff h n :
  own_objects n → info_accounts h n →
  ∃ h' n', account add64 pod (ni_pods n ++ [pod]) aff h n = Ret (h', n') ∧
    only_touches h n h' ∧ same_node n n' ∧ info_accounts h' n' ∧
    ni_pods n' = ni_pods n ++ [pod] ∧ ni_podsWithAffinity n' = aff ∧
    generation n' = add64 (generation n) 1.
Proof.
  intros Hown Hacc. pose proof (accounts_int64 _ _ _ Hacc) as Hint.
  destruct Hacc as (Hr & Hc & Hm).
  destruct (account_spec add64 pod (ni_pods n ++ [pod]) aff h n add64_wrapping Hown Hint)
    as (h' & n' & Hrun & Ht & Hs & Hpods & Haff & Hgen & _ & Hr' & Hc' & Hm').
  exists h', n'. split_and!; try done.
  destruct Hs as [Hloc _]. unfold info_accounts, accounts.
  rewrite (Hloc FRequested : requestedResource n' = requestedResource n),
    (Hloc FNonzero : nonzeroRequest n' = nonzeroRequest n).
  rewrite Hpods, Hc', Hm', Hc, Hm. unfold add64. rewrite !wrap64_add_l, !sumZ_app. simpl.
  split_and!; try (f_equal; lia). intros name. rewrite Hr', sumZ_app, Hr. simpl.
  destruct (tracked name) eqn:Htr.
  - unfold add64. rewrite wrap64_add_l. f_equal. lia.
  - rewrite amount_untracked by done. specialize (Hr name).
    rewrite amount_untracked in Hr by done. by rewrite !Z.add_0_r.
Qed.

Lemma account_sub_accounts pod p pods aff h n :
  own_objects n → info_accounts h n →
  ni_pods n ≡ₚ p :: pods → calculateResource p = calculateResource pod →
  ∃ h' n', account sub64 pod pods aff h n = Ret (h', n') ∧
    only_touches h n h' ∧ same_node n n' ∧ info_accounts h' n' ∧
    ni_pods n' = pods ∧ ni_podsWithAffinity n' = aff ∧
    generation n' = add64 (generation n) 1.
Proof.
  intros Hown Hacc Hp Heq. pose proof (accounts_int64 _ _ _ Hacc) as Hint.
  destruct Hacc as (Hr & Hc & Hm).
  destruct (account_spec sub64 pod pods aff h n sub64_wrapping Hown Hint)
    as (h' & n' & Hrun & Ht & Hs & Hpods & Haff & Hgen & _ & Hr' & Hc' & Hm').
  exists h', n'. split_and!; try done.
  destruct Hs as [Hloc _]. unfold info_accounts, accounts.
  rewrite (Hloc FRequested : requestedResource n' = requestedResource n),
    (Hloc FNonzero : nonzeroRequest n' = nonzeroRequest n).
  unfold pod_non0_cpu, pod_non0_mem, pod_res in *.
  rewrite Hpods, Hc', Hm', Hc, Hm, Hp. unfold sub64. rewrite !wrap64_sub_l. simpl. rewrite Heq.
  split_and!; try (f_equal; lia). intros name. rewrite Hr', Hr, Hp. simpl. rewrite Heq.
  destruct (tracked name) eqn:Htr.
  - unfold sub64. rewrite wrap64_sub_l. f_equal. lia.
  - specialize (Hr name). rewrite amount_untracked, Hp in Hr by done. simpl in Hr.
    rewrite Heq, amount_untracked in Hr by done. done.
Qed.

(** ** The lists of pods *)

Lemma getPodKey_pod_key pod : getPodKey pod = Ok (pod_key pod).
Proof. unfold pod_key, getPodKey, MetaNamespaceKeyFunc. by case_decide. Qed.

Lemma find_pod_spec k l :
  match find_pod k l with
  | Some i => ∃ p, l !! i = Some p ∧ pod_key p = k
  | None => k ∉ pod_key <$> l
  end.
Proof.
  induction l as [|p l IH]; simpl; [apply not_elem_of_nil|].
  rewrite getPodKey_pod_key. case_decide as Hk; [eauto|].
  destruct (find_pod k l) as [i|]; simpl; [done|].
  csimpl. by rewrite not_elem_of_cons.
Qed.

Lemma delete_swap_perm i l p : l !! i = Some p → l ≡ₚ p :: delete_swap i l.
Proof.
  intros Hi. unfold delete_swap. destruct (last l) as [x|] eqn:Hl; cycle 1.
  { apply last_None in Hl as ->. done. }
  apply last_Some in Hl as [l' ->]. rewrite length_app. simpl.
  replace (length l' + 1 - 1) with (length l') by lia.
  destruct (decide (i < length l')) as [Hlt|Hge].
  - rewrite lookup_app_l in Hi by done. rewrite insert_app_l by done.
    rewrite take_app_le, take_ge by (rewrite length_insert; lia).
    apply list_elem_of_split_length in Hi as (l1 & l2 & -> & ->).
    replace (length l1) with (length l1 + 0) by lia.
    rewrite insert_app_r. simpl. solve_Permutation.
  - assert (i = length l') as ->.
    { apply lookup_lt_Some in Hi. rewrite length_app in Hi. simpl in Hi. lia. }
    rewrite list_lookup_middle in Hi by done. simplify_eq.
    rewrite insert_app_r_alt, Nat.sub_diag by lia. simpl.
    rewrite take_app_length. by rewrite Permutation_app_comm.
Qed.

Lemma NoDup_key_unique (l : list Pod) p q :
  NoDup (pod_key <$> l) → p ∈ l → q ∈ l → pod_key p = pod_key q → p = q.
Proof.
  intros Hnd [i Hi]%list_elem_of_lookup [j Hj]%list_elem_of_lookup Heq.
  assert (i = j) as ->; [|congruence].
  eapply NoDup_lookup; [done| |]; rewrite list_lookup_fmap.
  - by rewrite Hi.
  - by rewrite Hj, Heq.
Qed.

(** Removing a key from the list of pods with affinity keeps it the filter. *)
Lemma affinity_removed (pods pods' aff aff' : list Pod) p :
  NoDup (pod_key <$> pods) → pods ≡ₚ p :: pods' →
  aff ≡ₚ filter (λ p, hasPodAffinityConstraints p = true) pods →
  aff' = match find_pod (pod_key p) aff with
         | Some i => delete_swap i aff
         | None => aff
         end →
  aff' ≡ₚ filter (λ p, hasPodAffinityConstraints p = true) pods'.
Proof.
  intros Hnd Hp Haff ->. pose proof (find_pod_spec (pod_key p) aff) as Hfind.
  assert (Hin : p ∈ pods) by (rewrite Hp; left).
  destruct (find_pod (pod_key p) aff) as [i|].
  - destruct Hfind as (q & Hi & Hq). pose proof (delete_swap_perm _ _ _ Hi) as Hdel.
    assert (Hqa : q ∈ aff) by (eapply list_elem_of_lookup_2; done).
    rewrite Haff, list_elem_of_filter in Hqa. destruct Hqa as [Hhas Hqp].
    assert (q = p) as -> by by eapply NoDup_key_unique.
    rewrite Hp, filter_cons_True in Haff by done.
    apply (Permutation_cons_inv (a := p)). by rewrite <-Haff.
  - rewrite Haff, Hp, filter_cons_False; [done|].
    intros Hhas. apply Hfind. apply list_elem_of_fmap. exists p. split; [done|].
    rewrite Haff. by apply list_elem_of_filter.
Qed.

(** ** Adding and removing a pod *)

Lemma addPod_spec pod h n :
  own_objects n → info_accounts h n →
  ∃ h' n', addPod pod h n = Ret (h', n') ∧
    only_touches h n h' ∧ same_node n n' ∧ info_accounts h' n' ∧
    ni_pods n' = ni_pods n ++ [pod] ∧
    (lists_ok n → pod_key pod ∉ pod_key <$> ni_pods n → lists_ok n').
Proof.
  intros Hown Hacc. unfold addPod.
  destruct (account_add_accounts pod
    (if hasPodAffinityConstraints pod then ni_podsWithAffinity n ++ [pod]
     else ni_podsWithAffinity n) h n Hown Hacc)
    as (h' & n' & -> & Ht & Hs & Hacc' & Hpods & Haff & _).
  exists h', n'. split_and!; try done.
  intros [Hnd Hperm] Hfresh. unfold lists_ok. rewrite Hpods, Haff. split.
  - rewrite fmap_app. simpl. apply NoDup_app. split_and!; [done| |apply NoDup_singleton].
    intros k Hk ->%list_elem_of_singleton. done.
  - rewrite filter_app, filter_cons, filter_nil. destruct (hasPodAffinityConstraints pod); simpl.
    + by rewrite Hperm.
    + by rewrite app_nil_r.
Qed.

Lemma removePod_spec pod p h n :
  own_objects n → info_accounts h n → lists_ok n →
  p ∈ ni_pods n → pod_key p = pod_key pod → calculateResource p = calculateResource pod →
  ∃ h' n', removePod pod h n = Ret (Ok (), h', n') ∧
    only_touches h n h' ∧ same_node n n' ∧ info_accounts h' n' ∧
    ni_pods n ≡ₚ p :: ni_pods n' ∧ lists_ok n'.
Proof.
  intros Hown Hacc [Hnd Haff] Hp Hkey Hcalc. unfold removePod. rewrite getPodKey_pod_key.
  set (n1 := match find_pod _ (ni_podsWithAffinity n) with Some i => _ | None => n end).
  assert (Hn1 : ni_pods n1 = ni_pods n ∧ own_objects n1 ∧ info_accounts h n1 ∧
    (∀ h', only_touches h n1 h' ↔ only_touches h n h') ∧
    (∀ n', same_node n1 n' → same_node n n') ∧
    ni_podsWithAffinity n1 =
      match find_pod (pod_key p) (ni_podsWithAffinity n) with
      | Some i => delete_swap i (ni_podsWithAffinity n)
      | None => ni_podsWithAffinity n
      end).
  { unfold n1. rewrite Hkey. by destruct (find_pod _ _). }
  clearbody n1. destruct Hn1 as (Hpods1 & Hown1 & Hacc1 & Ht1 & Hs1 & Haff1). rewrite Hpods1.
  pose proof (find_pod_spec (pod_key pod) (ni_pods n)) as Hfind.
  destruct (find_pod (pod_key pod) (ni_pods n)) as [i|]; cycle 1.
  { destruct Hfind. rewrite <-Hkey. by apply list_elem_of_fmap_2. }
  destruct Hfind as (q & Hi & Hq). pose proof (delete_swap_perm _ _ _ Hi) as Hdel.
  assert (q = p) as ->.
  { eapply NoDup_key_unique; [done| |done|congruence]. by eapply list_elem_of_lookup_2. }
  destruct (account_sub_accounts pod p (delete_swap i (ni_pods n)) (ni_podsWithAffinity n1) h n1)
    as (h' & n' & -> & Ht & Hs & Hacc' & Hpods & Haff' & _); try done; [by rewrite Hpods1|].
  exists h', n'. simpl. split_and!; try done; [by apply Ht1|by apply Hs1|by rewrite Hpods|].
  split.
  - rewrite Hpods. rewrite Hdel in Hnd. by apply NoDup_cons in Hnd as [_ ?].
  - rewrite Haff', Hpods. eapply affinity_removed; done.
Qed.

(** ** Setting the node *)

Lemma amount_set_allocatable name acc e :
  amount name (set_allocatable acc e).1 =
  if decide (name = e.1) then (if tracked name then units name e.2 else 0%Z)
  else amount name acc.1.
Proof.
  destruct acc as [[cpu mem gpu opaque] allowed], e as [k q]. unfold set_allocatable.
  destruct (tracked name) eqn:Ht; cycle 1.
  { rewrite !(amount_untracked name) by done. by case_decide. }
  unfold amount, units, tracked in *. cbn [fst snd].
  destruct (decide (k = ResourceCPU)) as [->|Hc].
  { by repeat case_decide; simplify_eq/=. }
  destruct (decide (k = ResourceMemory)) as [->|Hm].
  { by repeat case_decide; simplify_eq/=. }
  destruct (decide (k = ResourceNvidiaGPU)) as [->|Hg].
  { by repeat case_decide; simplify_eq/=. }
  destruct (decide (k = ResourcePods)) as [->|Hp].
  { destruct (decide (name = ResourcePods)) as [->|]; [|done]. vm_compute in Ht. done. }
  destruct (decide (name = k)) as [->|Hk].
  - rewrite !bool_decide_eq_false_2 in Ht by done. simpl in Ht. rewrite Ht.
    rewrite !decide_False by done. simpl. unfold opaque_get. simpl.
    by rewrite lookup_insert_eq.
  - destruct (IsOpaqueIntResourceName k) eqn:Hop; [|done].
    repeat case_decide; try done. simpl. destruct (IsOpaqueIntResourceName name); [|done].
    unfold opaque_get. simpl. rewrite lookup_insert_ne by done. by destruct opaque.
Qed.

Lemma allowed_set_allocatable acc e :
  (set_allocatable acc e).2 = if decide (ResourcePods = e.1) then Value e.2 else acc.2.
Proof.
  destruct acc as [[cpu mem gpu opaque] allowed], e as [k q]. unfold set_allocatable. cbn [fst snd].
  destruct (decide (k = ResourceCPU)) as [->|]; [done|].
  destruct (decide (k = ResourceMemory)) as [->|]; [done|].
  destruct (decide (k = ResourceNvidiaGPU)) as [->|]; [done|].
  destruct (decide (k = ResourcePods)) as [->|]; [done|].
  rewrite decide_False by done. by destruct (IsOpaqueIntResourceName k).
Qed.

(** The status the last condition of a type gives, or the one there was. *)
Definition last_status (type old : string) (conditions : list (string * string)) : string :=
  foldl (λ s cond, if decide (cond.1 = type) then cond.2 else s) old conditions.

Lemma set_conditions conditions memory disk :
  foldl set_condition (memory, disk) conditions =
  (last_status "MemoryPressure" memory conditions, last_status "DiskPressure" disk conditions).
Proof.
  unfold last_status.
  revert memory disk. induction conditions as [|[t st] l IH]; intros memory disk; simpl; [done|].
  destruct (decide (t = "MemoryPressure")) as [->|]; simpl; [apply IH|].
  destruct (decide (t = "DiskPressure")) as [->|]; simpl; apply IH.
Qed.

Lemma SetNode_fields node h n :
  ni_node (SetNode node h n).2 = Some node ∧ ni_pods (SetNode node h n).2 = ni_pods n ∧
  generation (SetNode node h n).2 = add64 (generation n) 1.
Proof.
  unfold SetNode. destruct (foldl set_allocatable _ _) as [alloc' allowed].
  destruct (match n_taints node with Ok ts => _ | Err e => _ end) as [taints taintsErr].
  by destruct (foldl set_condition _ _) as [memory disk].
Qed.

Lemma SetNode_frame node h n :
  own_objects n → info_accounts h n →
  only_touches h n (SetNode node h n).1 ∧ info_accounts (SetNode node h n).1 (SetNode node h n).2 ∧
  (∀ f, loc_of f (SetNode node h n).2 = loc_of f n) ∧
  ni_pods (SetNode node h n).2 = ni_pods n ∧
  ni_podsWithAffinity (SetNode node h n).2 = ni_podsWithAffinity n ∧
  ni_node (SetNode node h n).2 = Some node.
Proof.
  intros Hown Hacc. unfold SetNode.
  destruct (foldl set_allocatable _ _) as [alloc' allowed].
  destruct (match n_taints node with Ok ts => _ | Err e => _ end) as [taints taintsErr].
  destruct (foldl set_condition _ _) as [memory disk]. simpl. split_and!; try done.
  - split; [done|]. intros l Hl. apply load_store_ne. intros Heq. by apply (Hl FAllocatable).
  - unfold info_accounts in *. simpl. rewrite !load_store_ne; [done| |].
    + intros H0. by apply (Hown FAllocatable FNonzero) in H0.
    + intros H0. by apply (Hown FAllocatable FRequested) in H0.
Qed.

(** ** Maps of nodes *)

Lemma infos_ok_empty h : infos_ok h ∅.
Proof. split; intros *; by rewrite lookup_empty. Qed.

Lemma infos_ok_own h m name n : infos_ok h m → m !! name = Some n → own_objects n.
Proof. intros Hok Hn f1 f2 Heq. by eapply io_sep in Heq as [_ ?]. Qed.

(** A change to the objects and the pods of one node. *)
Lemma infos_ok_update h m name n h' n' :
  infos_ok h m → m !! name = Some n → only_touches h n h' →
  (∀ f, loc_of f n' = loc_of f n) → info_accounts h' n' →
  infos_ok h' (<[name := n']> m).
Proof.
  intros Hok Hn [Hnext Hframe] Hloc Hacc.
  assert (Hold : ∀ name2 n2, <[name := n']> m !! name2 = Some n2 →
    ∃ n0, m !! name2 = Some n0 ∧ ∀ f, loc_of f n2 = loc_of f n0).
  { intros name2 n2 [[<- <-]|[? ?]]%lookup_insert_Some; eauto. }
  split.
  - intros name2 n2 f (n0 & Hn0 & ->)%Hold. rewrite Hnext. by eapply io_alloc.
  - intros name1 n1 f1 name2 n2 f2 (n01 & Hn01 & ->)%Hold (n02 & Hn02 & ->)%Hold.
    by eapply io_sep.
  - intros name2 n2 [[<- <-]|[Hne Hn2]]%lookup_insert_Some; [done|].
    unfold info_accounts.
    rewrite (Hframe (requestedResource n2)), (Hframe (nonzeroRequest n2)); [by eapply io_accounts| |];
      intros f Heq.
    + by destruct (io_sep _ _ Hok name2 n2 FNonzero name n f Hn2 Hn Heq) as [-> _].
    + by destruct (io_sep _ _ Hok name2 n2 FRequested name n f Hn2 Hn Heq) as [-> _].
Qed.

Lemma infos_ok_delete h m name : infos_ok h m → infos_ok h (delete name m).
Proof.
  intros Hok. split.
  - intros name2 n2 f [_ ?]%lookup_delete_Some. by eapply io_alloc.
  - intros name1 n1 f1 name2 n2 f2 [_ ?]%lookup_delete_Some [_ ?]%lookup_delete_Some.
    by eapply io_sep.
  - intros name2 n2 [_ ?]%lookup_delete_Some. by eapply io_accounts.
Qed.

(** Objects allocated later do not disturb the map. *)
Lemma load_alloc_lt h r l : l < next h → load (alloc h r).1 l = load h l.
Proof. intros. unfold load, alloc. simpl. rewrite lookup_total_insert_ne by lia. done. Qed.

Lemma load_alloc_eq h r : load (alloc h r).1 (next h) = r.
Proof. unfold load, alloc. simpl. by rewrite lookup_total_insert_eq. Qed.

Lemma infos_ok_alloc h m r : infos_ok h m → infos_ok (alloc h r).1 m.
Proof.
  intros Hok. split.
  - intros name n f Hn. simpl. pose proof (io_alloc _ _ Hok name n f Hn). lia.
  - apply (io_sep _ _ Hok).
  - intros name n Hn. unfold info_accounts.
    rewrite !load_alloc_lt; [by eapply io_accounts| |].
    + apply (io_alloc _ _ Hok name n FNonzero Hn).
    + apply (io_alloc _ _ Hok name n FRequested Hn).
Qed.

Lemma accounts_nil : accounts emptyResource emptyResource [].
Proof. split; [|done]. intros name. by rewrite amount_empty. Qed.

Definition fresh_info (h : heap) : NodeInfo :=
  mkNodeInfo None [] [] (next h) (S (next h)) (S (S (next h))) 0 [] None "" "" 0.

Lemma NewNodeInfo_nil h :
  ∃ h', NewNodeInfo [] h = Ret (h', fresh_info h) ∧ next h' = 3 + next h ∧
    (∀ l, l < next h → load h' l = load h l) ∧
    (∀ f, load h' (loc_of f (fresh_info h)) = emptyResource).
Proof.
  eexists. split; [reflexivity|]. unfold load. simpl. split_and!; [done| |].
  - intros l Hl. by rewrite !lookup_total_insert_ne by lia.
  - intros []; simpl;
      repeat first [rewrite lookup_total_insert_eq | rewrite lookup_total_insert_ne by lia]; done.
Qed.

(** A new, empty entry. *)
Lemma infos_ok_new h m name h' :
  infos_ok h m → NewNodeInfo [] h = Ret (h', fresh_info h) → m !! name = None →
  infos_ok h' (<[name := fresh_info h]> m).
Proof.
  intros Hok Hnew Hname. destruct (NewNodeInfo_nil h) as (h2 & Hnew2 & Hnext & Hold & Hempty).
  assert (h2 = h') as -> by congruence.
  assert (Hlt : ∀ name n f, m !! name = Some n → loc_of f n < next h) by apply (io_alloc _ _ Hok).
  assert (Hfresh : ∀ f, next h ≤ loc_of f (fresh_info h) < 3 + next h).
  { intros []; simpl; lia. }
  split.
  - intros name2 n2 f [[<- <-]|[_ Hn2]]%lookup_insert_Some; rewrite Hnext; [apply Hfresh|].
    specialize (Hlt _ _ f Hn2). lia.
  - intros name1 n1 f1 name2 n2 f2 Hn1 Hn2 Heq.
    apply lookup_insert_Some in Hn1 as [[<- <-]|[Hne1 Hn1]];
      apply lookup_insert_Some in Hn2 as [[<- <-]|[Hne2 Hn2]].
    + split; [done|]. destruct f1, f2; simpl in Heq; done || lia.
    + specialize (Hlt _ _ f2 Hn2). specialize (Hfresh f1). lia.
    + specialize (Hlt _ _ f1 Hn1). specialize (Hfresh f2). lia.
    + by eapply io_sep.
  - intros name2 n2 [[<- <-]|[_ Hn2]]%lookup_insert_Some; unfold info_accounts.
    + rewrite (Hempty FRequested : load h' (requestedResource _) = _),
        (Hempty FNonzero : load h' (nonzeroRequest _) = _). apply accounts_nil.
    + rewrite (Hold (requestedResource n2) (Hlt _ _ FRequested Hn2)),
        (Hold (nonzeroRequest n2) (Hlt _ _ FNonzero Hn2)). by eapply io_accounts.
Qed.

(** Looking up an entry, creating it if need be. *)
Lemma info_of_spec name h m :
  infos_ok h m →
  ∃ h' n, info_of name h m = Ret (h', n) ∧ infos_ok h' (<[name := n]> m) ∧
    (m !! name = Some n ∨
     m !! name = None ∧ ni_pods n = [] ∧ ni_podsWithAffinity n = [] ∧ ni_node n = None).
Proof.
  intros Hok. unfold info_of. destruct (m !! name) as [n|] eqn:Hn.
  - exists h, n. rewrite insert_id by done. auto.
  - destruct (NewNodeInfo_nil h) as (h' & Hnew & _). exists h', (fresh_info h).
    split; [done|]. split; [by eapply infos_ok_new|]. right. done.
Qed.

(** Forgetting the node: a new allocatable object. *)
Lemma infos_ok_remove_node h m name n :
  infos_ok h m → m !! name = Some n →
  infos_ok (NodeInfo_RemoveNode h n).1 (<[name := (NodeInfo_RemoveNode h n).2]> m).
Proof.
  intros Hok Hn. pose proof (infos_ok_alloc h m emptyResource Hok) as Hok'.
  assert (Hlt : ∀ name n f, m !! name = Some n → loc_of f n < next h) by apply (io_alloc _ _ Hok).
  assert (Hold : ∀ name2 n2 f,
    <[name := (NodeInfo_RemoveNode h n).2]> m !! name2 = Some n2 →
    (name2 = name ∧ f = FAllocatable ∧ loc_of f n2 = next h) ∨
    (∃ n0, m !! name2 = Some n0 ∧ loc_of f n2 = loc_of f n0)).
  { intros name2 n2 f [[<- <-]|[_ Hn2]]%lookup_insert_Some; [|eauto].
    destruct f; [right|right|left]; eauto. }
  split.
  - intros name2 n2 f [(_ & _ & ->)|(n0 & Hn0 & ->)]%(Hold _ _ f); simpl; [lia|].
    specialize (Hlt _ _ f Hn0). lia.
  - intros name1 n1 f1 name2 n2 f2 Hn1 Hn2 Heq.
    destruct (Hold _ _ f1 Hn1) as [(-> & -> & Hl1)|(n01 & Hn01 & Hl1)],
      (Hold _ _ f2 Hn2) as [(-> & -> & Hl2)|(n02 & Hn02 & Hl2)]; [done|..].
    + specialize (Hlt _ _ f2 Hn02). lia.
    + specialize (Hlt _ _ f1 Hn01). lia.
    + eapply io_sep; [done..|congruence].
  - intros name2 n2 [[<- <-]|[_ Hn2]]%lookup_insert_Some.
    + apply (io_accounts _ _ Hok' name n Hn).
    + apply (io_accounts _ _ Hok' name2 n2 Hn2).
Qed.

(** ** CreateNodeNameToInfoMap *)

Lemma create_add_pods_spec pods done_pods h m :
  infos_ok h m →
  (∀ name, NodeInfo_Pods (m !! name) = filter (λ p, p_nodeName p = name) done_pods) →
  (∀ name n, m !! name = Some n → ni_node n = None) →
  (∀ name, is_Some (m !! name) ↔ ∃ p, p ∈ done_pods ∧ p_nodeName p = name) →
  ∃ h' m', create_add_pods pods h m = Ret (h', m') ∧ infos_ok h' m' ∧
    (∀ name, NodeInfo_Pods (m' !! name) = filter (λ p, p_nodeName p = name) (done_pods ++ pods)) ∧
    (∀ name n, m' !! name = Some n → ni_node n = None) ∧
    (∀ name, is_Some (m' !! name) ↔ ∃ p, p ∈ done_pods ++ pods ∧ p_nodeName p = name).
Proof.
  revert done_pods h m. induction pods as [|p pods IH]; intros done_pods h m Hok Hpods Hnode Hdom.
  { exists h, m. rewrite app_nil_r. done. }
  destruct (info_of_spec (p_nodeName p) h m Hok) as (h1 & n & Hof & Hok1 & Hn).
  assert (Hacc : info_accounts h1 n).
  { eapply io_accounts; [done|]. apply lookup_insert_eq. }
  destruct (addPod_spec p h1 n) as (h2 & n' & Hadd & Ht & Hs & Hacc' & Hpods' & _); [|done|].
  { eapply infos_ok_own; [done|]. apply lookup_insert_eq. }
  simpl. rewrite Hof. simpl. rewrite Hadd. simpl.
  assert (Hn_pods : ni_pods n = NodeInfo_Pods (m !! p_nodeName p)).
  { destruct Hn as [->|(-> & -> & _)]; done. }
  rewrite (cons_middle p done_pods pods), app_assoc. apply IH.
  - eapply infos_ok_update in Hok1; [|apply lookup_insert_eq|done|apply Hs|done].
    by rewrite insert_insert_eq in Hok1.
  - intros name. rewrite filter_app, filter_cons, filter_nil.
    destruct (decide (p_nodeName p = name)) as [<-|Hne].
    + rewrite lookup_insert_eq. simpl. by rewrite Hpods', Hn_pods, Hpods.
    + rewrite lookup_insert_ne, app_nil_r by done. apply Hpods.
  - intros name n0 [[<- <-]|[_ Hn0]]%lookup_insert_Some; [|by eapply Hnode].
    destruct Hs as (_ & -> & _). destruct Hn as [Hn|(_ & _ & _ & ->)]; [by eapply Hnode|done].
  - intros name. rewrite lookup_insert_is_Some', Hdom. setoid_rewrite elem_of_app.
    setoid_rewrite list_elem_of_singleton. naive_solver.
Qed.

Lemma create_set_nodes_spec nodes done_nodes h m :
  infos_ok h m →
  (∀ name n, m !! name = Some n → ni_node n = last (filter (λ x, n_name x = name) done_nodes)) →
  (∀ node, node ∈ done_nodes → is_Some (m !! n_name node)) →
  ∃ h' m', create_set_nodes nodes h m = Ret (h', m') ∧ infos_ok h' m' ∧
    (∀ name, NodeInfo_Pods (m' !! name) = NodeInfo_Pods (m !! name)) ∧
    (∀ name n, m' !! name = Some n →
       ni_node n = last (filter (λ x, n_name x = name) (done_nodes ++ nodes))) ∧
    (∀ name, is_Some (m' !! name) ↔
       is_Some (m !! name) ∨ ∃ node, node ∈ nodes ∧ n_name node = name).
Proof.
  revert done_nodes h m. induction nodes as [|node nodes IH]; intros done_nodes h m Hok Hnode Hdone.
  { exists h, m. rewrite app_nil_r. split_and!; try done.
    intros name. setoid_rewrite elem_of_nil. naive_solver. }
  destruct (info_of_spec (n_name node) h m Hok) as (h1 & n & Hof & Hok1 & Hn).
  assert (Hn1 : <[n_name node := n]> m !! n_name node = Some n) by apply lookup_insert_eq.
  destruct (SetNode_frame node h1 n) as (Ht & Hacc & Hloc & Hpods & _ & Hset);
    [by eapply infos_ok_own|by eapply io_accounts|].
  simpl. rewrite Hof. simpl. destruct (SetNode node h1 n) as [h2 n2] eqn:HSet. simpl in *.
  destruct (IH (done_nodes ++ [node]) h2 (<[n_name node := n2]> m))
    as (h' & m' & -> & Hok' & Hpods' & Hnode' & Hdom').
  - eapply infos_ok_update in Hok1; [|done..]. by rewrite insert_insert_eq in Hok1.
  - intros name n0 [[<- <-]|[Hne Hn0]]%lookup_insert_Some; rewrite filter_app, filter_cons, filter_nil.
    + rewrite decide_True by done. by rewrite last_snoc.
    + rewrite decide_False, app_nil_r by done. by apply Hnode.
  - intros node' [Hin| ->%list_elem_of_singleton]%elem_of_app; rewrite lookup_insert_is_Some'; auto.
  - exists h', m'. split_and!; try done.
    + intros name. rewrite Hpods'. destruct (decide (n_name node = name)) as [<-|Hne].
      * rewrite lookup_insert_eq. simpl. rewrite Hpods. by destruct Hn as [->|(-> & -> & _)].
      * by rewrite lookup_insert_ne.
    + intros name n0 Hn0. rewrite (cons_middle node), app_assoc. by apply Hnode'.
    + intros name. rewrite Hdom', lookup_insert_is_Some'. setoid_rewrite elem_of_cons. naive_solver.
Qed.

(** ** The theorems *)

Lemma calculateResource_sums name pod :
  amount name (pod_res pod) = wrap64 (pod_requested name pod) ∧
  pod_non0_cpu pod = wrap64 (pod_nonzero_cpu pod) ∧
  pod_non0_mem pod = wrap64 (pod_nonzero_mem pod).
Proof.
  pose proof (count_containers name (p_requests pod) emptyResource 0%Z 0%Z) as Hcount.
  unfold pod_res, pod_non0_cpu, pod_non0_mem, calculateResource.
  destruct (foldl count_container _ _) as [[res c] m]. rewrite amount_empty in Hcount. by apply Hcount.
Qed.

Lemma wrap64_sumZ {A} (f g : A → Z) l :
  (∀ x, f x = wrap64 (g x)) → wrap64 (sumZ f l) = wrap64 (sumZ g l).
Proof.
  intros Hfg. induction l as [|x l IH]; simpl; [done|].
  rewrite <-(wrap64_add_r (f x)), IH, wrap64_add_r, Hfg. by rewrite wrap64_add_l.
Qed.

Lemma accounts_totals r nonzero pods : accounts r nonzero pods → totals r nonzero pods.
Proof.
  intros (Hr & Hc & Hm). split_and!.
  - intros name. rewrite Hr. apply wrap64_sumZ. intros. apply (calculateResource_sums name).
  - rewrite Hc. apply wrap64_sumZ. intros. apply (calculateResource_sums "").
  - rewrite Hm. apply wrap64_sumZ. intros. apply (calculateResource_sums "").
Qed.

(** The request of a pod: for every resource it is the sum, modulo 2^64, of
    what its containers request, whatever the order in which the requests are
    visited; resources that are neither cpu, memory, gpu nor opaque count
    nothing.  The requests that count for the priority functions are the sums
    with the defaults for containers that do not ask. *)
Theorem calculate_resource_spec pod :
  let '(res, non0_cpu, non0_mem) := calculateResource pod in
  (∀ name, amount name res = wrap64 (sumZ (requested name) (p_requests pod))) ∧
  non0_cpu = wrap64 (sumZ (λ c, from_option MilliValue 100%Z (c !! ResourceCPU)) (p_requests pod)) ∧
  non0_mem = wrap64 (sumZ (λ c, from_option Value 209715200%Z (c !! ResourceMemory)) (p_requests pod)).
Proof.
  pose proof (λ name, calculateResource_sums name pod) as Hsum.
  unfold pod_res, pod_non0_cpu, pod_non0_mem in Hsum.
  destruct (calculateResource pod) as [[res c] m]. simpl in Hsum.
  split_and!; [intros name; apply Hsum|..]; destruct (Hsum "") as (_ & -> & ->); done.
Qed.

(** Setting the node: a resource that the node lists as allocatable gets
    the listed amount and one it does not list keeps the amount of the node set
    before; likewise the number of pods and the two pressure conditions.  The
    taints are always replaced, by none if they cannot be decoded.  The pods
    and their totals stay. *)
Theorem set_node_spec node h n :
  let '(h', n') := SetNode node h n in
  (∀ name, amount name (load h' (allocatableResource n')) =
     match n_allocatable node !! name with
     | Some q => if tracked name then units name q else 0%Z
     | None => amount name (load h (allocatableResource n))
     end) ∧
  ni_allowedPodNumber n' = from_option Value (ni_allowedPodNumber n)
                             (n_allocatable node !! ResourcePods) ∧
  memoryPressureCondition n' =
    last_status "MemoryPressure" (memoryPressureCondition n) (n_conditions node) ∧
  diskPressureCondition n' =
    last_status "DiskPressure" (diskPressureCondition n) (n_conditions node) ∧
  (ni_taints n', ni_taintsErr n') =
    match n_taints node with Ok ts => (ts, None) | Err e => ([], Some e) end ∧
  ni_node n' = Some node ∧ ni_pods n' = ni_pods n ∧
  (∀ l, l ≠ allocatableResource n → load h' l = load h l) ∧
  generation n' = add64 (generation n) 1.
Proof.
  unfold SetNode. rewrite set_conditions.
  set (acc0 := (load h (allocatableResource n), ni_allowedPodNumber n)).
  pose proof (λ name, foldl_map_range (λ acc, amount name acc.1) set_allocatable
    (λ q, if tracked name then units name q else 0%Z) name (n_allocatable node) acc0
    (λ acc e, amount_set_allocatable name acc e)) as Hamount.
  pose proof (foldl_map_range snd set_allocatable Value ResourcePods (n_allocatable node) acc0
    allowed_set_allocatable) as Hallowed.
  destruct (foldl set_allocatable acc0 _) as [alloc' allowed]. simpl in Hamount, Hallowed.
  destruct (n_taints node); simpl; split_and!; try done;
    try (intros l Hl; by apply load_store_ne);
    intros name; rewrite load_store_eq, Hamount; by destruct (_ !! name).
Qed.

(** Pivoting lists of pods and nodes into a map: it never panics, a name is
    in the map iff a pod or a node has it, the entry lists the pods of the name
    in their order, its totals are the sums over those pods, and its node is the
    last one of the name. *)
Theorem create_map_spec pods nodes h :
  ∃ h' m, CreateNodeNameToInfoMap pods nodes h = Ret (h', m) ∧
    ∀ name,
      (is_Some (m !! name) ↔
         (∃ p, p ∈ pods ∧ p_nodeName p = name) ∨ (∃ node, node ∈ nodes ∧ n_name node = name)) ∧
      ∀ n, m !! name = Some n →
        ni_pods n = filter (λ p, p_nodeName p = name) pods ∧
        totals (RequestedResource h' (Some n)) (NonZeroRequest h' (Some n)) (ni_pods n) ∧
        ni_node n = last (filter (λ x, n_name x = name) nodes).
Proof.
  unfold CreateNodeNameToInfoMap.
  destruct (create_add_pods_spec pods [] h ∅) as (h1 & m1 & -> & Hok1 & Hpods1 & Hnode1 & Hdom1).
  { apply infos_ok_empty. }
  { intros name. by rewrite lookup_empty. }
  { intros name n. by rewrite lookup_empty. }
  { intros name. rewrite lookup_empty. setoid_rewrite elem_of_nil. split; [by intros []|naive_solver]. }
  simpl. destruct (create_set_nodes_spec nodes [] h1 m1 Hok1) as (h2 & m2 & -> & Hok2 & Hpods2 & Hnode2 & Hdom2).
  { done. }
  { intros node. by rewrite elem_of_nil. }
  exists h2, m2. split; [done|]. intros name. split; [by rewrite Hdom2, Hdom1|].
  intros n Hn. split_and!.
  - specialize (Hpods2 name). rewrite Hpods1, Hn in Hpods2. done.
  - apply accounts_totals. by apply (io_accounts _ _ Hok2 name).
  - by apply Hnode2.
Qed.

End request.
