(* ===== verification/SchedulerCache.v ===== *)
(** * The scheduler cache

    Models plugin/pkg/scheduler/schedulercache/cache.go: the pods the scheduler
    has assumed or seen, the nodes they are on, the expiration of assumed pods
    and the snapshots taken for a scheduling cycle.  Every method holds the
    cache's mutex throughout, so each is one step.  The heap of resource
    objects of [NodeInfo] is a field of the cache's state. *)

From S2P Require Import Prelude Labels Selector ClientStore NodeInfo.

(** ** State *)

Record podState := mkPodState {
  ps_pod : Pod;
  deadline : option Z;
  bindingFinished : bool
}.

Record schedulerCache := mkCache {
  ttl : Z;
  assumedPods : gmap string bool;
  podStates : gmap string podState;
  nodes : gmap string NodeInfo;
  cache_heap : heap
}.

Definition newSchedulerCache (ttl : Z) (h : heap) : schedulerCache := mkCache ttl ∅ ∅ ∅ h.

Definition set_assumedPods (a : gmap string bool) (c : schedulerCache) : schedulerCache :=
  mkCache (ttl c) a (podStates c) (nodes c) (cache_heap c).
Definition set_podStates (ps : gmap string podState) (c : schedulerCache) : schedulerCache :=
  mkCache (ttl c) (assumedPods c) ps (nodes c) (cache_heap c).
Definition set_nodes (h : heap) (ns : gmap string NodeInfo) (c : schedulerCache) : schedulerCache :=
  mkCache (ttl c) (assumedPods c) (podStates c) ns h.

(** [cache.assumedPods[key]]: false when absent. *)
Definition assumed (c : schedulerCache) (key : string) : bool :=
  default false (assumedPods c !! key).

Definition nil_dereference {A} : outcome A := Panic "invalid memory address or nil pointer dereference".
Definition corrupted {A} : outcome A :=
  Panic "Schedulercache is corrupted and can badly affect scheduling decisions".

Section cache.
Context `{!MapRange}.

(** ** Internal operations *)

Definition cache_addPod (pod : Pod) (c : schedulerCache) : outcome schedulerCache :=
  hn ?<- info_of (p_nodeName pod) (cache_heap c) (nodes c);
  hn' ?<- addPod pod hn.1 hn.2;
  Ret (set_nodes hn'.1 (<[p_nodeName pod := hn'.2]> (nodes c)) c).

(** [if len(n.pods) == 0 && n.node == nil { delete(cache.nodes, name) }] *)
Definition drop_if_unused (name : string) (n : NodeInfo) (ns : gmap string NodeInfo)
    : gmap string NodeInfo :=
  match ni_pods n, ni_node n with
  | [], None => delete name ns
  | _, _ => ns
  end.

Definition cache_removePod (pod : Pod) (c : schedulerCache)
    : outcome (result sched_error () * schedulerCache) :=
  match nodes c !! p_nodeName pod with
  | None => nil_dereference
  | Some n =>
      r ?<- removePod pod (cache_heap c) n;
      let '(res, h', n') := r in
      let ns := <[p_nodeName pod := n']> (nodes c) in
      match res with
      | Err e => Ret (Err e, set_nodes h' ns c)
      | Ok _ => Ret (Ok (), set_nodes h' (drop_if_unused (p_nodeName pod) n' ns) c)
      end
  end.

Definition cache_updatePod (oldPod newPod : Pod) (c : schedulerCache)
    : outcome (result sched_error () * schedulerCache) :=
  r ?<- cache_removePod oldPod c;
  match r with
  | (Err e, c') => Ret (Err e, c')
  | (Ok _, c') => c'' ?<- cache_addPod newPod c'; Ret (Ok (), c'')
  end.

(** ** Operations on pods *)

Definition AssumePod (pod : Pod) (c : schedulerCache)
    : outcome (result sched_error () * schedulerCache) :=
  match getPodKey pod with
  | Err e => Ret (Err (PodKeyError e), c)
  | Ok key =>
      match podStates c !! key with
      | Some _ => Ret (Err (NotInitial key), c)
      | None =>
          c1 ?<- cache_addPod pod c;
          let c2 := set_podStates (<[key := mkPodState pod None false]> (podStates c1)) c1 in
          Ret (Ok (), set_assumedPods (<[key := true]> (assumedPods c2)) c2)
      end
  end.

Definition finishBinding (pod : Pod) (now : Z) (c : schedulerCache)
    : result sched_error () * schedulerCache :=
  match getPodKey pod with
  | Err e => (Err (PodKeyError e), c)
  | Ok key =>
      match podStates c !! key with
      | Some currState =>
          if assumed c key then
            let dl := (now + ttl c)%Z in
            (Ok (), set_podStates
              (<[key := mkPodState (ps_pod currState) (Some dl) true]> (podStates c)) c)
          else (Ok (), c)
      | None => (Ok (), c)
      end
  end.

Definition ForgetPod (pod : Pod) (c : schedulerCache)
    : outcome (result sched_error () * schedulerCache) :=
  match getPodKey pod with
  | Err e => Ret (Err (PodKeyError e), c)
  | Ok key =>
      match podStates c !! key with
      | None => nil_dereference
      | Some currState =>
          if decide (p_nodeName (ps_pod currState) ≠ p_nodeName pod) then
            Ret (Err (AssumedElsewhere key), c)
          else if assumed c key then
            r ?<- cache_removePod pod c;
            match r with
            | (Err e, c') => Ret (Err e, c')
            | (Ok _, c') =>
                let c1 := set_assumedPods (delete key (assumedPods c')) c' in
                Ret (Ok (), set_podStates (delete key (podStates c1)) c1)
            end
          else Ret (Err (NotAssumed key), c)
      end
  end.

Definition AddPod (pod : Pod) (c : schedulerCache)
    : outcome (result sched_error () * schedulerCache) :=
  match getPodKey pod with
  | Err e => Ret (Err (PodKeyError e), c)
  | Ok key =>
      match podStates c !! key with
      | Some currState =>
          if assumed c key then
            c1 ?<- (if decide (p_nodeName (ps_pod currState) ≠ p_nodeName pod) then
                      r ?<- cache_removePod (ps_pod currState) c;
                      cache_addPod pod r.2
                    else Ret c);
            let c2 := set_assumedPods (delete key (assumedPods c1)) c1 in
            match podStates c2 !! key with
            | None => nil_dereference
            | Some ps =>
                Ret (Ok (), set_podStates
                  (<[key := mkPodState (ps_pod ps) None (bindingFinished ps)]> (podStates c2)) c2)
            end
          else Ret (Err (AlreadyAdded key), c)
      | None =>
          c1 ?<- cache_addPod pod c;
          Ret (Ok (), set_podStates (<[key := mkPodState pod None false]> (podStates c1)) c1)
      end
  end.

Definition UpdatePod (oldPod newPod : Pod) (c : schedulerCache)
    : outcome (result sched_error () * schedulerCache) :=
  match getPodKey oldPod with
  | Err e => Ret (Err (PodKeyError e), c)
  | Ok key =>
      match podStates c !! key with
      | Some currState =>
          if negb (assumed c key) then
            if decide (p_nodeName (ps_pod currState) ≠ p_nodeName newPod) then corrupted
            else cache_updatePod oldPod newPod c
          else Ret (Err (UpdateNotAdded key), c)
      | None => Ret (Err (UpdateNotAdded key), c)
      end
  end.

Definition RemovePod (pod : Pod) (c : schedulerCache)
    : outcome (result sched_error () * schedulerCache) :=
  match getPodKey pod with
  | Err e => Ret (Err (PodKeyError e), c)
  | Ok key =>
      match podStates c !! key with
      | Some currState =>
          if negb (assumed c key) then
            if decide (p_nodeName (ps_pod currState) ≠ p_nodeName pod) then corrupted
            else
              r ?<- cache_removePod (ps_pod currState) c;
              match r with
              | (Err e, c') => Ret (Err e, c')
              | (Ok _, c') => Ret (Ok (), set_podStates (delete key (podStates c')) c')
              end
          else Ret (Err (RemoveNotAdded key), c)
      | None => Ret (Err (RemoveNotAdded key), c)
      end
  end.

(** ** Operations on nodes *)

Definition AddNode (node : Node) (c : schedulerCache)
    : outcome (result sched_error () * schedulerCache) :=
  hn ?<- info_of (n_name node) (cache_heap c) (nodes c);
  let '(h', n') := SetNode node hn.1 hn.2 in
  Ret (Ok (), set_nodes h' (<[n_name node := n']> (nodes c)) c).

Definition UpdateNode (oldNode newNode : Node) (c : schedulerCache)
    : outcome (result sched_error () * schedulerCache) :=
  hn ?<- info_of (n_name newNode) (cache_heap c) (nodes c);
  let '(h', n') := SetNode newNode hn.1 hn.2 in
  Ret (Ok (), set_nodes h' (<[n_name newNode := n']> (nodes c)) c).

Definition RemoveNode (node : Node) (c : schedulerCache)
    : outcome (result sched_error () * schedulerCache) :=
  match nodes c !! n_name node with
  | None => nil_dereference
  | Some n =>
      let '(h', n') := NodeInfo_RemoveNode (cache_heap c) n in
      Ret (Ok (), set_nodes h'
        (drop_if_unused (n_name node) n' (<[n_name node := n']> (nodes c))) c)
  end.

(** ** Expiration *)

Definition expirePod (key : string) (ps : podState) (c : schedulerCache)
    : outcome (result sched_error () * schedulerCache) :=
  r ?<- cache_removePod (ps_pod ps) c;
  match r with
  | (Err e, c') => Ret (Err e, c')
  | (Ok _, c') =>
      let c1 := set_assumedPods (delete key (assumedPods c')) c' in
      Ret (Ok (), set_podStates (delete key (podStates c1)) c1)
  end.

(** The loop deletes only the key it is at, so it visits the keys there were
    at its start.  An error of expirePod is logged. *)
Fixpoint cleanup_loop (now : Z) (keys : list string) (c : schedulerCache) : outcome schedulerCache :=
  match keys with
  | [] => Ret c
  | key :: keys' =>
      match podStates c !! key with
      | None => Panic "Key found in assumed set but not in podStates. Potentially a logical error."
      | Some ps =>
          if bindingFinished ps then
            match deadline ps with
            | None => nil_dereference
            | Some dl =>
                if decide (dl < now)%Z then
                  r ?<- expirePod key ps c;
                  cleanup_loop now keys' r.2
                else cleanup_loop now keys' c
            end
          else cleanup_loop now keys' c
      end
  end.

Definition cleanupAssumedPods (now : Z) (c : schedulerCache) : outcome schedulerCache :=
  cleanup_loop now (map_range (assumedPods c)).*1 c.

(** ** Readings *)

Fixpoint snapshot_refresh (l : list (string * NodeInfo)) (nodeNameToInfo : gmap string NodeInfo)
    : gmap string NodeInfo :=
  match l with
  | [] => nodeNameToInfo
  | (name, info) :: l' =>
      let stale :=
        match nodeNameToInfo !! name with
        | None => true
        | Some current => bool_decide (generation current ≠ generation info)
        end in
      snapshot_refresh l' (if stale then <[name := Clone info]> nodeNameToInfo else nodeNameToInfo)
  end.

Fixpoint snapshot_prune (l : list (string * NodeInfo)) (ns : gmap string NodeInfo)
    (nodeNameToInfo : gmap string NodeInfo) : gmap string NodeInfo :=
  match l with
  | [] => nodeNameToInfo
  | (name, _) :: l' =>
      snapshot_prune l' ns
        (match ns !! name with
         | Some _ => nodeNameToInfo
         | None => delete name nodeNameToInfo
         end)
  end.

Definition UpdateNodeNameToInfoMap (nodeNameToInfo : gmap string NodeInfo) (c : schedulerCache)
    : gmap string NodeInfo :=
  let refreshed := snapshot_refresh (map_range (nodes c)) nodeNameToInfo in
  snapshot_prune (map_range refreshed) (nodes c) refreshed.

Definition cache_List (selector : Selector) (c : schedulerCache) : list Pod :=
  map_range (nodes c) ≫= λ e,
    filter (λ pod, Selector_Matches selector (p_labels pod) = true) (ni_pods e.2).

End cache.

(** ** Specification

    A pod the cache knows is assumed, possibly with a time at which it expires,
    or added: the state machine drawn in interface.go.  The cache knows the pods
    and the nodes, and nothing else is visible to its callers. *)

Inductive phase := Assumed (expires : option Z) | Added.

Record cache_spec := mkSpec {
  s_pods : gmap string (Pod * phase);
  s_nodes : gmap string Node
}.

Definition abs_phase (c : schedulerCache) (key : string) (ps : podState) : phase :=
  if assumed c key then Assumed (if bindingFinished ps then deadline ps else None) else Added.

Definition abs (c : schedulerCache) : cache_spec :=
  mkSpec (map_imap (λ key ps, Some (ps_pod ps, abs_phase c key ps)) (podStates c))
    (omap ni_node (nodes c)).

Inductive cache_op :=
  | OpAssumePod (pod : Pod)
  | OpFinishBinding (pod : Pod) (now : Z)
  | OpForgetPod (pod : Pod)
  | OpAddPod (pod : Pod)
  | OpUpdatePod (oldPod newPod : Pod)
  | OpRemovePod (pod : Pod)
  | OpAddNode (node : Node)
  | OpUpdateNode (oldNode newNode : Node)
  | OpRemoveNode (node : Node)
  | OpCleanup (now : Z).

Definition run_op `{!MapRange} (op : cache_op) (c : schedulerCache)
    : outcome (result sched_error () * schedulerCache) :=
  match op with
  | OpAssumePod pod => AssumePod pod c
  | OpFinishBinding pod now => Ret (finishBinding pod now c)
  | OpForgetPod pod => ForgetPod pod c
  | OpAddPod pod => AddPod pod c
  | OpUpdatePod oldPod newPod => UpdatePod oldPod newPod c
  | OpRemovePod pod => RemovePod pod c
  | OpAddNode node => AddNode node c
  | OpUpdateNode oldNode newNode => UpdateNode oldNode newNode c
  | OpRemoveNode node => RemoveNode node c
  | OpCleanup now => c' ?<- cleanupAssumedPods now c; Ret (Ok (), c')
  end.

Definition expired (now : Z) (e : string * (Pod * phase)) : Prop :=
  match e.2.2 with
  | Assumed (Some dl) => (dl < now)%Z
  | _ => False
  end.
#[export] Instance expired_dec now e : Decision (expired now e).
Proof. unfold expired. destruct (e.2.2) as [[dl|]|]; apply _. Defined.

(** What each operation does to the pods and nodes that are known. *)
Definition abs_op (ttl : Z) (op : cache_op) (s : cache_spec) : result sched_error () * cache_spec :=
  let with_pods ps := mkSpec ps (s_nodes s) in
  match op with
  | OpAssumePod pod =>
      match s_pods s !! pod_key pod with
      | Some _ => (Err (NotInitial (pod_key pod)), s)
      | None => (Ok (), with_pods (<[pod_key pod := (pod, Assumed None)]> (s_pods s)))
      end
  | OpFinishBinding pod now =>
      match s_pods s !! pod_key pod with
      | Some (p, Assumed _) =>
          (Ok (), with_pods (<[pod_key pod := (p, Assumed (Some (now + ttl)%Z))]> (s_pods s)))
      | _ => (Ok (), s)
      end
  | OpForgetPod pod =>
      match s_pods s !! pod_key pod with
      | Some (p, ph) =>
          if decide (p_nodeName p ≠ p_nodeName pod) then (Err (AssumedElsewhere (pod_key pod)), s)
          else match ph with
               | Assumed _ => (Ok (), with_pods (delete (pod_key pod) (s_pods s)))
               | Added => (Err (NotAssumed (pod_key pod)), s)
               end
      | None => (Err (NotAssumed (pod_key pod)), s)
      end
  | OpAddPod pod =>
      match s_pods s !! pod_key pod with
      | Some (p, Assumed _) => (Ok (), with_pods (<[pod_key pod := (p, Added)]> (s_pods s)))
      | Some (_, Added) => (Err (AlreadyAdded (pod_key pod)), s)
      | None => (Ok (), with_pods (<[pod_key pod := (pod, Added)]> (s_pods s)))
      end
  | OpUpdatePod oldPod _ =>
      match s_pods s !! pod_key oldPod with
      | Some (_, Added) => (Ok (), s)
      | _ => (Err (UpdateNotAdded (pod_key oldPod)), s)
      end
  | OpRemovePod pod =>
      match s_pods s !! pod_key pod with
      | Some (_, Added) => (Ok (), with_pods (delete (pod_key pod) (s_pods s)))
      | _ => (Err (RemoveNotAdded (pod_key pod)), s)
      end
  | OpAddNode node | OpUpdateNode _ node =>
      (Ok (), mkSpec (s_pods s) (<[n_name node := node]> (s_nodes s)))
  | OpRemoveNode node => (Ok (), mkSpec (s_pods s) (delete (n_name node) (s_nodes s)))
  | OpCleanup now => (Ok (), with_pods (filter (λ e, ¬ expired now e) (s_pods s)))
  end.

(** What the callers must respect.  A pod's resource requests do not change
    while it is known, it is added on the node it was assumed on, updates keep
    its key and node, only known pods are forgotten, and only nodes with a node
    object or with pods are removed. *)
Definition admissible (op : cache_op) (s : cache_spec) : Prop :=
  match op with
  | OpAssumePod _ | OpFinishBinding _ _ | OpAddNode _ | OpUpdateNode _ _ | OpCleanup _ => True
  | OpForgetPod pod =>
      match s_pods s !! pod_key pod with
      | Some (p, _) => p_requests pod = p_requests p
      | None => False
      end
  | OpAddPod pod =>
      match s_pods s !! pod_key pod with
      | Some (p, Assumed _) => p_nodeName p = p_nodeName pod
      | _ => True
      end
  | OpUpdatePod oldPod newPod =>
      pod_key newPod = pod_key oldPod ∧
      match s_pods s !! pod_key oldPod with
      | Some (p, Added) =>
          p_nodeName oldPod = p_nodeName p ∧ p_nodeName newPod = p_nodeName p ∧
          p_requests oldPod = p_requests p ∧ p_requests newPod = p_requests p
      | _ => True
      end
  | OpRemovePod pod =>
      match s_pods s !! pod_key pod with
      | Some (p, Added) => p_nodeName p = p_nodeName pod
      | _ => True
      end
  | OpRemoveNode node =>
      is_Some (s_nodes s !! n_name node) ∨
      ∃ key p ph, s_pods s !! key = Some (p, ph) ∧ p_nodeName p = n_name node
  end.

(** ** The invariant

    The pods listed at the nodes are those of [S], each at its node, and the
    totals of each node are those of its pods. *)

Record placed `{!MapRange} (h : heap) (ns : gmap string NodeInfo) (S : gmap string podState)
    : Prop := {
  pl_infos : infos_ok h ns;
  pl_lists name n : ns !! name = Some n → lists_ok n;
  pl_used name n : ns !! name = Some n → ni_pods n = [] → ni_node n ≠ None;
  pl_pods name n p :
    ns !! name = Some n → p ∈ ni_pods n →
    p_nodeName p = name ∧
    ∃ ps, S !! pod_key p = Some ps ∧ p_nodeName (ps_pod ps) = name ∧
          p_requests (ps_pod ps) = p_requests p;
  pl_states key ps :
    S !! key = Some ps →
    pod_key (ps_pod ps) = key ∧
    ∃ n p, ns !! p_nodeName (ps_pod ps) = Some n ∧ p ∈ ni_pods n ∧ pod_key p = key
}.

Record cache_wf `{!MapRange} (c : schedulerCache) : Prop := {
  wf_placed : placed (cache_heap c) (nodes c) (podStates c);
  wf_assumed key b :
    assumedPods c !! key = Some b →
    b = true ∧
    ∃ ps, podStates c !! key = Some ps ∧ (bindingFinished ps = true → is_Some (deadline ps))
}.

(** ** Placing and removing a pod *)

Lemma omap_node_insert (ns : gmap string NodeInfo) name n n' :
  ni_node n' = ni_node n → ns !! name = Some n ∨ ns !! name = None ∧ ni_node n = None →
  omap ni_node (<[name := n']> ns) = omap ni_node ns.
Proof.
  intros Hnode Hn. apply map_eq. intros x. rewrite !lookup_omap.
  destruct (decide (name = x)) as [<-|]; [|by rewrite lookup_insert_ne].
  rewrite lookup_insert_eq. simpl. rewrite Hnode. destruct Hn as [->|[-> ->]]; done.
Qed.

Lemma drop_if_unused_cases name n (ns : gmap string NodeInfo) :
  (drop_if_unused name n (<[name := n]> ns) = <[name := n]> ns ∧
     (ni_pods n = [] → ni_node n ≠ None)) ∨
  (drop_if_unused name n (<[name := n]> ns) = delete name ns ∧
     ni_pods n = [] ∧ ni_node n = None).
Proof.
  unfold drop_if_unused. destruct (ni_pods n), (ni_node n); try (by left).
  right. by rewrite delete_insert_eq.
Qed.

Section placing.
Context `{!MapRange}.

Lemma calculateResource_requests p q :
  p_requests p = p_requests q → calculateResource p = calculateResource q.
Proof. unfold calculateResource. by intros ->. Qed.

Lemma placed_fresh_key h ns S name n p :
  placed h ns S → S !! pod_key p = None → ns !! name = Some n →
  pod_key p ∉ pod_key <$> ni_pods n.
Proof.
  intros Hpl Hfresh Hn (q & Hq & Hin)%list_elem_of_fmap.
  destruct (pl_pods _ _ _ Hpl _ _ _ Hn Hin) as (_ & ps & Hps & _). congruence.
Qed.

(** The entry of a node with the pod [p] added to it. *)
Lemma placed_with h ns S h' n n' p ps :
  placed h ns S → S !! pod_key p = None →
  pod_key (ps_pod ps) = pod_key p → p_nodeName (ps_pod ps) = p_nodeName p →
  p_requests (ps_pod ps) = p_requests p →
  infos_ok h' (<[p_nodeName p := n']> ns) → lists_ok n' → ni_pods n' = ni_pods n ++ [p] →
  ns !! p_nodeName p = Some n ∨ ns !! p_nodeName p = None ∧ ni_pods n = [] →
  placed h' (<[p_nodeName p := n']> ns) (<[pod_key p := ps]> S).
Proof.
  intros Hpl Hfresh Hkey Hname Hreq Hok Hlists Hpods Hn.
  assert (Hnpods : ∀ q, q ∈ ni_pods n → ns !! p_nodeName p = Some n).
  { destruct Hn as [?|(_ & ->)]; [eauto|]. by intros q ?%elem_of_nil. }
  assert (Hin : ∀ q, q ∈ ni_pods n' ↔ q ∈ ni_pods n ∨ q = p).
  { intros q. by rewrite Hpods, elem_of_app, list_elem_of_singleton. }
  assert (Hstate : ∀ x m q, ns !! x = Some m → q ∈ ni_pods m →
    p_nodeName q = x ∧ ∃ ps', <[pod_key p := ps]> S !! pod_key q = Some ps' ∧
      p_nodeName (ps_pod ps') = x ∧ p_requests (ps_pod ps') = p_requests q).
  { intros x m q Hm Hq. destruct (pl_pods _ _ _ Hpl _ _ _ Hm Hq) as (? & ps' & Hps' & ?).
    split; [done|]. exists ps'. rewrite lookup_insert_ne by congruence. done. }
  split; [done|..].
  - intros name m [[<- <-]|[_ Hm]]%lookup_insert_Some; [done|by eapply pl_lists].
  - intros name m [[<- <-]|[_ Hm]]%lookup_insert_Some; [|by eapply pl_used].
    rewrite Hpods. by intros ?%app_nil%proj2.
  - intros name m q [[<- <-]|[Hne Hm]]%lookup_insert_Some Hq; [|by eapply Hstate].
    apply Hin in Hq as [Hq| ->]; [by eapply Hstate, Hq; eapply Hnpods|].
    split; [done|]. exists ps. by rewrite lookup_insert_eq.
  - intros key ps' [[<- <-]|[Hne Hps']]%lookup_insert_Some.
    + split; [done|]. exists n', p. rewrite Hname, lookup_insert_eq, Hin. auto.
    + destruct (pl_states _ _ _ Hpl _ _ Hps') as (? & m & q & Hm & Hq & ?). split; [done|].
      destruct (decide (p_nodeName p = p_nodeName (ps_pod ps'))) as [Heq|Hne'].
      * exists n', q. rewrite Heq, lookup_insert_eq, Hin. split_and!; [done| |done].
        left. destruct Hn as [Hn|(Hn & _)]; congruence.
      * exists m, q. by rewrite lookup_insert_ne.
Qed.

Lemma cache_addPod_placed p ps c S :
  placed (cache_heap c) (nodes c) S → S !! pod_key p = None →
  pod_key (ps_pod ps) = pod_key p → p_nodeName (ps_pod ps) = p_nodeName p →
  p_requests (ps_pod ps) = p_requests p →
  ∃ h ns, cache_addPod p c = Ret (set_nodes h ns c) ∧
    placed h ns (<[pod_key p := ps]> S) ∧ omap ni_node ns = omap ni_node (nodes c).
Proof.
  intros Hpl Hfresh Hkey Hname Hreq. unfold cache_addPod.
  destruct (info_of_spec (p_nodeName p) _ _ (pl_infos _ _ _ Hpl)) as (h1 & n & -> & Hok & Hn).
  assert (Hn1 : <[p_nodeName p := n]> (nodes c) !! p_nodeName p = Some n) by apply lookup_insert_eq.
  destruct (addPod_spec p h1 n) as (h2 & n' & Hadd & Ht & Hs & Hacc & Hpods & Hlists);
    [by eapply infos_ok_own|by eapply io_accounts|].
  simpl. rewrite Hadd. simpl. eexists _, _. split; [done|]. split.
  - eapply placed_with; try done.
    + eapply infos_ok_update in Hok; [|done..|apply Hs|done]. by rewrite insert_insert_eq in Hok.
    + destruct Hn as [Hn|(_ & Hp0 & Ha0 & _)].
      * apply Hlists; [by eapply pl_lists|by eapply placed_fresh_key].
      * apply Hlists; [|by rewrite Hp0; apply not_elem_of_nil].
        split; [by rewrite Hp0; constructor|by rewrite Hp0, Ha0].
    + destruct Hn as [?|(? & ? & _)]; auto.
  - apply (omap_node_insert _ _ n); [apply Hs|]. destruct Hn as [?|(? & _ & _ & ?)]; auto.
Qed.

(** The entry of a node without the pod [p], kept or dropped. *)
Lemma placed_without h ns S h' ns' name n n' p :
  placed h ns S → ns !! name = Some n → p ∈ ni_pods n →
  infos_ok h' ns' → lists_ok n' → ni_pods n ≡ₚ p :: ni_pods n' →
  (ns' = <[name := n']> ns ∧ (ni_pods n' = [] → ni_node n' ≠ None)) ∨
  (ns' = delete name ns ∧ ni_pods n' = []) →
  placed h' ns' (delete (pod_key p) S).
Proof.
  intros Hpl Hn Hp Hok Hlists Hperm Hns.
  assert (Hin : ∀ q, q ∈ ni_pods n ↔ q = p ∨ q ∈ ni_pods n').
  { intros q. by rewrite Hperm, elem_of_cons. }
  destruct (pl_lists _ _ _ Hpl _ _ Hn) as [Hnd _]. rewrite Hperm in Hnd. simpl in Hnd.
  apply NoDup_cons in Hnd as [Hnotin _].
  assert (Hlook : ∀ x m, ns' !! x = Some m → x = name ∧ m = n' ∨ x ≠ name ∧ ns !! x = Some m).
  { intros x m Hm. destruct Hns as [[-> _]|[-> _]].
    - apply lookup_insert_Some in Hm as [[]|[]]; auto.
    - apply lookup_delete_Some in Hm as []. auto. }
  assert (Hpname : p_nodeName p = name) by apply (pl_pods _ _ _ Hpl _ _ _ Hn Hp).
  assert (Hstate : ∀ x m q, ns !! x = Some m → q ∈ ni_pods m → pod_key q ≠ pod_key p →
    p_nodeName q = x ∧ ∃ ps, delete (pod_key p) S !! pod_key q = Some ps ∧
      p_nodeName (ps_pod ps) = x ∧ p_requests (ps_pod ps) = p_requests q).
  { intros x m q Hm Hq Hne. rewrite lookup_delete_ne by done. by eapply pl_pods. }
  split; [done|..].
  - intros x m [[-> ->]|[_ Hm]]%Hlook; [done|by eapply pl_lists].
  - intros x m Hm Hnil. destruct (Hlook x m Hm) as [[-> ->]|[_ Hm']]; [|by eapply pl_used].
    destruct Hns as [[_ Hused]|[-> _]]; [by apply Hused|]. by rewrite lookup_delete_eq in Hm.
  - intros x m q [[-> ->]|[Hne Hm]]%Hlook Hq.
    + apply (Hstate _ n); [done|by apply Hin; right|].
      intros Heq. apply Hnotin. rewrite <-Heq. by apply list_elem_of_fmap_2.
    + apply (Hstate _ m); [done..|]. intros Heq.
      destruct (pl_pods _ _ _ Hpl _ _ _ Hm Hq) as (_ & ps & Hps & Hx & _).
      destruct (pl_pods _ _ _ Hpl _ _ _ Hn Hp) as (_ & ps' & Hps' & Hx' & _). congruence.
  - intros key ps [Hne Hps]%lookup_delete_Some.
    destruct (pl_states _ _ _ Hpl _ _ Hps) as (Hk & m & q & Hm & Hq & Hqk). split; [done|].
    destruct (decide (p_nodeName (ps_pod ps) = name)) as [Heq|Hne'].
    + rewrite Heq in *. assert (m = n) as -> by congruence.
      apply Hin in Hq as [->|Hq]; [done|]. exists n', q. split_and!; try done.
      destruct Hns as [[-> _]|[_ Hnil]]; [apply lookup_insert_eq|].
      rewrite Hnil in Hq. by apply elem_of_nil in Hq.
    + exists m, q. split_and!; try done. destruct Hns as [[-> _]|[-> _]].
      * by rewrite lookup_insert_ne.
      * by rewrite lookup_delete_ne.
Qed.

Lemma cache_removePod_placed q ps c S :
  placed (cache_heap c) (nodes c) S → S !! pod_key q = Some ps →
  p_nodeName q = p_nodeName (ps_pod ps) → p_requests q = p_requests (ps_pod ps) →
  ∃ h ns, cache_removePod q c = Ret (Ok (), set_nodes h ns c) ∧
    placed h ns (delete (pod_key q) S) ∧ omap ni_node ns = omap ni_node (nodes c).
Proof.
  intros Hpl Hps Hname Hreq.
  destruct (pl_states _ _ _ Hpl _ _ Hps) as (Hk & n & p & Hn & Hp & Hpk).
  destruct (pl_pods _ _ _ Hpl _ _ _ Hn Hp) as (_ & ps' & Hps' & _ & Hreq').
  assert (ps' = ps) as -> by congruence.
  pose proof (pl_infos _ _ _ Hpl) as Hok.
  destruct (removePod_spec q p (cache_heap c) n) as (h' & n' & Hrun & Ht & Hs & Hacc & Hperm & Hlists);
    [by eapply infos_ok_own|by eapply io_accounts|by eapply pl_lists|done|congruence| |].
  { apply calculateResource_requests. congruence. }
  unfold cache_removePod. rewrite Hname, Hn, Hrun. simpl. eexists _, _. split; [done|].
  set (name := p_nodeName (ps_pod ps)) in *. rewrite <-Hpk.
  assert (Hok' : infos_ok h' (<[name := n']> (nodes c))).
  { eapply infos_ok_update; [done..|apply Hs|done]. }
  assert (Homap : omap ni_node (<[name := n']> (nodes c)) = omap ni_node (nodes c)).
  { apply (omap_node_insert _ _ n); [apply Hs|by left]. }
  destruct (drop_if_unused_cases name n' (nodes c)) as [[-> Hused]|(-> & Hnil & Hnode)].
  - split; [|done]. eapply placed_without; eauto.
  - split.
    + eapply placed_without; eauto. rewrite <-(delete_insert_eq _ _ n').
      by apply infos_ok_delete.
    + apply map_eq. intros x. rewrite !lookup_omap.
      destruct (decide (name = x)) as [<-|]; [|by rewrite lookup_delete_ne].
      rewrite lookup_delete_eq, Hn. simpl. destruct Hs as (_ & Hsn & _). congruence.
Qed.

(** Changing what is recorded of a pod besides the pod itself. *)
Lemma placed_restate h ns S key ps ps' :
  placed h ns S → S !! key = Some ps → ps_pod ps' = ps_pod ps → placed h ns (<[key := ps']> S).
Proof.
  intros Hpl Hps Heq. split; try apply Hpl.
  - intros name n p Hn Hp. destruct (pl_pods _ _ _ Hpl _ _ _ Hn Hp) as (? & ps0 & Hps0 & ? & ?).
    split; [done|]. destruct (decide (key = pod_key p)) as [->|Hne].
    + exists ps'. rewrite lookup_insert_eq. assert (ps0 = ps) as -> by congruence.
      by rewrite Heq.
    + exists ps0. by rewrite lookup_insert_ne.
  - intros k ps0 [[<- <-]|[_ ?]]%lookup_insert_Some; [|by eapply pl_states].
    rewrite Heq. by eapply pl_states.
Qed.

(** Changing the nodes but not the pods on them. *)
Lemma placed_relabel h ns S h' ns' :
  placed h ns S → infos_ok h' ns' →
  (∀ x m', ns' !! x = Some m' →
     (∃ m, ns !! x = Some m ∧ ni_pods m' = ni_pods m ∧
           ni_podsWithAffinity m' = ni_podsWithAffinity m) ∨
     ni_pods m' = [] ∧ ni_podsWithAffinity m' = []) →
  (∀ x m, ns !! x = Some m → ni_pods m ≠ [] →
     ∃ m', ns' !! x = Some m' ∧ ni_pods m' = ni_pods m) →
  (∀ x m', ns' !! x = Some m' → ni_pods m' = [] → ni_node m' ≠ None) →
  placed h' ns' S.
Proof.
  intros Hpl Hok Hback Hforth Hused. split; try done.
  - intros x m' [(m & Hm & Hp & Ha)|[Hp Ha]]%Hback; unfold lists_ok; rewrite Hp, Ha.
    + by apply (pl_lists _ _ _ Hpl x).
    + split; [constructor|done].
  - intros x m' p [(m & Hm & Hp & _)|[Hp _]]%Hback; rewrite Hp; [by eapply pl_pods|].
    by intros ?%elem_of_nil.
  - intros key ps Hps. destruct (pl_states _ _ _ Hpl _ _ Hps) as (? & n & p & Hn & Hp & ?).
    split; [done|]. destruct (Hforth _ _ Hn) as (n' & Hn' & Heq).
    { intros Hnil. rewrite Hnil in Hp. by apply elem_of_nil in Hp. }
    exists n', p. by rewrite Heq.
Qed.

End placing.

(** ** Each operation refines its specification *)

Lemma lookup_abs c key :
  s_pods (abs c) !! key = (λ ps, (ps_pod ps, abs_phase c key ps)) <$> podStates c !! key.
Proof. simpl. rewrite map_lookup_imap. by destruct (podStates c !! key). Qed.

(** A step that changes what is known of one key only. *)
Lemma abs_update c c' key :
  (∀ k, k ≠ key → podStates c' !! k = podStates c !! k ∧ assumedPods c' !! k = assumedPods c !! k) →
  omap ni_node (nodes c') = omap ni_node (nodes c) →
  abs c' = mkSpec
    match podStates c' !! key with
    | Some ps => <[key := (ps_pod ps, abs_phase c' key ps)]> (s_pods (abs c))
    | None => delete key (s_pods (abs c))
    end (s_nodes (abs c)).
Proof.
  intros Hoff Hnodes. unfold abs at 1. rewrite Hnodes. f_equal. apply map_eq. intros k.
  rewrite map_lookup_imap. destruct (decide (k = key)) as [->|Hne].
  - destruct (podStates c' !! key); simpl; [by rewrite lookup_insert_eq|by rewrite lookup_delete_eq].
  - destruct (Hoff k Hne) as [-> Ha].
    assert (Hk : s_pods (abs c) !! k =
      podStates c !! k ≫= λ ps, Some (ps_pod ps, abs_phase c' k ps)).
    { rewrite lookup_abs. unfold abs_phase, assumed. rewrite Ha. by destruct (podStates c !! k). }
    rewrite <-Hk. by destruct (podStates c' !! key);
      [rewrite lookup_insert_ne by done|rewrite lookup_delete_ne by done].
Qed.

Lemma abs_same c c' :
  podStates c' = podStates c → assumedPods c' = assumedPods c →
  omap ni_node (nodes c') = omap ni_node (nodes c) → abs c' = abs c.
Proof.
  intros Hps Ha Hn. unfold abs. rewrite Hps, Hn. f_equal.
  unfold abs_phase, assumed. by rewrite Ha.
Qed.

Section refinement.
Context `{!MapRange}.

Lemma assumed_true c key :
  cache_wf c → assumed c key = true →
  ∃ ps, podStates c !! key = Some ps ∧ (bindingFinished ps = true → is_Some (deadline ps)).
Proof.
  unfold assumed. intros Hwf Ha. destruct (assumedPods c !! key) as [b|] eqn:Hb; [|done].
  by apply (wf_assumed _ Hwf) in Hb as [_ ?].
Qed.

(** The assumed keys stay known when only one key changes. *)
Lemma assumed_update c c' key :
  cache_wf c →
  (∀ k, k ≠ key → podStates c' !! k = podStates c !! k ∧ assumedPods c' !! k = assumedPods c !! k) →
  (∀ b, assumedPods c' !! key = Some b →
     b = true ∧ ∃ ps, podStates c' !! key = Some ps ∧ (bindingFinished ps = true → is_Some (deadline ps))) →
  ∀ k b, assumedPods c' !! k = Some b →
    b = true ∧ ∃ ps, podStates c' !! k = Some ps ∧ (bindingFinished ps = true → is_Some (deadline ps)).
Proof.
  intros Hwf Hoff Hkey k b Hb. destruct (decide (k = key)) as [->|Hne]; [by apply Hkey|].
  destruct (Hoff k Hne) as [-> Ha]. rewrite Ha in Hb. by eapply wf_assumed.
Qed.

Definition refines (op : cache_op) (c : schedulerCache) : Prop :=
  ∃ r c', run_op op c = Ret (r, c') ∧ cache_wf c' ∧
    abs_op (ttl c) op (abs c) = (r, abs c') ∧ ttl c' = ttl c.

Lemma assume_refines pod c : cache_wf c → refines (OpAssumePod pod) c.
Proof.
  intros Hwf. unfold refines. cbn [run_op abs_op]. unfold AssumePod.
  rewrite getPodKey_pod_key, lookup_abs.
  destruct (podStates c !! pod_key pod) as [ps|] eqn:Hps; simpl.
  { eexists _, _. split; [done|]. done. }
  destruct (cache_addPod_placed pod (mkPodState pod None false) c (podStates c))
    as (h & ns & -> & Hpl & Hnodes); [apply Hwf|done..|].
  simpl. eexists _, _. split; [done|].
  match goal with |- cache_wf ?x ∧ _ => set (c' := x) end.
  assert (Hoff : ∀ k, k ≠ pod_key pod →
    podStates c' !! k = podStates c !! k ∧ assumedPods c' !! k = assumedPods c !! k).
  { intros k Hne. simpl. by rewrite !lookup_insert_ne. }
  split_and!; [|..|done].
  - split; [done|]. apply (assumed_update c _ _ Hwf Hoff). simpl.
    intros b. rewrite !lookup_insert_eq. naive_solver.
  - f_equal. rewrite (abs_update c c' _ Hoff Hnodes). simpl. rewrite lookup_insert_eq. simpl.
    unfold abs_phase, assumed. simpl. by rewrite lookup_insert_eq.
Qed.

Lemma finish_refines pod now c : cache_wf c → refines (OpFinishBinding pod now) c.
Proof.
  intros Hwf. unfold refines. cbn [run_op abs_op]. unfold finishBinding.
  rewrite getPodKey_pod_key, lookup_abs.
  destruct (podStates c !! pod_key pod) as [ps|] eqn:Hps; simpl; [|by eexists _, _].
  unfold abs_phase at 1. destruct (assumed c (pod_key pod)) eqn:Ha; [|by eexists _, _].
  eexists _, _. split; [done|]. match goal with |- cache_wf ?x ∧ _ => set (c' := x) end.
  assert (Hoff : ∀ k, k ≠ pod_key pod →
    podStates c' !! k = podStates c !! k ∧ assumedPods c' !! k = assumedPods c !! k).
  { intros k Hne. simpl. by rewrite !lookup_insert_ne. }
  split_and!; [|..|done].
  - split.
    + by apply (placed_restate _ _ _ _ ps); [apply Hwf|..].
    + apply (assumed_update c _ _ Hwf Hoff). simpl. rewrite lookup_insert_eq.
      intros b Hb%(wf_assumed _ Hwf). naive_solver.
  - f_equal. rewrite (abs_update c c' _ Hoff) by done. simpl. rewrite lookup_insert_eq. simpl.
    unfold abs_phase. unfold assumed in *. simpl. by rewrite Ha.
Qed.

Lemma forget_refines pod c :
  cache_wf c → admissible (OpForgetPod pod) (abs c) → refines (OpForgetPod pod) c.
Proof.
  intros Hwf. unfold refines. cbn [run_op abs_op admissible]. unfold ForgetPod.
  rewrite getPodKey_pod_key, lookup_abs.
  destruct (podStates c !! pod_key pod) as [ps|] eqn:Hps; simpl; [|done]. intros Hreq.
  destruct (decide (p_nodeName (ps_pod ps) ≠ p_nodeName pod)) as [Hne|Heq]; [by eexists _, _|].
  apply dec_stable in Heq. unfold abs_phase at 1.
  destruct (assumed c (pod_key pod)) eqn:Ha; [|by eexists _, _].
  destruct (cache_removePod_placed pod ps c (podStates c)) as (h & ns & -> & Hpl & Hnodes);
    [apply Hwf|done..|].
  simpl. eexists _, _. split; [done|]. match goal with |- cache_wf ?x ∧ _ => set (c' := x) end.
  assert (Hoff : ∀ k, k ≠ pod_key pod →
    podStates c' !! k = podStates c !! k ∧ assumedPods c' !! k = assumedPods c !! k).
  { intros k Hne. simpl. by rewrite !lookup_delete_ne. }
  split_and!; [|..|done].
  - split; [done|]. apply (assumed_update c _ _ Hwf Hoff). simpl.
    intros b. by rewrite !lookup_delete_eq.
  - f_equal. rewrite (abs_update c c' _ Hoff Hnodes). simpl. by rewrite lookup_delete_eq.
Qed.

Lemma add_refines pod c :
  cache_wf c → admissible (OpAddPod pod) (abs c) → refines (OpAddPod pod) c.
Proof.
  intros Hwf. unfold refines. cbn [run_op abs_op admissible]. unfold AddPod.
  rewrite getPodKey_pod_key, lookup_abs.
  destruct (podStates c !! pod_key pod) as [ps|] eqn:Hps; simpl.
  - unfold abs_phase at 1 2. destruct (assumed c (pod_key pod)) eqn:Ha; [|by eexists _, _].
    intros Hname. rewrite decide_False by (intros ?; done). simpl. rewrite Hps.
    eexists _, _. split; [done|]. match goal with |- cache_wf ?x ∧ _ => set (c' := x) end.
    assert (Hoff : ∀ k, k ≠ pod_key pod →
      podStates c' !! k = podStates c !! k ∧ assumedPods c' !! k = assumedPods c !! k).
    { intros k Hne. simpl. by rewrite lookup_insert_ne, lookup_delete_ne. }
    split_and!; [|..|done].
    + split; [by apply (placed_restate _ _ _ _ ps); [apply Hwf|..]|].
      apply (assumed_update c _ _ Hwf Hoff). simpl. intros b. by rewrite lookup_delete_eq.
    + f_equal. rewrite (abs_update c c' _ Hoff) by done. simpl. rewrite lookup_insert_eq. simpl.
      unfold abs_phase, assumed. simpl. by rewrite lookup_delete_eq.
  - intros _. destruct (cache_addPod_placed pod (mkPodState pod None false) c (podStates c))
      as (h & ns & -> & Hpl & Hnodes); [apply Hwf|done..|].
    simpl. eexists _, _. split; [done|]. match goal with |- cache_wf ?x ∧ _ => set (c' := x) end.
    assert (Hoff : ∀ k, k ≠ pod_key pod →
      podStates c' !! k = podStates c !! k ∧ assumedPods c' !! k = assumedPods c !! k).
    { intros k Hne. simpl. by rewrite lookup_insert_ne. }
    assert (Ha : assumedPods c !! pod_key pod = None).
    { destruct (assumedPods c !! pod_key pod) eqn:Hb; [|done].
      apply (wf_assumed _ Hwf) in Hb as (_ & ps & ? & _). congruence. }
    split_and!; [|..|done].
    + split; [done|]. apply (assumed_update c _ _ Hwf Hoff). simpl. by rewrite Ha.
    + f_equal. rewrite (abs_update c c' _ Hoff Hnodes). simpl. rewrite lookup_insert_eq. simpl.
      unfold abs_phase, assumed. simpl. by rewrite Ha.
Qed.

Lemma update_refines oldPod newPod c :
  cache_wf c → admissible (OpUpdatePod oldPod newPod) (abs c) →
  refines (OpUpdatePod oldPod newPod) c.
Proof.
  intros Hwf. unfold refines. cbn [run_op abs_op admissible]. unfold UpdatePod.
  rewrite getPodKey_pod_key, lookup_abs. intros [Hkey Hadm].
  destruct (podStates c !! pod_key oldPod) as [ps|] eqn:Hps; simpl in *; [|by eexists _, _].
  unfold abs_phase in Hadm. unfold abs_phase at 1.
  destruct (assumed c (pod_key oldPod)) eqn:Ha; simpl; [by eexists _, _|].
  destruct Hadm as (Ho & Hn & Hro & Hrn). rewrite decide_False by (intros H0; done).
  unfold cache_updatePod.
  destruct (cache_removePod_placed oldPod ps c (podStates c)) as (h & ns & -> & Hpl & Hnodes);
    [apply Hwf|done..|].
  simpl. destruct (cache_addPod_placed newPod ps (set_nodes h ns c) (delete (pod_key oldPod) (podStates c)))
    as (h' & ns' & -> & Hpl' & Hnodes'); try done.
  { by rewrite Hkey, lookup_delete_eq. }
  { rewrite Hkey. by apply (pl_states _ _ _ (wf_placed _ Hwf)). }
  simpl. eexists _, _. split; [done|]. split_and!; [|..|done].
  - split; [|apply Hwf]. simpl. by rewrite Hkey, insert_delete_id in Hpl'.
  - f_equal. symmetry. apply abs_same; [done..|]. simpl in *. by rewrite Hnodes', Hnodes.
Qed.

Lemma remove_refines pod c :
  cache_wf c → admissible (OpRemovePod pod) (abs c) → refines (OpRemovePod pod) c.
Proof.
  intros Hwf. unfold refines. cbn [run_op abs_op admissible]. unfold RemovePod.
  rewrite getPodKey_pod_key, lookup_abs.
  destruct (podStates c !! pod_key pod) as [ps|] eqn:Hps; simpl; [|by eexists _, _].
  unfold abs_phase at 1 2. destruct (assumed c (pod_key pod)) eqn:Ha; simpl; [by eexists _, _|].
  intros Hname. rewrite decide_False by (intros ?; done).
  assert (Hk : pod_key (ps_pod ps) = pod_key pod) by apply (pl_states _ _ _ (wf_placed _ Hwf) _ _ Hps).
  destruct (cache_removePod_placed (ps_pod ps) ps c (podStates c)) as (h & ns & -> & Hpl & Hnodes);
    [apply Hwf|by rewrite Hk|done..|].
  rewrite Hk in Hpl. simpl. eexists _, _. split; [done|].
  match goal with |- cache_wf ?x ∧ _ => set (c' := x) end.
  assert (Hoff : ∀ k, k ≠ pod_key pod →
    podStates c' !! k = podStates c !! k ∧ assumedPods c' !! k = assumedPods c !! k).
  { intros k Hne. simpl. by rewrite lookup_delete_ne. }
  split_and!; [|..|done].
  - split; [done|]. apply (assumed_update c _ _ Hwf Hoff). simpl.
    intros b Hb. destruct (wf_assumed _ Hwf _ _ Hb) as [-> _].
    unfold assumed in Ha. by rewrite Hb in Ha.
  - f_equal. rewrite (abs_update c c' _ Hoff Hnodes). simpl. by rewrite lookup_delete_eq.
Qed.

Lemma add_node_refines node c : cache_wf c → refines (OpAddNode node) c.
Proof.
  intros Hwf. unfold refines. cbn [run_op abs_op]. unfold AddNode.
  pose proof (wf_placed _ Hwf) as Hpl.
  destruct (info_of_spec (n_name node) _ _ (pl_infos _ _ _ Hpl)) as (h1 & n & -> & Hok & Hn).
  assert (Hn1 : <[n_name node := n]> (nodes c) !! n_name node = Some n) by apply lookup_insert_eq.
  destruct (SetNode_frame node h1 n) as (Ht & Hacc & Hloc & Hpods & Haff & Hset);
    [by eapply infos_ok_own|by eapply io_accounts|].
  simpl. destruct (SetNode node h1 n) as [h2 n2]. simpl in *.
  eexists _, _. split; [done|]. split_and!; [|..|done].
  - split; [|apply Hwf]. simpl. eapply placed_relabel; [done|..].
    + eapply infos_ok_update in Hok; [|done..]. by rewrite insert_insert_eq in Hok.
    + intros x m [[<- <-]|[_ Hm]]%lookup_insert_Some; [|eauto].
      rewrite Hpods, Haff. destruct Hn as [Hn|(_ & ? & ? & _)]; eauto.
    + intros x m Hm Hne. destruct (decide (n_name node = x)) as [<-|].
      * exists n2. rewrite lookup_insert_eq, Hpods. destruct Hn as [Hn|[Hn _]]; split; congruence.
      * exists m. by rewrite lookup_insert_ne.
    + intros x m [[<- <-]|[_ Hm]]%lookup_insert_Some; [by rewrite Hset|by eapply pl_used].
  - f_equal. unfold abs. simpl. f_equal. apply map_eq. intros x.
    rewrite lookup_omap, lookup_insert, lookup_insert, lookup_omap.
    destruct (decide (n_name node = x)); simpl; congruence.
Qed.

Lemma remove_node_refines node c :
  cache_wf c → admissible (OpRemoveNode node) (abs c) → refines (OpRemoveNode node) c.
Proof.
  intros Hwf Hadm. unfold refines. cbn [run_op abs_op]. unfold RemoveNode.
  pose proof (wf_placed _ Hwf) as Hpl.
  assert (∃ n, nodes c !! n_name node = Some n) as [n Hn].
  { destruct Hadm as [[x Hx]|(key & p & ph & Hp & Hname)].
    - simpl in Hx. rewrite lookup_omap in Hx. destruct (nodes c !! n_name node); [eauto|done].
    - rewrite lookup_abs in Hp. destruct (podStates c !! key) as [ps|] eqn:Hps; simplify_eq/=.
      destruct (pl_states _ _ _ Hpl _ _ Hps) as (_ & m & q & Hm & _). rewrite <-Hname. eauto. }
  rewrite Hn. pose proof (infos_ok_remove_node _ _ _ _ (pl_infos _ _ _ Hpl) Hn) as Hok.
  destruct (NodeInfo_RemoveNode (cache_heap c) n) as [h' n'] eqn:Hrm.
  assert (Hn' : ni_pods n' = ni_pods n ∧ ni_podsWithAffinity n' = ni_podsWithAffinity n ∧ ni_node n' = None).
  { unfold NodeInfo_RemoveNode in Hrm. by destruct (alloc _ _); simplify_eq/=. }
  destruct Hn' as (Hpods & Haff & Hnode). simpl in Hok.
  eexists _, _. split; [done|]. split_and!; [|..|done].
  - split; [|apply Hwf]. simpl. eapply placed_relabel; [done|..].
    + destruct (drop_if_unused_cases (n_name node) n' (nodes c)) as [[-> _]|[-> _]]; [done|].
      rewrite <-(delete_insert_eq _ _ n'). by apply infos_ok_delete.
    + intros x m. destruct (drop_if_unused_cases (n_name node) n' (nodes c)) as [[-> _]|[-> _]].
      * intros [[<- <-]|[_ Hm]]%lookup_insert_Some; eauto.
      * intros [_ Hm]%lookup_delete_Some. eauto.
    + intros x m Hm Hne. destruct (decide (n_name node = x)) as [<-|].
      * assert (m = n) as -> by congruence. exists n'.
        destruct (drop_if_unused_cases (n_name node) n' (nodes c)) as [[-> _]|(_ & Hnil & _)];
          [by rewrite lookup_insert_eq|congruence].
      * exists m. destruct (drop_if_unused_cases (n_name node) n' (nodes c)) as [[-> _]|[-> _]];
          [by rewrite lookup_insert_ne|by rewrite lookup_delete_ne].
    + intros x m. destruct (drop_if_unused_cases (n_name node) n' (nodes c)) as [[-> Hused]|[-> _]].
      * intros [[<- <-]|[_ Hm]]%lookup_insert_Some; [done|by eapply pl_used].
      * intros [_ Hm]%lookup_delete_Some. by eapply pl_used.
  - f_equal. unfold abs. simpl. f_equal. apply map_eq. intros x.
    rewrite lookup_omap, lookup_delete, lookup_omap.
    destruct (drop_if_unused_cases (n_name node) n' (nodes c)) as [[-> _]|[-> _]].
    + rewrite lookup_insert. destruct (decide (n_name node = x)); simpl; [by rewrite Hnode|done].
    + rewrite lookup_delete. by destruct (decide (n_name node = x)).
Qed.

(** ** Expiration *)

(** The entries of the keys in [keys] that have expired are gone. *)
Definition expire_keys (now : Z) (keys : list string) (s : cache_spec) : cache_spec :=
  mkSpec (filter (λ e, ¬ (e.1 ∈ keys ∧ expired now e)) (s_pods s)) (s_nodes s).

Lemma expire_refines key ps c :
  cache_wf c → assumed c key = true → podStates c !! key = Some ps →
  ∃ c', expirePod key ps c = Ret (Ok (), c') ∧ cache_wf c' ∧ ttl c' = ttl c ∧
    (∀ k, k ≠ key → podStates c' !! k = podStates c !! k ∧ assumedPods c' !! k = assumedPods c !! k) ∧
    abs c' = mkSpec (delete key (s_pods (abs c))) (s_nodes (abs c)).
Proof.
  intros Hwf Ha Hps. unfold expirePod.
  assert (Hk : pod_key (ps_pod ps) = key) by apply (pl_states _ _ _ (wf_placed _ Hwf) _ _ Hps).
  destruct (cache_removePod_placed (ps_pod ps) ps c (podStates c)) as (h & ns & -> & Hpl & Hnodes);
    [apply Hwf|by rewrite Hk|done..|].
  rewrite Hk in Hpl. simpl. eexists. split; [done|].
  match goal with |- cache_wf ?x ∧ _ => set (c' := x) end.
  assert (Hoff : ∀ k, k ≠ key →
    podStates c' !! k = podStates c !! k ∧ assumedPods c' !! k = assumedPods c !! k).
  { intros k Hne. simpl. by rewrite !lookup_delete_ne. }
  split_and!; [|done..|].
  - split; [done|]. apply (assumed_update c _ _ Hwf Hoff). simpl. intros b. by rewrite lookup_delete_eq.
  - rewrite (abs_update c c' _ Hoff Hnodes). simpl. by rewrite lookup_delete_eq.
Qed.

Lemma expire_keys_skip now key keys s :
  (∀ e, s_pods s !! key = Some e → ¬ expired now (key, e)) →
  expire_keys now (key :: keys) s = expire_keys now keys s.
Proof.
  intros Hkey. unfold expire_keys. f_equal. apply map_filter_ext. intros k e He. simpl.
  rewrite elem_of_cons. destruct (decide (k = key)) as [->|]; [|intuition].
  specialize (Hkey e He). intuition.
Qed.

Lemma expire_keys_delete now key keys s e :
  s_pods s !! key = Some e → expired now (key, e) →
  expire_keys now keys (mkSpec (delete key (s_pods s)) (s_nodes s)) =
  expire_keys now (key :: keys) s.
Proof.
  intros He Hexp. unfold expire_keys. f_equal. apply map_eq. intros k. apply option_eq. intros e'. simpl.
  rewrite !map_lookup_filter_Some, lookup_delete_Some. simpl. rewrite elem_of_cons.
  destruct (decide (k = key)) as [->|Hne]; [|intuition].
  split; [intuition|]. intros [? Hnot]. destruct Hnot. split; [by left|]. congruence.
Qed.

Lemma cleanup_loop_refines now keys c :
  cache_wf c → NoDup keys → (∀ k, k ∈ keys → assumed c k = true) →
  ∃ c', cleanup_loop now keys c = Ret c' ∧ cache_wf c' ∧ ttl c' = ttl c ∧
    abs c' = expire_keys now keys (abs c).
Proof.
  revert c. induction keys as [|key keys IH]; intros c Hwf Hnd Has.
  { exists c. split_and!; try done. unfold expire_keys, abs. simpl. f_equal.
    symmetry. apply map_filter_id. intros k e _ [Hk _]. by apply elem_of_nil in Hk. }
  apply NoDup_cons in Hnd as [Hkey Hnd].
  assert (Ha : assumed c key = true) by (apply Has; left).
  destruct (assumed_true c key Hwf Ha) as (ps & Hps & Hdl). simpl. rewrite Hps.
  assert (Habs : s_pods (abs c) !! key =
    Some (ps_pod ps, Assumed (if bindingFinished ps then deadline ps else None))).
  { rewrite lookup_abs, Hps. unfold abs_phase. by rewrite Ha. }
  assert (Hskip : ¬ expired now (key, (ps_pod ps, Assumed (if bindingFinished ps then deadline ps else None))) →
    ∃ c', cleanup_loop now keys c = Ret c' ∧ cache_wf c' ∧ ttl c' = ttl c ∧
      abs c' = expire_keys now (key :: keys) (abs c)).
  { intros Hne. destruct (IH c) as (c' & ? & ? & ? & Hc'); try done.
    { intros k Hk. apply Has. by right. }
    exists c'. split_and!; try done. rewrite Hc', expire_keys_skip; [done|].
    intros e. rewrite Habs. by intros [= <-]. }
  destruct (bindingFinished ps); [|apply Hskip; unfold expired; simpl; tauto].
  destruct Hdl as [dl Hdl]; [done|]. rewrite Hdl in *.
  destruct (decide (dl < now)%Z) as [Hlt|Hge]; [|apply Hskip; unfold expired; simpl; lia].
  destruct (expire_refines key ps c Hwf Ha Hps) as (c1 & -> & Hwf1 & Httl & Hoff & Habs1). simpl.
  destruct (IH c1) as (c' & ? & ? & ? & Hc'); try done.
  { intros k Hk. unfold assumed. destruct (Hoff k) as [_ ->]; [by intros ->|]. apply Has. by right. }
  exists c'. split_and!; [done..|congruence|]. by rewrite Hc', Habs1, (expire_keys_delete _ _ _ _ _ Habs).
Qed.

Lemma cleanup_refines now c : cache_wf c → refines (OpCleanup now) c.
Proof.
  intros Hwf. unfold refines. cbn [run_op abs_op]. unfold cleanupAssumedPods.
  destruct (cleanup_loop_refines now (map_range (assumedPods c)).*1 c Hwf) as (c' & -> & ? & ? & Habs).
  - apply NoDup_fst_map_range.
  - intros k [b Hb]%elem_of_fst_map_range. unfold assumed. rewrite Hb.
    by apply (wf_assumed _ Hwf) in Hb as [-> _].
  - simpl. eexists _, _. split_and!; [done..| |done]. f_equal. rewrite Habs. unfold expire_keys. f_equal.
    apply map_filter_ext. intros k e He. rewrite lookup_abs in He.
    destruct (podStates c !! k) as [ps|] eqn:Hps; simplify_eq/=. unfold expired, abs_phase, assumed. simpl.
    rewrite elem_of_fst_map_range. destruct (assumedPods c !! k) as [b|] eqn:Hb; simpl; [|intuition].
    destruct b; intuition eauto.
Qed.

Lemma run_refines op c : cache_wf c → admissible op (abs c) → refines op c.
Proof.
  intros Hwf. destruct op; intros Hadm;
    eauto using assume_refines, finish_refines, forget_refines, add_refines, update_refines,
      remove_refines, add_node_refines, remove_node_refines, cleanup_refines.
Qed.

(** ** Runs *)

Fixpoint run_ops (ops : list cache_op) (c : schedulerCache)
    : outcome (list (result sched_error ()) * schedulerCache) :=
  match ops with
  | [] => Ret ([], c)
  | op :: ops' =>
      rc ?<- run_op op c;
      rsc ?<- run_ops ops' rc.2;
      Ret (rc.1 :: rsc.1, rsc.2)
  end.

Fixpoint abs_ops (ttl : Z) (ops : list cache_op) (s : cache_spec)
    : list (result sched_error ()) * cache_spec :=
  match ops with
  | [] => ([], s)
  | op :: ops' =>
      let '(r, s') := abs_op ttl op s in
      let '(rs, s'') := abs_ops ttl ops' s' in
      (r :: rs, s'')
  end.

Fixpoint admissible_ops (ttl : Z) (ops : list cache_op) (s : cache_spec) : Prop :=
  match ops with
  | [] => True
  | op :: ops' => admissible op s ∧ admissible_ops ttl ops' (abs_op ttl op s).2
  end.

Definition empty_spec : cache_spec := mkSpec ∅ ∅.

Lemma cache_addPod_frame pod c c' :
  cache_addPod pod c = Ret c' → podStates c' = podStates c.
Proof.
  unfold cache_addPod. destruct (info_of _ _ _) as [[h n]|]; simpl; [|done].
  destruct (addPod pod h n) as [[h' n']|]; simpl; [|done]. by intros [= <-].
Qed.

Lemma cache_removePod_frame pod c r c' :
  cache_removePod pod c = Ret (r, c') → podStates c' = podStates c.
Proof.
  unfold cache_removePod. destruct (nodes c !! _) as [n|]; [|done].
  destruct (removePod pod (cache_heap c) n) as [[[[] h'] n']|]; simpl; [..|done];
    by intros [= <- <-].
Qed.

Lemma new_cache_wf t h : cache_wf (newSchedulerCache t h).
Proof.
  split; [split; [apply infos_ok_empty|..]|]; intros *; cbn; by rewrite lookup_empty.
Qed.

Lemma abs_new t h : abs (newSchedulerCache t h) = empty_spec.
Proof. reflexivity. Qed.

Lemma run_ops_refines ops c :
  cache_wf c → admissible_ops (ttl c) ops (abs c) →
  ∃ rs c', run_ops ops c = Ret (rs, c') ∧ cache_wf c' ∧ abs_ops (ttl c) ops (abs c) = (rs, abs c').
Proof.
  revert c. induction ops as [|op ops IH]; intros c Hwf Hadm.
  { by exists [], c. }
  destruct Hadm as [Hadm Hadms].
  destruct (run_refines op c Hwf Hadm) as (r & c1 & Hrun & Hwf1 & Habs & Httl).
  simpl. rewrite Hrun, Habs in *. simpl in *.
  destruct (IH c1 Hwf1) as (rs & c' & Hruns & Hwf' & Habs'); [by rewrite Httl|].
  rewrite Hruns. simpl. rewrite <-Httl, Habs'. by eexists _, _.
Qed.

Lemma cache_reachable_wf t h ops rs c :
  admissible_ops t ops empty_spec → run_ops ops (newSchedulerCache t h) = Ret (rs, c) → cache_wf c.
Proof.
  intros Hadm Hrun.
  destruct (run_ops_refines ops (newSchedulerCache t h)) as (rs' & c' & Hrun' & Hwf & _);
    [apply new_cache_wf|done|]. congruence.
Qed.

(** The node object of an entry has the name of the entry. *)
Lemma reachable_node_names t h ops rs c name n node :
  admissible_ops t ops empty_spec → run_ops ops (newSchedulerCache t h) = Ret (rs, c) →
  nodes c !! name = Some n → ni_node n = Some node → n_name node = name.
Proof.
  intros Hadm Hrun Hn Hnode.
  destruct (run_ops_refines ops (newSchedulerCache t h)) as (rs' & c' & Hrun' & _ & Habs);
    [apply new_cache_wf|done|]. rewrite Hrun in Hrun'. injection Hrun' as <- <-.
  rewrite abs_new in Habs. simpl in Habs.
  assert (Hnames : ∀ ops s, (∀ k x, s_nodes s !! k = Some x → n_name x = k) →
    ∀ k x, s_nodes (abs_ops t ops s).2 !! k = Some x → n_name x = k).
  { clear. induction ops as [|op ops IH]; intros s Hs; [done|]. simpl.
    assert (Hs' : ∀ k x, s_nodes (abs_op t op s).2 !! k = Some x → n_name x = k).
    { intros k x. destruct op; simpl; repeat case_match; simpl; try (by apply Hs).
      - by intros [[<- <-]|[_ ?]]%lookup_insert_Some; [|apply Hs].
      - by intros [[<- <-]|[_ ?]]%lookup_insert_Some; [|apply Hs].
      - by intros [_ ?]%lookup_delete_Some; apply Hs. }
    destruct (abs_op t op s) as [r s'] eqn:Hop. specialize (IH s' Hs').
    destruct (abs_ops t ops s') as [rs s''] eqn:Hops. exact IH. }
  apply (Hnames ops empty_spec).
  - intros k x. simpl. by rewrite lookup_empty.
  - rewrite Habs. simpl. rewrite lookup_omap, Hn. done.
Qed.

(** The keys listed at a node are those known to be on it. *)
Lemma node_keys c name n key :
  cache_wf c → nodes c !! name = Some n →
  key ∈ pod_key <$> ni_pods n ↔
  ∃ p ph, s_pods (abs c) !! key = Some (p, ph) ∧ p_nodeName p = name.
Proof.
  intros Hwf Hn. pose proof (wf_placed _ Hwf) as Hpl. rewrite list_elem_of_fmap. split.
  - intros (q & -> & Hq). destruct (pl_pods _ _ _ Hpl _ _ _ Hn Hq) as (_ & ps & Hps & Hname & _).
    exists (ps_pod ps), (abs_phase c (pod_key q) ps). by rewrite lookup_abs, Hps.
  - intros (p & ph & Hp & Hname). rewrite lookup_abs in Hp.
    destruct (podStates c !! key) as [ps|] eqn:Hps; simplify_eq/=.
    destruct (pl_states _ _ _ Hpl _ _ Hps) as (_ & m & q & Hm & Hq & Hk).
    exists q. split; [done|]. congruence.
Qed.

End refinement.

(** ** Snapshots and listing *)

Section readings.
Context `{!MapRange}.

Definition refreshed (snap : gmap string NodeInfo) (name : string) (info : NodeInfo) : NodeInfo :=
  match snap !! name with
  | Some current => if decide (generation current = generation info) then current else Clone info
  | None => Clone info
  end.

Lemma snapshot_refresh_lookup l snap name :
  NoDup l.*1 →
  snapshot_refresh l snap !! name =
  match (list_to_map l : gmap string NodeInfo) !! name with
  | Some info => Some (refreshed snap name info)
  | None => snap !! name
  end.
Proof.
  revert snap. induction l as [|[k info] l IH]; intros snap Hnd; [simpl; by rewrite lookup_empty|].
  csimpl in Hnd. apply NoDup_cons in Hnd as [Hk Hnd].
  cbn [snapshot_refresh]. rewrite IH by done. simpl.
  apply (not_elem_of_list_to_map_1 (M := gmap string)) in Hk. unfold refreshed.
  destruct (decide (name = k)) as [->|Hne].
  - rewrite Hk, lookup_insert_eq. destruct (snap !! k) as [cur|] eqn:Hcur.
    + destruct (decide (generation cur = generation info)) as [He|He].
      * rewrite bool_decide_eq_false_2 by (intros ?; done). done.
      * rewrite bool_decide_eq_true_2 by done. by rewrite lookup_insert_eq.
    + by rewrite lookup_insert_eq.
  - rewrite (lookup_insert_ne _ k name) by done.
    assert (Hsame : ∀ b : bool,
      (if b then <[k := Clone info]> snap else snap) !! name = snap !! name).
    { intros []; [by rewrite lookup_insert_ne|done]. }
    by rewrite Hsame.
Qed.

Lemma snapshot_prune_lookup l ns snap name :
  snapshot_prune l ns snap !! name =
  if decide (name ∈ l.*1 ∧ ns !! name = None) then None else snap !! name.
Proof.
  revert snap. induction l as [|[k info] l IH]; intros snap; cbn [snapshot_prune].
  { rewrite decide_False; [done|]. by intros [?%elem_of_nil _]. }
  rewrite IH. csimpl. destruct (decide (name ∈ l.*1 ∧ ns !! name = None)) as [[Hin Hns]|Hnot].
  { rewrite decide_True; [done|]. by split; [right|]. }
  destruct (decide (name = k)) as [->|Hne].
  - destruct (ns !! k) as [?|] eqn:Hns.
    + by rewrite decide_False by (by intros [_ ?]).
    + rewrite decide_True by (split; [left|done]). apply lookup_delete_eq.
  - rewrite decide_False.
    + destruct (ns !! k); [done|]. by rewrite lookup_delete_ne.
    + intros [[?|?]%elem_of_cons ?]; auto.
Qed.

Lemma snapshot_lookup snap c name :
  UpdateNodeNameToInfoMap snap c !! name = refreshed snap name <$> nodes c !! name.
Proof.
  unfold UpdateNodeNameToInfoMap. rewrite snapshot_prune_lookup.
  pose proof (snapshot_refresh_lookup (map_range (nodes c)) snap name (NoDup_fst_map_range _)) as Hr.
  rewrite list_to_map_range in Hr.
  destruct (decide _) as [[Hin Hns]|Hnot]; [by rewrite Hns|].
  rewrite elem_of_fst_map_range, Hr in Hnot. rewrite Hr.
  destruct (nodes c !! name); [done|]. destruct (snap !! name); [|done]. destruct Hnot. eauto.
Qed.

Lemma elem_of_cache_List sel c p :
  p ∈ cache_List sel c ↔
  Selector_Matches sel (p_labels p) = true ∧
  ∃ name n, nodes c !! name = Some n ∧ p ∈ ni_pods n.
Proof.
  unfold cache_List. rewrite list_elem_of_bind. split.
  - intros ([name n] & Hp & Hn). simpl in Hp. apply list_elem_of_filter in Hp as [? ?].
    apply elem_of_map_range in Hn. eauto.
  - intros (Hsel & name & n & Hn & Hp). exists (name, n). rewrite elem_of_map_range. simpl.
    by rewrite list_elem_of_filter.
Qed.

Lemma cache_List_NoDup sel c : cache_wf c → NoDup (pod_key <$> cache_List sel c).
Proof.
  intros Hwf. pose proof (wf_placed _ Hwf) as Hpl.
  assert (Hsame : ∀ n1 i1 n2 i2 p q, nodes c !! n1 = Some i1 → nodes c !! n2 = Some i2 →
    p ∈ ni_pods i1 → q ∈ ni_pods i2 → pod_key p = pod_key q → n1 = n2 ∧ i1 = i2).
  { intros n1 i1 n2 i2 p q H1 H2 Hp Hq Hk.
    destruct (pl_pods _ _ _ Hpl _ _ _ H1 Hp) as (_ & ps1 & Hps1 & Hn1 & _).
    destruct (pl_pods _ _ _ Hpl _ _ _ H2 Hq) as (_ & ps2 & Hps2 & Hn2 & _).
    assert (n1 = n2) as -> by congruence. split; [done|congruence]. }
  apply NoDup_fmap_2_strong.
  - intros p q (_ & n1 & i1 & H1 & Hp)%elem_of_cache_List (_ & n2 & i2 & H2 & Hq)%elem_of_cache_List Hk.
    destruct (Hsame _ _ _ _ _ _ H1 H2 Hp Hq Hk) as [-> ->].
    by eapply NoDup_key_unique; [apply (pl_lists _ _ _ Hpl _ _ H1)|..].
  - unfold cache_List. apply NoDup_bind.
    + intros [n1 i1] [n2 i2] p H1%elem_of_map_range H2%elem_of_map_range; simpl.
      intros [_ Hp]%list_elem_of_filter [_ Hq]%list_elem_of_filter.
      by destruct (Hsame _ _ _ _ _ _ H1 H2 Hp Hq eq_refl) as [-> ->].
    + intros [n1 i1] H1%elem_of_map_range. simpl. apply NoDup_filter.
      apply (NoDup_fmap_1 pod_key). apply (pl_lists _ _ _ Hpl _ _ H1).
    + apply (NoDup_fmap_1 fst), NoDup_fst_map_range.
Qed.

Lemma Clone_id n : Clone n = n.
Proof. by destruct n. Qed.

(** A snapshot none of whose entries is stale in spite of its generation. *)
Definition snapshot_current (snap : gmap string NodeInfo) (c : schedulerCache) : Prop :=
  ∀ name current info, snap !! name = Some current → nodes c !! name = Some info →
    generation current = generation info → current = Clone info.

Lemma snapshot_current_update snap c :
  snapshot_current snap c → UpdateNodeNameToInfoMap snap c = nodes c.
Proof.
  intros Hcur. apply map_eq. intros name. rewrite snapshot_lookup.
  destruct (nodes c !! name) as [info|] eqn:Hinfo; simpl; [|done]. f_equal.
  unfold refreshed. destruct (snap !! name) as [current|] eqn:Hs; [|apply Clone_id].
  case_decide as Hg; [|apply Clone_id]. by rewrite (Hcur _ _ _ Hs Hinfo Hg), Clone_id.
Qed.

Lemma add64_succ_ne g : add64 g 1 ≠ g.
Proof.
  intros Hg. pose proof (wrap64_bounds (g + 1)) as Hb. fold (add64 g 1) in Hb. rewrite Hg in Hb.
  destruct (decide (g = MaxInt64)) as [->|Hne]; [by vm_compute in Hg|].
  unfold add64 in Hg. rewrite wrap64_id in Hg; unfold is_int64 in *; lia.
Qed.

(** Assuming a pod bumps the generation of the one entry it changes. *)
Lemma AssumePod_current pod c c' :
  AssumePod pod c = Ret (Ok (), c') → snapshot_current (nodes c) c'.
Proof.
  intros Hassume name current info Hcur Hinfo Hgen.
  unfold AssumePod in Hassume. rewrite getPodKey_pod_key in Hassume.
  destruct (podStates c !! _); [done|].
  unfold cache_addPod, info_of, addPod, account in Hassume.
  destruct (decide (p_nodeName pod = name)) as [Heq|Hne].
  - subst name. rewrite Hcur in Hassume. simpl in Hassume. destruct (calculateResource pod) as [[res cpu] mem].
    destruct (Resource_combine _ _ _) as [r|]; [|done]. simplify_eq/=.
    rewrite lookup_insert_eq in Hinfo. simplify_eq/=. exfalso.
    by destruct (add64_succ_ne (generation current)).
  - destruct (match nodes c !! p_nodeName pod with Some _ => _ | None => _ end) as [[h n]|]; [|done].
    simpl in Hassume. destruct (calculateResource pod) as [[res cpu] mem].
    destruct (Resource_combine _ _ _) as [r|]; [|done]. simplify_eq/=.
    rewrite lookup_insert_ne in Hinfo by done. rewrite Clone_id. congruence.
Qed.

(** What assuming a pod does to the entry of its node. *)
Lemma AssumePod_node pod c c' n :
  cache_wf c → nodes c !! p_nodeName pod = Some n → AssumePod pod c = Ret (Ok (), c') →
  ∃ n', nodes c' !! p_nodeName pod = Some n' ∧ same_node n n' ∧ ni_pods n' = ni_pods n ++ [pod] ∧
    load (cache_heap c') (allocatableResource n) = load (cache_heap c) (allocatableResource n) ∧
    ∀ name, amount name (load (cache_heap c') (requestedResource n)) =
      if tracked name then
        add64 (amount name (load (cache_heap c) (requestedResource n))) (amount name (pod_res pod))
      else 0%Z.
Proof.
  intros Hwf Hn Hassume. pose proof (pl_infos _ _ _ (wf_placed _ Hwf)) as Hok.
  pose proof (io_accounts _ _ Hok _ _ Hn) as Hacc.
  unfold AssumePod in Hassume. rewrite getPodKey_pod_key in Hassume.
  destruct (podStates c !! _); [done|].
  unfold cache_addPod, info_of, addPod in Hassume. rewrite Hn in Hassume. simpl in Hassume.
  match type of Hassume with context [account add64 pod ?ps ?aff _ _] =>
    destruct (account_spec add64 pod ps aff (cache_heap c) n add64_wrapping
      (infos_ok_own _ _ _ _ Hok Hn) (accounts_int64 _ _ _ Hacc))
      as (h' & n' & Hrun & _ & Hs & Hpods & _ & _ & Halloc & Hamount & _)
  end.
  rewrite Hrun in Hassume. simplify_eq/=. exists n'. rewrite lookup_insert_eq. done.
Qed.

End readings.

(** ** The theorems *)

Section theorems.
Context `{!MapRange}.

(** C15. The scheduler cache implements its state machine.  For every sequence of
    operations whose callers respect [admissible], no operation panics, each
    returns the error the specification gives, and what is known of pods and
    nodes at the end is what the specification says: a pod is assumed once, expires
    exactly when its binding has finished and its deadline has passed, and leaves
    by being forgotten, expired or removed. *)
Theorem cache_refines t h ops :
  admissible_ops t ops empty_spec →
  ∃ rs c, run_ops ops (newSchedulerCache t h) = Ret (rs, c) ∧
    abs_ops t ops empty_spec = (rs, abs c).
Proof.
  intros Hadm. destruct (run_ops_refines ops (newSchedulerCache t h)) as (rs & c & Hrun & _ & Habs);
    [apply new_cache_wf|done|]. by exists rs, c.
Qed.

(** C20. The totals of every node are right after every sequence of operations:
    the requested resources and the requests that count for priorities are the
    sums, modulo 2^64, over the pods of the node; the pods of the node are those
    known to be on it, each listed once, and those with affinity constraints are
    listed apart; a node without pods has a node object. *)
Theorem cache_totals t h ops rs c :
  admissible_ops t ops empty_spec → run_ops ops (newSchedulerCache t h) = Ret (rs, c) →
  ∀ name n, nodes c !! name = Some n →
    totals (RequestedResource (cache_heap c) (Some n)) (NonZeroRequest (cache_heap c) (Some n))
      (ni_pods n) ∧
    NoDup (pod_key <$> ni_pods n) ∧
    (∀ key, key ∈ pod_key <$> ni_pods n ↔
       ∃ p ph, s_pods (abs c) !! key = Some (p, ph) ∧ p_nodeName p = name) ∧
    ni_podsWithAffinity n ≡ₚ filter (λ p, hasPodAffinityConstraints p = true) (ni_pods n) ∧
    (ni_pods n = [] → ni_node n ≠ None).
Proof.
  intros Hadm Hrun name n Hn. pose proof (cache_reachable_wf _ _ _ _ _ Hadm Hrun) as Hwf.
  pose proof (wf_placed _ Hwf) as Hpl. split_and!.
  - apply accounts_totals. by apply (io_accounts _ _ (pl_infos _ _ _ Hpl) name).
  - by apply (pl_lists _ _ _ Hpl name n Hn).
  - intros key. by apply node_keys.
  - by apply (pl_lists _ _ _ Hpl name n Hn).
  - by apply (pl_used _ _ _ Hpl name n Hn).
Qed.

(** A pod that is added on another node than it was assumed on corrupts the
    cache: AddPod succeeds but keeps the record of the assumed pod, so that the
    removal of the pod from the node it is on ends the process. *)
Theorem add_elsewhere_fatal pod c c' ps :
  podStates c !! pod_key pod = Some ps → assumed c (pod_key pod) = true →
  p_nodeName (ps_pod ps) ≠ p_nodeName pod → AddPod pod c = Ret (Ok (), c') →
  RemovePod pod c' = Panic "Schedulercache is corrupted and can badly affect scheduling decisions".
Proof.
  intros Hps Ha Hne Hadd. unfold AddPod in Hadd.
  rewrite getPodKey_pod_key, Hps, Ha, decide_True in Hadd by done.
  destruct (cache_removePod (ps_pod ps) c) as [r|] eqn:Hrm; simplify_eq/=.
  destruct (cache_addPod pod r.2) as [c1|] eqn:Hc1; simplify_eq/=.
  destruct (podStates c1 !! pod_key pod) as [ps1|] eqn:Hps1; simplify_eq/=.
  assert (ps1 = ps) as ->.
  { apply cache_addPod_frame in Hc1. destruct r as [res c0].
    apply cache_removePod_frame in Hrm. simpl in *. congruence. }
  unfold RemovePod. rewrite getPodKey_pod_key. simpl. rewrite lookup_insert_eq. simpl.
  unfold assumed. simpl. rewrite lookup_delete_eq. simpl. by rewrite decide_True.
Qed.

(** Listing after any sequence of operations: no pod is listed twice, every
    known pod is listed under its key when the selector is empty, and a selector
    picks exactly the pods whose labels it matches. *)
Theorem cache_list_spec t h ops rs c sel :
  admissible_ops t ops empty_spec → run_ops ops (newSchedulerCache t h) = Ret (rs, c) →
  NoDup (pod_key <$> cache_List sel c) ∧
  (∀ key, key ∈ pod_key <$> cache_List Everything c ↔ is_Some (s_pods (abs c) !! key)) ∧
  (∀ p, p ∈ cache_List sel c ↔
     p ∈ cache_List Everything c ∧ Selector_Matches sel (p_labels p) = true).
Proof.
  intros Hadm Hrun. pose proof (cache_reachable_wf _ _ _ _ _ Hadm Hrun) as Hwf.
  split_and!; [by apply cache_List_NoDup|..].
  - intros key. rewrite list_elem_of_fmap. setoid_rewrite elem_of_cache_List. split.
    + intros (p & -> & _ & name & n & Hn & Hp).
      destruct (pl_pods _ _ _ (wf_placed _ Hwf) _ _ _ Hn Hp) as (_ & ps & Hps & _).
      rewrite lookup_abs, Hps. eauto.
    + rewrite lookup_abs. intros [ps Hps]%fmap_is_Some.
      destruct (pl_states _ _ _ (wf_placed _ Hwf) _ _ Hps) as (_ & n & p & Hn & Hp & <-). eauto 10.
  - intros p. rewrite !elem_of_cache_List. simpl. intuition.
Qed.

(** A snapshot does not own its totals.  Take a snapshot of a cache reached
    by any operations and assume a pod on a node of it: the totals read through
    the snapshot then count the pod, although the pods of the snapshot do not
    include it.  [Clone] copied the pointers to the totals and not the totals. *)
Theorem snapshot_shares_totals t h ops rs c snap pod c' n :
  admissible_ops t ops empty_spec → run_ops ops (newSchedulerCache t h) = Ret (rs, c) →
  UpdateNodeNameToInfoMap ∅ c = snap →
  snap !! p_nodeName pod = Some n → AssumePod pod c = Ret (Ok (), c') →
  totals (RequestedResource (cache_heap c) (Some n)) (NonZeroRequest (cache_heap c) (Some n))
    (ni_pods n) ∧
  totals (RequestedResource (cache_heap c') (Some n)) (NonZeroRequest (cache_heap c') (Some n))
    (ni_pods n ++ [pod]).
Proof.
  intros Hadm Hrun <- Hn Hassume. pose proof (cache_reachable_wf _ _ _ _ _ Hadm Hrun) as Hwf.
  pose proof (pl_infos _ _ _ (wf_placed _ Hwf)) as Hok.
  rewrite snapshot_lookup in Hn. apply fmap_Some in Hn as (info & Hinfo & ->).
  unfold refreshed. rewrite lookup_empty.
  pose proof (io_accounts _ _ Hok _ _ Hinfo) as Hacc. split; [by apply accounts_totals|].
  unfold AssumePod in Hassume. rewrite getPodKey_pod_key in Hassume.
  destruct (podStates c !! pod_key pod); [done|].
  unfold cache_addPod, info_of in Hassume. rewrite Hinfo in Hassume. simpl in Hassume.
  destruct (addPod_spec pod (cache_heap c) info) as (h' & n' & Hadd & _ & Hs & Hacc' & Hpods & _);
    [by eapply infos_ok_own|done|].
  rewrite Hadd in Hassume. simplify_eq/=. apply accounts_totals. destruct Hs as [Hloc _].
  unfold info_accounts in Hacc'.
  rewrite (Hloc FRequested : requestedResource n' = requestedResource info),
    (Hloc FNonzero : nonzeroRequest n' = nonzeroRequest info), Hpods in Hacc'. done.
Qed.

(** A snapshot can keep a node that is gone.  Generations start from zero in
    every new entry, so when a node is added, removed and another one of the
    same name is added, the second snapshot still shows the first node. *)
Theorem snapshot_stale t h v1 v2 :
  n_name v1 = n_name v2 →
  ∃ c1 c2 rs,
    run_ops [OpAddNode v1] (newSchedulerCache t h) = Ret ([Ok ()], c1) ∧
    run_ops [OpRemoveNode v1; OpAddNode v2] c1 = Ret (rs, c2) ∧
    nodes c2 !! n_name v1 ≫= ni_node = Some v2 ∧
    UpdateNodeNameToInfoMap (UpdateNodeNameToInfoMap ∅ c1) c2 !! n_name v1 ≫= ni_node = Some v1.
Proof.
  intros Hname. destruct (NewNodeInfo_nil h) as (h1 & Hnew1 & _).
  destruct (SetNode_fields v1 h1 (fresh_info h)) as (Hnode1 & Hpods1 & Hgen1).
  set (r1 := SetNode v1 h1 (fresh_info h)) in *.
  set (c1 := set_nodes r1.1 (<[n_name v1 := r1.2]> ∅) (newSchedulerCache t h)).
  set (r2 := NodeInfo_RemoveNode r1.1 r1.2).
  destruct (NewNodeInfo_nil r2.1) as (h3 & Hnew3 & _).
  destruct (SetNode_fields v2 h3 (fresh_info r2.1)) as (Hnode3 & Hpods3 & Hgen3).
  set (r3 := SetNode v2 h3 (fresh_info r2.1)) in *.
  set (c2 := set_nodes r3.1 (<[n_name v2 := r3.2]> ∅) (newSchedulerCache t h)).
  exists c1, c2, [Ok (); Ok ()]. split_and!.
  - simpl. unfold AddNode, info_of. simpl. rewrite lookup_empty, Hnew1. simpl. fold r1. by rewrite (surjective_pairing r1).
  - assert (Hl : nodes c1 !! n_name v1 = Some r1.2) by apply lookup_insert_eq.
    cbn [run_ops run_op]. unfold RemoveNode. rewrite Hl. change (cache_heap c1) with r1.1. fold r2.
    rewrite (surjective_pairing r2). cbn [outcome_bind fst snd]. unfold drop_if_unused.
    assert (ni_pods r2.2 = [] ∧ ni_node r2.2 = None) as [-> ->] by (by split; [exact Hpods1|]).
    change (nodes c1) with (<[n_name v1 := r1.2]> (∅ : gmap string NodeInfo)).
    rewrite !delete_insert_eq, delete_empty. unfold AddNode, info_of. cbn [nodes cache_heap set_nodes].
    rewrite lookup_empty, Hnew3. cbn [outcome_bind fst snd]. fold r3. by rewrite (surjective_pairing r3).
  - simpl. rewrite Hname, lookup_insert_eq. done.
  - rewrite snapshot_lookup. simpl. rewrite Hname, lookup_insert_eq. simpl. unfold refreshed.
    rewrite snapshot_lookup. simpl. rewrite Hname, lookup_insert_eq. simpl.
    unfold refreshed. rewrite lookup_empty. simpl. rewrite Hgen1, Hgen3. by rewrite decide_True.
Qed.

End theorems.

(** ** A run of the cache *)

Definition demo_node : Node :=
  mkNode "n1" ∅ {["cpu" := mkQuantity 4000 4]} (Ok []) [("MemoryPressure", "False")].

Definition demo_pod (name : string) (cpu : Z) : Pod :=
  mkPod "default" name {["app" := name]} "n1" [mkContainer {["cpu" := mkQuantity cpu 1]} []]
    [] [] ∅ None (Ok None) (Ok []).

Definition sched_demo_ops : list cache_op :=
  [OpAddNode demo_node; OpAssumePod (demo_pod "a" 500); OpAssumePod (demo_pod "b" 250);
   OpFinishBinding (demo_pod "a" 500) 5; OpFinishBinding (demo_pod "b" 250) 5;
   OpAddPod (demo_pod "a" 500); OpUpdatePod (demo_pod "a" 500) (demo_pod "a" 500);
   OpCleanup 100].

Lemma demo_admissible : admissible_ops 30 sched_demo_ops empty_spec.
Proof. vm_compute. repeat split. Defined.

Lemma cache_refines_witness :
  ∃ rs c, @run_ops canonical_range sched_demo_ops (newSchedulerCache 30 empty_heap) = Ret (rs, c) ∧
    abs_ops 30 sched_demo_ops empty_spec = (rs, abs c).
Proof. apply (@cache_refines canonical_range 30 empty_heap sched_demo_ops). exact demo_admissible. Defined.

Definition demo_result : list (result sched_error ()) * schedulerCache :=
  match @run_ops canonical_range sched_demo_ops (newSchedulerCache 30 empty_heap) with
  | Ret x => x
  | Panic _ => ([], newSchedulerCache 30 empty_heap)
  end.

Definition demo_cache : schedulerCache := demo_result.2.

Lemma cache_totals_witness :
  ∃ n, nodes demo_cache !! "n1" = Some n ∧ (pod_key <$> ni_pods n) = ["default/a"] ∧
    @totals (RequestedResource (cache_heap demo_cache) (Some n))
      (NonZeroRequest (cache_heap demo_cache) (Some n)) (ni_pods n).
Proof.
  destruct (nodes demo_cache !! "n1") as [n|] eqn:Hn; [|vm_compute in Hn; discriminate].
  exists n. split; [done|]. split.
  - vm_compute in Hn. injection Hn as <-. reflexivity.
  - apply (@cache_totals canonical_range 30 empty_heap sched_demo_ops demo_result.1 demo_cache
      demo_admissible) in Hn; [apply Hn|]. vm_compute. reflexivity.
Defined.

Lemma cache_list_spec_witness :
  NoDup (pod_key <$> @cache_List canonical_range Everything demo_cache) ∧
  pod_key <$> @cache_List canonical_range Everything demo_cache = ["default/a"].
Proof.
  split; [|vm_compute; reflexivity].
  apply (@cache_list_spec canonical_range 30 empty_heap sched_demo_ops demo_result.1 demo_cache Everything
    demo_admissible). vm_compute. reflexivity.
Defined.

(** A pod assumed on n1 and then added on n2. *)
Definition moved_pod : Pod :=
  mkPod "default" "c" ∅ "n2" [mkContainer {["cpu" := mkQuantity 100 1]} []]
    [] [] ∅ None (Ok None) (Ok []).

Definition demo_assumed : schedulerCache :=
  match @AssumePod canonical_range (demo_pod "c" 100) demo_cache with
  | Ret (_, c) => c
  | Panic _ => demo_cache
  end.

Definition demo_moved : schedulerCache :=
  match @AddPod canonical_range moved_pod demo_assumed with
  | Ret (_, c) => c
  | Panic _ => demo_assumed
  end.

Lemma add_elsewhere_fatal_witness :
  @AddPod canonical_range moved_pod demo_assumed = Ret (Ok (), demo_moved) ∧
  @RemovePod canonical_range moved_pod demo_moved =
    Panic "Schedulercache is corrupted and can badly affect scheduling decisions".
Proof.
  assert (Hadd : @AddPod canonical_range moved_pod demo_assumed = Ret (Ok (), demo_moved)).
  { vm_compute. reflexivity. }
  split; [exact Hadd|].
  apply (@add_elsewhere_fatal canonical_range moved_pod demo_assumed demo_moved
    (mkPodState (demo_pod "c" 100) None false)); [vm_compute; reflexivity..| |exact Hadd].
  vm_compute. discriminate.
Defined.

Definition demo_snapshot : gmap string NodeInfo :=
  @UpdateNodeNameToInfoMap canonical_range ∅ demo_cache.

Lemma snapshot_shares_totals_witness :
  ∃ n, demo_snapshot !! "n1" = Some n ∧ (pod_key <$> ni_pods n) = ["default/a"] ∧
    MilliCPU (RequestedResource (cache_heap demo_cache) (Some n)) = 500%Z ∧
    totals (RequestedResource (cache_heap demo_assumed) (Some n))
      (NonZeroRequest (cache_heap demo_assumed) (Some n)) (ni_pods n ++ [demo_pod "c" 100]).
Proof.
  destruct (demo_snapshot !! "n1") as [n|] eqn:Hn; [|vm_compute in Hn; discriminate].
  exists n. split; [done|]. split_and!; [vm_compute in Hn; injection Hn as <-; reflexivity..|].
  refine (proj2 (@snapshot_shares_totals canonical_range 30 empty_heap sched_demo_ops demo_result.1 demo_cache
    demo_snapshot (demo_pod "c" 100) demo_assumed n demo_admissible _ _ Hn _)).
  - vm_compute. reflexivity.
  - reflexivity.
  - vm_compute. reflexivity.
Defined.

Lemma snapshot_stale_witness :
  ∃ c1 c2 rs,
    @run_ops canonical_range [OpAddNode demo_node] (newSchedulerCache 30 empty_heap)
      = Ret ([Ok ()], c1) ∧
    @run_ops canonical_range [OpRemoveNode demo_node; OpAddNode (mkNode "n1" ∅ ∅ (Ok []) [])] c1
      = Ret (rs, c2) ∧
    nodes c2 !! "n1" ≫= ni_node = Some (mkNode "n1" ∅ ∅ (Ok []) []) ∧
    @UpdateNodeNameToInfoMap canonical_range (@UpdateNodeNameToInfoMap canonical_range ∅ c1) c2
      !! "n1" ≫= ni_node = Some demo_node.
Proof.
  apply (@snapshot_stale canonical_range 30 empty_heap demo_node (mkNode "n1" ∅ ∅ (Ok []) [])).
  reflexivity.
Defined.
