(* ===== verification/Predicates.v ===== *)
(** * The fit predicates of the scheduler

    Models plugin/pkg/scheduler/algorithm/predicates/predicates.go and error.go,
    with the helpers of pkg/api/v1/helpers.go they call: whether a pod may run
    on a node, as far as this depends on the pod, the node and the pods on it.

    A predicate reads a [NodeInfo] pointer, nil if the snapshot has no such
    node, in the heap of its resource objects. *)

From S2P Require Import Prelude Labels Selector ClientStore NodeInfo SchedulerCache.

(** ** Reasons and results *)

Inductive reason :=
  | InsufficientResourceError (resourceName : string) (requested used capacity : Z)
  | PredicateFailureError (predicateName : string)
  | FailureReason (msg : string).

#[export] Instance reason_eq_dec : EqDecision reason.
Proof. solve_decision. Defined.

Definition GetReason (r : reason) : string :=
  match r with
  | InsufficientResourceError resourceName _ _ _ => "Insufficient " +:+ resourceName
  | PredicateFailureError predicateName => predicateName
  | FailureReason msg => msg
  end.

Definition ErrDiskConflict : reason := PredicateFailureError "NoDiskConflict".
Definition ErrNodeSelectorNotMatch : reason := PredicateFailureError "MatchNodeSelector".
Definition ErrTaintsTolerationsNotMatch : reason := PredicateFailureError "PodToleratesNodeTaints".
Definition ErrPodNotMatchHostName : reason := PredicateFailureError "HostName".
Definition ErrPodNotFitsHostPorts : reason := PredicateFailureError "PodFitsHostPorts".
Definition ErrNodeLabelPresenceViolated : reason := PredicateFailureError "CheckNodeLabelPresence".
Definition ErrNodeUnderDiskPressure : reason := PredicateFailureError "NodeUnderDiskPressure".

(** The results [(fit, reasons, err)] of a predicate. *)
Notation verdict := (result string (bool * list reason)).

(** What the modelled predicates read of the metadata computed once per pod;
    [None] where the type assertion on it fails. *)
Record predicateMetadata := mkMeta {
  podRequest : Resource;
  podPorts : gset Z
}.

Definition FitPredicate : Type := Pod → option predicateMetadata → heap → option NodeInfo → verdict.

Definition NodeInfo_Node (n : option NodeInfo) : option Node := n ≫= ni_node.

Definition AllowedPodNumber (n : option NodeInfo) : Z :=
  match n with
  | None => 0
  | Some n => ni_allowedPodNumber n
  end.

Definition Taints (n : option NodeInfo) : result string (list Taint) :=
  match n with
  | None => Ok []
  | Some n =>
      match ni_taintsErr n with
      | Some e => Err e
      | None => Ok (ni_taints n)
      end
  end.

Definition DiskPressureCondition (n : option NodeInfo) : string :=
  match n with
  | None => ConditionUnknown
  | Some n => diskPressureCondition n
  end.

(** ** Resources *)

(** The switch for a request of an init container: the maximum. *)
Definition max_request (res : Resource) (request : string * Quantity) : Resource :=
  let '(rName, rQuant) := request in
  let '(mkResource cpu mem gpu opaque) := res in
  if decide (rName = ResourceMemory) then
    if decide (Value rQuant > mem)%Z then mkResource cpu (Value rQuant) gpu opaque else res
  else if decide (rName = ResourceCPU) then
    if decide (MilliValue rQuant > cpu)%Z then mkResource (MilliValue rQuant) mem gpu opaque
    else res
  else if decide (rName = ResourceNvidiaGPU) then
    if decide (Value rQuant > gpu)%Z then mkResource cpu mem (Value rQuant) opaque else res
  else if IsOpaqueIntResourceName rName then
    let opaque' := default ∅ opaque in
    mkResource cpu mem gpu
      (Some (if decide (Value rQuant > opaque_get (Some opaque') rName)%Z
             then <[rName := Value rQuant]> opaque'
             else opaque'))
  else res.

(** [a < b + c] in int64. *)
Definition exceeds (allocatable request used : Z) : bool :=
  bool_decide (allocatable < add64 request used)%Z.

Section resources.
Context `{!MapRange}.

Definition GetResourceRequest (pod : Pod) : Resource :=
  let result := foldl (λ res c, foldl count_request res (map_range (c_requests c)))
                  emptyResource (p_containers pod) in
  foldl (λ res c, foldl max_request res (map_range (c_requests c)))
    result (p_initContainers pod).

Definition insufficient (rName : string) (request used allocatable : Z) : list reason :=
  if exceeds allocatable request used
  then [InsufficientResourceError rName request used allocatable] else [].

Definition PodFitsResources : FitPredicate := λ pod meta h nodeInfo,
  match NodeInfo_Node nodeInfo with
  | None => Err "node not found"
  | Some node =>
      let allowedPodNumber := AllowedPodNumber nodeInfo in
      let count := Z.of_nat (length (NodeInfo_Pods nodeInfo)) in
      let fails0 := if decide (count + 1 > allowedPodNumber)%Z
                    then [InsufficientResourceError ResourcePods 1 count allowedPodNumber]
                    else [] in
      let request := match meta with
                     | Some m => podRequest m
                     | None => GetResourceRequest pod
                     end in
      let opaque := default ∅ (OpaqueIntResources request) in
      if bool_decide (MilliCPU request = 0)%Z && bool_decide (Memory request = 0)%Z
         && bool_decide (NvidiaGPU request = 0)%Z && bool_decide (size opaque = 0)
      then Ok (bool_decide (fails0 = []), fails0)
      else
        let allocatable := AllocatableResource h nodeInfo in
        let used := RequestedResource h nodeInfo in
        let fails :=
          fails0
          ++ insufficient ResourceCPU (MilliCPU request) (MilliCPU used) (MilliCPU allocatable)
          ++ insufficient ResourceMemory (Memory request) (Memory used) (Memory allocatable)
          ++ insufficient ResourceNvidiaGPU (NvidiaGPU request) (NvidiaGPU used)
               (NvidiaGPU allocatable)
          ++ (map_range opaque ≫= λ e,
                insufficient e.1 e.2 (opaque_get (OpaqueIntResources used) e.1)
                  (opaque_get (OpaqueIntResources allocatable) e.1)) in
        Ok (bool_decide (fails = []), fails)
  end.

End resources.

(** ** Host and ports *)

Definition PodFitsHost : FitPredicate := λ pod meta h nodeInfo,
  if decide (p_nodeName pod = "") then Ok (true, [])
  else
    match NodeInfo_Node nodeInfo with
    | None => Err "node not found"
    | Some node =>
        if decide (p_nodeName pod = n_name node) then Ok (true, [])
        else Ok (false, [ErrPodNotMatchHostName])
    end.

Definition add_port (ports : gset Z) (hostPort : Z) : gset Z :=
  if decide (hostPort = 0)%Z then ports else {[hostPort]} ∪ ports.

(** The map from ports to true is the set of its keys. *)
Definition GetUsedPorts (pods : list Pod) : gset Z :=
  foldl (λ ports pod,
      foldl (λ ports container, foldl add_port ports (c_hostPorts container))
        ports (p_containers pod))
    ∅ pods.

Definition PodFitsHostPorts : FitPredicate := λ pod meta h nodeInfo,
  let wantPorts := match meta with
                   | Some m => podPorts m
                   | None => GetUsedPorts [pod]
                   end in
  if decide (size wantPorts = 0) then Ok (true, [])
  else
    let existingPorts := GetUsedPorts (NodeInfo_Pods nodeInfo) in
    if existsb (λ wport, negb (bool_decide (wport = 0)%Z) && bool_decide (wport ∈ existingPorts))
         (elements wantPorts)
    then Ok (false, [ErrPodNotFitsHostPorts])
    else Ok (true, []).

(** ** Node selectors *)

Definition selector_operator (op : string) : option Operator :=
  if decide (op = "In") then Some OpIn
  else if decide (op = "NotIn") then Some OpNotIn
  else if decide (op = "Exists") then Some OpExists
  else if decide (op = "DoesNotExist") then Some OpDoesNotExist
  else if decide (op = "Gt") then Some OpGreaterThan
  else if decide (op = "Lt") then Some OpLessThan
  else None.

Section selectors.
Context `{!MapRange, !SortSort}.

Fixpoint requirements_loop (nsm : list NodeSelectorRequirement) (selector : Selector)
    : option Selector :=
  match nsm with
  | [] => Some selector
  | expr :: nsm' =>
      match selector_operator (nsr_operator expr) with
      | None => None
      | Some op =>
          match NewRequirement (nsr_key expr) op (nsr_values expr) with
          | Err _ => None
          | Ok r => requirements_loop nsm' (Selector_Add [r] selector)
          end
      end
  end.

(** [None] where the source returns an error. *)
Definition NodeSelectorRequirementsAsSelector (nsm : list NodeSelectorRequirement)
    : option Selector :=
  match nsm with
  | [] => Some Nothing
  | _ => requirements_loop nsm (internalSelector [])
  end.

Fixpoint nodeMatchesNodeSelectorTerms (node : Node)
    (nodeSelectorTerms : list (list NodeSelectorRequirement)) : bool :=
  match nodeSelectorTerms with
  | [] => false
  | req :: rest =>
      match NodeSelectorRequirementsAsSelector req with
      | None => false
      | Some nodeSelector =>
          if Selector_Matches nodeSelector (n_labels node) then true
          else nodeMatchesNodeSelectorTerms node rest
      end
  end.

Definition podMatchesNodeLabels (pod : Pod) (node : Node) : bool :=
  if bool_decide (0 < size (p_nodeSelector pod))
     && negb (Selector_Matches (SelectorFromSet (p_nodeSelector pod)) (n_labels node))
  then false
  else
    match p_nodeAffinity pod with
    | None => true
    | Some None => true
    | Some (Some nodeSelectorTerms) => nodeMatchesNodeSelectorTerms node nodeSelectorTerms
    end.

Definition PodSelectorMatches : FitPredicate := λ pod meta h nodeInfo,
  match NodeInfo_Node nodeInfo with
  | None => Err "node not found"
  | Some node =>
      if podMatchesNodeLabels pod node then Ok (true, [])
      else Ok (false, [ErrNodeSelectorNotMatch])
  end.

(** [if !fit { predicateFails = append(predicateFails, reasons...) }] *)
Definition collect (fails : list reason) (v : bool * list reason) : list reason :=
  if v.1 then fails else fails ++ v.2.

Definition GeneralPredicates : FitPredicate := λ pod meta h nodeInfo,
  v1 !<- PodFitsResources pod meta h nodeInfo;
  let fails1 := collect [] v1 in
  v2 !<- PodFitsHost pod meta h nodeInfo;
  let fails2 := collect fails1 v2 in
  v3 !<- PodFitsHostPorts pod meta h nodeInfo;
  let fails3 := collect fails2 v3 in
  v4 !<- PodSelectorMatches pod meta h nodeInfo;
  let fails4 := collect fails3 v4 in
  Ok (bool_decide (fails4 = []), fails4).

End selectors.

Fixpoint label_presence_loop (labels : list string) (presence : bool) (nodeLabels : Set_) : bool :=
  match labels with
  | [] => true
  | label :: rest =>
      let exists_ := Has nodeLabels label in
      if (exists_ && negb presence) || (negb exists_ && presence) then false
      else label_presence_loop rest presence nodeLabels
  end.

Definition CheckNodeLabelPresence (labels : list string) (presence : bool) : FitPredicate :=
  λ pod meta h nodeInfo,
  match NodeInfo_Node nodeInfo with
  | None => Err "node not found"
  | Some node =>
      if label_presence_loop labels presence (n_labels node) then Ok (true, [])
      else Ok (false, [ErrNodeLabelPresenceViolated])
  end.

(** ** Taints and conditions *)

Definition TolerationToleratesTaint (toleration : Toleration) (taint : Taint) : bool :=
  if negb (bool_decide (tol_effect toleration = ""))
     && negb (bool_decide (tol_effect toleration = taint_effect taint)) then false
  else if negb (bool_decide (tol_key toleration = taint_key taint)) then false
  else if (bool_decide (tol_operator toleration = "")
           || bool_decide (tol_operator toleration = "Equal"))
          && bool_decide (tol_value toleration = taint_value taint) then true
  else bool_decide (tol_operator toleration = "Exists").

Fixpoint TaintToleratedByTolerations (taint : Taint) (tolerations : list Toleration) : bool :=
  match tolerations with
  | [] => false
  | t :: rest =>
      if TolerationToleratesTaint t taint then true else TaintToleratedByTolerations taint rest
  end.

Fixpoint tolerates_loop (tolerations : list Toleration) (taints : list Taint) : bool :=
  match taints with
  | [] => true
  | taint :: rest =>
      if decide (taint_effect taint = "PreferNoSchedule") then tolerates_loop tolerations rest
      else if TaintToleratedByTolerations taint tolerations then tolerates_loop tolerations rest
      else false
  end.

Definition tolerationsToleratesTaints (tolerations : list Toleration) (taints : list Taint) : bool :=
  if decide (length taints = 0) then true
  else if decide (length tolerations = 0) then false
  else tolerates_loop tolerations taints.

Definition PodToleratesNodeTaints : FitPredicate := λ pod meta h nodeInfo,
  taints !<- Taints nodeInfo;
  tolerations !<- p_tolerations pod;
  if tolerationsToleratesTaints tolerations taints then Ok (true, [])
  else Ok (false, [ErrTaintsTolerationsNotMatch]).

Definition CheckNodeDiskPressurePredicate : FitPredicate := λ pod meta h nodeInfo,
  if decide (DiskPressureCondition nodeInfo = "True")
  then Ok (false, [ErrNodeUnderDiskPressure])
  else Ok (true, []).

(** ** Disk conflicts *)

Fixpoint haveSame (a1 a2 : list string) : bool :=
  match a1 with
  | [] => false
  | val1 :: rest => if bool_decide (val1 ∈ a2) then true else haveSame rest a2
  end.

(** The portal with its default port. *)
Definition with_port (target : string) : string :=
  if string_has ":" target then target else target +:+ ":3260".

Definition gce_conflict (volume existing : Volume) : bool :=
  match v_gce volume, v_gce existing with
  | Some disk, Some existingDisk =>
      bool_decide (gce_pdName disk = gce_pdName existingDisk)
      && negb (gce_readOnly disk && gce_readOnly existingDisk)
  | _, _ => false
  end.

Definition ebs_conflict (volume existing : Volume) : bool :=
  match v_ebs volume, v_ebs existing with
  | Some id, Some eid => bool_decide (id = eid)
  | _, _ => false
  end.

Definition iscsi_conflict (volume existing : Volume) : bool :=
  match v_iscsi volume, v_iscsi existing with
  | Some v, Some e =>
      bool_decide (iqn v = iqn e) && bool_decide (lun v = lun e)
      && bool_decide (with_port (targetPortal v) = with_port (targetPortal e))
      && negb (iscsi_readOnly v && iscsi_readOnly e)
  | _, _ => false
  end.

Definition rbd_conflict (volume existing : Volume) : bool :=
  match v_rbd volume, v_rbd existing with
  | Some v, Some e =>
      haveSame (cephMonitors v) (cephMonitors e) && bool_decide (rbdPool v = rbdPool e)
      && bool_decide (rbdImage v = rbdImage e) && negb (rbd_readOnly v && rbd_readOnly e)
  | _, _ => false
  end.

Fixpoint conflict_loop (volume : Volume) (volumes : list Volume) : bool :=
  match volumes with
  | [] => false
  | existingVolume :: rest =>
      if gce_conflict volume existingVolume then true
      else if ebs_conflict volume existingVolume then true
      else if iscsi_conflict volume existingVolume then true
      else if rbd_conflict volume existingVolume then true
      else conflict_loop volume rest
  end.

Definition isVolumeConflict (volume : Volume) (pod : Pod) : bool :=
  match v_gce volume, v_ebs volume, v_rbd volume, v_iscsi volume with
  | None, None, None, None => false
  | _, _, _, _ => conflict_loop volume (p_volumes pod)
  end.

Definition NoDiskConflict : FitPredicate := λ pod meta h nodeInfo,
  if existsb (λ v, existsb (isVolumeConflict v) (NodeInfo_Pods nodeInfo)) (p_volumes pod)
  then Ok (false, [ErrDiskConflict])
  else Ok (true, []).

(** The part of GetMetadata that the modelled predicates read. *)
Definition GetMetadata `{!MapRange} (pod : Pod) : predicateMetadata :=
  mkMeta (GetResourceRequest pod) (GetUsedPorts [pod]).

(** ** Requests *)

Section request_lemmas.
Context `{!MapRange}.

Lemma amount_max_request name r e :
  amount name (max_request r e) =
  if decide (name = e.1) then
    if tracked name then Z.max (amount name r) (units name e.2) else 0%Z
  else amount name r.
Proof.
  destruct e as [k q], r as [cpu mem gpu opaque]. unfold max_request.
  destruct (tracked name) eqn:Ht; cycle 1.
  { rewrite !(amount_untracked name) by done. cbn [fst]. by case_decide. }
  unfold amount, units, tracked in *. cbn [fst snd].
  destruct (decide (k = ResourceMemory)) as [->|Hm].
  { repeat case_decide; simplify_eq/=; lia. }
  destruct (decide (k = ResourceCPU)) as [->|Hc].
  { repeat case_decide; simplify_eq/=; lia. }
  destruct (decide (k = ResourceNvidiaGPU)) as [->|Hg].
  { repeat case_decide; simplify_eq/=; lia. }
  destruct (decide (name = k)) as [->|Hk].
  - rewrite !bool_decide_eq_false_2 in Ht by done. simpl in Ht. rewrite Ht.
    destruct (decide (k = ResourceCPU)); [done|]. destruct (decide (k = ResourceMemory)); [done|].
    destruct (decide (k = ResourceNvidiaGPU)); [done|]. simpl.
    destruct opaque as [g|]; simpl; case_decide; unfold opaque_get in *; simpl in *;
      rewrite ?lookup_insert_eq, ?lookup_empty in *; simpl in *; lia.
  - destruct (IsOpaqueIntResourceName k) eqn:Hop; [|done].
    repeat case_decide; simplify_eq/=; try done;
      destruct (IsOpaqueIntResourceName name); try done; unfold opaque_get; simpl;
      rewrite ?lookup_insert_ne by done; by destruct opaque.
Qed.

#[local] Arguments max_request : simpl never.
#[local] Arguments count_request : simpl never.

(** The requests of init containers for a resource, where they have one. *)
Definition init_requests (name : string) (pod : Pod) : list Z :=
  omap (λ c, units name <$> c_requests c !! name) (p_initContainers pod).

Lemma amount_max_requests name (m : ResourceList) r :
  amount name (foldl max_request r (map_range m)) =
  if tracked name then
    match m !! name with
    | Some q => Z.max (amount name r) (units name q)
    | None => amount name r
    end
  else 0%Z.
Proof.
  destruct (tracked name) eqn:Ht; [|by apply amount_untracked].
  rewrite <-(list_to_map_range m) at 2.
  pose proof (NoDup_fst_map_range m) as Hnd. revert r Hnd.
  induction (map_range m) as [|[k q] l IH]; intros r Hnd; simpl; [by rewrite lookup_empty|].
  csimpl in Hnd. apply NoDup_cons in Hnd as [Hk Hnd]. rewrite IH by done.
  rewrite !amount_max_request, Ht. simpl.
  apply (not_elem_of_list_to_map_1 (M := gmap string)) in Hk.
  destruct (decide (name = k)) as [->|Hne].
  - by rewrite Hk, lookup_insert_eq.
  - by rewrite lookup_insert_ne.
Qed.

Lemma GetResourceRequest_amount name pod :
  amount name (GetResourceRequest pod) =
  if tracked name then
    foldl Z.max (wrap64 (pod_requested name pod)) (init_requests name pod)
  else 0%Z.
Proof.
  destruct (tracked name) eqn:Ht; [|by apply amount_untracked].
  unfold GetResourceRequest, init_requests.
  set (r0 := foldl _ emptyResource (p_containers pod)).
  assert (Hr0 : amount name r0 = wrap64 (pod_requested name pod)).
  { unfold r0, pod_requested, p_requests.
    assert (Hgen : ∀ cs r, wrap64 (amount name r) = amount name r →
      amount name (foldl (λ res c, foldl count_request res (map_range (c_requests c))) r cs) =
      wrap64 (amount name r + sumZ (requested name) (c_requests <$> cs))%Z).
    { induction cs as [|c cs IH]; intros r Hr; csimpl; [by rewrite Z.add_0_r|].
      assert (Hc : amount name (foldl count_request r (map_range (c_requests c))) =
                   wrap64 (amount name r + requested name (c_requests c))%Z).
      { rewrite amount_count_requests by done. unfold requested. rewrite Ht. f_equal. f_equal.
        apply (sumZ_map_range (units name)). }
      rewrite IH; rewrite Hc; [|apply wrap64_wrap64]. rewrite wrap64_add_l. f_equal. lia. }
    rewrite Hgen; rewrite amount_empty; done. }
  rewrite <-Hr0. generalize r0. clear r0 Hr0.
  induction (p_initContainers pod) as [|c cs IH]; intros r; simpl; [done|].
  rewrite IH, amount_max_requests, Ht. by destruct (c_requests c !! name).
Qed.

Lemma foldl_max_ge l z : (z ≤ foldl Z.max z l)%Z.
Proof.
  revert z. induction l as [|x l IH]; intros z; simpl; [lia|]. specialize (IH (Z.max z x)). lia.
Qed.

(** Adding what the containers ask stays below adding the request that the
    predicate computes, which also counts the init containers. *)
Lemma request_within name pod used allocatable :
  (0 < pod_requested name pod ≤ MaxInt64)%Z → is_int64 used →
  (amount name (GetResourceRequest pod) + used ≤ MaxInt64)%Z →
  (amount name (GetResourceRequest pod) ≠ 0%Z →
   (add64 (amount name (GetResourceRequest pod)) used ≤ allocatable)%Z) →
  ((if tracked name then add64 used (amount name (pod_res pod)) else 0) ≤ allocatable)%Z.
Proof.
  intros Hpos Hused Hsum Hfit. pose proof (GetResourceRequest_amount name pod) as Hreq.
  destruct (calculateResource_sums name pod) as [Hres _]. unfold is_int64, MinInt64, MaxInt64 in *.
  destruct (tracked name) eqn:Ht; cycle 1.
  { exfalso. cut (pod_requested name pod = 0)%Z; [lia|]. unfold pod_requested.
    induction (p_requests pod) as [|c cs IH]; simpl; [done|]. rewrite IH. unfold requested.
    by rewrite Ht. }
  rewrite wrap64_id in Hreq, Hres by (unfold is_int64, MinInt64, MaxInt64; lia).
  pose proof (foldl_max_ge (init_requests name pod) (pod_requested name pod)).
  rewrite Hres. unfold add64 in *. specialize (Hfit ltac:(lia)).
  rewrite !wrap64_id in * by (unfold is_int64, MinInt64, MaxInt64; lia). lia.
Qed.

End request_lemmas.

(** ** What acceptance means *)

Definition meta_of `{!MapRange} (pod : Pod) (meta : option predicateMetadata) : Prop :=
  meta = None ∨ meta = Some (GetMetadata pod).

Lemma insufficient_nil rName request used allocatable :
  insufficient rName request used allocatable = [] ↔ (add64 request used ≤ allocatable)%Z.
Proof.
  unfold insufficient, exceeds. case_bool_decide; split; intros; try done; lia.
Qed.

Section acceptance.
Context `{!MapRange}.

Lemma no_opaque_amount name r :
  size (default ∅ (OpaqueIntResources r)) = 0 →
  MilliCPU r = 0%Z → Memory r = 0%Z → NvidiaGPU r = 0%Z → amount name r = 0%Z.
Proof.
  intros Hs Hc Hm Hg. unfold amount. repeat case_decide; try done.
  destruct (IsOpaqueIntResourceName name); [|done]. unfold opaque_get.
  destruct (OpaqueIntResources r) as [g|]; simpl in *; [|done].
  apply map_size_empty_inv in Hs as ->. by rewrite lookup_empty.
Qed.

Lemma fits_resources_accept pod meta h n fails :
  meta_of pod meta → PodFitsResources pod meta h (Some n) = Ok (true, fails) →
  (Z.of_nat (length (ni_pods n)) + 1 ≤ ni_allowedPodNumber n)%Z ∧
  ∀ name, amount name (GetResourceRequest pod) ≠ 0%Z →
    (add64 (amount name (GetResourceRequest pod)) (amount name (load h (requestedResource n)))
     ≤ amount name (load h (allocatableResource n)))%Z.
Proof.
  intros Hmeta. unfold PodFitsResources.
  assert ((match meta with Some m => podRequest m | None => GetResourceRequest pod end)
          = GetResourceRequest pod) as -> by by destruct Hmeta as [->| ->].
  simpl. destruct (ni_node n) as [node|]; simpl; [|done].
  set (req := GetResourceRequest pod). set (fails0 := if decide _ then _ else _).
  assert (Hcount : fails0 = [] → (Z.of_nat (length (ni_pods n)) + 1 ≤ ni_allowedPodNumber n)%Z).
  { unfold fails0. case_decide; [done|lia]. }
  destruct (bool_decide _ && _ && _ && _) eqn:Hzero.
  - intros [= Hb _]. apply bool_decide_eq_true in Hb. split; [auto|]. intros name [].
    rewrite !andb_true_iff, !bool_decide_eq_true in Hzero. destruct Hzero as [[[? ?] ?] ?].
    by apply no_opaque_amount.
  - intros [= Hb _]. apply bool_decide_eq_true in Hb.
    apply app_nil in Hb as [H0 [Hc [Hm [Hg Ho]%app_nil]%app_nil]%app_nil].
    apply insufficient_nil in Hc, Hm, Hg. clear Hzero. split; [auto|]. intros name Hname.
    unfold amount in *. repeat case_decide; try done.
    destruct (IsOpaqueIntResourceName name); [|done].
    destruct (default ∅ (OpaqueIntResources req) !! name) as [q|] eqn:Hq.
    + assert (opaque_get (OpaqueIntResources req) name = q) as ->.
      { unfold opaque_get. destruct (OpaqueIntResources req); simpl in *; [by rewrite Hq|done]. }
      apply elem_of_map_range in Hq. apply (insufficient_nil name).
      destruct (insufficient name q _ _) as [|x l] eqn:E; [done|].
      assert (Hx : x ∈ ([] : list reason)); [|by apply elem_of_nil in Hx].
      rewrite <-Ho. apply list_elem_of_bind. exists (name, q). simpl. split; [|done].
      rewrite E. left.
    + destruct Hname. unfold opaque_get. destruct (OpaqueIntResources req); simpl in *; [by rewrite Hq|done].
Qed.

(** ** Ports *)

Definition pod_ports (pod : Pod) : list Z := p_containers pod ≫= c_hostPorts.

Lemma elem_of_foldl_ports ports acc z :
  z ∈ foldl add_port acc ports ↔ z ∈ acc ∨ z ∈ ports ∧ z ≠ 0%Z.
Proof.
  revert acc. induction ports as [|p l IH]; intros acc; simpl; [set_solver|].
  rewrite IH. unfold add_port. case_decide as H0; set_solver.
Qed.

Lemma elem_of_GetUsedPorts pods z :
  z ∈ GetUsedPorts pods ↔ z ≠ 0%Z ∧ ∃ pod, pod ∈ pods ∧ z ∈ pod_ports pod.
Proof.
  assert (Hcs : ∀ cs acc, z ∈ foldl (λ ports c, foldl add_port ports (c_hostPorts c)) acc cs ↔
    z ∈ acc ∨ z ∈ cs ≫= c_hostPorts ∧ z ≠ 0%Z).
  { induction cs as [|c cs IH]; intros acc; simpl; [set_solver|].
    rewrite IH, elem_of_foldl_ports. csimpl. rewrite elem_of_app. naive_solver. }
  unfold GetUsedPorts.
  assert (Hps : ∀ ps acc, z ∈ foldl (λ ports pod,
      foldl (λ ports c, foldl add_port ports (c_hostPorts c)) ports (p_containers pod)) acc ps ↔
    z ∈ acc ∨ z ≠ 0%Z ∧ ∃ pod, pod ∈ ps ∧ z ∈ pod_ports pod).
  { induction ps as [|p ps IH]; intros acc; simpl.
    - split; [auto|]. intros [?|(_ & p & Hp & _)]; [done|]. by apply elem_of_nil in Hp.
    - rewrite IH, Hcs. unfold pod_ports. setoid_rewrite elem_of_cons. naive_solver. }
  rewrite Hps. set_solver.
Qed.

(** Two pods want the same host port. *)
Definition ports_clash (p q : Pod) : Prop :=
  ∃ z, z ≠ 0%Z ∧ z ∈ pod_ports p ∧ z ∈ pod_ports q.

Lemma fits_ports_cases pod meta h n :
  meta_of pod meta →
  (PodFitsHostPorts pod meta h n = Ok (true, []) ∧
     ∀ q, q ∈ NodeInfo_Pods n → ¬ ports_clash pod q) ∨
  (PodFitsHostPorts pod meta h n = Ok (false, [ErrPodNotFitsHostPorts]) ∧
     ∃ q, q ∈ NodeInfo_Pods n ∧ ports_clash pod q).
Proof.
  intros Hmeta. unfold PodFitsHostPorts.
  assert ((match meta with Some m => podPorts m | None => GetUsedPorts [pod] end)
          = GetUsedPorts [pod]) as -> by by destruct Hmeta as [->| ->].
  assert (Hwant : ∀ z, z ∈ GetUsedPorts [pod] ↔ z ≠ 0%Z ∧ z ∈ pod_ports pod).
  { intros z. rewrite elem_of_GetUsedPorts. setoid_rewrite list_elem_of_singleton. naive_solver. }
  case_decide as Hsize.
  { left. split; [done|]. intros q _ (z & Hz & Hp & _). apply size_empty_inv in Hsize.
    specialize (Hwant z). set_solver. }
  destruct (existsb _ _) eqn:Hex.
  - right. split; [done|]. apply existsb_exists in Hex as (z & Hin & Hz).
    apply list_elem_of_In, elem_of_elements, Hwant in Hin.
    apply andb_true_iff in Hz as [_ Hz%bool_decide_eq_true].
    apply elem_of_GetUsedPorts in Hz as (Hz0 & q & Hq & Hzq). exists q. split; [done|].
    exists z. naive_solver.
  - left. split; [done|]. intros q Hq (z & Hz & Hp & Hzq).
    apply not_true_iff_false in Hex. destruct Hex. apply existsb_exists. exists z. split.
    + by apply list_elem_of_In, elem_of_elements, Hwant.
    + rewrite bool_decide_eq_false_2, bool_decide_eq_true_2; [done| |done].
      apply elem_of_GetUsedPorts. eauto.
Qed.

End acceptance.

(** ** Every rejection is explained *)

(** A predicate that rejects gives a reason, one that accepts gives none. *)
Definition explains (f : FitPredicate) : Prop :=
  ∀ pod meta h n fit rs, f pod meta h n = Ok (fit, rs) → fit = bool_decide (rs = []).

Create HintDb explains.

Section explanations.
Context `{!MapRange, !SortSort}.

Ltac by_cases :=
  intros pod meta h n fit rs; intros; repeat (case_match; simplify_eq/=); try done.

Lemma PodFitsResources_explains : explains PodFitsResources.
Proof. unfold PodFitsResources. by_cases. Qed.

Lemma PodFitsHost_explains : explains PodFitsHost.
Proof. unfold PodFitsHost. by_cases. Qed.

Lemma PodFitsHostPorts_explains : explains PodFitsHostPorts.
Proof. unfold PodFitsHostPorts. by_cases. Qed.

Lemma PodSelectorMatches_explains : explains PodSelectorMatches.
Proof. unfold PodSelectorMatches. by_cases. Qed.

Lemma PodToleratesNodeTaints_explains : explains PodToleratesNodeTaints.
Proof. unfold PodToleratesNodeTaints, result_bind. by_cases. Qed.

Lemma CheckNodeDiskPressure_explains : explains CheckNodeDiskPressurePredicate.
Proof. unfold CheckNodeDiskPressurePredicate. by_cases. Qed.

Lemma CheckNodeLabelPresence_explains labels presence :
  explains (CheckNodeLabelPresence labels presence).
Proof. unfold CheckNodeLabelPresence. by_cases. Qed.

Lemma NoDiskConflict_explains : explains NoDiskConflict.
Proof. unfold NoDiskConflict. by_cases. Qed.

Lemma GeneralPredicates_explains : explains GeneralPredicates.
Proof.
  intros pod meta h n fit rs. unfold GeneralPredicates, result_bind.
  repeat (case_match; try done). by intros [= <- <-].
Qed.

Lemma collect_nil fails v :
  v.1 = bool_decide (v.2 = []) → collect fails v = [] → fails = [] ∧ v = (true, []).
Proof.
  destruct v as [[] rs]; simpl; unfold collect; simpl.
  - intros Hb%eq_sym%bool_decide_eq_true ->. by rewrite Hb.
  - intros Hb%eq_sym%bool_decide_eq_false [-> ->]%app_nil. done.
Qed.

Lemma GeneralPredicates_accept pod meta h n rs :
  GeneralPredicates pod meta h n = Ok (true, rs) →
  PodFitsResources pod meta h n = Ok (true, []) ∧ PodFitsHost pod meta h n = Ok (true, []) ∧
  PodFitsHostPorts pod meta h n = Ok (true, []) ∧ PodSelectorMatches pod meta h n = Ok (true, []).
Proof.
  unfold GeneralPredicates, result_bind.
  destruct (PodFitsResources pod meta h n) as [v1|] eqn:E1; [|done].
  destruct (PodFitsHost pod meta h n) as [v2|] eqn:E2; [|done].
  destruct (PodFitsHostPorts pod meta h n) as [v3|] eqn:E3; [|done].
  destruct (PodSelectorMatches pod meta h n) as [v4|] eqn:E4; [|done].
  intros [= Hb _]. apply bool_decide_eq_true in Hb.
  destruct v1 as [f1 r1], v2 as [f2 r2], v3 as [f3 r3], v4 as [f4 r4].
  apply PodFitsResources_explains in E1. apply PodFitsHost_explains in E2.
  apply PodFitsHostPorts_explains in E3. apply PodSelectorMatches_explains in E4.
  apply collect_nil in Hb as [Hb [= -> ->]]; [|done].
  apply collect_nil in Hb as [Hb [= -> ->]]; [|done].
  apply collect_nil in Hb as [Hb [= -> ->]]; [|done].
  apply collect_nil in Hb as [_ [= -> ->]]; done.
Qed.

(** ** Node selectors *)

Definition expr_requirement (expr : NodeSelectorRequirement) : option Requirement :=
  op ← selector_operator (nsr_operator expr);
  match NewRequirement (nsr_key expr) op (nsr_values expr) with
  | Ok r => Some r
  | Err _ => None
  end.

(** A term whose expressions can all be parsed, and one that the node meets. *)
Definition term_parses (term : list NodeSelectorRequirement) : Prop :=
  Forall (λ expr, is_Some (expr_requirement expr)) term.

Definition term_matches (node : Node) (term : list NodeSelectorRequirement) : Prop :=
  term ≠ [] ∧
  Forall (λ expr, ∃ r, expr_requirement expr = Some r ∧
                       Requirement_Matches r (n_labels node) = true) term.

Lemma requirements_loop_spec node nsm : ∀ reqs,
  match requirements_loop nsm (internalSelector reqs) with
  | None => ¬ term_parses nsm
  | Some sel =>
      term_parses nsm ∧
      (Selector_Matches sel (n_labels node) = true ↔
       Selector_Matches (internalSelector reqs) (n_labels node) = true ∧
       Forall (λ expr, ∃ r, expr_requirement expr = Some r ∧
                            Requirement_Matches r (n_labels node) = true) nsm)
  end.
Proof.
  unfold term_parses. induction nsm as [|e nsm IH]; intros reqs; cbn [requirements_loop].
  { split; [done|]. rewrite Forall_nil. naive_solver. }
  destruct (selector_operator (nsr_operator e)) as [op|] eqn:Hop; cycle 1.
  { intros [[r Hr] _]%Forall_cons. unfold expr_requirement in Hr. by rewrite Hop in Hr. }
  destruct (NewRequirement (nsr_key e) op (nsr_values e)) as [r|] eqn:Hr; cycle 1.
  { intros [[r' Hr'] _]%Forall_cons. unfold expr_requirement in Hr'. rewrite Hop in Hr'.
    simpl in Hr'. by rewrite Hr in Hr'. }
  assert (He : expr_requirement e = Some r).
  { unfold expr_requirement. rewrite Hop. simpl. by rewrite Hr. }
  specialize (IH (sort_Sort ByKey (reqs ++ [r]))).
  pose proof (Selector_Add_matches (n_labels node) (internalSelector reqs) [r]) as Hadd.
  simpl in Hadd. rewrite Forall_singleton in Hadd. cbn [Selector_Add].
  destruct (requirements_loop nsm _) as [sel|].
  - destruct IH as [Hparse Hsel]. rewrite !Forall_cons. split; [split; [rewrite He; eauto|done]|].
    rewrite Hsel. simpl. rewrite Hadd, He. naive_solver.
  - rewrite Forall_cons. naive_solver.
Qed.

Lemma node_terms_spec node terms :
  nodeMatchesNodeSelectorTerms node terms = true ↔
  ∃ before term after, terms = before ++ term :: after ∧
    Forall term_parses before ∧ term_matches node term.
Proof.
  induction terms as [|t terms IH]; cbn [nodeMatchesNodeSelectorTerms].
  { split; [done|]. intros (before & term & after & Heq & _). by destruct before. }
  assert (Ht : match NodeSelectorRequirementsAsSelector t with
               | None => ¬ term_parses t
               | Some sel => term_parses t ∧
                   (Selector_Matches sel (n_labels node) = true ↔ term_matches node t)
               end).
  { unfold term_matches. destruct t as [|e t]; simpl.
    - split; [by constructor|]. naive_solver.
    - pose proof (requirements_loop_spec node (e :: t) []) as Hl. simpl in Hl.
      destruct (match selector_operator (nsr_operator e) with Some op => _ | None => _ end); [|done].
      destruct Hl as [? ->]. split; [done|]. naive_solver. }
  assert (Hparses : term_matches node t → term_parses t).
  { intros [_ Hf]. eapply Forall_impl; [done|]. naive_solver. }
  destruct (NodeSelectorRequirementsAsSelector t) as [sel|].
  - destruct Ht as [Hp Hsel]. destruct (Selector_Matches sel (n_labels node)).
    + split; [|done]. intros _. exists [], t, terms. split_and!; [done|constructor|by apply Hsel].
    + rewrite IH. split.
      * intros (before & term & after & -> & ? & ?). exists (t :: before), term, after. auto.
      * intros (before & term & after & Heq & Hb & Hm). destruct before as [|x before]; simplify_eq/=.
        { by apply Hsel in Hm. }
        apply Forall_cons in Hb as [_ Hb]. eauto 10.
  - split; [done|]. intros (before & term & after & Heq & Hb & Hm).
    destruct before as [|x before]; simplify_eq/=; [by apply Hparses in Hm|].
    by apply Forall_cons in Hb as [? _].
Qed.

End explanations.

#[export] Hint Resolve PodFitsResources_explains PodFitsHost_explains PodFitsHostPorts_explains
  PodSelectorMatches_explains PodToleratesNodeTaints_explains CheckNodeDiskPressure_explains
  CheckNodeLabelPresence_explains NoDiskConflict_explains GeneralPredicates_explains : explains.

(** ** Theorems *)

Definition with_nodeName (nodeName : string) (pod : Pod) : Pod :=
  mkPod (p_namespace pod) (p_name pod) (p_labels pod) nodeName (p_containers pod)
    (p_initContainers pod) (p_volumes pod) (p_nodeSelector pod) (p_nodeAffinity pod)
    (p_affinity pod) (p_tolerations pod).

(** The labels a pod asks of its node: its node selector and one of its
    affinity terms, none of the terms before which is malformed. *)
Definition selects `{!MapRange, !SortSort} (pod : Pod) (node : Node) : Prop :=
  (p_nodeSelector pod ⊆ n_labels node ∨
   ∃ k v, p_nodeSelector pod !! k = Some v ∧ label_rejected k v = true) ∧
  ∀ terms, p_nodeAffinity pod = Some (Some terms) →
    ∃ before term after, terms = before ++ term :: after ∧
      Forall term_parses before ∧ term_matches node term.

(** A toleration covers a taint. *)
Definition covers (toleration : Toleration) (taint : Taint) : Prop :=
  (tol_effect toleration = "" ∨ tol_effect toleration = taint_effect taint) ∧
  tol_key toleration = taint_key taint ∧
  (tol_operator toleration = "Exists" ∨
   (tol_operator toleration = "" ∨ tol_operator toleration = "Equal") ∧
   tol_value toleration = taint_value taint).

(** Two volumes that may not be mounted on one node. *)
Definition volumes_conflict (v e : Volume) : bool :=
  gce_conflict v e || ebs_conflict v e || iscsi_conflict v e || rbd_conflict v e.

Lemma TolerationToleratesTaint_covers toleration taint :
  TolerationToleratesTaint toleration taint = true ↔ covers toleration taint.
Proof.
  unfold TolerationToleratesTaint, covers.
  repeat case_bool_decide; simpl; try (naive_solver congruence).
Qed.

Lemma TaintTolerated_covers taint tolerations :
  TaintToleratedByTolerations taint tolerations = true ↔
  ∃ toleration, toleration ∈ tolerations ∧ covers toleration taint.
Proof.
  induction tolerations as [|t l IH]; simpl.
  { split; [done|]. intros (? & Hin & _). by apply elem_of_nil in Hin. }
  destruct (TolerationToleratesTaint t taint) eqn:Ht.
  - split; [|done]. intros _. exists t. split; [left|]. by apply TolerationToleratesTaint_covers.
  - rewrite IH. setoid_rewrite elem_of_cons. split; [naive_solver|].
    intros (t' & [->|Hin] & Hc); [|eauto]. apply TolerationToleratesTaint_covers in Hc. congruence.
Qed.

Lemma tolerates_loop_spec tolerations taints :
  tolerates_loop tolerations taints = true ↔
  ∀ taint, taint ∈ taints → taint_effect taint ≠ "PreferNoSchedule" →
    ∃ toleration, toleration ∈ tolerations ∧ covers toleration taint.
Proof.
  induction taints as [|t l IH]; simpl.
  { split; [|done]. by intros _ taint ?%elem_of_nil. }
  setoid_rewrite elem_of_cons. case_decide as He; [rewrite IH; naive_solver|].
  pose proof (TaintTolerated_covers t tolerations) as Ht.
  destruct (TaintToleratedByTolerations t tolerations).
  - rewrite IH. split; [|naive_solver]. intros Hl taint [->|Hin]; [|by apply Hl].
    intros _. by apply Ht.
  - split; [done|]. intros Hall. apply Ht. apply Hall; auto.
Qed.

Lemma haveSame_spec a1 a2 : haveSame a1 a2 = true ↔ ∃ x, x ∈ a1 ∧ x ∈ a2.
Proof.
  induction a1 as [|x l IH]; simpl.
  { split; [done|]. by intros (? & ?%elem_of_nil & _). }
  setoid_rewrite elem_of_cons. case_bool_decide; [naive_solver|]. rewrite IH. naive_solver.
Qed.

Lemma haveSame_comm a1 a2 : haveSame a1 a2 = haveSame a2 a1.
Proof. apply eq_bool_prop_intro. rewrite !Is_true_true, !haveSame_spec. naive_solver. Qed.

Lemma volumes_conflict_comm v e : volumes_conflict v e = volumes_conflict e v.
Proof.
  assert (Hb : ∀ (A : Type) `{EqDecision A} (x y : A), bool_decide (x = y) = bool_decide (y = x)).
  { intros A ? x y. by apply bool_decide_ext. }
  unfold volumes_conflict. f_equal; [f_equal; [f_equal|]|].
  - unfold gce_conflict. destruct (v_gce v), (v_gce e); try done.
    by rewrite (Hb _ _ (gce_pdName _)), andb_comm, (andb_comm (gce_readOnly _)), andb_comm.
  - unfold ebs_conflict. destruct (v_ebs v), (v_ebs e); try done.
  - unfold iscsi_conflict. destruct (v_iscsi v), (v_iscsi e); try done.
    by rewrite (Hb _ _ (iqn _)), (Hb _ _ (lun _)), (Hb _ _ (with_port _)),
      (andb_comm (iscsi_readOnly _)).
  - unfold rbd_conflict. destruct (v_rbd v), (v_rbd e); try done.
    by rewrite haveSame_comm, (Hb _ _ (rbdPool _)), (Hb _ _ (rbdImage _)),
      (andb_comm (rbd_readOnly _)).
Qed.

Lemma isVolumeConflict_spec v pod :
  isVolumeConflict v pod = true ↔ ∃ e, e ∈ p_volumes pod ∧ volumes_conflict v e = true.
Proof.
  assert (Hloop : ∀ l, conflict_loop v l = true ↔ ∃ e, e ∈ l ∧ volumes_conflict v e = true).
  { induction l as [|e l IH]; simpl.
    - split; [done|]. by intros (? & ?%elem_of_nil & _).
    - setoid_rewrite elem_of_cons. unfold volumes_conflict in *.
      destruct (gce_conflict v e) eqn:?, (ebs_conflict v e) eqn:?, (iscsi_conflict v e) eqn:?,
        (rbd_conflict v e) eqn:?; simpl;
        try (split; [intros _; exists e; split; [by left|];
               repeat match goal with H : _ = true |- _ => rewrite H end;
               rewrite ?orb_true_r; done|done]).
      rewrite IH. split; [naive_solver|]. intros (e' & [->|?] & Hc); [|eauto].
      repeat match goal with H : _ = false |- _ => rewrite H in Hc end. done. }
  unfold isVolumeConflict.
  destruct (v_gce v) eqn:H1, (v_ebs v) eqn:H2, (v_rbd v) eqn:H3, (v_iscsi v) eqn:H4; try apply Hloop.
  split; [done|]. intros (e & _ & Hc). unfold volumes_conflict, gce_conflict, ebs_conflict,
    iscsi_conflict, rbd_conflict in Hc. rewrite H1, H2, H3, H4 in Hc. done.
Qed.

Section theorems.
Context `{!MapRange, !SortSort}.

Lemma podMatchesNodeLabels_spec pod node : podMatchesNodeLabels pod node = true ↔ selects pod node.
Proof.
  unfold podMatchesNodeLabels, selects.
  assert (Hsel : bool_decide (0 < size (p_nodeSelector pod))
      && negb (Selector_Matches (SelectorFromSet (p_nodeSelector pod)) (n_labels node)) = false ↔
    (p_nodeSelector pod ⊆ n_labels node ∨
     ∃ k v, p_nodeSelector pod !! k = Some v ∧ label_rejected k v = true)).
  { rewrite andb_false_iff, negb_false_iff, SelectorFromSet_matches, bool_decide_eq_false.
    split; [|auto]. intros [Hs|?]; [|done]. left.
    assert (Hz : size (p_nodeSelector pod) = 0) by lia.
    apply map_size_empty_inv in Hz as ->. apply map_empty_subseteq. }
  destruct (_ && negb _) eqn:Hb.
  - split; [done|]. intros [Hs _]. apply Hsel in Hs. congruence.
  - destruct (p_nodeAffinity pod) as [[terms|]|].
    + rewrite node_terms_spec. split.
      * intros Ht. split; [by apply Hsel|]. by intros terms' [= <-].
      * intros [_ Ht]. by apply Ht.
    + split; [|done]. intros _. split; [by apply Hsel|done].
    + split; [|done]. intros _. split; [by apply Hsel|done].
Qed.

(** Admission through the general predicates is safe.  If they accept a pod for
    a node of a cache reached by any operations, and the pod is then assumed
    there, the node has at most the allowed number of pods; for every resource the
    pod requests the total stays within what the node can allocate, as long as
    the addition the predicate makes does not overflow; no two pods that did not
    clash before share a host port; and the node has the labels the pod selects. *)
Lemma general_predicates_admit t h ops rs c name n pod meta r c' :
  admissible_ops t ops empty_spec → run_ops ops (newSchedulerCache t h) = Ret (rs, c) →
  nodes c !! name = Some n → meta_of pod meta →
  GeneralPredicates pod meta (cache_heap c) (Some (Clone n)) = Ok (true, r) →
  AssumePod (with_nodeName name pod) c = Ret (Ok (), c') →
  ∃ n', nodes c' !! name = Some n' ∧ ni_pods n' = ni_pods n ++ [with_nodeName name pod] ∧
    (Z.of_nat (length (ni_pods n')) ≤ ni_allowedPodNumber n')%Z ∧
    (∀ resource,
       (0 < pod_requested resource pod ≤ MaxInt64)%Z →
       (amount resource (GetResourceRequest pod)
        + amount resource (RequestedResource (cache_heap c) (Some n)) ≤ MaxInt64)%Z →
       (amount resource (RequestedResource (cache_heap c') (Some n')) ≤
        amount resource (AllocatableResource (cache_heap c') (Some n')))%Z) ∧
    (∀ q, q ∈ ni_pods n → ¬ ports_clash pod q) ∧
    (∃ node, ni_node n' = Some node ∧ selects pod node).
Proof.
  intros Hadm Hrun Hn Hmeta Hfit Hassume.
  pose proof (cache_reachable_wf _ _ _ _ _ Hadm Hrun) as Hwf.
  apply GeneralPredicates_accept in Hfit as (Hres & _ & Hports & Hsel).
  apply (fits_resources_accept pod meta) in Hres as [Hcount Hres]; [|done]. simpl in Hcount, Hres.
  destruct (fits_ports_cases pod meta (cache_heap c) (Some (Clone n)) Hmeta) as [[_ Hclash]|[Hc _]];
    [|congruence].
  unfold PodSelectorMatches in Hsel. simpl in Hsel. destruct (ni_node n) as [node|] eqn:Hnode; [|done].
  destruct (podMatchesNodeLabels pod node) eqn:Hmatch; [|done].
  destruct (AssumePod_node (with_nodeName name pod) c c' n Hwf Hn Hassume)
    as (n' & Hn' & (Hloc & Hnode' & Hallowed & _) & Hpods & Halloc & Hamount).
  exists n'. split_and!; [done..| | |done|].
  - rewrite Hpods, length_app, Hallowed. simpl. lia.
  - intros resource Hpos Hsum. simpl in *.
    rewrite (Hloc FRequested : requestedResource n' = requestedResource n),
      (Hloc FAllocatable : allocatableResource n' = allocatableResource n), Halloc, Hamount.
    apply (request_within resource pod); [done| |done|by apply Hres].
    rewrite <-(accounts_int64 _ _ _ (io_accounts _ _ (pl_infos _ _ _ (wf_placed _ Hwf)) _ _ Hn)).
    apply wrap64_bounds.
  - exists node. split; [congruence|]. by apply podMatchesNodeLabels_spec.
Qed.

(** The request the predicates check and the request the cache accounts are
    computed by two loops that agree: for every resource the former is the
    maximum of the latter and of what the init containers ask, whatever the
    orders in which the requests are visited. *)
Theorem request_equivalence pod name :
  amount name (GetResourceRequest pod) =
  foldl Z.max (amount name (calculateResource pod).1.1)
    (if tracked name then init_requests name pod else []).
Proof.
  rewrite GetResourceRequest_amount. destruct (calculateResource_sums name pod) as [Hres _].
  unfold pod_res in Hres. rewrite Hres. destruct (tracked name) eqn:Ht; simpl; [done|].
  rewrite <-Hres. symmetry. by apply amount_untracked.
Qed.

(** Node selectors: the predicate accepts exactly if the node has the labels of
    the node selector and meets one of the affinity terms, provided no term before
    that one is malformed; a node selector with an invalid label selects every
    node.  Without a node it is an error. *)
Theorem node_selector_spec pod meta h n :
  PodSelectorMatches pod meta h n =
  match NodeInfo_Node n with
  | None => Err "node not found"
  | Some node =>
      if podMatchesNodeLabels pod node then Ok (true, [])
      else Ok (false, [PredicateFailureError "MatchNodeSelector"])
  end ∧
  ∀ node, podMatchesNodeLabels pod node = true ↔
    (p_nodeSelector pod ⊆ n_labels node ∨
     ∃ k v, p_nodeSelector pod !! k = Some v ∧ label_rejected k v = true) ∧
    ∀ terms, p_nodeAffinity pod = Some (Some terms) →
      ∃ before term after, terms = before ++ term :: after ∧
        Forall term_parses before ∧ term_matches node term.
Proof. split; [done|]. intros node. apply podMatchesNodeLabels_spec. Qed.

(** Taints: a pod is accepted if the node has no taints, or if the pod has some
    toleration and every taint whose effect is not PreferNoSchedule is covered by
    one of its tolerations.  A pod without tolerations is thus rejected even if
    the node only prefers not to have it. *)
Theorem taints_spec pod meta h n taints tolerations :
  Taints n = Ok taints → p_tolerations pod = Ok tolerations →
  PodToleratesNodeTaints pod meta h n =
    (if tolerationsToleratesTaints tolerations taints then Ok (true, [])
     else Ok (false, [ErrTaintsTolerationsNotMatch])) ∧
  (tolerationsToleratesTaints tolerations taints = true ↔
   taints = [] ∨
   tolerations ≠ [] ∧
   ∀ taint, taint ∈ taints → taint_effect taint ≠ "PreferNoSchedule" →
     ∃ toleration, toleration ∈ tolerations ∧ covers toleration taint).
Proof.
  intros Ht Hp. unfold PodToleratesNodeTaints. rewrite Ht, Hp. split; [done|].
  unfold tolerationsToleratesTaints. destruct taints as [|x l]; [naive_solver|].
  destruct (decide (length (x :: l) = 0)); [done|].
  destruct tolerations as [|y l']; [naive_solver|].
  destruct (decide (length (y :: l') = 0)); [done|]. rewrite tolerates_loop_spec. naive_solver.
Qed.

(** Disk conflicts: a pod is accepted exactly if none of its volumes conflicts
    with a volume of a pod on the node, and whether two pods conflict does not
    depend on which of them came first. *)
Theorem disk_conflict_spec pod meta h n :
  (NoDiskConflict pod meta h n = Ok (true, []) ↔
   ∀ q v e, q ∈ NodeInfo_Pods n → v ∈ p_volumes pod → e ∈ p_volumes q →
     volumes_conflict v e = false) ∧
  (∀ p q, existsb (λ v, isVolumeConflict v q) (p_volumes p) =
          existsb (λ v, isVolumeConflict v p) (p_volumes q)).
Proof.
  split.
  - unfold NoDiskConflict. destruct (existsb _ _) eqn:Hex; simpl.
    + split; [done|]. intros Hall. apply existsb_exists in Hex as (v & Hv & Hex).
      apply existsb_exists in Hex as (q & Hq & Hc). apply list_elem_of_In in Hv, Hq.
      apply isVolumeConflict_spec in Hc as (e & He & Hc). by rewrite (Hall q v e) in Hc.
    + split; [|done]. intros _ q v e Hq Hv He. apply not_true_iff_false. intros Hc.
      apply not_true_iff_false in Hex. apply Hex. apply existsb_exists. exists v.
      split; [by apply list_elem_of_In|]. apply existsb_exists. exists q.
      split; [by apply list_elem_of_In|]. apply isVolumeConflict_spec. eauto.
  - assert (Hdir : ∀ p q, existsb (λ v, isVolumeConflict v q) (p_volumes p) = true →
      existsb (λ v, isVolumeConflict v p) (p_volumes q) = true).
    { intros p q (v & Hv & Hc)%existsb_exists. apply list_elem_of_In in Hv.
      apply isVolumeConflict_spec in Hc as (e & He & Hc). apply existsb_exists. exists e.
      split; [by apply list_elem_of_In|]. apply isVolumeConflict_spec. exists v.
      by rewrite volumes_conflict_comm. }
    intros p q. apply eq_bool_prop_intro. rewrite !Is_true_true. split; apply Hdir.
Qed.

End theorems.

(** ** A pod admitted to a node *)

Definition roomy_node : Node :=
  mkNode "n1" {["disk" := "ssd"]}
    {["cpu" := mkQuantity 4000 4; "pods" := mkQuantity 110000 110]} (Ok []) [].

Definition picky_pod : Pod :=
  mkPod "default" "web" ∅ ""
    [mkContainer {["cpu" := mkQuantity 1500 2]} [80]%Z] [mkContainer {["cpu" := mkQuantity 2000 2]} []]
    [] {["disk" := "ssd"]} None (Ok None) (Ok []).

Definition roomy_ops : list cache_op := [OpAddNode roomy_node; OpAssumePod (demo_pod "a" 500)].

Definition roomy_result : list (result sched_error ()) * schedulerCache :=
  match @run_ops canonical_range roomy_ops (newSchedulerCache 30 empty_heap) with
  | Ret x => x
  | Panic _ => ([], newSchedulerCache 30 empty_heap)
  end.

Lemma taints_spec_witness :
  tolerationsToleratesTaints [] [mkTaint "k" "v" "PreferNoSchedule"] = false ∧
  (tolerationsToleratesTaints [] [mkTaint "k" "v" "PreferNoSchedule"] = true ↔
   [mkTaint "k" "v" "PreferNoSchedule"] = [] ∨
   ([] : list Toleration) ≠ [] ∧
   ∀ taint, taint ∈ [mkTaint "k" "v" "PreferNoSchedule"] →
     taint_effect taint ≠ "PreferNoSchedule" →
     ∃ toleration, toleration ∈ ([] : list Toleration) ∧ covers toleration taint).
Proof.
  split; [reflexivity|].
  apply (taints_spec picky_pod None empty_heap
    (Some (mkNodeInfo None [] [] 0 1 2 0 [mkTaint "k" "v" "PreferNoSchedule"] None "" "" 0)));
    reflexivity.
Defined.
