(* ===== verification/InterPodAffinity.v ===== *)
(** * Affinity between pods

    Models the PodAffinityChecker of
    plugin/pkg/scheduler/algorithm/predicates/predicates.go and the helpers of
    algorithm/priorities/util/topologies.go: whether a pod may run on a node, by the
    affinity and anti-affinity terms of the pod and of the pods that run already.

    The terms of other pods that the pod matches are recorded as pointers to the
    variable of a range loop.  The variable is one for all turns of the loop, so that
    the pointers are locations here, and what they point to is what the last turn left.

    Theorems: the check decides what the terms mean, if the terms of each pod have one
    topology key; with several keys the check reads the wrong one. *)

From S2P Require Import Prelude Validation Labels Selector MetaSelector ClientStore NodeInfo SchedulerCache Predicates.

(** ** Terms and topologies *)

Definition ErrPodAffinityNotMatch : reason := PredicateFailureError "MatchInterPodAffinity".

(** The empty set stands for all namespaces. *)
Definition GetNamespacesFromPodAffinityTerm (pod : Pod) (term : PodAffinityTerm) : gset string :=
  match term_Namespaces term with
  | None => {[ p_namespace pod ]}
  | Some names => list_to_set names
  end.

Definition PodMatchesTermsNamespaceAndSelector (pod : Pod) (namespaces : gset string) (selector : Selector) : bool :=
  if bool_decide (size namespaces ≠ 0) && bool_decide (p_namespace pod ∉ namespaces) then false
  else if negb (Selector_Matches selector (p_labels pod : Set_)) then false
  else true.

Definition nodesHaveSameTopologyKeyInternal (nodeA nodeB : Node) (topologyKey : string) : bool :=
  bool_decide (default "" (n_labels nodeA !! topologyKey) ≠ "") &&
  bool_decide (default "" (n_labels nodeA !! topologyKey) = default "" (n_labels nodeB !! topologyKey)).

Definition NodesHaveSameTopologyKey (defaultKeys : list string) (nodeA nodeB : Node) (topologyKey : string) : bool :=
  if decide (topologyKey = "") then existsb (nodesHaveSameTopologyKeyInternal nodeA nodeB) defaultKeys
  else nodesHaveSameTopologyKeyInternal nodeA nodeB topologyKey.

Definition getPodAffinityTerms (podAffinity : option (list PodAffinityTerm)) : list PodAffinityTerm :=
  match podAffinity with
  | Some terms => if decide (length terms ≠ 0) then terms else []
  | None => []
  end.

Definition getPodAntiAffinityTerms (podAntiAffinity : option (list PodAffinityTerm)) : list PodAffinityTerm :=
  match podAntiAffinity with
  | Some terms => if decide (length terms ≠ 0) then terms else []
  | None => []
  end.

(** ** The terms of other pods *)

(** [mt_term] is the location of the loop variable. *)
Record matchingPodAntiAffinityTerm := mkMatching {
  mt_term : nat;
  mt_node : Node
}.

Notation variables := (list PodAffinityTerm).

Definition zeroTerm : PodAffinityTerm := mkPodAffinityTerm None None "".

Inductive affinity_error :=
  | NodeNotFound (name : string)
  | NodeNil
  | AffinityInvalid (e : string)
  | SelectorInvalid (e : selector_error)
  | ListError (e : string).

Section checker.
Context `{!MapRange, !SortSort}.

(** The loop over the terms of one pod, whose variable is at [l].  [owner] is the pod
    whose namespace a term without namespaces stands for. *)
Fixpoint terms_loop (owner pod : Pod) (node : Node) (l : nat) (terms : list PodAffinityTerm)
    (acc : list matchingPodAntiAffinityTerm) (vars : variables)
    : result affinity_error (list matchingPodAntiAffinityTerm) * variables :=
  match terms with
  | [] => (Ok acc, vars)
  | term :: terms =>
      let vars := <[l := term]> vars in
      let namespaces := GetNamespacesFromPodAffinityTerm owner term in
      match LabelSelectorAsSelector (term_LabelSelector term) with
      | Err e => (Err (SelectorInvalid e), vars)
      | Ok selector =>
          let acc := if PodMatchesTermsNamespaceAndSelector pod namespaces selector then acc ++ [mkMatching l node] else acc in
          terms_loop owner pod node l terms acc vars
      end
  end.

(** A loop over the terms has a variable of its own. *)
Definition new_terms_loop (owner pod : Pod) (node : Node) (terms : list PodAffinityTerm)
    (acc : list matchingPodAntiAffinityTerm) (vars : variables)
    : result affinity_error (list matchingPodAntiAffinityTerm) * variables :=
  terms_loop owner pod node (length vars) terms acc (vars ++ [zeroTerm]).

(** The loop of processNode over the pods with affinity on a node: for the metadata. *)
Fixpoint node_pods_loop (pod : Pod) (node : Node) (existingPods : list Pod)
    (nodeResult : list matchingPodAntiAffinityTerm) (vars : variables)
    : result affinity_error (list matchingPodAntiAffinityTerm) * variables :=
  match existingPods with
  | [] => (Ok nodeResult, vars)
  | existingPod :: existingPods =>
      match p_affinity existingPod with
      | Err e => (Err (AffinityInvalid e), vars)
      | Ok None => node_pods_loop pod node existingPods nodeResult vars
      | Ok (Some affinity) =>
          let '(r, vars) := new_terms_loop pod pod node (getPodAntiAffinityTerms (PodAntiAffinity affinity)) nodeResult vars in
          match r with
          | Err e => (Err e, vars)
          | Ok nodeResult => node_pods_loop pod node existingPods nodeResult vars
          end
      end
  end.

Definition processNode (pod : Pod) (nodeInfo : NodeInfo) (vars : variables)
    : result affinity_error (list matchingPodAntiAffinityTerm) * variables :=
  match ni_node nodeInfo with
  | None => (Err NodeNil, vars)
  | Some node => node_pods_loop pod node (ni_podsWithAffinity nodeInfo) [] vars
  end.

(** The nodes in the order in which their goroutines have their effect on the result
    and on the first error; the variables of the loops belong to one goroutine each. *)
Fixpoint process_nodes (pod : Pod) (infos : list NodeInfo) (result : list matchingPodAntiAffinityTerm)
    (firstError : option affinity_error) (vars : variables)
    : list matchingPodAntiAffinityTerm * option affinity_error * variables :=
  match infos with
  | [] => (result, firstError, vars)
  | nodeInfo :: infos =>
      let '(r, vars) := processNode pod nodeInfo vars in
      match r with
      | Ok toAppend => process_nodes pod infos (result ++ toAppend) firstError vars
      | Err e => process_nodes pod infos result (match firstError with None => Some e | _ => firstError end) vars
      end
  end.

Definition getMatchingAntiAffinityTerms (order : list nat) (pod : Pod) (nodeInfoMap : gmap string NodeInfo) (vars : variables)
    : list matchingPodAntiAffinityTerm * option affinity_error * variables :=
  let infos := snd <$> map_range nodeInfoMap in
  process_nodes pod (omap (λ i, infos !! i) order) [] None vars.

(** The metadata: [None] if it could not be computed. *)
Definition metadata_terms (order : list nat) (pod : Pod) (nodeInfoMap : gmap string NodeInfo) (vars : variables)
    : option (list matchingPodAntiAffinityTerm) * variables :=
  let '(matchingTerms, err, vars) := getMatchingAntiAffinityTerms order pod nodeInfoMap vars in
  (match err with None => Some matchingTerms | Some _ => None end, vars).

(** *** The checker: the nodes by name, what the lister of pods returns, and the keys of
    the failure domains. *)

Definition GetNodeInfo (nodes : gmap string Node) (id : string) : result affinity_error Node :=
  match nodes !! id with
  | Some node => Ok node
  | None => Err (NodeNotFound id)
  end.

Context (nodes : gmap string Node) (podLister : result string (list Pod)) (failureDomains : list string).

Fixpoint checker_pods_loop (pod : Pod) (allPods : list Pod) (acc : list matchingPodAntiAffinityTerm) (vars : variables)
    : result affinity_error (list matchingPodAntiAffinityTerm) * variables :=
  match allPods with
  | [] => (Ok acc, vars)
  | existingPod :: allPods =>
      match p_affinity existingPod with
      | Err e => (Err (AffinityInvalid e), vars)
      | Ok (Some (mkAffinity _ (Some terms))) =>
          match GetNodeInfo nodes (p_nodeName existingPod) with
          | Err e => (Err e, vars)
          | Ok existingPodNode =>
              let '(r, vars) :=
                new_terms_loop existingPod pod existingPodNode (getPodAntiAffinityTerms (Some terms)) acc vars in
              match r with
              | Err e => (Err e, vars)
              | Ok acc => checker_pods_loop pod allPods acc vars
              end
          end
      | Ok _ => checker_pods_loop pod allPods acc vars
      end
  end.

Definition checker_getMatchingAntiAffinityTerms (pod : Pod) (allPods : list Pod) (vars : variables)
    : result affinity_error (list matchingPodAntiAffinityTerm) * variables :=
  checker_pods_loop pod allPods [] vars.

(** [meta]: the terms in the metadata, [None] without metadata. *)
Definition satisfiesExistingPodsAntiAffinity (pod : Pod) (meta : option (list matchingPodAntiAffinityTerm)) (node : Node)
    (vars : variables) : bool :=
  let '(matchingTerms, vars) :=
    match meta with
    | Some terms => (Some terms, vars)
    | None =>
        match podLister with
        | Err _ => (None, vars)
        | Ok allPods =>
            match checker_getMatchingAntiAffinityTerms pod allPods vars with
            | (Ok terms, vars) => (Some terms, vars)
            | (Err _, vars) => (None, vars)
            end
        end
    end in
  match matchingTerms with
  | None => false
  | Some terms =>
      negb (existsb (λ term, NodesHaveSameTopologyKey failureDomains node (mt_node term)
                               (TopologyKey (default zeroTerm (vars !! mt_term term)))) terms)
  end.

Fixpoint any_pod_loop (namespaces : gset string) (selector : Selector) (node : Node) (topologyKey : string)
    (allPods : list Pod) (matchingPodExists : bool) : result affinity_error (bool * bool) :=
  match allPods with
  | [] => Ok (false, matchingPodExists)
  | existingPod :: allPods =>
      if PodMatchesTermsNamespaceAndSelector existingPod namespaces selector then
        existingPodNode !<- GetNodeInfo nodes (p_nodeName existingPod);
        if NodesHaveSameTopologyKey failureDomains node existingPodNode topologyKey then Ok (true, true)
        else any_pod_loop namespaces selector node topologyKey allPods true
      else any_pod_loop namespaces selector node topologyKey allPods matchingPodExists
  end.

Definition anyPodMatchesPodAffinityTerm (pod : Pod) (allPods : list Pod) (node : Node) (term : PodAffinityTerm)
    : result affinity_error (bool * bool) :=
  let namespaces := GetNamespacesFromPodAffinityTerm pod term in
  match LabelSelectorAsSelector (term_LabelSelector term) with
  | Err e => Err (SelectorInvalid e)
  | Ok selector => any_pod_loop namespaces selector node (TopologyKey term) allPods false
  end.

(** One turn of the loop over the affinity terms of the pod. *)
Definition affinity_term_ok (pod : Pod) (allPods : list Pod) (node : Node) (term : PodAffinityTerm) : bool :=
  match anyPodMatchesPodAffinityTerm pod allPods node term with
  | Err _ => false
  | Ok (true, _) => true
  | Ok (false, true) => false
  | Ok (false, false) =>
      match LabelSelectorAsSelector (term_LabelSelector term) with
      | Err _ => false
      | Ok selector =>
          PodMatchesTermsNamespaceAndSelector pod (GetNamespacesFromPodAffinityTerm pod term) selector
      end
  end.

(** One turn of the loop over its anti-affinity terms. *)
Definition anti_affinity_term_ok (pod : Pod) (allPods : list Pod) (node : Node) (term : PodAffinityTerm) : bool :=
  match anyPodMatchesPodAffinityTerm pod allPods node term with
  | Err _ | Ok (true, _) => false
  | Ok (false, _) => true
  end.

Definition satisfiesPodsAffinityAntiAffinity (pod : Pod) (node : Node) (affinity : Affinity) : bool :=
  match podLister with
  | Err _ => false
  | Ok allPods =>
      if negb (forallb (affinity_term_ok pod allPods node) (getPodAffinityTerms (PodAffinity affinity))) then false
      else forallb (anti_affinity_term_ok pod allPods node) (getPodAntiAffinityTerms (PodAntiAffinity affinity))
  end.

Definition InterPodAffinityMatches (pod : Pod) (meta : option (list matchingPodAntiAffinityTerm))
    (nodeInfo : option NodeInfo) (vars : variables) : verdict :=
  match NodeInfo_Node nodeInfo with
  | None => Err "node not found"
  | Some node =>
      if negb (satisfiesExistingPodsAntiAffinity pod meta node vars) then Ok (false, [ErrPodAffinityNotMatch])
      else
        match p_affinity pod with
        | Err e => Err e
        | Ok None | Ok (Some (mkAffinity None None)) => Ok (true, [])
        | Ok (Some affinity) =>
            if negb (satisfiesPodsAffinityAntiAffinity pod node affinity) then Ok (false, [ErrPodAffinityNotMatch])
            else Ok (true, [])
        end
  end.
End checker.

(** ** What the terms mean *)

Definition terms_of (field : Affinity → option (list PodAffinityTerm)) (pod : Pod) : list PodAffinityTerm :=
  match p_affinity pod with
  | Ok (Some affinity) => default [] (field affinity)
  | _ => []
  end.

(** A pod that a term of another one is about. *)
Definition selects_pod (owner : Pod) (term : PodAffinityTerm) (pod : Pod) : Prop :=
  match term_Namespaces term with
  | None => p_namespace pod = p_namespace owner
  | Some [] => True
  | Some names => p_namespace pod ∈ names
  end ∧
  ∃ sel, term_LabelSelector term = Some sel ∧ MatchLabels sel ⊆ (p_labels pod : Set_) ∧
    Forall (expression_holds (p_labels pod : Set_)) (MatchExpressions sel).

Section specification.
Context `{!MapRange, !SortSort}.

Definition term_valid (term : PodAffinityTerm) : Prop := ∃ s, LabelSelectorAsSelector (term_LabelSelector term) = Ok s.

Lemma getPodAffinityTerms_spec o : getPodAffinityTerms o = default [] o.
Proof. destruct o as [[|t terms]|]; done. Qed.

Lemma getPodAntiAffinityTerms_spec o : getPodAntiAffinityTerms o = default [] o.
Proof. destruct o as [[|t terms]|]; done. Qed.

Lemma matches_selects owner term s pod :
  LabelSelectorAsSelector (term_LabelSelector term) = Ok s →
  PodMatchesTermsNamespaceAndSelector pod (GetNamespacesFromPodAffinityTerm owner term) s = true ↔ selects_pod owner term pod.
Proof.
  intros Hs. unfold selects_pod. rewrite <-(label_selector_matches _ _ _ Hs).
  unfold PodMatchesTermsNamespaceAndSelector.
  assert (Hns : bool_decide (size (GetNamespacesFromPodAffinityTerm owner term) ≠ 0)
      && bool_decide (p_namespace pod ∉ GetNamespacesFromPodAffinityTerm owner term) = false ↔
    match term_Namespaces term with
    | None => p_namespace pod = p_namespace owner
    | Some [] => True
    | Some names => p_namespace pod ∈ names
    end).
  { rewrite andb_false_iff, !bool_decide_eq_false. unfold GetNamespacesFromPodAffinityTerm.
    destruct (term_Namespaces term) as [[|n names]|].
    - rewrite list_to_set_nil, size_empty. naive_solver.
    - assert (Hne : size (list_to_set (n :: names) : gset string) ≠ 0).
      { intros Hz%size_empty_inv. set_solver. }
      rewrite elem_of_list_to_set. split; [intros [?|Hin]; [done|]|]; [by apply dec_stable|].
      intros Hin. right. intros Hn. by apply Hn.
    - rewrite size_singleton. split; [intros [?|Hin]; [lia|]; apply dec_stable in Hin; set_solver|]. intros ->. right. set_solver. }
  rewrite <-Hns. destruct (_ && _); simpl; [naive_solver|]. destruct (Selector_Matches s _); naive_solver.
Qed.

(** ** What is recorded of the other pods *)

Definition key_at (vars : variables) (m : matchingPodAntiAffinityTerm) : Node * string :=
  (mt_node m, TopologyKey (default zeroTerm (vars !! mt_term m))).

(** The key that the variable of a loop is left with. *)
Definition last_key (terms : list PodAffinityTerm) : string := TopologyKey (default zeroTerm (last terms)).

Definition located (vars : variables) (ms : list matchingPodAntiAffinityTerm) : Prop :=
  Forall (λ m, mt_term m < length vars) ms.

(** The nodes and keys that [ms'] has over [ms] are those of [P]. *)
Definition records (P : Node * string → Prop) (ms ms' : list matchingPodAntiAffinityTerm) (vars vars' : variables) : Prop :=
  vars `prefix_of` vars' ∧ located vars' ms' ∧ ∀ nk, nk ∈ (key_at vars' <$> ms') ↔ nk ∈ (key_at vars <$> ms) ∨ P nk.

Lemma records_weaken P Q ms ms' vars vars' : (∀ nk, P nk ↔ Q nk) → records P ms ms' vars vars' → records Q ms ms' vars vars'.
Proof. intros Heq (Hp & Hl & Hr). split_and!; [done|done|]. intros nk. rewrite Hr. by rewrite Heq. Qed.

Lemma records_trans P Q R ms1 ms2 ms3 v1 v2 v3 :
  (∀ nk, R nk ↔ P nk ∨ Q nk) → records P ms1 ms2 v1 v2 → records Q ms2 ms3 v2 v3 → records R ms1 ms3 v1 v3.
Proof.
  intros Heq (Hp1 & _ & H12) (Hp2 & Hl & H23). split_and!; [by trans v2|done|].
  intros nk. rewrite H23, H12, Heq. naive_solver.
Qed.

(** What was recorded before stays as it was: a loop has a variable of its own. *)
Lemma key_at_prefix vars vars' ms : vars `prefix_of` vars' → located vars ms → key_at vars' <$> ms = key_at vars <$> ms.
Proof.
  intros [k ->] Hloc. apply list_fmap_ext. intros i m Hm. unfold key_at. rewrite lookup_app_l; [done|].
  eapply (Forall_lookup_1 _ _ _ _ Hloc Hm).
Qed.

Lemma located_prefix vars vars' ms : vars `prefix_of` vars' → located vars ms → located vars' ms.
Proof. intros Hp Hloc. eapply Forall_impl; [exact Hloc|]. intros m Hm. apply prefix_length in Hp. simpl in *. lia. Qed.

(** A loop over terms: the location is recorded if some term selects the pod. *)
Lemma terms_loop_spec owner pod node l terms acc vars :
  Forall term_valid terms →
  ∃ k, terms_loop owner pod node l terms acc vars
      = (Ok (acc ++ replicate k (mkMatching l node)), match last terms with Some t => <[l := t]> vars | None => vars end) ∧
    (0 < k ↔ Exists (λ t, selects_pod owner t pod) terms).
Proof.
  intros Hvalid. revert acc vars. induction Hvalid as [|t terms [s Hs] _ IH]; intros acc vars.
  { exists 0. cbn [terms_loop last replicate]. rewrite app_nil_r. split; [done|]. rewrite Exists_nil. lia. }
  cbn [terms_loop]. rewrite Hs. pose proof (matches_selects owner t s pod Hs) as Hsel.
  assert (Hvars : ∀ o : option PodAffinityTerm, match o with Some t' => <[l := t']> (<[l := t]> vars) | None => <[l := t]> vars end
    = <[l := default t o]> vars).
  { intros [t'|]; [apply list_insert_insert_eq|done]. }
  assert (Hlast : last (t :: terms) = Some (default t (last terms))).
  { rewrite last_cons. by destruct (last terms). }
  rewrite Hlast. destruct (PodMatchesTermsNamespaceAndSelector _ _ _) eqn:Hm.
  - destruct (IH (acc ++ [mkMatching l node]) (<[l := t]> vars)) as (k & -> & _). exists (S k). rewrite Hvars.
    split; [by rewrite <-(assoc_L (++))|]. split; [|lia]. intros _. left. by apply Hsel.
  - destruct (IH acc (<[l := t]> vars)) as (k & -> & Hk). exists k. rewrite Hvars. split; [done|].
    rewrite Exists_cons, <-Hsel, <-Hk. naive_solver.
Qed.

Lemma new_terms_loop_spec owner pod node terms acc vars :
  Forall term_valid terms → located vars acc →
  ∃ acc' vars', new_terms_loop owner pod node terms acc vars = (Ok acc', vars') ∧
    records (λ nk, Exists (λ t, selects_pod owner t pod) terms ∧ nk = (node, last_key terms)) acc acc' vars vars'.
Proof.
  intros Hvalid Hloc. unfold new_terms_loop.
  destruct (terms_loop_spec owner pod node (length vars) terms acc (vars ++ [zeroTerm]) Hvalid) as (k & -> & Hk).
  set (vars' := match last terms with Some _ => _ | None => _ end).
  assert (Hvars : vars' = vars ++ [default zeroTerm (last terms)]).
  { subst vars'. destruct (last terms); [|done]. rewrite insert_app_r_alt by done. by rewrite Nat.sub_diag. }
  clearbody vars'. subst vars'. assert (Hp : vars `prefix_of` vars ++ [default zeroTerm (last terms)]) by by apply prefix_app_r.
  eexists _, _. split; [done|]. split_and!; [done| |].
  - apply Forall_app. split; [by eapply located_prefix|]. apply Forall_replicate. simpl. rewrite length_app. simpl. lia.
  - intros nk. rewrite fmap_app, elem_of_app, fmap_replicate, (key_at_prefix vars) by done. f_equiv.
    rewrite elem_of_replicate. unfold key_at. simpl. rewrite lookup_app_r, Nat.sub_diag by done. simpl.
    rewrite <-Hk. unfold last_key. split; intros []; split; (done || lia).
Qed.

(** A pod whose affinity can be read. *)
Definition readable (pod : Pod) : Prop :=
  (∃ a, p_affinity pod = Ok a) ∧ Forall term_valid (terms_of PodAffinity pod) ∧ Forall term_valid (terms_of PodAntiAffinity pod).

(** What a pod on a node adds, with [owner] as in [terms_loop]. *)
Definition repels (owner e pod : Pod) (node : Node) (nk : Node * string) : Prop :=
  Exists (λ t, selects_pod owner t pod) (terms_of PodAntiAffinity e) ∧ nk = (node, last_key (terms_of PodAntiAffinity e)).

Lemma records_nothing (P : Node * string → Prop) ms vars : (∀ nk, ¬ P nk) → located vars ms → records P ms ms vars vars.
Proof. intros HP Hl. split_and!; [done|done|]. naive_solver. Qed.

Lemma located_nil vars : located vars [].
Proof. constructor. Qed.

Lemma node_pods_loop_spec pod node es acc vars :
  Forall readable es → located vars acc →
  ∃ acc' vars', node_pods_loop pod node es acc vars = (Ok acc', vars') ∧
    records (λ nk, ∃ e, e ∈ es ∧ repels pod e pod node nk) acc acc' vars vars'.
Proof.
  intros Hes. revert acc vars. induction Hes as [|e es ([a Ha] & _ & Hterms) _ IH]; intros acc vars Hloc.
  { exists acc, vars. split; [done|]. apply records_nothing; [set_solver|done]. }
  cbn [node_pods_loop]. rewrite Ha. unfold repels. unfold terms_of in Hterms. rewrite Ha in Hterms. destruct a as [aff|].
  - rewrite getPodAntiAffinityTerms_spec.
    destruct (new_terms_loop_spec pod pod node _ acc vars Hterms Hloc) as (acc1 & vars1 & -> & Hr1).
    destruct (IH acc1 vars1 (proj1 (proj2 Hr1))) as (acc2 & vars2 & -> & Hr2). exists acc2, vars2. split; [done|].
    eapply records_trans; [|exact Hr1|exact Hr2]. intros nk. unfold repels. setoid_rewrite elem_of_cons.
    assert (He : terms_of PodAntiAffinity e = default [] (PodAntiAffinity aff)) by (unfold terms_of; by rewrite Ha).
    rewrite <-He. naive_solver.
  - destruct (IH acc vars Hloc) as (acc2 & vars2 & -> & Hr2). exists acc2, vars2. split; [done|].
    eapply records_weaken; [|exact Hr2]. intros nk. unfold repels. setoid_rewrite elem_of_cons.
    assert (He : terms_of PodAntiAffinity e = []) by (unfold terms_of; by rewrite Ha).
    split; [naive_solver|]. intros (e' & [->|Hin] & Hex & Hnk); [|by eauto]. rewrite He in Hex. by apply Exists_nil in Hex.
Qed.

Lemma process_nodes_spec pod infos acc vars :
  Forall (λ info, is_Some (ni_node info) ∧ Forall readable (ni_podsWithAffinity info)) infos → located vars acc →
  ∃ acc' vars', process_nodes pod infos acc None vars = (acc', None, vars') ∧
    records (λ nk, ∃ info node e, info ∈ infos ∧ ni_node info = Some node ∧ e ∈ ni_podsWithAffinity info ∧
               repels pod e pod node nk) acc acc' vars vars'.
Proof.
  intros Hinfos. revert acc vars. induction Hinfos as [|info infos [[node Hnode] Hes] _ IH]; intros acc vars Hloc.
  { exists acc, vars. split; [done|]. apply records_nothing; [set_solver|done]. }
  cbn [process_nodes]. unfold processNode. rewrite Hnode.
  destruct (node_pods_loop_spec pod node _ [] vars Hes (located_nil vars)) as (acc1 & vars1 & Heq1 & Hp1 & Hl1 & Hr1).
  rewrite Heq1.
  assert (Hr : records (λ nk, ∃ e, e ∈ ni_podsWithAffinity info ∧ repels pod e pod node nk) acc (acc ++ acc1) vars vars1).
  { split_and!; [done|apply Forall_app; split; [by eapply located_prefix|done]|].
    intros nk. rewrite fmap_app, elem_of_app, (key_at_prefix vars), Hr1 by done. set_solver. }
  destruct (IH (acc ++ acc1) vars1 (proj1 (proj2 Hr))) as (acc2 & vars2 & -> & Hr2). exists acc2, vars2. split; [done|].
  eapply records_trans; [|exact Hr|exact Hr2]. intros nk. setoid_rewrite elem_of_cons. naive_solver.
Qed.

(** ** The checker *)

Context (nodes : gmap string Node) (failureDomains : list string).

Notation same_domain n1 n2 key := (NodesHaveSameTopologyKey failureDomains n1 n2 key = true).

Lemma checker_pods_loop_spec pod es acc vars :
  Forall readable es → (∀ e, e ∈ es → is_Some (nodes !! p_nodeName e)) → located vars acc →
  ∃ acc' vars', checker_pods_loop nodes pod es acc vars = (Ok acc', vars') ∧
    records (λ nk, ∃ e node, e ∈ es ∧ nodes !! p_nodeName e = Some node ∧ repels e e pod node nk) acc acc' vars vars'.
Proof.
  intros Hes Hnodes. revert acc vars. induction Hes as [|e es ([a Ha] & _ & Hterms) _ IH]; intros acc vars Hloc.
  { exists acc, vars. split; [done|]. apply records_nothing; [set_solver|done]. }
  destruct (Hnodes e) as [node Hnode]; [set_solver|]. specialize (IH (λ e' He', Hnodes e' (list_elem_of_further _ _ _ He'))).
  cbn [checker_pods_loop]. rewrite Ha. assert (Hof : terms_of PodAntiAffinity e = default [] (a ≫= PodAntiAffinity)).
  { unfold terms_of. rewrite Ha. by destruct a. }
  rewrite Hof in Hterms. destruct (a ≫= PodAntiAffinity) as [terms|] eqn:Hterms_of.
  - destruct a as [[aff anti]|]; [|done]. simpl in Hterms_of. subst anti. unfold GetNodeInfo. rewrite Hnode.
    rewrite getPodAntiAffinityTerms_spec. change (default [] (Some terms)) with terms in *.
    destruct (new_terms_loop_spec e pod node terms acc vars Hterms Hloc) as (acc1 & vars1 & -> & Hr1).
    destruct (IH acc1 vars1 (proj1 (proj2 Hr1))) as (acc2 & vars2 & -> & Hr2). exists acc2, vars2. split; [done|].
    eapply records_trans; [|exact Hr1|exact Hr2]. intros nk. setoid_rewrite elem_of_cons. unfold repels at 1.
    simpl in Hof. split; [|intros [Hnew|]; [|naive_solver]; exists e, node; unfold repels; rewrite Hof; naive_solver].
    intros (e' & node' & [->|Hin] & Hn' & Hrep); [left|right; by eauto]. unfold repels in Hrep. rewrite Hof in Hrep. naive_solver.
  - destruct (IH acc vars Hloc) as (acc2 & vars2 & Heq & Hr2). exists acc2, vars2.
    split; [destruct a as [[aff [anti|]]|]; done|].
    eapply records_weaken; [|exact Hr2]. intros nk. setoid_rewrite elem_of_cons. split; [naive_solver|].
    intros (e' & node' & [->|Hin] & Hn' & Hrep); [|by eauto]. unfold repels in Hrep. rewrite Hof in Hrep.
    destruct Hrep as [Hex _]. by apply Exists_nil in Hex.
Qed.

(** The search for a pod that a term of the pod to be placed selects. *)
Lemma any_pod_loop_spec pod term s node es found :
  LabelSelectorAsSelector (term_LabelSelector term) = Ok s → (∀ e, e ∈ es → is_Some (nodes !! p_nodeName e)) →
  ∃ near any, any_pod_loop nodes failureDomains (GetNamespacesFromPodAffinityTerm pod term) s node (TopologyKey term) es found
      = Ok (near, any) ∧
    (near = true ↔ ∃ e en, e ∈ es ∧ selects_pod pod term e ∧ nodes !! p_nodeName e = Some en ∧ same_domain node en (TopologyKey term)) ∧
    (near = false → any = true ↔ found = true ∨ ∃ e, e ∈ es ∧ selects_pod pod term e).
Proof.
  intros Hs. revert found. induction es as [|e es IH]; intros found Hnodes.
  { exists false, found. split; [done|]. split; [|set_solver]. split; [done|]. intros (e & en & He & _). set_solver. }
  cbn [any_pod_loop]. destruct (Hnodes e) as [en Hen]; [set_solver|].
  assert (Hnodes' : ∀ e', e' ∈ es → is_Some (nodes !! p_nodeName e')) by set_solver.
  pose proof (matches_selects pod term s e Hs) as Hsel. destruct (PodMatchesTermsNamespaceAndSelector e _ s).
  - unfold GetNodeInfo. rewrite Hen. simpl. destruct (NodesHaveSameTopologyKey _ node en _) eqn:Hdom.
    + exists true, true. split; [done|]. split; [|done]. split; [|done]. intros _. exists e, en. set_solver.
    + destruct (IH true Hnodes') as (near & any & -> & Hnear & Hany). exists near, any. split; [done|]. split.
      * rewrite Hnear. setoid_rewrite elem_of_cons. split; [naive_solver|].
        intros (e' & en' & [->|He'] & Hse & Hn & Hd); [congruence|by eauto 6].
      * intros Hf. rewrite (Hany Hf). setoid_rewrite elem_of_cons. naive_solver.
  - destruct (IH found Hnodes') as (near & any & -> & Hnear & Hany). exists near, any. split; [done|]. split.
    + rewrite Hnear. setoid_rewrite elem_of_cons. naive_solver.
    + intros Hf. rewrite (Hany Hf). setoid_rewrite elem_of_cons. naive_solver.
Qed.

(** ** What the check decides *)

(** The terms of the pods that run, and of the pod to be placed, allow it on the node.
    The first of the pods that ask for each other's company has nobody to join. *)
Record placeable (allPods : list Pod) (pod : Pod) (node : Node) : Prop := {
  pl_existing e en t :
    e ∈ allPods → nodes !! p_nodeName e = Some en → t ∈ terms_of PodAntiAffinity e → selects_pod e t pod →
    ¬ same_domain node en (TopologyKey t);
  pl_anti e en t :
    e ∈ allPods → nodes !! p_nodeName e = Some en → t ∈ terms_of PodAntiAffinity pod → selects_pod pod t e →
    ¬ same_domain node en (TopologyKey t);
  pl_affinity t :
    t ∈ terms_of PodAffinity pod →
    (∃ e en, e ∈ allPods ∧ selects_pod pod t e ∧ nodes !! p_nodeName e = Some en ∧ same_domain node en (TopologyKey t)) ∨
    ((∀ e, e ∈ allPods → ¬ selects_pod pod t e) ∧ selects_pod pod t pod)
}.

(** The anti-affinity terms of a pod have one topology key. *)
Definition uniform_keys (e : Pod) : Prop :=
  ∀ t t', t ∈ terms_of PodAntiAffinity e → t' ∈ terms_of PodAntiAffinity e → TopologyKey t = TopologyKey t'.

Lemma last_key_uniform e t : uniform_keys e → t ∈ terms_of PodAntiAffinity e → last_key (terms_of PodAntiAffinity e) = TopologyKey t.
Proof.
  intros Hu Ht. unfold last_key. destruct (last (terms_of PodAntiAffinity e)) as [t'|] eqn:Hl.
  - apply Hu; [|done]. by apply last_Some_elem_of.
  - apply last_None in Hl. rewrite Hl in Ht. by apply not_elem_of_nil in Ht.
Qed.

(** The metadata were computed from a snapshot that has the pods of the lister, and no
    term of another namespace relies on its namespace being the default. *)
Record metadata_of (pod : Pod) (allPods : list Pod) (ms : list matchingPodAntiAffinityTerm) (vars : variables) : Prop := {
  md_computed : ∃ order infos vars0, order ≡ₚ seq 0 (size infos) ∧ metadata_terms order pod infos vars0 = (Some ms, vars) ∧
    (∀ name info, infos !! name = Some info → ∃ node, ni_node info = Some node ∧
       ∀ e, e ∈ ni_podsWithAffinity info → e ∈ allPods ∧ nodes !! p_nodeName e = Some node) ∧
    (∀ e, e ∈ allPods → terms_of PodAntiAffinity e ≠ [] → ∃ name info, infos !! name = Some info ∧ e ∈ ni_podsWithAffinity info);
  md_namespaces e t : e ∈ allPods → t ∈ terms_of PodAntiAffinity e → term_Namespaces t = None → p_namespace e = p_namespace pod
}.

Lemma selects_pod_owner o1 o2 t pod :
  (term_Namespaces t = None → p_namespace o1 = p_namespace o2) → selects_pod o1 t pod ↔ selects_pod o2 t pod.
Proof. intros Hns. unfold selects_pod. destruct (term_Namespaces t) as [[|n ns]|]; [done|done|]. by rewrite Hns. Qed.

Lemma map_range_indices {A} (m : gmap string A) order info :
  order ≡ₚ seq 0 (size m) → info ∈ omap (λ i, (snd <$> map_range m) !! i) order ↔ ∃ name, m !! name = Some info.
Proof.
  intros Hperm. rewrite list_elem_of_omap. setoid_rewrite Hperm.
  assert (Hlen : length (snd <$> map_range m) = size m).
  { rewrite length_fmap, (Permutation_length (map_range_perm m)). apply length_map_to_list. }
  split.
  - intros (i & _ & Hi). apply list_elem_of_lookup_2, list_elem_of_fmap in Hi as ([name x] & -> & Hin).
    exists name. by apply elem_of_map_range.
  - intros (name & Hn). apply elem_of_map_range in Hn. apply (list_elem_of_fmap_2 snd) in Hn.
    apply list_elem_of_lookup_1 in Hn as (i & Hi). exists i. split; [|done]. apply elem_of_seq.
    apply lookup_lt_Some in Hi. lia.
Qed.

(** What the recorded terms of the others forbid is what their terms mean. *)
Lemma recorded_placeable (owner : Pod → Pod) allPods pod node ms vars vars0 :
  Forall uniform_keys allPods →
  (∀ e t, e ∈ allPods → t ∈ terms_of PodAntiAffinity e → term_Namespaces t = None → p_namespace (owner e) = p_namespace e) →
  records (λ nk, ∃ e en, e ∈ allPods ∧ nodes !! p_nodeName e = Some en ∧ repels (owner e) e pod en nk) [] ms vars0 vars →
  negb (existsb (λ m, NodesHaveSameTopologyKey failureDomains node (mt_node m)
                        (TopologyKey (default zeroTerm (vars !! mt_term m)))) ms) = true ↔
  ∀ e en t, e ∈ allPods → nodes !! p_nodeName e = Some en → t ∈ terms_of PodAntiAffinity e → selects_pod e t pod →
    ¬ same_domain node en (TopologyKey t).
Proof.
  intros Hu Hns (_ & _ & Hrec). rewrite Forall_forall in Hu. rewrite negb_true_iff, <-not_true_iff_false, existsb_exists.
  assert (Hin : ∀ n k, (n, k) ∈ (key_at vars <$> ms) ↔
    ∃ e t, e ∈ allPods ∧ nodes !! p_nodeName e = Some n ∧ t ∈ terms_of PodAntiAffinity e ∧ selects_pod e t pod ∧ TopologyKey t = k).
  { intros n k. rewrite Hrec. simpl. split.
    - intros [Hnil|(e & en & He & Hen & Hex & [= -> ->])]; [by apply not_elem_of_nil in Hnil|].
      apply Exists_exists in Hex as (t & Ht & Hsel). exists e, t. rewrite (last_key_uniform e t) by auto.
      split_and!; try done. by apply (selects_pod_owner (owner e) e); [eauto|].
    - intros (e & t & He & Hen & Ht & Hsel & <-). right. exists e, n. split_and!; [done|done|]. split.
      + apply Exists_exists. exists t. split; [done|]. by apply (selects_pod_owner (owner e) e); [eauto|].
      + by rewrite (last_key_uniform e t) by auto. }
  split.
  - intros Hno e en t He Hen Ht Hsel Hdom. apply Hno.
    assert (Hk : (en, TopologyKey t) ∈ (key_at vars <$> ms)) by (apply Hin; by exists e, t).
    apply list_elem_of_fmap in Hk as (m & [= -> Hkey] & Hm). exists m. split; [by apply list_elem_of_In|].
    by rewrite <-Hkey.
  - intros Hall (m & Hm%list_elem_of_In & Hdom). apply (list_elem_of_fmap_2 (key_at vars)) in Hm. unfold key_at in Hm at 1.
    apply Hin in Hm as (e & t & He & Hen & Ht & Hsel & Hkey). apply (Hall e _ t He Hen Ht Hsel). by rewrite Hkey.
Qed.

Lemma satisfies_existing_spec allPods pod meta node vars :
  Forall readable allPods → (∀ e, e ∈ allPods → is_Some (nodes !! p_nodeName e)) → Forall uniform_keys allPods →
  (∀ ms, meta = Some ms → metadata_of pod allPods ms vars) →
  satisfiesExistingPodsAntiAffinity nodes (Ok allPods) failureDomains pod meta node vars = true ↔
  ∀ e en t, e ∈ allPods → nodes !! p_nodeName e = Some en → t ∈ terms_of PodAntiAffinity e → selects_pod e t pod →
    ¬ same_domain node en (TopologyKey t).
Proof.
  intros Hread Hnodes Hu Hmeta. unfold satisfiesExistingPodsAntiAffinity. destruct meta as [ms|].
  - destruct (Hmeta ms eq_refl) as [(order & infos & vars0 & Horder & Hcomp & Hsound & Hcomplete) Hns].
    apply (recorded_placeable (λ _, pod) allPods pod node ms vars vars0 Hu); [intros e t He Ht Hn; by rewrite (Hns e t He Ht Hn)|].
    revert Hcomp. unfold metadata_terms, getMatchingAntiAffinityTerms.
    assert (Hinfos : Forall (λ info, is_Some (ni_node info) ∧ Forall readable (ni_podsWithAffinity info))
      (omap (λ i, (snd <$> map_range infos) !! i) order)).
    { apply Forall_forall. intros info Hi. apply (map_range_indices infos order info Horder) in Hi as (name & Hi).
      destruct (Hsound name info Hi) as (n & Hn & Hes). split; [by eexists|]. apply Forall_forall. intros e He.
      rewrite Forall_forall in Hread. by apply Hread, Hes. }
    destruct (process_nodes_spec pod _ [] vars0 Hinfos (located_nil vars0)) as (acc & vars' & -> & Hrec).
    intros [= <- <-]. eapply records_weaken; [|exact Hrec]. intros nk. split.
    + intros (info & n & e & Hi & Hn & He & Hrep). apply (map_range_indices infos order info Horder) in Hi as (name & Hi).
      destruct (Hsound name info Hi) as (n' & Hn' & Hes). assert (n' = n) as -> by congruence. destruct (Hes e He). by exists e, n.
    + intros (e & n & He & Hn & Hrep). destruct (Hcomplete e He) as (name & info & Hi & Hein).
      { destruct Hrep as [Hex _]. intros Hnil. rewrite Hnil in Hex. by apply Exists_nil in Hex. }
      destruct (Hsound name info Hi) as (n' & Hn' & Hes). destruct (Hes e Hein) as [_ Hn2].
      assert (n' = n) as -> by congruence. exists info, n, e. split_and!; [|done|done|done].
      apply (map_range_indices infos order info Horder). by exists name.
  - unfold checker_getMatchingAntiAffinityTerms.
    destruct (checker_pods_loop_spec pod allPods [] vars Hread Hnodes (located_nil vars)) as (acc & vars' & -> & Hrec).
    by apply (recorded_placeable (λ e, e) allPods pod node acc vars' vars Hu).
Qed.

(** A pod that the term selects runs in the domain of the node. *)
Definition near (allPods : list Pod) (pod : Pod) (node : Node) (t : PodAffinityTerm) : Prop :=
  ∃ e en, e ∈ allPods ∧ selects_pod pod t e ∧ nodes !! p_nodeName e = Some en ∧ same_domain node en (TopologyKey t).

Lemma affinity_term_spec allPods pod node t :
  term_valid t → (∀ e, e ∈ allPods → is_Some (nodes !! p_nodeName e)) →
  affinity_term_ok nodes failureDomains pod allPods node t = true ↔
  near allPods pod node t ∨ ((∀ e, e ∈ allPods → ¬ selects_pod pod t e) ∧ selects_pod pod t pod).
Proof.
  intros [s Hs] Hnodes. unfold affinity_term_ok, anyPodMatchesPodAffinityTerm. rewrite Hs.
  destruct (any_pod_loop_spec pod t s node allPods false Hs Hnodes) as (found & any & -> & Hnear & Hany).
  fold (near allPods pod node t) in Hnear. destruct found; [split; [left; by apply Hnear|done]|].
  assert (Hfar : ¬ near allPods pod node t) by (intros Hn%Hnear; done). specialize (Hany eq_refl).
  destruct any.
  - split; [done|]. intros [?|[Hno _]]; [done|]. destruct (proj1 Hany eq_refl) as [?|(e & He & Hsel)]; [done|]. by destruct (Hno e He).
  - rewrite (matches_selects pod t s pod Hs). split.
    + intros Hself. right. split; [|done]. intros e He Hsel. assert (false = true) by (apply Hany; right; by exists e). done.
    + by intros [?|[_ ?]].
Qed.

Lemma anti_affinity_term_spec allPods pod node t :
  term_valid t → (∀ e, e ∈ allPods → is_Some (nodes !! p_nodeName e)) →
  anti_affinity_term_ok nodes failureDomains pod allPods node t = true ↔ ¬ near allPods pod node t.
Proof.
  intros [s Hs] Hnodes. unfold anti_affinity_term_ok, anyPodMatchesPodAffinityTerm. rewrite Hs.
  destruct (any_pod_loop_spec pod t s node allPods false Hs Hnodes) as (found & any & -> & Hnear & _).
  fold (near allPods pod node t) in Hnear. rewrite <-Hnear. by destruct found.
Qed.

Lemma satisfies_own_spec allPods pod node affinity :
  p_affinity pod = Ok (Some affinity) → readable pod → (∀ e, e ∈ allPods → is_Some (nodes !! p_nodeName e)) →
  satisfiesPodsAffinityAntiAffinity nodes (Ok allPods) failureDomains pod node affinity = true ↔
  (∀ t, t ∈ terms_of PodAffinity pod →
    near allPods pod node t ∨ ((∀ e, e ∈ allPods → ¬ selects_pod pod t e) ∧ selects_pod pod t pod)) ∧
  (∀ t, t ∈ terms_of PodAntiAffinity pod → ¬ near allPods pod node t).
Proof.
  intros Ha (_ & Haff & Hanti) Hnodes. unfold satisfiesPodsAffinityAntiAffinity.
  rewrite getPodAffinityTerms_spec, getPodAntiAffinityTerms_spec.
  assert (Hof : ∀ field, terms_of field pod = default [] (field affinity)) by (intros field; unfold terms_of; by rewrite Ha).
  rewrite <-!Hof. rewrite Forall_forall in Haff. rewrite Forall_forall in Hanti.
  assert (Hand : ∀ b1 b2 : bool, (if negb b1 then false else b2) = true ↔ b1 = true ∧ b2 = true) by (intros [] []; naive_solver).
  rewrite Hand, !forallb_forall. setoid_rewrite <-list_elem_of_In.
  split; intros [H1 H2]; split; intros t Ht.
  - apply affinity_term_spec; auto.
  - apply anti_affinity_term_spec; auto.
  - apply affinity_term_spec; auto.
  - apply anti_affinity_term_spec; auto.
Qed.

End specification.

(** ** Two nodes of one zone, and a database that keeps the web away *)

#[local] Existing Instance canonical_range.
#[local] Existing Instance canonical_sort.

Definition zone_node (name zone : string) : Node :=
  mkNode name {[ "host" := name; "zone" := zone ]} ∅ (Ok []) [].

Definition zone_nodes : gmap string Node := {[ "n1" := zone_node "n1" "a"; "n2" := zone_node "n2" "a" ]}.

Definition app_term (app key : string) : PodAffinityTerm :=
  mkPodAffinityTerm (Some (mkLabelSelector {[ "app" := app ]} [])) None key.

Definition app_pod (namespace name app nodeName : string) (anti : list PodAffinityTerm) : Pod :=
  mkPod namespace name {[ "app" := app ]} nodeName [] [] [] ∅ None (Ok (Some (mkAffinity None (Some anti)))) (Ok []).

Definition zone_info (name : string) (pods : list Pod) : NodeInfo :=
  mkNodeInfo (Some (zone_node name "a")) pods pods 0 0 0 110 [] None "" "" 1.

Definition zone_infos (pods : list Pod) : gmap string NodeInfo :=
  {[ "n1" := zone_info "n1" pods; "n2" := zone_info "n2" [] ]}.

(** The verdict on placing a pod on the second node beside pods on the first. *)
Definition zone_verdict (with_metadata : bool) (running : list Pod) (pod : Pod) : verdict :=
  let '(meta, vars) := if with_metadata then metadata_terms [0; 1] pod (zone_infos running) [] else (None, []) in
  InterPodAffinityMatches zone_nodes (Ok running) ["zone"] pod meta (Some (zone_info "n2" [])) vars.

Definition db : Pod := app_pod "prod" "db" "db" "n1" [app_term "web" "zone"].
Definition web : Pod := app_pod "prod" "web" "web" "" [].

Lemma app_selects ns name app app' node anti key owner :
  p_namespace owner = ns → selects_pod owner (app_term app' key) (app_pod ns name app node anti) ↔ app' = app.
Proof.
  intros Hns. split.
  - intros (_ & sel & [= <-] & Hsub & _). simpl in Hsub. rewrite map_singleton_subseteq_l, lookup_singleton_Some in Hsub. naive_solver.
  - intros ->. split; [done|]. eexists. split; [done|]. split; [done|constructor].
Qed.

Lemma db_snapshot :
  (∀ name info, zone_infos [db] !! name = Some info → ∃ node, ni_node info = Some node ∧
     ∀ e, e ∈ ni_podsWithAffinity info → e ∈ [db] ∧ zone_nodes !! p_nodeName e = Some node) ∧
  (∀ e, e ∈ [db] → terms_of PodAntiAffinity e ≠ [] → ∃ name info, zone_infos [db] !! name = Some info ∧ e ∈ ni_podsWithAffinity info).
Proof.
  split.
  - intros name info. unfold zone_infos. rewrite lookup_insert_Some, lookup_singleton_Some.
    intros [[<- <-]|[_ [<- <-]]]; (eexists; split; [reflexivity|]); [|intros e He; by apply not_elem_of_nil in He].
    intros e ->%list_elem_of_singleton. split; [by left|reflexivity].
  - intros e ->%list_elem_of_singleton _. exists "n1", (zone_info "n1" [db]). split; [reflexivity|by left].
Qed.


(** The database also keeps away from others of its rack. *)
Definition db_rack : Pod := app_pod "prod" "db" "db" "n1" [app_term "web" "zone"; app_term "db" "rack"].

(** C19. A pod is placed in a zone from which another pod keeps it away: the database on
    the first node does not want the web in its zone, but it has a second term with
    another key, and the check reads the key of the last term for all of them.  With the
    first term alone the pod is rejected. *)
Theorem anti_affinity_wrong_key :
  zone_verdict true [db_rack] web = Ok (true, []) ∧ zone_verdict false [db_rack] web = Ok (true, []) ∧
  ¬ placeable zone_nodes ["zone"] [db_rack] web (zone_node "n2" "a") ∧
  zone_verdict true [db] web = Ok (false, [ErrPodAffinityNotMatch]).
Proof.
  split; [vm_compute; reflexivity|]. split; [vm_compute; reflexivity|]. split; [|vm_compute; reflexivity].
  intros [Hex _ _]. apply (Hex db_rack (zone_node "n1" "a") (app_term "web" "zone")); [by left|done|by left| |done].
  by apply app_selects.
Qed.

(** A term without namespaces is about the namespace of its own pod, but the metadata
    are computed with that of the pod to be placed: a pod of another namespace is
    rejected with metadata and accepted without. *)
Lemma metadata_wrong_namespace :
  let pod := app_pod "dev" "web" "web" "" [] in
  zone_verdict true [db] pod = Ok (false, [ErrPodAffinityNotMatch]) ∧ zone_verdict false [db] pod = Ok (true, []).
Proof. split; vm_compute; reflexivity. Qed.
