(* ===== verification/GenericScheduler.v ===== *)
(** * The generic scheduler

    Models plugin/pkg/scheduler/generic_scheduler.go, the scheduling step of
    scheduler.go and pkg/util/workqueue/parallelizer.go: filtering the nodes
    with the predicates, scoring them, choosing a host in turn among the best,
    and assuming the pod there.

    Predicates and priority functions are functions of the pod, the metadata and
    the [NodeInfo], whose totals are read in the heap of the cache; extenders are
    services outside of the program and therefore arbitrary functions.

    No lock is held between the snapshot of the cache and the assumption of the pod:
    the entries of the snapshot share their totals with the cache, which other
    goroutines change meanwhile.  Each call of a predicate or of a priority function
    therefore reads a heap of its own, any heap at all, in which each total is what
    the call found; and the pod is assumed in whatever the cache is by then. *)

From S2P Require Import Prelude Labels Selector ClientStore NodeInfo SchedulerCache Predicates.

(** ** Parallelize

    A closed channel of pieces and a number of goroutines that take pieces from
    it until it is empty. *)

Inductive worker := Idle | Busy (piece : nat) | Exited.

Record pool := mkPool {
  toProcess : list nat;
  pool_workers : list worker;
  performed : list nat
}.

Definition Parallelize (workers pieces : nat) : pool :=
  let workers' := if decide (pieces < workers) then pieces else workers in
  mkPool (seq 0 pieces) (replicate workers' Idle) [].

Inductive pool_step : pool → pool → Prop :=
  | pool_take i piece rest ws done :
      ws !! i = Some Idle →
      pool_step (mkPool (piece :: rest) ws done) (mkPool rest (<[i := Busy piece]> ws) done)
  | pool_perform i piece chan ws done :
      ws !! i = Some (Busy piece) →
      pool_step (mkPool chan ws done) (mkPool chan (<[i := Idle]> ws) (done ++ [piece]))
  | pool_exit i ws done :
      ws !! i = Some Idle →
      pool_step (mkPool [] ws done) (mkPool [] (<[i := Exited]> ws) done).

(** [wg.Wait] returns when every goroutine has called [wg.Done]. *)
Definition pool_finished (s : pool) : Prop := Forall (λ w, w = Exited) (pool_workers s).

(** ** Filtering *)

Notation FailedPredicateMap := (gmap string (list reason)).

Inductive schedule_error :=
  | ListError (e : string)
  | ErrNoNodesAvailable
  | PredicateErrors (errs : list string)
  | ExtenderError (e : string)
  | FitError (pod : Pod) (failed : FailedPredicateMap)
  | NodeNotFound
  | PriorityErrors (errs : list string)
  | EmptyPriorityList.

Record HostPriority := mkHostPriority { Host : string; Score : Z }.

#[export] Instance HostPriority_eq_dec : EqDecision HostPriority.
Proof. solve_decision. Defined.

Record SchedulerExtender := mkExtender {
  ext_Filter : Pod → list Node → result string (list Node * gmap string string);
  ext_Prioritize : Pod → list Node → result string (list HostPriority * Z)
}.

(** What one call of checkNode contributes. *)
Inductive check :=
  | CheckError (e : string)
  | CheckFits (node : Node)
  | CheckFails (nodeName : string) (failed : list reason).

(** What the calls read: the predicates by the index of the node and their place in
    the iteration over the predicates, the functions for one node by the index of the
    node and of the configuration, those for all nodes by that of the configuration. *)
Record reads := mkReads {
  at_check : nat → nat → heap;
  at_map : nat → nat → heap;
  at_config : nat → heap
}.

(** Nothing changes. *)
Definition steady (h : heap) : reads := mkReads (λ _ _, h) (λ _ _, h) (λ _, h).

Section filtering.
Context `{!MapRange}.
Implicit Types (hs : nat → heap) (nodeNameToInfo : gmap string NodeInfo).

Fixpoint predicates_loop (pod : Pod) (meta : option predicateMetadata) (hs : nat → heap)
    (info : option NodeInfo) (l : list (string * FitPredicate)) (failed : list reason)
    : result string (bool * list reason) :=
  match l with
  | [] => Ok (bool_decide (failed = []), failed)
  | (_, predicate) :: l' =>
      match predicate pod meta (hs 0) info with
      | Err e => Err ("SchedulerPredicates failed due to " +:+ e +:+ ", which is unexpected.")
      | Ok (fit, reasons) =>
          predicates_loop pod meta (λ k, hs (S k)) info l' (if fit then failed else failed ++ reasons)
      end
  end.

Definition podFitsOnNode (pod : Pod) (meta : option predicateMetadata) (hs : nat → heap)
    (info : option NodeInfo) (predicateFuncs : gmap string FitPredicate)
    : result string (bool * list reason) :=
  predicates_loop pod meta hs info (map_range predicateFuncs) [].

Definition checkNode (pod : Pod) (meta : option predicateMetadata) (hs : nat → heap)
    (nodeNameToInfo : gmap string NodeInfo) (predicateFuncs : gmap string FitPredicate)
    (node : Node) : check :=
  match podFitsOnNode pod meta hs (nodeNameToInfo !! n_name node) predicateFuncs with
  | Err e => CheckError e
  | Ok (true, _) => CheckFits node
  | Ok (false, failed) => CheckFails (n_name node) failed
  end.

Definition check_errors (l : list check) : list string :=
  omap (λ x, match x with CheckError e => Some e | _ => None end) l.
Definition check_filtered (l : list check) : list Node :=
  omap (λ x, match x with CheckFits node => Some node | _ => None end) l.
Definition check_failed (l : list check) : FailedPredicateMap :=
  foldl (λ m x, match x with CheckFails name failed => <[name := failed]> m | _ => m end) ∅ l.

(** [failedPredicateMap[name] = append(failedPredicateMap[name], reason(msg))] *)
Definition add_failure (failed : FailedPredicateMap) (e : string * string) : FailedPredicateMap :=
  <[e.1 := default [] (failed !! e.1) ++ [FailureReason e.2]]> failed.

Fixpoint extenders_loop (pod : Pod) (extenders : list SchedulerExtender) (filtered : list Node)
    (failed : FailedPredicateMap) : result schedule_error (list Node * FailedPredicateMap) :=
  match extenders with
  | [] => Ok (filtered, failed)
  | extender :: rest =>
      match ext_Filter extender pod filtered with
      | Err e => Err (ExtenderError e)
      | Ok (filteredList, failedMap) =>
          let failed' := foldl add_failure failed (map_range failedMap) in
          match filteredList with
          | [] => Ok ([], failed')
          | _ => extenders_loop pod rest filteredList failed'
          end
      end
  end.

(** [order] is the order in which the calls of checkNode, made by Parallelize,
    have their effect: each of them changes the shared variables once, under a
    lock or by one atomic addition. *)
Definition findNodesThatFit (order : list nat) (rd : reads) (pod : Pod)
    (nodeNameToInfo : gmap string NodeInfo) (nodes : list Node)
    (predicateFuncs : gmap string FitPredicate) (extenders : list SchedulerExtender)
    (metadataProducer : Pod → gmap string NodeInfo → option predicateMetadata)
    : result schedule_error (list Node * FailedPredicateMap) :=
  fm !<- (if decide (size predicateFuncs = 0) then Ok (nodes, ∅)
          else
            let meta := metadataProducer pod nodeNameToInfo in
            let checks := omap (λ i, checkNode pod meta (at_check rd i) nodeNameToInfo predicateFuncs <$> nodes !! i)
                            order in
            match check_errors checks with
            | [] => Ok (check_filtered checks, check_failed checks)
            | errs => Err (PredicateErrors errs)
            end);
  let '(filtered, failedPredicateMap) := fm in
  match filtered with
  | [] => Ok (filtered, failedPredicateMap)
  | _ => extenders_loop pod extenders filtered failedPredicateMap
  end.

End filtering.

(** ** Scoring *)

Section scoring.
Context {M : Type}.

(** A configuration has a function for all nodes at once, or a function for each
    node and possibly one that revises the scores of all. *)
Inductive PriorityConfig :=
  | FunctionConfig
      (f : Pod → heap → gmap string NodeInfo → list Node → result string (list HostPriority))
      (weight : Z)
  | MapReduceConfig
      (map : Pod → M → heap → option NodeInfo → result string HostPriority)
      (reduce : option (Pod → M → heap → gmap string NodeInfo → list HostPriority →
                        result string (list HostPriority)))
      (weight : Z).

Definition pc_weight (config : PriorityConfig) : Z :=
  match config with
  | FunctionConfig _ w => w
  | MapReduceConfig _ _ w => w
  end.

Definition zeroPriority : HostPriority := mkHostPriority "" 0.

Definition EqualPriorityMap (nodeInfo : option NodeInfo) : result schedule_error HostPriority :=
  match NodeInfo_Node nodeInfo with
  | None => Err NodeNotFound
  | Some node => Ok (mkHostPriority (n_name node) 1)
  end.

Fixpoint equal_priorities (nodeNameToInfo : gmap string NodeInfo) (nodes : list Node)
    : result schedule_error (list HostPriority) :=
  match nodes with
  | [] => Ok []
  | node :: rest =>
      hp !<- EqualPriorityMap (nodeNameToInfo !! n_name node);
      l !<- equal_priorities nodeNameToInfo rest;
      Ok (hp :: l)
  end.

(** processNode: the entries of one node, one for each configuration, and the
    error that ended the loop; the entries not written are zero. *)
Fixpoint process_node (pod : Pod) (meta : M) (hs : nat → heap) (nodeInfo : option NodeInfo)
    (configs : list PriorityConfig) : list HostPriority * option string :=
  match configs with
  | [] => ([], None)
  | FunctionConfig _ _ :: rest =>
      let '(row, err) := process_node pod meta (λ k, hs (S k)) nodeInfo rest in (zeroPriority :: row, err)
  | MapReduceConfig map _ _ :: rest =>
      match map pod meta (hs 0) nodeInfo with
      | Err e => (zeroPriority :: ((λ _, zeroPriority) <$> rest), Some e)
      | Ok hp => let '(row, err) := process_node pod meta (λ k, hs (S k)) nodeInfo rest in (hp :: row, err)
      end
  end.

(** results[i], and the error of the function or of the reduction. *)
Definition config_result (pod : Pod) (meta : M) (h : heap) (nodeNameToInfo : gmap string NodeInfo)
    (nodes : list Node) (rows : list (list HostPriority)) (i : nat) (config : PriorityConfig)
    : list HostPriority * option string :=
  match config with
  | FunctionConfig f _ =>
      match f pod h nodeNameToInfo nodes with
      | Ok l => (l, None)
      | Err e => ([], Some e)
      end
  | MapReduceConfig _ reduce _ =>
      let column := (λ row, default zeroPriority (row !! i)) <$> rows in
      match reduce with
      | None => (column, None)
      | Some reduce =>
          match reduce pod meta h nodeNameToInfo column with
          | Ok l => (l, None)
          | Err e => (column, Some e)
          end
      end
  end.

(** [result[i].Score += results[j][i].Score * weight] for every j. *)
Fixpoint weigh (i : nat) (results : list (list HostPriority * Z)) (score : Z) : outcome Z :=
  match results with
  | [] => Ret score
  | (l, weight) :: rest =>
      match l !! i with
      | None => Panic "index out of range"
      | Some hp => weigh i rest (add64 score (wrap64 (Score hp * weight)))
      end
  end.

Fixpoint summarize (i : nat) (nodes : list Node) (results : list (list HostPriority * Z))
    : outcome (list HostPriority) :=
  match nodes with
  | [] => Ret []
  | node :: rest =>
      score ?<- weigh i results 0;
      l ?<- summarize (S i) rest results;
      Ret (mkHostPriority (n_name node) score :: l)
  end.

(** [combinedScores[host] += score * weight] *)
Definition combine_score (weight : Z) (combined : gmap string Z) (hp : HostPriority) : gmap string Z :=
  <[Host hp := add64 (default 0%Z (combined !! Host hp)) (wrap64 (Score hp * weight))]> combined.

(** The goroutines of the extenders add their scores under a lock; errors are
    ignored. *)
Fixpoint combinedScores (pod : Pod) (nodes : list Node) (extenders : list SchedulerExtender)
    (combined : gmap string Z) : gmap string Z :=
  match extenders with
  | [] => combined
  | ext :: rest =>
      combinedScores pod nodes rest
        (match ext_Prioritize ext pod nodes with
         | Err _ => combined
         | Ok (prioritizedList, weight) => foldl (combine_score weight) combined prioritizedList
         end)
  end.

Definition add_combined (combined : gmap string Z) (hp : HostPriority) : HostPriority :=
  mkHostPriority (Host hp) (add64 (Score hp) (default 0%Z (combined !! Host hp))).

(** The scores when there is a configuration or an extender.  The errors of an
    aggregate are listed by node and configuration; the program lists them as
    they occur. *)
Definition weighted_priorities (rd : reads) (pod : Pod) (nodeNameToInfo : gmap string NodeInfo) (meta : M)
    (priorityConfigs : list PriorityConfig) (nodes : list Node) (extenders : list SchedulerExtender)
    : outcome (result schedule_error (list HostPriority)) :=
  let processed :=
    imap (λ i node, process_node pod meta (at_map rd i) (nodeNameToInfo !! n_name node) priorityConfigs) nodes in
  let computed :=
    imap (λ i, config_result pod meta (at_config rd i) nodeNameToInfo nodes processed.*1 i) priorityConfigs in
  match omap snd processed ++ omap snd computed with
  | [] =>
      result ?<- summarize 0 nodes (zip computed.*1 (pc_weight <$> priorityConfigs));
      Ret (Ok (match extenders with
               | [] => result
               | _ => add_combined (combinedScores pod nodes extenders ∅) <$> result
               end))
  | errs => Ret (Err (PriorityErrors errs))
  end.

Definition PrioritizeNodes (rd : reads) (pod : Pod) (nodeNameToInfo : gmap string NodeInfo) (meta : M)
    (priorityConfigs : list PriorityConfig) (nodes : list Node) (extenders : list SchedulerExtender)
    : outcome (result schedule_error (list HostPriority)) :=
  match priorityConfigs, extenders with
  | [], [] => Ret (equal_priorities nodeNameToInfo nodes)
  | _, _ => weighted_priorities rd pod nodeNameToInfo meta priorityConfigs nodes extenders
  end.

End scoring.
Arguments PriorityConfig : clear implicits.

(** ** Choosing a host *)

(** HostPriorityList.Less *)
Definition Less (x y : HostPriority) : bool :=
  if decide (Score x = Score y) then negb (bool_decide (String.le (Host y) (Host x)))
  else bool_decide (Score x < Score y)%Z.

(** The order of [sort.Reverse]: [x] may stand before [y]. *)
Definition ReverseOrder : relation HostPriority := λ x y, Less x y = false.

#[export] Instance ReverseOrder_dec : RelDecision ReverseOrder.
Proof. intros x y. unfold ReverseOrder. apply _. Defined.

Definition wrap_uint64 (z : Z) : Z := (z mod 2 ^ 64)%Z.

Section choosing.
Context `{!SortSort}.

Definition selectHost (lastNodeIndex : Z) (priorityList : list HostPriority)
    : outcome (result schedule_error string * Z) :=
  match sort_Sort ReverseOrder priorityList with
  | [] => Ret (Err EmptyPriorityList, lastNodeIndex)
  | (first :: _) as sorted =>
      let maxScore := Score first in
      let firstAfterMaxScore :=
        sort_Search (length sorted)
          (λ i, match sorted !! i with
                | Some hp => bool_decide (Score hp < maxScore)%Z
                | None => true
                end) in
      if decide (firstAfterMaxScore = 0) then Panic "integer divide by zero"
      else
        let ix := Z.to_nat (lastNodeIndex mod Z.of_nat firstAfterMaxScore) in
        match sorted !! ix with
        | None => Panic "index out of range"
        | Some hp => Ret (Ok (Host hp), wrap_uint64 (lastNodeIndex + 1))
        end
  end.

End choosing.

(** ** Schedule *)

Section schedule.
Context `{!MapRange, !SortSort} {M : Type}.

Record genericScheduler := mkScheduler {
  g_predicates : gmap string FitPredicate;
  predicateMetaProducer : Pod → gmap string NodeInfo → option predicateMetadata;
  priorityMetaProducer : Pod → gmap string NodeInfo → M;
  prioritizers : list (PriorityConfig M);
  g_extenders : list SchedulerExtender;
  lastNodeIndex : Z;
  cachedNodeInfoMap : gmap string NodeInfo
}.

Definition NewGenericScheduler (predicates : gmap string FitPredicate)
    (predicateMetaProducer : Pod → gmap string NodeInfo → option predicateMetadata)
    (prioritizers : list (PriorityConfig M))
    (priorityMetaProducer : Pod → gmap string NodeInfo → M)
    (extenders : list SchedulerExtender) : genericScheduler :=
  mkScheduler predicates predicateMetaProducer priorityMetaProducer prioritizers extenders 0 ∅.

Definition set_snapshot (m : gmap string NodeInfo) (g : genericScheduler) : genericScheduler :=
  mkScheduler (g_predicates g) (predicateMetaProducer g) (priorityMetaProducer g)
    (prioritizers g) (g_extenders g) (lastNodeIndex g) m.
Definition set_lastNodeIndex (i : Z) (g : genericScheduler) : genericScheduler :=
  mkScheduler (g_predicates g) (predicateMetaProducer g) (priorityMetaProducer g)
    (prioritizers g) (g_extenders g) i (cachedNodeInfoMap g).

Definition Schedule (order : list nat) (rd : reads) (pod : Pod) (nodeList : result string (list Node))
    (c : schedulerCache) (g : genericScheduler)
    : outcome (result schedule_error string * genericScheduler) :=
  match nodeList with
  | Err e => Ret (Err (ListError e), g)
  | Ok [] => Ret (Err ErrNoNodesAvailable, g)
  | Ok nodes =>
      let snapshot := UpdateNodeNameToInfoMap (cachedNodeInfoMap g) c in
      let g1 := set_snapshot snapshot g in
      match findNodesThatFit order rd pod snapshot nodes (g_predicates g) (g_extenders g)
              (predicateMetaProducer g) with
      | Err e => Ret (Err e, g1)
      | Ok ([], failedPredicateMap) => Ret (Err (FitError pod failedPredicateMap), g1)
      | Ok (filteredNodes, _) =>
          let meta := priorityMetaProducer g pod snapshot in
          pl ?<- PrioritizeNodes rd pod snapshot meta (prioritizers g) filteredNodes (g_extenders g);
          match pl with
          | Err e => Ret (Err e, g1)
          | Ok priorityList =>
              sel ?<- selectHost (lastNodeIndex g) priorityList;
              Ret (sel.1, set_lastNodeIndex sel.2 g1)
          end
      end
  end.

(** ** scheduleOne

    The part that runs in the scheduling loop, and the goroutine that binds the
    pod; [bound] says whether the binding succeeded.  [c] is the cache when the
    snapshot is taken and [c1] the cache when the pod is assumed. *)

Inductive scheduled :=
  | Unschedulable (e : schedule_error)
  | AssumeFailed (e : sched_error)
  | Binding (assumed : Pod).

Definition scheduleOne (order : list nat) (rd : reads) (pod : Pod) (nodeList : result string (list Node))
    (c c1 : schedulerCache) (g : genericScheduler)
    : outcome (scheduled * schedulerCache * genericScheduler) :=
  r ?<- Schedule order rd pod nodeList c g;
  match r with
  | (Err e, g') => Ret (Unschedulable e, c1, g')
  | (Ok dest, g') =>
      let assumed := with_nodeName dest pod in
      a ?<- AssumePod assumed c1;
      match a with
      | (Err e, c') => Ret (AssumeFailed e, c', g')
      | (Ok _, c') => Ret (Binding assumed, c', g')
      end
  end.

(** The cache operations of the binding goroutine, which other goroutines may
    interleave with theirs. *)
Definition bind_ops (assumed : Pod) (now : Z) (bound : bool) : list cache_op :=
  OpFinishBinding assumed now :: if bound then [] else [OpForgetPod assumed].

End schedule.
Arguments genericScheduler : clear implicits.

(** ** Lemmas on Parallelize *)

Definition pieces_of (ws : list worker) : list nat :=
  omap (λ w, match w with Busy p => Some p | _ => None end) ws.

Definition worker_measure (w : worker) : nat :=
  match w with
  | Idle => 1
  | Busy _ => 2
  | Exited => 0
  end.

Definition pool_measure (s : pool) : nat :=
  2 * length (toProcess s) + sum_list_with worker_measure (pool_workers s).

Record pool_wf (workers pieces : nat) (s : pool) : Prop := {
  pw_pieces : performed s ++ pieces_of (pool_workers s) ++ toProcess s ≡ₚ seq 0 pieces;
  pw_workers : length (pool_workers s) = if decide (pieces < workers) then pieces else workers;
  pw_exited : Exited ∈ pool_workers s → toProcess s = []
}.

Lemma pieces_of_app ws1 ws2 : pieces_of (ws1 ++ ws2) = pieces_of ws1 ++ pieces_of ws2.
Proof. apply omap_app. Qed.

Lemma pool_start_wf workers pieces : pool_wf workers pieces (Parallelize workers pieces).
Proof.
  split; simpl.
  - assert (pieces_of (replicate (if decide (pieces < workers) then pieces else workers) Idle) = [])
      as ->; [|done].
    induction (if decide _ then _ else _) as [|n IH]; [done|exact IH].
  - apply length_replicate.
  - intros Hin. apply elem_of_replicate in Hin as [? _]. done.
Qed.

Lemma pool_step_wf workers pieces s s' :
  pool_step s s' → pool_wf workers pieces s →
  pool_wf workers pieces s' ∧ pool_measure s = S (pool_measure s').
Proof.
  intros Hst [Hp Hw He]. destruct Hst as [i p rest ws done Hi|i p chan ws done Hi|i ws done Hi];
    simpl in *; destruct (insert_split _ _ _ Hi) as (l1 & l2 & -> & Hins); rewrite Hins in *;
    unfold pool_measure; simpl; rewrite !sum_list_with_app; simpl;
    rewrite !pieces_of_app in *; simpl in *; rewrite !length_app in *; simpl in *.
  - split; [|lia]. split; simpl; [|by rewrite length_app|].
    + rewrite <-Hp. rewrite pieces_of_app. simpl. solve_Permutation.
    + intros Hin. assert (p :: rest = []); [|done]. apply He. set_solver.
  - split; [|lia]. split; simpl; [|by rewrite length_app|].
    + rewrite <-Hp. rewrite pieces_of_app. simpl. solve_Permutation.
    + intros Hin. apply He. set_solver.
  - split; [|lia]. split; simpl; [|by rewrite length_app|done].
    by rewrite <-Hp, pieces_of_app.
Qed.

Lemma pool_progress s : ¬ pool_finished s → ∃ s', pool_step s s'.
Proof.
  destruct s as [chan ws done]. unfold pool_finished. simpl. intros Hn.
  apply not_Forall_Exists in Hn; [|intros []; [by right|by right|by left]].
  apply Exists_exists in Hn as (w & [i Hi]%list_elem_of_lookup & Hw).
  destruct w as [|p|]; [destruct chan as [|p rest]|..]; [..|by destruct Hw]; eexists.
  - by eapply pool_exit.
  - by eapply pool_take.
  - by eapply pool_perform.
Qed.

(** ** Lemmas on filtering *)

Section filtering_lemmas.
Context `{!MapRange}.

(** The predicates of a map all accept, each with what it reads. *)
Definition accepts_all (pod : Pod) (meta : option predicateMetadata) (hs : nat → heap)
    (info : option NodeInfo) (predicateFuncs : gmap string FitPredicate) : Prop :=
  ∀ k name f, map_range predicateFuncs !! k = Some (name, f) → f pod meta (hs k) info = Ok (true, []).

Definition all_explain (predicateFuncs : gmap string FitPredicate) : Prop :=
  ∀ name f, predicateFuncs !! name = Some f → explains f.

Lemma map_range_empty {V} : map_range (∅ : gmap string V) = [].
Proof. apply Permutation_nil_r. rewrite map_range_perm. by rewrite map_to_list_empty. Qed.

Lemma forall_index_cons {A} (P : nat → A → Prop) x l :
  (∀ k y, (x :: l) !! k = Some y → P k y) ↔ P 0 x ∧ ∀ k y, l !! k = Some y → P (S k) y.
Proof.
  split; [intros Hall; split; [by apply Hall|intros k y Hk; by apply (Hall (S k))]|].
  intros [H0 Hall] [|k] y Hk; [by simplify_eq/=|by apply Hall].
Qed.

Lemma predicates_loop_spec pod meta hs info l failed :
  Forall (λ e, explains e.2) l →
  match predicates_loop pod meta hs info l failed with
  | Err _ => ∃ k e err, l !! k = Some e ∧ e.2 pod meta (hs k) info = Err err
  | Ok (fit, reasons) =>
      fit = bool_decide (reasons = []) ∧
      (reasons = [] ↔ failed = [] ∧ ∀ k e, l !! k = Some e → e.2 pod meta (hs k) info = Ok (true, []))
  end.
Proof.
  intros Hex. revert hs failed. induction Hex as [|[key f] l Hf Hl IH]; intros hs failed; simpl; [naive_solver|].
  simpl in Hf. destruct (f pod meta (hs 0) info) as [[fit rs]|err] eqn:Hrun; cycle 1.
  { exists 0, (key, f), err. done. }
  specialize (IH (λ k, hs (S k)) (if fit then failed else failed ++ rs)). pose proof (Hf _ _ _ _ _ _ Hrun) as Hfit.
  destruct (predicates_loop _ _ _ _ _ _) as [[fit' reasons]|err].
  - destruct IH as (Hb & Hiff). split; [done|]. rewrite Hiff, forall_index_cons. simpl. rewrite Hrun. destruct fit.
    + symmetry in Hfit. apply bool_decide_eq_true in Hfit as ->. naive_solver.
    + symmetry in Hfit. apply bool_decide_eq_false in Hfit. rewrite app_nil. naive_solver.
  - destruct IH as (k & e & err' & Hk & He). by exists (S k), e, err'.
Qed.

Lemma explain_range fs : all_explain fs → Forall (λ e, explains e.2) (map_range fs).
Proof. intros Hex. apply Forall_forall. intros [name f] Hin%elem_of_map_range. by eapply Hex. Qed.

(** The three outcomes of trying a node. *)
Lemma podFitsOnNode_spec pod meta hs info fs :
  all_explain fs →
  match podFitsOnNode pod meta hs info fs with
  | Err _ => ∃ k name f err, map_range fs !! k = Some (name, f) ∧ f pod meta (hs k) info = Err err
  | Ok (fit, reasons) => fit = bool_decide (reasons = []) ∧ (fit = true ↔ accepts_all pod meta hs info fs)
  end.
Proof.
  intros Hex. unfold podFitsOnNode.
  pose proof (predicates_loop_spec pod meta hs info (map_range fs) [] (explain_range fs Hex)) as Hl.
  destruct (predicates_loop _ _ _ _ _ _) as [[fit reasons]|err].
  - destruct Hl as (Hb & Hiff). split; [done|]. rewrite Hb, bool_decide_eq_true, Hiff. unfold accepts_all. split.
    + intros [_ Hall] k name f Hk. by apply (Hall k (name, f)).
    + intros Hall. split; [done|]. intros k [name f] Hk. by apply (Hall k name).
  - destruct Hl as (k & [name f] & err' & Hk & Herr). by exists k, name, f, err'.
Qed.

(** The check of the node at index [i]. *)
Definition node_fits (rd : reads) (pod : Pod) (meta : option predicateMetadata)
    (infos : gmap string NodeInfo) (fs : gmap string FitPredicate) (i : nat) (node : Node) : bool :=
  match podFitsOnNode pod meta (at_check rd i) (infos !! n_name node) fs with
  | Ok (fit, _) => fit
  | Err _ => false
  end.

Definition checks (rd : reads) (pod : Pod) (meta : option predicateMetadata) (infos : gmap string NodeInfo)
    (fs : gmap string FitPredicate) (ns : list Node) (order : list nat) : list check :=
  omap (λ i, checkNode pod meta (at_check rd i) infos fs <$> ns !! i) order.

Lemma check_filtered_spec rd pod meta infos fs ns order :
  check_filtered (checks rd pod meta infos fs ns order) =
  omap (λ i, node ← ns !! i; if node_fits rd pod meta infos fs i node then Some node else None) order.
Proof.
  unfold check_filtered, checks. induction order as [|i order IH]; [done|]. csimpl.
  destruct (ns !! i) as [node|]; csimpl; [|done]. rewrite <-IH. unfold checkNode at 1, node_fits.
  by destruct (podFitsOnNode _ _ _ _ _) as [[[] ?]|].
Qed.

Lemma check_filtered_elem rd pod meta infos fs ns order node :
  order ≡ₚ seq 0 (length ns) →
  node ∈ check_filtered (checks rd pod meta infos fs ns order) ↔
  ∃ i, ns !! i = Some node ∧ node_fits rd pod meta infos fs i node = true.
Proof.
  intros Hord. rewrite check_filtered_spec, list_elem_of_omap. split.
  - intros (i & _ & Hi). exists i. destruct (ns !! i) as [x|]; [|done]. simpl in Hi.
    destruct (node_fits _ _ _ _ _ i x) eqn:Hf; simplify_eq. done.
  - intros (i & Hi & Hf). exists i. rewrite Hord, elem_of_seq, Hi. simpl. rewrite Hf. split; [|done].
    apply lookup_lt_Some in Hi. lia.
Qed.

Lemma omap_select_sublist {A} (ns : list A) (b : nat → A → bool) :
  omap (λ i, x ← ns !! i; if b i x then Some x else None) (seq 0 (length ns)) `sublist_of` ns.
Proof.
  revert b. induction ns as [|x ns IH]; intros b; [done|]. csimpl. rewrite <-fmap_S_seq.
  assert (Hshift : ∀ l : list nat, omap (λ i, y ← (x :: ns) !! i; if b i y then Some y else None) (S <$> l) =
    omap (λ i, y ← ns !! i; if b (S i) y then Some y else None) l).
  { induction l as [|i l IHl]; [done|]. csimpl. by rewrite IHl. }
  rewrite Hshift. destruct (b 0 x); [apply sublist_skip|apply sublist_cons]; apply (IH (λ i, b (S i))).
Qed.

(** A predicate fails to give a verdict on some node of the list. *)
Definition predicate_errs (rd : reads) (pod : Pod) (meta : option predicateMetadata)
    (infos : gmap string NodeInfo) (fs : gmap string FitPredicate) (ns : list Node) : Prop :=
  ∃ i node e, ns !! i = Some node ∧ podFitsOnNode pod meta (at_check rd i) (infos !! n_name node) fs = Err e.

Lemma check_errors_spec rd pod meta infos fs ns order :
  order ≡ₚ seq 0 (length ns) →
  check_errors (checks rd pod meta infos fs ns order) ≠ [] ↔ predicate_errs rd pod meta infos fs ns.
Proof.
  intros Hord. unfold check_errors, checks, predicate_errs. split.
  - intros Hne. destruct (omap _ _) as [|e l] eqn:Heq; [done|].
    assert (Hin : e ∈ e :: l) by left. rewrite <-Heq in Hin.
    apply list_elem_of_omap in Hin as (x & (i & _ & Hx)%list_elem_of_omap & He).
    destruct (ns !! i) as [node|] eqn:Hi; simpl in Hx; simplify_eq. exists i, node. unfold checkNode in He.
    repeat case_match; simplify_eq. eauto.
  - intros (i & node & e & Hi & He) Hnil.
    assert (Hin : e ∈ omap (λ x, match x with CheckError e => Some e | _ => None end)
      (omap (λ i, checkNode pod meta (at_check rd i) infos fs <$> ns !! i) order)).
    { apply list_elem_of_omap. exists (CheckError e). split; [|done]. apply list_elem_of_omap. exists i.
      rewrite Hord, elem_of_seq, Hi. simpl. unfold checkNode. rewrite He. split; [|done]. apply lookup_lt_Some in Hi. lia. }
    rewrite Hnil in Hin. by apply elem_of_nil in Hin.
Qed.

Lemma accepts_all_fits rd pod meta infos fs i node :
  all_explain fs →
  node_fits rd pod meta infos fs i node = true ↔ accepts_all pod meta (at_check rd i) (infos !! n_name node) fs.
Proof.
  intros Hex. unfold node_fits.
  pose proof (podFitsOnNode_spec pod meta (at_check rd i) (infos !! n_name node) fs Hex) as Hs.
  destruct (podFitsOnNode _ _ _ _ _) as [[fit rs]|e]; [apply Hs|].
  destruct Hs as (k & name & f & err & Hf & Herr). split; [done|].
  intros Hall. rewrite (Hall _ _ _ Hf) in Herr. done.
Qed.

(** Filtering without extenders, in any order of completion. *)
Lemma filter_phase order rd pod infos ns fs mp :
  order ≡ₚ seq 0 (length ns) → all_explain fs → 
  let meta := mp pod infos in
  (∃ failed filtered, findNodesThatFit order rd pod infos ns fs [] mp = Ok (filtered, failed) ∧
     filtered ⊆+ ns ∧
     (∀ node, node ∈ filtered ↔
        ∃ i, ns !! i = Some node ∧ accepts_all pod meta (at_check rd i) (infos !! n_name node) fs) ∧
     ¬ predicate_errs rd pod meta infos fs ns) ∨
  (∃ errs, findNodesThatFit order rd pod infos ns fs [] mp = Err (PredicateErrors errs) ∧
     predicate_errs rd pod meta infos fs ns).
Proof.
  intros Hord Hex meta. unfold findNodesThatFit. case_decide as Hz.
  { left. apply map_size_empty_inv in Hz as ->. exists ∅, ns. split_and!; [by destruct ns|done| |].
    - intros node. rewrite list_elem_of_lookup. unfold accepts_all. rewrite map_range_empty.
      split; [intros [i Hi]; exists i; split; [done|]; intros k name f; by rewrite lookup_nil|naive_solver].
    - intros (i & node & e & _ & He). unfold podFitsOnNode in He. by rewrite map_range_empty in He. }
  fold meta. change (omap (λ i, _ <$> ns !! i) order) with (checks rd pod meta infos fs ns order).
  pose proof (check_errors_spec rd pod meta infos fs ns order Hord) as Herr.
  destruct (check_errors _) as [|e errs].
  - left. cbn [result_bind]. eexists _, (check_filtered (checks rd pod meta infos fs ns order)). split_and!.
    + by case_match.
    + rewrite check_filtered_spec, Hord. apply sublist_submseteq, (omap_select_sublist ns (node_fits rd pod meta infos fs)).
    + intros node. rewrite check_filtered_elem by done. by setoid_rewrite accepts_all_fits.
    + intros Hp%Herr. done.
  - right. eexists. split; [done|]. by apply Herr.
Qed.

Definition shrinks (ext : SchedulerExtender) : Prop :=
  ∀ pod l l' m, ext_Filter ext pod l = Ok (l', m) → l' ⊆ l.

Lemma extenders_loop_sub pod exts filtered failed l m :
  Forall shrinks exts → extenders_loop pod exts filtered failed = Ok (l, m) → l ⊆ filtered.
Proof.
  intros Hs. revert filtered failed. induction Hs as [|ext exts He Hs IH]; intros filtered failed; simpl.
  { by intros [= <- _]. }
  destruct (ext_Filter ext pod filtered) as [[l' m']|e] eqn:Hf; [|done].
  destruct l' as [|x l']; [intros [= <- _]; set_solver|].
  intros Hl%IH. pose proof (He _ _ _ _ Hf). set_solver.
Qed.

(** Filtering with extenders that only remove nodes. *)
Lemma find_nodes_sound order rd pod infos ns fs exts mp filtered failed :
  order ≡ₚ seq 0 (length ns) → all_explain fs → Forall shrinks exts →
  findNodesThatFit order rd pod infos ns fs exts mp = Ok (filtered, failed) →
  ∀ node, node ∈ filtered →
    ∃ i, ns !! i = Some node ∧ accepts_all pod (mp pod infos) (at_check rd i) (infos !! n_name node) fs.
Proof.
  intros Hord Hex Hs Hfind node Hin.
  destruct (filter_phase order rd pod infos ns fs mp Hord Hex) as [(f0 & l0 & H0 & _ & Hel & _)|(errs & H0 & _)].
  - apply Hel. unfold findNodesThatFit in Hfind, H0.
    destruct (if decide (size fs = 0) then _ else _) as [[l1 f1]|]; [|done]. cbn [result_bind] in Hfind, H0.
    destruct l1 as [|x l1]; [by simplify_eq|]. simpl in H0. simplify_eq.
    by apply (extenders_loop_sub _ _ _ _ _ _ Hs Hfind).
  - unfold findNodesThatFit in Hfind, H0.
    destruct (if decide (size fs = 0) then _ else _) as [[l1 f1]|]; [|done]. cbn [result_bind] in H0. by destruct l1.
Qed.

End filtering_lemmas.

(** ** Lemmas on choosing a host *)

Lemma ReverseOrder_spec x y :
  ReverseOrder x y ↔ (Score y < Score x)%Z ∨ Score x = Score y ∧ String.le (Host y) (Host x).
Proof.
  unfold ReverseOrder, Less. case_decide as Heq.
  - rewrite negb_false_iff, bool_decide_eq_true. split; [auto|]. intros [?|[_ ?]]; [lia|done].
  - rewrite bool_decide_eq_false. split; [lia|]. intros [?|[? _]]; [lia|done].
Qed.

#[export] Instance ReverseOrder_total : Total ReverseOrder.
Proof.
  intros x y. rewrite !ReverseOrder_spec.
  destruct (Z.lt_trichotomy (Score x) (Score y)) as [?|[?|?]]; [auto| |auto].
  destruct (total String.le (Host x) (Host y)); auto.
Qed.

#[export] Instance ReverseOrder_trans : Transitive ReverseOrder.
Proof.
  intros x y z. rewrite !ReverseOrder_spec. intros [?|[? ?]] [?|[? ?]]; try (left; lia).
  right. split; [lia|]. by trans (Host y).
Qed.

#[export] Instance ReverseOrder_antisymm : AntiSymm (=) ReverseOrder.
Proof.
  intros [hx sx] [hy sy]. rewrite !ReverseOrder_spec. simpl. intros [?|[? ?]] [?|[? ?]]; try lia.
  f_equal; [|done]. by apply (anti_symm String.le).
Qed.

(** The entries of a list with the highest score. *)
Definition best (l : list HostPriority) : list HostPriority :=
  filter (λ x, Forall (λ y, (Score y ≤ Score x)%Z) l) l.

Section choosing_lemmas.
Context `{!SortSort}.

Lemma sort_priorities_unique l1 l2 :
  l1 ≡ₚ l2 → sort_Sort ReverseOrder l1 = sort_Sort ReverseOrder l2.
Proof.
  intros Hl. apply (StronglySorted_unique ReverseOrder);
    [apply Sorted_StronglySorted, sort_Sort_sorted; apply _..|].
  by rewrite !sort_Sort_perm.
Qed.

(** The sorted list starts with the best entries. *)
Lemma sorted_best l :
  l ≠ [] → ∃ top rest m, sort_Sort ReverseOrder l = top ++ rest ∧ top ≠ [] ∧
    Forall (λ x, Score x = m) top ∧ Forall (λ x, (Score x < m)%Z) rest ∧ top ≡ₚ best l.
Proof.
  intros Hne. pose proof (sort_Sort_perm ReverseOrder l) as Hperm.
  pose proof (Sorted_StronglySorted _ _ (sort_Sort_sorted ReverseOrder l)) as Hs.
  destruct (sort_Sort ReverseOrder l) as [|x s] eqn:Hsort; [by apply Permutation_nil in Hperm|].
  apply StronglySorted_inv in Hs as [Hs Hx].
  set (P := λ y, Score y = Score x).
  assert (Hsplit : ∃ top rest, s = top ++ rest ∧ Forall P top ∧ Forall (λ y, (Score y < Score x)%Z) rest).
  { clear Hsort Hperm Hne. induction Hs as [|y s Hs IH Hy]; [by exists [], []|].
    apply Forall_cons in Hx as [Hxy Hx]. apply ReverseOrder_spec in Hxy.
    destruct (decide (Score y = Score x)) as [He|He].
    - destruct (IH Hx) as (top & rest & -> & Ht & Hr). exists (y :: top), rest.
      split_and!; [done|by constructor|done].
    - exists [], (y :: s). split_and!; [done|done|]. constructor; [lia|].
      eapply Forall_impl; [exact Hy|]. intros z Hz%ReverseOrder_spec. lia. }
  destruct Hsplit as (top & rest & -> & Ht & Hr).
  assert (Hmax : ∀ z, z ∈ l → (Score z ≤ Score x)%Z).
  { intros z. rewrite <-Hperm. rewrite elem_of_cons, elem_of_app. rewrite Forall_forall in Ht, Hr.
    intros [->|[Hz|Hz]]; [lia|by rewrite (Ht _ Hz)|specialize (Hr _ Hz); lia]. }
  exists (x :: top), rest, (Score x). split_and!; [done|done|by constructor|done|].
  assert (Hx' : x ∈ l) by (rewrite <-Hperm; left).
  unfold best. rewrite (list_filter_iff _ (λ y, (Score x ≤ Score y)%Z)); cycle 1.
  { intros y. rewrite Forall_forall. split; [auto|]. intros Hy z Hz%Hmax. lia. }
  rewrite <-Hperm, app_comm_cons, filter_app, (filter_all_false _ rest), app_nil_r, filter_all_true; [done| |].
  - constructor; [lia|]. eapply Forall_impl; [exact Ht|]. unfold P. simpl. lia.
  - eapply Forall_impl; [exact Hr|]. simpl. lia.
Qed.

Lemma search_best top rest m :
  Forall (λ x, Score x = m) top → Forall (λ x, (Score x < m)%Z) rest →
  sort_Search (length (top ++ rest))
    (λ i, match (top ++ rest) !! i with
          | Some hp => bool_decide (Score hp < m)%Z
          | None => true
          end) = length top.
Proof.
  intros Ht Hr. set (f := λ i, _).
  assert (Hf : ∀ i, f i = bool_decide (length top ≤ i)).
  { intros i. unfold f. rewrite Forall_lookup in Ht, Hr. destruct (decide (i < length top)) as [Hi|Hi].
    - rewrite lookup_app_l by done. rewrite bool_decide_eq_false_2 by lia.
      destruct (top !! i) as [y|] eqn:Hy; [|apply lookup_ge_None in Hy; lia].
      apply bool_decide_eq_false. rewrite (Ht _ _ Hy). lia.
    - rewrite lookup_app_r by lia. rewrite bool_decide_eq_true_2 by lia.
      destruct (rest !! _) as [y|] eqn:Hy; [|done].
      apply bool_decide_eq_true. by apply (Hr _ _ Hy). }
  destruct (sort_Search_spec (length (top ++ rest)) f) as (Hle & Hlo & Hhi).
  { intros a b. rewrite !Hf, !bool_decide_eq_true. lia. }
  rewrite length_app in *. set (k := sort_Search _ _) in *.
  destruct (Nat.lt_trichotomy k (length top)) as [Hk|[Hk|Hk]]; [|done|].
  - specialize (Hhi k). rewrite Hf, bool_decide_eq_true in Hhi. lia.
  - specialize (Hlo (length top) Hk). rewrite Hf, bool_decide_eq_false in Hlo. lia.
Qed.

(** The host chosen, by the counter, among the best: [top] depends only on the
    entries of the list, not on their order. *)
Definition top_of (l : list HostPriority) : list HostPriority :=
  take (length (best l)) (sort_Sort ReverseOrder l).

Lemma top_of_perm l1 l2 : l1 ≡ₚ l2 → top_of l1 = top_of l2.
Proof.
  intros Hl. unfold top_of. rewrite (sort_priorities_unique _ _ Hl). f_equal. unfold best.
  rewrite Hl. f_equal. apply list_filter_iff. intros x. by rewrite Hl.
Qed.

Lemma selectHost_spec last l :
  (0 ≤ last)%Z → l ≠ [] →
  top_of l ≡ₚ best l ∧
  ∃ hp, top_of l !! Z.to_nat (last mod Z.of_nat (length (top_of l))) = Some hp ∧
    selectHost last l = Ret (Ok (Host hp), wrap_uint64 (last + 1)).
Proof.
  intros Hlast Hne. destruct (sorted_best l Hne) as (top & rest & m & Hsort & Htop & Ht & Hr & Hbest).
  assert (Heq : top_of l = top).
  { unfold top_of. by rewrite Hsort, <-Hbest, take_app_length. }
  rewrite Heq. split; [done|]. destruct top as [|x top]; [done|].
  pose proof (Forall_inv Ht) as Hm. simpl in Hm. subst m.
  pose proof (search_best _ _ _ Ht Hr) as Hsearch.
  set (ix := Z.to_nat (last mod Z.of_nat (length (x :: top)))).
  assert (Hix : ix < length (x :: top)).
  { unfold ix. pose proof (Z.mod_pos_bound last (Z.of_nat (length (x :: top)))). simpl in *. lia. }
  destruct (lookup_lt_is_Some_2 _ _ Hix) as [hp Hhp]. exists hp. split; [done|].
  unfold selectHost. rewrite Hsort. rewrite <-app_comm_cons in *. cbv zeta.
  rewrite Hsearch, decide_False by done. fold ix.
  by rewrite app_comm_cons, lookup_app_l, Hhp by done.
Qed.

Lemma selectHost_best last l r last' :
  (0 ≤ last)%Z → selectHost last l = Ret (Ok r, last') →
  ∃ hp, hp ∈ l ∧ Host hp = r ∧ Forall (λ y, (Score y ≤ Score hp)%Z) l.
Proof.
  intros Hlast Hsel. destruct (decide (l = [])) as [->|Hne].
  { unfold selectHost in Hsel. pose proof (sort_Sort_perm ReverseOrder []) as Hn.
    apply Permutation_nil_r in Hn. by rewrite Hn in Hsel. }
  destruct (selectHost_spec last l Hlast Hne) as (Hb & hp & Hhp & Hrun).
  rewrite Hrun in Hsel. injection Hsel as <- _. exists hp.
  apply list_elem_of_lookup_2 in Hhp. rewrite Hb in Hhp. apply list_elem_of_filter in Hhp as [? ?]. auto.
Qed.

(** Consecutive choices, each from its own list. *)
Fixpoint selectHosts (last : Z) (ls : list (list HostPriority))
    : outcome (list (result schedule_error string) * Z) :=
  match ls with
  | [] => Ret ([], last)
  | l :: ls' =>
      r ?<- selectHost last l;
      rs ?<- selectHosts r.2 ls';
      Ret (r.1 :: rs.1, rs.2)
  end.

Lemma selectHosts_spec last l ls :
  (0 ≤ last)%Z → (last + Z.of_nat (length ls) < 2 ^ 64)%Z → l ≠ [] → Forall (λ l', l' ≡ₚ l) ls →
  selectHosts last ls =
  Ret (Ok <$> (Host <$> omap (λ i, top_of l !! i)
         ((λ i, Z.to_nat ((last + Z.of_nat i) mod Z.of_nat (length (top_of l)))) <$> seq 0 (length ls))),
       (last + Z.of_nat (length ls))%Z).
Proof.
  intros Hlast Hb Hne Hls. revert last Hlast Hb.
  induction Hls as [|l' ls Hl' Hls IH]; intros last Hlast Hb; [simpl; by rewrite Z.add_0_r|].
  assert (l' ≠ []) as Hne'. { intros ->. by apply Permutation_nil in Hl'. }
  destruct (selectHost_spec last l' Hlast Hne') as (_ & hp & Hhp & Hrun).
  rewrite (top_of_perm _ _ Hl') in Hhp. simpl in Hb |- *. rewrite Hrun. simpl.
  assert (wrap_uint64 (last + 1) = last + 1)%Z as -> by (apply Z.mod_small; lia).
  rewrite IH by lia. simpl. rewrite Z.add_0_r, Hhp. simpl. f_equal. f_equal; [|lia].
  f_equal. f_equal. f_equal. f_equal. rewrite <-fmap_S_seq, <-list_fmap_compose.
  apply list_fmap_ext. intros i x _. simpl. do 2 f_equal. lia.
Qed.

End choosing_lemmas.

(** ** Lemmas on scoring *)

Section scoring_lemmas.
Context {M : Type}.
Implicit Types (configs : list (PriorityConfig M)).

(** The weighted score a priority function gives to the node at an index. *)
Definition score_at (i : nat) (r : list HostPriority * Z) : Z :=
  (from_option Score 0 (r.1 !! i) * r.2)%Z.

Lemma weigh_sum i results score :
  is_int64 score → Forall (λ r, i < length r.1) results →
  weigh i results score =
  Ret (wrap64 (score + sumZ (score_at i) results)).
Proof.
  intros Hs Hlen. revert score Hs. induction Hlen as [|[l w] results Hi Hlen IH]; intros score Hs; simpl.
  { by rewrite Z.add_0_r, wrap64_id. }
  simpl in Hi. destruct (lookup_lt_is_Some_2 _ _ Hi) as [hp Hhp]. rewrite Hhp. simpl.
  rewrite IH by apply wrap64_bounds. unfold add64, score_at at 2. simpl. rewrite Hhp. simpl. f_equal.
  rewrite wrap64_add_l, <-Z.add_assoc, (Z.add_comm score), <-Z.add_assoc, wrap64_add_l. f_equal. lia.
Qed.

Lemma summarize_sum i ns results :
  Forall (λ r, i + length ns ≤ length r.1) results →
  summarize i ns results =
  Ret (imap (λ k node, mkHostPriority (n_name node)
         (wrap64 (sumZ (score_at (i + k)) results))) ns).
Proof.
  revert i. induction ns as [|node ns IH]; intros i Hlen; [done|]. simpl.
  rewrite weigh_sum; [|done|eapply Forall_impl; [exact Hlen|]; simpl; lia]. simpl.
  rewrite IH by (eapply Forall_impl; [exact Hlen|]; simpl; lia). simpl.
  rewrite Nat.add_0_r. do 2 f_equal. apply imap_ext. intros k x _. simpl. by rewrite Nat.add_succ_r.
Qed.

(** What an extender adds to the score of a host. *)
Definition extender_score (pod : Pod) (ns : list Node) (host : string) (ext : SchedulerExtender) : Z :=
  match ext_Prioritize ext pod ns with
  | Err _ => 0%Z
  | Ok (l, weight) => sumZ (λ hp, if decide (Host hp = host) then Score hp * weight else 0)%Z l
  end.

Lemma combine_score_sum weight l combined host :
  wrap64 (default 0%Z (foldl (combine_score weight) combined l !! host)) =
  wrap64 (default 0%Z (combined !! host)
          + sumZ (λ hp, if decide (Host hp = host) then Score hp * weight else 0)%Z l).
Proof.
  revert combined. induction l as [|hp l IH]; intros combined; simpl; [by rewrite Z.add_0_r|].
  rewrite IH. unfold combine_score. case_decide as Hh.
  - subst host. rewrite lookup_insert_eq. simpl. unfold add64.
    rewrite wrap64_add_l, <-Z.add_assoc, Z.add_comm, <-Z.add_assoc, wrap64_add_l. f_equal. lia.
  - rewrite lookup_insert_ne by done. f_equal; lia.
Qed.

Lemma combinedScores_sum pod ns exts combined host :
  wrap64 (default 0%Z (combinedScores pod ns exts combined !! host)) =
  wrap64 (default 0%Z (combined !! host) + sumZ (extender_score pod ns host) exts).
Proof.
  revert combined. induction exts as [|ext exts IH]; intros combined; simpl; [by rewrite Z.add_0_r|].
  rewrite IH. unfold extender_score at 2. destruct (ext_Prioritize ext pod ns) as [[l w]|e].
  - rewrite <-wrap64_add_l, combine_score_sum, wrap64_add_l. f_equal. lia.
  - done.
Qed.

(** The column of scores of every configuration. *)
Definition columns (rd : reads) (pod : Pod) (meta : M) (infos : gmap string NodeInfo) configs
    (ns : list Node) : list (list HostPriority * option string) :=
  imap (λ i, config_result pod meta (at_config rd i) infos ns
          (imap (λ i node, process_node pod meta (at_map rd i) (infos !! n_name node) configs) ns).*1 i) configs.

(** No function reports an error, and each gives a score to every node. *)
Record scores_ok (rd : reads) (pod : Pod) (meta : M) (infos : gmap string NodeInfo) configs
    (ns : list Node) : Prop := {
  so_map : ∀ i node, ns !! i = Some node → (process_node pod meta (at_map rd i) (infos !! n_name node) configs).2 = None;
  so_result : Forall (λ r, r.2 = None ∧ length r.1 = length ns) (columns rd pod meta infos configs ns)
}.

Definition total_score (rd : reads) (pod : Pod) (meta : M) (infos : gmap string NodeInfo) configs
    (ns : list Node) (exts : list SchedulerExtender) (i : nat) (node : Node) : Z :=
  (sumZ (score_at i) (zip (columns rd pod meta infos configs ns).*1 (pc_weight <$> configs))
   + sumZ (extender_score pod ns (n_name node)) exts)%Z.

Lemma omap_none {A B} (f : A → option B) l : (∀ x, x ∈ l → f x = None) → omap f l = [].
Proof.
  induction l as [|x l IH]; intros Hl; [done|]. csimpl. rewrite (Hl x) by left.
  apply IH. intros y Hy. apply Hl. by right.
Qed.

Lemma add_combined_sum pod ns exts f :
  add_combined (combinedScores pod ns exts ∅) <$> imap (λ i node, mkHostPriority (n_name node) (wrap64 (f i))) ns =
  imap (λ i node, mkHostPriority (n_name node)
          (wrap64 (f i + sumZ (extender_score pod ns (n_name node)) exts))) ns.
Proof.
  rewrite fmap_imap. apply imap_ext. intros i x _. unfold add_combined, compose. simpl. f_equal.
  unfold add64. rewrite wrap64_add_l, <-wrap64_add_r, combinedScores_sum, lookup_empty. simpl.
  by rewrite wrap64_add_r.
Qed.

Lemma weighted_priorities_sum rd pod infos meta configs ns exts :
  scores_ok rd pod meta infos configs ns →
  weighted_priorities rd pod infos meta configs ns exts =
  Ret (Ok (imap (λ i node, mkHostPriority (n_name node)
             (wrap64 (total_score rd pod meta infos configs ns exts i node))) ns)).
Proof.
  intros [Hmap Hres]. unfold weighted_priorities, total_score. cbv zeta.
  fold (columns rd pod meta infos configs ns). rewrite (omap_none snd (columns _ _ _ _ _ _)); cycle 1.
  { intros r Hr. rewrite Forall_forall in Hres. by apply Hres. }
  rewrite omap_none; cycle 1.
  { intros r (i & node & -> & Hi)%elem_of_lookup_imap. by apply Hmap. }
  cbn [app]. rewrite summarize_sum; cycle 1.
  { apply Forall_forall. intros [l w] Hin%elem_of_zip_l.
    apply list_elem_of_fmap in Hin as ([l' e] & -> & Hin).
    rewrite Forall_forall in Hres. destruct (Hres _ Hin) as [_ Hl]. simpl in *. lia. }
  cbn [outcome_bind]. do 2 f_equal. rewrite <-add_combined_sum. simpl.
  destruct exts as [|ext exts]; [|done].
  rewrite (add_combined_sum _ _ []). apply imap_ext. intros i x _. simpl. by rewrite Z.add_0_r.
Qed.

(** The list names the nodes, in their order. *)
Lemma summarize_hosts i ns results l :
  summarize i ns results = Ret l → Host <$> l = n_name <$> ns.
Proof.
  revert i l. induction ns as [|node ns IH]; intros i l; simpl; [by intros [= <-]|].
  destruct (weigh i results 0) as [s|]; simpl; [|done].
  destruct (summarize (S i) ns results) as [l'|] eqn:Hl; simpl; [|done].
  intros [= <-]. csimpl. f_equal. eauto.
Qed.

(** The snapshot has the node under its name. *)
Definition known (infos : gmap string NodeInfo) (node : Node) : Prop :=
  ∃ v, infos !! n_name node ≫= ni_node = Some v ∧ n_name v = n_name node.

(** The entries of a cache carry the names of their nodes. *)
Definition names_ok (infos : gmap string NodeInfo) : Prop :=
  ∀ name n node, infos !! name = Some n → ni_node n = Some node → n_name node = name.

Lemma equal_priorities_hosts infos ns l :
  names_ok infos → equal_priorities infos ns = Ok l → Host <$> l = n_name <$> ns.
Proof.
  intros Hnames. revert l. induction ns as [|node ns IH]; intros l; simpl; [by intros [= <-]|].
  unfold EqualPriorityMap, NodeInfo_Node. destruct (infos !! n_name node) as [n|] eqn:Hn; simpl; [|done].
  destruct (ni_node n) as [node'|] eqn:Hnode; simpl; [|done].
  destruct (equal_priorities infos ns) as [l'|]; simpl; [|done].
  intros [= <-]. csimpl. f_equal; eauto.
Qed.

Lemma PrioritizeNodes_hosts rd pod infos meta configs ns exts l :
  names_ok infos → PrioritizeNodes rd pod infos meta configs ns exts = Ret (Ok l) → Host <$> l = n_name <$> ns.
Proof.
  intros Hnames Hrun.
  assert (Hw : weighted_priorities rd pod infos meta configs ns exts = Ret (Ok l) → Host <$> l = n_name <$> ns).
  { unfold weighted_priorities. cbv zeta. destruct (_ ++ _); [|done].
    destruct (summarize _ _ _) as [result|] eqn:Hs; simpl; [|done]. apply summarize_hosts in Hs.
    intros [= <-]. destruct exts; [done|]. rewrite <-list_fmap_compose, <-Hs. by apply list_fmap_ext. }
  unfold PrioritizeNodes in Hrun. destruct configs; [destruct exts|]; auto.
  injection Hrun as Hrun. by eapply equal_priorities_hosts.
Qed.

End scoring_lemmas.

(** ** Lemmas on Schedule *)

Section schedule_lemmas.
Context `{!MapRange, !SortSort} {M : Type}.
Implicit Types (g : genericScheduler M) (c : schedulerCache).

(** What the functions a scheduler is configured with have to respect. *)
Record config_ok g : Prop := {
  co_explain : all_explain (g_predicates g);
  co_shrink : Forall shrinks (g_extenders g);
  co_index : (0 ≤ lastNodeIndex g)%Z
}.

Lemma Schedule_inv order rd pod ns c g host g' :
  let snapshot := UpdateNodeNameToInfoMap (cachedNodeInfoMap g) c in
  config_ok g → names_ok snapshot → order ≡ₚ seq 0 (length ns) →
  Schedule order rd pod (Ok ns) c g = Ret (Ok host, g') →
  g' = set_lastNodeIndex (wrap_uint64 (lastNodeIndex g + 1)) (set_snapshot snapshot g) ∧
  ∃ filtered failed l,
    findNodesThatFit order rd pod snapshot ns (g_predicates g) (g_extenders g)
      (predicateMetaProducer g) = Ok (filtered, failed) ∧
    PrioritizeNodes rd pod snapshot (priorityMetaProducer g pod snapshot) (prioritizers g)
      filtered (g_extenders g) = Ret (Ok l) ∧
    (∃ hp, hp ∈ l ∧ Host hp = host ∧ Forall (λ y, (Score y ≤ Score hp)%Z) l) ∧
    ∃ i node, ns !! i = Some node ∧ n_name node = host ∧
      accepts_all pod (predicateMetaProducer g pod snapshot) (at_check rd i) (snapshot !! host) (g_predicates g).
Proof.
  intros snapshot [Hex Hshr Hlast] Hnames Hord Hrun. unfold Schedule in Hrun.
  destruct ns as [|n0 ns0]; [done|]. set (ns := n0 :: ns0) in *. cbv zeta in Hrun. fold snapshot in Hrun.
  destruct (findNodesThatFit _ _ _ _ _ _ _ _) as [[filtered failed]|] eqn:Hfind; [|done].
  destruct filtered as [|f0 fs]; [done|]. set (filtered := f0 :: fs) in *.
  destruct (PrioritizeNodes _ _ _ _ _ _ _) as [[l|]|] eqn:Hprio; simpl in Hrun; [|done..].
  destruct (selectHost _ l) as [[r last']|] eqn:Hsel; simpl in Hrun; [|done].
  injection Hrun as -> <-. destruct (selectHost_best _ _ _ _ Hlast Hsel) as (hp & Hhp & Hhost & Hmax).
  split.
  { f_equal. destruct (selectHost_spec (lastNodeIndex g) l) as (_ & hp' & _ & Hrun); [done| |].
    - intros ->. by apply elem_of_nil in Hhp.
    - rewrite Hrun in Hsel. congruence. }
  exists filtered, failed, l. split_and!; [done|done|by exists hp|].
  apply PrioritizeNodes_hosts in Hprio; [|done].
  assert (Hin : host ∈ n_name <$> filtered) by (rewrite <-Hprio, <-Hhost; by apply list_elem_of_fmap_2).
  apply list_elem_of_fmap in Hin as (node & -> & Hnode).
  destruct (find_nodes_sound _ _ _ _ _ _ _ _ _ _ Hord Hex Hshr Hfind _ Hnode) as (i & Hi & Hacc).
  by exists i, node.
Qed.

(** Priority functions that always give a score to each node. *)
Definition prioritizers_ok g : Prop :=
  ∀ rd pod meta infos ns, scores_ok rd pod meta infos (prioritizers g) ns.

Lemma snapshot_names snap c : names_ok snap → names_ok (nodes c) → names_ok (UpdateNodeNameToInfoMap snap c).
Proof.
  intros Hsnap Hc name n node. rewrite snapshot_lookup, fmap_Some. intros (info & Hinfo & ->).
  unfold refreshed. destruct (snap !! name) as [current|] eqn:Hs; [|rewrite Clone_id; by apply Hc].
  case_decide; [by apply Hsnap|rewrite Clone_id; by apply Hc].
Qed.

Lemma equal_priorities_total infos ns :
  (∀ node, node ∈ ns → known infos node) →
  ∃ l, equal_priorities infos ns = Ok l ∧ Host <$> l = n_name <$> ns.
Proof.
  induction ns as [|node ns IH]; intros Hns; simpl; [by exists []|].
  destruct (Hns node) as (v & Hv & Hname); [left|]. unfold EqualPriorityMap, NodeInfo_Node.
  destruct (infos !! n_name node) as [n|]; [|done]. simpl in *. rewrite Hv. simpl.
  destruct IH as (l & -> & Hl); [intros x Hx; apply Hns; by right|]. simpl. eexists. split; [done|].
  csimpl. by rewrite Hl, Hname.
Qed.

Lemma PrioritizeNodes_total rd pod infos meta configs ns exts :
  (∀ node, node ∈ ns → known infos node) →
  scores_ok (M := M) rd pod meta infos configs ns →
  ∃ l, PrioritizeNodes rd pod infos meta configs ns exts = Ret (Ok l) ∧ Host <$> l = n_name <$> ns.
Proof.
  intros Hns Hok. pose proof (weighted_priorities_sum rd pod infos meta configs ns exts Hok) as Hw.
  assert (Hhosts : ∀ f, Host <$> imap (λ i node, mkHostPriority (n_name node) (f i node)) ns = n_name <$> ns).
  { intros f. rewrite fmap_imap. unfold compose. simpl. apply imap_const. }
  unfold PrioritizeNodes. destruct configs; [destruct exts|].
  - destruct (equal_priorities_total infos ns Hns) as (l & -> & Hl). eauto.
  - eexists. split; [exact Hw|]. apply Hhosts.
  - eexists. split; [exact Hw|]. apply Hhosts.
Qed.

End schedule_lemmas.

(** ** The theorems *)

(** C35. Parallelize performs every piece exactly once.  However its goroutines are
    scheduled, as long as one has not exited some goroutine can go on, every
    step brings the end nearer, and when all have exited the pieces performed are
    those asked for, each of them once. *)
Theorem parallelize_exact workers pieces s :
  1 ≤ workers → rtc pool_step (Parallelize workers pieces) s →
  (pool_finished s → performed s ≡ₚ seq 0 pieces) ∧
  (¬ pool_finished s → ∃ s', pool_step s s') ∧
  (∀ s', pool_step s s' → pool_measure s' < pool_measure s).
Proof.
  intros Hw Hrtc. assert (Hwf : pool_wf workers pieces s).
  { apply (rtc_invariant pool_step _ _ s) with (2 := Hrtc); [|apply pool_start_wf].
    intros a b Hab Ha. by apply (pool_step_wf _ _ _ _ Hab). }
  split_and!; [|apply pool_progress|].
  - intros Hfin. destruct Hwf as [Hp Hlen He]. unfold pool_finished in Hfin.
    rewrite <-Hp. destruct (pool_workers s) as [|x ws] eqn:Hws.
    + simpl in Hlen. case_decide; [|lia]. subst pieces. simpl in Hp.
      apply Permutation_nil_r, app_nil in Hp as [-> ->]. done.
    + rewrite He by (apply Forall_inv in Hfin; rewrite Hfin; left).
      unfold pieces_of. rewrite omap_none; [by rewrite !app_nil_r|].
      intros y Hy. rewrite Forall_forall in Hfin. by rewrite (Hfin y Hy).
  - intros s' Hs. destruct (pool_step_wf _ _ _ _ Hs Hwf) as [_ ->]. lia.
Qed.

Section theorems.
Context `{!MapRange, !SortSort}.

(** Filtering is exact.  Without extenders, and in whatever order the checks of
    the nodes complete, either some predicate fails to give a verdict and an
    error is returned, or the nodes that pass are exactly those that every
    predicate accepts. *)
Theorem find_nodes_exact order rd pod infos ns fs mp :
  order ≡ₚ seq 0 (length ns) → all_explain fs →
  let meta := mp pod infos in
  (∃ failed filtered, findNodesThatFit order rd pod infos ns fs [] mp = Ok (filtered, failed) ∧
     filtered ⊆+ ns ∧
     (∀ node, node ∈ filtered ↔
        ∃ i, ns !! i = Some node ∧ accepts_all pod meta (at_check rd i) (infos !! n_name node) fs) ∧
     ¬ predicate_errs rd pod meta infos fs ns) ∨
  (∃ errs, findNodesThatFit order rd pod infos ns fs [] mp = Err (PredicateErrors errs) ∧
     predicate_errs rd pod meta infos fs ns).
Proof. apply filter_phase. Qed.

(** Hosts are chosen in turn.  Whatever the order in which the priorities of the
    same hosts are listed, as many consecutive choices as there are hosts of the
    highest score take each of these hosts once, and the counter has advanced by
    as much. *)
Theorem select_host_round_robin last l ls :
  l ≠ [] → Forall (λ l', l' ≡ₚ l) ls → length ls = length (best l) →
  (0 ≤ last)%Z → (last + Z.of_nat (length ls) < 2 ^ 64)%Z →
  ∃ hosts, selectHosts last ls = Ret (Ok <$> hosts, (last + Z.of_nat (length ls))%Z) ∧
    hosts ≡ₚ Host <$> best l.
Proof.
  intros Hne Hls Hlen Hlast Hb. rewrite (selectHosts_spec last l ls) by done.
  destruct (selectHost_spec last l Hlast Hne) as [Htop _].
  eexists. split; [done|]. rewrite Hlen, <-Htop at 1. rewrite <-Htop.
  f_equiv. by rewrite omap_lookup_order by (by apply residues_order).
Qed.

(** The score of a node is the weighted sum of its scores, in 64-bit arithmetic:
    those the priority functions of the configuration give it, and those of the
    extenders that answered. *)
Theorem prioritize_nodes_spec {M} rd pod infos (meta : M) configs ns exts :
  (configs, exts) ≠ ([], []) → scores_ok rd pod meta infos configs ns →
  PrioritizeNodes rd pod infos meta configs ns exts =
  Ret (Ok (imap (λ i node, mkHostPriority (n_name node)
             (wrap64 (total_score rd pod meta infos configs ns exts i node))) ns)).
Proof.
  intros Hne Hok. rewrite <-weighted_priorities_sum by done.
  destruct configs; [destruct exts|]; done.
Qed.

(** The host Schedule returns is a right one.  With extenders that only remove
    nodes, it is a listed node that every predicate accepts, its score is the highest
    of the nodes that passed, and the counter and the snapshot advance. *)
Theorem schedule_sound {M} c (g : genericScheduler M) order rd pod ns host g' :
  let snapshot := UpdateNodeNameToInfoMap (cachedNodeInfoMap g) c in
  config_ok g → names_ok (cachedNodeInfoMap g) → names_ok (nodes c) → order ≡ₚ seq 0 (length ns) →
  Schedule order rd pod (Ok ns) c g = Ret (Ok host, g') →
  g' = set_lastNodeIndex (wrap_uint64 (lastNodeIndex g + 1)) (set_snapshot snapshot g) ∧
  (∃ i node, ns !! i = Some node ∧ n_name node = host ∧
     accepts_all pod (predicateMetaProducer g pod snapshot) (at_check rd i) (snapshot !! host) (g_predicates g)) ∧
  ∃ filtered failed l hp,
    findNodesThatFit order rd pod snapshot ns (g_predicates g) (g_extenders g)
      (predicateMetaProducer g) = Ok (filtered, failed) ∧
    PrioritizeNodes rd pod snapshot (priorityMetaProducer g pod snapshot) (prioritizers g)
      filtered (g_extenders g) = Ret (Ok l) ∧
    hp ∈ l ∧ Host hp = host ∧ Forall (λ y, (Score y ≤ Score hp)%Z) l.
Proof.
  intros snapshot Hcfg Hsnap Hc Hord Hs.
  destruct (Schedule_inv order rd pod ns c g host g' Hcfg (snapshot_names _ _ Hsnap Hc) Hord Hs) as
    (Hg & filtered & failed & l & Hfind & Hprio & (hp & Hhp & Hhost & Hmax) & Hnode).
  split_and!; [done|done|by exists filtered, failed, l, hp].
Qed.


(** The general predicates read the totals of the node and nothing else in the heap. *)
Lemma GeneralPredicates_heap pod meta h h' n :
  RequestedResource h (Some n) = RequestedResource h' (Some n) →
  AllocatableResource h (Some n) = AllocatableResource h' (Some n) →
  GeneralPredicates pod meta h (Some n) = GeneralPredicates pod meta h' (Some n).
Proof.
  intros Hr Ha. unfold GeneralPredicates.
  replace (PodFitsResources pod meta h (Some n)) with (PodFitsResources pod meta h' (Some n)); [done|].
  unfold PodFitsResources. by rewrite Hr, Ha.
Qed.


(** C40. The binding goroutine can crash the scheduler.  It forgets the pod when the
    binding fails; if meanwhile the pod has been seen added and removed, as when
    the binding was made although an error was returned, forgetting it
    dereferences a nil pointer. *)
Theorem bind_race t h pod now :
  ∃ rs c, run_ops [OpAssumePod pod; OpAddPod pod; OpRemovePod pod] (newSchedulerCache t h) = Ret (rs, c) ∧
    run_ops (bind_ops pod now false) c = nil_dereference.
Proof.
  destruct (run_ops_refines [OpAssumePod pod; OpAddPod pod; OpRemovePod pod] (newSchedulerCache t h))
    as (rs & c & Hrun & _ & Habs); [apply new_cache_wf| |].
  { rewrite abs_new. simpl. repeat (rewrite ?lookup_empty, ?lookup_insert_eq; simpl). done. }
  exists rs, c. split; [done|]. rewrite abs_new in Habs. simpl in Habs.
  repeat (rewrite ?lookup_empty, ?lookup_insert_eq in Habs; simpl in Habs).
  assert (Hnone : podStates c !! pod_key pod = None).
  { injection Habs as _ Habs. apply (f_equal (λ m, m !! pod_key pod)) in Habs.
    rewrite lookup_delete_eq, map_lookup_imap in Habs. by destruct (podStates c !! _). }
  simpl. unfold finishBinding. rewrite getPodKey_pod_key, Hnone. simpl.
  unfold ForgetPod. by rewrite getPodKey_pod_key, Hnone.
Qed.

End theorems.

(** ** Scheduling a pod *)

Lemma parallelize_exact_witness :
  let s0 := Parallelize 2 1 in
  let s1 := mkPool [] [Busy 0] [] in
  let s2 := mkPool [] [Idle] [0] in
  let s3 := mkPool [] [Exited] [0] in
  pool_step s0 s1 ∧ pool_step s1 s2 ∧ pool_step s2 s3 ∧ pool_finished s3 ∧ performed s3 ≡ₚ seq 0 1.
Proof.
  assert (H1 : pool_step (Parallelize 2 1) (mkPool [] [Busy 0] [])).
  { exact (pool_take 0 0 [] [Idle] [] eq_refl). }
  assert (H2 : pool_step (mkPool [] [Busy 0] []) (mkPool [] [Idle] [0])).
  { exact (pool_perform 0 0 [] [Busy 0] [] eq_refl). }
  assert (H3 : pool_step (mkPool [] [Idle] [0]) (mkPool [] [Exited] [0])).
  { exact (pool_exit 0 [Idle] [0] eq_refl). }
  assert (Hf : pool_finished (mkPool [] [Exited] [0])) by (repeat constructor).
  repeat split; [exact H1|exact H2|exact H3|exact Hf|].
  apply (parallelize_exact 2 1 (mkPool [] [Exited] [0])); [lia| |exact Hf].
  eapply rtc_l; [exact H1|]. eapply rtc_l; [exact H2|]. apply rtc_once. exact H3.
Defined.

Definition one_predicate : gmap string FitPredicate :=
  {["GeneralPredicates" := @GeneralPredicates canonical_range canonical_sort]}.

Lemma one_predicate_explains : all_explain one_predicate.
Proof.
  intros name f Hf. unfold one_predicate in Hf. apply lookup_singleton_Some in Hf as [_ <-]. apply GeneralPredicates_explains.
Qed.

Definition roomy_cache : schedulerCache := roomy_result.2.

Lemma find_nodes_exact_witness :
  ∃ failed filtered, @findNodesThatFit canonical_range [0] (steady (cache_heap roomy_cache)) picky_pod
    (nodes roomy_cache) [roomy_node] one_predicate [] (λ _ _, None) = Ok (filtered, failed) ∧
    filtered ⊆+ [roomy_node].
Proof.
  destruct (@find_nodes_exact canonical_range [0] (steady (cache_heap roomy_cache)) picky_pod
    (nodes roomy_cache) [roomy_node] one_predicate (λ _ _, None))
    as [(failed & filtered & Hf & Hsub & _)|(errs & Hf & _)].
  - reflexivity.
  - exact one_predicate_explains.
  - exists failed, filtered. split; [exact Hf|exact Hsub].
  - vm_compute in Hf. discriminate.
Defined.

Definition demo_priorities : list HostPriority :=
  [mkHostPriority "a" 3; mkHostPriority "b" 7; mkHostPriority "c" 7].

Lemma select_host_round_robin_witness :
  @selectHosts canonical_sort 5 [demo_priorities; reverse demo_priorities] =
    Ret ([Ok "b"; Ok "c"], 7%Z) ∧
  ∃ hosts, @selectHosts canonical_sort 5 [demo_priorities; reverse demo_priorities] =
    Ret (Ok <$> hosts, 7%Z) ∧ hosts ≡ₚ ["b"; "c"].
Proof.
  split; [vm_compute; reflexivity|].
  apply (@select_host_round_robin canonical_sort 5 demo_priorities).
  - discriminate.
  - repeat constructor. apply reverse_Permutation.
  - vm_compute. reflexivity.
  - lia.
  - simpl. lia.
Defined.

(** A configuration that scores a node by its allocatable cpu, with weight 2. *)
Definition cpu_priority : PriorityConfig () :=
  MapReduceConfig (λ _ _ h info,
    Ok (mkHostPriority "" (MilliCPU (AllocatableResource h info)))) None 2.

Lemma cpu_priority_ok rd pod infos ns : scores_ok rd pod () infos [cpu_priority] ns.
Proof.
  split; [done|]. unfold columns. simpl. constructor; [|done]. simpl. split; [done|].
  by rewrite !length_fmap, length_imap.
Qed.

Lemma prioritize_nodes_spec_witness :
  PrioritizeNodes (steady (cache_heap roomy_cache)) picky_pod (nodes roomy_cache) () [cpu_priority] [roomy_node] [] =
    Ret (Ok [mkHostPriority "n1" 8000]).
Proof.
  rewrite (prioritize_nodes_spec (steady (cache_heap roomy_cache)) picky_pod (nodes roomy_cache) () [cpu_priority]
    [roomy_node] []); [vm_compute; reflexivity|discriminate|apply cpu_priority_ok].
Defined.

Definition demo_scheduler : genericScheduler () :=
  NewGenericScheduler one_predicate
    (λ pod _, Some (@GetMetadata canonical_range pod)) [cpu_priority] (λ _ _, ()) [].

Lemma demo_scheduler_ok : config_ok demo_scheduler.
Proof. split; [exact one_predicate_explains|constructor|done]. Qed.

Lemma demo_names : names_ok (cachedNodeInfoMap demo_scheduler).
Proof. intros name n node Hn. simpl in Hn. by rewrite lookup_empty in Hn. Qed.

Lemma roomy_run :
  admissible_ops 30 roomy_ops empty_spec ∧
  @run_ops canonical_range roomy_ops (newSchedulerCache 30 empty_heap) = Ret (roomy_result.1, roomy_cache).
Proof. split; [vm_compute; repeat split|vm_compute; reflexivity]. Qed.

Lemma roomy_names : names_ok (nodes roomy_cache).
Proof. intros name n node. eapply (@reachable_node_names canonical_range); apply roomy_run. Qed.

Definition demo_reads : reads := steady (cache_heap roomy_cache).

Definition demo_schedule : outcome (result schedule_error string * genericScheduler ()) :=
  @Schedule canonical_range canonical_sort () [0] demo_reads picky_pod (Ok [roomy_node]) roomy_cache demo_scheduler.

Lemma demo_schedule_host :
  match demo_schedule with Ret (Ok host, _) => host = "n1" | _ => False end.
Proof. vm_compute. reflexivity. Qed.

Lemma schedule_sound_witness :
  ∃ g', demo_schedule = Ret (Ok "n1", g') ∧ lastNodeIndex g' = 1%Z.
Proof.
  pose proof demo_schedule_host as Hhost.
  destruct demo_schedule as [[[host|e] g']|msg] eqn:Hs; [|destruct Hhost..].
  exists g'.
  destruct (@schedule_sound canonical_range canonical_sort () roomy_cache demo_scheduler [0] demo_reads picky_pod
    [roomy_node] host g' demo_scheduler_ok demo_names roomy_names (Permutation_refl _) Hs) as (-> & _).
  split; [|reflexivity]. rewrite Hhost. reflexivity.
Defined.


Definition demo_schedule_one : outcome (scheduled * schedulerCache * genericScheduler ()) :=
  @scheduleOne canonical_range canonical_sort () [0] demo_reads picky_pod (Ok [roomy_node]) roomy_cache roomy_cache
    demo_scheduler.

Lemma demo_schedule_binds :
  match demo_schedule_one with Ret (Binding _, _, _) => True | _ => False end.
Proof. vm_compute. exact I. Qed.

Lemma roomy_entry :
  match nodes roomy_cache !! "n1" with
  | Some n => length (ni_pods n) = 1 ∧
      (amount "cpu" (GetResourceRequest (H := canonical_range) picky_pod)
       + amount "cpu" (RequestedResource (cache_heap roomy_cache) (Some n)) ≤ MaxInt64)%Z ∧
      @UpdateNodeNameToInfoMap canonical_range (cachedNodeInfoMap demo_scheduler) roomy_cache !! "n1" = Some n
  | None => False
  end.
Proof. vm_compute. split; [reflexivity|]. split; [discriminate|reflexivity]. Qed.

