(* ===== verification/Decimal.v ===== *)
(** * Arbitrary-precision decimals

    Models the part of vendor/gopkg.in/inf.v0 (dec.go and rounder.go) that
    resource quantities use: a decimal is an integer of any size and a 32-bit
    scale, and stands for unscaled * 10^(-scale).  The values of decimals and of
    quantities are rational numbers, compared up to [==]. *)

From Stdlib Require Import QArith Qpower.
From S2P Require Import Prelude.
Open Scope Z_scope.

(** ** Integers of 32 bits *)

Definition add32 (a b : Z) : Z := wrap32 (a + b).
Definition sub32 (a b : Z) : Z := wrap32 (a - b).
Definition neg32 (a : Z) : Z := wrap32 (- a).

(** ** Dec *)

Record Dec := mkDec { unscaled : Z; dscale : Z }.

#[export] Instance Dec_eq_dec : EqDecision Dec.
Proof. solve_decision. Defined.

Definition NewDec (u s : Z) : Dec := mkDec u s.

(** [exp10(x)], for x not negative. *)
Definition exp10 (x : Z) : Z := 10 ^ x.

(** The sign of an integer, and the result of comparing two. *)
Definition big_Cmp (a b : Z) : Z :=
  match a ?= b with
  | Eq => 0
  | Lt => -1
  | Gt => 1
  end.

Definition Dec_Sign (x : Dec) : Z := Z.sgn (unscaled x).

Definition Dec_Neg (x : Dec) : Dec := mkDec (- unscaled x) (dscale x).

Definition rescale (x : Dec) (newScale : Z) : Dec :=
  let shift := sub32 newScale (dscale x) in
  if decide (shift < 0) then mkDec (Z.quot (unscaled x) (exp10 (neg32 shift))) newScale
  else if decide (shift > 0) then mkDec (unscaled x * exp10 shift) newScale
  else x.

Definition upscale (a b : Dec) : Dec * Dec :=
  if decide (dscale a = dscale b) then (a, b)
  else if decide (dscale a > dscale b) then (a, rescale b (dscale a))
  else (rescale a (dscale b), b).

Definition Dec_Cmp (x y : Dec) : Z :=
  let '(xx, yy) := upscale x y in big_Cmp (unscaled xx) (unscaled yy).

Definition Dec_Add (x y : Dec) : Dec :=
  let '(xx, yy) := upscale x y in mkDec (unscaled xx + unscaled yy) (dscale xx).

Definition Dec_Sub (x y : Dec) : Dec :=
  let '(xx, yy) := upscale x y in mkDec (unscaled xx - unscaled yy) (dscale xx).

(** The quotient truncated to the scale [s], with the remainder and the divisor. *)
Definition quoRem (x y : Dec) (s : Z) : Dec * Z * Z :=
  let shift := sub32 s (sub32 (dscale x) (dscale y)) in
  let '(ix, iy) :=
    if decide (shift > 0) then (unscaled x * exp10 shift, unscaled y)
    else if decide (shift < 0) then (unscaled x, unscaled y * exp10 (neg32 shift))
    else (unscaled x, unscaled y) in
  (mkDec (Z.quot ix iy) s, Z.rem ix iy, iy).

(** The rounder RoundUp: away from zero. *)
Definition RoundUp (q : Dec) (rA rB : Z) : Dec :=
  if decide (Z.sgn rA = 0) then q
  else mkDec (unscaled q + Z.sgn rA * Z.sgn rB) (dscale q).

(** [z.Round(x, s, RoundUp)] *)
Definition Round (x : Dec) (s : Z) : Dec :=
  let '(zz, rA, rB) := quoRem x (NewDec 1 0) s in RoundUp zz rA rB.

(** [x.Unscaled()] *)
Definition Unscaled (x : Dec) : Z * bool :=
  let u := wrap64 (unscaled x) in (u, bool_decide (u = unscaled x)).

(** ** Values *)

Definition ten : Q := inject_Z 10.

(** m * 10^e *)
Definition decimal (m e : Z) : Q := (inject_Z m * ten ^ e)%Q.

Definition Dec_value (x : Dec) : Q := decimal (unscaled x) (- dscale x).

(** ** Lemmas on 32-bit integers *)

(** Scales whose differences do not overflow. *)
Definition small_scale (s : Z) : Prop := - 2 ^ 29 ≤ s ≤ 2 ^ 29.

Lemma sub32_small a b : small_scale a → small_scale b → sub32 a b = a - b.
Proof. unfold small_scale, sub32. intros. apply wrap32_id. unfold is_int32. lia. Qed.

Lemma neg32_small a : - 2 ^ 31 < a < 2 ^ 31 → neg32 a = - a.
Proof. intros. apply wrap32_id. unfold is_int32. lia. Qed.

(** ** Lemmas on values *)

Lemma ten_nonzero : ¬ (ten == 0)%Q.
Proof. unfold ten. by rewrite (inject_Z_injective 10 0). Qed.

Lemma ten_pos e : (0 < ten ^ e)%Q.
Proof. by apply Qpower_0_lt. Qed.

Lemma ten_pow n : 0 ≤ n → (ten ^ n == inject_Z (10 ^ n))%Q.
Proof. intros Hn. unfold ten. symmetry. by apply Qpower.Zpower_Qpower. Qed.

#[export] Instance decimal_Proper : Proper ((=) ==> (=) ==> Qeq) decimal.
Proof. by intros m ? <- e ? <-. Qed.

Lemma decimal_shift m e n : 0 ≤ n → (decimal (m * 10 ^ n) e == decimal m (e + n))%Q.
Proof.
  intros Hn. unfold decimal. rewrite Qpower_plus by apply ten_nonzero.
  rewrite inject_Z_mult, <-ten_pow by done. ring.
Qed.

Lemma decimal_plus m1 m2 e : (decimal (m1 + m2) e == decimal m1 e + decimal m2 e)%Q.
Proof. unfold decimal. rewrite inject_Z_plus. ring. Qed.

Lemma decimal_opp m e : (decimal (- m) e == - decimal m e)%Q.
Proof. unfold decimal. rewrite inject_Z_opp. ring. Qed.

Lemma decimal_0 e : (decimal 0 e == 0)%Q.
Proof. unfold decimal. ring. Qed.

Lemma decimal_compare m1 m2 e : (decimal m1 e ?= decimal m2 e)%Q = (m1 ?= m2).
Proof.
  unfold decimal. destruct (Z.compare_spec m1 m2) as [->|Hlt|Hgt].
  - by apply Qeq_alt.
  - apply Qlt_alt. apply Qmult_lt_compat_r; [apply ten_pos|]. by rewrite <-Zlt_Qlt.
  - apply Qgt_alt. apply Qmult_lt_compat_r; [apply ten_pos|]. by rewrite <-Zlt_Qlt.
Qed.

(** ** Rounding *)

(** The quotient rounded away from zero, as a specification. *)
Definition div_away (a b : Z) : Z := Z.sgn a * ((Z.abs a + b - 1) / b).

Lemma div_away_quot a b :
  0 < b → Z.quot a b + (if decide (Z.rem a b = 0) then 0 else Z.sgn a) = div_away a b.
Proof.
  intros Hb. unfold div_away.
  assert (Hpos : ∀ n, 0 ≤ n → n / b + (if decide (n mod b = 0) then 0 else 1) = (n + b - 1) / b).
  { intros n Hn. pose proof (Z.div_mod n b ltac:(lia)). pose proof (Z.mod_pos_bound n b Hb).
    case_decide as Hm.
    - rewrite Z.add_0_r. apply Z.div_unique with (r := b - 1); lia.
    - apply Z.div_unique with (r := n mod b - 1); lia. }
  destruct (Z.lt_trichotomy a 0) as [Ha|[->|Ha]].
  - assert (∃ n, a = - n ∧ 0 < n) as (n & -> & Hn) by (exists (- a); lia).
    rewrite (Z.sgn_neg (- n)), Z.abs_opp, (Z.abs_eq n) by lia. rewrite <-Hpos by lia.
    rewrite Z.quot_opp_l, Z.rem_opp_l by lia.
    rewrite Z.quot_div_nonneg, Z.rem_mod_nonneg by lia. repeat case_decide; lia.
  - rewrite Z.quot_0_l, Z.rem_0_l by lia. done.
  - rewrite (Z.sgn_pos a), (Z.abs_eq a) by lia. rewrite <-Hpos by lia.
    rewrite Z.quot_div_nonneg, Z.rem_mod_nonneg by lia. repeat case_decide; lia.
Qed.

(** It is the integer of least magnitude that is not nearer to zero. *)
Lemma div_away_spec a b :
  0 < b → Z.abs a ≤ Z.abs (div_away a b) * b < Z.abs a + b ∧ 0 ≤ Z.sgn a * div_away a b.
Proof.
  intros Hb. unfold div_away.
  assert (Hq : 0 ≤ (Z.abs a + b - 1) / b) by (apply Z.div_pos; lia).
  pose proof (Z.div_mod (Z.abs a + b - 1) b ltac:(lia)).
  pose proof (Z.mod_pos_bound (Z.abs a + b - 1) b Hb).
  set (k := (Z.abs a + b - 1) / b) in *.
  destruct (Z.lt_trichotomy a 0) as [Ha|[->|Ha]].
  - rewrite Z.sgn_neg by lia. nia.
  - simpl in *. lia.
  - rewrite Z.sgn_pos by lia. nia.
Qed.

Lemma div_away_exact k b : 0 < b → div_away (k * b) b = k.
Proof.
  intros Hb. rewrite <-div_away_quot by done. rewrite Z.quot_mul, Z.rem_mul by lia.
  rewrite decide_True by done. lia.
Qed.

Lemma div_away_abs a b : 0 < b → Z.abs (div_away a b) ≤ Z.abs a.
Proof.
  intros Hb. destruct (div_away_spec a b Hb) as [[_ Hlt] _].
  destruct (decide (Z.abs (div_away a b) ≤ Z.abs a)); nia.
Qed.

(** ** Lemmas on decimals *)

Definition sign_of (c : comparison) : Z :=
  match c with
  | Eq => 0
  | Lt => -1
  | Gt => 1
  end.

Lemma rescale_up x s :
  small_scale (dscale x) → small_scale s → dscale x ≤ s →
  dscale (rescale x s) = s ∧ (Dec_value (rescale x s) == Dec_value x)%Q.
Proof.
  intros Hx Hs Hle. unfold rescale. rewrite sub32_small by done.
  rewrite decide_False by lia. case_decide as Hgt; simpl.
  - split; [done|]. unfold Dec_value, exp10. simpl. rewrite decimal_shift by lia.
    apply decimal_Proper; lia.
  - split; [lia|done].
Qed.

Lemma upscale_spec x y :
  small_scale (dscale x) → small_scale (dscale y) →
  let '(xx, yy) := upscale x y in
  dscale xx = Z.max (dscale x) (dscale y) ∧ dscale yy = dscale xx ∧
  (Dec_value xx == Dec_value x)%Q ∧ (Dec_value yy == Dec_value y)%Q.
Proof.
  intros Hx Hy. unfold upscale. case_decide as Heq; [split_and!; [lia|done|done|done]|].
  case_decide as Hgt.
  - destruct (rescale_up y (dscale x)) as [-> ?]; [done|done|lia|]. split_and!; [lia|done|done|done].
  - destruct (rescale_up x (dscale y)) as [Hs ?]; [done|done|lia|].
    rewrite Hs. split_and!; [lia|done|done|done].
Qed.

Lemma Dec_Cmp_value x y :
  small_scale (dscale x) → small_scale (dscale y) →
  Dec_Cmp x y = sign_of (Dec_value x ?= Dec_value y)%Q.
Proof.
  intros Hx Hy. pose proof (upscale_spec x y Hx Hy) as Hu. unfold Dec_Cmp.
  destruct (upscale x y) as [xx yy]. destruct Hu as (_ & Hs & Hvx & Hvy).
  rewrite <-Hvx, <-Hvy. unfold Dec_value. rewrite Hs, decimal_compare. done.
Qed.

Lemma Dec_Add_value x y :
  small_scale (dscale x) → small_scale (dscale y) →
  dscale (Dec_Add x y) = Z.max (dscale x) (dscale y) ∧
  (Dec_value (Dec_Add x y) == Dec_value x + Dec_value y)%Q.
Proof.
  intros Hx Hy. pose proof (upscale_spec x y Hx Hy) as Hu. unfold Dec_Add.
  destruct (upscale x y) as [xx yy]. destruct Hu as (Hm & Hs & Hvx & Hvy).
  split; [done|]. rewrite <-Hvx, <-Hvy. unfold Dec_value. simpl. by rewrite decimal_plus, Hs.
Qed.

Lemma Dec_Sub_value x y :
  small_scale (dscale x) → small_scale (dscale y) →
  dscale (Dec_Sub x y) = Z.max (dscale x) (dscale y) ∧
  (Dec_value (Dec_Sub x y) == Dec_value x - Dec_value y)%Q.
Proof.
  intros Hx Hy. pose proof (upscale_spec x y Hx Hy) as Hu. unfold Dec_Sub.
  destruct (upscale x y) as [xx yy]. destruct Hu as (Hm & Hs & Hvx & Hvy).
  split; [done|]. rewrite <-Hvx, <-Hvy. unfold Dec_value. simpl. rewrite Hs.
  unfold Z.sub, Qminus. by rewrite decimal_plus, decimal_opp.
Qed.

Lemma Dec_Neg_value x : (Dec_value (Dec_Neg x) == - Dec_value x)%Q.
Proof. apply decimal_opp. Qed.

Lemma exp10_pos n : 0 ≤ n → 0 < exp10 n.
Proof. intros. unfold exp10. lia. Qed.

(** Rounding to a scale. *)
Lemma Round_spec x s :
  small_scale (dscale x) → small_scale s →
  Round x s = mkDec (if decide (dscale x ≤ s) then unscaled x * 10 ^ (s - dscale x)
                     else div_away (unscaled x) (10 ^ (dscale x - s))) s.
Proof.
  intros Hx Hs. unfold Round, quoRem, NewDec. simpl.
  assert (sub32 (dscale x) 0 = dscale x) as ->.
  { rewrite sub32_small; [lia|done|]. unfold small_scale. lia. }
  rewrite sub32_small by done.
  assert (Hone : ∀ ix, RoundUp (mkDec (ix ÷ 1) s) (Z.rem ix 1) 1 = mkDec ix s).
  { intros ix. unfold RoundUp. rewrite Z.rem_1_r, Z.quot_1_r. by rewrite decide_True by done. }
  destruct (decide (dscale x ≤ s)) as [Hle|Hle].
  - case_decide as Hgt; [by rewrite Hone|]. rewrite decide_False by lia. rewrite Hone.
    replace (s - dscale x) with 0 by lia. f_equal. lia.
  - rewrite decide_False by lia. rewrite decide_True by lia.
    rewrite neg32_small by (unfold small_scale in *; lia).
    replace (- (s - dscale x)) with (dscale x - s) by lia.
    pose proof (exp10_pos (dscale x - s) ltac:(lia)) as Hp. unfold exp10 in *.
    set (b := 10 ^ (dscale x - s)) in *. rewrite Z.mul_1_l.
    rewrite <-div_away_quot by done. unfold RoundUp. simpl. rewrite (Z.sgn_pos b), Z.mul_1_r by done.
    destruct (decide (Z.rem (unscaled x) b = 0)) as [Hr|Hr].
    + rewrite Hr. rewrite decide_True by done. by rewrite Z.add_0_r.
    + rewrite (Z.rem_sign_nz (unscaled x) b) by lia. case_decide as Hz; [|done].
      rewrite Z.sgn_null_iff in Hz. rewrite Hz, Z.rem_0_l in Hr by lia. done.
Qed.
