(* ===== verification/Amount.v ===== *)
(** * Fixed-precision amounts

    Models pkg/api/resource/math.go and the int64Amount of amount.go: checked
    64-bit arithmetic, and amounts value * 10^scale with a 64-bit value and a
    32-bit scale. *)

From Stdlib Require Import QArith Qpower.
From S2P Require Import Prelude Decimal.
Open Scope Z_scope.

(** ** Checked arithmetic *)

Definition mul64 (a b : Z) : Z := wrap64 (a * b).
Definition neg64 (a : Z) : Z := wrap64 (- a).

Definition mostNegative : Z := MinInt64.

Definition int64Add (a b : Z) : Z * bool :=
  let c := add64 a b in
  if decide (a > 0 ∧ b > 0) then
    if decide (c < 0) then (0, false) else (c, true)
  else if decide (a < 0 ∧ b < 0) then
    if decide (c > 0) then (0, false)
    else if decide (a = mostNegative ∧ b = mostNegative) then (0, false)
    else (c, true)
  else (c, true).

Definition int64Multiply (a b : Z) : Z * bool :=
  if decide (a = 0 ∨ b = 0 ∨ a = 1 ∨ b = 1) then (mul64 a b, true)
  else if decide (a = mostNegative ∨ b = mostNegative) then (0, false)
  else let c := mul64 a b in (c, bool_decide (Z.quot c b = a)).

Definition int64MultiplyScale (a b : Z) : Z * bool :=
  if decide (a = 0 ∨ a = 1) then (mul64 a b, true)
  else if decide (a = mostNegative ∧ b ≠ 1) then (0, false)
  else let c := mul64 a b in (c, bool_decide (Z.quot c b = a)).

Definition int64MultiplyScale10 (a : Z) : Z * bool :=
  if decide (a = 0 ∨ a = 1) then (mul64 a 10, true)
  else if decide (a = mostNegative) then (0, false)
  else let c := mul64 a 10 in (c, bool_decide (Z.quot c 10 = a)).

Definition int64MultiplyScale100 (a : Z) : Z * bool :=
  if decide (a = 0 ∨ a = 1) then (mul64 a 100, true)
  else if decide (a = mostNegative) then (0, false)
  else let c := mul64 a 100 in (c, bool_decide (Z.quot c 100 = a)).

Definition int64MultiplyScale1000 (a : Z) : Z * bool :=
  if decide (a = 0 ∨ a = 1) then (mul64 a 1000, true)
  else if decide (a = mostNegative) then (0, false)
  else let c := mul64 a 1000 in (c, bool_decide (Z.quot c 1000 = a)).

(** The loop of the default case, with the number of iterations left. *)
Fixpoint multiply_loop (n : nat) (value : Z) : Z * bool :=
  match n with
  | O => (value, true)
  | S n' =>
      let '(value', ok) := int64MultiplyScale value 10 in
      if ok then multiply_loop n' value' else (0, false)
  end.

Definition positiveScaleInt64 (base scale : Z) : Z * bool :=
  if decide (scale = 0) then (base, true)
  else if decide (scale = 1) then int64MultiplyScale10 base
  else if decide (scale = 2) then int64MultiplyScale100 base
  else if decide (scale = 3) then int64MultiplyScale1000 base
  else if decide (scale = 6) then int64MultiplyScale base 1000000
  else if decide (scale = 9) then int64MultiplyScale base 1000000000
  else multiply_loop (Z.to_nat scale) base.

Fixpoint divide_loop (n : nat) (base value : Z) (fraction : bool) : Z * bool :=
  match n with
  | O =>
      if fraction then (if decide (base > 0) then value + 1 else value + -1, negb fraction)
      else (value, negb fraction)
  | S n' =>
      let fraction' := if negb fraction && bool_decide (Z.rem value 10 ≠ 0) then true else fraction in
      let value' := Z.quot value 10 in
      if decide (value' = 0) then
        if fraction' then if decide (base > 0) then (1, false) else (-1, false)
        else (0, true)
      else divide_loop n' base value' fraction'
  end.

Definition negativeScaleInt64 (base scale : Z) : Z * bool :=
  if decide (scale = 0) then (base, true) else divide_loop (Z.to_nat scale) base base false.

(** The table of powers. *)
Definition pow10_table : list Z :=
  [1; 10; 100; 1000; 10000; 100000; 1000000; 10000000; 100000000; 1000000000; 10000000000;
   100000000000; 1000000000000; 10000000000000; 100000000000000; 1000000000000000;
   10000000000000000; 100000000000000000; 1000000000000000000].

Definition pow10Int64 (b : Z) : Z :=
  if decide (b < 0) then 0 else default 0 (pow10_table !! Z.to_nat b).

Definition divideByScaleInt64 (base scale : Z) : Z * Z * bool :=
  if decide (scale = 0) then (base, 0, true)
  else if decide (scale >= 18) then (0, base, false)
  else let divisor := pow10Int64 scale in (Z.quot base divisor, Z.rem base divisor, true).

(** [for result >= base && result%base == 0]; a 64-bit value has fewer than 64
    factors. *)
Fixpoint factors_loop (fuel : nat) (base result times : Z) : Z * Z :=
  match fuel with
  | O => (result, times)
  | S fuel' =>
      if decide (result >= base ∧ Z.rem result base = 0)
      then factors_loop fuel' base (Z.quot result base) (add32 times 1)
      else (result, times)
  end.

Definition removeInt64Factors (value base : Z) : Z * Z :=
  let negative := bool_decide (value < 0) in
  let result := if negative then neg64 value else value in
  let '(result', times) := factors_loop 64 base result 0 in
  (if negative then neg64 result' else result', times).

(** The loop on integers of any size; its number of iterations is less than the
    number of bits. *)
Fixpoint big_factors_loop (fuel : nat) (d factor times : Z) : Z * Z :=
  match fuel with
  | O => (d, times)
  | S fuel' =>
      if decide (d = 0) then (d, times)
      else if decide (d mod factor ≠ 0) then (d, times)
      else big_factors_loop fuel' (d / factor) factor (add32 times 1)
  end.

Definition removeBigIntFactors (d factor : Z) : Z * Z :=
  big_factors_loop (S (Z.to_nat (Z.log2 (Z.abs d)))) d factor 0.

(** ** int64Amount *)

Record int64Amount := mkAmount { value : Z; scale : Z }.

#[export] Instance int64Amount_eq_dec : EqDecision int64Amount.
Proof. solve_decision. Defined.

Definition Amount_Sign (a : int64Amount) : Z :=
  if decide (value a = 0) then 0 else if decide (value a > 0) then 1 else -1.

Definition Amount_AsInt64 (a : int64Amount) : Z * bool :=
  if decide (scale a = 0) then (value a, true)
  else if decide (scale a < 0) then (0, false)
  else positiveScaleInt64 (value a) (scale a).

Definition AsScaledInt64 (a : int64Amount) (s : Z) : Z * bool :=
  if decide (scale a < s) then ((negativeScaleInt64 (value a) (sub32 s (scale a))).1, true)
  else positiveScaleInt64 (value a) (sub32 (scale a) s).

Definition Amount_AsDec (a : int64Amount) : Dec := mkDec (value a) (neg32 (scale a)).

(** The last switch of Cmp. *)
Definition cmp_values (a b : Z) : Z :=
  if decide (a = b) then 0 else if decide (a < b) then -1 else 1.

Definition Amount_Cmp (a b : int64Amount) : Z :=
  if decide (scale a = scale b) then cmp_values (value a) (value b)
  else if decide (scale a > scale b) then
    let '(result, remainder, exact) := divideByScaleInt64 (value b) (sub32 (scale a) (scale b)) in
    if negb exact then Dec_Cmp (Amount_AsDec a) (Amount_AsDec b)
    else if decide (result = value a) then
      if decide (remainder = 0) then 0 else if decide (remainder > 0) then -1 else 1
    else cmp_values (value a) result
  else
    let '(result, remainder, exact) := divideByScaleInt64 (value a) (sub32 (scale b) (scale a)) in
    if negb exact then Dec_Cmp (Amount_AsDec a) (Amount_AsDec b)
    else if decide (result = value b) then
      if decide (remainder = 0) then 0 else if decide (remainder > 0) then 1 else -1
    else cmp_values result (value b).

(** The amount after the call, and the result. *)
Definition Amount_Add (a b : int64Amount) : int64Amount * bool :=
  if decide (value b = 0) then (a, true)
  else if decide (value a = 0) then (mkAmount (value b) (scale b), true)
  else if decide (scale a = scale b) then
    let '(c, ok) := int64Add (value a) (value b) in
    if ok then (mkAmount c (scale a), true) else (a, false)
  else if decide (scale a > scale b) then
    let '(c, ok) := positiveScaleInt64 (value a) (sub32 (scale a) (scale b)) in
    if negb ok then (a, false)
    else
      let '(c', ok') := int64Add c (value b) in
      if ok' then (mkAmount c' (scale b), true) else (a, false)
  else
    let '(c, ok) := positiveScaleInt64 (value b) (sub32 (scale b) (scale a)) in
    if negb ok then (a, false)
    else
      let '(c', ok') := int64Add (value a) c in
      if ok' then (mkAmount c' (scale a), true) else (a, false).

Definition Amount_Sub (a b : int64Amount) : int64Amount * bool :=
  Amount_Add a (mkAmount (neg64 (value b)) (scale b)).

Definition Amount_AsScale (a : int64Amount) (s : Z) : int64Amount * bool :=
  if decide (scale a >= s) then (a, true)
  else
    let '(result, exact) := negativeScaleInt64 (value a) (sub32 s (scale a)) in
    (mkAmount result s, exact).

Definition Amount_value (a : int64Amount) : Q := decimal (value a) (scale a).

(** ** Lemmas on checked arithmetic *)

Lemma wrap64_congr z : ∃ k, wrap64 z = z + k * 2 ^ 64.
Proof.
  exists (- ((z + 2 ^ 63) / 2 ^ 64)). unfold wrap64.
  pose proof (Z.div_mod (z + 2 ^ 63) (2 ^ 64) ltac:(done)). lia.
Qed.

(** A product that overflows does not divide back to its factor. *)
Lemma mul64_check a b :
  is_int64 a → is_int64 b → b ≠ 0 →
  Z.quot (mul64 a b) b = a ↔ is_int64 (a * b).
Proof.
  intros Ha Hb Hnz. unfold mul64. split.
  - intros Hq. destruct (wrap64_congr (a * b)) as [k Hk].
    pose proof (Z.quot_rem (wrap64 (a * b)) b Hnz) as Hqr. rewrite Hq, Hk in Hqr.
    pose proof (Z.rem_bound_abs (wrap64 (a * b)) b Hnz) as Hr. rewrite Hk in Hr.
    assert (k = 0) as ->. { unfold is_int64, MinInt64, MaxInt64 in Hb. lia. }
    rewrite <-(Z.add_0_r (a * b)). change 0 with (0 * 2 ^ 64). rewrite <-Hk. apply wrap64_bounds.
  - intros Hab. rewrite wrap64_id by done. by apply Z.quot_mul.
Qed.

(** The result of a checked operation with exact result [z]: either the result
    or the report of an overflow. *)
Definition checked (r : Z * bool) (z : Z) : Prop :=
  r.2 = bool_decide (is_int64 z) ∧ (r.2 = true → r.1 = z).

Lemma checked_ok r z : checked r z → is_int64 z → r = (z, true).
Proof.
  destruct r as [c ok]. intros [Hok Hc] Hz. simpl in *. rewrite bool_decide_eq_true_2 in Hok by done.
  subst ok. by rewrite Hc.
Qed.

Lemma checked_err r z : checked r z → ¬ is_int64 z → r.2 = false.
Proof. intros [Hok _] Hz. by rewrite bool_decide_eq_false_2 in Hok. Qed.

Lemma int64Add_checked a b : is_int64 a → is_int64 b → checked (int64Add a b) (a + b).
Proof.
  intros Ha Hb. unfold checked, int64Add, add64, mostNegative.
  assert (Hw : wrap64 (a + b) =
    if decide (a + b > MaxInt64) then a + b - 2 ^ 64
    else if decide (a + b < MinInt64) then a + b + 2 ^ 64 else a + b).
  { unfold is_int64, MinInt64, MaxInt64, wrap64 in *. repeat case_decide.
    - rewrite <-(Z.mod_unique (a + b + 2 ^ 63) (2 ^ 64) 1 (a + b + 2 ^ 63 - 2 ^ 64)); lia.
    - rewrite <-(Z.mod_unique (a + b + 2 ^ 63) (2 ^ 64) (-1) (a + b + 2 ^ 63 + 2 ^ 64)); lia.
    - rewrite Z.mod_small; lia. }
  rewrite Hw. unfold is_int64, MinInt64, MaxInt64 in *.
  repeat (case_decide; simpl); split; try done; try lia;
    rewrite ?(bool_decide_eq_true_2 (_ ≤ _ ≤ _)) by lia; rewrite ?bool_decide_eq_false_2 by lia; done || lia.
Qed.

Lemma int64MultiplyScale_checked a b :
  is_int64 a → is_int64 b → 1 < b → checked (int64MultiplyScale a b) (a * b).
Proof.
  intros Ha Hb Hpos. unfold checked, int64MultiplyScale.
  case_decide as Hs; [|case_decide as Hm]; simpl.
  - assert (is_int64 (a * b)). { unfold is_int64 in *. destruct Hs as [-> | ->]; unfold MinInt64, MaxInt64 in *; lia. }
    rewrite bool_decide_eq_true_2 by done. split; [done|]. intros _. by apply wrap64_id.
  - destruct Hm as [-> _]. rewrite bool_decide_eq_false_2; [done|].
    unfold is_int64, mostNegative, MinInt64, MaxInt64 in *. lia.
  - split.
    + apply bool_decide_ext. apply mul64_check; [done|done|lia].
    + rewrite bool_decide_eq_true. intros Hq%mul64_check; [|done|done|lia]. by apply wrap64_id.
Qed.

Lemma int64MultiplyScale_special a b :
  1 < b → int64MultiplyScale a b =
  if decide (a = 0 ∨ a = 1) then (mul64 a b, true)
  else if decide (a = mostNegative) then (0, false)
  else (mul64 a b, bool_decide (Z.quot (mul64 a b) b = a)).
Proof. intros Hb. unfold int64MultiplyScale. repeat case_decide; naive_solver lia. Qed.

Lemma int64MultiplyScale10_scale a : int64MultiplyScale10 a = int64MultiplyScale a 10.
Proof. by rewrite int64MultiplyScale_special. Qed.
Lemma int64MultiplyScale100_scale a : int64MultiplyScale100 a = int64MultiplyScale a 100.
Proof. by rewrite int64MultiplyScale_special. Qed.
Lemma int64MultiplyScale1000_scale a : int64MultiplyScale1000 a = int64MultiplyScale a 1000.
Proof. by rewrite int64MultiplyScale_special. Qed.

Lemma int64Multiply_checked a b : is_int64 a → is_int64 b → checked (int64Multiply a b) (a * b).
Proof.
  intros Ha Hb. unfold checked, int64Multiply.
  case_decide as Hs; [|case_decide as Hm]; simpl.
  - assert (is_int64 (a * b)).
    { unfold is_int64, MinInt64, MaxInt64 in *. destruct Hs as [-> |[-> |[-> | ->]]]; lia. }
    rewrite bool_decide_eq_true_2 by done. split; [done|]. intros _. by apply wrap64_id.
  - rewrite bool_decide_eq_false_2; [done|]. unfold is_int64, mostNegative, MinInt64, MaxInt64 in *.
    destruct Hm as [-> | ->]; intros ?; lia.
  - split.
    + apply bool_decide_ext. apply mul64_check; [done|done|naive_solver].
    + rewrite bool_decide_eq_true. intros Hq%mul64_check; [|done|done|naive_solver]. by apply wrap64_id.
Qed.

Lemma multiply_loop_checked n base : is_int64 base → checked (multiply_loop n base) (base * 10 ^ Z.of_nat n).
Proof.
  revert base. induction n as [|n IH]; intros base Hb.
  { simpl. rewrite Z.mul_1_r. split; [|done]. by rewrite bool_decide_eq_true_2. }
  rewrite Nat2Z.inj_succ, Z.pow_succ_r, Z.mul_assoc by lia.
  cbn [multiply_loop]. pose proof (int64MultiplyScale_checked base 10 Hb ltac:(done) ltac:(done)) as Hc.
  destruct (decide (is_int64 (base * 10))) as [Hi|Hi].
  - rewrite (checked_ok _ _ Hc Hi). by apply IH.
  - apply checked_err in Hc; [|done]. destruct (int64MultiplyScale base 10) as [v ok].
    simpl in Hc. subst ok. split; [|done]. symmetry. apply bool_decide_eq_false.
    pose proof (Z.pow_pos_nonneg 10 (Z.of_nat n)). unfold is_int64, MinInt64, MaxInt64 in *. nia.
Qed.

Lemma positiveScaleInt64_checked base s :
  is_int64 base → 0 ≤ s → checked (positiveScaleInt64 base s) (base * 10 ^ s).
Proof.
  intros Hb Hs. unfold positiveScaleInt64.
  rewrite int64MultiplyScale10_scale, int64MultiplyScale100_scale, int64MultiplyScale1000_scale.
  repeat case_decide; try subst s.
  - rewrite Z.mul_1_r. split; [|done]. by rewrite bool_decide_eq_true_2.
  - by apply (int64MultiplyScale_checked base 10).
  - by apply (int64MultiplyScale_checked base 100).
  - by apply (int64MultiplyScale_checked base 1000).
  - by apply (int64MultiplyScale_checked base 1000000).
  - by apply (int64MultiplyScale_checked base 1000000000).
  - rewrite <-(Z2Nat.id s) at 2 by lia. by apply multiply_loop_checked.
Qed.

(** ** Lemmas on division *)

Lemma rem_mul_10 v b :
  0 < b → Z.rem v (10 * b) = 0 ↔ Z.rem v 10 = 0 ∧ Z.rem (Z.quot v 10) b = 0.
Proof.
  intros Hb. rewrite !Z.rem_divide by lia. split.
  - intros [k ->]. split; [exists (k * b); lia|]. exists k.
    replace (k * (10 * b)) with (k * b * 10) by lia. by rewrite Z.quot_mul.
  - intros [[k ->] [j Hj]]. rewrite Z.quot_mul in Hj by lia. exists j. lia.
Qed.

Lemma quot_10_sgn v : Z.quot v 10 ≠ 0 → Z.sgn (Z.quot v 10) = Z.sgn v.
Proof.
  intros Hz. destruct (Z.lt_trichotomy v 0) as [Hv|[-> |Hv]]; [|done|].
  - pose proof (Z.quot_opp_l v 10 ltac:(done)). pose proof (Z.quot_pos (- v) 10). rewrite !Z.sgn_neg; lia.
  - pose proof (Z.quot_pos v 10). rewrite !Z.sgn_pos; lia.
Qed.

(** What the loop has left to do: round the quotient of [v] by 10^n, knowing
    whether something was cut off before. *)
Lemma divide_loop_spec n base v fraction :
  (v = 0 ∨ Z.sgn v = Z.sgn base) → (fraction = true → base ≠ 0) →
  divide_loop n base v fraction =
    let cut := fraction || bool_decide (Z.rem v (10 ^ Z.of_nat n) ≠ 0) in
    (Z.quot v (10 ^ Z.of_nat n) + (if cut then Z.sgn base else 0), negb cut).
Proof.
  revert v fraction. induction n as [|n IH]; intros v fraction Hsgn Hf.
  { simpl. rewrite Z.rem_1_r, Z.quot_1_r, orb_false_r. destruct fraction; [|by rewrite Z.add_0_r].
    f_equal. case_decide; [rewrite Z.sgn_pos by lia; done|]. rewrite Z.sgn_neg; [done|].
    specialize (Hf eq_refl). lia. }
  cbn [divide_loop]. rewrite Nat2Z.inj_succ, Z.pow_succ_r by lia. cbv zeta.
  set (b := 10 ^ Z.of_nat n) in *. assert (Hb : 0 < b) by (unfold b; lia).
  set (fraction' := if negb fraction && _ then true else fraction).
  assert (Hfr : fraction' = fraction || bool_decide (Z.rem v 10 ≠ 0)).
  { unfold fraction'. by destruct fraction, (bool_decide (Z.rem v 10 ≠ 0)). }
  assert (Hf' : fraction' = true → base ≠ 0).
  { rewrite Hfr, orb_true_iff, bool_decide_eq_true. intros [?|Hr]; [auto|].
    intros ->. simpl in Hsgn. assert (v = 0) as -> by lia. by rewrite Z.rem_0_l in Hr. }
  assert (Hcut : fraction || bool_decide (Z.rem v (10 * b) ≠ 0) =
                 fraction' || bool_decide (Z.rem (Z.quot v 10) b ≠ 0)).
  { rewrite Hfr. destruct fraction; [done|]. simpl. pose proof (rem_mul_10 v b Hb).
    repeat case_bool_decide; naive_solver. }
  assert (Hquot : Z.quot v (10 * b) = Z.quot (Z.quot v 10) b) by (rewrite Z.quot_quot; lia).
  rewrite Hcut, Hquot. destruct (decide (Z.quot v 10 = 0)) as [Hz|Hz].
  - rewrite Hz, Z.quot_0_l, Z.rem_0_l by lia. rewrite orb_false_r.
    destruct fraction' eqn:Hfe; [|done]. specialize (Hf' eq_refl).
    destruct (decide (base > 0)); [by rewrite Z.sgn_pos by lia|by rewrite Z.sgn_neg by lia].
  - apply IH; [|done]. right. destruct Hsgn as [-> |<-]; [done|].
    by apply quot_10_sgn.
Qed.

Lemma negativeScaleInt64_spec base s :
  0 ≤ s → negativeScaleInt64 base s =
  (div_away base (10 ^ s), bool_decide (Z.rem base (10 ^ s) = 0)).
Proof.
  intros Hs. assert (Hb : 0 < 10 ^ s) by lia. rewrite <-div_away_quot by done.
  unfold negativeScaleInt64. case_decide as Hz.
  - subst s. simpl. by rewrite Z.quot_1_r, Z.rem_1_r, Z.add_0_r.
  - rewrite divide_loop_spec by (done || by right). rewrite Z2Nat.id by done. simpl.
    repeat case_decide; repeat case_bool_decide; try done.
Qed.

Lemma pow10Int64_spec s : 0 ≤ s < 19 → pow10Int64 s = 10 ^ s.
Proof.
  intros Hs. rewrite <-(Z2Nat.id s) by lia. assert (Hn : (Z.to_nat s < 19)%nat) by lia. revert Hn.
  generalize (Z.to_nat s). intros n Hn. do 19 (destruct n as [|n]; [done|]). lia.
Qed.

(** ** Lemmas on amounts *)

Record amount_wf (a : int64Amount) : Prop := {
  aw_value : is_int64 (value a);
  aw_scale : small_scale (scale a)
}.

Lemma AsDec_value a :
  small_scale (scale a) →
  small_scale (dscale (Amount_AsDec a)) ∧ (Dec_value (Amount_AsDec a) == Amount_value a)%Q.
Proof.
  intros Hs. unfold Dec_value, Amount_value. simpl. unfold small_scale in Hs.
  rewrite neg32_small by lia. split; [unfold small_scale; lia|]. by rewrite Z.opp_involutive.
Qed.

Lemma cmp_values_spec a b : cmp_values a b = sign_of (a ?= b).
Proof. unfold cmp_values. destruct (Z.compare_spec a b); repeat case_decide; simpl; lia. Qed.

Lemma sign_of_sym a b : sign_of (a ?= b) = - sign_of (b ?= a).
Proof. rewrite (Z.compare_antisym b a). by destruct (b ?= a). Qed.

(** Comparing with a truncated quotient and then with the remainder. *)
Lemma cmp_quot b x y :
  0 < b →
  (if decide (Z.quot y b = x) then
     if decide (Z.rem y b = 0) then 0 else if decide (Z.rem y b > 0) then -1 else 1
   else cmp_values x (Z.quot y b)) = sign_of (x * b ?= y).
Proof.
  intros Hb. pose proof (Z.quot_rem y b ltac:(lia)) as Hq.
  pose proof (Z.rem_bound_abs y b ltac:(lia)) as Hr. rewrite (Z.abs_eq b) in Hr by lia.
  rewrite cmp_values_spec. set (q := Z.quot y b) in *. set (r := Z.rem y b) in *.
  case_decide as Hx; [subst x; repeat case_decide|].
  - by rewrite (proj2 (Z.compare_eq_iff (q * b) y)) by lia.
  - by rewrite (proj2 (Z.compare_lt_iff (q * b) y)) by lia.
  - by rewrite (proj2 (Z.compare_gt_iff (q * b) y)) by lia.
  - destruct (Z.compare_spec x q); [lia| |]; simpl.
    + by rewrite (proj2 (Z.compare_lt_iff (x * b) y)) by nia.
    + by rewrite (proj2 (Z.compare_gt_iff (x * b) y)) by nia.
Qed.

Lemma divideByScaleInt64_spec base s :
  0 < s → divideByScaleInt64 base s =
  if decide (s >= 18) then (0, base, false)
  else (Z.quot base (10 ^ s), Z.rem base (10 ^ s), true).
Proof.
  intros Hs. unfold divideByScaleInt64. rewrite decide_False by lia.
  case_decide; [done|]. by rewrite pow10Int64_spec by lia.
Qed.

(** The value of an amount at a smaller scale. *)
Lemma Amount_value_at a s :
  s ≤ scale a → (Amount_value a == decimal (value a * 10 ^ (scale a - s)) s)%Q.
Proof.
  intros Hs. rewrite decimal_shift by lia. apply decimal_Proper; lia.
Qed.

Lemma AsDec_Cmp a b :
  amount_wf a → amount_wf b →
  Dec_Cmp (Amount_AsDec a) (Amount_AsDec b) = sign_of (Amount_value a ?= Amount_value b)%Q.
Proof.
  intros [_ Ha] [_ Hb]. destruct (AsDec_value a Ha) as [? Hva], (AsDec_value b Hb) as [? Hvb].
  by rewrite Dec_Cmp_value, Hva, Hvb by done.
Qed.

Lemma Amount_Cmp_value a b :
  amount_wf a → amount_wf b →
  Amount_Cmp a b = sign_of (Amount_value a ?= Amount_value b)%Q.
Proof.
  intros Ha Hb. pose proof (AsDec_Cmp a b Ha Hb) as Hdec. destruct Ha as [_ Ha], Hb as [_ Hb].
  unfold Amount_Cmp. case_decide as Heq; [|case_decide as Hgt].
  - rewrite cmp_values_spec. unfold Amount_value. by rewrite Heq, decimal_compare.
  - rewrite sub32_small, divideByScaleInt64_spec by (done || lia).
    case_decide as Hbig; [done|]. simpl. rewrite cmp_quot by lia.
    rewrite (Amount_value_at a (scale b)) by lia. unfold Amount_value. by rewrite decimal_compare.
  - rewrite sub32_small, divideByScaleInt64_spec by (done || lia).
    case_decide as Hbig; [done|]. simpl.
    rewrite (Amount_value_at b (scale a)) by lia. unfold Amount_value.
    rewrite decimal_compare, sign_of_sym, <-cmp_quot by lia.
    rewrite !cmp_values_spec, (sign_of_sym (value b)). repeat case_decide; lia.
Qed.

(** When adding amounts is exact: the aligned values and their sum fit. *)
Definition sum_fits (a b : int64Amount) : Prop :=
  let s := Z.min (scale a) (scale b) in
  let va := value a * 10 ^ (scale a - s) in
  let vb := value b * 10 ^ (scale b - s) in
  value a = 0 ∨ value b = 0 ∨ is_int64 va ∧ is_int64 vb ∧ is_int64 (va + vb).

(** Split on whether a checked operation [r], computing [z], overflows. *)
Ltac checked_cases H r z :=
  let Hf := fresh "Hfit" in let ok := fresh "ok" in
  destruct (decide (is_int64 z)) as [Hf|Hf];
  [rewrite (checked_ok _ _ H Hf); simpl
  |apply checked_err in H; [|exact Hf]; destruct r as [? ok]; simpl in H; subst ok; simpl].

Lemma Amount_Add_value a b :
  amount_wf a → amount_wf b →
  match Amount_Add a b with
  | (c, true) => amount_wf c ∧ (Amount_value c == Amount_value a + Amount_value b)%Q ∧ sum_fits a b
  | (c, false) => c = a ∧ ¬ sum_fits a b
  end.
Proof.
  intros [Hva Hsa] [Hvb Hsb]. unfold Amount_Add, sum_fits.
  case_decide as Hb0; [|case_decide as Ha0].
  { split_and!; [done| |auto]. unfold Amount_value. rewrite Hb0, decimal_0. ring. }
  { split_and!; [done| |auto]. unfold Amount_value. rewrite Ha0, decimal_0. simpl. ring. }
  case_decide as Heq; [|case_decide as Hgt].
  - rewrite Heq, Z.min_id, Z.sub_diag, !Z.mul_1_r.
    pose proof (int64Add_checked _ _ Hva Hvb) as Hc.
    checked_cases Hc (int64Add (value a) (value b)) (value a + value b); [|tauto].
    split_and!; [done| |tauto]. unfold Amount_value. simpl. by rewrite decimal_plus, Heq.
  - rewrite Z.min_r, Z.sub_diag, Z.mul_1_r by lia. rewrite sub32_small by done.
    pose proof (positiveScaleInt64_checked (value a) (scale a - scale b) Hva ltac:(lia)) as Hp.
    checked_cases Hp (positiveScaleInt64 (value a) (scale a - scale b))
      (value a * 10 ^ (scale a - scale b)); [|tauto].
    pose proof (int64Add_checked _ _ Hfit Hvb) as Hc. set (va := value a * _) in *.
    checked_cases Hc (int64Add va (value b)) (va + value b); [|tauto].
    split_and!; [done| |tauto]. rewrite (Amount_value_at a (scale b)) by lia.
    unfold Amount_value. simpl. by rewrite decimal_plus.
  - rewrite Z.min_l, Z.sub_diag, Z.mul_1_r by lia. rewrite sub32_small by done.
    pose proof (positiveScaleInt64_checked (value b) (scale b - scale a) Hvb ltac:(lia)) as Hp.
    checked_cases Hp (positiveScaleInt64 (value b) (scale b - scale a))
      (value b * 10 ^ (scale b - scale a)); [|tauto].
    pose proof (int64Add_checked _ _ Hva Hfit) as Hc. set (vb := value b * _) in *.
    checked_cases Hc (int64Add (value a) vb) (value a + vb); [|tauto].
    split_and!; [done| |tauto]. rewrite (Amount_value_at b (scale a)) by lia.
    unfold Amount_value. simpl. by rewrite decimal_plus.
Qed.

Lemma neg64_small v : is_int64 v → v ≠ mostNegative → neg64 v = - v ∧ is_int64 (- v).
Proof.
  intros Hv Hm. assert (is_int64 (- v)).
  { unfold is_int64, mostNegative, MinInt64, MaxInt64 in *. lia. }
  split; [by apply wrap64_id|done].
Qed.

Lemma Amount_Sub_value a b c :
  amount_wf a → amount_wf b → value b ≠ mostNegative → Amount_Sub a b = (c, true) →
  amount_wf c ∧ (Amount_value c == Amount_value a - Amount_value b)%Q.
Proof.
  intros Ha [Hvb Hsb] Hm Hsub. unfold Amount_Sub in Hsub.
  destruct (neg64_small _ Hvb Hm) as [Hn Hi]. rewrite Hn in Hsub.
  pose proof (Amount_Add_value a (mkAmount (- value b) (scale b)) Ha) as Hadd.
  rewrite Hsub in Hadd. destruct Hadd as (Hc & Hv & _); [done|]. split; [done|].
  rewrite Hv. unfold Amount_value. simpl. rewrite decimal_opp. ring.
Qed.

(** The value at a given scale: rounded away from zero when precision is lost,
    or reported not to fit. *)
Lemma AsScaledInt64_spec a s :
  amount_wf a → small_scale s →
  if decide (scale a < s)
  then AsScaledInt64 a s = (div_away (value a) (10 ^ (s - scale a)), true)
  else checked (AsScaledInt64 a s) (value a * 10 ^ (scale a - s)).
Proof.
  intros [Hv Hs] Hs'. unfold AsScaledInt64. case_decide as Hlt.
  - rewrite sub32_small, negativeScaleInt64_spec by (done || lia). done.
  - rewrite sub32_small by done. apply positiveScaleInt64_checked; [done|lia].
Qed.

Lemma Amount_AsScale_spec a s :
  amount_wf a → small_scale s →
  Amount_AsScale a s =
  if decide (scale a >= s) then (a, true)
  else (mkAmount (div_away (value a) (10 ^ (s - scale a))) s,
        bool_decide (Z.rem (value a) (10 ^ (s - scale a)) = 0)).
Proof.
  intros [Hv Hs] Hs'. unfold Amount_AsScale. case_decide; [done|].
  by rewrite sub32_small, negativeScaleInt64_spec by (done || lia).
Qed.
