(* ===== verification/Quantity.v ===== *)
(** * Resource quantities

    Models the arithmetic of pkg/api/resource/quantity.go and scale_int.go.  A
    quantity holds an [int64Amount], or a decimal of any size once an operation
    does not fit; its text is cached.  The methods of the source take pointers to
    quantities: a method that changes its receiver returns it.  A decimal belongs
    to one quantity, as the comments of the source ask for. *)

From Stdlib Require Import QArith Qpower Qround.
From S2P Require Import Prelude Decimal Amount.
Open Scope Z_scope.

(** ** Data *)

Definition DecimalExponent : string := "DecimalExponent".
Definition BinarySI : string := "BinarySI".
Definition DecimalSI : string := "DecimalSI".

Definition Nano : Z := -9.
Definition Milli : Z := -3.

Record Quantity := mkQuantity {
  qi : int64Amount;
  qd : option Dec;
  qs : string;
  Format : string
}.

#[export] Instance Quantity_eq_dec : EqDecision Quantity.
Proof. solve_decision. Defined.

Definition zeroAmount : int64Amount := mkAmount 0 0.

Definition NewQuantity (v : Z) (format : string) : Quantity :=
  mkQuantity (mkAmount v 0) None "" format.
Definition NewMilliQuantity (v : Z) (format : string) : Quantity :=
  mkQuantity (mkAmount v (-3)) None "" format.
Definition NewScaledQuantity (v s : Z) : Quantity := mkQuantity (mkAmount v s) None "" DecimalSI.

Definition clear_s (q : Quantity) : Quantity := mkQuantity (qi q) (qd q) "" (Format q).
Definition set_Format (f : string) (q : Quantity) : Quantity := mkQuantity (qi q) (qd q) (qs q) f.

Definition SetScaled (v s : Z) (q : Quantity) : Quantity := mkQuantity (mkAmount v s) None "" (Format q).

(** ** Operations *)

Definition AsInt64 (q : Quantity) : Z * bool :=
  match qd q with
  | Some _ => (0, false)
  | None => Amount_AsInt64 (qi q)
  end.

Definition ToDec (q : Quantity) : Quantity :=
  match qd q with
  | Some _ => q
  | None => mkQuantity zeroAmount (Some (Amount_AsDec (qi q))) (qs q) (Format q)
  end.

(** AsDec promotes its receiver as well. *)
Definition AsDec (q : Quantity) : Dec * Quantity :=
  match qd q with
  | Some d => (d, q)
  | None => (Amount_AsDec (qi q), ToDec q)
  end.

Definition IsZero (q : Quantity) : bool :=
  match qd q with
  | Some d => bool_decide (Dec_Sign d = 0)
  | None => bool_decide (value (qi q) = 0)
  end.

Definition Sign (q : Quantity) : Z :=
  match qd q with
  | Some d => Dec_Sign d
  | None => Amount_Sign (qi q)
  end.

(** infDecAmount.AsScale *)
Definition Dec_AsScale (d : Dec) (s : Z) : Dec * bool :=
  let tmp := Round d (neg32 s) in (tmp, bool_decide (Dec_Cmp tmp d = 0)).

Definition Quantity_RoundUp (s : Z) (q : Quantity) : Quantity * bool :=
  match qd q with
  | Some d =>
      let '(d', exact) := Dec_AsScale d s in (mkQuantity (qi q) (Some d') "" (Format q), exact)
  | None =>
      if decide (scale (qi q) >= s) then (q, true)
      else let '(i', exact) := Amount_AsScale (qi q) s in
           (mkQuantity i' None "" (Format q), exact)
  end.

(** [q.ToDec().d.Dec.Add(q.d.Dec, y.AsDec())] *)
Definition dec_op (op : Dec → Dec → Dec) (q y : Quantity) : Quantity :=
  mkQuantity (qi (ToDec q)) (Some (op (AsDec q).1 (AsDec y).1)) (qs q) (Format q).

Definition Add (q y : Quantity) : Quantity :=
  let q1 := clear_s q in
  match qd q1, qd y with
  | None, None =>
      let q2 := if decide (value (qi q1) = 0) then set_Format (Format y) q1 else q1 in
      let '(i', ok) := Amount_Add (qi q2) (qi y) in
      if ok then mkQuantity i' None (qs q2) (Format q2) else dec_op Dec_Add q2 y
  | _, _ =>
      let q2 := if IsZero q1 then set_Format (Format y) q1 else q1 in
      dec_op Dec_Add q2 y
  end.

Definition Sub (q y : Quantity) : Quantity :=
  let q1 := clear_s q in
  let q2 := if IsZero q1 then set_Format (Format y) q1 else q1 in
  match qd q2, qd y with
  | None, None =>
      let '(i', ok) := Amount_Sub (qi q2) (qi y) in
      if ok then mkQuantity i' None (qs q2) (Format q2) else dec_op Dec_Sub q2 y
  | _, _ => dec_op Dec_Sub q2 y
  end.

(** The result, and the receiver after the call. *)
Definition Cmp (q y : Quantity) : Z * Quantity :=
  match qd q, qd y with
  | None, None => (Amount_Cmp (qi q) (qi y), q)
  | _, _ => (Dec_Cmp (AsDec q).1 (AsDec y).1, (AsDec q).2)
  end.

Definition CmpInt64 (q : Quantity) (y : Z) : Z :=
  match qd q with
  | Some d => Dec_Cmp d (NewDec y 0)
  | None => Amount_Cmp (qi q) (mkAmount y 0)
  end.

Definition Neg (q : Quantity) : Quantity :=
  match qd q with
  | None => mkQuantity (mkAmount (neg64 (value (qi q))) (scale (qi q))) None "" (Format q)
  | Some d => mkQuantity (qi q) (Some (Dec_Neg d)) "" (Format q)
  end.

(** ** Values as integers *)

(** [int64(math.Pow10(n))], for n not negative: powers up to 10^18 are exact;
    a conversion that does not fit gives the least integer on amd64. *)
Definition Pow10 (n : Z) : Z := if decide (n ≤ 18) then 10 ^ n else MinInt64.

(** [scaledValue]; the low 64 bits of a big integer are its [Int64]. *)
Definition scaledValue (u s newScale : Z) : Z :=
  let dif := s - newScale in
  if decide (dif = 0) then wrap64 u
  else if decide (dif < 0) then mul64 (wrap64 u) (Pow10 (- dif))
  else if decide (u < MaxInt64 ∧ dif < 19) then
    let divide := Pow10 dif in
    let result := Z.quot (wrap64 u) divide in
    if decide (Z.rem (wrap64 u) divide ≠ 0) then add64 result 1 else result
  else
    let divisor := 10 ^ dif in
    let result := u / divisor in
    if decide (Z.sgn (u mod divisor) ≠ 0) then add64 (wrap64 result) 1 else wrap64 result.

Definition ScaledValue (q : Quantity) (s : Z) : Z :=
  match qd q with
  | None => (AsScaledInt64 (qi q) s).1
  | Some d => scaledValue (unscaled d) (dscale d) (neg32 s)
  end.

Definition Value (q : Quantity) : Z := ScaledValue q 0.
Definition MilliValue (q : Quantity) : Z := ScaledValue q Milli.

(** ** The number a quantity stands for *)

Definition Quantity_value (q : Quantity) : Q :=
  match qd q with
  | Some d => Dec_value d
  | None => Amount_value (qi q)
  end.

Record quantity_wf (q : Quantity) : Prop := {
  qw_amount : amount_wf (qi q);
  qw_dec : ∀ d, qd q = Some d → small_scale (dscale d)
}.

Lemma zeroAmount_wf : amount_wf zeroAmount.
Proof. split; [done|]. by split. Qed.

Lemma AsDec_fst_value q :
  quantity_wf q → small_scale (dscale (AsDec q).1) ∧ (Dec_value (AsDec q).1 == Quantity_value q)%Q.
Proof.
  intros [[_ Hs] Hd]. unfold AsDec, Quantity_value. destruct (qd q) as [d|]; simpl.
  - split; [by apply Hd|done].
  - by apply AsDec_value.
Qed.

Lemma ToDec_value q : quantity_wf q → quantity_wf (ToDec q) ∧ (Quantity_value (ToDec q) == Quantity_value q)%Q.
Proof.
  intros Hq. destruct (AsDec_fst_value q Hq) as [Hs Hv]. destruct Hq as [Ha Hd].
  unfold ToDec, Quantity_value, AsDec in *. destruct (qd q) as [d|] eqn:Hqd.
  - rewrite Hqd. split; [split; [done|by rewrite Hqd]|done].
  - simpl in *. split; [split; [apply zeroAmount_wf|by intros ? [= <-]]|done].
Qed.

(** ** Lemmas on the operations *)

Lemma dec_op_wf op q y :
  quantity_wf q → quantity_wf y →
  small_scale (dscale (op (AsDec q).1 (AsDec y).1)) → quantity_wf (dec_op op q y).
Proof.
  intros Hq Hy Hs. destruct (ToDec_value q Hq) as [[Ht _] _]. split; [done|]. by intros d [= <-].
Qed.

Lemma clear_s_wf q : quantity_wf q → quantity_wf (clear_s q).
Proof. by intros []. Qed.

Lemma set_Format_wf f q : quantity_wf q → quantity_wf (set_Format f q).
Proof. by intros []. Qed.

Lemma small_scale_max a b : small_scale a → small_scale b → small_scale (Z.max a b).
Proof. unfold small_scale. lia. Qed.

Lemma dec_add q y :
  quantity_wf q → quantity_wf y →
  quantity_wf (dec_op Dec_Add q y) ∧
  (Quantity_value (dec_op Dec_Add q y) == Quantity_value q + Quantity_value y)%Q.
Proof.
  intros Hq Hy. destruct (AsDec_fst_value q Hq) as [Hsq Hvq], (AsDec_fst_value y Hy) as [Hsy Hvy].
  destruct (Dec_Add_value _ _ Hsq Hsy) as [Hs Hv]. split.
  - apply dec_op_wf; [done..|]. rewrite Hs. by apply small_scale_max.
  - unfold Quantity_value at 1. simpl. by rewrite Hv, Hvq, Hvy.
Qed.

Lemma dec_sub q y :
  quantity_wf q → quantity_wf y →
  quantity_wf (dec_op Dec_Sub q y) ∧
  (Quantity_value (dec_op Dec_Sub q y) == Quantity_value q - Quantity_value y)%Q.
Proof.
  intros Hq Hy. destruct (AsDec_fst_value q Hq) as [Hsq Hvq], (AsDec_fst_value y Hy) as [Hsy Hvy].
  destruct (Dec_Sub_value _ _ Hsq Hsy) as [Hs Hv]. split.
  - apply dec_op_wf; [done..|]. rewrite Hs. by apply small_scale_max.
  - unfold Quantity_value at 1. simpl. by rewrite Hv, Hvq, Hvy.
Qed.

Lemma IsZero_value q : IsZero q = true ↔ (Quantity_value q == 0)%Q.
Proof.
  assert (Hd : ∀ m e, (decimal m e == 0)%Q ↔ m = 0).
  { intros m e. rewrite <-(decimal_0 e), Qeq_alt, decimal_compare. apply Z.compare_eq_iff. }
  unfold IsZero, Quantity_value. destruct (qd q) as [d|].
  - unfold Dec_value, Dec_Sign. by rewrite Hd, bool_decide_eq_true, Z.sgn_null_iff.
  - unfold Amount_value. by rewrite Hd, bool_decide_eq_true.
Qed.

(** ** The theorems *)

(** Adding quantities is exact.  Whatever their representations, the sum has
    exactly the value of the sum: when the fixed-precision form would overflow the
    decimal form takes over.  A zero receiver takes the format of the other
    quantity, and the cached text is dropped. *)
Theorem quantity_add_exact q y :
  quantity_wf q → quantity_wf y →
  quantity_wf (Add q y) ∧ (Quantity_value (Add q y) == Quantity_value q + Quantity_value y)%Q ∧
  Format (Add q y) = (if IsZero q then Format y else Format q) ∧ qs (Add q y) = "".
Proof.
  intros Hq Hy. pose proof (clear_s_wf q Hq) as Hq1. unfold Add.
  assert (Hz : IsZero (clear_s q) = IsZero q) by done. rewrite Hz.
  set (q2 := if IsZero q then set_Format (Format y) (clear_s q) else clear_s q).
  assert (Hq2 : quantity_wf q2) by (unfold q2; destruct (IsZero q); [by apply set_Format_wf|done]).
  assert (Hv2 : Quantity_value q2 = Quantity_value q) by (unfold q2; by destruct (IsZero q)).
  assert (Hf2 : Format q2 = if IsZero q then Format y else Format q) by (unfold q2; by destruct (IsZero q)).
  assert (Hs2 : qs q2 = "") by (unfold q2; by destruct (IsZero q)).
  destruct (dec_add q2 y Hq2 Hy) as [Hdw Hdv]. rewrite Hv2 in Hdv.
  change (qd (clear_s q)) with (qd q). destruct (qd q) as [d|] eqn:Hd; [by split_and!|].
  destruct (qd y) as [dy|] eqn:Hdy; [by split_and!|].
  assert ((if decide (value (qi (clear_s q)) = 0) then set_Format (Format y) (clear_s q) else clear_s q) = q2)
    as ->. { unfold q2, IsZero. rewrite Hd. simpl. repeat case_decide; repeat case_bool_decide; done. }
  pose proof (Amount_Add_value (qi q2) (qi y) (qw_amount _ Hq2) (qw_amount _ Hy)) as Ha.
  destruct (Amount_Add (qi q2) (qi y)) as [i' [|]]; [|by split_and!].
  destruct Ha as (Hw & Hv & _). split_and!; [by split| |done|done].
  unfold Quantity_value at 1. simpl. rewrite Hv.
  assert (Hi : qi q2 = qi q) by (unfold q2; by destruct (IsZero q)).
  unfold Quantity_value. by rewrite Hd, Hdy, Hi.
Qed.

(** Comparing quantities is comparing their values, in any representation; the
    receiver keeps its value, although it may change its representation. *)
Theorem quantity_cmp_exact q y :
  quantity_wf q → quantity_wf y →
  (Cmp q y).1 = sign_of (Quantity_value q ?= Quantity_value y)%Q ∧
  (Quantity_value (Cmp q y).2 == Quantity_value q)%Q.
Proof.
  intros Hq Hy. destruct (AsDec_fst_value q Hq) as [Hsq Hvq], (AsDec_fst_value y Hy) as [Hsy Hvy].
  assert (Hdec : Dec_Cmp (AsDec q).1 (AsDec y).1 = sign_of (Quantity_value q ?= Quantity_value y)%Q).
  { by rewrite Dec_Cmp_value, Hvq, Hvy by done. }
  assert (Hrecv : (Quantity_value (AsDec q).2 == Quantity_value q)%Q).
  { unfold AsDec. destruct (qd q) eqn:Hd; [done|]. by apply ToDec_value. }
  unfold Cmp. destruct (qd q) as [d|] eqn:Hd; [done|]. destruct (qd y) as [dy|] eqn:Hdy; [done|].
  split; [|done]. unfold Quantity_value. rewrite Hd, Hdy. apply Amount_Cmp_value; [apply Hq|apply Hy].
Qed.

(** Subtracting quantities is exact, except that the least 64-bit integer has
    no negation. *)
Theorem quantity_sub_exact q y :
  quantity_wf q → quantity_wf y → (qd y = None → value (qi y) ≠ mostNegative) →
  quantity_wf (Sub q y) ∧ (Quantity_value (Sub q y) == Quantity_value q - Quantity_value y)%Q.
Proof.
  intros Hq Hy Hm. pose proof (clear_s_wf q Hq) as Hq1. unfold Sub.
  set (q2 := if IsZero (clear_s q) then set_Format (Format y) (clear_s q) else clear_s q).
  assert (Hq2 : quantity_wf q2) by (unfold q2; destruct (IsZero _); [by apply set_Format_wf|done]).
  assert (Hv2 : Quantity_value q2 = Quantity_value q) by (unfold q2; by destruct (IsZero _)).
  destruct (dec_sub q2 y Hq2 Hy) as [Hdw Hdv]. rewrite Hv2 in Hdv.
  destruct (qd q2) as [d|] eqn:Hd; [done|]. destruct (qd y) as [dy|] eqn:Hdy; [done|].
  destruct (Amount_Sub (qi q2) (qi y)) as [i' [|]] eqn:Hsub; [|done].
  destruct (Amount_Sub_value _ _ _ (qw_amount _ Hq2) (qw_amount _ Hy) (Hm eq_refl) Hsub) as [Hw Hv].
  split; [by split|]. unfold Quantity_value at 1. simpl. rewrite Hv, <-Hv2.
  unfold Quantity_value. by rewrite Hd, Hdy.
Qed.

Example sub_most_negative :
  let q := Sub (NewQuantity 0 DecimalSI) (NewQuantity MinInt64 DecimalSI) in
  (Quantity_value q == inject_Z MinInt64)%Q.
Proof. vm_compute. reflexivity. Qed.

(** ** Values as integers *)

Lemma decimal_scale m e s : (decimal m e * ten ^ (- s) == decimal m (e - s))%Q.
Proof.
  unfold decimal. unfold Z.sub. rewrite Qpower_plus by apply ten_nonzero. ring.
Qed.

Lemma Qceiling_decimal_up m e : 0 ≤ e → Qceiling (decimal m e) = m * 10 ^ e.
Proof.
  intros He. rewrite <-(Qceiling_Z (m * 10 ^ e)). apply Qceiling_comp.
  unfold decimal. by rewrite ten_pow, inject_Z_mult by done.
Qed.

Lemma Qceiling_decimal_down m n : 0 ≤ n → Qceiling (decimal m (- n)) = - (- m / 10 ^ n).
Proof.
  intros Hn. unfold Qceiling. f_equal. rewrite Zdiv_Qdiv. apply Qfloor_comp.
  rewrite <-decimal_opp. unfold decimal, Qdiv. rewrite Qpower_opp, ten_pow by done. done.
Qed.

Lemma div_away_ceil m b : 0 < b → 0 ≤ m → div_away m b = - (- m / b).
Proof.
  intros Hb Hm. pose proof (Z.div_mod (- m) b ltac:(lia)). pose proof (Z.mod_pos_bound (- m) b Hb).
  unfold div_away. destruct (decide (m = 0)) as [-> |Hnz]; [by rewrite Z.div_0_l by lia|].
  rewrite Z.sgn_pos, Z.abs_eq, Z.mul_1_l by lia. symmetry.
  apply Z.div_unique with (r := b - 1 - (- m) mod b); lia.
Qed.

Lemma decimal_nonneg m e : (0 <= decimal m e)%Q ↔ 0 ≤ m.
Proof. by rewrite <-(decimal_0 e), Qle_alt, decimal_compare, Z.compare_le_iff. Qed.

Lemma pow10_fits k : 0 ≤ k → 10 ^ k ≤ MaxInt64 → k ≤ 18.
Proof.
  intros Hk Hp. destruct (decide (k ≤ 18)) as [|Hgt]; [done|]. exfalso.
  pose proof (Z.pow_le_mono_r 10 19 k ltac:(lia) ltac:(lia)) as Hmono. unfold MaxInt64 in Hp. lia.
Qed.

(** The conversion of a decimal that is not negative. *)
Lemma scaledValue_spec u s newScale :
  0 ≤ u →
  let dif := s - newScale in
  (if decide (dif ≤ 0) then u * 10 ^ (- dif) else - (- u / 10 ^ dif)) ≤ MaxInt64 →
  scaledValue u s newScale = if decide (dif ≤ 0) then u * 10 ^ (- dif) else - (- u / 10 ^ dif).
Proof.
  intros Hu dif Hmax. unfold scaledValue. fold dif.
  assert (Hfits : ∀ z, 0 ≤ z ≤ MaxInt64 → wrap64 z = z).
  { intros z Hz. apply wrap64_id. unfold is_int64, MinInt64, MaxInt64 in *. lia. }
  destruct (decide (dif ≤ 0)) as [Hle|Hgt].
  - destruct (decide (dif = 0)) as [Hz|Hz].
    { rewrite Hz in *. rewrite Z.mul_1_r in *. apply Hfits. lia. }
    rewrite decide_True by lia. destruct (decide (u = 0)) as [-> |Hnz]; [done|].
    assert (Hp : 0 < 10 ^ (- dif)) by lia.
    unfold Pow10. rewrite decide_True by (apply pow10_fits; nia). unfold mul64.
    rewrite (Hfits u) by nia. apply Hfits. nia.
  - rewrite (decide_False (P := dif = 0)), (decide_False (P := dif < 0)) by lia.
    assert (Hp : 0 < 10 ^ dif) by lia. rewrite <-div_away_ceil in * by lia.
    rewrite <-div_away_quot in * by done.
    assert (Hq : 0 ≤ Z.quot u (10 ^ dif)) by (apply Z.quot_pos; lia).
    assert (Hsgn : Z.rem u (10 ^ dif) ≠ 0 → Z.sgn u = 1).
    { intros Hr. apply Z.sgn_pos. destruct (decide (u = 0)) as [-> |]; [|lia]. by rewrite Z.rem_0_l in Hr by lia. }
    destruct (decide (u < MaxInt64 ∧ dif < 19)) as [Hfast|Hslow].
    + unfold Pow10. rewrite (decide_True (P := dif ≤ 18)) by lia. rewrite (Hfits u) by lia.
      destruct (decide (Z.rem u (10 ^ dif) = 0)) as [Hr|Hr].
      * rewrite decide_False by lia. lia.
      * rewrite decide_True by lia. rewrite Hsgn in * by done. apply Hfits. lia.
    + rewrite <-Z.quot_div_nonneg, <-Z.rem_mod_nonneg by lia.
      destruct (decide (Z.rem u (10 ^ dif) = 0)) as [Hr|Hr].
      * rewrite Hr, decide_False by (simpl; lia). rewrite Hfits by lia. lia.
      * rewrite decide_True by (by rewrite Z.sgn_null_iff). rewrite Hsgn in * by done.
        unfold add64. rewrite (Hfits (Z.quot _ _)) by lia. apply Hfits. lia.
Qed.

(** Reading a quantity as an integer.  For a quantity that is not negative, in
    either representation, ScaledValue is the least integer that is not below
    value / 10^s, provided it fits in 64 bits. *)
Theorem scaled_value_ceil q s :
  quantity_wf q → small_scale s → (0 <= Quantity_value q)%Q →
  Qceiling (Quantity_value q * ten ^ (- s)) ≤ MaxInt64 →
  ScaledValue q s = Qceiling (Quantity_value q * ten ^ (- s)).
Proof.
  intros [Ha Hd] Hs Hpos Hmax. unfold ScaledValue, Quantity_value in *.
  destruct (qd q) as [d|] eqn:Hqd.
  - specialize (Hd d eq_refl). apply decimal_nonneg in Hpos. unfold Dec_value in *.
    rewrite neg32_small by (unfold small_scale in Hs; lia).
    pose proof (decimal_scale (unscaled d) (- dscale d) s) as Hsc.
    rewrite (Qceiling_comp _ _ Hsc) in *. set (dif := dscale d - - s).
    assert (Hval : Qceiling (decimal (unscaled d) (- dscale d - s)) =
      if decide (dif ≤ 0) then unscaled d * 10 ^ (- dif) else - (- unscaled d / 10 ^ dif)).
    { replace (- dscale d - s) with (- dif) by (unfold dif; lia).
      case_decide; [apply Qceiling_decimal_up|apply Qceiling_decimal_down]; lia. }
    rewrite Hval in *. by apply scaledValue_spec.
  - apply decimal_nonneg in Hpos. unfold Amount_value in *.
    pose proof (decimal_scale (value (qi q)) (scale (qi q)) s) as Hsc.
    rewrite (Qceiling_comp _ _ Hsc) in *. pose proof (AsScaledInt64_spec (qi q) s Ha Hs) as Hspec.
    destruct (decide (scale (qi q) < s)) as [Hlt|Hge].
    + rewrite Hspec. simpl. replace (scale (qi q) - s) with (- (s - scale (qi q))) by lia.
      rewrite Qceiling_decimal_down by lia. apply div_away_ceil; lia.
    + rewrite Qceiling_decimal_up in * by lia.
      rewrite (checked_ok _ _ Hspec); [done|].
      assert (0 < 10 ^ (scale (qi q) - s)) by lia. unfold is_int64, MinInt64 in *. nia.
Qed.

(** The integer read from a negative quantity depends on its representation.  A
    negative value with a fraction, m / 10^n, is rounded away from zero in the
    fixed-precision form, and to one above the truncated quotient in the
    decimal form; neither is the ceiling that is documented. *)
Theorem scaled_value_negative m n f :
  is_int64 m → m < 0 → 0 < n < 19 → Z.rem m (10 ^ n) ≠ 0 →
  let fixed := mkQuantity (mkAmount m (- n)) None "" f in
  let dec := mkQuantity zeroAmount (Some (mkDec m n)) "" f in
  (Quantity_value fixed == Quantity_value dec)%Q ∧
  Qceiling (Quantity_value fixed) = Z.quot m (10 ^ n) ∧
  Value fixed = Z.quot m (10 ^ n) - 1 ∧ Value dec = Z.quot m (10 ^ n) + 1.
Proof.
  intros Hm Hneg Hn Hr fixed dec. assert (Hp : 0 < 10 ^ n) by lia.
  assert (Hwf : amount_wf (mkAmount m (- n))). { split; [done|]. unfold small_scale. simpl. lia. }
  pose proof (Z.quot_rem m (10 ^ n) ltac:(lia)) as Hqr.
  pose proof (Z.rem_bound_abs m (10 ^ n) ltac:(lia)) as Hb. rewrite (Z.abs_eq (10 ^ n)) in Hb by lia.
  assert (Hrneg : Z.rem m (10 ^ n) < 0). { pose proof (Z.rem_nonpos m (10 ^ n)). lia. }
  split_and!.
  - unfold fixed, dec, Quantity_value, Amount_value, Dec_value. simpl. done.
  - unfold fixed, Quantity_value, Amount_value. simpl. rewrite Qceiling_decimal_down by lia.
    apply Z.opp_inj. rewrite Z.opp_involutive. symmetry.
    apply Z.div_unique with (r := - Z.rem m (10 ^ n)); lia.
  - unfold Value, ScaledValue, fixed. simpl.
    pose proof (AsScaledInt64_spec (mkAmount m (- n)) 0 Hwf ltac:(done)) as Hspec. simpl in Hspec.
    rewrite decide_True in Hspec by lia. rewrite Hspec. simpl. rewrite Z.opp_involutive.
    rewrite <-div_away_quot, decide_False, Z.sgn_neg by lia. done.
  - unfold Value, ScaledValue, dec, scaledValue, Pow10. simpl. rewrite Z.sub_0_r.
    rewrite (decide_False (P := n = 0)), (decide_False (P := n < 0)) by lia.
    rewrite decide_True by (unfold MaxInt64; lia). rewrite (decide_True (P := n ≤ 18)) by lia.
    rewrite wrap64_id, decide_True by done.
    apply wrap64_id. unfold is_int64, MinInt64, MaxInt64 in *. nia.
Qed.

(** ** Quantities at work *)

Lemma wf_fixed v s t f : is_int64 v → small_scale s → quantity_wf (mkQuantity (mkAmount v s) None t f).
Proof. intros Hv Hs. by split. Qed.

(** The sum overflows the fixed-precision form. *)
Lemma quantity_add_exact_witness :
  let q := Add (NewQuantity MaxInt64 DecimalSI) (NewMilliQuantity 1 DecimalSI) in
  is_Some (qd q) ∧ (Quantity_value q == inject_Z MaxInt64 + decimal 1 (-3))%Q.
Proof.
  split; [eexists; vm_compute; reflexivity|].
  destruct (quantity_add_exact (NewQuantity MaxInt64 DecimalSI) (NewMilliQuantity 1 DecimalSI))
    as (_ & Hv & _); [by apply wf_fixed|by apply wf_fixed|].
  rewrite Hv. vm_compute. reflexivity.
Defined.

Lemma quantity_cmp_exact_witness :
  (Cmp (NewMilliQuantity 1500 DecimalSI) (NewQuantity 2 DecimalSI)).1 = -1 ∧
  (Cmp (NewMilliQuantity 1500 DecimalSI) (NewQuantity 2 DecimalSI)).1 =
    sign_of (decimal 1500 (-3) ?= decimal 2 0)%Q.
Proof.
  split; [reflexivity|].
  apply (quantity_cmp_exact (NewMilliQuantity 1500 DecimalSI) (NewQuantity 2 DecimalSI));
    by apply wf_fixed.
Defined.

Lemma quantity_sub_exact_witness :
  (Quantity_value (Sub (NewQuantity 2 DecimalSI) (NewMilliQuantity 1500 DecimalSI)) ==
   decimal 2 0 - decimal 1500 (-3))%Q.
Proof.
  apply (quantity_sub_exact (NewQuantity 2 DecimalSI) (NewMilliQuantity 1500 DecimalSI));
    [by apply wf_fixed..|discriminate].
Defined.

Lemma scaled_value_ceil_witness :
  Value (NewMilliQuantity 1500 DecimalSI) = 2 ∧
  Value (NewMilliQuantity 1500 DecimalSI) = Qceiling (decimal 1500 (-3) * ten ^ (- 0)).
Proof.
  split; [reflexivity|].
  apply (scaled_value_ceil (NewMilliQuantity 1500 DecimalSI) 0);
    [by apply wf_fixed|done|vm_compute; discriminate|vm_compute; discriminate].
Defined.

Lemma scaled_value_negative_witness :
  Value (mkQuantity (mkAmount (-15) (-1)) None "" DecimalSI) = -2 ∧
  Value (mkQuantity zeroAmount (Some (mkDec (-15) 1)) "" DecimalSI) = 0.
Proof.
  destruct (scaled_value_negative (-15) 1 DecimalSI) as (_ & _ & Hfixed & Hdec);
    [done|done|lia|done|]. split; [exact Hfixed|exact Hdec].
Defined.
