(* ===== verification/QuantityText.v ===== *)
(** * The text of quantities

    Models suffix.go, the parser and the printer of quantity.go, the canonical
    forms of amount.go, and the scanner of decimals of vendor/gopkg.in/inf.v0.
    The parser of the source walks through the text with indices; here each loop
    splits the text that is left. *)

From Stdlib Require Import QArith Qpower.
From S2P Require Import Prelude Decimal Amount Quantity.
Open Scope Z_scope.

(** ** Suffixes *)

Record listSuffixer := mkSuffixer {
  suffixToBE : gmap string (Z * Z);
  beToSuffix : gmap (Z * Z) string
}.

Definition addSuffix (e : string * (Z * Z)) (ls : listSuffixer) : listSuffixer :=
  mkSuffixer (<[e.1 := e.2]> (suffixToBE ls)) (<[e.2 := e.1]> (beToSuffix ls)).

Definition suffixer_of (l : list (string * (Z * Z))) : listSuffixer :=
  foldl (λ ls e, addSuffix e ls) (mkSuffixer ∅ ∅) l.

Definition binSuffixes : listSuffixer :=
  suffixer_of [("Ki", (2, 10)); ("Mi", (2, 20)); ("Gi", (2, 30)); ("Ti", (2, 40)); ("Pi", (2, 50));
               ("Ei", (2, 60))].

Definition decSuffixes : listSuffixer :=
  suffixer_of [("", (2, 0)); ("n", (10, -9)); ("u", (10, -6)); ("m", (10, -3)); ("", (10, 0));
               ("k", (10, 3)); ("M", (10, 6)); ("G", (10, 9)); ("T", (10, 12)); ("P", (10, 15));
               ("E", (10, 18))].

(** suffixHandler.interpret: base, exponent and format. *)
Definition handler_interpret (suf : string) : option (Z * Z * string) :=
  match suffixToBE decSuffixes !! suf with
  | Some (b, e) => Some (b, e, DecimalSI)
  | None =>
      match suffixToBE binSuffixes !! suf with
      | Some (b, e) => Some (b, e, BinarySI)
      | None =>
          match suf with
          | String c rest =>
              if decide (rest ≠ "" ∧ (c = "E" ∨ c = "e")%char) then
                match ParseInt rest with
                | Some parsed => Some (10, wrap32 parsed, DecimalExponent)
                | None => None
                end
              else None
          | EmptyString => None
          end
      end
  end.

(** fastLookup.interpret *)
Definition interpret (suf : string) : option (Z * Z * string) :=
  if decide (suf = "") then Some (10, 0, DecimalSI)
  else if decide (suf = "n") then Some (10, -9, DecimalSI)
  else if decide (suf = "u") then Some (10, -6, DecimalSI)
  else if decide (suf = "m") then Some (10, -3, DecimalSI)
  else if decide (suf = "k") then Some (10, 3, DecimalSI)
  else if decide (suf = "M") then Some (10, 6, DecimalSI)
  else if decide (suf = "G") then Some (10, 9, DecimalSI)
  else handler_interpret suf.

Definition constructBytes (base exponent : Z) (format : string) : option string :=
  if decide (format = DecimalSI) then beToSuffix decSuffixes !! (base, exponent)
  else if decide (format = BinarySI) then beToSuffix binSuffixes !! (base, exponent)
  else if decide (format = DecimalExponent) then
    if decide (base ≠ 10) then None
    else if decide (exponent = 0) then Some ""
    else Some ("e" +:+ FormatInt exponent)
  else None.

(** ** Canonical forms *)

(** [for exponent%3 != 0 { amount.Mul(amount, bigTen); exponent-- }]: at most two
    iterations. *)
Fixpoint align_loop (fuel : nat) (amount exponent : Z) : Z * Z :=
  match fuel with
  | O => (amount, exponent)
  | S fuel' =>
      if decide (Z.rem exponent 3 ≠ 0) then align_loop fuel' (amount * 10) (sub32 exponent 1)
      else (amount, exponent)
  end.

Definition Dec_AsCanonicalBytes (d : Dec) : string * Z :=
  let exponent := neg32 (dscale d) in
  let '(amount, times) := removeBigIntFactors (unscaled d) 10 in
  let '(amount', exponent') := align_loop 3 amount (add32 exponent times) in
  (FormatInt amount', exponent').

Definition Dec_AsCanonicalBase1024Bytes (d : Dec) : string * Z :=
  let '(amount, exponent) := removeBigIntFactors (unscaled (Round d 0)) 1024 in
  (FormatInt amount, exponent).

Definition Amount_AsCanonicalBytes (a : int64Amount) : string * Z :=
  let '(amount, times) := removeInt64Factors (value a) 10 in
  let exponent := add32 (scale a) times in
  let r := Z.rem exponent 3 in
  if decide (r = 1 ∨ r = -2) then
    let '(amount', ok) := int64MultiplyScale10 amount in
    if ok then (FormatInt amount', sub32 exponent 1) else Dec_AsCanonicalBytes (Amount_AsDec a)
  else if decide (r = 2 ∨ r = -1) then
    let '(amount', ok) := int64MultiplyScale100 amount in
    if ok then (FormatInt amount', sub32 exponent 2) else Dec_AsCanonicalBytes (Amount_AsDec a)
  else (FormatInt amount, exponent).

Definition Amount_AsCanonicalBase1024Bytes (a : int64Amount) : string * Z :=
  let '(v, ok) := AsScaledInt64 a 0 in
  if ok then
    let '(amount, exponent) := removeInt64Factors v 1024 in (FormatInt amount, exponent)
  else Dec_AsCanonicalBase1024Bytes (Amount_AsDec a).

(** ** Printing *)

Definition CanonicalValue : Type := int64Amount + Dec.

Definition Quantity_AsScale (q : Quantity) (s : Z) : CanonicalValue * bool :=
  match qd q with
  | Some d => let '(d', exact) := Dec_AsScale d s in (inr d', exact)
  | None => let '(i', exact) := Amount_AsScale (qi q) s in (inl i', exact)
  end.

Definition Quantity_AsCanonicalBytes (q : Quantity) : string * Z :=
  match qd q with
  | Some d => Dec_AsCanonicalBytes d
  | None => Amount_AsCanonicalBytes (qi q)
  end.

Definition AsCanonicalBase1024Bytes (v : CanonicalValue) : string * Z :=
  match v with
  | inl a => Amount_AsCanonicalBase1024Bytes a
  | inr d => Dec_AsCanonicalBase1024Bytes d
  end.

(** The format in which a quantity is printed. *)
Definition print_format (q : Quantity) : string :=
  if decide (Format q = DecimalExponent ∨ Format q = DecimalSI) then Format q
  else if decide (Format q = BinarySI) then
    if decide (CmpInt64 q (-1024) > 0 ∧ CmpInt64 q 1024 < 0) then DecimalSI
    else if (Quantity_AsScale q 0).2 then BinarySI else DecimalSI
  else DecimalExponent.

Definition CanonicalizeBytes (q : Quantity) : string * string :=
  if IsZero q then ("0", "")
  else
    let format := print_format q in
    if decide (format = DecimalExponent ∨ format = DecimalSI) then
      let '(number, exponent) := Quantity_AsCanonicalBytes q in
      (number, default "" (constructBytes 10 exponent format))
    else
      let '(number, exponent) := AsCanonicalBase1024Bytes (Quantity_AsScale q 0).1 in
      (number, default "" (constructBytes 2 (exponent * 10) format)).

(** The text, and the quantity with its text cached. *)
Definition Quantity_String (q : Quantity) : string * Quantity :=
  if decide (qs q = "") then
    let '(number, suf) := CanonicalizeBytes q in
    let s := number +:+ suf in (s, mkQuantity (qi q) (qd q) s (Format q))
  else (qs q, q).

(** ** Scanning *)

(** The longest prefix of characters that satisfy [p], and the rest. *)
Fixpoint span (p : ascii → bool) (s : string) : string * string :=
  match s with
  | EmptyString => ("", "")
  | String c s' => if p c then let '(a, b) := span p s' in (String c a, b) else ("", s)
  end.

Definition is_zero_char (c : ascii) : bool := bool_decide (c = "0"%char).
Definition is_digit (c : ascii) : bool := bool_decide (is_Some (digit_value c)).
Definition is_suffix_char (c : ascii) : bool := string_has c "eEinumkKMGTP".

Definition take_sign (s : string) : bool * string :=
  match s with
  | String "-" s' => (false, s')
  | String "+" s' => (true, s')
  | _ => (true, s)
  end.

Record number_parts := mkParts {
  np_positive : bool; np_value : string; np_num : string; np_denom : string; np_suffix : string
}.

(** The part of the text before [rest]. *)
Definition before (str rest : string) : string :=
  String.substring 0 (String.length str - String.length rest) str.

(** The last loops: the letters, the sign and the digits of the suffix. *)
Definition suffix_ok (rest : string) : bool :=
  match (span is_suffix_char rest).2 with
  | EmptyString => true
  | rest1 =>
      bool_decide ((span is_digit (take_sign rest1).2).2 = "")
  end.

(** None is ErrFormatWrong. *)
Definition parseQuantityString (str : string) : option number_parts :=
  let '(positive, s1) := take_sign str in
  match (span is_zero_char s1).2 with
  | EmptyString => Some (mkParts positive "0" "0" "" "")
  | s2 =>
      let '(num, s3) := span is_digit s2 in
      match s3 with
      | EmptyString => Some (mkParts positive str num "" "")
      | _ =>
          let num' := if decide (num = "") then "0" else num in
          match s3 with
          | String "." s4 =>
              let '(denom, s5) := span is_digit s4 in
              match s5 with
              | EmptyString => Some (mkParts positive str num' denom "")
              | _ => if suffix_ok s5 then Some (mkParts positive (before str s5) num' denom s5) else None
              end
          | _ => if suffix_ok s3 then Some (mkParts positive (before str s3) num' "" s3) else None
          end
      end
  end.

(** The scanner of decimals after the sign: the digits read so far, and the
    number of those after the point. *)
Fixpoint dec_scan (s : string) (digits : string) (point : option Z)
    : option (string * option Z) :=
  match s with
  | EmptyString => Some (digits, point)
  | String c s' =>
      if decide (c = "."%char) then
        match point with
        | Some _ => None
        | None => dec_scan s' digits (Some 0)
        end
      else if is_digit c then dec_scan s' (digits +:+ String c "") ((λ n, n + 1) <$> point)
      else None
  end.

(** [SetString]; a text that the scanner does not consume is refused. *)
Definition Dec_SetString (s : string) : option Dec :=
  let '(positive, s1) := take_sign s in
  match dec_scan s1 "" None with
  | Some (digits, point) =>
      match digits, parse_digits 0 digits with
      | EmptyString, _ => None
      | _, None => None
      | _, Some n => Some (mkDec (if positive then n else - n) (wrap32 (default 0 point)))
      end
  | None => None
  end.

(** ** Parsing *)

Inductive quantity_error := ErrFormatWrong | ErrSuffix | ErrNumeric.

Definition maxInt64Factors : Z := 18.

Definition len32 (s : string) : Z := wrap32 (Z.of_nat (String.length s)).

(** The scale, the precision and the mantissa for the fast path. *)
Definition parse_precision (parts : number_parts) (exponent : Z) (format : string) : Z * Z * Z :=
  if decide (format = DecimalExponent ∨ format = DecimalSI) then
    (exponent, sub32 maxInt64Factors (len32 (np_num parts +:+ np_denom parts)), 1)
  else if decide (format = BinarySI) then
    if decide (exponent >= 0 ∧ np_denom parts = "") then
      (0, sub32 (sub32 (sub32 15 (len32 (np_num parts))) (Z.quot (exponent * 3) 10)) 1,
       wrap64 (Z.shiftl 1 exponent))
    else (0, -1, 1)
  else (0, 0, 1).

Definition has_suffix (s suf : string) : bool :=
  bool_decide (String.length suf ≤ String.length s)%nat &&
  bool_decide (String.substring (String.length s - String.length suf) (String.length suf) s = suf).

Definition starts_with_zero (s : string) : bool :=
  match s with
  | String c _ => is_zero_char c
  | EmptyString => false
  end.

(** Whether the text is reused as the canonical one. *)
Definition reuse_text (format shifted : string) (exponent s v : Z) : bool :=
  if decide (format = BinarySI) then
    bool_decide (Z.rem exponent 10 = 0) && bool_decide (Z.land v 7 ≠ 0)
  else
    bool_decide (Z.rem s 3 = 0) && negb (has_suffix shifted "000") && negb (starts_with_zero shifted).

(** The fast path; None when it does not apply. *)
Definition parse_fast (str : string) (parts : number_parts) (exponent : Z) (format : string)
    : option (result quantity_error Quantity) :=
  let '(s0, precision, mantissa) := parse_precision parts exponent format in
  if decide (precision >= 0) then
    let s := sub32 s0 (len32 (np_denom parts)) in
    if decide (s >= Nano) then
      let shifted := np_num parts +:+ np_denom parts in
      match ParseInt shifted with
      | None => Some (Err ErrNumeric)
      | Some v =>
          let '(r, ok) := int64Multiply v mantissa in
          if ok then
            let r' := if np_positive parts then r else neg64 r in
            let text := if reuse_text format shifted exponent s v then str else "" in
            Some (Ok (mkQuantity (mkAmount r' s) None text format))
          else None
      end
    else None
  else None.

Definition maxAllowed : Dec := mkDec MaxInt64 0.

(** Capping and rounding of a decimal that is not negative. *)
Definition parse_round (amount : Dec) (format : string) : Dec * string :=
  let '(v, ok) := Unscaled amount in
  let amount1 := if decide (v ≠ 0 ∨ ok = false) then Round amount (neg32 Nano) else amount in
  let amount2 := if decide (format = BinarySI ∧ Dec_Cmp amount1 maxAllowed > 0)
                 then maxAllowed else amount1 in
  let format' := if decide (format = BinarySI ∧ Dec_Cmp amount2 (mkDec 1 0) < 0 ∧
                            Dec_Cmp amount2 (mkDec 0 0) > 0)
                 then DecimalSI else format in
  (amount2, format').

Definition parse_slow (parts : number_parts) (base exponent : Z) (format : string)
    : result quantity_error Quantity :=
  match Dec_SetString (np_value parts) with
  | None => Err ErrNumeric
  | Some amount0 =>
      let amount :=
        if decide (base = 10) then
          mkDec (unscaled amount0) (add32 (dscale amount0) (neg32 exponent))
        else if decide (base = 2) then
          mkDec (unscaled amount0 * Z.shiftl 1 exponent) (dscale amount0)
        else amount0 in
      let negative := bool_decide (Dec_Sign amount = -1) in
      let '(amount', format') :=
        parse_round (if negative then Dec_Neg amount else amount) format in
      Ok (mkQuantity zeroAmount (Some (if negative then Dec_Neg amount' else amount')) "" format')
  end.

Definition ParseQuantity (str : string) : result quantity_error Quantity :=
  if decide (str = "") then Err ErrFormatWrong
  else if decide (str = "0") then Ok (mkQuantity zeroAmount None str DecimalSI)
  else
    match parseQuantityString str with
    | None => Err ErrFormatWrong
    | Some parts =>
        match interpret (np_suffix parts) with
        | None => Err ErrSuffix
        | Some (base, exponent, format) =>
            match parse_fast str parts exponent format with
            | Some r => r
            | None => parse_slow parts base exponent format
            end
        end
    end.

(** ** Lemmas on canonical forms *)

Lemma add32_small a b : is_int32 (a + b) → add32 a b = a + b.
Proof. apply wrap32_id. Qed.

Lemma factors_loop_spec fuel base r t :
  1 < base → 0 ≤ t → t + Z.of_nat fuel < 2 ^ 31 →
  let '(r', t') := factors_loop fuel base r t in
  r = r' * base ^ (t' - t) ∧ t ≤ t' ≤ t + Z.of_nat fuel ∧ (0 < r → 0 < r').
Proof.
  intros Hb. revert r t. induction fuel as [|fuel IH]; intros r t Ht Hf; simpl.
  { rewrite Z.sub_diag. split_and!; lia. }
  case_decide as Hc; [|rewrite Z.sub_diag; split_and!; lia].
  destruct Hc as [Hge Hr]. rewrite add32_small by (unfold is_int32; lia).
  specialize (IH (Z.quot r base) (t + 1) ltac:(lia) ltac:(lia)).
  destruct (factors_loop fuel base (Z.quot r base) (t + 1)) as [r' t'].
  destruct IH as (Hq & Hle & Hpos). pose proof (Z.quot_rem r base ltac:(lia)) as Hqr.
  rewrite Hr, Z.add_0_r in Hqr. split_and!; [|lia|lia|].
  - rewrite Hqr, Hq. replace (t' - t) with (Z.succ (t' - (t + 1))) by lia.
    rewrite Z.pow_succ_r by lia. lia.
  - intros _. apply Hpos. apply Z.quot_str_pos. lia.
Qed.

Lemma factors_loop_small fuel base r t : r < base → factors_loop fuel base r t = (r, t).
Proof. intros Hr. destruct fuel as [|fuel]; [done|]. cbn [factors_loop]. rewrite decide_False; [done|]. lia. Qed.

Lemma removeInt64Factors_spec v base :
  1 < base → is_int64 v →
  let '(r, t) := removeInt64Factors v base in
  v = r * base ^ t ∧ 0 ≤ t ≤ 64 ∧ is_int64 r.
Proof.
  intros Hb Hv. unfold removeInt64Factors.
  set (w := if bool_decide (v < 0) then neg64 v else v).
  pose proof (factors_loop_spec 64 base w 0 Hb ltac:(lia) ltac:(lia)) as Hf.
  destruct (factors_loop 64 base w 0) as [r t] eqn:Hloop. destruct Hf as (Hw & Ht & Hpos).
  rewrite Z.sub_0_r in Hw. assert (Hbt : 0 < base ^ t) by (apply Z.pow_pos_nonneg; lia).
  assert (Hsize : Z.abs r ≤ Z.abs w) by nia.
  unfold w in *. case_bool_decide as Hneg; [|split_and!; [done|lia|lia|]; unfold is_int64, MinInt64, MaxInt64 in *; lia].
  destruct (decide (v = mostNegative)) as [-> |Hm].
  - change (neg64 mostNegative) with mostNegative in *.
    assert (Hstop : factors_loop 64 base mostNegative 0 = (mostNegative, 0)).
    { apply factors_loop_small. unfold mostNegative, MinInt64. lia. }
    rewrite Hstop in Hloop. injection Hloop as <- <-. done.
  - destruct (neg64_small v Hv Hm) as [Hn Hi]. rewrite Hn in *.
    assert (Hr : 0 < r) by (apply Hpos; lia).
    assert (Hir : is_int64 r) by (unfold is_int64, MinInt64, MaxInt64 in *; lia).
    destruct (neg64_small r Hir) as [-> Hir']; [unfold mostNegative, MinInt64; lia|].
    split_and!; [lia|lia|lia|done].
Qed.

Lemma big_factors_loop_spec fuel d factor t :
  1 < factor → 0 ≤ t → t + Z.of_nat fuel < 2 ^ 31 →
  let '(d', t') := big_factors_loop fuel d factor t in
  d = d' * factor ^ (t' - t) ∧ t ≤ t' ≤ t + Z.of_nat fuel.
Proof.
  intros Hb. revert d t. induction fuel as [|fuel IH]; intros d t Ht Hf; simpl.
  { rewrite Z.sub_diag. lia. }
  case_decide; [rewrite Z.sub_diag; lia|]. case_decide as Hm; [rewrite Z.sub_diag; lia|].
  rewrite add32_small by (unfold is_int32; lia).
  specialize (IH (d / factor) (t + 1) ltac:(lia) ltac:(lia)).
  destruct (big_factors_loop fuel (d / factor) factor (t + 1)) as [d' t']. destruct IH as (Hq & Hle).
  pose proof (Z.div_mod d factor ltac:(lia)) as Hd. split; [|lia].
  rewrite Hd, Hm, Hq.
  replace (t' - t) with (Z.succ (t' - (t + 1))) by lia. rewrite Z.pow_succ_r by lia. lia.
Qed.

(** Decimals whose factors of ten can be counted in 32 bits. *)
Record dec_small (d : Dec) : Prop := {
  ds_scale : small_scale (dscale d);
  ds_size : Z.log2 (Z.abs (unscaled d)) < 2 ^ 29
}.

Lemma align_loop_done fuel m e : Z.rem e 3 = 0 → align_loop fuel m e = (m, e).
Proof. intros He. destruct fuel as [|fuel]; [done|]. cbn [align_loop]. rewrite decide_False; [done|]. auto. Qed.

Lemma align_loop_step fuel m e :
  is_int32 (e - 1) → Z.rem e 3 ≠ 0 → align_loop (S fuel) m e = align_loop fuel (m * 10) (e - 1).
Proof. intros Hi He. cbn [align_loop]. rewrite decide_True by done. unfold sub32. by rewrite wrap32_id. Qed.

Lemma rem_3 z k : z = 3 * k → Z.rem z 3 = 0.
Proof. intros ->. rewrite Z.mul_comm. by apply Z.rem_mul. Qed.

Lemma align_loop_spec amount e :
  - 2 ^ 30 - 2 ^ 29 ≤ e ≤ 2 ^ 30 + 2 ^ 29 →
  ∃ k, 0 ≤ k ≤ 2 ∧ align_loop 3 amount e = (amount * 10 ^ k, e - k) ∧ Z.rem (e - k) 3 = 0.
Proof.
  intros He. pose proof (Z.quot_rem e 3 ltac:(done)) as Hqr.
  pose proof (Z.rem_bound_abs e 3 ltac:(done)) as Hb. set (q := Z.quot e 3) in *.
  set (r := Z.rem e 3) in *.
  assert (Hcases : r = 0 ∨ (r = 1 ∨ r = -2) ∨ (r = 2 ∨ r = -1)) by lia.
  destruct Hcases as [Hr|[Hr|Hr]].
  - exists 0. rewrite Z.sub_0_r, Z.mul_1_r, align_loop_done by done. done.
  - assert (Hd : Z.rem (e - 1) 3 = 0).
    { destruct Hr; [apply (rem_3 _ q)|apply (rem_3 _ (q - 1))]; lia. }
    exists 1. split; [lia|]. rewrite align_loop_step, align_loop_done; [done|done|unfold is_int32; lia|].
    fold r. lia.
  - assert (Hd : Z.rem (e - 2) 3 = 0).
    { destruct Hr; [apply (rem_3 _ q)|apply (rem_3 _ (q - 1))]; lia. }
    exists 2. split; [lia|]. split; [|done].
    rewrite align_loop_step; [|unfold is_int32; lia|fold r; lia].
    rewrite align_loop_step; [|unfold is_int32; lia|].
    + replace (e - 1 - 1) with (e - 2) by lia. rewrite align_loop_done by done. f_equal. lia.
    + pose proof (Z.quot_rem (e - 1) 3 ltac:(done)). pose proof (Z.rem_bound_abs (e - 1) 3 ltac:(done)). lia.
Qed.

(** The canonical form has the value of the amount, and an exponent that is a
    multiple of three. *)
Definition canonical (m e : Z) (v : Q) : Prop :=
  (decimal m e == v)%Q ∧ Z.rem e 3 = 0 ∧ Z.log2 (Z.abs m) < 2 ^ 29 + 8.

Lemma log2_bound m u k :
  0 ≤ k ≤ 2 → Z.abs m ≤ Z.abs u → Z.log2 (Z.abs (m * 10 ^ k)) ≤ Z.log2 (Z.abs u) + 7.
Proof.
  intros Hk Hm. assert (10 ^ k ≤ 2 ^ 7) as Hp.
  { transitivity (10 ^ 2); [apply Z.pow_le_mono_r; lia|done]. }
  transitivity (Z.log2 (Z.abs u * 2 ^ 7)).
  - apply Z.log2_le_mono. rewrite Z.abs_mul, (Z.abs_eq (10 ^ k)) by lia. nia.
  - destruct (decide (Z.abs u = 0)) as [-> |Hu]; [done|]. rewrite Z.log2_mul_pow2 by lia. lia.
Qed.

Lemma Dec_canonical d :
  dec_small d →
  ∃ m e, Dec_AsCanonicalBytes d = (FormatInt m, e) ∧ canonical m e (Dec_value d).
Proof.
  intros [Hs Hz]. unfold Dec_AsCanonicalBytes, removeBigIntFactors.
  pose proof (Z.log2_nonneg (Z.abs (unscaled d))) as Hl.
  pose proof (big_factors_loop_spec (S (Z.to_nat (Z.log2 (Z.abs (unscaled d))))) (unscaled d) 10 0
    ltac:(lia) ltac:(lia) ltac:(lia)) as Hf.
  destruct (big_factors_loop _ _ _ _) as [amount t]. destruct Hf as [Hd Ht]. rewrite Z.sub_0_r in Hd.
  unfold small_scale in Hs. rewrite neg32_small, add32_small by (unfold is_int32; lia).
  destruct (align_loop_spec amount (- dscale d + t)) as (k & Hk & -> & Hrem); [lia|].
  eexists _, _. split; [done|]. split_and!; [|done|].
  - unfold Dec_value. rewrite Hd. rewrite !decimal_shift by lia. apply decimal_Proper; lia.
  - pose proof (log2_bound amount (unscaled d) k Hk) as Hlog. assert (0 < 10 ^ t) by lia.
    rewrite Hd, Z.abs_mul, (Z.abs_eq (10 ^ t)) in Hlog, Hz by lia.
    assert (Z.abs amount ≤ Z.abs amount * 10 ^ t) as Hle by nia. specialize (Hlog Hle). lia.
Qed.

Lemma Amount_canonical a :
  amount_wf a →
  ∃ m e, Amount_AsCanonicalBytes a = (FormatInt m, e) ∧ canonical m e (Amount_value a).
Proof.
  intros [Hv Hs]. unfold Amount_AsCanonicalBytes.
  assert (Hdec : ∃ m e, Dec_AsCanonicalBytes (Amount_AsDec a) = (FormatInt m, e) ∧
    canonical m e (Amount_value a)).
  { destruct (AsDec_value a Hs) as [Hsd Hvd]. destruct (Dec_canonical (Amount_AsDec a)) as (m & e & H1 & H2 & H3).
    - split; [done|]. simpl.
      pose proof (Z.log2_le_mono (Z.abs (value a)) (2 ^ 63)) as Hl. rewrite Z.log2_pow2 in Hl by lia.
      unfold is_int64, MinInt64, MaxInt64 in Hv. lia.
    - exists m, e. split; [done|]. split; [by rewrite <-Hvd|done]. }
  assert (Hfit : ∀ m, is_int64 m → Z.log2 (Z.abs m) < 2 ^ 29 + 8).
  { intros m Hm. pose proof (Z.log2_le_mono (Z.abs m) (2 ^ 63)) as Hl. rewrite Z.log2_pow2 in Hl by lia.
    unfold is_int64, MinInt64, MaxInt64 in Hm. lia. }
  pose proof (removeInt64Factors_spec (value a) 10 ltac:(lia) Hv) as Hf.
  destruct (removeInt64Factors (value a) 10) as [r t]. destruct Hf as (Hr & Ht & Hir).
  unfold small_scale in Hs. rewrite add32_small by (unfold is_int32; lia).
  assert (Hval : (decimal r (scale a + t) == Amount_value a)%Q).
  { unfold Amount_value. rewrite Hr. rewrite decimal_shift by lia. apply decimal_Proper; lia. }
  set (e := scale a + t) in *. pose proof (Z.quot_rem e 3 ltac:(done)) as Hqr.
  pose proof (Z.rem_bound_abs e 3 ltac:(done)) as Hb.
  assert (Hstep : ∀ k, 0 ≤ k ≤ 2 → is_int64 (r * 10 ^ k) → Z.rem (e - k) 3 = 0 →
    canonical (r * 10 ^ k) (e - k) (Amount_value a)).
  { intros k Hk Hi Hk3. split; [|by auto]. rewrite <-Hval, decimal_shift by lia. apply decimal_Proper; lia. }
  rewrite int64MultiplyScale10_scale, int64MultiplyScale100_scale.
  destruct (decide (Z.rem e 3 = 1 ∨ Z.rem e 3 = -2)) as [Hone|Hone];
    [|destruct (decide (Z.rem e 3 = 2 ∨ Z.rem e 3 = -1)) as [Htwo|Htwo]].
  - pose proof (int64MultiplyScale_checked r 10 Hir ltac:(done) ltac:(done)) as Hc.
    checked_cases Hc (int64MultiplyScale r 10) (r * 10); [|exact Hdec].
    unfold sub32. rewrite wrap32_id by (unfold is_int32; lia). eexists _, _. split; [done|].
    apply (Hstep 1); [lia|done|]. destruct Hone; [apply (rem_3 _ (Z.quot e 3))|apply (rem_3 _ (Z.quot e 3 - 1))]; lia.
  - pose proof (int64MultiplyScale_checked r 100 Hir ltac:(done) ltac:(done)) as Hc.
    checked_cases Hc (int64MultiplyScale r 100) (r * 100); [|exact Hdec].
    unfold sub32. rewrite wrap32_id by (unfold is_int32; lia). eexists _, _. split; [done|].
    apply (Hstep 2); [lia|done|]. destruct Htwo; [apply (rem_3 _ (Z.quot e 3))|apply (rem_3 _ (Z.quot e 3 - 1))]; lia.
  - eexists _, _. split; [done|]. split_and!; [done|lia|by apply Hfit].
Qed.

Record printable_wf (q : Quantity) : Prop := {
  pw_wf : quantity_wf q;
  pw_dec : ∀ d, qd q = Some d → dec_small d
}.

Lemma Quantity_canonical q :
  printable_wf q →
  ∃ m e, Quantity_AsCanonicalBytes q = (FormatInt m, e) ∧ canonical m e (Quantity_value q).
Proof.
  intros [[Ha _] Hd]. unfold Quantity_AsCanonicalBytes, Quantity_value.
  destruct (qd q) as [d|]; [by apply Dec_canonical, Hd|by apply Amount_canonical].
Qed.

(** ** Lemmas on parsing *)

Lemma span_app p a b :
  span p a = (a, "") → span p (a +:+ b) = (a +:+ (span p b).1, (span p b).2).
Proof.
  induction a as [|c a IH]; simpl; [intros _; apply surjective_pairing|].
  destruct (p c); [|done]. destruct (span p a) as [x y]. intros [= -> ->].
  rewrite IH by done. done.
Qed.

Lemma digits_span acc s v : parse_digits acc s = Some v → span is_digit s = (s, "").
Proof.
  revert acc. induction s as [|c s IH]; intros acc; simpl; [done|].
  destruct (digit_value c) as [x|] eqn:Hc; [|done]. intros Hs%IH.
  unfold is_digit at 1. rewrite Hc, bool_decide_eq_true_2 by eauto. by rewrite Hs.
Qed.

Lemma parse_digits_bound acc s v :
  0 ≤ acc → parse_digits acc s = Some v → 0 ≤ v < (acc + 1) * 10 ^ Z.of_nat (String.length s).
Proof.
  revert acc. induction s as [|c s IH]; intros acc Hacc; [intros [= <-]; simpl; lia|].
  cbn [parse_digits String.length]. unfold digit_value, in_range.
  case_bool_decide as Hc; [|done].
  change (nat_of_ascii "0") with 48%nat in Hc. change (nat_of_ascii "9") with 57%nat in Hc.
  intros Hs%IH; [|lia]. rewrite Nat2Z.inj_succ, Z.pow_succ_r by lia.
  assert (0 < 10 ^ Z.of_nat (String.length s)) by lia. nia.
Qed.

(** The digits of a positive number. *)
Definition digits_of (n : Z) : string := pretty (Z.to_N n).

Lemma FormatInt_sign m :
  FormatInt m = if decide (m < 0) then String "-" (digits_of (- m)) else digits_of m.
Proof. unfold FormatInt, digits_of. by destruct m. Qed.

Lemma digits_of_parse n : 0 ≤ n → parse_digits 0 (digits_of n) = Some n.
Proof. intros Hn. unfold digits_of. rewrite parse_digits_pretty. by rewrite Z2N.id. Qed.

Lemma digits_of_head n :
  0 < n → ∃ c s, digits_of n = String c s ∧ is_digit c = true ∧ c ≠ "0"%char.
Proof.
  intros Hn. unfold digits_of, pretty, pretty_N. rewrite decide_False by lia.
  destruct (pretty_go_head (Z.to_N n) "") as (c & s & -> & Hd & Hz); [lia|].
  exists c, s. split; [done|]. split; [|done]. apply bool_decide_eq_true.
  by destruct (digit_value c).
Qed.

Lemma is_digit_not_sign c : is_digit c = true → c ≠ "-"%char ∧ c ≠ "+"%char ∧ c ≠ "."%char.
Proof. intros Hc. split_and!; intros ->; vm_compute in Hc; discriminate. Qed.

Lemma take_sign_digit c s : is_digit c = true → take_sign (String c s) = (true, String c s).
Proof.
  intros Hc. unfold take_sign. destruct c as [[] [] [] [] [] [] [] []]; try done;
    vm_compute in Hc; discriminate.
Qed.

(** What may follow a number: nothing that continues it, and a well-formed
    suffix. *)
Definition good_suffix (suf : string) : Prop :=
  suffix_ok suf = true ∧
  match suf with
  | EmptyString => True
  | String c _ => is_digit c = false ∧ c ≠ "."%char
  end.

Lemma before_app a b : before (a +:+ b) b = a.
Proof.
  unfold before. rewrite length_app_str. replace (_ + _ - _)%nat with (String.length a) by lia.
  induction a as [|c a IH]; simpl; [by destruct b|]. by f_equal.
Qed.

(** The parts of a printed number. *)
Lemma parse_parts m suf :
  m ≠ 0 → good_suffix suf →
  parseQuantityString (FormatInt m +:+ suf) =
  Some (mkParts (bool_decide (0 < m)) (FormatInt m) (digits_of (Z.abs m)) "" suf).
Proof.
  intros Hm [Hok Hsuf]. set (n := Z.abs m). assert (Hn : 0 < n) by lia.
  destruct (digits_of_head n Hn) as (c & s & Hd & Hc & Hz).
  assert (Hsign : take_sign (FormatInt m +:+ suf) = (bool_decide (0 < m), digits_of n +:+ suf)).
  { rewrite FormatInt_sign. case_decide as Hneg.
    - rewrite bool_decide_eq_false_2 by lia. replace (- m) with n by lia. done.
    - rewrite bool_decide_eq_true_2 by lia. replace m with n by lia. rewrite Hd. by apply take_sign_digit. }
  unfold parseQuantityString. rewrite Hsign.
  assert (Hzero : span is_zero_char (digits_of n +:+ suf) = ("", digits_of n +:+ suf)).
  { rewrite Hd. simpl. unfold is_zero_char at 1. by rewrite bool_decide_eq_false_2. }
  rewrite Hzero. cbn [snd].
  assert (Hnum : span is_digit (digits_of n +:+ suf) = (digits_of n, suf)).
  { rewrite span_app by (by eapply digits_span, digits_of_parse; lia).
    destruct suf as [|c' suf]; [simpl; by rewrite app_empty_r_str|].
    simpl. destruct Hsuf as [-> _]. simpl. by rewrite app_empty_r_str. }
  destruct (digits_of n +:+ suf) as [|c0 s0] eqn:Hs0; [by rewrite Hd in Hs0|]. rewrite Hnum.
  destruct suf as [|c' suf]; [by rewrite app_empty_r_str|].
  rewrite decide_False by (by rewrite Hd). rewrite Hok, before_app.
  destruct Hsuf as [_ Hdot]. destruct c' as [[] [] [] [] [] [] [] []]; done.
Qed.

(** ** Lemmas on suffixes *)

Lemma ParseInt_sign s :
  ParseInt s =
  let '(positive, digits) := take_sign s in
  match digits with
  | EmptyString => None
  | _ =>
      match parse_digits 0 digits with
      | None => None
      | Some n =>
          let z := if positive : bool then n else - n in
          if decide (is_int64 z) then Some z else None
      end
  end.
Proof.
  unfold ParseInt, take_sign. destruct s as [|c s]; [done|].
  by destruct c as [[] [] [] [] [] [] [] []].
Qed.

Lemma take_sign_FormatInt m :
  m ≠ 0 → take_sign (FormatInt m) = (bool_decide (0 < m), digits_of (Z.abs m)).
Proof.
  intros Hm. rewrite FormatInt_sign. case_decide as Hneg.
  - rewrite bool_decide_eq_false_2 by lia. by replace (- m) with (Z.abs m) by lia.
  - rewrite bool_decide_eq_true_2 by lia. replace (Z.abs m) with m by lia.
    destruct (digits_of_head m) as (c & s & -> & Hc & _); [lia|]. by apply take_sign_digit.
Qed.

Lemma ParseInt_FormatInt m : m ≠ 0 → is_int64 m → ParseInt (FormatInt m) = Some m.
Proof.
  intros Hm Hi. rewrite ParseInt_sign, take_sign_FormatInt by done.
  rewrite digits_of_parse by lia.
  destruct (digits_of_head (Z.abs m)) as (c & s & -> & _); [lia|]. cbv zeta.
  assert ((if bool_decide (0 < m) then Z.abs m else - Z.abs m) = m) as ->.
  { case_bool_decide; lia. }
  by rewrite decide_True.
Qed.

Lemma si_suffix e :
  -9 ≤ e ≤ 18 → Z.rem e 3 = 0 →
  ∃ suf, constructBytes 10 e DecimalSI = Some suf ∧ good_suffix suf ∧
    interpret suf = Some (10, e, DecimalSI).
Proof.
  intros He Hr. assert (e ∈ [-9; -6; -3; 0; 3; 6; 9; 12; 15; 18]) as Hin.
  { pose proof (Z.quot_rem e 3 ltac:(done)). set_unfold. lia. }
  each_elem Hin ltac:(eexists; repeat split; vm_compute; try reflexivity; done).
Qed.

Lemma not_suffix_char c : is_digit c = true ∨ c = "-"%char → is_suffix_char c = false.
Proof.
  intros [Hc| ->]; [|done]. destruct c as [[] [] [] [] [] [] [] []]; try done; vm_compute in Hc; discriminate.
Qed.

Lemma exponent_suffix_good e : e ≠ 0 → good_suffix ("e" +:+ FormatInt e).
Proof.
  intros He. split; [|done]. unfold suffix_ok.
  assert (Hspan : span is_suffix_char ("e" +:+ FormatInt e) = ("e", FormatInt e)).
  { assert (∃ c s, FormatInt e = String c s ∧ is_suffix_char c = false) as (c & s & -> & Hc).
    { rewrite FormatInt_sign. case_decide; [by eexists _, _|].
      destruct (digits_of_head e) as (c & s & -> & Hc & _); [lia|]. eexists _, _. split; [done|].
      apply not_suffix_char. by left. }
    change ("e" +:+ String c s) with (String "e" (String c s)). cbn [span].
    change (is_suffix_char "e") with true. by rewrite Hc. }
  rewrite Hspan. cbn [snd]. pose proof (take_sign_FormatInt e He) as Hskip.
  destruct (FormatInt e) as [|c s]; [done|].
  assert (span is_digit (digits_of (Z.abs e)) = (digits_of (Z.abs e), "")) as Hd.
  { eapply digits_span, digits_of_parse. lia. }
  rewrite Hskip. cbn [snd]. by rewrite Hd.
Qed.

Lemma exponent_suffix e :
  is_int32 e → e ≠ 0 → interpret ("e" +:+ FormatInt e) = Some (10, e, DecimalExponent).
Proof.
  intros Hi He. unfold interpret. rewrite !decide_False by done.
  unfold handler_interpret.
  assert (suffixToBE decSuffixes !! ("e" +:+ FormatInt e) = None) as ->.
  { unfold decSuffixes, suffixer_of. simpl. by rewrite !lookup_insert_ne by done. }
  assert (suffixToBE binSuffixes !! ("e" +:+ FormatInt e) = None) as ->.
  { unfold binSuffixes, suffixer_of. simpl. by rewrite !lookup_insert_ne by done. }
  change ("e" +:+ FormatInt e) with (String "e" (FormatInt e)). cbv iota.
  rewrite decide_True; [|split; [|by right]].
  - rewrite ParseInt_FormatInt, wrap32_id; [done|done|done|].
    unfold is_int64, is_int32, MinInt64, MaxInt64 in *. lia.
  - intros Hnil. pose proof (take_sign_FormatInt e He) as Ht. rewrite Hnil in Ht. simpl in Ht.
    destruct (digits_of_head (Z.abs e)) as (c & s & Hd & _); [lia|]. rewrite Hd in Ht. done.
Qed.

Lemma parse_digits_lower acc s v :
  0 ≤ acc → parse_digits acc s = Some v → acc * 10 ^ Z.of_nat (String.length s) ≤ v.
Proof.
  revert acc. induction s as [|c s IH]; intros acc Hacc; [intros [= <-]; simpl; lia|].
  cbn [parse_digits String.length]. unfold digit_value, in_range.
  case_bool_decide as Hc; [|done].
  change (nat_of_ascii "0") with 48%nat in Hc. change (nat_of_ascii "9") with 57%nat in Hc.
  intros Hs%IH; [|lia]. rewrite Nat2Z.inj_succ, Z.pow_succ_r by lia.
  assert (0 < 10 ^ Z.of_nat (String.length s)) by lia. nia.
Qed.

Lemma digits_of_length n :
  0 < n → 0 < Z.of_nat (String.length (digits_of n)) ≤ Z.log2 n + 1.
Proof.
  intros Hn. pose proof (digits_of_parse n ltac:(lia)) as Hp.
  destruct (digits_of_head n Hn) as (c & s & Hd & Hc & Hz). rewrite Hd in *. cbn [String.length].
  split; [lia|]. cbn [parse_digits] in Hp.
  destruct (digit_value c) as [x|] eqn:Hx; [|done]. apply parse_digits_lower in Hp.
  - assert (1 ≤ x) as Hx1.
    { unfold digit_value, in_range in Hx. case_bool_decide as Hr; [|done]. simplify_eq.
      change (nat_of_ascii "0") with 48%nat in Hr.
      assert (nat_of_ascii c ≠ 48%nat); [|lia]. intros H48. apply Hz.
      by rewrite <-(ascii_nat_embedding c), H48. }
    rewrite Z.mul_0_r, Z.add_0_l in Hp.
    assert (2 ^ Z.of_nat (String.length s) ≤ n) as H2.
    { transitivity (10 ^ Z.of_nat (String.length s)); [apply Z.pow_le_mono_l; lia|]. nia. }
    apply Z.log2_le_pow2 in H2; lia.
  - unfold digit_value, in_range in Hx. case_bool_decide as Hr; [|done]. simplify_eq.
    change (nat_of_ascii "0") with 48%nat in Hr. lia.
Qed.

(** ** Reading a printed number *)

Lemma snoc_app_str acc c s : (acc +:+ String c "") +:+ s = acc +:+ String c s.
Proof.
  induction acc as [|x acc IH]; [done|].
  change (String x ((acc +:+ String c "") +:+ s) = String x (acc +:+ String c s)). by rewrite IH.
Qed.

Lemma dec_scan_digits s acc :
  span is_digit s = (s, "") → dec_scan s acc None = Some (acc +:+ s, None).
Proof.
  revert acc. induction s as [|c s IH]; intros acc Hs; simpl; [by rewrite app_empty_r_str|].
  simpl in Hs. destruct (is_digit c) eqn:Hc; [|done]. destruct (span is_digit s) as [a b].
  injection Hs as -> ->. destruct (is_digit_not_sign c Hc) as (_ & _ & Hdot).
  rewrite decide_False by done. rewrite IH by done. by rewrite snoc_app_str.
Qed.

Lemma Dec_SetString_FormatInt m : m ≠ 0 → Dec_SetString (FormatInt m) = Some (mkDec m 0).
Proof.
  intros Hm. unfold Dec_SetString. rewrite take_sign_FormatInt by done.
  pose proof (digits_of_parse (Z.abs m) ltac:(lia)) as Hp.
  rewrite dec_scan_digits by (by eapply digits_span). change ("" +:+ ?x) with x.
  destruct (digits_of_head (Z.abs m)) as (c & s & Hd & _); [lia|]. rewrite Hd in *. rewrite Hp.
  f_equal. f_equal. case_bool_decide; lia.
Qed.

Lemma parse_round_value amount fmt :
  small_scale (dscale amount) → dscale amount ≤ 9 → fmt ≠ BinarySI →
  (Dec_value (parse_round amount fmt).1 == Dec_value amount)%Q ∧ (parse_round amount fmt).2 = fmt.
Proof.
  intros Hs Hle Hf. unfold parse_round. destruct (Unscaled amount) as [v ok].
  rewrite !(decide_False (P := fmt = BinarySI ∧ _)) by (by intros [? _]). simpl. split; [|done].
  case_decide; [|done]. change (neg32 Nano) with 9. rewrite Round_spec by (done || by split).
  rewrite decide_True by done. unfold Dec_value. simpl. rewrite decimal_shift by lia.
  apply decimal_Proper; lia.
Qed.

Lemma parse_slow_value parts m e fmt :
  m ≠ 0 → -9 ≤ e ≤ 2 ^ 29 → fmt ≠ BinarySI → np_value parts = FormatInt m →
  ∃ q, parse_slow parts 10 e fmt = Ok q ∧ (Quantity_value q == decimal m e)%Q ∧ Format q = fmt.
Proof.
  intros Hm He Hf Hv. unfold parse_slow. rewrite Hv, Dec_SetString_FormatInt by done.
  rewrite decide_True by done. cbv zeta. cbn [unscaled dscale].
  rewrite neg32_small, add32_small, Z.add_0_l by (unfold is_int32; lia). set (amount := mkDec m (- e)).
  set (pos := if bool_decide (Dec_Sign amount = -1) then Dec_Neg amount else amount).
  assert (Hpos : dscale pos = - e) by (unfold pos; by case_bool_decide).
  destruct (parse_round_value pos fmt) as [Hval Hfmt];
    [rewrite Hpos; unfold small_scale; lia|rewrite Hpos; lia|done|].
  fold pos. destruct (parse_round pos fmt) as [amount' fmt']. cbn [fst snd] in *.
  eexists. split; [done|]. split; [|done]. unfold Quantity_value. simpl.
  assert (Hamount : (Dec_value amount == decimal m e)%Q).
  { unfold Dec_value, amount. simpl. by rewrite Z.opp_involutive. }
  rewrite <-Hamount. unfold pos in Hval. case_bool_decide.
  - rewrite !Dec_Neg_value in *. rewrite Hval. ring.
  - done.
Qed.

Lemma parse_fast_value str parts m e fmt q :
  m ≠ 0 → -9 ≤ e ≤ 2 ^ 29 → fmt = DecimalSI ∨ fmt = DecimalExponent →
  np_positive parts = bool_decide (0 < m) → np_num parts = digits_of (Z.abs m) → np_denom parts = "" →
  Z.of_nat (String.length (digits_of (Z.abs m))) < 2 ^ 31 →
  parse_fast str parts e fmt = Some q →
  ∃ q', q = Ok q' ∧ (Quantity_value q' == decimal m e)%Q ∧ Format q' = fmt.
Proof.
  intros Hm He Hf Hpos Hnum Hden Hlen. unfold parse_fast, parse_precision.
  rewrite Hpos, Hnum, Hden, app_empty_r_str. rewrite decide_True by tauto.
  set (n := Z.abs m) in *. assert (Hn : 0 < n) by lia.
  set (L := Z.of_nat (String.length (digits_of n))) in *.
  assert (len32 (digits_of n) = L) as -> by (apply wrap32_id; unfold is_int32; lia).
  change (len32 "") with 0.
  assert (sub32 maxInt64Factors L = 18 - L) as -> by (apply wrap32_id; unfold is_int32, maxInt64Factors; lia).
  assert (sub32 e 0 = e) as ->. { unfold sub32. rewrite Z.sub_0_r. apply wrap32_id. unfold is_int32. lia. }
  destruct (decide (18 - L >= 0)) as [Hprec|]; [|done]. rewrite decide_True by (unfold Nano; lia).
  assert (Hn18 : n < 10 ^ 18).
  { pose proof (parse_digits_bound 0 (digits_of n) n ltac:(lia) (digits_of_parse n ltac:(lia))) as Hb.
    fold L in Hb.
    pose proof (Z.pow_le_mono_r 10 L 18 ltac:(lia) ltac:(lia)). lia. }
  assert (Hi : is_int64 n) by (unfold is_int64, MinInt64, MaxInt64; lia).
  assert (digits_of n = FormatInt n) as ->. { rewrite FormatInt_sign, decide_False by lia. done. }
  rewrite ParseInt_FormatInt by (done || lia). unfold int64Multiply. rewrite decide_True by tauto.
  unfold mul64. rewrite Z.mul_1_r, wrap64_id by done. intros [= <-].
  eexists. split; [done|]. split; [|done]. unfold Quantity_value, Amount_value. simpl.
  apply decimal_Proper; [|done]. case_bool_decide; [lia|].
  destruct (neg64_small n Hi) as [-> _]; [unfold mostNegative, MinInt64; lia|lia].
Qed.

(** The text of a number and a decimal suffix is read back exactly. *)
Lemma parse_decimal m e fmt suf :
  m ≠ 0 → Z.log2 (Z.abs m) < 2 ^ 29 + 8 → -9 ≤ e ≤ 2 ^ 29 → fmt = DecimalSI ∨ fmt = DecimalExponent →
  good_suffix suf → interpret suf = Some (10, e, fmt) →
  ∃ q, ParseQuantity (FormatInt m +:+ suf) = Ok q ∧ (Quantity_value q == decimal m e)%Q ∧ Format q = fmt.
Proof.
  intros Hm Hlog He Hf Hgood Hint. pose proof (digits_of_length (Z.abs m) ltac:(lia)) as Hlen.
  assert (Hhead : ∃ c s, FormatInt m = String c s ∧ c ≠ "0"%char).
  { rewrite FormatInt_sign. case_decide; [by eexists _, _|].
    destruct (digits_of_head m) as (c & s & -> & _ & ?); [lia|]. eauto. }
  unfold ParseQuantity. rewrite !decide_False; cycle 1.
  { destruct Hhead as (c & s & -> & Hc). simpl. intros [= ? ?]. done. }
  { destruct Hhead as (c & s & -> & Hc). done. }
  rewrite parse_parts by done.
  set (parts := mkParts (bool_decide (0 < m)) (FormatInt m) (digits_of (Z.abs m)) "" suf).
  change (np_suffix parts) with suf. rewrite Hint.
  destruct (parse_fast _ parts e fmt) as [r|] eqn:Hfast.
  - apply (parse_fast_value _ parts m e fmt) in Hfast as (q & -> & ? & ?); [by exists q|done..|lia].
  - apply (parse_slow_value parts m e fmt); [done|done| |done]. intros ->. by destruct Hf.
Qed.

(** ** The structure of a parsed text *)

Lemma app_assoc_text (a b c : string) : a +:+ (b +:+ c) = (a +:+ b) +:+ c.
Proof.
  induction a as [|x a IH]; [done|].
  change (String x (a +:+ (b +:+ c)) = String x ((a +:+ b) +:+ c)). by rewrite IH.
Qed.

Lemma span_inv p s a b : span p s = (a, b) → s = a +:+ b ∧ span p a = (a, "").
Proof.
  revert a b. induction s as [|c s IH]; intros a b; simpl; [by intros [= <- <-]|].
  destruct (p c) eqn:Hc; [|by intros [= <- <-]].
  destruct (span p s) as [a' b']. intros [= <- <-]. destruct (IH a' b') as [-> Ha]; [done|].
  split; [done|]. simpl. by rewrite Hc, Ha.
Qed.

Lemma zeros_digits s : span is_zero_char s = (s, "") → ∀ acc, parse_digits acc s = Some (acc * 10 ^ Z.of_nat (String.length s)).
Proof.
  induction s as [|c s IH]; intros Hs acc; [simpl; f_equal; lia|]. simpl in Hs.
  destruct (is_zero_char c) eqn:Hc; [|done]. destruct (span is_zero_char s) as [a b].
  injection Hs as -> ->. apply bool_decide_eq_true in Hc as ->. cbn [String.length].
  change (parse_digits acc (String "0" s)) with (parse_digits (10 * acc + 0) s).
  rewrite IH by done. f_equal.
  rewrite Nat2Z.inj_succ, Z.pow_succ_r by lia. lia.
Qed.

(** The sign is the one of any text that continues it. *)
Lemma take_sign_inv str p s :
  take_sign str = (p, s) →
  ∃ sg, str = sg +:+ s ∧
    ∀ s', match s' with String c _ => is_digit c = true ∨ c = "."%char | EmptyString => True end →
      take_sign (sg +:+ s') = (p, s').
Proof.
  assert (Hplain : ∀ s', match s' with String c _ => is_digit c = true ∨ c = "."%char | EmptyString => True end →
    take_sign s' = (true, s')).
  { intros [|c s'] Hc; [done|]. destruct Hc as [Hc| ->]; [by apply take_sign_digit|done]. }
  destruct str as [|c str]; [intros [= <- <-]; by exists ""|].
  destruct (decide (c = "-"%char)) as [-> |Hm]; [intros [= <- <-]; by exists "-"|].
  destruct (decide (c = "+"%char)) as [-> |Hp]; [intros [= <- <-]; by exists "+"|].
  assert (take_sign (String c str) = (true, String c str)) as ->.
  { unfold take_sign. by destruct c as [[] [] [] [] [] [] [] []]. }
  intros [= <- <-]. by exists "".
Qed.

(** The text of the number: the sign, zeros, the numerator and the denominator. *)
Record number_text (parts : number_parts) (zeros num tail : string) : Prop := {
  nt_sign : take_sign (np_value parts) = (np_positive parts, zeros +:+ num +:+ tail);
  nt_zeros : span is_zero_char zeros = (zeros, "");
  nt_num : span is_digit num = (num, "");
  nt_num' : np_num parts = if decide (num = "") then "0" else num;
  nt_denom : span is_digit (np_denom parts) = (np_denom parts, "");
  nt_tail : tail = "" ∧ np_denom parts = "" ∨ tail = String "." (np_denom parts)
}.

Lemma is_zero_digit c : is_zero_char c = true → is_digit c = true.
Proof. intros ->%bool_decide_eq_true. done. Qed.

(** The first character of the number is a digit or a point. *)
Lemma number_head zeros num tail :
  span is_zero_char zeros = (zeros, "") → span is_digit num = (num, "") →
  tail = "" ∨ (∃ d, tail = String "." d) →
  match zeros +:+ num +:+ tail with
  | String c _ => is_digit c = true ∨ c = "."%char
  | EmptyString => True
  end.
Proof.
  intros Hz Hn Ht. destruct zeros as [|c zeros]; simpl in *.
  - change ("" +:+ ?x) with x. destruct num as [|c num]; simpl in *.
    + change ("" +:+ ?x) with x. by destruct Ht as [-> |[d ->]]; [|right].
    + destruct (is_digit c) eqn:Hc; [|done]. simpl. auto.
  - destruct (is_zero_char c) eqn:Hc; [|done]. left. by apply is_zero_digit.
Qed.

Lemma parse_structure str parts :
  parseQuantityString str = Some parts →
  np_value parts = "0" ∧ np_num parts = "0" ∧ np_denom parts = "" ∨
  ∃ zeros num tail, number_text parts zeros num tail.
Proof.
  unfold parseQuantityString. destruct (take_sign str) as [positive s1] eqn:Hsign.
  destruct (take_sign_inv _ _ _ Hsign) as (sg & Hstr & Hsg).
  destruct (span is_zero_char s1) as [zeros s2] eqn:Hz. apply span_inv in Hz as [Hs1 Hz]. cbn [snd].
  destruct s2 as [|c2 s2']; [intros [= <-]; by left|]. set (s2 := String c2 s2') in *.
  destruct (span is_digit s2) as [num s3] eqn:Hnum. apply span_inv in Hnum as [Hs2 Hnum].
  assert (Hall : ∀ tail rest, s3 = tail +:+ rest → tail = "" ∨ (∃ d, tail = String "." d) →
    take_sign (before str rest) = (positive, zeros +:+ num +:+ tail)).
  { intros tail rest Hs3 Htail. rewrite Hstr, Hs1, Hs2, Hs3, !app_assoc_text, before_app, <-!app_assoc_text.
    apply Hsg. by apply number_head. }
  assert (Hfull : ∀ tail, s3 = tail → tail = "" ∨ (∃ d, tail = String "." d) →
    take_sign str = (positive, zeros +:+ num +:+ tail)).
  { intros tail -> Ht. rewrite Hstr, Hs1, Hs2. apply Hsg. by apply number_head. }
  destruct s3 as [|c3 s3'].
  { intros [= <-]. right. exists zeros, num, "". split; simpl; [by apply Hfull; [|left]|done|done| |done|by left].
    rewrite decide_False; [done|]. intros ->. done. }
  intros Hparts. right.
  assert (Hcases : (c3 = "."%char ∧ ∃ denom s5, span is_digit s3' = (denom, s5) ∧
      parts = mkParts positive (if decide (s5 = "") then str else before str s5)
                (if decide (num = "") then "0" else num) denom s5) ∨
    parts = mkParts positive (before str (String c3 s3')) (if decide (num = "") then "0" else num) "" (String c3 s3')).
  { destruct (decide (c3 = "."%char)) as [-> |Hdot].
    - left. split; [done|]. destruct (span is_digit s3') as [denom s5]. exists denom, s5. split; [done|].
      destruct s5 as [|c5 s5]; [by simplify_eq|]. rewrite decide_False by done.
      destruct (suffix_ok _); by simplify_eq.
    - right. assert (Hok : suffix_ok (String c3 s3') = true ∧
        parts = mkParts positive (before str (String c3 s3')) (if decide (num = "") then "0" else num) "" (String c3 s3')).
      { destruct c3 as [[] [] [] [] [] [] [] []]; try (by destruct Hdot);
          destruct (suffix_ok _); simplify_eq; done. }
      apply Hok. }
  destruct Hcases as [(-> & denom & s5 & Hden & ->)| ->].
  - apply span_inv in Hden as [Hs3 Hden]. exists zeros, num, (String "." denom).
    split; simpl; [|done|done|done|done|by right]. destruct (decide (s5 = "")) as [Hs5|Hs5].
    + subst s5. rewrite app_empty_r_str in Hs3. apply Hfull; [by rewrite Hs3|eauto].
    + apply Hall; [by rewrite Hs3|eauto].
  - exists zeros, num, "". split; simpl; [|done|done|done|done|by left]. by apply Hall; [|left].
Qed.

(** ** The two paths of the parser *)

Lemma span_parse s acc : span is_digit s = (s, "") → ∃ v, parse_digits acc s = Some v.
Proof.
  revert acc. induction s as [|c s IH]; intros acc Hs; [by eexists|]. simpl in *.
  destruct (is_digit c) eqn:Hc; [|done]. apply bool_decide_eq_true in Hc as [x Hx]. rewrite Hx.
  destruct (span is_digit s) as [a b]. injection Hs as -> ->. by apply IH.
Qed.

Lemma dec_scan_app d rest acc point :
  span is_digit d = (d, "") →
  dec_scan (d +:+ rest) acc point =
  dec_scan rest (acc +:+ d) ((λ n, n + Z.of_nat (String.length d)) <$> point).
Proof.
  revert acc point. induction d as [|c d IH]; intros acc point Hd.
  { change ("" +:+ rest) with rest. rewrite app_empty_r_str. destruct point; simpl; [|done].
    by rewrite Z.add_0_r. }
  change (String c d +:+ rest) with (String c (d +:+ rest)). cbn [dec_scan]. simpl in Hd.
  destruct (is_digit c) eqn:Hc; [|done]. destruct (span is_digit d) as [a b]. injection Hd as -> ->.
  destruct (is_digit_not_sign c Hc) as (_ & _ & Hdot). rewrite decide_False by done.
  rewrite IH by done. rewrite snoc_app_str. f_equal. destruct point; simpl; [|done]. f_equal. lia.
Qed.

Lemma span_zero_digit s : span is_zero_char s = (s, "") → span is_digit s = (s, "").
Proof. intros Hs. by eapply (digits_span 0), zeros_digits. Qed.

(** The decimal read from the text of the number. *)
Lemma number_value parts zeros num tail d :
  number_text parts zeros num tail → Z.of_nat (String.length (np_denom parts)) < 2 ^ 31 →
  Dec_SetString (np_value parts) = Some d →
  ∃ v, parse_digits 0 (np_num parts +:+ np_denom parts) = Some v ∧
    d = mkDec (if np_positive parts then v else - v) (Z.of_nat (String.length (np_denom parts))).
Proof.
  intros [Hsign Hz Hn Hn' Hd Ht] Hlen Hset. unfold Dec_SetString in Hset. rewrite Hsign in Hset.
  rewrite dec_scan_app, dec_scan_app in Hset by (done || by apply span_zero_digit).
  change ("" +:+ zeros) with zeros in Hset. cbn [fmap option_fmap option_map] in Hset.
  assert (Hscan : dec_scan tail (zeros +:+ num) None =
    Some ((zeros +:+ num) +:+ np_denom parts,
          if decide (tail = "") then None else Some (Z.of_nat (String.length (np_denom parts))))).
  { destruct Ht as [[-> ->] | ->]; [by rewrite app_empty_r_str|]. cbn [dec_scan].
    rewrite decide_True by done. rewrite <-(app_empty_r_str (np_denom parts)) at 1.
    by rewrite dec_scan_app by done. }
  rewrite Hscan in Hset.
  assert (Hp : parse_digits 0 ((zeros +:+ num) +:+ np_denom parts) =
               parse_digits 0 (np_num parts +:+ np_denom parts)).
  { rewrite !parse_digits_app, zeros_digits by done. simpl. rewrite Hn'.
    by destruct (decide (num = "")) as [-> |]. }
  destruct ((zeros +:+ num) +:+ np_denom parts) as [|c0 s0]; [done|]. rewrite Hp in Hset.
  destruct (parse_digits 0 (np_num parts +:+ np_denom parts)) as [v|]; [|done].
  exists v. split; [done|].
  injection Hset as <-. f_equal. destruct Ht as [[-> ->] | ->]; [done|]. simpl.
  rewrite wrap32_id; [done|]. unfold is_int32. lia.
Qed.

(** Rounding and capping keep a decimal that fits. *)
Lemma parse_round_keeps amount fmt :
  small_scale (dscale amount) → dscale amount ≤ 9 →
  (fmt = BinarySI → (Dec_value amount <= inject_Z MaxInt64)%Q) →
  (Dec_value (parse_round amount fmt).1 == Dec_value amount)%Q.
Proof.
  intros Hs Hle Hmax. destruct (decide (fmt = BinarySI)) as [-> |Hf]; [|by apply parse_round_value].
  specialize (Hmax eq_refl). unfold parse_round. destruct (Unscaled amount) as [v ok].
  set (amount1 := if decide (v ≠ 0 ∨ ok = false) then _ else _).
  assert (H1 : small_scale (dscale amount1) ∧ (Dec_value amount1 == Dec_value amount)%Q).
  { unfold amount1. case_decide; [|done]. change (neg32 Nano) with 9.
    rewrite Round_spec by (done || by split). rewrite decide_True by done. simpl. split; [by split|].
    unfold Dec_value. simpl. rewrite decimal_shift by lia. apply decimal_Proper; lia. }
  destruct H1 as [Hs1 Hv1]. cbv zeta. cbn [fst]. rewrite decide_False; [done|]. intros [_ Hgt].
  rewrite Dec_Cmp_value, Hv1 in Hgt by (done || by split).
  assert ((Dec_value maxAllowed == inject_Z MaxInt64)%Q) as Hm.
  { unfold Dec_value, decimal. simpl. ring. }
  rewrite Hm in Hgt. rewrite Qle_alt in Hmax. revert Hmax Hgt.
  by destruct (Dec_value amount ?= inject_Z MaxInt64)%Q.
Qed.

Lemma interpret_cases suf base e fmt :
  interpret suf = Some (base, e, fmt) →
  base = 10 ∧ (fmt = DecimalSI ∨ fmt = DecimalExponent) ∨ base = 2 ∧ fmt = BinarySI ∧ 10 ≤ e ≤ 60.
Proof.
  assert (Hdec : map_Forall (λ _ be, be.1 = 10) (suffixToBE decSuffixes)).
  { apply (bool_decide_eq_true_1 _). vm_compute. reflexivity. }
  assert (Hbin : map_Forall (λ _ be, be.1 = 2 ∧ 10 ≤ be.2 ≤ 60) (suffixToBE binSuffixes)).
  { apply (bool_decide_eq_true_1 _). vm_compute. reflexivity. }
  unfold interpret. repeat (case_decide; [intros [= <- <- <-]; tauto|]). unfold handler_interpret.
  destruct (suffixToBE decSuffixes !! suf) as [[b' e']|] eqn:Hl.
  { intros [= <- <- <-]. apply Hdec in Hl. simpl in Hl. tauto. }
  destruct (suffixToBE binSuffixes !! suf) as [[b' e']|] eqn:Hl'.
  { intros [= <- <- <-]. apply Hbin in Hl'. simpl in Hl'. tauto. }
  destruct suf as [|c rest]; [done|]. case_decide; [|done]. destruct (ParseInt rest); [|done].
  intros [= <- <- <-]. tauto.
Qed.

(** What both paths make of the digits. *)
Lemma parsed_number str parts d :
  parseQuantityString str = Some parts → Z.of_nat (String.length (np_denom parts)) < 2 ^ 31 →
  Dec_SetString (np_value parts) = Some d →
  ∃ v c s, parse_digits 0 (np_num parts +:+ np_denom parts) = Some v ∧
    np_num parts = String c s ∧ is_digit c = true ∧
    d = mkDec (if np_positive parts then v else - v) (Z.of_nat (String.length (np_denom parts))).
Proof.
  intros Hparse Hlen Hset. destruct (parse_structure _ _ Hparse) as [(Hv & Hn & Hd)|(zeros & num & tail & Ht)].
  - rewrite Hv in Hset. rewrite Hn, Hd in *. vm_compute in Hset. injection Hset as <-.
    exists 0, "0"%char, "". split_and!; [done..|]. by destruct (np_positive parts).
  - destruct (number_value _ _ _ _ _ Ht Hlen Hset) as (v & Hv & Hd).
    assert (∃ c s, np_num parts = String c s ∧ is_digit c = true) as (c & s & Hn & Hc).
    { destruct Ht as [_ _ Hnum Hn' _ _]. rewrite Hn'. destruct num as [|c s]; simpl in *; [by eexists _, _|].
      exists c, s. split; [done|]. by destruct (is_digit c). }
    by exists v, c, s.
Qed.

Lemma ParseInt_digits c s v :
  is_digit c = true → ParseInt (String c s) = Some v →
  parse_digits 0 (String c s) = Some v ∧ 0 ≤ v ∧ is_int64 v.
Proof.
  intros Hc. rewrite ParseInt_sign, take_sign_digit by done.
  destruct (parse_digits 0 (String c s)) as [n|] eqn:Hp; [|done]. simpl.
  case_decide; [|done]. intros [= <-]. split_and!; [done| |done].
  eapply parse_digits_bound in Hp; [|done]. lia.
Qed.

(** The result of the fast path. *)
Lemma parse_fast_inv str parts e fmt q :
  parse_fast str parts e fmt = Some (Ok q) →
  ∃ s0 precision mantissa v, parse_precision parts e fmt = (s0, precision, mantissa) ∧ 0 ≤ precision ∧
    let s := sub32 s0 (len32 (np_denom parts)) in
    -9 ≤ s ∧ ParseInt (np_num parts +:+ np_denom parts) = Some v ∧
    (int64Multiply v mantissa).2 = true ∧ qd q = None ∧
    qi q = mkAmount (if np_positive parts then (int64Multiply v mantissa).1
                     else neg64 (int64Multiply v mantissa).1) s.
Proof.
  unfold parse_fast. destruct (parse_precision parts e fmt) as [[s0 precision] mantissa].
  case_decide; [|done]. case_decide as Hs; [|done]. unfold Nano in Hs.
  destruct (ParseInt _) as [v|]; [|done]. destruct (int64Multiply v mantissa) as [r ok] eqn:Hmul.
  destruct ok; [|done]. intros [= <-]. exists s0, precision, mantissa, v. rewrite Hmul.
  repeat split; [lia|lia].
Qed.

Lemma Dec_abs d :
  (if bool_decide (Dec_Sign d = -1) then Dec_Neg d else d) = mkDec (Z.abs (unscaled d)) (dscale d).
Proof.
  destruct d as [u sc]. unfold Dec_Sign, Dec_Neg. simpl.
  destruct (Z.lt_trichotomy u 0) as [Hu|[-> |Hu]]; [|done|].
  - rewrite Z.sgn_neg, bool_decide_eq_true_2 by done. f_equal. lia.
  - rewrite Z.sgn_pos, bool_decide_eq_false_2 by done. f_equal. lia.
Qed.

(** The value of the slow path, when the decimal fits. *)
Lemma parse_slow_keeps parts base e fmt d q :
  Dec_SetString (np_value parts) = Some d → parse_slow parts base e fmt = Ok q →
  let amount :=
    if decide (base = 10) then mkDec (unscaled d) (add32 (dscale d) (neg32 e))
    else if decide (base = 2) then mkDec (unscaled d * Z.shiftl 1 e) (dscale d) else d in
  small_scale (dscale amount) → dscale amount ≤ 9 →
  (fmt = BinarySI → (Dec_value (mkDec (Z.abs (unscaled amount)) (dscale amount)) <= inject_Z MaxInt64)%Q) →
  (Quantity_value q == Dec_value amount)%Q.
Proof.
  unfold parse_slow. intros ->. set (amount := if decide (base = 10) then _ else _). cbv zeta.
  set (pos := if bool_decide (Dec_Sign amount = -1) then Dec_Neg amount else amount).
  intros Hq Hs Hle Hmax.
  assert (Hpos : pos = mkDec (Z.abs (unscaled amount)) (dscale amount)).
  { apply Dec_abs. }
  assert (Hkeep : (Dec_value (parse_round pos fmt).1 == Dec_value pos)%Q).
  { apply parse_round_keeps; by rewrite Hpos. }
  destruct (parse_round pos fmt) as [amount' fmt'].
  injection Hq as <-. cbn [fst] in Hkeep. unfold Quantity_value. simpl. unfold pos in Hkeep.
  destruct (bool_decide (Dec_Sign amount = -1)); [|done].
  rewrite Dec_Neg_value in Hkeep. rewrite Dec_Neg_value, Hkeep. ring.
Qed.

(** ** The theorems *)

(** The fast path of the parser is an optimisation: on every text on which it
    applies and the arbitrary-precision path gives a quantity, the two have the
    same value, for all suffixes and signs. *)
Theorem parse_paths_agree str parts base e fmt q q' :
  parseQuantityString str = Some parts →
  Z.of_nat (String.length (np_num parts +:+ np_denom parts)) < 2 ^ 28 →
  interpret (np_suffix parts) = Some (base, e, fmt) → - 2 ^ 28 ≤ e ≤ 2 ^ 28 →
  parse_fast str parts e fmt = Some (Ok q) → parse_slow parts base e fmt = Ok q' →
  (Quantity_value q == Quantity_value q')%Q.
Proof.
  intros Hparse Hlen Hint He Hfast Hslow. rewrite length_app_str, Nat2Z.inj_add in Hlen.
  destruct (Dec_SetString (np_value parts)) as [d|] eqn:Hset;
    [|unfold parse_slow in Hslow; by rewrite Hset in Hslow].
  destruct (parsed_number str parts d Hparse ltac:(lia) Hset) as (v & c & s & Hv & Hn & Hc & Hd).
  destruct (parse_fast_inv _ _ _ _ _ Hfast)
    as (s0 & precision & mantissa & v' & Hprec & Hp & Hs & Hv' & Hok & Hqd & Hqi).
  rewrite Hn in Hv', Hv. change (String c s +:+ np_denom parts) with (String c (s +:+ np_denom parts)) in *.
  apply ParseInt_digits in Hv' as (Hv' & Hv0 & Hvi); [|done].
  rewrite Hv in Hv'. injection Hv' as <-.
  set (L := Z.of_nat (String.length (np_denom parts))) in *.
  assert (len32 (np_denom parts) = L) as HL by (apply wrap32_id; unfold is_int32; lia).
  pose proof (parse_slow_keeps parts base e fmt d q' Hset Hslow) as Hkeep. cbv zeta in Hkeep.
  unfold Quantity_value at 1. rewrite Hqd. unfold Amount_value. rewrite Hqi. cbn [value scale].
  rewrite HL in *. unfold parse_precision in Hprec.
  destruct (interpret_cases _ _ _ _ Hint) as [[-> Hf]|(-> & -> & He')].
  - rewrite decide_True in Hprec by tauto. injection Hprec as <- _ <-.
    assert (sub32 e L = e - L) as HeL by (apply wrap32_id; unfold is_int32; lia). rewrite HeL in *.
    unfold int64Multiply. rewrite decide_True by tauto. cbn [fst]. unfold mul64.
    rewrite Z.mul_1_r, wrap64_id by done.
    rewrite decide_True in Hkeep by done. rewrite Hd in Hkeep. cbn [unscaled dscale] in Hkeep.
    rewrite neg32_small, add32_small in Hkeep by (unfold is_int32; lia).
    rewrite Hkeep; [|unfold small_scale; lia|lia|intros ->; by destruct Hf].
    unfold Dec_value. cbn [unscaled dscale]. apply decimal_Proper; [|lia].
    destruct (np_positive parts); [done|]. apply neg64_small; [done|]. unfold mostNegative, MinInt64. lia.
  - rewrite decide_False in Hprec by (by intros [?|?]). rewrite decide_True in Hprec by done.
    destruct (decide (e >= 0 ∧ np_denom parts = "")) as [[_ Hden]|]; [|simplify_eq; lia].
    injection Hprec as <- _ <-.
    assert (L = 0) as HL0 by (unfold L; by rewrite Hden). rewrite HL0 in *.
    change (sub32 0 0) with 0 in *. rewrite (decide_False (P := 2 = 10)) in Hkeep by done.
    rewrite decide_True in Hkeep by done. rewrite Hd in Hkeep. cbn [unscaled dscale] in Hkeep.
    rewrite Z.shiftl_1_l in *. assert (Hpow : 0 < 2 ^ e ≤ 2 ^ 60).
    { split; [lia|apply Z.pow_le_mono_r; lia]. }
    rewrite (wrap64_id (2 ^ e)) in * by (unfold is_int64, MinInt64, MaxInt64; lia).
    assert (Hmul : checked (int64Multiply v (2 ^ e)) (v * 2 ^ e)).
    { apply int64Multiply_checked; [done|]. unfold is_int64, MinInt64, MaxInt64. lia. }
    destruct Hmul as [Hok' Hr]. rewrite Hok in Hok'. specialize (Hr Hok). rewrite Hr.
    symmetry in Hok'. apply bool_decide_eq_true in Hok'.
    rewrite Hkeep; [|by split|lia|].
    + unfold Dec_value. cbn [unscaled dscale]. apply decimal_Proper; [|done].
      destruct (np_positive parts); [done|].
      destruct (neg64_small _ Hok') as [-> _]; [unfold mostNegative, MinInt64; lia|lia].
    + intros _. unfold Dec_value, decimal. cbn [unscaled dscale]. simpl (ten ^ _)%Q.
      rewrite Qmult_1_r, <-Zle_Qle. unfold is_int64 in Hok'. destruct (np_positive parts); lia.
Qed.


(** Beyond the largest suffix the text loses the exponent: a DecimalSI quantity
    whose canonical exponent is larger than exa is printed without any suffix,
    and read back as its mantissa. *)
Theorem quantity_text_loss q m e :
  qs q = "" → IsZero q = false → print_format q = DecimalSI → m ≠ 0 → Z.log2 (Z.abs m) < 2 ^ 29 →
  Quantity_AsCanonicalBytes q = (FormatInt m, e) → 18 < e →
  (Quantity_String q).1 = FormatInt m ∧
  ∃ q', ParseQuantity (Quantity_String q).1 = Ok q' ∧ (Quantity_value q' == inject_Z m)%Q.
Proof.
  intros Hs Hz Hf Hm Hlog Hc He. unfold Quantity_String. rewrite decide_True by done.
  unfold CanonicalizeBytes. rewrite Hz, Hf, decide_True by (by right). rewrite Hc.
  assert (constructBytes 10 e DecimalSI = None) as ->.
  { unfold constructBytes. rewrite decide_True by done. unfold decSuffixes, suffixer_of. simpl.
    by rewrite !lookup_insert_ne by (intros [= ?]; lia). }
  simpl. split; [apply app_empty_r_str|].
  destruct (parse_decimal m 0 DecimalSI "") as (q' & -> & Hv & _); [done|lia|lia|by left|done|done|].
  exists q'. split; [done|]. rewrite Hv. unfold decimal. simpl. ring.
Qed.

(** ** Texts *)

Lemma parse_paths_agree_witness :
  let parts := mkParts false "-1.5" "1" "5" "k" in
  let fixed := mkQuantity (mkAmount (-15) 2) None "" DecimalSI in
  let dec := mkQuantity zeroAmount (Some (mkDec (-1500000000000) 9)) "" DecimalSI in
  ParseQuantity "-1.5k" = Ok fixed ∧ parse_slow parts 10 3 DecimalSI = Ok dec ∧
  (Quantity_value fixed == Quantity_value dec)%Q.
Proof.
  split; [vm_compute; reflexivity|]. split; [vm_compute; reflexivity|].
  apply (parse_paths_agree "-1.5k" (mkParts false "-1.5" "1" "5" "k") 10 3 DecimalSI);
    [vm_compute; reflexivity|vm_compute; reflexivity|vm_compute; reflexivity|lia|vm_compute; reflexivity|
     vm_compute; reflexivity].
Defined.


(** A thousand exa, as the parser reads it, is printed as one. *)
Lemma quantity_text_loss_witness :
  let q := NewScaledQuantity 1000 18 in
  ParseQuantity "1000E" = Ok q ∧ (Quantity_String q).1 = "1" ∧
  ∃ q', ParseQuantity (Quantity_String q).1 = Ok q' ∧ (Quantity_value q' == inject_Z 1)%Q.
Proof.
  split; [vm_compute; reflexivity|].
  apply (quantity_text_loss (NewScaledQuantity 1000 18) 1 21);
    [reflexivity|reflexivity|reflexivity|discriminate|vm_compute; reflexivity|vm_compute; reflexivity|lia].
Defined.
