(* ===== verification/Rbac.v ===== *)
(** * Role based access control

    Models the rule matching of pkg/apis/rbac/helpers.go, the comparison of rules
    of pkg/apis/rbac/validation/policy_comparator.go, the resolution of a user's
    rules of rulevalidation.go, and the authorizer and the subject locator of
    plugin/pkg/auth/authorizer/rbac.  The attributes of a request are those of
    AttributesRecord in the authorizer package of staging/.  Loops that return at
    the first element of a kind are [existsb] and [find]; an aggregate of errors is
    the list of them, [None] when there are none. *)

From S2P Require Import Prelude.

(** ** Data *)

Definition VerbAll : string := "*".
Definition APIGroupAll : string := "*".
Definition ResourceAll : string := "*".
Definition NonResourceAll : string := "*".

Definition GroupKind : string := "Group".
Definition ServiceAccountKind : string := "ServiceAccount".
Definition UserKind : string := "User".

Definition GroupName : string := "rbac.authorization.k8s.io".
Definition SystemPrivilegedGroup : string := "system:masters".

(** AttributeRestrictions is an object that nothing reads. *)
Record PolicyRule := mkRule {
  Verbs : list string;
  AttributeRestrictions : option string;
  APIGroups : list string;
  Resources : list string;
  ResourceNames : list string;
  NonResourceURLs : list string
}.

Record Subject := mkSubject {
  s_Kind : string;
  s_APIVersion : string;
  s_Name : string;
  s_Namespace : string
}.

#[export] Instance Subject_eq_dec : EqDecision Subject.
Proof. solve_decision. Defined.

Record RoleRef := mkRoleRef {
  ref_APIGroup : string;
  ref_Kind : string;
  ref_Name : string
}.

#[export] Instance RoleRef_eq_dec : EqDecision RoleRef.
Proof. solve_decision. Defined.

(** Role, and ClusterRole without a namespace. *)
Record Role := mkRole {
  role_Namespace : string;
  role_Name : string;
  Rules : list PolicyRule
}.

(** RoleBinding, and ClusterRoleBinding without a namespace. *)
Record RoleBinding := mkBinding {
  rb_Namespace : string;
  rb_Name : string;
  Subjects : list Subject;
  rb_RoleRef : RoleRef
}.

Record UserInfo := mkUser {
  GetName : string;
  GetGroups : list string
}.

Record Attributes := mkAttributes {
  a_User : option UserInfo;
  a_Verb : string;
  a_Namespace : string;
  a_APIGroup : string;
  a_APIVersion : string;
  a_Resource : string;
  a_Subresource : string;
  a_Name : string;
  a_ResourceRequest : bool;
  a_Path : string
}.

(** ** Strings *)

(** [strings.HasPrefix(s, p)] *)
Fixpoint HasPrefix (s p : string) : bool :=
  match p, s with
  | EmptyString, _ => true
  | String c p', String d s' => bool_decide (c = d) && HasPrefix s' p'
  | String _ _, EmptyString => false
  end.

(** [strings.HasSuffix(s, "*")] *)
Fixpoint HasSuffix_star (s : string) : bool :=
  match s with
  | EmptyString => false
  | String c EmptyString => bool_decide (c = "*"%char)
  | String _ s' => HasSuffix_star s'
  end.

(** [strings.TrimRight(s, "*")] *)
Fixpoint TrimRight_star (s : string) : string :=
  match s with
  | EmptyString => EmptyString
  | String c s' =>
      match TrimRight_star s' with
      | EmptyString => if decide (c = "*"%char) then EmptyString else String c EmptyString
      | t => String c t
      end
  end.

(** ** Matching a rule (helpers.go) *)

Definition VerbMatches (rule : PolicyRule) (requestedVerb : string) : bool :=
  existsb (λ v, bool_decide (v = VerbAll) || bool_decide (v = requestedVerb)) (Verbs rule).

Definition APIGroupMatches (rule : PolicyRule) (requestedGroup : string) : bool :=
  existsb (λ g, bool_decide (g = APIGroupAll) || bool_decide (g = requestedGroup)) (APIGroups rule).

Definition ResourceMatches (rule : PolicyRule) (requestedResource : string) : bool :=
  existsb (λ r, bool_decide (r = ResourceAll) || bool_decide (r = requestedResource)) (Resources rule).

Definition ResourceNameMatches (rule : PolicyRule) (requestedName : string) : bool :=
  if decide (length (ResourceNames rule) = 0) then true
  else existsb (λ n, bool_decide (n = requestedName)) (ResourceNames rule).

Definition NonResourceURLMatches (rule : PolicyRule) (requestedURL : string) : bool :=
  existsb (λ u, bool_decide (u = NonResourceAll) || bool_decide (u = requestedURL)
    || (HasSuffix_star u && HasPrefix requestedURL (TrimRight_star u))) (NonResourceURLs rule).

Definition RuleAllows (a : Attributes) (rule : PolicyRule) : bool :=
  if a_ResourceRequest a then
    let resource :=
      if decide (0 < String.length (a_Subresource a))
      then a_Resource a +:+ "/" +:+ a_Subresource a else a_Resource a in
    VerbMatches rule (a_Verb a) && APIGroupMatches rule (a_APIGroup a) &&
    ResourceMatches rule resource && ResourceNameMatches rule (a_Name a)
  else VerbMatches rule (a_Verb a) && NonResourceURLMatches rule (a_Path a).

Definition RulesAllow (a : Attributes) (rules : list PolicyRule) : bool :=
  existsb (RuleAllows a) rules.

(** ** Comparing rules (policy_comparator.go) *)

Definition has (set : list string) (ele : string) : bool :=
  existsb (λ s, bool_decide (s = ele)) set.

Definition hasAll (set contains : list string) : bool :=
  let owning : gset string := list_to_set set in
  forallb (λ ele, bool_decide (ele ∈ owning)) contains.

Definition nonResourceURLCovers (ownerPath subPath : string) : bool :=
  bool_decide (ownerPath = subPath)
  || (HasSuffix_star ownerPath && HasPrefix subPath (TrimRight_star ownerPath)).

Definition nonResourceURLsCoversAll (set covers : list string) : bool :=
  forallb (λ path, existsb (λ owner, nonResourceURLCovers owner path) set) covers.

Definition ruleCovers (ownerRule subRule : PolicyRule) : bool :=
  let verbMatches := has (Verbs ownerRule) VerbAll || hasAll (Verbs ownerRule) (Verbs subRule) in
  let groupMatches :=
    has (APIGroups ownerRule) APIGroupAll || hasAll (APIGroups ownerRule) (APIGroups subRule) in
  let resourceMatches :=
    has (Resources ownerRule) ResourceAll || hasAll (Resources ownerRule) (Resources subRule) in
  let nonResourceURLMatches :=
    nonResourceURLsCoversAll (NonResourceURLs ownerRule) (NonResourceURLs subRule) in
  let resourceNameMatches :=
    if decide (length (ResourceNames subRule) = 0)
    then bool_decide (length (ResourceNames ownerRule) = 0)
    else bool_decide (length (ResourceNames ownerRule) = 0)
         || hasAll (ResourceNames ownerRule) (ResourceNames subRule) in
  verbMatches && groupMatches && resourceMatches && resourceNameMatches && nonResourceURLMatches.

Definition breakdownRule (rule : PolicyRule) : list PolicyRule :=
  (group ← APIGroups rule;
   resource ← Resources rule;
   verb ← Verbs rule;
   if decide (0 < length (ResourceNames rule)) then
     resourceName ← ResourceNames rule;
     [mkRule [verb] None [group] [resource] [resourceName] []]
   else [mkRule [verb] None [group] [resource] [] []])
  ++
  (nonResourceURL ← NonResourceURLs rule;
   verb ← Verbs rule;
   [mkRule [verb] None [] [] [] [nonResourceURL]]).

Definition Covers (ownerRules servantRules : list PolicyRule) : bool * list PolicyRule :=
  let subrules := servantRules ≫= breakdownRule in
  let uncoveredRules :=
    filter (λ subrule, existsb (λ ownerRule, ruleCovers ownerRule subrule) ownerRules = false) subrules in
  (bool_decide (length uncoveredRules = 0), uncoveredRules).

(** ** Resolving the rules of a user (rulevalidation.go) *)

Inductive rbac_error :=
  | GetError (msg : string)
  | UnsupportedKind (group kind : string).

(** The four getters and listers a resolver is made of. *)
Record DefaultRuleResolver := mkResolver {
  GetRole : string → string → result rbac_error Role;
  ListRoleBindings : string → result rbac_error (list RoleBinding);
  GetClusterRole : string → result rbac_error Role;
  ListClusterRoleBindings : result rbac_error (list RoleBinding)
}.

Definition NewAggregate {E} (errlist : list E) : option (list E) :=
  match errlist with [] => None | _ => Some errlist end.

Definition MakeUsername (namespace name : string) : string :=
  "system:serviceaccount:" +:+ namespace +:+ ":" +:+ name.

Definition appliesToUser (user : UserInfo) (subject : Subject) (namespace : string) : bool :=
  if decide (s_Kind subject = UserKind) then bool_decide (GetName user = s_Name subject)
  else if decide (s_Kind subject = GroupKind) then has (GetGroups user) (s_Name subject)
  else if decide (s_Kind subject = ServiceAccountKind) then
    let saNamespace :=
      if decide (0 < String.length (s_Namespace subject)) then s_Namespace subject else namespace in
    if decide (String.length saNamespace = 0) then false
    else bool_decide (MakeUsername saNamespace (s_Name subject) = GetName user)
  else false.

Definition appliesTo (user : UserInfo) (bindingSubjects : list Subject) (namespace : string) : bool :=
  existsb (λ s, appliesToUser user s namespace) bindingSubjects.

Definition GetRoleReferenceRules (r : DefaultRuleResolver) (roleRef : RoleRef) (bindingNamespace : string)
    : result rbac_error (list PolicyRule) :=
  if decide (ref_APIGroup roleRef = GroupName ∧ ref_Kind roleRef = "Role") then
    role !<- GetRole r bindingNamespace (ref_Name roleRef); Ok (Rules role)
  else if decide (ref_APIGroup roleRef = GroupName ∧ ref_Kind roleRef = "ClusterRole") then
    clusterRole !<- GetClusterRole r (ref_Name roleRef); Ok (Rules clusterRole)
  else Err (UnsupportedKind (ref_APIGroup roleRef) (ref_Kind roleRef)).

(** The loop over the bindings of one kind; it extends both lists. *)
Definition rules_step (r : DefaultRuleResolver) (user : UserInfo) (namespace : string)
    (acc : list PolicyRule * list rbac_error) (binding : RoleBinding) : list PolicyRule * list rbac_error :=
  let '(policyRules, errorlist) := acc in
  if appliesTo user (Subjects binding) namespace then
    match GetRoleReferenceRules r (rb_RoleRef binding) namespace with
    | Err e => (policyRules, errorlist ++ [e])
    | Ok rules => (policyRules ++ rules, errorlist)
    end
  else (policyRules, errorlist).

Definition rules_loop (r : DefaultRuleResolver) (user : UserInfo) (namespace : string)
    (bindings : result rbac_error (list RoleBinding)) (acc : list PolicyRule * list rbac_error)
    : list PolicyRule * list rbac_error :=
  match bindings with
  | Err e => (acc.1, acc.2 ++ [e])
  | Ok bindings => foldl (rules_step r user namespace) acc bindings
  end.

Definition RulesFor (r : DefaultRuleResolver) (user : UserInfo) (namespace : string)
    : list PolicyRule * option (list rbac_error) :=
  let acc := rules_loop r user "" (ListClusterRoleBindings r) ([], []) in
  let acc :=
    if decide (0 < String.length namespace)
    then rules_loop r user namespace (ListRoleBindings r namespace) acc else acc in
  (acc.1, NewAggregate acc.2).

(** What a request's context carries. *)
Record Context := mkContext {
  UserFrom : option UserInfo;
  NamespaceFrom : string
}.

Inductive escalation_error :=
  | NoUserOnContext
  | ExtraPrivileges (missingRights : list PolicyRule) (user : UserInfo) (ownerRules : list PolicyRule)
      (ruleResolutionErrors : list (list rbac_error)).

Definition ConfirmNoEscalation (ctx : Context) (ruleResolver : DefaultRuleResolver)
    (rules : list PolicyRule) : result escalation_error unit :=
  match UserFrom ctx with
  | None => Err NoUserOnContext
  | Some user =>
      let namespace := NamespaceFrom ctx in
      let '(ownerRules, err) := RulesFor ruleResolver user namespace in
      let ruleResolutionErrors := match err with Some e => [e] | None => [] end in
      let '(ownerRightsCover, missingRights) := Covers ownerRules rules in
      if ownerRightsCover then Ok tt
      else Err (ExtraPrivileges missingRights user ownerRules ruleResolutionErrors)
  end.

(** A resolver over lists of objects. *)
Record StaticRoles := mkStatic {
  roles : list Role;
  roleBindings : list RoleBinding;
  clusterRoles : list Role;
  clusterRoleBindings : list RoleBinding
}.

Definition Static_GetRole (r : StaticRoles) (namespace name : string) : result rbac_error Role :=
  if decide (String.length namespace = 0) then Err (GetError "must provide namespace when getting role")
  else match List.find (λ role, bool_decide (role_Namespace role = namespace)
                           && bool_decide (role_Name role = name)) (roles r) with
       | Some role => Ok role
       | None => Err (GetError "role not found")
       end.

Definition Static_GetClusterRole (r : StaticRoles) (name : string) : result rbac_error Role :=
  match List.find (λ role, bool_decide (role_Name role = name)) (clusterRoles r) with
  | Some role => Ok role
  | None => Err (GetError "role not found")
  end.

Definition Static_ListRoleBindings (r : StaticRoles) (namespace : string)
    : result rbac_error (list RoleBinding) :=
  if decide (String.length namespace = 0)
  then Err (GetError "must provide namespace when listing role bindings")
  else Ok (filter (λ b, rb_Namespace b = namespace) (roleBindings r)).

Definition newMockRuleResolver (r : StaticRoles) : DefaultRuleResolver :=
  mkResolver (Static_GetRole r) (Static_ListRoleBindings r) (Static_GetClusterRole r)
    (Ok (clusterRoleBindings r)).

(** ** The authorizer (rbac.go)

    With no user on the request the code dereferences nil: while it looks for
    bindings that apply, or when it logs the denial. *)

Definition Authorize (r : DefaultRuleResolver) (a : Attributes) : outcome (bool * list rbac_error) :=
  match a_User a with
  | None => Panic "nil pointer dereference"
  | Some user =>
      let '(rules, ruleResolutionError) := RulesFor r user (a_Namespace a) in
      if RulesAllow a rules then Ret (true, [])
      else Ret (false, default [] ruleResolutionError)
  end.

(** ** The subject locator (subject_locator.go) *)

Definition subjects_step (r : DefaultRuleResolver) (a : Attributes) (namespace : string)
    (acc : list Subject * list rbac_error) (binding : RoleBinding) : list Subject * list rbac_error :=
  let '(subjects, errorlist) := acc in
  let '(rules, errorlist) :=
    match GetRoleReferenceRules r (rb_RoleRef binding) namespace with
    | Err e => ([], errorlist ++ [e])
    | Ok rules => (rules, errorlist)
    end in
  (if RulesAllow a rules then subjects ++ Subjects binding else subjects, errorlist).

Definition subjects_loop (r : DefaultRuleResolver) (a : Attributes) (namespace : string)
    (bindings : result rbac_error (list RoleBinding)) (acc : list Subject * list rbac_error)
    : list Subject * list rbac_error :=
  match bindings with
  | Err e => (acc.1, acc.2 ++ [e])
  | Ok bindings => foldl (subjects_step r a namespace) acc bindings
  end.

Definition dedup_step (dedupedSubjects : list Subject) (subject : Subject) : list Subject :=
  if existsb (λ curr, bool_decide (curr = subject)) dedupedSubjects then dedupedSubjects
  else dedupedSubjects ++ [subject].

(** The list without duplicates is computed, and the one with them returned. *)
Definition AllowedSubjects (superUser : string) (r : DefaultRuleResolver) (a : Attributes)
    : list Subject * option (list rbac_error) :=
  let subjects := [mkSubject GroupKind "" SystemPrivilegedGroup ""] in
  let subjects :=
    if decide (0 < String.length superUser)
    then subjects ++ [mkSubject UserKind "v1alpha1" superUser ""] else subjects in
  let acc := subjects_loop r a "" (ListClusterRoleBindings r) (subjects, []) in
  let acc :=
    if decide (0 < String.length (a_Namespace a))
    then subjects_loop r a (a_Namespace a) (ListRoleBindings r (a_Namespace a)) acc else acc in
  let '(subjects, errorlist) := acc in
  let dedupedSubjects := foldl dedup_step [] subjects in
  (subjects, NewAggregate errorlist).

(** ** Validation of rules (validation.go) *)

Inductive rule_problem :=
  | VerbsRequired
  | NamespacedURLs (urls : list string)
  | MixedRule (urls : list string)
  | APIGroupsRequired
  | ResourcesRequired.

Definition validatePolicyRule (rule : PolicyRule) (isNamespaced : bool) : list rule_problem :=
  let allErrs := if decide (length (Verbs rule) = 0) then [VerbsRequired] else [] in
  if decide (0 < length (NonResourceURLs rule)) then
    let allErrs := if isNamespaced then allErrs ++ [NamespacedURLs (NonResourceURLs rule)] else allErrs in
    if decide (0 < length (APIGroups rule) ∨ 0 < length (Resources rule) ∨ 0 < length (ResourceNames rule))
    then allErrs ++ [MixedRule (NonResourceURLs rule)] else allErrs
  else
    let allErrs := if decide (length (APIGroups rule) = 0) then allErrs ++ [APIGroupsRequired] else allErrs in
    if decide (length (Resources rule) = 0) then allErrs ++ [ResourcesRequired] else allErrs.

(** ** Lemmas on strings *)

Fixpoint stars (n : nat) : string :=
  match n with
  | O => EmptyString
  | S n => String "*" (stars n)
  end.

Lemma HasPrefix_refl s : HasPrefix s s = true.
Proof. induction s; simpl; [done|]. by rewrite bool_decide_eq_true_2. Qed.

Lemma HasPrefix_app s p : HasPrefix (p +:+ s) p = true.
Proof. induction p as [|c p IH]; [by destruct s|]. simpl. by rewrite bool_decide_eq_true_2. Qed.

Lemma HasPrefix_inv s p : HasPrefix s p = true → ∃ r, s = p +:+ r.
Proof.
  revert s. induction p as [|c p IH]; intros [|d s]; simpl; try done; eauto.
  intros [->%bool_decide_eq_true Hs]%andb_true_iff. destruct (IH s Hs) as [r ->]. by exists r.
Qed.

Lemma HasPrefix_trans s p q : HasPrefix s p = true → HasPrefix p q = true → HasPrefix s q = true.
Proof.
  revert s p. induction q as [|c q IH]; intros [|e s] [|d p]; simpl; try done.
  rewrite !andb_true_iff, !bool_decide_eq_true. intros [<- ?] [<- ?]. eauto.
Qed.

(** Trimming removes stars, and all of them. *)
Lemma TrimRight_star_eq s : ∃ n, s = TrimRight_star s +:+ stars n.
Proof.
  induction s as [|c s [n IH]]; [by exists 0|]. simpl. destruct (TrimRight_star s) as [|d t].
  - destruct (decide (c = "*"%char)) as [->|]; [exists (S n)|exists n]; simpl in *; by subst s.
  - exists n. by rewrite IH at 1.
Qed.

Lemma TrimRight_star_no_star s : HasSuffix_star (TrimRight_star s) = false.
Proof.
  induction s as [|c s IH]; [done|]. simpl. destruct (TrimRight_star s) as [|d t].
  - destruct (decide (c = "*"%char)); [done|]. simpl. by rewrite bool_decide_eq_false_2.
  - done.
Qed.

Lemma stars_prefix n p : HasPrefix (stars n) p = true → HasSuffix_star p = false → p = "".
Proof.
  intros Hp. enough (p = "" ∨ HasSuffix_star p = true) as [->|] by congruence.
  revert n Hp. induction p as [|c p IH]; intros [|n]; simpl; try (by auto).
  intros [->%bool_decide_eq_true Hp]%andb_true_iff. right.
  destruct (IH n Hp) as [->|Hs]; [done|]. by destruct p.
Qed.

(** A prefix that does not end in a star lies before the stars. *)
Lemma prefix_before_stars t n p :
  HasSuffix_star p = false → HasPrefix (t +:+ stars n) p = true → HasPrefix t p = true.
Proof.
  revert p. induction t as [|c t IH]; intros p Hp Hpre; simpl in Hpre.
  - by rewrite (stars_prefix n p).
  - destruct p as [|d p]; [done|]. simpl in *. apply andb_true_iff in Hpre as [-> Hpre]. simpl.
    destruct p as [|e p]; [by destruct t|]. by apply IH.
Qed.

(** ** What the matching functions decide *)

Lemma existsb_elem {A} (f : A → bool) l : existsb f l = true ↔ ∃ x, x ∈ l ∧ f x = true.
Proof. rewrite existsb_exists. by setoid_rewrite <-list_elem_of_In. Qed.

Lemma forallb_elem {A} (f : A → bool) l : forallb f l = true ↔ ∀ x, x ∈ l → f x = true.
Proof. rewrite forallb_forall. by setoid_rewrite <-list_elem_of_In. Qed.

(** A list of strings in which the star stands for all. *)
Definition wild (l : list string) (x : string) : Prop := "*" ∈ l ∨ x ∈ l.

Lemma existsb_wild l x :
  existsb (λ v, bool_decide (v = "*") || bool_decide (v = x)) l = true ↔ wild l x.
Proof.
  rewrite existsb_elem. unfold wild. setoid_rewrite orb_true_iff. setoid_rewrite bool_decide_eq_true.
  naive_solver.
Qed.

Lemma has_spec l x : has l x = true ↔ x ∈ l.
Proof. unfold has. rewrite existsb_elem. setoid_rewrite bool_decide_eq_true. naive_solver. Qed.

Lemma hasAll_spec l c : hasAll l c = true ↔ ∀ x, x ∈ c → x ∈ l.
Proof.
  unfold hasAll. rewrite forallb_elem. setoid_rewrite bool_decide_eq_true.
  by setoid_rewrite elem_of_list_to_set.
Qed.

Lemma covers_wild_spec l x : has l "*" || hasAll l [x] = true ↔ wild l x.
Proof. rewrite orb_true_iff, has_spec, hasAll_spec. unfold wild. set_solver. Qed.

Lemma wild_one x y : wild [x] y ↔ x = "*" ∨ x = y.
Proof. unfold wild. set_solver. Qed.

Definition names_match (l : list string) (x : string) : Prop := l = [] ∨ x ∈ l.

Lemma ResourceNameMatches_spec rule x :
  ResourceNameMatches rule x = true ↔ names_match (ResourceNames rule) x.
Proof.
  unfold ResourceNameMatches, names_match. destruct (decide _) as [Hl|Hl].
  - apply nil_length_inv in Hl. naive_solver.
  - rewrite existsb_elem. setoid_rewrite bool_decide_eq_true.
    split; [naive_solver|]. intros [Hn|Hin]; [by rewrite Hn in Hl|eauto].
Qed.

Definition url_match (u path : string) : Prop :=
  u = "*" ∨ u = path ∨ HasSuffix_star u = true ∧ HasPrefix path (TrimRight_star u) = true.

Lemma NonResourceURLMatches_spec rule path :
  NonResourceURLMatches rule path = true ↔ ∃ u, u ∈ NonResourceURLs rule ∧ url_match u path.
Proof.
  unfold NonResourceURLMatches. rewrite existsb_elem. unfold url_match.
  setoid_rewrite orb_true_iff. setoid_rewrite orb_true_iff. setoid_rewrite andb_true_iff.
  setoid_rewrite bool_decide_eq_true. unfold NonResourceAll. naive_solver.
Qed.

(** The resource of a request, with its subresource. *)
Definition requested_resource (a : Attributes) : string :=
  if decide (0 < String.length (a_Subresource a))
  then a_Resource a +:+ "/" +:+ a_Subresource a else a_Resource a.

Lemma RuleAllows_spec a rule :
  RuleAllows a rule = true ↔
  wild (Verbs rule) (a_Verb a) ∧
  if a_ResourceRequest a then
    wild (APIGroups rule) (a_APIGroup a) ∧ wild (Resources rule) (requested_resource a) ∧
    names_match (ResourceNames rule) (a_Name a)
  else ∃ u, u ∈ NonResourceURLs rule ∧ url_match u (a_Path a).
Proof.
  unfold RuleAllows. destruct (a_ResourceRequest a).
  - rewrite !andb_true_iff, ResourceNameMatches_spec.
    unfold VerbMatches, APIGroupMatches, ResourceMatches. rewrite !existsb_wild. unfold requested_resource.
    tauto.
  - rewrite andb_true_iff, NonResourceURLMatches_spec. unfold VerbMatches. by rewrite existsb_wild.
Qed.

Lemma RulesAllow_spec a rules :
  RulesAllow a rules = true ↔ ∃ rule, rule ∈ rules ∧ RuleAllows a rule = true.
Proof. apply existsb_elem. Qed.

Lemma RulesAllow_app a l1 l2 : RulesAllow a (l1 ++ l2) = RulesAllow a l1 || RulesAllow a l2.
Proof. apply existsb_app. Qed.

(** ** Breaking a rule down *)

(** The two shapes of the rules a rule is broken into. *)
Inductive atomic (rule : PolicyRule) : PolicyRule → Prop :=
  | atomic_named g r v n :
      g ∈ APIGroups rule → r ∈ Resources rule → v ∈ Verbs rule → n ∈ ResourceNames rule →
      atomic rule (mkRule [v] None [g] [r] [n] [])
  | atomic_all g r v :
      g ∈ APIGroups rule → r ∈ Resources rule → v ∈ Verbs rule → ResourceNames rule = [] →
      atomic rule (mkRule [v] None [g] [r] [] [])
  | atomic_url u v :
      u ∈ NonResourceURLs rule → v ∈ Verbs rule → atomic rule (mkRule [v] None [] [] [] [u]).

Lemma elem_of_breakdown rule sub : sub ∈ breakdownRule rule ↔ atomic rule sub.
Proof.
  unfold breakdownRule. rewrite elem_of_app. split.
  - intros [H|H].
    + apply list_elem_of_bind in H as (g & H & Hg). apply list_elem_of_bind in H as (r & H & Hr).
      apply list_elem_of_bind in H as (v & H & Hv).
      destruct (decide _) as [Hl|Hl].
      * apply list_elem_of_bind in H as (n & ->%list_elem_of_singleton & Hn). by constructor.
      * apply list_elem_of_singleton in H as ->. constructor; try done.
        apply nil_length_inv. lia.
    + apply list_elem_of_bind in H as (u & H & Hu). apply list_elem_of_bind in H as (v & H & Hv).
      apply list_elem_of_singleton in H as ->. by constructor.
  - intros [g r v n Hg Hr Hv Hn|g r v Hg Hr Hv Hn|u v Hu Hv]; [left|left|right].
    + apply list_elem_of_bind. exists g. split; [|done]. apply list_elem_of_bind. exists r. split; [|done].
      apply list_elem_of_bind. exists v. split; [|done]. rewrite decide_True.
      * apply list_elem_of_bind. exists n. split; [by apply list_elem_of_singleton|done].
      * destruct (ResourceNames rule); [by apply elem_of_nil in Hn|simpl; lia].
    + apply list_elem_of_bind. exists g. split; [|done]. apply list_elem_of_bind. exists r. split; [|done].
      apply list_elem_of_bind. exists v. split; [|done]. rewrite Hn. rewrite decide_False by (simpl; lia).
      by apply list_elem_of_singleton.
    + apply list_elem_of_bind. exists u. split; [|done]. apply list_elem_of_bind. exists v. split; [|done].
      by apply list_elem_of_singleton.
Qed.

(** The rules a rule is broken into allow what it allows. *)
Lemma breakdown_equivalent a rule : RulesAllow a (breakdownRule rule) = RuleAllows a rule.
Proof.
  apply eq_bool_prop_intro. rewrite !Is_true_true, RulesAllow_spec. setoid_rewrite elem_of_breakdown.
  setoid_rewrite RuleAllows_spec. split.
  - intros (sub & Hsub & Hv & Ha). destruct Hsub; simpl in *; unfold wild, names_match in *;
      destruct (a_ResourceRequest a); set_solver.
  - intros [Hv Ha].
    assert (∃ v, v ∈ Verbs rule ∧ wild [v] (a_Verb a)) as (v & ? & ?) by (unfold wild in *; set_solver).
    destruct (a_ResourceRequest a).
    + destruct Ha as (Hg & Hr & Hn).
      assert (∃ g, g ∈ APIGroups rule ∧ wild [g] (a_APIGroup a)) as (g & ? & ?)
        by (unfold wild in *; set_solver).
      assert (∃ r, r ∈ Resources rule ∧ wild [r] (requested_resource a)) as (r & ? & ?)
        by (unfold wild in *; set_solver).
      destruct Hn as [Hn|Hn].
      * eexists. split; [by apply (atomic_all rule g r v)|]. simpl. split_and!; try done. by left.
      * eexists. split; [by apply (atomic_named rule g r v (a_Name a))|]. simpl. split_and!; try done.
        right. set_solver.
    + destruct Ha as (u & Hu & Hm). eexists. split; [by apply (atomic_url rule u v)|]. simpl.
      split; [done|]. exists u. set_solver.
Qed.

(** ** Covering is sound *)

Lemma nonResourceURLCovers_spec o u :
  nonResourceURLCovers o u = true ↔
  o = u ∨ HasSuffix_star o = true ∧ HasPrefix u (TrimRight_star o) = true.
Proof. unfold nonResourceURLCovers. by rewrite orb_true_iff, andb_true_iff, bool_decide_eq_true. Qed.

(** A path that covers a path matches whatever the latter matches. *)
Lemma url_covers_sound o u path :
  nonResourceURLCovers o u = true → url_match u path → url_match o path.
Proof.
  rewrite nonResourceURLCovers_spec. intros [->|[Hs Hp]]; [done|]. intros Hu. right; right.
  split; [done|]. pose proof (TrimRight_star_no_star o) as Hno. destruct Hu as [->|[->|[_ Hpath]]].
  - rewrite (stars_prefix 1 (TrimRight_star o)) by done. by destruct path.
  - done.
  - destruct (TrimRight_star_eq u) as [n Hn]. rewrite Hn in Hp.
    apply prefix_before_stars in Hp; [|done]. by eapply HasPrefix_trans.
Qed.

Lemma ruleCovers_spec o sub :
  ruleCovers o sub = true ↔
  (has (Verbs o) "*" || hasAll (Verbs o) (Verbs sub) = true) ∧
  (has (APIGroups o) "*" || hasAll (APIGroups o) (APIGroups sub) = true) ∧
  (has (Resources o) "*" || hasAll (Resources o) (Resources sub) = true) ∧
  (ResourceNames o = [] ∨ ResourceNames sub ≠ [] ∧ ResourceNames sub ⊆ ResourceNames o) ∧
  (∀ u, u ∈ NonResourceURLs sub → ∃ o', o' ∈ NonResourceURLs o ∧ nonResourceURLCovers o' u = true).
Proof.
  unfold ruleCovers. rewrite !andb_true_iff. unfold nonResourceURLsCoversAll. rewrite forallb_elem.
  setoid_rewrite existsb_elem. unfold VerbAll, APIGroupAll, ResourceAll.
  assert (∀ l : list string, length l = 0 ↔ l = []) as Hnil by (by intros []).
  assert ((if decide (length (ResourceNames sub) = 0)
           then bool_decide (length (ResourceNames o) = 0)
           else bool_decide (length (ResourceNames o) = 0)
                || hasAll (ResourceNames o) (ResourceNames sub)) = true ↔
          (ResourceNames o = [] ∨ ResourceNames sub ≠ [] ∧ ResourceNames sub ⊆ ResourceNames o)) as ->;
    [|tauto].
  destruct (decide _) as [Hs|Hs]; rewrite Hnil in Hs.
  - rewrite bool_decide_eq_true, Hnil. naive_solver.
  - rewrite orb_true_iff, bool_decide_eq_true, Hnil, hasAll_spec. unfold subseteq, list_subseteq. tauto.
Qed.

Lemma ruleCovers_sound a owner rule sub :
  atomic rule sub → ruleCovers owner sub = true → RuleAllows a sub = true → RuleAllows a owner = true.
Proof.
  rewrite ruleCovers_spec, !RuleAllows_spec. intros Hat (Hv & Hg & Hr & Hn & Hu) [Hav Ha].
  assert (∀ l x y, has l "*" || hasAll l [x] = true → wild [x] y → wild l y) as Hwild.
  { intros l x y Hl%covers_wild_spec [-> | ->]%wild_one; [|done]. left. by destruct Hl. }
  split; [destruct Hat; simpl in *; eauto|].
  destruct (a_ResourceRequest a).
  - destruct Ha as (Hag & Har & Han).
    destruct Hat as [g r v n|g r v|u v]; simpl in *; [| |by destruct Hag as [?%elem_of_nil|?%elem_of_nil]];
      (split_and!; [by eauto|by eauto|]).
    + destruct Hn as [->|[_ Hn]]; [by left|]. right. apply Hn. destruct Han; set_solver.
    + destruct Hn as [->|[? _]]; [by left|done].
  - destruct Ha as (u & Hin & Hm). destruct (Hu u Hin) as (o' & Ho' & Hc).
    exists o'. split; [done|]. by eapply url_covers_sound.
Qed.

Lemma Covers_spec owner servant :
  (Covers owner servant).1 = true ↔
  ∀ rule sub, rule ∈ servant → atomic rule sub → ∃ o, o ∈ owner ∧ ruleCovers o sub = true.
Proof.
  unfold Covers. simpl. rewrite bool_decide_eq_true. rewrite length_zero_iff_nil.
  split.
  - intros Hnil rule sub Hrule Hsub. apply existsb_elem.
    destruct (existsb _ owner) eqn:He; [done|]. exfalso. apply (elem_of_nil (A := PolicyRule) sub).
    rewrite <-Hnil. apply list_elem_of_filter. split; [done|].
    apply list_elem_of_bind. exists rule. by rewrite elem_of_breakdown.
  - intros Hall. apply filter_all_false, Forall_forall.
    intros sub (rule & Hsub%elem_of_breakdown & Hrule)%list_elem_of_bind He.
    specialize (Hall rule sub Hrule Hsub). apply existsb_elem in Hall. congruence.
Qed.

(** Covering rules allow every request the covered rules allow. *)
Lemma Covers_sound owner servant a :
  (Covers owner servant).1 = true → RulesAllow a servant = true → RulesAllow a owner = true.
Proof.
  rewrite Covers_spec. intros Hc (rule & Hrule & Ha)%RulesAllow_spec.
  rewrite <-breakdown_equivalent in Ha. apply RulesAllow_spec in Ha as (sub & Hsub%elem_of_breakdown & Ha).
  destruct (Hc rule sub Hrule Hsub) as (o & Ho & Hco). apply RulesAllow_spec. exists o.
  split; [done|]. by eapply ruleCovers_sound.
Qed.

(** ** Covering is complete

    A request is built that an uncovered rule allows and no owner rule does: where
    the uncovered rule has a star the request has a string no owner rule has. *)

Lemma wild_request (L : list string) x :
  ∃ y, wild [x] y ∧ ∀ l, l ⊆ L → wild l y → wild l x.
Proof.
  destruct (decide (x = "*")) as [->|Hx].
  - destruct (exist_fresh (list_to_set L : gset string)) as [y Hy]. exists y.
    rewrite elem_of_list_to_set in Hy. split; [by rewrite wild_one; left|].
    intros l Hl [?|Hin]; [by left|]. by destruct Hy; apply Hl.
  - exists x. split; [by rewrite wild_one; right|done].
Qed.

Lemma fresh_ascii (l : list ascii) : length l < 256 → ∃ c, c ∉ l.
Proof.
  intros Hl. destruct (decide (Forall (λ c, c ∈ l) (ascii_of_nat <$> seq 0 256))) as [Hall|Hall].
  - exfalso. assert (NoDup (ascii_of_nat <$> seq 0 256)) as Hnd by (apply (bool_decide_unpack _); vm_compute; done).
    apply (NoDup_submseteq _ l) in Hnd; [|intros c Hc; by rewrite Forall_forall in Hall; apply Hall].
    apply submseteq_length in Hnd. rewrite length_fmap, length_seq in Hnd. lia.
  - apply not_Forall_Exists in Hall; [|apply _]. apply Exists_exists in Hall as (c & _ & Hc). by exists c.
Qed.

Lemma get_app t c s : String.get (String.length t) (t +:+ String c s) = Some c.
Proof. by induction t. Qed.

Lemma prefix_extended t c p :
  HasPrefix (t +:+ String c "") p = true → HasPrefix t p = true ∨ p = t +:+ String c "".
Proof.
  revert p. induction t as [|d t IH]; intros [|e p]; simpl; try (by auto).
  - intros [->%bool_decide_eq_true Hp]%andb_true_iff. right. by destruct p.
  - intros [->%bool_decide_eq_true Hp]%andb_true_iff. destruct (IH p Hp) as [?| ->]; [left|by right].
    by rewrite bool_decide_eq_true_2.
Qed.

Lemma url_request (L : list string) u :
  length L < 256 →
  ∃ path, url_match u path ∧ ∀ o, o ∈ L → url_match o path → nonResourceURLCovers o u = true.
Proof.
  intros HL. setoid_rewrite nonResourceURLCovers_spec.
  destruct (HasSuffix_star u) eqn:Hstar.
  - destruct (fresh_ascii (omap (String.get (String.length (TrimRight_star u))) L)) as [c Hc].
    { eapply Nat.le_lt_trans; [|done]. clear. induction L as [|o L IH]; csimpl; [lia|].
      destruct (String.get _ o); simpl; lia. }
    assert (∀ o s, o ∈ L → o = TrimRight_star u +:+ String c s → False) as Hno.
    { intros o s Ho ->. apply Hc. apply list_elem_of_omap. eexists. split; [done|]. apply get_app. }
    exists (TrimRight_star u +:+ String c ""). split.
    { right; right. split; [done|]. apply HasPrefix_app. }
    intros o Ho [->|[->|[Hs Hp]]].
    + right. split; [done|]. by destruct u.
    + exfalso. by eapply Hno.
    + right. split; [done|]. apply prefix_extended in Hp as [Hp|Hp].
      * eapply HasPrefix_trans; [|done]. destruct (TrimRight_star_eq u) as [n Hn].
        rewrite Hn at 1. apply HasPrefix_app.
      * exfalso. destruct (TrimRight_star_eq o) as [n Hn]. rewrite Hp in Hn.
        eapply (Hno o (stars n)); [done|]. by rewrite Hn, app_assoc_str.
  - exists u. split; [by right; left|]. intros o _ [->|[->|?]]; [right|by left|by right].
    split; [done|]. by destruct u.
Qed.

Lemma valid_rule_unmixed rule ns :
  validatePolicyRule rule ns = [] → NonResourceURLs rule ≠ [] → ResourceNames rule = [].
Proof.
  unfold validatePolicyRule. intros Hv Hu. destruct (decide (0 < length (NonResourceURLs rule))) as [_|Hl].
  - destruct (decide (_ ∨ _)) as [_|Hn]; [by apply app_nil in Hv as [_ ?]|].
    apply nil_length_inv. lia.
  - destruct Hu. apply nil_length_inv. lia.
Qed.

Ltac simplify_rule := cbn [Verbs APIGroups Resources ResourceNames NonResourceURLs].

(** The request of a resource rule. *)
Lemma resource_request (owner : list PolicyRule) v g r ns :
  length ns ≤ 1 →
  ∃ a, RuleAllows a (mkRule [v] None [g] [r] ns []) = true ∧
    ∀ o, o ∈ owner → RuleAllows a o = true → ruleCovers o (mkRule [v] None [g] [r] ns []) = true.
Proof.
  intros Hns.
  destruct (wild_request (owner ≫= Verbs) v) as (v' & Hv & Hv').
  destruct (wild_request (owner ≫= APIGroups) g) as (g' & Hg & Hg').
  destruct (wild_request (owner ≫= Resources) r) as (r' & Hr & Hr').
  assert (∃ n, names_match ns n ∧ ∀ l, l ⊆ (owner ≫= ResourceNames) → names_match l n →
                 l = [] ∨ ns ≠ [] ∧ ns ⊆ l) as (n & Hn & Hn').
  { destruct ns as [|n [|]]; simpl in Hns; [|exists n|lia].
    - destruct (exist_fresh (list_to_set (owner ≫= ResourceNames) : gset string)) as [n Hn].
      rewrite elem_of_list_to_set in Hn. exists n. split; [by left|].
      intros l Hl [->|Hin]; [by left|]. by destruct Hn; apply Hl.
    - split; [right; set_solver|]. intros l _ [->|Hin]; [by left|]. right. split; [done|]. set_solver. }
  exists (mkAttributes None v' "" g' "" r' "" n true "").
  split; [by apply RuleAllows_spec|].
  intros o Ho (Hov & Hog & Hor & Hon)%RuleAllows_spec. apply ruleCovers_spec. simplify_rule.
  assert (∀ f : PolicyRule → list string, f o ⊆ (owner ≫= f)) as Hsub.
  { intros f x Hx. apply list_elem_of_bind. eauto. }
  rewrite !covers_wild_spec. split_and!; eauto. by intros u ?%elem_of_nil.
Qed.

(** The request of a rule on a path. *)
Lemma path_request (owner : list PolicyRule) v u :
  length (owner ≫= NonResourceURLs) < 256 →
  Forall (λ rule, ∃ ns, validatePolicyRule rule ns = []) owner →
  ∃ a, RuleAllows a (mkRule [v] None [] [] [] [u]) = true ∧
    ∀ o, o ∈ owner → RuleAllows a o = true → ruleCovers o (mkRule [v] None [] [] [] [u]) = true.
Proof.
  intros Hlen Hvalid.
  destruct (wild_request (owner ≫= Verbs) v) as (v' & Hv & Hv').
  destruct (url_request (owner ≫= NonResourceURLs) u Hlen) as (path & Hp & Hp').
  exists (mkAttributes None v' "" "" "" "" "" "" false path).
  split; [apply RuleAllows_spec; split; [done|]; exists u; set_solver|].
  intros o Ho [Hov (o' & Ho' & Hm)]%RuleAllows_spec. apply ruleCovers_spec. simplify_rule.
  rewrite Forall_forall in Hvalid. destruct (Hvalid o Ho) as [ns Hns].
  assert (ResourceNames o = []) as Hnil.
  { apply (valid_rule_unmixed o ns Hns). intros Heq. rewrite Heq in Ho'. by apply elem_of_nil in Ho'. }
  rewrite covers_wild_spec, !orb_true_iff, !hasAll_spec. split_and!.
  - apply Hv'; [|done]. intros x Hx. apply list_elem_of_bind. eauto.
  - right. by intros x ?%elem_of_nil.
  - right. by intros x ?%elem_of_nil.
  - by left.
  - intros u' ->%list_elem_of_singleton. exists o'. split; [done|]. apply Hp'; [|done].
    apply list_elem_of_bind. eauto.
Qed.


Definition view_rule : PolicyRule := mkRule ["get"; "list"] None [""] ["*"] [] [].
Definition health_rule : PolicyRule := mkRule ["get"] None [] [] [] ["/healthz*"].
Definition pod_rule : PolicyRule := mkRule ["get"] None [""] ["pods"; "pods/log"] ["web"] [].


(** ** What a user is granted *)

(** The bindings that count for a request in a namespace, with the namespace they
    are evaluated in. *)
Inductive binding_of (r : DefaultRuleResolver) (namespace : string) : RoleBinding → string → Prop :=
  | binding_cluster bs b :
      ListClusterRoleBindings r = Ok bs → b ∈ bs → binding_of r namespace b ""
  | binding_local bs b :
      0 < String.length namespace → ListRoleBindings r namespace = Ok bs → b ∈ bs →
      binding_of r namespace b namespace.

Definition binding_rules (r : DefaultRuleResolver) (b : RoleBinding) (ns : string) (rule : PolicyRule) : Prop :=
  ∃ rules, GetRoleReferenceRules r (rb_RoleRef b) ns = Ok rules ∧ rule ∈ rules.

Lemma rules_steps_elem r user ns bs acc rule :
  rule ∈ (foldl (rules_step r user ns) acc bs).1 ↔
  rule ∈ acc.1 ∨ ∃ b, b ∈ bs ∧ appliesTo user (Subjects b) ns = true ∧ binding_rules r b ns rule.
Proof.
  revert acc. induction bs as [|b bs IH]; intros [rules errs]; simpl.
  { split; [by left|]. intros [?|(b & Hb%elem_of_nil & _)]; done. }
  rewrite IH. clear IH. setoid_rewrite elem_of_cons. unfold rules_step, binding_rules.
  destruct (appliesTo user (Subjects b) ns) eqn:Happ; simpl.
  - destruct (GetRoleReferenceRules r (rb_RoleRef b) ns) as [rs|e] eqn:Hrs; simpl; rewrite ?elem_of_app;
      firstorder (subst; eauto; congruence).
  - firstorder (subst; eauto; congruence).
Qed.

Lemma rules_loop_elem r user ns bindings acc rule :
  rule ∈ (rules_loop r user ns bindings acc).1 ↔
  rule ∈ acc.1 ∨ ∃ bs b, bindings = Ok bs ∧ b ∈ bs ∧ appliesTo user (Subjects b) ns = true ∧
                         binding_rules r b ns rule.
Proof.
  destruct bindings as [bs|e]; simpl; [|naive_solver]. rewrite rules_steps_elem. naive_solver.
Qed.

Lemma RulesFor_elem r user ns rule :
  rule ∈ (RulesFor r user ns).1 ↔
  ∃ b bns, binding_of r ns b bns ∧ appliesTo user (Subjects b) bns = true ∧ binding_rules r b bns rule.
Proof.
  unfold RulesFor. simpl. split.
  - intros Hin. destruct (decide _) as [Hns|Hns]; repeat (rewrite rules_loop_elem in Hin);
      simpl in Hin; [destruct Hin as [Hin|(bs & b & Hbs & Hb & ? & ?)];
        [|exists b, ns; split; [by eapply binding_local|done]]|];
      (destruct Hin as [?%elem_of_nil|(bs & b & Hbs & Hb & ? & ?)];
        [done|exists b, ""; split; [by eapply binding_cluster|done]]).
  - intros (b & bns & Hb & Happ & Hr). destruct Hb as [bs b Hbs Hb|bs b Hns Hbs Hb].
    + assert (rule ∈ (rules_loop r user "" (ListClusterRoleBindings r) ([], [])).1) as Hin.
      { apply rules_loop_elem. right. eauto 10. }
      destruct (decide _); [|done]. apply rules_loop_elem. by left.
    + rewrite decide_True by done. apply rules_loop_elem. right. eauto 10.
Qed.

(** The requests that the authorizer lets through. *)
Definition allowed (r : DefaultRuleResolver) (user : UserInfo) (a : Attributes) : Prop :=
  RulesAllow a (RulesFor r user (a_Namespace a)).1 = true.

Lemma allowed_spec r user a :
  allowed r user a ↔
  ∃ b bns rules, binding_of r (a_Namespace a) b bns ∧ appliesTo user (Subjects b) bns = true ∧
    GetRoleReferenceRules r (rb_RoleRef b) bns = Ok rules ∧ RulesAllow a rules = true.
Proof.
  unfold allowed. setoid_rewrite RulesAllow_spec. setoid_rewrite RulesFor_elem. unfold binding_rules.
  naive_solver.
Qed.

Lemma Authorize_allowed r user a :
  a_User a = Some user → Authorize r a = Ret (true, []) ↔ allowed r user a.
Proof.
  intros Hu. unfold Authorize, allowed. rewrite Hu. destruct (RulesFor r user (a_Namespace a)) as [rules e].
  simpl. by destruct (RulesAllow a rules).
Qed.

(** ** The subjects of a request *)

Lemma subjects_steps_elem r a ns bs acc s :
  s ∈ (foldl (subjects_step r a ns) acc bs).1 ↔
  s ∈ acc.1 ∨ ∃ b rules, b ∈ bs ∧ s ∈ Subjects b ∧
    GetRoleReferenceRules r (rb_RoleRef b) ns = Ok rules ∧ RulesAllow a rules = true.
Proof.
  revert acc. induction bs as [|b bs IH]; intros [subjects errs]; simpl.
  { split; [by left|]. intros [?|(b & rules & Hb%elem_of_nil & _)]; done. }
  rewrite IH. clear IH. setoid_rewrite elem_of_cons. unfold subjects_step.
  destruct (GetRoleReferenceRules r (rb_RoleRef b) ns) as [rs|e] eqn:Hrs; simpl.
  - destruct (RulesAllow a rs) eqn:Hall; rewrite ?elem_of_app; firstorder (subst; eauto; congruence).
  - firstorder (subst; eauto; congruence).
Qed.

Lemma subjects_loop_elem r a ns bindings acc s :
  s ∈ (subjects_loop r a ns bindings acc).1 ↔
  s ∈ acc.1 ∨ ∃ bs b rules, bindings = Ok bs ∧ b ∈ bs ∧ s ∈ Subjects b ∧
    GetRoleReferenceRules r (rb_RoleRef b) ns = Ok rules ∧ RulesAllow a rules = true.
Proof.
  destruct bindings as [bs|e]; simpl; [|naive_solver]. rewrite subjects_steps_elem. naive_solver.
Qed.

(** The two loops together. *)
Lemma subjects_loops_elem r a init s :
  s ∈ (if decide (0 < String.length (a_Namespace a))
     then subjects_loop r a (a_Namespace a) (ListRoleBindings r (a_Namespace a))
            (subjects_loop r a "" (ListClusterRoleBindings r) (init, []))
     else subjects_loop r a "" (ListClusterRoleBindings r) (init, [])).1 ↔
  s ∈ init ∨ ∃ b bns rules, binding_of r (a_Namespace a) b bns ∧ s ∈ Subjects b ∧
    GetRoleReferenceRules r (rb_RoleRef b) bns = Ok rules ∧ RulesAllow a rules = true.
Proof.
  destruct (decide (0 < String.length (a_Namespace a))) as [Hns|Hns];
    repeat rewrite subjects_loop_elem; cbn [fst]; split.
  - intros [[?|(bs & b & rules & ? & ? & ? & ?)]|(bs & b & rules & ? & ? & ? & ?)]; [by left|right..].
    + exists b, "", rules. split; [by eapply binding_cluster|done].
    + exists b, (a_Namespace a), rules. split; [by eapply binding_local|done].
  - intros [?|(b & bns & rules & [bs b' ? ?|bs b' ? ? ?] & ? & ? & ?)]; eauto 15.
  - intros [?|(bs & b & rules & ? & ? & ? & ?)]; [by left|right].
    exists b, "", rules. split; [by eapply binding_cluster|done].
  - intros [?|(b & bns & rules & [bs b' ? ?|bs b' ? ? ?] & ? & ? & ?)]; eauto 15. done.
Qed.

Lemma AllowedSubjects_elem superUser r a s :
  s ∈ (AllowedSubjects superUser r a).1 ↔
  s = mkSubject GroupKind "" SystemPrivilegedGroup "" ∨
  (0 < String.length superUser ∧ s = mkSubject UserKind "v1alpha1" superUser "") ∨
  ∃ b bns rules, binding_of r (a_Namespace a) b bns ∧ s ∈ Subjects b ∧
    GetRoleReferenceRules r (rb_RoleRef b) bns = Ok rules ∧ RulesAllow a rules = true.
Proof.
  unfold AllowedSubjects.
  assert (∀ acc : list Subject * list rbac_error,
    (let '(subjects, errorlist) := acc in
     let dedupedSubjects := foldl dedup_step [] subjects in
     (subjects, NewAggregate errorlist)).1 = acc.1) as -> by (by intros []).
  rewrite subjects_loops_elem.
  destruct (decide (0 < String.length superUser));
    rewrite ?elem_of_app, ?list_elem_of_singleton; tauto.
Qed.

(** The namespace only matters for service accounts that do not name theirs. *)
Lemma appliesToUser_qualified user s ns :
  (s_Kind s = ServiceAccountKind → 0 < String.length (s_Namespace s)) →
  appliesToUser user s ns = appliesToUser user s "".
Proof.
  intros Hq. unfold appliesToUser. destruct (decide (s_Kind s = UserKind)); [done|].
  destruct (decide (s_Kind s = GroupKind)); [done|].
  destruct (decide (s_Kind s = ServiceAccountKind)) as [Hk|]; [|done].
  destruct (decide (0 < String.length (s_Namespace s))) as [|[]]; [done|auto].
Qed.

(** The subject locator agrees with the authorizer: a user is one of the
    subjects it lists for a request exactly when the authorizer allows the user
    that request, or the user is in the group system:masters or the super user.
    Service accounts in cluster role bindings name their namespace, as validation
    asks for. *)
Theorem allowed_subjects_exact (superUser : string) (r : DefaultRuleResolver) (a : Attributes) (user : UserInfo) :
  (∀ bs b s, ListClusterRoleBindings r = Ok bs → b ∈ bs → s ∈ Subjects b →
     s_Kind s = ServiceAccountKind → 0 < String.length (s_Namespace s)) →
  a_User a = Some user →
  (∃ s, s ∈ (AllowedSubjects superUser r a).1 ∧ appliesToUser user s (a_Namespace a) = true) ↔
  Authorize r a = Ret (true, []) ∨ SystemPrivilegedGroup ∈ GetGroups user ∨
  (0 < String.length superUser ∧ GetName user = superUser).
Proof.
  intros Hq Hu. rewrite (Authorize_allowed r user a Hu), allowed_spec.
  setoid_rewrite AllowedSubjects_elem. split.
  - intros (s & [->|[[? ->]|(b & bns & rules & Hb & Hs & Hr & Hall)]] & Happ).
    + right; left. by apply has_spec.
    + right; right. by apply bool_decide_eq_true in Happ.
    + left. exists b, bns, rules. split_and!; try done. apply existsb_elem. exists s. split; [done|].
      destruct Hb as [bs b Hbs Hb|bs b Hns Hbs Hb]; [|done].
      rewrite <-(appliesToUser_qualified user s (a_Namespace a)); eauto.
  - intros [(b & bns & rules & Hb & Happ & Hr & Hall)|[Hg|[Hl Hn]]].
    + apply existsb_elem in Happ as (s & Hs & Happ). exists s.
      split; [right; right; eauto 10|]. destruct Hb as [bs b Hbs Hb|bs b Hns Hbs Hb]; [|done].
      rewrite appliesToUser_qualified; eauto.
    + exists (mkSubject GroupKind "" SystemPrivilegedGroup ""). split; [by left|]. by apply has_spec.
    + exists (mkSubject UserKind "v1alpha1" superUser ""). split; [by right; left|].
      by apply bool_decide_eq_true.
Qed.

Definition viewer_role : Role := mkRole "" "view" [view_rule; health_rule].
Definition web_role : Role := mkRole "prod" "web" [pod_rule].

Definition demo_roles : StaticRoles := mkStatic [web_role]
  [mkBinding "prod" "deployer" [mkSubject ServiceAccountKind "" "bot" ""]
     (mkRoleRef GroupName "Role" "web")]
  [viewer_role]
  [mkBinding "" "viewers" [mkSubject UserKind "" "ann" ""; mkSubject GroupKind "" "ops" ""]
     (mkRoleRef GroupName "ClusterRole" "view");
   mkBinding "" "viewers-2" [mkSubject UserKind "" "ann" ""] (mkRoleRef GroupName "ClusterRole" "view")].

Definition demo_request (user : UserInfo) : Attributes :=
  mkAttributes (Some user) "get" "prod" "" "v1" "pods" "log" "web" true "".

Lemma allowed_subjects_exact_witness :
  let bot := mkUser "system:serviceaccount:prod:bot" [] in
  (∃ s, s ∈ (AllowedSubjects "" (newMockRuleResolver demo_roles) (demo_request bot)).1 ∧
        appliesToUser bot s "prod" = true) ↔
  Authorize (newMockRuleResolver demo_roles) (demo_request bot) = Ret (true, []) ∨
  SystemPrivilegedGroup ∈ GetGroups bot ∨ (0 < String.length "" ∧ GetName bot = "").
Proof.
  apply (allowed_subjects_exact "" (newMockRuleResolver demo_roles)
           (demo_request (mkUser "system:serviceaccount:prod:bot" []))); [|reflexivity].
  intros bs b s Hbs. simpl in Hbs. injection Hbs as <-. intros Hb Hs.
  each_elem Hb ltac:(simpl in Hs; each_elem Hs ltac:(discriminate)).
Defined.

(** Subjects bound twice are listed twice. *)
Example allowed_subjects_duplicates :
  (AllowedSubjects "" (newMockRuleResolver demo_roles) (demo_request (mkUser "ann" []))).1 =
  [mkSubject GroupKind "" SystemPrivilegedGroup ""; mkSubject UserKind "" "ann" "";
   mkSubject GroupKind "" "ops" ""; mkSubject UserKind "" "ann" "";
   mkSubject ServiceAccountKind "" "bot" ""].
Proof. vm_compute. reflexivity. Qed.
