(* ===== verification/RbacStorage.v ===== *)
(** * Writing roles and bindings

    Models pkg/registry/rbac: the check of escalation_check.go and the storages of
    role, clusterrole, rolebinding and clusterrolebinding (policybased/storage.go),
    which let a user write a role or a binding only if the user already has the
    rights it grants, and the wrapping of updates of pkg/api/rest/update.go.  The
    storages wrap a rest.StandardStorage: a record of operations on the stored
    objects, with its contract as a class.

    The check of a write reads the objects before the write is done.  Writes of
    others may come in between, and reads may fail: the resolver that a check uses
    is given separately from the objects that the write changes. *)

From S2P Require Import Prelude Rbac.

(** ** Operations *)

Definition EscalationAllowed (ctx : Context) : bool :=
  match UserFrom ctx with
  | None => true
  | Some u => existsb (λ group, bool_decide (group = SystemPrivilegedGroup)) (GetGroups u)
  end.

Inductive storage_error :=
  | Forbidden (resource name : string) (e : escalation_error)
  | Unresolved (e : rbac_error)
  | StorageError (msg : string).

(** rest.UpdatedObjectInfo: the new object, from the context and the old one. *)
Record UpdatedObjectInfo (O : Type) := mkInfo {
  Preconditions : option string;
  UpdatedObject : Context → O → result storage_error O
}.
Arguments mkInfo {O} _ _.
Arguments Preconditions {O} _.
Arguments UpdatedObject {O} _ _ _.

Definition TransformFunc (O : Type) : Type := Context → O → O → result storage_error O.

Fixpoint transform {O} (transformers : list (TransformFunc O)) (ctx : Context) (newObj oldObj : O)
    : result storage_error O :=
  match transformers with
  | [] => Ok newObj
  | t :: transformers => newObj !<- t ctx newObj oldObj; transform transformers ctx newObj oldObj
  end.

Definition WrapUpdatedObjectInfo {O} (objInfo : UpdatedObjectInfo O) (transformers : list (TransformFunc O))
    : UpdatedObjectInfo O :=
  mkInfo (Preconditions objInfo) (λ ctx oldObj,
    newObj !<- UpdatedObject objInfo ctx oldObj; transform transformers ctx newObj oldObj).

(** rest.StandardStorage, over the stored objects. *)
Record StandardStorage (O : Type) := mkStorage {
  std_Create : Context → O → StaticRoles → result storage_error O * StaticRoles;
  std_Update : Context → string → UpdatedObjectInfo O → StaticRoles →
               result storage_error (O * bool) * StaticRoles;
  std_Delete : Context → string → StaticRoles → result storage_error O * StaticRoles
}.
Arguments mkStorage {O} _ _ _.
Arguments std_Create {O} _ _ _ _.
Arguments std_Update {O} _ _ _ _ _.
Arguments std_Delete {O} _ _ _ _.

(** *** Roles *)

Definition Role_check (resource : string) (ruleResolver : DefaultRuleResolver) (ctx : Context) (role : Role)
    : result storage_error unit :=
  match ConfirmNoEscalation ctx ruleResolver (Rules role) with
  | Err err => Err (Forbidden resource (role_Name role) err)
  | Ok _ => Ok tt
  end.

Definition Role_Create (s : StandardStorage Role) (ruleResolver : DefaultRuleResolver) (ctx : Context)
    (obj : Role) (objects : StaticRoles) : result storage_error Role * StaticRoles :=
  if EscalationAllowed ctx then std_Create s ctx obj objects
  else match Role_check "roles" ruleResolver ctx obj with
       | Err err => (Err err, objects)
       | Ok _ => std_Create s ctx obj objects
       end.

Definition Role_Update (s : StandardStorage Role) (ruleResolver : DefaultRuleResolver) (ctx : Context)
    (name : string) (obj : UpdatedObjectInfo Role) (objects : StaticRoles)
    : result storage_error (Role * bool) * StaticRoles :=
  if EscalationAllowed ctx then std_Update s ctx name obj objects
  else
    let nonEscalatingInfo := WrapUpdatedObjectInfo obj [λ ctx obj oldObj,
      _ !<- Role_check "roles" ruleResolver ctx obj; Ok obj] in
    std_Update s ctx name nonEscalatingInfo objects.

Definition ClusterRole_Create (s : StandardStorage Role) (ruleResolver : DefaultRuleResolver) (ctx : Context)
    (obj : Role) (objects : StaticRoles) : result storage_error Role * StaticRoles :=
  if EscalationAllowed ctx then std_Create s ctx obj objects
  else match Role_check "clusterroles" ruleResolver ctx obj with
       | Err err => (Err err, objects)
       | Ok _ => std_Create s ctx obj objects
       end.

Definition ClusterRole_Update (s : StandardStorage Role) (ruleResolver : DefaultRuleResolver) (ctx : Context)
    (name : string) (obj : UpdatedObjectInfo Role) (objects : StaticRoles)
    : result storage_error (Role * bool) * StaticRoles :=
  if EscalationAllowed ctx then std_Update s ctx name obj objects
  else
    let nonEscalatingInfo := WrapUpdatedObjectInfo obj [λ ctx obj oldObj,
      _ !<- Role_check "clusterroles" ruleResolver ctx obj; Ok obj] in
    std_Update s ctx name nonEscalatingInfo objects.

(** *** Bindings *)

Definition Binding_check (resource : string) (ruleResolver : DefaultRuleResolver) (ctx : Context)
    (binding : RoleBinding) : result storage_error unit :=
  match GetRoleReferenceRules ruleResolver (rb_RoleRef binding) (rb_Namespace binding) with
  | Err err => Err (Unresolved err)
  | Ok rules =>
      match ConfirmNoEscalation ctx ruleResolver rules with
      | Err err => Err (Forbidden resource (rb_Name binding) err)
      | Ok _ => Ok tt
      end
  end.

Definition RoleBinding_Create (s : StandardStorage RoleBinding) (ruleResolver : DefaultRuleResolver)
    (ctx : Context) (obj : RoleBinding) (objects : StaticRoles)
    : result storage_error RoleBinding * StaticRoles :=
  if EscalationAllowed ctx then std_Create s ctx obj objects
  else match Binding_check "rolebindings" ruleResolver ctx obj with
       | Err err => (Err err, objects)
       | Ok _ => std_Create s ctx obj objects
       end.

Definition RoleBinding_Update (s : StandardStorage RoleBinding) (ruleResolver : DefaultRuleResolver)
    (ctx : Context) (name : string) (obj : UpdatedObjectInfo RoleBinding) (objects : StaticRoles)
    : result storage_error (RoleBinding * bool) * StaticRoles :=
  if EscalationAllowed ctx then std_Update s ctx name obj objects
  else
    let nonEscalatingInfo := WrapUpdatedObjectInfo obj [λ ctx obj oldObj,
      _ !<- Binding_check "rolebindings" ruleResolver ctx obj; Ok obj] in
    std_Update s ctx name nonEscalatingInfo objects.

Definition ClusterRoleBinding_Create (s : StandardStorage RoleBinding) (ruleResolver : DefaultRuleResolver)
    (ctx : Context) (obj : RoleBinding) (objects : StaticRoles)
    : result storage_error RoleBinding * StaticRoles :=
  if EscalationAllowed ctx then std_Create s ctx obj objects
  else match Binding_check "clusterrolebindings" ruleResolver ctx obj with
       | Err err => (Err err, objects)
       | Ok _ => std_Create s ctx obj objects
       end.

Definition ClusterRoleBinding_Update (s : StandardStorage RoleBinding) (ruleResolver : DefaultRuleResolver)
    (ctx : Context) (name : string) (obj : UpdatedObjectInfo RoleBinding) (objects : StaticRoles)
    : result storage_error (RoleBinding * bool) * StaticRoles :=
  if EscalationAllowed ctx then std_Update s ctx name obj objects
  else
    let nonEscalatingInfo := WrapUpdatedObjectInfo obj [λ ctx obj oldObj,
      _ !<- Binding_check "clusterrolebindings" ruleResolver ctx obj; Ok obj] in
    std_Update s ctx name nonEscalatingInfo objects.

(** ** The contract of the storages

    A write that happens stores an object with the content given, under the
    request's namespace; a deletion removes the object of a name.  A namespaced
    object that names another namespace than the request's is refused. *)

Definition put_role (o : Role) (s : StaticRoles) : StaticRoles :=
  mkStatic (o :: filter (λ x, ¬ (role_Namespace x = role_Namespace o ∧ role_Name x = role_Name o)) (roles s))
    (roleBindings s) (clusterRoles s) (clusterRoleBindings s).
Definition put_clusterRole (o : Role) (s : StaticRoles) : StaticRoles :=
  mkStatic (roles s) (roleBindings s)
    (o :: filter (λ x, role_Name x ≠ role_Name o) (clusterRoles s)) (clusterRoleBindings s).
Definition put_roleBinding (o : RoleBinding) (s : StaticRoles) : StaticRoles :=
  mkStatic (roles s)
    (o :: filter (λ x, ¬ (rb_Namespace x = rb_Namespace o ∧ rb_Name x = rb_Name o)) (roleBindings s))
    (clusterRoles s) (clusterRoleBindings s).
Definition put_clusterRoleBinding (o : RoleBinding) (s : StaticRoles) : StaticRoles :=
  mkStatic (roles s) (roleBindings s) (clusterRoles s)
    (o :: filter (λ x, rb_Name x ≠ rb_Name o) (clusterRoleBindings s)).

Definition del_role (ns name : string) (s : StaticRoles) : StaticRoles :=
  mkStatic (filter (λ x, ¬ (role_Namespace x = ns ∧ role_Name x = name)) (roles s))
    (roleBindings s) (clusterRoles s) (clusterRoleBindings s).
Definition del_clusterRole (ns name : string) (s : StaticRoles) : StaticRoles :=
  mkStatic (roles s) (roleBindings s) (filter (λ x, role_Name x ≠ name) (clusterRoles s))
    (clusterRoleBindings s).
Definition del_roleBinding (ns name : string) (s : StaticRoles) : StaticRoles :=
  mkStatic (roles s) (filter (λ x, ¬ (rb_Namespace x = ns ∧ rb_Name x = name)) (roleBindings s))
    (clusterRoles s) (clusterRoleBindings s).
Definition del_clusterRoleBinding (ns name : string) (s : StaticRoles) : StaticRoles :=
  mkStatic (roles s) (roleBindings s) (clusterRoles s)
    (filter (λ x, rb_Name x ≠ name) (clusterRoleBindings s)).

Class StorageContract {O : Type} (st : StandardStorage O) (stored : Context → O → O → Prop)
    (put : O → StaticRoles → StaticRoles) (del : string → string → StaticRoles → StaticRoles) := {
  create_effect : ∀ ctx obj s res s', std_Create st ctx obj s = (res, s') →
    s' = s ∨ ∃ obj', stored ctx obj obj' ∧ s' = put obj' s;
  update_effect : ∀ ctx name info s res s', std_Update st ctx name info s = (res, s') →
    s' = s ∨ ∃ old new obj', UpdatedObject info ctx old = Ok new ∧ stored ctx new obj' ∧ s' = put obj' s;
  delete_effect : ∀ ctx name s res s', std_Delete st ctx name s = (res, s') →
    s' = s ∨ s' = del (NamespaceFrom ctx) name s
}.

Definition role_stored (ctx : Context) (obj obj' : Role) : Prop :=
  Rules obj' = Rules obj ∧ role_Namespace obj' = NamespaceFrom ctx.
Definition clusterRole_stored (ctx : Context) (obj obj' : Role) : Prop := Rules obj' = Rules obj.
Definition roleBinding_stored (ctx : Context) (obj obj' : RoleBinding) : Prop :=
  rb_RoleRef obj' = rb_RoleRef obj ∧ Subjects obj' = Subjects obj ∧
  rb_Namespace obj' = NamespaceFrom ctx ∧
  (rb_Namespace obj = "" ∨ rb_Namespace obj = NamespaceFrom ctx).
Definition clusterRoleBinding_stored (ctx : Context) (obj obj' : RoleBinding) : Prop :=
  rb_RoleRef obj' = rb_RoleRef obj ∧ Subjects obj' = Subjects obj.

(** ** Requests *)

Inductive request :=
  | CreateRole (obj : Role)
  | UpdateRole (name : string) (obj : UpdatedObjectInfo Role)
  | DeleteRole (name : string)
  | CreateClusterRole (obj : Role)
  | UpdateClusterRole (name : string) (obj : UpdatedObjectInfo Role)
  | DeleteClusterRole (name : string)
  | CreateRoleBinding (obj : RoleBinding)
  | UpdateRoleBinding (name : string) (obj : UpdatedObjectInfo RoleBinding)
  | DeleteRoleBinding (name : string)
  | CreateClusterRoleBinding (obj : RoleBinding)
  | UpdateClusterRoleBinding (name : string) (obj : UpdatedObjectInfo RoleBinding)
  | DeleteClusterRoleBinding (name : string).

(** Requests for cluster scoped objects come without a namespace. *)
Definition cluster_scoped (req : request) : bool :=
  match req with
  | CreateClusterRole _ | UpdateClusterRole _ _ | DeleteClusterRole _
  | CreateClusterRoleBinding _ | UpdateClusterRoleBinding _ _ | DeleteClusterRoleBinding _ => true
  | _ => false
  end.

(** A resolver reads the objects: what it returns is stored, and it may fail. *)
Record reads (r : DefaultRuleResolver) (s : StaticRoles) : Prop := {
  reads_role : ∀ ns n o, GetRole r ns n = Ok o → Static_GetRole s ns n = Ok o;
  reads_bindings : ∀ ns bs, ListRoleBindings r ns = Ok bs → Static_ListRoleBindings s ns = Ok bs;
  reads_clusterRole : ∀ n o, GetClusterRole r n = Ok o → Static_GetClusterRole s n = Ok o;
  reads_clusterBindings : ∀ bs, ListClusterRoleBindings r = Ok bs → bs = clusterRoleBindings s
}.

(** The same request of another user. *)
Definition with_user (user : UserInfo) (a : Attributes) : Attributes :=
  mkAttributes (Some user) (a_Verb a) (a_Namespace a) (a_APIGroup a) (a_APIVersion a) (a_Resource a)
    (a_Subresource a) (a_Name a) (a_ResourceRequest a) (a_Path a).

Section requests.
Context (role_st clusterRole_st : StandardStorage Role).
Context (roleBinding_st clusterRoleBinding_st : StandardStorage RoleBinding).

Definition run (r : DefaultRuleResolver) (ctx : Context) (req : request) (s : StaticRoles) : StaticRoles :=
  match req with
  | CreateRole obj => (Role_Create role_st r ctx obj s).2
  | UpdateRole name obj => (Role_Update role_st r ctx name obj s).2
  | DeleteRole name => (std_Delete role_st ctx name s).2
  | CreateClusterRole obj => (ClusterRole_Create clusterRole_st r ctx obj s).2
  | UpdateClusterRole name obj => (ClusterRole_Update clusterRole_st r ctx name obj s).2
  | DeleteClusterRole name => (std_Delete clusterRole_st ctx name s).2
  | CreateRoleBinding obj => (RoleBinding_Create roleBinding_st r ctx obj s).2
  | UpdateRoleBinding name obj => (RoleBinding_Update roleBinding_st r ctx name obj s).2
  | DeleteRoleBinding name => (std_Delete roleBinding_st ctx name s).2
  | CreateClusterRoleBinding obj => (ClusterRoleBinding_Create clusterRoleBinding_st r ctx obj s).2
  | UpdateClusterRoleBinding name obj =>
      (ClusterRoleBinding_Update clusterRoleBinding_st r ctx name obj s).2
  | DeleteClusterRoleBinding name => (std_Delete clusterRoleBinding_st ctx name s).2
  end.

(** The objects over time, the latest first.  A user of [actors] without the
    escalation privilege makes a request; its check reads the objects as they are
    or as they were. *)
Inductive rbac_step (actors : list UserInfo) : list StaticRoles → list StaticRoles → Prop :=
  | rbac_request s past seen r ctx user req :
      UserFrom ctx = Some user → user ∈ actors → EscalationAllowed ctx = false →
      (cluster_scoped req = true → NamespaceFrom ctx = "") →
      seen ∈ s :: past → reads r seen →
      rbac_step actors (s :: past) (run r ctx req s :: s :: past).
End requests.

(** ** Lookups after a write *)

Lemma find_filter {A} (f : A → bool) (P : A → Prop) `{!∀ x, Decision (P x)} (l : list A) :
  (∀ x, f x = true → P x) → List.find f (filter P l) = List.find f l.
Proof.
  intros HP. induction l as [|x l IH]; [done|]. rewrite filter_cons. simpl.
  destruct (decide (P x)) as [HPx|HPx]; simpl; [by rewrite IH|].
  destruct (f x) eqn:Hf; [by destruct HPx; apply HP|done].
Qed.

Lemma find_filter_none {A} (f : A → bool) (P : A → Prop) `{!∀ x, Decision (P x)} (l : list A) :
  (∀ x, f x = true → ¬ P x) → List.find f (filter P l) = None.
Proof.
  intros HP. induction l as [|x l IH]; [done|]. rewrite filter_cons.
  destruct (decide (P x)) as [HPx|HPx]; simpl; [|done].
  destruct (f x) eqn:Hf; [by destruct (HP x)|done].
Qed.

Lemma get_role_put s o ns n x :
  Static_GetRole (put_role o s) ns n = Ok x →
  Static_GetRole s ns n = Ok x ∨ x = o ∧ ns = role_Namespace o.
Proof.
  unfold Static_GetRole, put_role. simpl. destruct (decide (String.length ns = 0)); [done|].
  destruct (bool_decide (role_Namespace o = ns) && bool_decide (role_Name o = n)) eqn:Hk.
  - apply andb_true_iff in Hk as [<-%bool_decide_eq_true _]. intros [= <-]. by right.
  - rewrite find_filter; [by left|].
    intros y [<-%bool_decide_eq_true <-%bool_decide_eq_true]%andb_true_iff [Hns Hn].
    by rewrite <-Hns, <-Hn, !bool_decide_eq_true_2 in Hk.
Qed.

Lemma get_role_del s k m ns n x :
  Static_GetRole (del_role k m s) ns n = Ok x → Static_GetRole s ns n = Ok x.
Proof.
  unfold Static_GetRole, del_role. simpl. destruct (decide (String.length ns = 0)); [done|].
  destruct (decide (ns = k ∧ n = m)) as [[-> ->]|Hne].
  - rewrite find_filter_none; [done|]. intros y. rewrite andb_true_iff, !bool_decide_eq_true. tauto.
  - rewrite find_filter; [done|]. intros y. rewrite andb_true_iff, !bool_decide_eq_true. naive_solver.
Qed.

Lemma get_clusterRole_put s o n x :
  Static_GetClusterRole (put_clusterRole o s) n = Ok x →
  Static_GetClusterRole s n = Ok x ∨ x = o.
Proof.
  unfold Static_GetClusterRole, put_clusterRole. simpl.
  destruct (bool_decide (role_Name o = n)) eqn:Hk; [intros [= <-]; by right|].
  apply bool_decide_eq_false in Hk. rewrite find_filter; [by left|].
  intros y <-%bool_decide_eq_true. congruence.
Qed.

Lemma get_clusterRole_del s k m n x :
  Static_GetClusterRole (del_clusterRole k m s) n = Ok x → Static_GetClusterRole s n = Ok x.
Proof.
  unfold Static_GetClusterRole, del_clusterRole. simpl. destruct (decide (n = m)) as [->|Hne].
  - rewrite find_filter_none; [done|]. intros y ->%bool_decide_eq_true. tauto.
  - rewrite find_filter; [done|]. intros y <-%bool_decide_eq_true. done.
Qed.

(** ** Reading the objects *)

Notation resolver := newMockRuleResolver.

Lemma reads_resolver s : reads (resolver s) s.
Proof. split; simpl; try done. by intros bs [= <-]. Qed.

Lemma reads_rules r s ref ns rules :
  reads r s → GetRoleReferenceRules r ref ns = Ok rules → GetRoleReferenceRules (resolver s) ref ns = Ok rules.
Proof.
  intros Hr. unfold GetRoleReferenceRules. simpl.
  destruct (decide (_ ∧ ref_Kind ref = "Role")); [|destruct (decide (_ ∧ ref_Kind ref = "ClusterRole")); [|done]].
  - destruct (GetRole r ns (ref_Name ref)) as [o|] eqn:Ho; simpl; [|done].
    intros [= <-]. by rewrite (reads_role r s Hr _ _ _ Ho).
  - destruct (GetClusterRole r (ref_Name ref)) as [o|] eqn:Ho; simpl; [|done].
    intros [= <-]. by rewrite (reads_clusterRole r s Hr _ _ Ho).
Qed.

Lemma reads_binding r s ns b bns :
  reads r s → binding_of r ns b bns → binding_of (resolver s) ns b bns.
Proof.
  intros Hr [bs b' Hbs Hb|bs b' Hns Hbs Hb].
  - apply (reads_clusterBindings r s Hr) in Hbs as ->. by eapply binding_cluster.
  - apply (reads_bindings r s Hr) in Hbs. by eapply binding_local.
Qed.

Lemma reads_allowed r s user a : reads r s → allowed r user a → allowed (resolver s) user a.
Proof.
  intros Hr. rewrite !allowed_spec. intros (b & bns & rules & Hb & Happ & Hrules & Ha).
  exists b, bns, rules. split_and!; [by eapply reads_binding|done|by eapply reads_rules|done].
Qed.

(** A reference that resolves without a namespace is to a cluster role. *)
Lemma rules_without_namespace s ref ns rules :
  GetRoleReferenceRules (resolver s) ref "" = Ok rules →
  GetRoleReferenceRules (resolver s) ref ns = Ok rules.
Proof.
  unfold GetRoleReferenceRules. simpl. by destruct (decide (_ ∧ ref_Kind ref = "Role")).
Qed.

(** A passed check bounds the rules by the rights of the user that asked. *)
Lemma confirmed_allowed ctx r s user rules a :
  UserFrom ctx = Some user → reads r s → ConfirmNoEscalation ctx r rules = Ok tt →
  (NamespaceFrom ctx = "" ∨ a_Namespace a = NamespaceFrom ctx) →
  RulesAllow a rules = true → allowed (resolver s) user a.
Proof.
  intros Hu Hr Hc Hns Ha. apply (reads_allowed r); [done|]. revert Hc. unfold ConfirmNoEscalation.
  rewrite Hu. destruct (RulesFor r user (NamespaceFrom ctx)) as [owner e] eqn:Hf.
  destruct (Covers owner rules) as [c missing] eqn:Hc. destruct c; [|done]. intros _.
  assert (RulesAllow a owner = true) as Hown.
  { apply (Covers_sound owner rules); [by rewrite Hc|done]. }
  unfold allowed. apply RulesAllow_spec in Hown as (rule & Hrule & Hra).
  apply RulesAllow_spec. exists rule. split; [|done].
  assert (rule ∈ (RulesFor r user (NamespaceFrom ctx)).1) as Hin by (by rewrite Hf).
  apply RulesFor_elem in Hin as (b & bns & Hb & Happ & Hbr). apply RulesFor_elem.
  exists b, bns. split; [|done]. destruct Hns as [Hns| ->]; [|done].
  destruct Hb as [bs b' Hbs Hb'|bs b' Hlen]; [by eapply binding_cluster|].
  rewrite Hns in Hlen. simpl in Hlen. lia.
Qed.

(** ** Rights stay within those of the actors *)

Section escalation.
Context (s0 : StaticRoles) (actors : list UserInfo).

(** What some actor could do in the beginning. *)
Definition within (a : Attributes) : Prop := ∃ u, u ∈ actors ∧ allowed (resolver s0) u a.

Definition bounded (ns : string) (rules : list PolicyRule) : Prop :=
  ∀ a, (ns = "" ∨ a_Namespace a = ns) → RulesAllow a rules = true → within a.

(** A binding grants what it granted in the beginning, or what actors could do. *)
Definition grants_sound (s : StaticRoles) : Prop := ∀ ns b bns rules,
  binding_of (resolver s) ns b bns → GetRoleReferenceRules (resolver s) (rb_RoleRef b) bns = Ok rules →
  binding_of (resolver s0) ns b bns ∧ GetRoleReferenceRules (resolver s0) (rb_RoleRef b) bns = Ok rules ∨
  bounded bns rules.

(** The content of a role stays, or becomes what actors could do. *)
Definition content_stable (s s' : StaticRoles) : Prop := ∀ ref ns rules,
  GetRoleReferenceRules (resolver s') ref ns = Ok rules →
  GetRoleReferenceRules (resolver s) ref ns = Ok rules ∨ bounded ns rules.

Lemma bounded_cluster ns rules : bounded "" rules → bounded ns rules.
Proof. intros Hb a _. apply Hb. by left. Qed.

Lemma content_stable_trans s1 s2 s3 :
  content_stable s1 s2 → content_stable s2 s3 → content_stable s1 s3.
Proof. intros H12 H23 ref ns rules [H|?]%H23; [by apply H12|by right]. Qed.

Lemma grants_sound_allowed s user a :
  grants_sound s → allowed (resolver s) user a → allowed (resolver s0) user a ∨ within a.
Proof.
  intros Hs. rewrite allowed_spec. intros (b & bns & rules & Hb & Happ & Hr & Ha).
  destruct (Hs _ _ _ _ Hb Hr) as [[Hb0 Hr0]|Hbd].
  - left. rewrite allowed_spec. eauto 10.
  - right. apply Hbd; [|done]. destruct Hb; [by left|by right].
Qed.

(** What a request of an actor does to the objects. *)
Inductive effect (s : StaticRoles) : StaticRoles → Prop :=
  | effect_none : effect s s
  | effect_role o : bounded (role_Namespace o) (Rules o) → effect s (put_role o s)
  | effect_clusterRole o : bounded "" (Rules o) → effect s (put_clusterRole o s)
  | effect_binding o :
      (∀ rules, GetRoleReferenceRules (resolver s) (rb_RoleRef o) (rb_Namespace o) = Ok rules →
         bounded (rb_Namespace o) rules) →
      effect s (put_roleBinding o s)
  | effect_clusterBinding o :
      (∀ rules, GetRoleReferenceRules (resolver s) (rb_RoleRef o) "" = Ok rules → bounded "" rules) →
      effect s (put_clusterRoleBinding o s)
  | effect_del_role ns n : effect s (del_role ns n s)
  | effect_del_clusterRole ns n : effect s (del_clusterRole ns n s)
  | effect_del_binding ns n : effect s (del_roleBinding ns n s)
  | effect_del_clusterBinding ns n : effect s (del_clusterRoleBinding ns n s).

(** Content only changes through what the lookups return. *)
Lemma content_stable_lookups s s' :
  (∀ ns n o, Static_GetRole s' ns n = Ok o → Static_GetRole s ns n = Ok o ∨ bounded ns (Rules o)) →
  (∀ n o, Static_GetClusterRole s' n = Ok o → Static_GetClusterRole s n = Ok o ∨ bounded "" (Rules o)) →
  content_stable s s'.
Proof.
  intros Hr Hc ref ns rules. unfold GetRoleReferenceRules. simpl.
  destruct (decide (_ ∧ ref_Kind ref = "Role")); [|destruct (decide (_ ∧ ref_Kind ref = "ClusterRole")); [|done]].
  - destruct (Static_GetRole s' ns (ref_Name ref)) as [o|] eqn:Ho; simpl; [|done].
    intros [= <-]. apply Hr in Ho as [->|]; [by left|by right].
  - destruct (Static_GetClusterRole s' (ref_Name ref)) as [o|] eqn:Ho; simpl; [|done].
    intros [= <-]. apply Hc in Ho as [->|]; [by left|]. right. by apply bounded_cluster.
Qed.

Lemma effect_stable s s' : effect s s' → content_stable s s'.
Proof.
  destruct 1 as [|o Ho|o Ho|o Ho|o Ho| | | | ]; apply content_stable_lookups; try (by left); intros *.
  - intros [?|[-> ->]]%get_role_put; [by left|by right].
  - intros [?| ->]%get_clusterRole_put; [by left|by right].
  - intros ?%get_role_del. by left.
  - intros ?%get_clusterRole_del. by left.
Qed.

(** Only bindings that were checked are new. *)
Lemma effect_binding_of s s' ns b bns :
  effect s s' → binding_of (resolver s') ns b bns →
  binding_of (resolver s) ns b bns ∨
  (∀ rules, GetRoleReferenceRules (resolver s) (rb_RoleRef b) bns = Ok rules → bounded bns rules).
Proof.
  intros He Hb. destruct Hb as [bs b Hbs Hb|bs b Hns Hbs Hb]; simpl in Hbs.
  - simplify_eq. destruct He as [|o Ho|o Ho|o Ho|o Ho| | | | ]; simpl in Hb;
      try (left; by eapply binding_cluster).
    + apply elem_of_cons in Hb as [->|[_ Hb]%list_elem_of_filter]; [by right|].
      left. by eapply binding_cluster.
    + apply list_elem_of_filter in Hb as [_ Hb]. left. by eapply binding_cluster.
  - unfold Static_ListRoleBindings in Hbs. rewrite decide_False in Hbs by lia. simplify_eq.
    assert (∀ b, b ∈ roleBindings s → rb_Namespace b = ns → binding_of (resolver s) ns b ns) as Hold.
    { intros b' Hb' Hn. eapply binding_local; [done| |].
      - simpl. unfold Static_ListRoleBindings. rewrite decide_False by lia. done.
      - by apply list_elem_of_filter. }
    apply list_elem_of_filter in Hb as [Hn Hb].
    destruct He as [|o Ho|o Ho|o Ho|o Ho| | | | ]; simpl in Hb; try (left; by apply Hold).
    + apply elem_of_cons in Hb as [->|[_ Hb]%list_elem_of_filter]; [right; by rewrite <-Hn|].
      left. by apply Hold.
    + apply list_elem_of_filter in Hb as [_ Hb]. left. by apply Hold.
Qed.

Lemma effect_grants s s' : effect s s' → grants_sound s → grants_sound s'.
Proof.
  intros He Hs ns b bns rules Hb Hr. apply (effect_stable s s' He) in Hr as [Hr|?]; [|by right].
  apply (effect_binding_of s s') in Hb as [Hb|Hb]; [by apply (Hs ns)|right; by apply Hb|done].
Qed.

(** *** The checks of the storages *)

Section checks.
Context (seen s : StaticRoles) (r : DefaultRuleResolver) (ctx : Context) (user : UserInfo).
Hypothesis Huser : UserFrom ctx = Some user.
Hypothesis Hactor : user ∈ actors.
Hypothesis Hreads : reads r seen.
Hypothesis Hseen : grants_sound seen.
Hypothesis Hstable : content_stable seen s.

Lemma confirmed_bounded rules :
  ConfirmNoEscalation ctx r rules = Ok tt → bounded (NamespaceFrom ctx) rules.
Proof.
  intros Hc a Hns Ha. destruct (grants_sound_allowed seen user a) as [?|?]; [done| |by exists user|done].
  by eapply confirmed_allowed.
Qed.

Lemma Role_check_bounded resource o :
  Role_check resource r ctx o = Ok tt → bounded (NamespaceFrom ctx) (Rules o).
Proof.
  unfold Role_check. destruct (ConfirmNoEscalation _ _ _) as [[]|] eqn:Hc; [|done].
  intros _. by apply confirmed_bounded.
Qed.

Lemma Binding_check_bounded resource o :
  Binding_check resource r ctx o = Ok tt →
  ∃ rules, GetRoleReferenceRules (resolver seen) (rb_RoleRef o) (rb_Namespace o) = Ok rules ∧
    bounded (NamespaceFrom ctx) rules.
Proof.
  unfold Binding_check. destruct (GetRoleReferenceRules r _ _) as [rules|] eqn:Hr; [|done].
  destruct (ConfirmNoEscalation _ _ _) as [[]|] eqn:Hc; [|done]. intros _. exists rules.
  split; [by eapply reads_rules|by apply confirmed_bounded].
Qed.

Lemma role_effect resource o o' :
  Role_check resource r ctx o = Ok tt → role_stored ctx o o' → effect s (put_role o' s).
Proof.
  intros Hc [HR Hns]. constructor. rewrite HR, Hns. by eapply Role_check_bounded.
Qed.

Lemma clusterRole_effect resource o o' :
  NamespaceFrom ctx = "" → Role_check resource r ctx o = Ok tt → clusterRole_stored ctx o o' →
  effect s (put_clusterRole o' s).
Proof.
  intros Hns Hc HR. constructor. rewrite HR, <-Hns. by eapply Role_check_bounded.
Qed.

Lemma roleBinding_effect resource o o' :
  Binding_check resource r ctx o = Ok tt → roleBinding_stored ctx o o' → effect s (put_roleBinding o' s).
Proof.
  intros (rules0 & Hr0 & Hbd)%Binding_check_bounded (Href & _ & Hns & Hor). constructor.
  rewrite Href, Hns. intros rules [Hr|?]%Hstable; [|done].
  assert (GetRoleReferenceRules (resolver seen) (rb_RoleRef o) (NamespaceFrom ctx) = Ok rules0) as Hr'.
  { destruct Hor as [Hor|Hor]; rewrite Hor in Hr0; [by apply rules_without_namespace|done]. }
  by assert (rules = rules0) as -> by congruence.
Qed.

Lemma clusterRoleBinding_effect resource o o' :
  NamespaceFrom ctx = "" → Binding_check resource r ctx o = Ok tt → clusterRoleBinding_stored ctx o o' →
  effect s (put_clusterRoleBinding o' s).
Proof.
  intros Hns (rules0 & Hr0 & Hbd)%Binding_check_bounded (Href & _). constructor. rewrite Href.
  intros rules [Hr|?]%Hstable; [|done]. apply (rules_without_namespace _ _ (rb_Namespace o)) in Hr.
  assert (rules = rules0) as -> by congruence. by rewrite Hns in Hbd.
Qed.
End checks.
End escalation.

(** An update stores an object that passed the check. *)
Lemma wrapped_checked {O} (chk : Context → O → result storage_error unit) (info : UpdatedObjectInfo O) ctx old new :
  UpdatedObject (WrapUpdatedObjectInfo info [λ ctx obj oldObj, _ !<- chk ctx obj; Ok obj]) ctx old = Ok new →
  chk ctx new = Ok tt.
Proof.
  simpl. destruct (UpdatedObject info ctx old) as [o|]; simpl; [|done].
  destruct (chk ctx o) as [[]|] eqn:Hc; simpl; [|done]. by intros [= <-].
Qed.

Section system.
Context (role_st clusterRole_st : StandardStorage Role).
Context (roleBinding_st clusterRoleBinding_st : StandardStorage RoleBinding).
Context `{!StorageContract role_st role_stored put_role del_role}.
Context `{!StorageContract clusterRole_st clusterRole_stored put_clusterRole del_clusterRole}.
Context `{!StorageContract roleBinding_st roleBinding_stored put_roleBinding del_roleBinding}.
Context `{!StorageContract clusterRoleBinding_st clusterRoleBinding_stored
            put_clusterRoleBinding del_clusterRoleBinding}.
Context (s0 : StaticRoles) (actors : list UserInfo).

Local Notation run := (run role_st clusterRole_st roleBinding_st clusterRoleBinding_st).
Local Notation rbac_step := (rbac_step role_st clusterRole_st roleBinding_st clusterRoleBinding_st).

(** A guarded creation has the effect of its check. *)
Lemma guarded_create {O} (st : StandardStorage O) stored put del `{!StorageContract st stored put del}
    (E : StaticRoles → Prop) (chk : result storage_error unit) ctx obj s :
  E s → (∀ obj', chk = Ok tt → stored ctx obj obj' → E (put obj' s)) →
  E (match chk with Err err => (Err err, s) | Ok _ => std_Create st ctx obj s end).2.
Proof.
  intros Hs Hput. destruct chk as [[]|]; [|done].
  destruct (std_Create st ctx obj s) as [res s'] eqn:Hc.
  apply create_effect in Hc as [->|(obj' & Hst & ->)]; simpl; eauto.
Qed.

Lemma guarded_update {O} (st : StandardStorage O) stored put del `{!StorageContract st stored put del}
    (E : StaticRoles → Prop) (chk : Context → O → result storage_error unit) ctx name info s :
  E s → (∀ obj obj', chk ctx obj = Ok tt → stored ctx obj obj' → E (put obj' s)) →
  E (std_Update st ctx name
       (WrapUpdatedObjectInfo info [λ ctx obj oldObj, _ !<- chk ctx obj; Ok obj]) s).2.
Proof.
  intros Hs Hput. destruct (std_Update _ _ _ _ _) as [res s'] eqn:Hc.
  apply update_effect in Hc as [->|(old & new & obj' & Hu & Hst & ->)]; simpl; [done|].
  apply wrapped_checked in Hu. eauto.
Qed.

Lemma deleted {O} (st : StandardStorage O) stored put del `{!StorageContract st stored put del}
    (E : StaticRoles → Prop) ctx name s :
  E s → E (del (NamespaceFrom ctx) name s) → E (std_Delete st ctx name s).2.
Proof.
  intros Hs Hd. destruct (std_Delete _ _ _ _) as [res s'] eqn:Hc.
  by apply delete_effect in Hc as [-> | ->].
Qed.

Lemma run_effect seen s r ctx user req :
  UserFrom ctx = Some user → user ∈ actors → EscalationAllowed ctx = false →
  (cluster_scoped req = true → NamespaceFrom ctx = "") →
  reads r seen → grants_sound s0 actors seen → content_stable s0 actors seen s →
  effect s0 actors s (run r ctx req s).
Proof.
  intros Hu Ha He Hcl Hr Hseen Hst.
  destruct req; simpl in *; try specialize (Hcl eq_refl);
    unfold Role_Create, Role_Update, ClusterRole_Create, ClusterRole_Update, RoleBinding_Create,
      RoleBinding_Update, ClusterRoleBinding_Create, ClusterRoleBinding_Update; rewrite ?He; cbv zeta;
    first [eapply (guarded_create _ _ _ _ (effect s0 actors s))
          |eapply (guarded_update _ _ _ _ (effect s0 actors s))
          |eapply (deleted _ _ _ _ (effect s0 actors s))];
    try apply effect_none; try (by constructor);
    intros *; first [eapply role_effect|eapply clusterRole_effect|eapply roleBinding_effect
                    |eapply clusterRoleBinding_effect]; eauto.
Qed.

(** The invariant of the objects over time. *)
Definition history_sound (history : list StaticRoles) : Prop :=
  match history with
  | [] => False
  | s :: past => ∀ x, x ∈ s :: past → grants_sound s0 actors x ∧ content_stable s0 actors x s
  end.

Lemma history_sound_step h h' : rbac_step actors h h' → history_sound h → history_sound h'.
Proof.
  intros [s past seen r ctx user req Hu Ha He Hcl Hseen Hr] Hinv. simpl in *.
  assert (effect s0 actors s (run r ctx req s)) as Heff.
  { destruct (Hinv seen Hseen). by eapply run_effect. }
  intros x [->|Hx]%elem_of_cons.
  - split; [|by left]. destruct (Hinv s) as [Hs _]; [by left|]. by eapply effect_grants.
  - destruct (Hinv x Hx) as [Hs Hst]. split; [done|].
    eapply content_stable_trans; [done|]. by apply effect_stable.
Qed.

Lemma history_sound_initial : history_sound [s0].
Proof. intros x ->%list_elem_of_singleton. split; [intros ns b bns rules Hb Hr|]; by left. Qed.

(** C5. Nobody gains rights that were not there.  Users without the escalation
    privilege create, update and delete roles, cluster roles and their bindings in
    any order; the check of a write may read the objects as they were before
    writes of others, and its reads may fail.  Whatever a user is then authorized
    to do, that user or one of those who wrote was authorized to do in the
    beginning. *)
Theorem rbac_no_escalation (s : StaticRoles) (past : list StaticRoles) (user : UserInfo) (a : Attributes) :
  rtc (rbac_step actors) [s0] (s :: past) →
  Authorize (resolver s) (with_user user a) = Ret (true, []) →
  ∃ u, (u = user ∨ u ∈ actors) ∧ Authorize (resolver s0) (with_user u a) = Ret (true, []).
Proof.
  intros Hrtc Ha.
  assert (history_sound (s :: past)) as Hinv.
  { eapply rtc_invariant; [apply history_sound_step|done|apply history_sound_initial]. }
  apply (Authorize_allowed _ user) in Ha; [|done].
  destruct (Hinv s) as [Hs _]; [by left|].
  destruct (grants_sound_allowed s0 actors s user _ Hs Ha) as [Hu|(u & Hu & Hau)].
  - exists user. split; [by left|]. by apply (Authorize_allowed _ user).
  - exists u. split; [by right|]. by apply (Authorize_allowed _ u).
Qed.
End system.

(** ** A storage that meets the contract *)

Section list_storage.
Context {O : Type} (place : Context → O → option O) (find : Context → string → StaticRoles → option O) (empty : O).
Context (put : O → StaticRoles → StaticRoles) (del : string → string → StaticRoles → StaticRoles).

Definition list_storage : StandardStorage O := mkStorage
  (λ ctx obj s,
     match place ctx obj with
     | Some obj' => (Ok obj', put obj' s)
     | None => (Err (StorageError "namespace does not match"), s)
     end)
  (λ ctx name info s,
     match UpdatedObject info ctx (default empty (find ctx name s)) with
     | Ok new =>
         match place ctx new with
         | Some obj' => (Ok (obj', bool_decide (is_Some (find ctx name s))), put obj' s)
         | None => (Err (StorageError "namespace does not match"), s)
         end
     | Err e => (Err e, s)
     end)
  (λ ctx name s,
     match find ctx name s with
     | Some old => (Ok old, del (NamespaceFrom ctx) name s)
     | None => (Err (StorageError "not found"), s)
     end).

Lemma list_storage_contract (stored : Context → O → O → Prop) :
  (∀ ctx obj obj', place ctx obj = Some obj' → stored ctx obj obj') →
  StorageContract list_storage stored put del.
Proof.
  intros Hplace. split; simpl.
  - intros ctx obj s res s'. destruct (place ctx obj) eqn:Hp; intros [= <- <-]; eauto.
  - intros ctx name info s res s'. destruct (UpdatedObject info ctx _) eqn:Hu; [|intros [= <- <-]; by left].
    destruct (place ctx _) eqn:Hp; intros [= <- <-]; [|by left]. right. eauto 10.
  - intros ctx name s res s'. destruct (find ctx name s); intros [= <- <-]; auto.
Qed.
End list_storage.

Definition list_roles : StandardStorage Role :=
  list_storage (λ ctx o, Some (mkRole (NamespaceFrom ctx) (role_Name o) (Rules o)))
    (λ ctx n s, List.find (λ o, bool_decide (role_Namespace o = NamespaceFrom ctx ∧ role_Name o = n)) (roles s))
    (mkRole "" "" []) put_role del_role.
Definition list_clusterRoles : StandardStorage Role :=
  list_storage (λ ctx o, Some (mkRole "" (role_Name o) (Rules o)))
    (λ ctx n s, List.find (λ o, bool_decide (role_Name o = n)) (clusterRoles s))
    (mkRole "" "" []) put_clusterRole del_clusterRole.
Definition list_roleBindings : StandardStorage RoleBinding :=
  list_storage (λ ctx o,
      if decide (rb_Namespace o = "" ∨ rb_Namespace o = NamespaceFrom ctx)
      then Some (mkBinding (NamespaceFrom ctx) (rb_Name o) (Subjects o) (rb_RoleRef o)) else None)
    (λ ctx n s, List.find (λ o, bool_decide (rb_Namespace o = NamespaceFrom ctx ∧ rb_Name o = n)) (roleBindings s))
    (mkBinding "" "" [] (mkRoleRef "" "" "")) put_roleBinding del_roleBinding.
Definition list_clusterRoleBindings : StandardStorage RoleBinding :=
  list_storage (λ ctx o, Some (mkBinding "" (rb_Name o) (Subjects o) (rb_RoleRef o)))
    (λ ctx n s, List.find (λ o, bool_decide (rb_Name o = n)) (clusterRoleBindings s))
    (mkBinding "" "" [] (mkRoleRef "" "" "")) put_clusterRoleBinding del_clusterRoleBinding.

#[export] Instance list_roles_contract : StorageContract list_roles role_stored put_role del_role.
Proof. apply list_storage_contract. by intros ctx obj obj' [= <-]. Qed.
#[export] Instance list_clusterRoles_contract :
  StorageContract list_clusterRoles clusterRole_stored put_clusterRole del_clusterRole.
Proof. apply list_storage_contract. by intros ctx obj obj' [= <-]. Qed.
#[export] Instance list_roleBindings_contract :
  StorageContract list_roleBindings roleBinding_stored put_roleBinding del_roleBinding.
Proof.
  apply list_storage_contract. intros ctx obj obj'. destruct (decide _) as [H|]; [|done].
  intros [= <-]. unfold roleBinding_stored. by split_and!.
Qed.
#[export] Instance list_clusterRoleBindings_contract :
  StorageContract list_clusterRoleBindings clusterRoleBinding_stored
    put_clusterRoleBinding del_clusterRoleBinding.
Proof. apply list_storage_contract. by intros ctx obj obj' [= <-]. Qed.

(** Ann, who may look at everything, binds a role to look at one pod. *)
Definition ann : UserInfo := mkUser "ann" [].
Definition eve : UserInfo := mkUser "eve" [].
Definition demo_binding : request :=
  CreateRoleBinding (mkBinding "prod" "eve-web" [mkSubject UserKind "" "eve" ""] (mkRoleRef GroupName "Role" "web")).
Definition demo_bound : StaticRoles :=
  run list_roles list_clusterRoles list_roleBindings list_clusterRoleBindings
    (resolver demo_roles) (mkContext (Some ann) "prod") demo_binding demo_roles.

Lemma rbac_no_escalation_witness :
  Authorize (resolver demo_roles) (demo_request eve) = Ret (false, []) ∧
  Authorize (resolver demo_bound) (demo_request eve) = Ret (true, []) ∧
  ∃ u, (u = eve ∨ u ∈ [ann]) ∧ Authorize (resolver demo_roles) (with_user u (demo_request eve)) = Ret (true, []).
Proof.
  split; [vm_compute; reflexivity|]. split; [vm_compute; reflexivity|].
  apply (rbac_no_escalation list_roles list_clusterRoles list_roleBindings list_clusterRoleBindings
           demo_roles [ann] demo_bound [demo_roles] eve (demo_request eve)); [|vm_compute; reflexivity].
  apply rtc_once. apply (rbac_request _ _ _ _ [ann] demo_roles [] demo_roles _ _ ann); try reflexivity.
  - by left.
  - discriminate.
  - by left.
  - apply reads_resolver.
Defined.
