(* ===== verification/Allocator.v ===== *)
(** * Allocation of items out of a range

    Models the bitmap of allocator/bitmap.go and utils.go under
    pkg/registry/core/service, and the interface of allocator/interfaces.go, a class
    here, which the allocators of ports and of addresses are built on; the bitmap is an
    instance of it.

    A big.Int is a Z.  What rand.Intn returns is an argument. *)

From S2P Require Import Prelude.
Open Scope Z_scope.

(** ** Big integers *)

(** [n.Bits()]: the words of a big integer, the least first. *)
Definition wordBits : Z := 64.

Fixpoint big_words (fuel : nat) (n : Z) : list Z :=
  match fuel with
  | O => []
  | S fuel => if decide (n = 0) then [] else n mod 2 ^ wordBits :: big_words fuel (n / 2 ^ wordBits)
  end.

Definition Bits (n : Z) : list Z := big_words (Z.to_nat (Z.log2 n) + 1) n.

(** [n.Bytes()]: the most significant byte first, no leading zeros. *)
Fixpoint big_bytes (fuel : nat) (n : Z) (acc : list Z) : list Z :=
  match fuel with
  | O => acc
  | S fuel => if decide (n = 0) then acc else big_bytes fuel (n / 256) (n mod 256 :: acc)
  end.

Definition Bytes (n : Z) : list Z := big_bytes (Z.to_nat (Z.log2 n) + 1) n [].

(** [SetBytes(data)] *)
Definition SetBytes (data : list Z) : Z := foldl (λ acc b, acc * 256 + b) 0 data.

(** ** The bitmap *)

(** The first argument is what rand.Intn returns. *)
Definition allocateStrategy : Type := Z → Z → Z → Z → option Z.

Record AllocationBitmap := mkBitmap {
  strategy : allocateStrategy;
  max : Z;
  rangeSpec : string;
  count : Z;
  allocated : Z
}.

Definition set_allocated (c a : Z) (r : AllocationBitmap) : AllocationBitmap :=
  mkBitmap (strategy r) (max r) (rangeSpec r) c a.

Definition randomScanStrategy : allocateStrategy := λ offset allocated max count,
  if decide (count >= max) then None
  else List.find (λ at_, negb (Z.testbit allocated at_)) ((λ i, (offset + i) mod max) <$> seqZ 0 max).

Definition contiguousScanStrategy : allocateStrategy := λ _ allocated max count,
  if decide (count >= max) then None
  else List.find (λ i, negb (Z.testbit allocated i)) (seqZ 0 max).

Definition NewAllocationMap (max : Z) (rangeSpec : string) : AllocationBitmap :=
  mkBitmap randomScanStrategy max rangeSpec 0 0.
Definition NewContiguousAllocationMap (max : Z) (rangeSpec : string) : AllocationBitmap :=
  mkBitmap contiguousScanStrategy max rangeSpec 0 0.

(** [Bit] of a big integer panics on a negative index.  The functions [allocate_bit]
    and [release_bit] are what is done at other offsets. *)
Definition at_bit {A : Type} (offset : Z) (a : A) : outcome A :=
  if decide (offset < 0) then Panic "negative bit index" else Ret a.

Definition allocate_bit (offset : Z) (r : AllocationBitmap) : bool * AllocationBitmap :=
  if Z.testbit (allocated r) offset then (false, r)
  else (true, set_allocated (count r + 1) (Z.setbit (allocated r) offset) r).

Definition Bitmap_Allocate (offset : Z) (r : AllocationBitmap) : outcome (bool * AllocationBitmap) :=
  at_bit offset (allocate_bit offset r).

Definition Bitmap_AllocateNext (rnd : Z) (r : AllocationBitmap) : option Z * AllocationBitmap :=
  match strategy r rnd (allocated r) (max r) (count r) with
  | None => (None, r)
  | Some next => (Some next, set_allocated (count r + 1) (Z.setbit (allocated r) next) r)
  end.

Definition release_bit (offset : Z) (r : AllocationBitmap) : AllocationBitmap :=
  if Z.testbit (allocated r) offset
  then set_allocated (count r - 1) (Z.clearbit (allocated r) offset) r else r.

Definition Bitmap_Release (offset : Z) (r : AllocationBitmap) : outcome AllocationBitmap :=
  at_bit offset (release_bit offset r).

(** The loop over the bits of one word: the calls of [fn], in order. *)
Fixpoint word_loop (fuel : nat) (base bit word : Z) : list Z :=
  match fuel with
  | O => []
  | S fuel =>
      if decide (word > 0) then
        (if decide (Z.land word 1 ≠ 0) then [base + bit] else [])
        ++ word_loop fuel base (bit + 1) (Z.shiftr word 1)
      else []
  end.

Definition wordSize : Z := 8.

Fixpoint words_loop (wordIdx : Z) (words : list Z) : list Z :=
  match words with
  | [] => []
  | word :: words => word_loop 65 (wordIdx * wordSize * 8) 0 word ++ words_loop (wordIdx + 1) words
  end.

Definition Bitmap_ForEach (r : AllocationBitmap) : list Z := words_loop 0 (Bits (allocated r)).

Definition Bitmap_Has (offset : Z) (r : AllocationBitmap) : outcome bool :=
  at_bit offset (Z.testbit (allocated r) offset).
Definition Bitmap_Free (r : AllocationBitmap) : Z := max r - count r.

Definition Snapshot (r : AllocationBitmap) : string * list Z := (rangeSpec r, Bytes (allocated r)).

(** utils.go *)
Definition bitCounts : list Z :=
  [0; 1; 1; 2; 1; 2; 2; 3; 1; 2; 2; 3; 2; 3; 3; 4; 1; 2; 2; 3; 2; 3; 3; 4; 2; 3; 3; 4; 3; 4; 4; 5;
   1; 2; 2; 3; 2; 3; 3; 4; 2; 3; 3; 4; 3; 4; 4; 5; 2; 3; 3; 4; 3; 4; 4; 5; 3; 4; 4; 5; 4; 5; 5; 6;
   1; 2; 2; 3; 2; 3; 3; 4; 2; 3; 3; 4; 3; 4; 4; 5; 2; 3; 3; 4; 3; 4; 4; 5; 3; 4; 4; 5; 4; 5; 5; 6;
   2; 3; 3; 4; 3; 4; 4; 5; 3; 4; 4; 5; 4; 5; 5; 6; 3; 4; 4; 5; 4; 5; 5; 6; 4; 5; 5; 6; 5; 6; 6; 7;
   1; 2; 2; 3; 2; 3; 3; 4; 2; 3; 3; 4; 3; 4; 4; 5; 2; 3; 3; 4; 3; 4; 4; 5; 3; 4; 4; 5; 4; 5; 5; 6;
   2; 3; 3; 4; 3; 4; 4; 5; 3; 4; 4; 5; 4; 5; 5; 6; 3; 4; 4; 5; 4; 5; 5; 6; 4; 5; 5; 6; 5; 6; 6; 7;
   2; 3; 3; 4; 3; 4; 4; 5; 3; 4; 4; 5; 4; 5; 5; 6; 3; 4; 4; 5; 4; 5; 5; 6; 4; 5; 5; 6; 5; 6; 6; 7;
   3; 4; 4; 5; 4; 5; 5; 6; 4; 5; 5; 6; 5; 6; 6; 7; 4; 5; 5; 6; 5; 6; 6; 7; 5; 6; 6; 7; 6; 7; 7; 8].

Definition countBits (n : Z) : Z :=
  foldl (λ count b, count + nth (Z.to_nat b) bitCounts 0) 0 (Bytes n).

Definition Restore (spec : string) (data : list Z) (r : AllocationBitmap) : result string unit * AllocationBitmap :=
  if decide (rangeSpec r ≠ spec) then (Err "the provided range does not match the current range", r)
  else
    let a := SetBytes data in
    (Ok tt, set_allocated (countBits a) a r).

(** ** Big integers as sets of bits *)

Definition items (n : Z) : gset Z :=
  list_to_set (filter (λ i, Z.testbit n i = true) (seqZ 0 (Z.log2 n + 1))).

Lemma testbit_range n i : 0 ≤ n → Z.testbit n i = true → 0 ≤ i ≤ Z.log2 n.
Proof.
  intros Hn Hb. destruct (decide (i < 0)) as [Hi|Hi]; [by rewrite Z.testbit_neg_r in Hb|].
  split; [lia|]. destruct (decide (Z.log2 n < i)); [|lia]. by rewrite Z.bits_above_log2 in Hb.
Qed.

Lemma elem_of_items n i : 0 ≤ n → i ∈ items n ↔ Z.testbit n i = true.
Proof.
  intros Hn. unfold items. rewrite elem_of_list_to_set, list_elem_of_filter, elem_of_seqZ.
  split; [tauto|]. intros Hb. pose proof (testbit_range n i Hn Hb). split; [done|lia].
Qed.

Lemma items_0 : items 0 = ∅.
Proof. reflexivity. Qed.

Lemma setbit_nonneg n i : 0 ≤ n → 0 ≤ Z.setbit n i.
Proof. intros Hn. unfold Z.setbit. apply Z.lor_nonneg. split; [done|]. apply Z.shiftl_nonneg. lia. Qed.

Lemma clearbit_nonneg n i : 0 ≤ n → 0 ≤ Z.clearbit n i.
Proof. intros Hn. unfold Z.clearbit. apply Z.ldiff_nonneg. by left. Qed.

Lemma items_setbit n i : 0 ≤ n → 0 ≤ i → items (Z.setbit n i) = {[i]} ∪ items n.
Proof.
  intros Hn Hi. apply set_eq. intros j.
  rewrite elem_of_union, elem_of_singleton, !elem_of_items by auto using setbit_nonneg.
  rewrite Z.setbit_eqb by done. destruct (Z.eqb_spec i j); naive_solver.
Qed.

Lemma items_clearbit n i : 0 ≤ n → items (Z.clearbit n i) = items n ∖ {[i]}.
Proof.
  intros Hn. apply set_eq. intros j.
  rewrite elem_of_difference, elem_of_singleton, !elem_of_items by auto using clearbit_nonneg.
  rewrite Z.clearbit_eqb. destruct (Z.eqb_spec i j); simpl;
    rewrite ?andb_false_r, ?andb_true_r; naive_solver.
Qed.

(** The number of bits, as a sum. *)
Lemma size_items n k :
  0 ≤ n < 2 ^ k → Z.of_nat (size (items n)) = sumZ (λ i, Z.b2z (Z.testbit n i)) (seqZ 0 k).
Proof.
  intros Hn.
  assert (items n = list_to_set (filter (λ i, Z.testbit n i = true) (seqZ 0 k))) as ->.
  { apply set_eq. intros i. rewrite elem_of_items by lia.
    rewrite elem_of_list_to_set, list_elem_of_filter, elem_of_seqZ. split; [|tauto].
    intros Hb. split; [done|]. pose proof (testbit_range n i (proj1 Hn) Hb).
    destruct (decide (n = 0)) as [->|Hn0]; [by rewrite Z.bits_0 in Hb|].
    assert (Z.log2 n < k); [apply Z.log2_lt_pow2; lia|lia]. }
  rewrite size_list_to_set by (apply NoDup_filter, NoDup_seqZ).
  induction (seqZ 0 k) as [|i l IH]; [done|]. rewrite filter_cons. simpl.
  destruct (Z.testbit n i); simpl; lia.
Qed.

Lemma sumZ_ext {A} (f g : A → Z) l : (∀ x, x ∈ l → f x = g x) → sumZ f l = sumZ g l.
Proof. induction l as [|x l IH]; simpl; intros H; [done|]. rewrite H, IH; set_solver. Qed.

Lemma sumZ_fmap {A B} (f : B → Z) (h : A → B) l : sumZ f (h <$> l) = sumZ (λ x, f (h x)) l.
Proof. induction l as [|x l IH]; [done|]. change (f (h x) + sumZ f (h <$> l) = f (h x) + sumZ (λ x, f (h x)) l). by rewrite IH. Qed.

Lemma testbit_concat m b k i :
  0 ≤ k → 0 ≤ b < 2 ^ k →
  Z.testbit (m * 2 ^ k + b) i = if decide (i < k) then Z.testbit b i else Z.testbit m (i - k).
Proof.
  intros Hk Hb. destruct (decide (i < 0)) as [Hi|Hi].
  { rewrite decide_True by lia. by rewrite !Z.testbit_neg_r. }
  destruct (decide (i < k)).
  - rewrite <-(Z.mod_pow2_bits_low _ k i) by lia.
    rewrite Z.add_comm, Z.mod_add, Z.mod_small by lia. done.
  - replace i with ((i - k) + k) at 1 by lia. rewrite <-Z.shiftr_spec by lia.
    rewrite Z.shiftr_div_pow2, Z.add_comm, Z.div_add, Z.div_small by lia. done.
Qed.

Lemma size_items_concat m b :
  0 ≤ m → 0 ≤ b < 256 → size (items (m * 256 + b)) = (size (items m) + size (items b))%nat.
Proof.
  intros Hm Hb. set (k := Z.log2 m + 1).
  assert (0 ≤ k) by (pose proof (Z.log2_nonneg m); lia).
  assert (m < 2 ^ k).
  { destruct (decide (m = 0)) as [->|]; [done|]. pose proof (Z.log2_spec m). unfold k. lia. }
  apply Nat2Z.inj. rewrite Nat2Z.inj_add.
  rewrite (size_items m k), (size_items b 8), (size_items _ (8 + k)) by (change (2 ^ 8) with 256; rewrite ?Z.pow_add_r by lia; lia).
  rewrite seqZ_app by lia. rewrite sumZ_app, Z.add_comm. change 256 with (2 ^ 8). f_equal.
  - rewrite (Z.add_comm 0 8), <-fmap_add_seqZ, sumZ_fmap. apply sumZ_ext.
    intros i [Hi _]%elem_of_seqZ. rewrite testbit_concat by lia.
    rewrite decide_False by lia. do 2 f_equal. lia.
  - apply sumZ_ext. intros i Hi%elem_of_seqZ. rewrite testbit_concat by lia. by rewrite decide_True by lia.
Qed.

(** ** Bytes *)

Lemma big_bytes_app fuel n acc : big_bytes fuel n acc = big_bytes fuel n [] ++ acc.
Proof.
  revert n acc. induction fuel as [|fuel IH]; intros n acc; [done|]. simpl.
  destruct (decide (n = 0)); [done|]. rewrite IH, (IH _ [_]). by rewrite <-(assoc_L (++)).
Qed.

Lemma div_256_small n k : 0 ≤ n < 2 ^ Z.of_nat (S k) → 0 ≤ n / 256 < 2 ^ Z.of_nat k.
Proof.
  rewrite Nat2Z.inj_succ, Z.pow_succ_r by lia. intros Hn.
  split; [apply Z.div_pos; lia|]. apply Z.div_lt_upper_bound; lia.
Qed.

Lemma log2_fuel n : 0 ≤ n → n < 2 ^ Z.of_nat (Z.to_nat (Z.log2 n) + 1).
Proof.
  intros Hn. rewrite Nat2Z.inj_add, Z2Nat.id by apply Z.log2_nonneg.
  destruct (decide (n = 0)) as [->|]; [done|]. pose proof (Z.log2_spec n). lia.
Qed.

(** A function of the bytes that satisfies the equation of the last byte. *)
Lemma Bytes_ind (P : Z → list Z → Prop) :
  P 0 [] →
  (∀ m b l, 0 ≤ m → 0 ≤ b < 256 → P m l → P (m * 256 + b) (l ++ [b])) →
  ∀ n, 0 ≤ n → P n (Bytes n).
Proof.
  intros H0 Hs n Hn. unfold Bytes.
  assert (∀ fuel n, 0 ≤ n < 2 ^ Z.of_nat fuel → P n (big_bytes fuel n [])) as Hind.
  { clear n Hn. induction fuel as [|fuel IH]; intros n Hn.
    - assert (n = 0) as -> by (change (2 ^ Z.of_nat 0) with 1 in Hn; lia). done.
    - simpl. destruct (decide (n = 0)) as [->|]; [done|]. rewrite big_bytes_app.
      rewrite (Z.div_mod n 256) at 1 by lia. rewrite (Z.mul_comm 256).
      apply Hs; [apply Z.div_pos; lia|apply Z.mod_pos_bound; lia|].
      apply IH. by apply div_256_small. }
  apply Hind. split; [done|]. by apply log2_fuel.
Qed.

Lemma SetBytes_Bytes n : 0 ≤ n → SetBytes (Bytes n) = n.
Proof.
  revert n. apply (Bytes_ind (λ n l, SetBytes l = n)); [done|].
  intros m b l _ _ IH. unfold SetBytes in *. rewrite foldl_app. simpl. lia.
Qed.

Lemma SetBytes_nonneg data : Forall (λ b, 0 ≤ b < 256) data → 0 ≤ SetBytes data.
Proof.
  intros Hd. unfold SetBytes. enough (∀ acc, 0 ≤ acc → 0 ≤ foldl (λ acc b, acc * 256 + b) acc data) by (by auto with lia).
  induction Hd as [|b data Hb _ IH]; simpl; intros acc Hacc; [done|]. apply IH. lia.
Qed.

Lemma bitCounts_correct b : 0 ≤ b < 256 → nth (Z.to_nat b) bitCounts 0 = Z.of_nat (size (items b)).
Proof.
  intros Hb.
  assert (Forall (λ b, nth (Z.to_nat b) bitCounts 0 = Z.of_nat (size (items b))) (seqZ 0 256)) as Hall.
  { apply (bool_decide_unpack _). vm_compute. done. }
  rewrite Forall_forall in Hall. apply Hall, elem_of_seqZ. lia.
Qed.

(** The table and the bytes count the bits. *)
Lemma countBits_correct n : 0 ≤ n → countBits n = Z.of_nat (size (items n)).
Proof.
  unfold countBits. revert n.
  apply (Bytes_ind (λ n l, foldl (λ count b, count + nth (Z.to_nat b) bitCounts 0) 0 l = Z.of_nat (size (items n)))).
  - done.
  - intros m b l Hm Hb IH. rewrite foldl_app. cbn [foldl]. rewrite IH, bitCounts_correct by done.
    rewrite size_items_concat by done. lia.
Qed.

(** ** The calls of ForEach *)

Lemma shiftr_1_small w k : 0 ≤ w < 2 ^ Z.of_nat (S k) → 0 ≤ Z.shiftr w 1 < 2 ^ Z.of_nat k.
Proof.
  rewrite Nat2Z.inj_succ, Z.pow_succ_r, Z.shiftr_div_pow2 by lia. intros Hw. change (2 ^ 1) with 2.
  split; [apply Z.div_pos; lia|apply Z.div_lt_upper_bound; lia].
Qed.

Lemma land_1_testbit w : Z.land w 1 ≠ 0 ↔ Z.testbit w 0 = true.
Proof.
  change 1 with (Z.ones 1). rewrite Z.land_ones by lia. change (2 ^ 1) with 2.
  rewrite <-Z.bit0_mod. by destruct (Z.testbit w 0).
Qed.

Lemma word_loop_elem fuel base bit word x :
  0 ≤ word < 2 ^ Z.of_nat fuel →
  x ∈ word_loop fuel base bit word ↔ Z.testbit word (x - base - bit) = true.
Proof.
  revert bit word. induction fuel as [|fuel IH]; intros bit word Hw.
  { assert (word = 0) as -> by (change (2 ^ Z.of_nat 0) with 1 in Hw; lia).
    rewrite Z.bits_0. split; [by intros ?%elem_of_nil|done]. }
  simpl. destruct (decide (word > 0)) as [Hpos|Hpos].
  2: { assert (word = 0) as -> by lia. rewrite Z.bits_0. split; [by intros ?%elem_of_nil|done]. }
  rewrite elem_of_app, IH by (by apply shiftr_1_small).
  destruct (decide (x - base - bit = 0)) as [Heq|Hne].
  - rewrite Heq, (Z.testbit_neg_r _ (x - base - (bit + 1))) by lia.
    destruct (decide (Z.land word 1 ≠ 0)) as [Hl|Hl]; rewrite land_1_testbit in Hl.
    + rewrite list_elem_of_singleton. split; [done|]. left. lia.
    + split; [intros [?%elem_of_nil|?]; done|done].
  - assert (x ∉ (if decide (Z.land word 1 ≠ 0) then [base + bit] else [])) as Hnot.
    { destruct (decide _); [|apply not_elem_of_nil]. rewrite list_elem_of_singleton. lia. }
    destruct (decide (x - base - bit < 0)).
    + rewrite !Z.testbit_neg_r by lia. naive_solver.
    + rewrite Z.shiftr_spec by lia. replace (x - base - (bit + 1) + 1) with (x - base - bit) by lia.
      naive_solver.
Qed.

Lemma word_loop_sorted fuel base bit word :
  0 ≤ word < 2 ^ Z.of_nat fuel → StronglySorted Z.lt (word_loop fuel base bit word).
Proof.
  revert bit word. induction fuel as [|fuel IH]; intros bit word Hw; [constructor|]. simpl.
  destruct (decide (word > 0)); [|constructor].
  pose proof (shiftr_1_small _ _ Hw) as Hs.
  destruct (decide _); simpl; [|by apply IH]. constructor; [by apply IH|].
  apply Forall_forall. intros x Hx. apply word_loop_elem in Hx; [|done].
  apply testbit_range in Hx; lia.
Qed.

(** A function of the words that satisfies the equation of the first word. *)
Lemma Bits_ind (P : Z → list Z → Prop) :
  P 0 [] →
  (∀ m w l, 0 ≤ m → 0 ≤ w < 2 ^ wordBits → P m l → P (m * 2 ^ wordBits + w) (w :: l)) →
  ∀ n, 0 ≤ n → P n (Bits n).
Proof.
  intros H0 Hs n Hn. unfold Bits.
  assert (∀ fuel n, 0 ≤ n < 2 ^ Z.of_nat fuel → P n (big_words fuel n)) as Hind.
  { clear n Hn. induction fuel as [|fuel IH]; intros n Hn.
    - assert (n = 0) as -> by (change (2 ^ Z.of_nat 0) with 1 in Hn; lia). done.
    - cbn [big_words]. destruct (decide (n = 0)) as [->|]; [done|].
      assert (0 < 2 ^ wordBits) by (vm_compute; done).
      rewrite (Z.div_mod n (2 ^ wordBits)) at 1 by lia. rewrite (Z.mul_comm (2 ^ wordBits)).
      apply Hs; [apply Z.div_pos; lia|apply Z.mod_pos_bound; lia|].
      apply IH. rewrite Nat2Z.inj_succ, Z.pow_succ_r in Hn by lia.
      split; [apply Z.div_pos; lia|]. apply Z.div_lt_upper_bound; [done|].
      assert (2 ≤ 2 ^ wordBits) by (vm_compute; done). nia. }
  apply Hind. split; [done|]. by apply log2_fuel.
Qed.

Lemma words_loop_spec n idx :
  0 ≤ n →
  (∀ x, x ∈ words_loop idx (Bits n) ↔ Z.testbit n (x - idx * wordSize * 8) = true) ∧
  StronglySorted Z.lt (words_loop idx (Bits n)).
Proof.
  intros Hn. revert idx.
  apply (Bits_ind (λ n l, ∀ idx, (∀ x, x ∈ words_loop idx l ↔ Z.testbit n (x - idx * wordSize * 8) = true) ∧
                                 StronglySorted Z.lt (words_loop idx l))); [| |done].
  - intros idx. split; [|constructor]. intros x. rewrite Z.bits_0.
    split; [by intros ?%elem_of_nil|done].
  - intros m w l Hm Hw IH idx. destruct (IH (idx + 1)) as [IHel IHs].
    assert (0 ≤ w < 2 ^ Z.of_nat 65) as Hw'.
    { split; [lia|]. assert (2 ^ wordBits < 2 ^ Z.of_nat 65) by (vm_compute; done). lia. }
    assert (wordSize * 8 = wordBits) as Hsz by done.
    cbn [words_loop]. split.
    + intros x. rewrite elem_of_app, word_loop_elem, IHel, testbit_concat by (done || vm_compute; done).
      replace (x - idx * wordSize * 8 - 0) with (x - idx * wordSize * 8) by lia.
      destruct (decide (x - idx * wordSize * 8 < wordBits)).
      * rewrite (Z.testbit_neg_r m) by lia. naive_solver.
      * replace (x - (idx + 1) * wordSize * 8) with (x - idx * wordSize * 8 - wordBits) by lia.
        split; [intros [Hb|]; [|done]|by right]. exfalso.
        destruct (decide (w = 0)) as [->|]; [by rewrite Z.bits_0 in Hb|].
        apply testbit_range in Hb; [|lia]. assert (Z.log2 w < wordBits) by (apply Z.log2_lt_pow2; lia). lia.
    + apply StronglySorted_app. split_and!; [|by apply word_loop_sorted|done].
      intros x y Hx Hy. apply word_loop_elem in Hx; [|done]. apply IHel in Hy.
      destruct (decide (w = 0)) as [->|]; [by rewrite Z.bits_0 in Hx|].
      apply testbit_range in Hx; [|lia]. apply testbit_range in Hy; [|done].
      assert (Z.log2 w < wordBits) by (apply Z.log2_lt_pow2; lia). lia.
Qed.

(** ** The interface of allocators

    The allocators of ports and addresses check an offset against their range
    before they pass it on, so the offsets here are not negative.  [taken] is the set
    of items that are allocated, [limit] the size of the range and [ok] the invariant
    of the implementation. *)

Class Interface (S : Type) := {
  Allocate : Z → S → result string bool * S;
  AllocateNext : Z → S → result string (option Z) * S;
  Release : Z → S → result string unit * S;
  ForEach : S → list Z;
  Has : Z → S → bool;
  Free : S → Z
}.

Definition in_limit (m i : Z) : Prop := 0 ≤ i < m.

(** How what is taken compares with what should be: it is the same where no call
    fails.  A call that fails may have had its effect or not, so that items stay
    taken that nobody has; but none is free that should be taken. *)
Definition left_with (fails : bool) (T T' : gset Z) : Prop := if fails then T ⊆ T' else T' = T.

(** What an allocator promises.  The calls of the bitmap do not fail; those of an
    allocator that keeps its state in etcd may. *)
Class AllocatorLaws (fails : bool) (S : Type) `{!Interface S} (ok : S → Prop) (taken : S → gset Z) (limit : S → Z)
    : Prop := {
  Allocate_law s i : ok s → in_limit (limit s) i →
    ∃ res s', Allocate i s = (res, s') ∧ ok s' ∧ limit s' = limit s ∧
      match res with
      | Ok true => i ∉ taken s ∧ left_with fails ({[i]} ∪ taken s) (taken s')
      | Ok false => (fails = true ∨ i ∈ taken s) ∧ left_with fails (taken s) (taken s')
      | Err _ => fails = true ∧ left_with fails (taken s) (taken s')
      end;
  AllocateNext_law s rnd : ok s →
    ∃ res s', AllocateNext rnd s = (res, s') ∧ ok s' ∧ limit s' = limit s ∧
      match res with
      | Ok (Some i) => in_limit (limit s) i ∧ i ∉ taken s ∧ left_with fails ({[i]} ∪ taken s) (taken s')
      | Ok None => (fails = true ∨ ∀ i, in_limit (limit s) i → i ∈ taken s) ∧ left_with fails (taken s) (taken s')
      | Err _ => fails = true ∧ left_with fails (taken s) (taken s')
      end;
  Release_law s i : ok s →
    ∃ res s', Release i s = (res, s') ∧ ok s' ∧ limit s' = limit s ∧ (fails = true ∨ res = Ok tt) ∧
      left_with fails (taken s ∖ {[i]}) (taken s');
  taken_limit s i : ok s → i ∈ taken s → in_limit (limit s) i
}.

(** What the methods that only look promise. *)
Class ViewLaws (S : Type) `{!Interface S} (ok : S → Prop) (taken : S → gset Z) (limit : S → Z) : Prop := {
  ForEach_law s : ok s → StronglySorted Z.lt (ForEach s) ∧ ∀ i, i ∈ ForEach s ↔ i ∈ taken s;
  Has_law s i : ok s → Has i s = bool_decide (i ∈ taken s);
  Free_law s : ok s → Free s = limit s - Z.of_nat (size (taken s))
}.

Section left_with.
Context (fails : bool).
Implicit Types T U X : gset Z.

Lemma left_with_refl T : left_with fails T T.
Proof. by unfold left_with; destruct fails. Qed.

Lemma left_with_sub T U : left_with fails T U → T ⊆ U.
Proof. destruct fails; simpl; [done|by intros ->]. Qed.

Lemma left_with_trans T1 T2 T3 : left_with fails T1 T2 → left_with fails T2 T3 → left_with fails T1 T3.
Proof. destruct fails; simpl; [set_solver|by intros ->]. Qed.

Lemma left_with_union X T U : left_with fails T U → left_with fails (X ∪ T) (X ∪ U).
Proof. destruct fails; simpl; [set_solver|by intros ->]. Qed.

Lemma left_with_difference X T U : left_with fails T U → left_with fails (T ∖ X) (U ∖ X).
Proof. destruct fails; simpl; [set_solver|by intros ->]. Qed.
End left_with.

#[export] Instance bitmap_interface : Interface AllocationBitmap := {|
  Allocate i r := let '(b, r') := allocate_bit i r in (Ok b, r');
  AllocateNext rnd r := let '(o, r') := Bitmap_AllocateNext rnd r in (Ok o, r');
  Release i r := (Ok tt, release_bit i r);
  ForEach := Bitmap_ForEach;
  Has i r := Z.testbit (allocated r) i;
  Free := Bitmap_Free
|}.

Definition bitmap_taken (r : AllocationBitmap) : gset Z := items (allocated r).

(** The count is that of the bits. *)
Record bitmap_wf (r : AllocationBitmap) : Prop := {
  wf_strategy : strategy r = randomScanStrategy ∨ strategy r = contiguousScanStrategy;
  wf_nonneg : 0 ≤ allocated r;
  wf_count : count r = Z.of_nat (size (bitmap_taken r))
}.

(** The bits lie in the range as well. *)
Record bitmap_ok (r : AllocationBitmap) : Prop := {
  bitmap_strategy : strategy r = randomScanStrategy ∨ strategy r = contiguousScanStrategy;
  bitmap_nonneg : 0 ≤ allocated r;
  bitmap_count : count r = Z.of_nat (size (bitmap_taken r));
  bitmap_range i : i ∈ bitmap_taken r → in_limit (max r) i
}.

Lemma NewAllocationMap_ok m spec : bitmap_ok (NewAllocationMap m spec).
Proof. split; simpl; [by left|done|done|]. intros i Hi. by apply elem_of_empty in Hi. Qed.

Lemma bitmap_ok_wf r : bitmap_ok r → bitmap_wf r.
Proof. by intros []. Qed.

Lemma bitmap_set_wf r i :
  bitmap_wf r → 0 ≤ i → i ∉ bitmap_taken r →
  let r' := set_allocated (count r + 1) (Z.setbit (allocated r) i) r in
  bitmap_wf r' ∧ bitmap_taken r' = {[i]} ∪ bitmap_taken r.
Proof.
  intros [Hs Hn Hc] Hi Hfree r'.
  assert (bitmap_taken r' = {[i]} ∪ bitmap_taken r) as Ht.
  { unfold bitmap_taken, r'. simpl. by apply items_setbit. }
  split; [|done]. split; [done| |].
  - simpl. by apply setbit_nonneg.
  - rewrite Ht, size_union, size_singleton by set_solver. simpl. rewrite Hc. lia.
Qed.

(** Setting a free bit of the range. *)
Lemma bitmap_set_ok r i :
  bitmap_ok r → in_limit (max r) i → i ∉ bitmap_taken r →
  let r' := set_allocated (count r + 1) (Z.setbit (allocated r) i) r in
  bitmap_ok r' ∧ bitmap_taken r' = {[i]} ∪ bitmap_taken r.
Proof.
  intros Hok Hi Hfree r'. destruct (bitmap_set_wf r i (bitmap_ok_wf r Hok) (proj1 Hi) Hfree) as [[Hs Hn Hc] Ht].
  split; [|done]. split; [done..|]. intros j. fold r' in Ht. rewrite Ht.
  intros [->%elem_of_singleton|Hj]%elem_of_union; [done|by apply (bitmap_range r Hok)].
Qed.

Lemma release_bit_wf r i :
  bitmap_wf r → bitmap_wf (release_bit i r) ∧ bitmap_taken (release_bit i r) = bitmap_taken r ∖ {[i]}.
Proof.
  intros [Hs Hn Hc]. unfold release_bit. pose proof (elem_of_items (allocated r) i Hn) as Hel.
  destruct (Z.testbit (allocated r) i).
  - assert (i ∈ bitmap_taken r) as Hi by (by apply Hel).
    assert (bitmap_taken (set_allocated (count r - 1) (Z.clearbit (allocated r) i) r) = bitmap_taken r ∖ {[i]}) as Ht.
    { unfold bitmap_taken. simpl. by apply items_clearbit. }
    split; [|done]. split; simpl; [done|by apply clearbit_nonneg|].
    rewrite Ht, size_difference, size_singleton by set_solver. rewrite Hc.
    assert (size (bitmap_taken r) ≠ 0%nat); [|lia]. intros ?%size_empty_inv. set_solver.
  - split; [done|]. assert (i ∉ bitmap_taken r) by (by intros ?%Hel). set_solver.
Qed.

Lemma testbit_taken r i : bitmap_wf r → Z.testbit (allocated r) i = bool_decide (i ∈ bitmap_taken r).
Proof.
  intros Hwf. pose proof (elem_of_items (allocated r) i (wf_nonneg r Hwf)) as Hel.
  destruct (Z.testbit (allocated r) i); symmetry; [apply bool_decide_eq_true_2|apply bool_decide_eq_false_2];
    unfold bitmap_taken; rewrite Hel; done.
Qed.

Lemma allocate_bit_wf r i :
  bitmap_wf r → 0 ≤ i →
  ∃ r', allocate_bit i r = (bool_decide (i ∉ bitmap_taken r), r') ∧ bitmap_wf r' ∧ max r' = max r ∧
        bitmap_taken r' = {[i]} ∪ bitmap_taken r.
Proof.
  intros Hwf Hi. unfold allocate_bit. rewrite (testbit_taken r i Hwf). case_bool_decide as Hin.
  - exists r. rewrite bool_decide_eq_false_2 by tauto. split_and!; try done. set_solver.
  - rewrite bool_decide_eq_true_2 by done. eexists. split; [done|]. by destruct (bitmap_set_wf r i Hwf Hi Hin).
Qed.

Lemma ForEach_taken r :
  bitmap_wf r → StronglySorted Z.lt (Bitmap_ForEach r) ∧ ∀ i, i ∈ Bitmap_ForEach r ↔ i ∈ bitmap_taken r.
Proof.
  intros Hwf. unfold Bitmap_ForEach. destruct (words_loop_spec (allocated r) 0 (wf_nonneg r Hwf)) as [Hel Hs].
  split; [done|]. intros i. rewrite Hel, Z.sub_0_r. symmetry. apply elem_of_items, Hwf.
Qed.

Lemma find_free_Some n l i :
  0 ≤ n → List.find (λ i, negb (Z.testbit n i)) l = Some i → i ∈ l ∧ i ∉ items n.
Proof.
  intros Hn [Hin Hb]%List.find_some. apply list_elem_of_In in Hin. split; [done|].
  rewrite elem_of_items by done. by destruct (Z.testbit n i).
Qed.

Lemma find_free_None n l i :
  0 ≤ n → List.find (λ i, negb (Z.testbit n i)) l = None → i ∈ l → i ∈ items n.
Proof.
  intros Hn Hnone Hin. apply elem_of_items; [done|].
  apply list_elem_of_In, (List.find_none _ _ Hnone) in Hin.
  by destruct (Z.testbit n i).
Qed.

(** Both scans visit the whole range. *)
Lemma scan_range m rnd i :
  in_limit m i ↔ i ∈ ((λ k, (rnd + k) mod m) <$> seqZ 0 m).
Proof.
  unfold in_limit. rewrite list_elem_of_fmap. setoid_rewrite elem_of_seqZ. split.
  - intros Hi. exists ((i - rnd) mod m). pose proof (Z.mod_pos_bound (i - rnd) m).
    split; [|lia]. rewrite Z.add_mod_idemp_r by lia.
    replace (rnd + (i - rnd)) with i by lia. by rewrite Z.mod_small.
  - intros (k & -> & Hk). apply Z.mod_pos_bound. lia.
Qed.

Lemma full_range r : bitmap_ok r → max r ≤ count r → ∀ i, in_limit (max r) i → i ∈ bitmap_taken r.
Proof.
  intros [_ _ Hc Hr] Hfull i Hi.
  assert (bitmap_taken r ⊆ list_to_set (seqZ 0 (max r))) as Hsub.
  { intros j Hj%Hr. apply elem_of_list_to_set, elem_of_seqZ. unfold in_limit in Hj. lia. }
  assert (bitmap_taken r = list_to_set (seqZ 0 (max r))) as ->.
  { apply set_subseteq_size_eq; [done|]. rewrite size_list_to_set by apply NoDup_seqZ.
    rewrite length_seqZ. lia. }
  apply elem_of_list_to_set, elem_of_seqZ. unfold in_limit in Hi. lia.
Qed.

(** Fewer items than the range has leave one of the range free. *)
Lemma some_free r : Z.of_nat (size (bitmap_taken r)) < max r → ¬ ∀ i, in_limit (max r) i → i ∈ bitmap_taken r.
Proof.
  intros Hlt Hall. assert (list_to_set (seqZ 0 (max r)) ⊆ bitmap_taken r) as Hsub.
  { intros j [? ?]%elem_of_list_to_set%elem_of_seqZ. apply Hall. unfold in_limit. lia. }
  apply subseteq_size in Hsub. rewrite size_list_to_set, length_seqZ in Hsub by apply NoDup_seqZ. lia.
Qed.

(** The strategies find a free item of the range as long as there are fewer items
    than the range has. *)
Lemma strategy_wf r rnd :
  bitmap_wf r →
  match strategy r rnd (allocated r) (max r) (count r) with
  | Some i => in_limit (max r) i ∧ i ∉ bitmap_taken r ∧ Z.of_nat (size (bitmap_taken r)) < max r
  | None => max r ≤ Z.of_nat (size (bitmap_taken r))
  end.
Proof.
  intros Hwf. pose proof (wf_nonneg r Hwf) as Hn. pose proof (wf_count r Hwf) as Hc.
  assert (∀ i, in_limit (max r) i ↔ i ∈ seqZ 0 (max r)) as Hseq.
  { intros i. unfold in_limit. rewrite elem_of_seqZ. lia. }
  destruct (wf_strategy r Hwf) as [-> | ->]; unfold randomScanStrategy, contiguousScanStrategy;
    (destruct (decide (count r >= max r)) as [Hge|Hlt]; [lia|]);
    destruct (List.find _ _) as [i|] eqn:Hf.
  - apply find_free_Some in Hf as [Hi Hfree]; [|done]. split_and!; [by apply (scan_range _ rnd)|done|lia].
  - destruct (some_free r); [lia|]. intros i Hi. apply (scan_range _ rnd) in Hi. by eapply find_free_None.
  - apply find_free_Some in Hf as [Hi Hfree]; [|done]. split_and!; [by apply Hseq|done|lia].
  - destruct (some_free r); [lia|]. intros i Hi. apply Hseq in Hi. by eapply find_free_None.
Qed.

(** The bits of a bitmap by its functions, with the range. *)
Lemma allocate_bit_ok r i :
  bitmap_ok r → in_limit (max r) i →
  ∃ r', allocate_bit i r = (bool_decide (i ∉ bitmap_taken r), r') ∧ bitmap_ok r' ∧ max r' = max r ∧
        bitmap_taken r' = {[i]} ∪ bitmap_taken r.
Proof.
  intros Hok Hi. destruct (allocate_bit_wf r i (bitmap_ok_wf r Hok) (proj1 Hi)) as (r' & -> & [? ? ?] & Hm & Ht).
  exists r'. split_and!; [done| |done|done]. split; [done..|]. rewrite Hm, Ht.
  intros j [->%elem_of_singleton|Hj]%elem_of_union; [done|by apply (bitmap_range r Hok)].
Qed.

Lemma AllocateNext_ok r rnd :
  bitmap_ok r →
  ∃ next r', Bitmap_AllocateNext rnd r = (next, r') ∧ bitmap_ok r' ∧ max r' = max r ∧
    match next with
    | Some i => in_limit (max r) i ∧ i ∉ bitmap_taken r ∧ bitmap_taken r' = {[i]} ∪ bitmap_taken r
    | None => (∀ i, in_limit (max r) i → i ∈ bitmap_taken r) ∧ bitmap_taken r' = bitmap_taken r
    end.
Proof.
  intros Hok. unfold Bitmap_AllocateNext. pose proof (strategy_wf r rnd (bitmap_ok_wf r Hok)) as Hst.
  destruct (strategy r rnd _ _ _) as [i|]; eexists _, _; (split; [done|]).
  - destruct Hst as (Hi & Hfree & _). destruct (bitmap_set_ok r i Hok Hi Hfree). by split_and!.
  - rewrite <-(bitmap_count r Hok) in Hst. split_and!; [done..| |done]. by apply full_range.
Qed.

Lemma release_bit_ok r i :
  bitmap_ok r →
  bitmap_ok (release_bit i r) ∧ max (release_bit i r) = max r ∧ bitmap_taken (release_bit i r) = bitmap_taken r ∖ {[i]}.
Proof.
  intros Hok. destruct (release_bit_wf r i (bitmap_ok_wf r Hok)) as [[? ? ?] Ht].
  assert (Hm : max (release_bit i r) = max r) by (unfold release_bit; by destruct (Z.testbit _ _)).
  split_and!; [|done|done]. split; [done..|]. rewrite Hm, Ht. intros j [Hj _]%elem_of_difference. by apply (bitmap_range r Hok).
Qed.

#[export] Instance bitmap_laws : AllocatorLaws false AllocationBitmap bitmap_ok bitmap_taken max.
Proof.
  split; intros r.
  - intros i Hok Hi. simpl. destruct (allocate_bit_ok r i Hok Hi) as (r' & -> & Hr' & Hm & Ht).
    eexists _, r'. split_and!; [done..|]. case_bool_decide as Hi'; [done|].
    split; [by right|]. rewrite Ht. set_solver.
  - intros rnd Hok. simpl. destruct (AllocateNext_ok r rnd Hok) as (next & r' & -> & Hr' & Hm & Hn).
    eexists _, r'. split_and!; [done..|]. destruct next; [done|]. destruct Hn. by split; [right|].
  - intros i Hok. simpl. destruct (release_bit_ok r i Hok) as (? & ? & ?).
    eexists _, _. split_and!; [done..|by right|done].
  - intros i Hok. apply (bitmap_range r Hok).
Qed.

#[export] Instance bitmap_view : ViewLaws AllocationBitmap bitmap_ok bitmap_taken max.
Proof.
  split; intros r.
  - intros Hok. by apply ForEach_taken, bitmap_ok_wf.
  - intros i Hok. by apply testbit_taken, bitmap_ok_wf.
  - intros Hok. simpl. unfold Bitmap_Free. by rewrite (bitmap_count r Hok).
Qed.

(** *** An allocator that fails

    The bitmap behind calls that may fail; the list says which do, and whether they
    have their effect all the same. *)

Inductive mishap := Works | AnswerLost | Refused.

Definition Flaky : Type := list mishap * AllocationBitmap.

Definition flaky_call {A} (script : list mishap) (r : AllocationBitmap) (call : result string A * AllocationBitmap)
    : result string A * Flaky :=
  match script with
  | AnswerLost :: script => (Err "timeout", (script, call.2))
  | Refused :: script => (Err "timeout", (script, r))
  | _ => (call.1, (tail script, call.2))
  end.

#[export] Instance flaky_interface : Interface Flaky := {|
  Allocate i s := flaky_call s.1 s.2 (Allocate i s.2);
  AllocateNext rnd s := flaky_call s.1 s.2 (AllocateNext rnd s.2);
  Release i s := flaky_call s.1 s.2 (Release i s.2);
  ForEach s := ForEach s.2;
  Has i s := Has i s.2;
  Free s := Free s.2
|}.

Definition flaky_ok (s : Flaky) : Prop := bitmap_ok s.2.
Definition flaky_taken (s : Flaky) : gset Z := bitmap_taken s.2.
Definition flaky_max (s : Flaky) : Z := max s.2.

#[export] Instance flaky_laws : AllocatorLaws true Flaky flaky_ok flaky_taken flaky_max.
Proof.
  unfold flaky_ok, flaky_taken, flaky_max. split; intros [script r].
  - intros i Hok Hi. simpl. destruct (allocate_bit_ok r i Hok Hi) as (r' & -> & Hr' & Hm & Ht).
    unfold flaky_call. destruct script as [|[] script]; eexists _, _; (split; [done|]); simpl; rewrite ?Ht;
      repeat case_bool_decide; split_and!; auto; set_solver.
  - intros rnd Hok. simpl. destruct (AllocateNext_ok r rnd Hok) as (next & r' & -> & Hr' & Hm & Hn).
    destruct next as [i|]; [destruct Hn as (Hi & Hfree & Ht)|destruct Hn as [Hfull Ht]];
      unfold flaky_call; destruct script as [|[] script]; eexists _, _; (split; [done|]); simpl; rewrite ?Ht;
      split_and!; auto; set_solver.
  - intros i Hok. simpl. destruct (release_bit_ok r i Hok) as (? & ? & Ht).
    unfold flaky_call. destruct script as [|[] script]; eexists _, _; (split; [done|]); simpl; rewrite ?Ht;
      split_and!; auto; set_solver.
  - intros i Hok. apply (bitmap_range r Hok).
Qed.

(** ** The bitmap implements a set *)

Lemma Restore_Snapshot r r0 :
  bitmap_ok r → strategy r0 = randomScanStrategy ∨ strategy r0 = contiguousScanStrategy →
  max r0 = max r → rangeSpec r0 = rangeSpec r →
  ∃ r', Restore (Snapshot r).1 (Snapshot r).2 r0 = (Ok tt, r') ∧ bitmap_ok r' ∧ max r' = max r ∧
        allocated r' = allocated r ∧ strategy r' = strategy r0 ∧ rangeSpec r' = rangeSpec r.
Proof.
  intros [Hs Hn Hc Hr] Hs0 Hm Hsp. unfold Restore, Snapshot. simpl. rewrite decide_False by tauto.
  eexists. split; [done|]. simpl. rewrite SetBytes_Bytes by done. split_and!; try done.
  split; simpl; [done|done|by apply countBits_correct|]. unfold bitmap_taken. simpl. by rewrite Hm.
Qed.

Lemma reload_wf r :
  bitmap_wf r →
  let r' := (Restore (Snapshot r).1 (Snapshot r).2 (NewAllocationMap (max r) (rangeSpec r))).2 in
  bitmap_wf r' ∧ bitmap_taken r' = bitmap_taken r ∧ max r' = max r.
Proof.
  intros [Hs Hn Hc]. unfold Restore, Snapshot. simpl. rewrite decide_False by tauto. simpl. rewrite SetBytes_Bytes by done.
  split_and!; [|done|done]. split; simpl; [by left|done|by apply countBits_correct].
Qed.

Inductive alloc_op :=
  | OpAllocate (i : Z)
  | OpNext (rnd : Z)
  | OpRelease (i : Z)
  | OpForEach
  | OpHas (i : Z)
  | OpFree
  | OpReload.

Inductive alloc_out :=
  | OutBool (b : bool)
  | OutNext (o : option Z)
  | OutItems (l : list Z)
  | OutCount (n : Z)
  | OutNone
  | OutPanic (msg : string).

(** A caller that recovers from a panic goes on with the bitmap as it was. *)
Definition recovered {A : Type} (m : outcome A) (r : AllocationBitmap) (k : A → alloc_out * AllocationBitmap)
    : alloc_out * AllocationBitmap :=
  match m with
  | Ret a => k a
  | Panic msg => (OutPanic msg, r)
  end.

(** A reload writes the bitmap out and reads it back into a new one. *)
Definition bitmap_op (op : alloc_op) (r : AllocationBitmap) : alloc_out * AllocationBitmap :=
  match op with
  | OpAllocate i => recovered (Bitmap_Allocate i r) r (λ '(b, r), (OutBool b, r))
  | OpNext rnd => let '(o, r) := Bitmap_AllocateNext rnd r in (OutNext o, r)
  | OpRelease i => recovered (Bitmap_Release i r) r (λ r, (OutNone, r))
  | OpForEach => (OutItems (Bitmap_ForEach r), r)
  | OpHas i => recovered (Bitmap_Has i r) r (λ b, (OutBool b, r))
  | OpFree => (OutCount (Bitmap_Free r), r)
  | OpReload =>
      let '(spec, data) := Snapshot r in
      (OutNone, (Restore spec data (NewAllocationMap (max r) (rangeSpec r))).2)
  end.

Fixpoint bitmap_ops (ops : list alloc_op) (r : AllocationBitmap) : list alloc_out * AllocationBitmap :=
  match ops with
  | [] => ([], r)
  | op :: ops =>
      let '(out, r) := bitmap_op op r in
      let '(outs, r) := bitmap_ops ops r in
      (out :: outs, r)
  end.

Definition op_offset (op : alloc_op) : option Z :=
  match op with OpAllocate i | OpRelease i | OpHas i => Some i | _ => None end.

(** The same operations on a set of items that are not negative, some of which may
    lie outside of the range of the [m] items below [m]. *)
Inductive set_op (m : Z) (t : gset Z) : alloc_op → alloc_out → gset Z → Prop :=
  | set_panics op i : op_offset op = Some i → i < 0 → set_op m t op (OutPanic "negative bit index") t
  | set_allocate i : 0 ≤ i → set_op m t (OpAllocate i) (OutBool (bool_decide (i ∉ t))) ({[i]} ∪ t)
  | set_next rnd i : Z.of_nat (size t) < m → in_limit m i → i ∉ t →
      set_op m t (OpNext rnd) (OutNext (Some i)) ({[i]} ∪ t)
  | set_full rnd : m ≤ Z.of_nat (size t) → set_op m t (OpNext rnd) (OutNext None) t
  | set_release i : 0 ≤ i → set_op m t (OpRelease i) OutNone (t ∖ {[i]})
  | set_each l : StronglySorted Z.lt l → (∀ i, i ∈ l ↔ i ∈ t) → set_op m t OpForEach (OutItems l) t
  | set_has i : 0 ≤ i → set_op m t (OpHas i) (OutBool (bool_decide (i ∈ t))) t
  | set_free : set_op m t OpFree (OutCount (m - Z.of_nat (size t))) t
  | set_reload : set_op m t OpReload OutNone t.

Inductive set_ops (m : Z) : gset Z → list alloc_op → list alloc_out → gset Z → Prop :=
  | set_ops_nil t : set_ops m t [] [] t
  | set_ops_cons t1 t2 t3 op out ops outs :
      set_op m t1 op out t2 → set_ops m t2 ops outs t3 → set_ops m t1 (op :: ops) (out :: outs) t3.

Lemma bitmap_op_refines op r :
  bitmap_wf r →
  let '(out, r') := bitmap_op op r in
  set_op (max r) (bitmap_taken r) op out (bitmap_taken r') ∧ bitmap_wf r' ∧ max r' = max r.
Proof.
  intros Hwf. destruct op as [i|rnd|i| |i| |]; unfold bitmap_op, Bitmap_Allocate, Bitmap_Release, Bitmap_Has, at_bit.
  - case_decide; [split; [by eapply set_panics|done]|]. simpl.
    destruct (allocate_bit_wf r i Hwf) as (r' & -> & Hwf' & Hm & Ht); [lia|]. rewrite Ht. split; [constructor; lia|done].
  - unfold Bitmap_AllocateNext. pose proof (strategy_wf r rnd Hwf) as Hst.
    destruct (strategy r rnd _ _ _) as [i|]; [|by split; [constructor|]]. destruct Hst as (Hi & Hfree & Hlt).
    destruct (bitmap_set_wf r i Hwf (proj1 Hi) Hfree) as [Hwf' ->]. by split; [constructor|].
  - case_decide; [split; [by eapply set_panics|done]|]. simpl. destruct (release_bit_wf r i Hwf) as [Hwf' ->].
    split; [constructor; lia|]. split; [done|]. unfold release_bit. by destruct (Z.testbit _ _).
  - destruct (ForEach_taken r Hwf). by split; [constructor|].
  - case_decide; [split; [by eapply set_panics|done]|]. simpl. rewrite (testbit_taken r i Hwf). split; [constructor; lia|done].
  - unfold Bitmap_Free. rewrite (wf_count r Hwf). by split; [constructor|].
  - destruct (reload_wf r Hwf) as (Hwf' & Ht & Hm). unfold Snapshot in *. simpl in *. rewrite Ht. by split; [constructor|].
Qed.


