(* ===== verification/PortAllocator.v ===== *)
(** * Allocation of ports

    Models pkg/util/net/port_range.go, portallocator/allocator.go and the
    operations of portallocator/operation.go under pkg/registry/core/service.  The
    allocator below is any instance of the interface of allocators. *)

From S2P Require Import Prelude Allocator.
Open Scope Z_scope.

(** ** Ranges of ports *)

Record PortRange := mkPortRange { Base : Z; Size : Z }.

#[export] Instance PortRange_eq_dec : EqDecision PortRange.
Proof. solve_decision. Defined.

Definition PortRange_Contains (pr : PortRange) (p : Z) : bool :=
  bool_decide (p >= Base pr) && bool_decide (p - Base pr < Size pr).

Definition PortRange_String (pr : PortRange) : string :=
  if decide (Size pr = 0) then ""
  else FormatInt (Base pr) +:+ "-" +:+ FormatInt (Base pr + Size pr - 1).

(** The text before and after the first hyphen. *)
Fixpoint cut_hyphen (s : string) : option (string * string) :=
  match s with
  | EmptyString => None
  | String c s' =>
      if decide (c = "-"%char) then Some (EmptyString, s')
      else match cut_hyphen s' with
           | Some (a, b) => Some (String c a, b)
           | None => None
           end
  end.

Inductive range_error := NoHyphen | NotANumber | TooLarge | Reversed.

Definition ParsePortRange (value : string) : result range_error PortRange :=
  let value := TrimSpace value in
  if decide (value = "") then Ok (mkPortRange 0 0)
  else match cut_hyphen value with
       | None => Err NoHyphen
       | Some (lo, hi) =>
           match ParseInt lo, ParseInt hi with
           | Some low, Some high =>
               if decide (low > 65535 ∨ high > 65535) then Err TooLarge
               else if decide (high < low) then Err Reversed
               else Ok (mkPortRange low (1 + high - low))
           | _, _ => Err NotANumber
           end
       end.

(** ** The allocator *)

Inductive port_error :=
  | ErrFull
  | ErrAllocated
  | ErrMismatchedNetwork
  | ErrNotInRange (ValidPorts : string)
  | ErrBackend (msg : string).

Record PortAllocator (S : Type) := mkPorts { portRange : PortRange; port_alloc : S }.
Arguments mkPorts {S} _ _.
Arguments portRange {S} _.
Arguments port_alloc {S} _.

Section ports.
Context {S : Type} `{!Interface S}.
Implicit Types r : PortAllocator S.

Definition set_port_alloc (a : S) (r : PortAllocator S) : PortAllocator S := mkPorts (portRange r) a.

Definition NewPortAllocatorCustom (pr : PortRange) (allocatorFactory : Z → string → S) : PortAllocator S :=
  mkPorts pr (allocatorFactory (Size pr) (PortRange_String pr)).

Definition Port_Free (r : PortAllocator S) : Z := Free (port_alloc r).
Definition Port_Used (r : PortAllocator S) : Z := Size (portRange r) - Free (port_alloc r).

Definition Port_contains (port : Z) (r : PortAllocator S) : option Z :=
  if PortRange_Contains (portRange r) port then Some (port - Base (portRange r)) else None.

Definition Port_Allocate (port : Z) (r : PortAllocator S) : result port_error unit * PortAllocator S :=
  match Port_contains port r with
  | None => (Err (ErrNotInRange (PortRange_String (portRange r))), r)
  | Some offset =>
      let '(res, a) := Allocate offset (port_alloc r) in
      (match res with
       | Err err => Err (ErrBackend err)
       | Ok false => Err ErrAllocated
       | Ok true => Ok tt
       end, set_port_alloc a r)
  end.

Definition Port_AllocateNext (rnd : Z) (r : PortAllocator S) : result port_error Z * PortAllocator S :=
  let '(res, a) := AllocateNext rnd (port_alloc r) in
  (match res with
   | Err err => Err (ErrBackend err)
   | Ok None => Err ErrFull
   | Ok (Some offset) => Ok (Base (portRange r) + offset)
   end, set_port_alloc a r).

Definition Port_ForEach (r : PortAllocator S) : list Z :=
  (λ offset, Base (portRange r) + offset) <$> ForEach (port_alloc r).

Definition Port_Release (port : Z) (r : PortAllocator S) : result port_error unit * PortAllocator S :=
  match Port_contains port r with
  | None => (Ok tt, r)
  | Some offset =>
      let '(res, a) := Release offset (port_alloc r) in
      (match res with Err err => Err (ErrBackend err) | Ok _ => Ok tt end, set_port_alloc a r)
  end.

Definition Port_Has (port : Z) (r : PortAllocator S) : bool :=
  match Port_contains port r with
  | None => false
  | Some offset => Has offset (port_alloc r)
  end.

(** ** Operations

    An operation remembers what it allocated, to undo it, and what is to be
    released when it commits.  The allocator is shared and passed along. *)

Record portAllocationOperation := mkOperation {
  op_allocated : list Z;
  releaseDeferred : list Z;
  shouldRollback : bool
}.

Definition StartOperation : portAllocationOperation := mkOperation [] [] true.

(** The loops that release ports: errors are collected. *)
Fixpoint release_loop (ports : list Z) (r : PortAllocator S) : list port_error * PortAllocator S :=
  match ports with
  | [] => ([], r)
  | p :: ports =>
      let '(res, r) := Port_Release p r in
      let '(errors, r) := release_loop ports r in
      (match res with Err err => err :: errors | Ok _ => errors end, r)
  end.

Definition Op_Rollback (op : portAllocationOperation) (r : PortAllocator S) : list port_error * PortAllocator S :=
  release_loop (op_allocated op) r.

Definition Op_Finish (op : portAllocationOperation) (r : PortAllocator S) : PortAllocator S :=
  if shouldRollback op then (Op_Rollback op r).2 else r.

Definition Op_Commit (op : portAllocationOperation) (r : PortAllocator S)
    : list port_error * portAllocationOperation * PortAllocator S :=
  let '(errors, r) := release_loop (releaseDeferred op) r in
  (errors, mkOperation (op_allocated op) (releaseDeferred op) false, r).

Definition Op_Allocate (port : Z) (op : portAllocationOperation) (r : PortAllocator S)
    : result port_error unit * portAllocationOperation * PortAllocator S :=
  let '(res, r) := Port_Allocate port r in
  match res with
  | Ok _ => (res, mkOperation (op_allocated op ++ [port]) (releaseDeferred op) (shouldRollback op), r)
  | Err _ => (res, op, r)
  end.

Definition Op_AllocateNext (rnd : Z) (op : portAllocationOperation) (r : PortAllocator S)
    : result port_error Z * portAllocationOperation * PortAllocator S :=
  let '(res, r) := Port_AllocateNext rnd r in
  match res with
  | Ok port => (res, mkOperation (op_allocated op ++ [port]) (releaseDeferred op) (shouldRollback op), r)
  | Err _ => (res, op, r)
  end.

Definition Op_ReleaseDeferred (port : Z) (op : portAllocationOperation) : portAllocationOperation :=
  mkOperation (op_allocated op) (releaseDeferred op ++ [port]) (shouldRollback op).
End ports.

(** Over the bitmap. *)
Definition NewPortAllocator (pr : PortRange) : PortAllocator AllocationBitmap :=
  NewPortAllocatorCustom pr NewAllocationMap.

Definition Port_Snapshot (r : PortAllocator AllocationBitmap) : string * list Z := Snapshot (port_alloc r).

Definition Port_Restore (pr : PortRange) (data : list Z) (r : PortAllocator AllocationBitmap)
    : result port_error unit * PortAllocator AllocationBitmap :=
  if decide (PortRange_String pr ≠ PortRange_String (portRange r)) then (Err ErrMismatchedNetwork, r)
  else
    let '(res, a) := Restore (PortRange_String pr) data (port_alloc r) in
    (match res with Err err => Err (ErrBackend err) | Ok _ => Ok tt end, set_port_alloc a r).

Definition Port_NewFromSnapshot (range : string) (data : list Z)
    : result (range_error + port_error) (PortAllocator AllocationBitmap) :=
  match ParsePortRange range with
  | Err err => Err (inl err)
  | Ok pr =>
      let '(res, r) := Port_Restore pr data (NewPortAllocator pr) in
      match res with Err err => Err (inr err) | Ok _ => Ok r end
  end.

(** ** The text of a range *)

Definition digits_only (s : string) : Prop :=
  s ≠ "" ∧ Forall (λ c, is_Some (digit_value c)) (String.list_ascii_of_string s).

Lemma parse_digits_only acc s v :
  parse_digits acc s = Some v → Forall (λ c, is_Some (digit_value c)) (String.list_ascii_of_string s).
Proof.
  revert acc. induction s as [|c s IH]; intros acc Hs; simpl in *; [constructor|].
  destruct (digit_value c) eqn:Hc; [|done]. constructor; eauto.
Qed.

Lemma FormatInt_digits (m : Z) : 0 ≤ m → digits_only (FormatInt m).
Proof.
  intros Hm. unfold FormatInt. destruct m as [|p|p]; [| |lia].
  - split; [done|]. repeat constructor. by eexists.
  - change (pretty (Z.pos p)) with (pretty (N.pos p)). split.
    + intros Heq. pose proof (parse_digits_pretty (N.pos p)) as Hp. rewrite Heq in Hp. done.
    + eapply parse_digits_only, parse_digits_pretty.
Qed.

(** A text is kept by the trimming when it starts and ends with a digit. *)
Lemma trim_front_keeps codes fuel x s :
  forallb (λ p, match p with y :: _ => bool_decide (¬ (48 ≤ y ≤ 57)%nat) | [] => false end) codes = true →
  (48 ≤ x ≤ 57)%nat → trim_front codes fuel (x :: s) = x :: s.
Proof.
  intros Hcodes Hx. destruct fuel as [|fuel]; [done|]. simpl.
  assert (omap (λ p, strip_prefix p (x :: s)) codes = []) as ->; [|done].
  induction codes as [|p codes IH]; [done|]. simpl in *. apply andb_true_iff in Hcodes as [Hp Hcodes].
  destruct p as [|y p]; [done|]. apply bool_decide_eq_true in Hp. simpl.
  destruct (decide (y = x)) as [->|]; [done|]. by apply IH.
Qed.

Lemma digit_code c : is_Some (digit_value c) → (48 ≤ nat_of_ascii c ≤ 57)%nat.
Proof.
  unfold digit_value, in_range. intros [z Hz].
  destruct (bool_decide _) eqn:Hb; [|done]. by apply bool_decide_eq_true in Hb.
Qed.

Lemma digits_only_ends s :
  digits_only s → ∃ c t d u, String.list_ascii_of_string s = c :: t ∧ String.list_ascii_of_string s = u ++ [d] ∧
    (48 ≤ nat_of_ascii c ≤ 57)%nat ∧ (48 ≤ nat_of_ascii d ≤ 57)%nat.
Proof.
  intros [Hne Hall]. destruct s as [|c s]; [done|]. simpl in *.
  destruct (exists_last (l := c :: String.list_ascii_of_string s)) as (u & d & Hu); [done|].
  exists c, (String.list_ascii_of_string s), d, u. split; [done|]. split; [done|]. split; apply digit_code.
  - by apply Forall_cons in Hall as [? _].
  - rewrite Hu in Hall. apply Forall_app in Hall as [_ Hall]. by inversion Hall.
Qed.

Lemma list_ascii_app s1 s2 :
  String.list_ascii_of_string (s1 +:+ s2) = String.list_ascii_of_string s1 ++ String.list_ascii_of_string s2.
Proof. induction s1 as [|c s1 IH]; [done|]. simpl. by rewrite <-IH. Qed.

Lemma TrimSpace_keeps s1 m s2 : digits_only s1 → digits_only s2 → TrimSpace (s1 +:+ m +:+ s2) = s1 +:+ m +:+ s2.
Proof.
  intros (c & t & _ & _ & H1 & _ & Hc & _)%digits_only_ends (_ & _ & d & u & _ & H2 & _ & Hd)%digits_only_ends.
  unfold TrimSpace. etransitivity; [|apply String.string_of_list_ascii_of_string]. f_equal.
  rewrite !list_ascii_app, H1, H2. set (bytes := nat_of_ascii <$> _).
  assert (Hb : bytes = nat_of_ascii c :: (nat_of_ascii <$> t ++ String.list_ascii_of_string m ++ u ++ [d])) by done.
  assert (He : reverse bytes = nat_of_ascii d :: reverse (nat_of_ascii <$> c :: t ++ String.list_ascii_of_string m ++ u)).
  { unfold bytes. rewrite <-reverse_snoc. f_equal.
    rewrite <-(fmap_app nat_of_ascii (_ :: _) [d]). f_equal. simpl. by rewrite <-!(assoc_L (++)). }
  assert (trim_front space_codes (length bytes) bytes = bytes) as ->.
  { rewrite Hb. by apply trim_front_keeps. }
  rewrite He, trim_front_keeps, <-He, reverse_involutive by done. unfold bytes.
  rewrite <-list_fmap_compose. rewrite <-(list_fmap_id (_ ++ _)) at 2. apply list_fmap_ext.
  intros i x _. apply ascii_nat_embedding.
Qed.

Lemma cut_hyphen_digits s1 s2 : digits_only s1 → cut_hyphen (s1 +:+ "-" +:+ s2) = Some (s1, s2).
Proof.
  intros [_ Hall]. induction s1 as [|c s1 IH]; [done|]. simpl in *.
  apply Forall_cons in Hall as [Hc Hall]. rewrite decide_False.
  { simpl in IH. by rewrite IH. }
  intros ->. destruct Hc as [z Hz]. vm_compute in Hz. done.
Qed.

(** Ranges of ports that [ParsePortRange] can return, but for the empty one. *)
Definition range_in_bounds (pr : PortRange) : Prop := 0 ≤ Base pr ∧ 0 < Size pr ∧ Base pr + Size pr ≤ 65536.

(** The text of a range is read as the same range. *)
Lemma ParsePortRange_String pr : range_in_bounds pr → ParsePortRange (PortRange_String pr) = Ok pr.
Proof.
  intros (Hb & Hs & Hmax). unfold PortRange_String. rewrite decide_False by lia.
  pose proof (FormatInt_digits (Base pr) Hb) as H1. pose proof (FormatInt_digits (Base pr + Size pr - 1)) as H2.
  unfold ParsePortRange. rewrite TrimSpace_keeps by (auto with lia).
  rewrite decide_False; [|destruct H1 as [Hne _]; by destruct (FormatInt (Base pr))].
  rewrite cut_hyphen_digits by done.
  rewrite !ParseInt_FormatInt_nonneg by (unfold is_int64, MinInt64, MaxInt64; lia).
  rewrite !decide_False by lia. destruct pr as [b z]. simpl. do 2 f_equal. lia.
Qed.

(** ** The ports that are taken *)

Section taken.
Context (fails : bool) {S : Type} `{!Interface S} (ok : S → Prop) (taken : S → gset Z) (limit : S → Z).
Context `{!AllocatorLaws fails S ok taken limit}.
Implicit Types r : PortAllocator S.
Local Notation left_with := (left_with fails).

Definition ports_taken (r : PortAllocator S) : gset Z :=
  set_map (λ offset, Base (portRange r) + offset) (taken (port_alloc r)).

Definition port_ok (r : PortAllocator S) : Prop :=
  ok (port_alloc r) ∧ limit (port_alloc r) = Size (portRange r).

Definition valid_port (pr : PortRange) (p : Z) : Prop := Base pr ≤ p < Base pr + Size pr.

Lemma elem_of_ports_taken r p : p ∈ ports_taken r ↔ p - Base (portRange r) ∈ taken (port_alloc r).
Proof.
  unfold ports_taken. rewrite elem_of_map. split.
  - intros (o & -> & Ho). by replace (Base (portRange r) + o - Base (portRange r)) with o by lia.
  - intros Ho. eexists. split; [|done]. lia.
Qed.

Lemma ports_taken_valid r p : port_ok r → p ∈ ports_taken r → valid_port (portRange r) p.
Proof.
  intros [Hok Hl] Hp%elem_of_ports_taken. apply (taken_limit (fails := fails)) in Hp; [|done].
  unfold in_limit in Hp. unfold valid_port. lia.
Qed.

Lemma Port_contains_spec p r :
  Port_contains p r = if decide (valid_port (portRange r) p) then Some (p - Base (portRange r)) else None.
Proof.
  unfold Port_contains, PortRange_Contains, valid_port.
  destruct (decide (p >= Base (portRange r))); [rewrite (bool_decide_eq_true_2 (p >= _)) by done
    |rewrite (bool_decide_eq_false_2 (p >= _)) by done]; simpl.
  - destruct (decide (p - Base (portRange r) < Size (portRange r))).
    + rewrite bool_decide_eq_true_2, decide_True by lia. done.
    + rewrite bool_decide_eq_false_2, decide_False by lia. done.
  - rewrite decide_False by lia. done.
Qed.

(** The allocator after a change: the same range, and the ports given. *)
Definition port_after (r r' : PortAllocator S) (T : gset Z) : Prop :=
  port_ok r' ∧ portRange r' = portRange r ∧ left_with T (ports_taken r').

Lemma port_after_same r : port_ok r → port_after r r (ports_taken r).
Proof. intros Hok. split_and!; [done..|]. apply left_with_refl. Qed.

Lemma port_after_set r a (O T : gset Z) :
  port_ok r → ok a → limit a = limit (port_alloc r) →
  left_with O (taken a) → (∀ o, o ∈ O ↔ Base (portRange r) + o ∈ T) →
  port_after r (set_port_alloc a r) T.
Proof.
  intros [_ Hl] Ha Hla HO HT. split_and!; [by split; simpl; [|rewrite Hla]|done|].
  assert (Hel : ∀ p, p ∈ T ↔ p - Base (portRange r) ∈ O).
  { intros p. rewrite HT. by replace (Base (portRange r) + (p - Base (portRange r))) with p by lia. }
  unfold Allocator.left_with in *. destruct fails; [|apply set_eq]; intros p;
    rewrite elem_of_ports_taken, Hel; simpl; [apply HO|by rewrite HO].
Qed.

(** One change after the other. *)
Lemma port_after_add r1 r2 r3 X T :
  port_after r1 r2 T → port_after r2 r3 (X ∪ ports_taken r2) → port_after r1 r3 (X ∪ T).
Proof.
  intros (? & Hr & Ht) (? & Hr' & Ht'). split_and!; [done|congruence|].
  by eapply left_with_trans; [apply left_with_union|].
Qed.

Lemma port_after_remove r1 r2 r3 X T :
  port_after r1 r2 T → port_after r2 r3 (ports_taken r2 ∖ X) → port_after r1 r3 (T ∖ X).
Proof.
  intros (? & Hr & Ht) (? & Hr' & Ht'). split_and!; [done|congruence|].
  by eapply left_with_trans; [apply left_with_difference|].
Qed.

Lemma port_after_keep r1 r2 r3 T :
  port_after r1 r2 T → port_after r2 r3 (ports_taken r2) → port_after r1 r3 T.
Proof.
  intros (? & Hr & Ht) (? & Hr' & Ht'). split_and!; [done|congruence|]. by eapply left_with_trans.
Qed.

Lemma elem_of_ports_taken_add r o : Base (portRange r) + o ∈ ports_taken r ↔ o ∈ taken (port_alloc r).
Proof.
  rewrite elem_of_ports_taken. by replace (Base (portRange r) + o - Base (portRange r)) with o by lia.
Qed.

Lemma Port_Allocate_spec p r :
  port_ok r →
  ∃ res r', Port_Allocate p r = (res, r') ∧
    match res with
    | Ok _ => valid_port (portRange r) p ∧ p ∉ ports_taken r ∧ port_after r r' ({[p]} ∪ ports_taken r)
    | Err e => (fails = true ∨ p ∈ ports_taken r ∧ e = ErrAllocated ∨
                ¬ valid_port (portRange r) p ∧ e = ErrNotInRange (PortRange_String (portRange r))) ∧
               port_after r r' (ports_taken r)
    end.
Proof.
  intros Hok. unfold Port_Allocate. rewrite Port_contains_spec.
  destruct (decide (valid_port (portRange r) p)) as [Hv|Hv].
  2: { eexists _, _. split; [done|]. simpl. split; [by auto|by apply port_after_same]. }
  assert (in_limit (limit (port_alloc r)) (p - Base (portRange r))) as Hin.
  { destruct Hok as [_ ->]. unfold valid_port in Hv. unfold in_limit. lia. }
  destruct (Allocate_law (port_alloc r) _ (proj1 Hok) Hin) as (res & a & -> & Ha & Hla & Ht).
  eexists _, _. split; [done|].
  destruct res as [[]|e].
  - destruct Ht as [Hfree Ht]. rewrite <-elem_of_ports_taken in Hfree. split_and!; [done..|]. eapply port_after_set; [done..|]. intros o.
    rewrite !elem_of_union, !elem_of_singleton, elem_of_ports_taken_add.
    by assert (o = p - Base (portRange r) ↔ Base (portRange r) + o = p) as -> by lia.
  - destruct Ht as [He Ht]. rewrite <-elem_of_ports_taken in He. split; [destruct He; by auto|]. eapply port_after_set; [done..|]. intros o.
    by rewrite elem_of_ports_taken_add.
  - destruct Ht as [He Ht]. split; [by left|]. eapply port_after_set; [done..|]. intros o.
    by rewrite elem_of_ports_taken_add.
Qed.

Lemma Port_AllocateNext_spec rnd r :
  port_ok r →
  ∃ res r', Port_AllocateNext rnd r = (res, r') ∧
    match res with
    | Ok p => valid_port (portRange r) p ∧ p ∉ ports_taken r ∧ port_after r r' ({[p]} ∪ ports_taken r)
    | Err e => (fails = true ∨ e = ErrFull ∧ ∀ p, valid_port (portRange r) p → p ∈ ports_taken r) ∧
               port_after r r' (ports_taken r)
    end.
Proof.
  intros Hok. unfold Port_AllocateNext.
  destruct (AllocateNext_law (port_alloc r) rnd (proj1 Hok)) as (res & a & -> & Ha & Hla & Hn).
  eexists _, _. split; [done|]. destruct res as [[i|]|e].
  - destruct Hn as (Hi & Hfree & Ht). unfold in_limit in Hi. rewrite (proj2 Hok) in Hi.
    split_and!; [unfold valid_port; lia|by rewrite elem_of_ports_taken_add|].
    eapply port_after_set; [done..|]. intros o. rewrite !elem_of_union, !elem_of_singleton.
    rewrite elem_of_ports_taken_add.
    by assert (Base (portRange r) + o = Base (portRange r) + i ↔ o = i) as -> by lia.
  - destruct Hn as [Hfull Ht]. split; [|eapply port_after_set; [done..|]; intros o; by rewrite elem_of_ports_taken_add].
    destruct Hfull as [|Hfull]; [by left|right]. split; [done|].
    intros p Hp. apply elem_of_ports_taken, Hfull. unfold in_limit. rewrite (proj2 Hok).
    unfold valid_port in Hp. lia.
  - destruct Hn as [He Ht]. split; [by left|]. eapply port_after_set; [done..|]. intros o.
    by rewrite elem_of_ports_taken_add.
Qed.

Lemma Port_Release_spec p r :
  port_ok r →
  ∃ res r', Port_Release p r = (res, r') ∧ (fails = true ∨ res = Ok tt) ∧ port_after r r' (ports_taken r ∖ {[p]}).
Proof.
  intros Hok. unfold Port_Release. rewrite Port_contains_spec.
  destruct (decide (valid_port (portRange r) p)) as [Hv|Hv].
  - destruct (Release_law (port_alloc r) (p - Base (portRange r)) (proj1 Hok)) as (res & a & -> & Ha & Hla & Hres & Ht).
    eexists _, _. split; [done|]. split; [destruct Hres as [| ->]; by auto|]. eapply port_after_set; [done..|]. intros o.
    rewrite !elem_of_difference, !elem_of_singleton, elem_of_ports_taken_add.
    by assert (Base (portRange r) + o = p ↔ o = p - Base (portRange r)) as -> by lia.
  - exists (Ok tt), r. split; [done|]. split; [by right|].
    assert (p ∉ ports_taken r) by (by intros ?%ports_taken_valid).
    replace (ports_taken r ∖ {[p]}) with (ports_taken r) by set_solver. by apply port_after_same.
Qed.

Lemma release_loop_spec ports r :
  port_ok r →
  ∃ errors r', release_loop ports r = (errors, r') ∧ port_after r r' (ports_taken r ∖ list_to_set ports).
Proof.
  revert r. induction ports as [|p ports IH]; intros r Hok; simpl.
  { exists [], r. split; [done|]. rewrite difference_empty_L. by apply port_after_same. }
  destruct (Port_Release_spec p r Hok) as (res & r1 & -> & _ & Ha1).
  destruct (IH r1 (proj1 Ha1)) as (errors & r2 & -> & Ha2). eexists _, r2. split; [done|].
  rewrite <-difference_difference_l_L. by eapply port_after_remove.
Qed.

(** An operation under way: what it allocated was free and comes on top. *)
Definition op_under_way (r0 : PortAllocator S) (op : portAllocationOperation) (r : PortAllocator S) : Prop :=
  port_after r0 r (list_to_set (op_allocated op) ∪ ports_taken r0) ∧
  list_to_set (op_allocated op) ## ports_taken r0 ∧ shouldRollback op = true.

Lemma StartOperation_under_way r : port_ok r → op_under_way r StartOperation r.
Proof.
  intros Hok. split_and!; [|set_solver|done]. simpl. rewrite union_empty_l_L. by apply port_after_same.
Qed.

Lemma op_under_way_add r0 op r r' p :
  op_under_way r0 op r → p ∉ ports_taken r → port_after r r' ({[p]} ∪ ports_taken r) →
  op_under_way r0 (mkOperation (op_allocated op ++ [p]) (releaseDeferred op) (shouldRollback op)) r'.
Proof.
  intros (Ha & Hd & Hs) Hp Ha'. pose proof Ha as (_ & _ & Hsub%left_with_sub).
  unfold op_under_way. simpl. rewrite list_to_set_app_L. simpl. split_and!; [|set_solver|done].
  replace (list_to_set (op_allocated op) ∪ ({[p]} ∪ ∅) ∪ ports_taken r0)
    with ({[p]} ∪ (list_to_set (op_allocated op) ∪ ports_taken r0)) by set_solver.
  by eapply port_after_add.
Qed.

Lemma op_under_way_keep r0 op r r' :
  op_under_way r0 op r → port_after r r' (ports_taken r) → op_under_way r0 op r'.
Proof. intros (Ha & Hd & Hs) Ha'. split_and!; [by eapply port_after_keep|done..]. Qed.

Lemma Op_Allocate_spec r0 p op r :
  op_under_way r0 op r →
  ∃ res op' r', Op_Allocate p op r = (res, op', r') ∧ op_under_way r0 op' r' ∧
    releaseDeferred op' = releaseDeferred op ∧
    match res with
    | Ok _ => valid_port (portRange r0) p ∧ op_allocated op' = op_allocated op ++ [p]
    | Err _ => op_allocated op' = op_allocated op
    end.
Proof.
  intros Hop. pose proof Hop as ((Hok & Hr & _) & _). unfold Op_Allocate.
  destruct (Port_Allocate_spec p r Hok) as (res & r' & -> & Hres). destruct res as [[]|e].
  - destruct Hres as (Hv & Hp & Ha). rewrite Hr in Hv. eexists _, _, _. split; [done|].
    split; [by eapply op_under_way_add|done].
  - destruct Hres as [_ Ha]. eexists _, _, _. split; [done|]. split; [by eapply op_under_way_keep|done].
Qed.

Lemma Op_AllocateNext_spec r0 rnd op r :
  op_under_way r0 op r →
  ∃ res op' r', Op_AllocateNext rnd op r = (res, op', r') ∧ op_under_way r0 op' r' ∧
    releaseDeferred op' = releaseDeferred op ∧
    match res with
    | Ok p => valid_port (portRange r0) p ∧ op_allocated op' = op_allocated op ++ [p]
    | Err _ => op_allocated op' = op_allocated op
    end.
Proof.
  intros Hop. pose proof Hop as ((Hok & Hr & _) & _). unfold Op_AllocateNext.
  destruct (Port_AllocateNext_spec rnd r Hok) as (res & r' & -> & Hres). destruct res as [p|e].
  - destruct Hres as (Hv & Hp & Ha). rewrite Hr in Hv. eexists _, _, _. split; [done|].
    split; [by eapply op_under_way_add|done].
  - destruct Hres as [_ Ha]. eexists _, _, _. split; [done|]. split; [by eapply op_under_way_keep|done].
Qed.

(** An operation that is not committed leaves no trace. *)
Lemma Op_Finish_spec r0 op r : op_under_way r0 op r → port_after r0 (Op_Finish op r) (ports_taken r0).
Proof.
  intros (Ha & Hd & Hs). unfold Op_Finish, Op_Rollback. rewrite Hs.
  destruct (release_loop_spec (op_allocated op) r (proj1 Ha)) as (errors & r' & -> & Ha'). simpl.
  replace (ports_taken r0)
    with ((list_to_set (op_allocated op) ∪ ports_taken r0) ∖ list_to_set (op_allocated op)) by set_solver.
  by eapply port_after_remove.
Qed.

(** One that is committed keeps its allocations and releases what was deferred. *)
Lemma Op_Commit_spec r0 op r :
  op_under_way r0 op r →
  ∃ errors op' r', Op_Commit op r = (errors, op', r') ∧ Op_Finish op' r' = r' ∧
    port_after r0 r' ((list_to_set (op_allocated op) ∪ ports_taken r0) ∖ list_to_set (releaseDeferred op)).
Proof.
  intros (Ha & Hd & Hs). unfold Op_Commit.
  destruct (release_loop_spec (releaseDeferred op) r (proj1 Ha)) as (errors & r' & -> & Ha'). eexists _, _, _.
  split; [done|]. split; [done|]. by eapply port_after_remove.
Qed.
End taken.

(** ** Writing out and reading back *)

(** An allocator over a bitmap that carries the text of its range. *)
Definition port_stored_ok (r : PortAllocator AllocationBitmap) : Prop :=
  port_ok bitmap_ok max r ∧ rangeSpec (port_alloc r) = PortRange_String (portRange r).

Lemma NewPortAllocator_stored_ok pr : port_stored_ok (NewPortAllocator pr).
Proof. split; [split; [apply NewAllocationMap_ok|]|]; done. Qed.

Lemma Port_NewFromSnapshot_Snapshot r :
  port_stored_ok r → range_in_bounds (portRange r) →
  ∃ r', Port_NewFromSnapshot (Port_Snapshot r).1 (Port_Snapshot r).2 = Ok r' ∧
        port_stored_ok r' ∧ portRange r' = portRange r ∧ ports_taken bitmap_taken r' = ports_taken bitmap_taken r.
Proof.
  intros [[Hok Hl] Hspec] Hb. unfold Port_NewFromSnapshot, Port_Snapshot.
  pose proof (Restore_Snapshot (port_alloc r) (port_alloc (NewPortAllocator (portRange r))) Hok) as Hr.
  destruct Hr as (a & Heq & Hok' & Hm & Ha & _ & Hsp); [by left|simpl; congruence|simpl; congruence|].
  unfold Snapshot in *. simpl in *. rewrite Hspec, ParsePortRange_String by done. unfold Port_Restore.
  rewrite decide_False by auto. rewrite Hspec in Heq. simpl. rewrite Heq. eexists. split; [done|].
  split_and!; [split; [split|]|done|]; simpl; [done|congruence|congruence|].
  unfold ports_taken, bitmap_taken. simpl. by rewrite Ha.
Qed.
