(* ===== verification/IPAllocator.v ===== *)
(** * Allocation of addresses

    Models ipallocator/allocator.go under pkg/registry/core/service, and what it
    uses of Go's package net: an address is a list of 4 or 16 bytes, a network an
    address and the length of its prefix. *)

From S2P Require Import Prelude Allocator.
Open Scope Z_scope.

(** ** Addresses and networks (package net) *)

Definition v4InV6Prefix : list Z := [0; 0; 0; 0; 0; 0; 0; 0; 0; 0; 255; 255].

(** [None] is nil. *)
Definition To4 (ip : list Z) : option (list Z) :=
  if decide (length ip = 4%nat) then Some ip
  else if decide (length ip = 16%nat ∧ take 12 ip = v4InV6Prefix) then Some (drop 12 ip) else None.

Definition To16 (ip : list Z) : option (list Z) :=
  if decide (length ip = 4%nat) then Some (v4InV6Prefix ++ ip)
  else if decide (length ip = 16%nat) then Some ip else None.

(** [net.ParseIP(ip.String())]: the empty list, nil, when the text of the bytes is
    not that of an address. *)
Definition ParseIP_String (ip : list Z) : list Z := default [] (To16 ip).

Record IPNet := mkNet { net_IP : list Z; ones : Z }.

#[export] Instance IPNet_eq_dec : EqDecision IPNet.
Proof. solve_decision. Defined.

Definition net_bits (n : IPNet) : Z := 8 * Z.of_nat (length (net_IP n)).
Definition host_bits (n : IPNet) : Z := net_bits n - ones n.

(** The network includes the address: the same family, and the same prefix. *)
Definition Contains (n : IPNet) (ip : list Z) : bool :=
  let ip := default ip (To4 ip) in
  bool_decide (length ip = length (net_IP n)) &&
  bool_decide (SetBytes ip / 2 ^ host_bits n = SetBytes (net_IP n) / 2 ^ host_bits n).

(** ** The range *)

Inductive ip_error :=
  | ErrIPFull
  | ErrIPNotInRange
  | ErrIPAllocated
  | ErrIPMismatchedNetwork
  | ErrIPBackend (msg : string).

Record Range (S : Type) := mkRange { net : IPNet; base : Z; range_max : Z; range_alloc : S }.
Arguments mkRange {S} _ _ _ _.
Arguments net {S} _.
Arguments base {S} _.
Arguments range_max {S} _.
Arguments range_alloc {S} _.

Definition bigForIP (ip : list Z) : Z :=
  match To4 ip with
  | Some b => SetBytes b
  | None => SetBytes (default [] (To16 ip))
  end.

Definition addIPOffset (base offset : Z) : list Z := Bytes (base + offset).

Definition calculateIPOffset (base : Z) (ip : list Z) : Z := wrap64 (bigForIP ip - base).

Definition RangeSize (subnet : IPNet) : outcome Z :=
  if decide (host_bits subnet >= 31) then Panic "masks greater than 31 bits are not supported"
  else Ret (2 ^ host_bits subnet).

Definition GetIndexedIP (subnet : IPNet) (index : Z) : result string (list Z) :=
  let ip := addIPOffset (bigForIP (net_IP subnet)) index in
  if Contains subnet ip then Ok ip else Err "can't generate IP with index from subnet. subnet too small.".

Section range.
Context {S : Type} `{!Interface S}.

Definition set_range_alloc (a : S) (r : Range S) : Range S := mkRange (net r) (base r) (range_max r) a.

Definition NewAllocatorCIDRRange (net_String : IPNet → string) (cidr : IPNet) (allocatorFactory : Z → string → S)
    : outcome (Range S) :=
  size ?<- RangeSize cidr;
  let m := Z.max 0 (size - 2) in
  Ret (mkRange cidr (bigForIP (net_IP cidr) + 1) m (allocatorFactory m (net_String cidr))).

Definition Range_Free (r : Range S) : Z := Free (range_alloc r).
Definition Range_Used (r : Range S) : Z := range_max r - Free (range_alloc r).

Definition contains (ip : list Z) (r : Range S) : option Z :=
  if Contains (net r) ip then
    let offset := calculateIPOffset (base r) ip in
    if decide (offset < 0 ∨ offset >= range_max r) then None else Some offset
  else None.

Definition Range_Allocate (ip : list Z) (r : Range S) : result ip_error unit * Range S :=
  match contains ip r with
  | None => (Err ErrIPNotInRange, r)
  | Some offset =>
      let '(res, a) := Allocate offset (range_alloc r) in
      (match res with
       | Err err => Err (ErrIPBackend err)
       | Ok false => Err ErrIPAllocated
       | Ok true => Ok tt
       end, set_range_alloc a r)
  end.

Definition Range_AllocateNext (rnd : Z) (r : Range S) : result ip_error (list Z) * Range S :=
  let '(res, a) := AllocateNext rnd (range_alloc r) in
  (match res with
   | Err err => Err (ErrIPBackend err)
   | Ok None => Err ErrIPFull
   | Ok (Some offset) => Ok (addIPOffset (base r) offset)
   end, set_range_alloc a r).

Definition Range_Release (ip : list Z) (r : Range S) : result ip_error unit * Range S :=
  match contains ip r with
  | None => (Ok tt, r)
  | Some offset =>
      let '(res, a) := Release offset (range_alloc r) in
      (match res with Err err => Err (ErrIPBackend err) | Ok _ => Ok tt end, set_range_alloc a r)
  end.

(** The address passed to [fn] is nil where there is none of that index. *)
Definition Range_ForEach (r : Range S) : list (list Z) :=
  (λ offset, match GetIndexedIP (net r) (offset + 1) with Ok ip => ip | Err _ => [] end)
  <$> ForEach (range_alloc r).

Definition Range_Has (ip : list Z) (r : Range S) : bool :=
  match contains ip r with
  | None => false
  | Some offset => Has offset (range_alloc r)
  end.
End range.

(** Over the bitmap.  The error of the bitmap's own Restore is dropped. *)
Definition Range_Restore (net_String : IPNet → string) (n : IPNet) (data : list Z) (r : Range AllocationBitmap)
    : result ip_error unit * Range AllocationBitmap :=
  if decide (n ≠ net r) then (Err ErrIPMismatchedNetwork, r)
  else (Ok tt, set_range_alloc (Restore (net_String n) data (range_alloc r)).2 r).

Definition NewCIDRRange (net_String : IPNet → string) (cidr : IPNet) : outcome (Range AllocationBitmap) :=
  NewAllocatorCIDRRange net_String cidr NewAllocationMap.

Definition Range_NewFromSnapshot (ParseCIDR : string → result string IPNet) (net_String : IPNet → string)
    (range : string) (data : list Z) : outcome (result string (Range AllocationBitmap)) :=
  match ParseCIDR range with
  | Err err => Ret (Err err)
  | Ok ipnet =>
      r ?<- NewCIDRRange net_String ipnet;
      let '(res, r) := Range_Restore net_String ipnet data r in
      Ret (match res with Err _ => Err "mismatched network" | Ok _ => Ok r end)
  end.

(** ** The addresses of a range *)

(** A network as ParseCIDR gives it: no bits behind the prefix; that the first
    byte is not zero keeps the bytes of an address together. *)
Record net_ok (n : IPNet) : Prop := {
  net_len : length (net_IP n) = 4%nat ∨ length (net_IP n) = 16%nat;
  net_bytes : Forall (λ b, 0 ≤ b < 256) (net_IP n);
  net_first : ∃ b l, net_IP n = b :: l ∧ 0 < b;
  net_ones : 0 ≤ ones n ≤ net_bits n;
  net_prefix : SetBytes (net_IP n) mod 2 ^ host_bits n = 0
}.

Lemma SetBytes_cons b l : SetBytes (b :: l) = b * 256 ^ Z.of_nat (length l) + SetBytes l.
Proof.
  unfold SetBytes. cbn [foldl].
  assert (∀ acc, foldl (λ acc b, acc * 256 + b) acc l
                 = acc * 256 ^ Z.of_nat (length l) + foldl (λ acc b, acc * 256 + b) 0 l) as Hacc.
  { induction l as [|c l IH]; intros acc; [simpl; lia|]. cbn [foldl length].
    rewrite IH, (IH (0 * 256 + c)). rewrite Nat2Z.inj_succ, Z.pow_succ_r by lia. lia. }
  rewrite Hacc. lia.
Qed.

Lemma SetBytes_bounds l : Forall (λ b, 0 ≤ b < 256) l → 0 ≤ SetBytes l < 256 ^ Z.of_nat (length l).
Proof.
  induction 1 as [|b l Hb _ IH]; [done|]. rewrite SetBytes_cons. cbn [length].
  rewrite Nat2Z.inj_succ, Z.pow_succ_r by lia. nia.
Qed.

Lemma big_bytes_fuel f1 f2 n :
  0 ≤ n < 2 ^ Z.of_nat f1 → n < 2 ^ Z.of_nat f2 → big_bytes f1 n [] = big_bytes f2 n [].
Proof.
  assert (∀ f, big_bytes f 0 [] = []) as H0 by (by intros []).
  revert f2 n. induction f1 as [|f1 IH]; intros f2 n H1 H2.
  { assert (n = 0) as -> by (change (2 ^ Z.of_nat 0) with 1 in H1; lia). by rewrite !H0. }
  destruct f2 as [|f2].
  { assert (n = 0) as -> by (change (2 ^ Z.of_nat 0) with 1 in H2; lia). by rewrite !H0. }
  simpl. destruct (decide (n = 0)); [done|].
  rewrite (big_bytes_app f1), (big_bytes_app f2). f_equal.
  apply IH; [by apply div_256_small|]. apply div_256_small. lia.
Qed.

Lemma Bytes_step n : 0 < n → Bytes n = Bytes (n / 256) ++ [n mod 256].
Proof.
  intros Hn. unfold Bytes at 1. replace (Z.to_nat (Z.log2 n) + 1)%nat with (S (Z.to_nat (Z.log2 n))) by lia.
  simpl. rewrite decide_False by lia. rewrite big_bytes_app. f_equal. unfold Bytes.
  assert (0 ≤ n / 256 < 2 ^ Z.of_nat (Z.to_nat (Z.log2 n))) as Hd.
  { apply div_256_small. split; [lia|]. pose proof (log2_fuel n). by replace (S (Z.to_nat (Z.log2 n))) with (Z.to_nat (Z.log2 n) + 1)%nat by lia; auto with lia. }
  apply big_bytes_fuel; [done|]. apply log2_fuel. lia.
Qed.

(** A number between two powers has that many bytes. *)
Lemma length_Bytes k n : 256 ^ Z.of_nat k ≤ n < 256 ^ Z.of_nat (S k) → length (Bytes n) = S k.
Proof.
  revert n. induction k as [|k IH]; intros n Hn.
  - change (256 ^ Z.of_nat 0) with 1 in Hn. change (256 ^ Z.of_nat 1) with 256 in Hn.
    rewrite Bytes_step, Z.div_small by lia. done.
  - rewrite (Nat2Z.inj_succ (S k)), (Z.pow_succ_r _ (Z.of_nat (S k))) in Hn by lia.
    rewrite (Nat2Z.inj_succ k), (Z.pow_succ_r _ (Z.of_nat k)) in Hn by lia.
    rewrite Bytes_step by nia. rewrite length_app, IH; [simpl; lia|].
    rewrite (Nat2Z.inj_succ k), (Z.pow_succ_r _ (Z.of_nat k)) by lia.
    split; [apply Z.div_le_lower_bound; lia|apply Z.div_lt_upper_bound; lia].
Qed.

Lemma Bytes_bytes n : 0 ≤ n → Forall (λ b, 0 ≤ b < 256) (Bytes n).
Proof.
  revert n. apply (Bytes_ind (λ n l, Forall (λ b, 0 ≤ b < 256) l)); [done|].
  intros m b l _ Hb IH. apply Forall_app. split; [done|]. by constructor.
Qed.

(** A number of four bytes, or of sixteen of which the first is not zero, is an
    address; text does not change it. *)
Lemma address_of_number n k :
  (k = 3%nat ∨ k = 15%nat) → 256 ^ Z.of_nat k ≤ n < 256 ^ Z.of_nat (S k) →
  ∀ ip, ip = Bytes n ∨ ip = ParseIP_String (Bytes n) →
  default ip (To4 ip) = Bytes n ∧ bigForIP ip = n.
Proof.
  intros Hk Hn ip Hip. assert (0 ≤ n) as Hn0 by (destruct Hk as [-> | ->]; simpl in *; lia).
  pose proof (length_Bytes k n Hn) as Hlen. pose proof (SetBytes_Bytes n Hn0) as Hset.
  unfold bigForIP. destruct Hk as [-> | ->].
  - assert (To4 ip = Some (Bytes n)) as ->; [|done]. destruct Hip as [->| ->]; unfold To4.
    + by rewrite decide_True.
    + assert (ParseIP_String (Bytes n) = v4InV6Prefix ++ Bytes n) as ->.
      { unfold ParseIP_String, To16. by rewrite decide_True. }
      rewrite decide_False by (rewrite length_app, Hlen; done).
      rewrite decide_True; [done|]. split; [by rewrite length_app, Hlen|done].
  - assert (ip = Bytes n) as ->.
    { destruct Hip as [->| ->]; [done|]. unfold ParseIP_String, To16.
      by rewrite decide_False, decide_True by (by rewrite Hlen). }
    assert (To4 (Bytes n) = None) as ->.
    { unfold To4. rewrite decide_False by (by rewrite Hlen). apply decide_False. intros [_ Hpre].
      pose proof (Bytes_bytes n Hn0) as Hb.
      destruct (Bytes n) as [|b l] eqn:Hbs; [done|]. simpl in Hpre. injection Hpre as -> _.
      apply Forall_cons in Hb as [_ Hb]. pose proof (SetBytes_bounds l Hb) as Hl.
      rewrite SetBytes_cons in Hset. simpl in Hlen. injection Hlen as Hlen. rewrite Hlen in *. lia. }
    unfold To16. rewrite decide_False, decide_True by (by rewrite Hlen). done.
Qed.

Lemma SetBytes_inj l l' :
  Forall (λ b, 0 ≤ b < 256) l → Forall (λ b, 0 ≤ b < 256) l' → length l = length l' →
  SetBytes l = SetBytes l' → l = l'.
Proof.
  intros Hl. revert l'. induction Hl as [|b l Hb Hl IH]; intros l' Hl' Hlen Heq; destruct l' as [|b' l']; try done.
  apply Forall_cons in Hl' as [Hb' Hl']. simpl in Hlen. injection Hlen as Hlen.
  rewrite !SetBytes_cons, <-Hlen in Heq.
  pose proof (SetBytes_bounds l Hl). pose proof (SetBytes_bounds l' Hl') as Hbd. rewrite <-Hlen in Hbd.
  assert (b = b') as -> by nia. f_equal. apply IH; [done..|lia].
Qed.

(** The short form of an address, where it has one. *)
Lemma default_To4 ip :
  Forall (λ b, 0 ≤ b < 256) ip →
  ∃ b, default ip (To4 ip) = b ∧ Forall (λ b, 0 ≤ b < 256) b ∧
    ((length b = 4 ∨ length b = 16)%nat → bigForIP ip = SetBytes b) ∧ ParseIP_String ip = ParseIP_String b.
Proof.
  intros Hip. unfold To4, bigForIP, ParseIP_String, To16, To4.
  destruct (decide (length ip = 4%nat)) as [H4|H4]; [by exists ip; rewrite decide_True|].
  destruct (decide (length ip = 16%nat ∧ take 12 ip = v4InV6Prefix)) as [[H16 Hpre]|Hno].
  - exists (drop 12 ip). simpl. split_and!; [done|by apply Forall_drop|done|].
    rewrite decide_True by done. rewrite decide_True by (rewrite length_drop; lia).
    change (ip = v4InV6Prefix ++ drop 12 ip). by rewrite <-Hpre, take_drop.
  - exists ip. simpl. split_and!; [done..| |].
    + intros [?|H16]; [done|]. by rewrite decide_True.
    + by rewrite (decide_False (P := length ip = 4%nat)).
Qed.

Section laws.
Context (fails : bool) {S : Type} `{!Interface S} (ok : S → Prop) (taken : S → gset Z) (limit : S → Z).
Context `{!AllocatorLaws fails S ok taken limit}.
Local Notation left_with := (left_with fails).

Record range_ok (r : Range S) : Prop := {
  range_alloc_ok : ok (range_alloc r);
  range_limit : limit (range_alloc r) = range_max r;
  range_net : net_ok (net r);
  range_base : base r = SetBytes (net_IP (net r)) + 1;
  range_host : host_bits (net r) < 31;
  range_size : range_max r = Z.max 0 (2 ^ host_bits (net r) - 2)
}.

(** The offsets that are taken. *)
Definition range_taken (r : Range S) : gset Z := taken (range_alloc r).

Definition range_after (r r' : Range S) (T : gset Z) : Prop :=
  range_ok r' ∧ (∀ ip, contains ip r' = contains ip r) ∧ left_with T (range_taken r').

Lemma range_after_set r a T :
  range_ok r → ok a → limit a = limit (range_alloc r) → left_with T (taken a) → range_after r (set_range_alloc a r) T.
Proof. intros [] Ha Hl HT. split_and!; [|done|done]. split; simpl; congruence. Qed.

Lemma range_after_same r : range_ok r → range_after r r (range_taken r).
Proof. intros Hok. split_and!; [done..|]. apply left_with_refl. Qed.

Lemma contains_limit ip r o : range_ok r → contains ip r = Some o → in_limit (limit (range_alloc r)) o.
Proof.
  intros Hok. rewrite (range_limit r Hok). unfold contains, in_limit. destruct (Contains (net r) ip); [|done].
  destruct (decide _); [done|]. intros [= <-]. lia.
Qed.

(** The bounds of the numbers of a network. *)
Lemma net_number r i :
  range_ok r → 0 ≤ i < range_max r →
  ∃ k, (k = 3%nat ∨ k = 15%nat) ∧ length (net_IP (net r)) = Datatypes.S k ∧
    256 ^ Z.of_nat k ≤ base r + i < 256 ^ Z.of_nat (Datatypes.S k) ∧
    (base r + i) / 2 ^ host_bits (net r) = SetBytes (net_IP (net r)) / 2 ^ host_bits (net r).
Proof.
  intros [_ _ [Hlen Hb (b & l & Hbl & Hpos) Hones Hpre] Hbase Hhost Hmax] Hi.
  rewrite Hmax in Hi. rewrite Hbase. set (h := host_bits (net r)) in *. set (N := SetBytes (net_IP (net r))) in *.
  assert (0 ≤ h) by (unfold h, host_bits; lia).
  assert (0 < 2 ^ h) by (apply Z.pow_pos_nonneg; lia).
  assert (N = N / 2 ^ h * 2 ^ h) as HN by (pose proof (Z.div_mod N (2 ^ h)); lia).
  assert (256 ^ Z.of_nat (length (net_IP (net r))) = 2 ^ ones (net r) * 2 ^ h) as Hpow.
  { rewrite <-Z.pow_add_r by lia. change 256 with (2 ^ 8). rewrite <-Z.pow_mul_r by lia.
    unfold h, host_bits, net_bits. f_equal. lia. }
  pose proof (SetBytes_bounds _ Hb) as HNb. fold N in HNb. rewrite Hpow in HNb.
  assert (N / 2 ^ h + 1 ≤ 2 ^ ones (net r)) by nia.
  exists (length l). assert (length (net_IP (net r)) = Datatypes.S (length l)) as Hl by (by rewrite Hbl).
  rewrite <-Hl, Hpow. split_and!; [rewrite Hl in Hlen; lia|done| |nia|].
  - assert (256 ^ Z.of_nat (length l) ≤ N); [|lia]. unfold N. rewrite Hbl, SetBytes_cons.
    rewrite Hbl in Hb. apply Forall_cons in Hb as [_ Hb]. pose proof (SetBytes_bounds l Hb). nia.
  - rewrite HN at 1. replace (N / 2 ^ h * 2 ^ h + 1 + i) with (1 + i + N / 2 ^ h * 2 ^ h) by lia.
    rewrite Z.div_add, Z.div_small by lia. done.
Qed.

(** An address that was handed out is found again, also through its text. *)
Lemma contains_address r i ip :
  range_ok r → in_limit (range_max r) i →
  ip = addIPOffset (base r) i ∨ ip = ParseIP_String (addIPOffset (base r) i) →
  contains ip r = Some i.
Proof.
  intros Hok Hi Hip. unfold in_limit in Hi. destruct (net_number r i Hok Hi) as (k & Hk & Hlen & Hn & Hdiv).
  destruct (address_of_number _ k Hk Hn ip Hip) as [Hdef Hbig].
  assert (0 ≤ base r + i) as Hn0 by (destruct Hk as [-> | ->]; simpl in *; lia).
  unfold contains, Contains, calculateIPOffset. rewrite Hdef, Hbig.
  rewrite (length_Bytes k _ Hn), SetBytes_Bytes by done.
  rewrite !bool_decide_eq_true_2 by done. simpl.
  replace (base r + i - base r) with i by lia. rewrite wrap64_id.
  - rewrite decide_False by lia. done.
  - destruct Hok as [_ _ _ _ Hhost Hmax]. rewrite Hmax in Hi.
    assert (2 ^ host_bits (net r) ≤ 2 ^ 30).
    { destruct (decide (0 ≤ host_bits (net r))); [apply Z.pow_le_mono_r; lia|rewrite Z.pow_neg_r; lia]. }
    unfold is_int64, MinInt64, MaxInt64. lia.
Qed.

(** An address is determined by its offset, up to the length of its form. *)
Lemma contains_key r ip o :
  range_ok r → Forall (λ b, 0 ≤ b < 256) ip → contains ip r = Some o →
  ParseIP_String ip = ParseIP_String (addIPOffset (base r) o).
Proof.
  intros Hok Hip Hc. pose proof (contains_limit _ _ _ Hok Hc) as Hlim. rewrite (range_limit r Hok) in Hlim.
  unfold in_limit in Hlim. destruct (net_number r o Hok Hlim) as (k & Hk & Hlen & Hn & _).
  pose proof Hok as [_ _ [_ _ _ Hones Hpre] Hbase Hhost Hmax].
  unfold contains, Contains, calculateIPOffset in Hc. destruct (default_To4 ip Hip) as (b & Hb & Hbytes & Hbig & Hstr).
  rewrite Hb in Hc. destruct (bool_decide (length b = _)) eqn:Hbl; [|done].
  destruct (bool_decide (_ / _ = _)) eqn:Hdiv; [|done]. simpl in Hc.
  apply bool_decide_eq_true in Hbl, Hdiv. rewrite Hbig in Hc by (rewrite Hbl, Hlen; lia).
  destruct (decide _); [done|]. injection Hc as Ho.
  set (h := host_bits (net r)) in *. set (N := SetBytes (net_IP (net r))) in *.
  assert (0 ≤ h) by (unfold h, host_bits; lia). assert (0 < 2 ^ h ≤ 2 ^ 30) by (split; [lia|apply Z.pow_le_mono_r; lia]).
  assert (SetBytes b = base r + o) as Hnum.
  { pose proof (Z.div_mod N (2 ^ h)). pose proof (Z.div_mod (SetBytes b) (2 ^ h)).
    pose proof (Z.mod_pos_bound (SetBytes b) (2 ^ h)).
    rewrite wrap64_id in Ho; [lia|]. unfold is_int64, MinInt64, MaxInt64. lia. }
  rewrite Hstr. f_equal. unfold addIPOffset. apply SetBytes_inj; [done|apply Bytes_bytes; lia| |].
  - by rewrite (length_Bytes k), Hbl by done.
  - by rewrite SetBytes_Bytes by lia.
Qed.

(** The long form of an address lies in the same places. *)
Lemma contains_parse r ip : range_ok r → contains (ParseIP_String ip) r = contains ip r.
Proof.
  intros Hok. pose proof (net_len _ (range_net r Hok)) as Hlen. unfold ParseIP_String, To16.
  destruct (decide (length ip = 4%nat)) as [H4|H4].
  - simpl. unfold contains, Contains, calculateIPOffset, bigForIP, To4.
    rewrite (decide_True (P := length ip = 4%nat)) by done.
    rewrite (decide_False (P := length (v4InV6Prefix ++ ip) = 4%nat)) by (rewrite length_app, H4; done).
    rewrite (decide_True (P := length (v4InV6Prefix ++ ip) = 16%nat ∧ _)) by (rewrite length_app, H4; done). done.
  - destruct (decide (length ip = 16%nat)) as [H16|H16]; [done|]. simpl.
    assert (∀ l : list Z, length l ≠ 4%nat → length l ≠ 16%nat → contains l r = None) as Hnone; [|rewrite !Hnone; done].
    intros l Hl4 Hl16. unfold contains, Contains, To4. rewrite decide_False, decide_False by tauto. simpl.
    rewrite bool_decide_eq_false_2; [done|]. lia.
Qed.

Lemma Range_Allocate_spec ip r :
  range_ok r →
  ∃ res r', Range_Allocate ip r = (res, r') ∧
    match res with
    | Ok _ => ∃ o, contains ip r = Some o ∧ o ∉ range_taken r ∧ range_after r r' ({[o]} ∪ range_taken r)
    | Err e => (fails = true ∨ contains ip r = None ∧ e = ErrIPNotInRange ∨
                ∃ o, contains ip r = Some o ∧ o ∈ range_taken r ∧ e = ErrIPAllocated) ∧
               range_after r r' (range_taken r)
    end.
Proof.
  intros Hok. unfold Range_Allocate. destruct (contains ip r) as [o|] eqn:Hc.
  2: { eexists _, _. split; [done|]. split; [by auto|by apply range_after_same]. }
  pose proof (contains_limit _ _ _ Hok Hc) as Hin.
  destruct (Allocate_law (range_alloc r) o (range_alloc_ok r Hok) Hin) as (res & a & -> & Ha & Hl & Ht).
  eexists _, _. split; [done|]. destruct res as [[]|e].
  - exists o. destruct Ht. split_and!; [done..|]. by apply range_after_set.
  - destruct Ht as [He Ht]. split; [|by apply range_after_set]. destruct He as [|Ho]; [by left|right; right]. by exists o.
  - destruct Ht as [He Ht]. split; [by left|by apply range_after_set].
Qed.

Lemma Range_AllocateNext_spec rnd r :
  range_ok r →
  ∃ res r', Range_AllocateNext rnd r = (res, r') ∧
    match res with
    | Ok ip => ∃ o, contains ip r = Some o ∧ contains (ParseIP_String ip) r = Some o ∧
                    o ∉ range_taken r ∧ range_after r r' ({[o]} ∪ range_taken r)
    | Err _ => (fails = true ∨ ∀ o, in_limit (range_max r) o → o ∈ range_taken r) ∧ range_after r r' (range_taken r)
    end.
Proof.
  intros Hok. unfold Range_AllocateNext.
  destruct (AllocateNext_law (range_alloc r) rnd (range_alloc_ok r Hok)) as (res & a & -> & Ha & Hl & Hn).
  eexists _, _. split; [done|]. rewrite (range_limit r Hok) in Hn. destruct res as [[i|]|e].
  - destruct Hn as (Hi & Hfree & Ht). exists i.
    split_and!; [by apply contains_address; auto|by apply contains_address; auto|done|].
    by apply range_after_set.
  - destruct Hn as [Hfull Ht]. split; [done|]. by apply range_after_set.
  - destruct Hn as [He Ht]. split; [by left|]. by apply range_after_set.
Qed.

Lemma Range_Release_spec ip r :
  range_ok r →
  ∃ res r', Range_Release ip r = (res, r') ∧ (fails = true ∨ res = Ok tt) ∧
    range_after r r' (match contains ip r with Some o => range_taken r ∖ {[o]} | None => range_taken r end).
Proof.
  intros Hok. unfold Range_Release. destruct (contains ip r) as [o|] eqn:Hc.
  2: { exists (Ok tt), r. split_and!; [done|by right|by apply range_after_same]. }
  destruct (Release_law (range_alloc r) o (range_alloc_ok r Hok)) as (res & a & -> & Ha & Hl & Hres & Ht).
  eexists _, _. split; [done|]. split; [destruct Hres as [| ->]; by auto|]. by apply range_after_set.
Qed.
End laws.
