(* ===== verification/ServiceRest.v ===== *)
(** * Creating, updating and deleting services

    Models Create, Update and Delete of pkg/registry/core/service/rest.go, with
    IsServiceIPSet and IsServiceIPRequested of pkg/api/helpers.go and the
    annotations of pkg/api/service/annotations.go: how services get and give back
    cluster addresses and node ports.  What the registry, the endpoints, the
    validation and the strategy answer is given to the handlers, and so are the
    random numbers and the feature gate.  The handlers' deferred functions run at
    the end of each handler, in the reverse order.

    A cluster address is kept as the address its text parses to, [] when it does
    not parse. *)

From S2P Require Import Prelude Allocator PortAllocator IPAllocator.
Open Scope Z_scope.

(** ** Data *)

Record ServicePort := mkServicePort {
  sp_Name : string;
  Protocol : string;
  Port : Z;
  NodePort : Z
}.

Inductive cluster_ip :=
  | IPUnset
  | ClusterIPNone
  | IPAddress (ip : list Z).

#[export] Instance cluster_ip_eq_dec : EqDecision cluster_ip.
Proof. solve_decision. Defined.

Record Service := mkService {
  svc_Name : string;
  svc_Namespace : string;
  Annotations : gmap string string;
  svc_Type : string;
  ClusterIP : cluster_ip;
  Ports : list ServicePort;
  LoadBalancer : list string
}.

Definition ServiceTypeClusterIP : string := "ClusterIP".
Definition ServiceTypeNodePort : string := "NodePort".
Definition ServiceTypeLoadBalancer : string := "LoadBalancer".
Definition ServiceTypeExternalName : string := "ExternalName".

Definition set_ClusterIP (ip : cluster_ip) (s : Service) : Service :=
  mkService (svc_Name s) (svc_Namespace s) (Annotations s) (svc_Type s) ip (Ports s) (LoadBalancer s).
Definition set_Ports (p : list ServicePort) (s : Service) : Service :=
  mkService (svc_Name s) (svc_Namespace s) (Annotations s) (svc_Type s) (ClusterIP s) p (LoadBalancer s).
Definition set_Annotations (a : gmap string string) (s : Service) : Service :=
  mkService (svc_Name s) (svc_Namespace s) a (svc_Type s) (ClusterIP s) (Ports s) (LoadBalancer s).
Definition set_LoadBalancer (l : list string) (s : Service) : Service :=
  mkService (svc_Name s) (svc_Namespace s) (Annotations s) (svc_Type s) (ClusterIP s) (Ports s) l.
Definition set_Namespace (ns : string) (s : Service) : Service :=
  mkService (svc_Name s) ns (Annotations s) (svc_Type s) (ClusterIP s) (Ports s) (LoadBalancer s).
Definition set_NodePort (np : Z) (p : ServicePort) : ServicePort :=
  mkServicePort (sp_Name p) (Protocol p) (Port p) np.

Definition IsServiceIPSet (s : Service) : bool :=
  bool_decide (ClusterIP s ≠ ClusterIPNone) && bool_decide (ClusterIP s ≠ IPUnset).

Definition IsServiceIPRequested (s : Service) : bool :=
  if decide (svc_Type s = ServiceTypeExternalName) then false else bool_decide (ClusterIP s = IPUnset).

(** [ValidNamespace]: whether the namespace is that of the context, [None] where the
    context has none; a service without a namespace gets that of the context. *)
Definition ValidNamespace (ctx : option string) (s : Service) : bool * Service :=
  let ns := default "" ctx in
  let s := if decide (svc_Namespace s = "") then set_Namespace ns s else s in
  (bool_decide (ns = svc_Namespace s) && bool_decide (is_Some ctx), s).

(** [net.ParseIP(service.Spec.ClusterIP)] *)
Definition parsed_ClusterIP (s : Service) : list Z :=
  match ClusterIP s with IPAddress ip => ip | _ => [] end.

(** ** Annotations *)

Definition AnnotationValueExternalTrafficLocal : string := "OnlyLocal".
Definition AnnotationValueExternalTrafficGlobal : string := "Global".
Definition AlphaAnnotationHealthCheckNodePort : string := "service.alpha.kubernetes.io/healthcheck-nodeport".
Definition AlphaAnnotationExternalTraffic : string := "service.alpha.kubernetes.io/external-traffic".
Definition BetaAnnotationHealthCheckNodePort : string := "service.beta.kubernetes.io/healthcheck-nodeport".
Definition BetaAnnotationExternalTraffic : string := "service.beta.kubernetes.io/external-traffic".

Fixpoint needs_loop (annotations : list string) (a : gmap string string) : bool :=
  match annotations with
  | [] => false
  | annotation :: annotations =>
      match a !! annotation with
      | Some l =>
          if decide (l = AnnotationValueExternalTrafficLocal) then true
          else if decide (l = AnnotationValueExternalTrafficGlobal) then false
          else needs_loop annotations a
      | None => needs_loop annotations a
      end
  end.

Definition NeedsHealthCheck (s : Service) : bool :=
  needs_loop [AlphaAnnotationExternalTraffic; BetaAnnotationExternalTraffic] (Annotations s).

Fixpoint health_port_loop (annotations : list string) (a : gmap string string) : Z :=
  match annotations with
  | [] => 0
  | annotation :: annotations =>
      match a !! annotation with
      | Some l =>
          match ParseInt l with
          | Some p => wrap32 p
          | None => health_port_loop annotations a
          end
      | None => health_port_loop annotations a
      end
  end.

Definition GetServiceHealthCheckNodePort (s : Service) : Z :=
  if NeedsHealthCheck s
  then health_port_loop [AlphaAnnotationHealthCheckNodePort; BetaAnnotationHealthCheckNodePort] (Annotations s)
  else 0.

(** ** Ports of a service *)

(** [contains] of rest.go *)
Definition contains_port (haystack : list Z) (needle : Z) : bool :=
  existsb (λ v, bool_decide (v = needle)) haystack.

Definition CollectServiceNodePorts (s : Service) : list Z :=
  filter (λ p, p ≠ 0) (NodePort <$> Ports s).

Definition shouldAssignNodePorts (s : Service) : bool :=
  if decide (svc_Type s = ServiceTypeLoadBalancer) then true
  else if decide (svc_Type s = ServiceTypeNodePort) then true
  else false.

Definition findRequestedNodePort (port : Z) (servicePorts : list ServicePort) : Z :=
  match List.find (λ sp, bool_decide (port = Port sp) && bool_decide (NodePort sp ≠ 0)) servicePorts with
  | Some sp => NodePort sp
  | None => 0
  end.

Inductive service_error :=
  | ErrInvalid (msg : string)
  | ErrConflict (msg : string)
  | ErrIPAllocation (e : ip_error)
  | ErrIPInvalid (e : ip_error)
  | ErrNodePortInvalid (index : nat) (port : Z) (e : port_error)
  | ErrNodePortAllocation (e : port_error)
  | ErrHealthCheckPort (msg : string)
  | ErrRegistry (msg : string).

Section rest.
Context {S1 S2 : Type} `{!Interface S1, !Interface S2}.
Context (ExternalTrafficLocalOnly : bool).
(** The numbers that [rand.Intn] returns, by the call. *)
Context (rnd : nat → Z).

Definition shouldCheckOrAssignHealthCheckNodePort (s : Service) : bool :=
  if decide (svc_Type s = ServiceTypeLoadBalancer) then ExternalTrafficLocalOnly && NeedsHealthCheck s
  else false.

Record REST := mkREST {
  serviceIPs : Range S1;
  serviceNodePorts : PortAllocator S2
}.

(** *** Create *)

Definition create_ip (service : Service) (ips : Range S1)
    : result service_error (Service * bool) * Range S1 :=
  if IsServiceIPRequested service then
    let '(res, ips) := Range_AllocateNext (rnd 0) ips in
    match res with
    | Err err => (Err (ErrIPAllocation err), ips)
    | Ok ip => (Ok (set_ClusterIP (IPAddress (ParseIP_String ip)) service, true), ips)
    end
  else if IsServiceIPSet service then
    let '(res, ips) := Range_Allocate (parsed_ClusterIP service) ips in
    match res with
    | Err err => (Err (ErrIPInvalid err), ips)
    | Ok _ => (Ok (service, true), ips)
    end
  else (Ok (service, false), ips).

(** The state of the loop over the ports of a service. *)
Record ports_state := mkPortsState {
  ps_ports : list ServicePort;
  svcPortToNodePort : gmap Z Z;
  nodePortOp : portAllocationOperation;
  ps_alloc : PortAllocator S2
}.

(** The port at index [i] gets [np], in the list and in the table. *)
Definition assign_node_port (i : nat) (sp : ServicePort) (np : Z) (op : portAllocationOperation)
    (pa : PortAllocator S2) (st : ports_state) : ports_state :=
  mkPortsState (<[i := set_NodePort (wrap32 np) sp]> (ps_ports st))
    (<[Port sp := np]> (svcPortToNodePort st)) op pa.

Definition create_port (assignNodePorts : bool) (i : nat) (sp : ServicePort) (st : ports_state)
    : option service_error * ports_state :=
  let allocatedNodePort := default 0 (svcPortToNodePort st !! Port sp) in
  if decide (allocatedNodePort = 0) then
    let np := findRequestedNodePort (Port sp) (ps_ports st) in
    if decide (np ≠ 0) then
      let '(res, op, pa) := Op_Allocate np (nodePortOp st) (ps_alloc st) in
      match res with
      | Err err => (Some (ErrNodePortInvalid i np err), mkPortsState (ps_ports st) (svcPortToNodePort st) op pa)
      | Ok _ => (None, assign_node_port i sp np op pa st)
      end
    else if assignNodePorts then
      let '(res, op, pa) := Op_AllocateNext (rnd (1 + i)) (nodePortOp st) (ps_alloc st) in
      match res with
      | Err err => (Some (ErrNodePortAllocation err), mkPortsState (ps_ports st) (svcPortToNodePort st) op pa)
      | Ok nodePort => (None, assign_node_port i sp nodePort op pa st)
      end
    else (None, st)
  else if decide (NodePort sp ≠ allocatedNodePort) then
    if decide (NodePort sp = 0) then
      (None, mkPortsState (<[i := set_NodePort (wrap32 allocatedNodePort) sp]> (ps_ports st))
               (svcPortToNodePort st) (nodePortOp st) (ps_alloc st))
    else
      let '(res, op, pa) := Op_Allocate (NodePort sp) (nodePortOp st) (ps_alloc st) in
      (match res with Err err => Some (ErrNodePortInvalid i (NodePort sp) err) | Ok _ => None end,
       mkPortsState (ps_ports st) (svcPortToNodePort st) op pa)
  else (None, st).

Fixpoint create_ports (assignNodePorts : bool) (indices : list nat) (st : ports_state)
    : option service_error * ports_state :=
  match indices with
  | [] => (None, st)
  | i :: indices =>
      match ps_ports st !! i with
      | None => create_ports assignNodePorts indices st
      | Some sp =>
          let '(err, st) := create_port assignNodePorts i sp st in
          match err with
          | Some _ => (err, st)
          | None => create_ports assignNodePorts indices st
          end
      end
  end.

Definition create_health_check (service : Service) (op : portAllocationOperation) (pa : PortAllocator S2)
    : result service_error Service * portAllocationOperation * PortAllocator S2 :=
  if shouldCheckOrAssignHealthCheckNodePort service then
    match Annotations service !! BetaAnnotationHealthCheckNodePort with
    | Some l =>
        match ParseInt l with
        | None => (Err (ErrHealthCheckPort "Failed to parse annotation"), op, pa)
        | Some healthCheckNodePort =>
            if decide (healthCheckNodePort <= 0)
            then (Err (ErrHealthCheckPort "Failed to parse annotation"), op, pa)
            else
              let '(res, op, pa) := Op_Allocate healthCheckNodePort op pa in
              (match res with
               | Err err => Err (ErrNodePortAllocation err)
               | Ok _ => Ok service
               end, op, pa)
        end
    | None =>
        let '(res, op, pa) := Op_AllocateNext (rnd (1 + length (Ports service))) op pa in
        (match res with
         | Err err => Err (ErrNodePortAllocation err)
         | Ok p => Ok (set_Annotations (<[BetaAnnotationHealthCheckNodePort := FormatInt p]> (Annotations service)) service)
         end, op, pa)
    end
  else (Ok service, op, pa).

(** The deferred functions of Create: Finish, then the release of the address. *)
Definition create_deferred (releaseServiceIP : bool) (service : Service) (op : portAllocationOperation)
    (ips : Range S1) (pa : PortAllocator S2) : REST :=
  let pa := Op_Finish op pa in
  let ips :=
    if releaseServiceIP then
      if IsServiceIPSet service then (Range_Release (parsed_ClusterIP service) ips).2 else ips
    else ips in
  mkREST ips pa.

Definition Create (BeforeCreate : Service → result string Service) (CreateService : Service → result string Service)
    (service : Service) (rs : REST) : result service_error Service * REST :=
  match BeforeCreate service with
  | Err err => (Err (ErrInvalid err), rs)
  | Ok service =>
      let op := StartOperation in
      let '(res, ips) := create_ip service (serviceIPs rs) in
      match res with
      | Err err => (Err err, create_deferred false service op ips (serviceNodePorts rs))
      | Ok (service, releaseServiceIP) =>
          let '(err, st) :=
            create_ports (shouldAssignNodePorts service) (seq 0 (length (Ports service)))
              (mkPortsState (Ports service) ∅ op (serviceNodePorts rs)) in
          let service := set_Ports (ps_ports st) service in
          match err with
          | Some err => (Err err, create_deferred releaseServiceIP service (nodePortOp st) ips (ps_alloc st))
          | None =>
              let '(res, op, pa) := create_health_check service (nodePortOp st) (ps_alloc st) in
              match res with
              | Err err => (Err err, create_deferred releaseServiceIP service op ips pa)
              | Ok service =>
                  match CreateService service with
                  | Err err => (Err (ErrRegistry err), create_deferred releaseServiceIP service op ips pa)
                  | Ok out =>
                      let '(_, op, pa) := Op_Commit op pa in
                      (Ok out, create_deferred false service op ips pa)
                  end
              end
          end
      end
  end.

(** *** Delete *)

(** [None]: the endpoints are gone or were not there. *)
Definition Delete (GetService : result string Service) (DeleteService : result string unit)
    (DeleteEndpoints : option string) (rs : REST) : result service_error unit * REST :=
  match GetService with
  | Err err => (Err (ErrRegistry err), rs)
  | Ok service =>
      match DeleteService with
      | Err err => (Err (ErrRegistry err), rs)
      | Ok _ =>
          match DeleteEndpoints with
          | Some err => (Err (ErrRegistry err), rs)
          | None =>
              let ips :=
                if IsServiceIPSet service then (Range_Release (parsed_ClusterIP service) (serviceIPs rs)).2
                else serviceIPs rs in
              let '(_, pa) := release_loop (CollectServiceNodePorts service) (serviceNodePorts rs) in
              let pa :=
                if shouldCheckOrAssignHealthCheckNodePort service then
                  let nodePort := GetServiceHealthCheckNodePort service in
                  if decide (nodePort > 0) then (Port_Release nodePort pa).2 else pa
                else pa in
              (Ok tt, mkREST ips pa)
          end
      end
  end.
(** *** Update *)

(** The state of the loop over the ports, with the ports of the new service. *)
Record update_state := mkUpdateState {
  us_ports : list ServicePort;
  newNodePorts : list Z;
  us_op : portAllocationOperation;
  us_alloc : PortAllocator S2
}.

(** How the loop may be left. *)
Inductive update_abort :=
  | Returned (e : service_error)
  | Panicked (msg : string).

(** The code panics when a node port is there twice. *)
Definition record_node_port (nodePort : Z) (ports : list ServicePort) (op : portAllocationOperation)
    (pa : PortAllocator S2) (st : update_state) : option update_abort * update_state :=
  if contains_port (newNodePorts st) nodePort
  then (Some (Panicked "duplicate node port"), mkUpdateState ports (newNodePorts st) op pa)
  else (None, mkUpdateState ports (newNodePorts st ++ [nodePort]) op pa).

Definition update_port (oldNodePorts : list Z) (i : nat) (sp : ServicePort) (st : update_state)
    : option update_abort * update_state :=
  let nodePort := NodePort sp in
  if decide (nodePort ≠ 0) then
    if contains_port oldNodePorts nodePort
    then record_node_port nodePort (us_ports st) (us_op st) (us_alloc st) st
    else
      let '(res, op, pa) := Op_Allocate nodePort (us_op st) (us_alloc st) in
      match res with
      | Err err => (Some (Returned (ErrNodePortInvalid i nodePort err)),
                    mkUpdateState (us_ports st) (newNodePorts st) op pa)
      | Ok _ => record_node_port nodePort (us_ports st) op pa st
      end
  else
    let '(res, op, pa) := Op_AllocateNext (rnd (1 + i)) (us_op st) (us_alloc st) in
    match res with
    | Err err => (Some (Returned (ErrNodePortAllocation err)),
                  mkUpdateState (us_ports st) (newNodePorts st) op pa)
    | Ok nodePort =>
        record_node_port nodePort (<[i := set_NodePort (wrap32 nodePort) sp]> (us_ports st)) op pa st
    end.

Fixpoint update_ports (oldNodePorts : list Z) (indices : list nat) (st : update_state)
    : option update_abort * update_state :=
  match indices with
  | [] => (None, st)
  | i :: indices =>
      match us_ports st !! i with
      | None => update_ports oldNodePorts indices st
      | Some sp =>
          let '(abort, st) := update_port oldNodePorts i sp st in
          match abort with
          | Some _ => (abort, st)
          | None => update_ports oldNodePorts indices st
          end
      end
  end.

(** The loop that defers the release of old node ports. *)
Definition defer_releases (oldNodePorts newPorts : list Z) (op : portAllocationOperation)
    : portAllocationOperation :=
  foldl (λ op oldNodePort,
    if contains_port newPorts oldNodePort then Op_ReleaseDeferred oldNodePort op else op) op oldNodePorts.

(** The health check port is taken and given back outside of the operation. *)
Definition healthCheckNodePortUpdate (oldService service : Service) (pa : PortAllocator S2)
    : result service_error Service * PortAllocator S2 :=
  let oldServiceHasHealthCheckNodePort := shouldCheckOrAssignHealthCheckNodePort oldService in
  let oldHealthCheckNodePort := GetServiceHealthCheckNodePort oldService in
  let assignHealthCheckNodePort := shouldCheckOrAssignHealthCheckNodePort service in
  let requestedHealthCheckNodePort := GetServiceHealthCheckNodePort service in
  match oldServiceHasHealthCheckNodePort, assignHealthCheckNodePort with
  | false, true =>
      if decide (requestedHealthCheckNodePort > 0) then
        let '(res, pa) := Port_Allocate requestedHealthCheckNodePort pa in
        (match res with Err err => Err (ErrNodePortAllocation err) | Ok _ => Ok service end, pa)
      else
        let '(res, pa) := Port_AllocateNext (rnd (1 + length (Ports service))) pa in
        (match res with
         | Err err => Err (ErrNodePortAllocation err)
         | Ok p => Ok (set_Annotations (<[BetaAnnotationHealthCheckNodePort := FormatInt p]> (Annotations service)) service)
         end, pa)
  | true, false =>
      let '(res, pa) := Port_Release oldHealthCheckNodePort pa in
      (match res with
       | Err err => Err (ErrNodePortAllocation err)
       | Ok _ => Ok (set_Annotations (delete AlphaAnnotationHealthCheckNodePort
                       (delete BetaAnnotationHealthCheckNodePort (Annotations service))) service)
       end, pa)
  | false, false =>
      match Annotations service !! BetaAnnotationHealthCheckNodePort with
      | Some _ => (Err (ErrHealthCheckPort "Cannot insert healthcheck nodePort annotation"), pa)
      | None => (Ok service, pa)
      end
  | true, true =>
      match Annotations service !! BetaAnnotationHealthCheckNodePort with
      | None => (Err (ErrHealthCheckPort "Cannot delete healthcheck nodePort annotation"), pa)
      | Some _ =>
          if decide (oldHealthCheckNodePort ≠ requestedHealthCheckNodePort)
          then (Err (ErrHealthCheckPort "Cannot change healthcheck nodePort during update"), pa)
          else (Ok service, pa)
      end
  end.

(** The deferred function runs also when the handler panics. *)
Definition Update (ctx : option string) (GetService : result string Service) (UpdatedObject : Service → result string Service)
    (ValidateServiceUpdate : Service → Service → option string) (UpdateService : Service → result string Service)
    (rs : REST) : outcome (result service_error Service) * REST :=
  match GetService with
  | Err err => (Ret (Err (ErrRegistry err)), rs)
  | Ok oldService =>
      match UpdatedObject oldService with
      | Err err => (Ret (Err (ErrRegistry err)), rs)
      | Ok service =>
          let '(valid, service) := ValidNamespace ctx service in
          if negb valid then (Ret (Err (ErrConflict "Service.Namespace does not match the provided context")), rs) else
          match ValidateServiceUpdate service oldService with
          | Some err => (Ret (Err (ErrInvalid err)), rs)
          | None =>
              let oldNodePorts := CollectServiceNodePorts oldService in
              let st0 := mkUpdateState (Ports service) [] StartOperation (serviceNodePorts rs) in
              let finish res op pa := (res, mkREST (serviceIPs rs) (Op_Finish op pa)) in
              let loop :=
                if shouldAssignNodePorts service
                then update_ports oldNodePorts (seq 0 (length (Ports service))) st0
                else (None, st0) in
              match loop with
              | (Some (Panicked msg), st) => finish (Panic msg) (us_op st) (us_alloc st)
              | (Some (Returned err), st) => finish (Ret (Err err)) (us_op st) (us_alloc st)
              | (None, st) =>
                  let service := set_Ports (us_ports st) service in
                  let op := defer_releases oldNodePorts (newNodePorts st) (us_op st) in
                  let service :=
                    if decide (svc_Type service ≠ ServiceTypeLoadBalancer)
                    then set_LoadBalancer [] service else service in
                  let '(res, pa) := healthCheckNodePortUpdate oldService service (us_alloc st) in
                  match res with
                  | Err err => finish (Ret (Err err)) op pa
                  | Ok service =>
                      match UpdateService service with
                      | Err err => finish (Ret (Err (ErrRegistry err))) op pa
                      | Ok out =>
                          let '(_, op, pa) := Op_Commit op pa in
                          finish (Ret (Ok out)) op pa
                      end
                  end
              end
          end
      end
  end.
End rest.
Arguments REST S1 S2 : clear implicits.

(** ** What the handlers do to the allocators *)

Section handlers.
Context {S1 S2 : Type} `{!Interface S1, !Interface S2}.
(** Whether the calls of the allocators may fail. *)
Context (fails : bool).
Context (ok1 : S1 → Prop) (taken1 : S1 → gset Z) (limit1 : S1 → Z) `{!AllocatorLaws fails S1 ok1 taken1 limit1}.
Context (ok2 : S2 → Prop) (taken2 : S2 → gset Z) (limit2 : S2 → Z) `{!AllocatorLaws fails S2 ok2 taken2 limit2}.
Context (ExternalTrafficLocalOnly : bool) (rnd : nat → Z).

Local Notation range_ok := (range_ok ok1 limit1).
Local Notation range_taken := (range_taken taken1).
Local Notation range_after := (range_after fails ok1 taken1 limit1).
Local Notation port_ok := (port_ok ok2 limit2).
Local Notation ports_taken := (ports_taken taken2).
Local Notation port_after := (port_after fails ok2 taken2 limit2).
Local Notation op_under_way := (op_under_way fails ok2 taken2 limit2).
Local Notation create_ports := (create_ports rnd).
Local Notation create_port := (create_port rnd).
Local Notation Create := (Create ExternalTrafficLocalOnly rnd).

Record rest_ok (rs : REST S1 S2) : Prop := {
  rest_ips : range_ok (serviceIPs rs);
  rest_ports : port_ok (serviceNodePorts rs);
  rest_port_range : 0 < Base (portRange (serviceNodePorts rs)) ∧
                    Base (portRange (serviceNodePorts rs)) + Size (portRange (serviceNodePorts rs)) ≤ 65536
}.

Lemma valid_node_port (r : PortAllocator S2) p :
  0 < Base (portRange r) ∧ Base (portRange r) + Size (portRange r) ≤ 65536 →
  valid_port (portRange r) p → p ≠ 0 ∧ wrap32 p = p.
Proof. unfold valid_port. intros ??. split; [lia|]. apply wrap32_id. unfold is_int32. lia. Qed.

Lemma findRequested_none port ports sp :
  findRequestedNodePort port ports = 0 → sp ∈ ports → Port sp = port → NodePort sp = 0.
Proof.
  unfold findRequestedNodePort. intros Hf Hin Hp.
  destruct (List.find _ ports) as [sp'|] eqn:Hfind.
  - apply List.find_some in Hfind as [_ Hb]. rewrite Hf in Hb.
    by rewrite (bool_decide_eq_false_2 (0 ≠ 0)), andb_false_r in Hb by tauto.
  - apply list_elem_of_In, (List.find_none _ _ Hfind) in Hin. rewrite Hp in Hin.
    rewrite bool_decide_eq_true_2 in Hin by done. simpl in Hin. by apply bool_decide_eq_false, dec_stable in Hin.
Qed.

(** *** The loop over the ports *)

(** What was allocated are the node ports of the services's ports so far. *)
Record ports_inv (r0 : PortAllocator S2) (i : nat) (st : @ports_state S2) : Prop := {
  pi_op : op_under_way r0 (nodePortOp st) (ps_alloc st);
  pi_deferred : releaseDeferred (nodePortOp st) = [];
  pi_table port np : svcPortToNodePort st !! port = Some np → np ∈ op_allocated (nodePortOp st);
  pi_ports p : p ∈ op_allocated (nodePortOp st) ↔
    p ≠ 0 ∧ ∃ j sp, (j < i)%nat ∧ ps_ports st !! j = Some sp ∧ NodePort sp = p
}.

Section loop.
Context (r0 : PortAllocator S2).
Hypothesis Hrange : 0 < Base (portRange r0) ∧ Base (portRange r0) + Size (portRange r0) ≤ 65536.

Lemma pi_valid i st p : ports_inv r0 i st → p ∈ op_allocated (nodePortOp st) → p ≠ 0 ∧ wrap32 p = p.
Proof.
  intros Hinv Hp. apply (valid_node_port r0); [done|]. destruct (pi_op _ _ _ Hinv) as [(Hok & Hr & Ht) _].
  rewrite <-Hr. eapply (ports_taken_valid fails ok2 taken2 limit2); [done|].
  apply (left_with_sub _ _ _ Ht). set_solver.
Qed.

(** One more port, with a node port that was allocated before or just now. *)
Lemma ports_inv_step i st sp np op pa table ports' :
  ports_inv r0 i st → ps_ports st !! i = Some sp →
  op_under_way r0 op pa → releaseDeferred op = [] →
  (op_allocated op = op_allocated (nodePortOp st) ∧ np ∈ op_allocated (nodePortOp st) ∨
   op_allocated op = op_allocated (nodePortOp st) ++ [np]) →
  np ≠ 0 →
  (∀ port q, table !! port = Some q → q ∈ op_allocated op) →
  ports' = <[i := set_NodePort np sp]> (ps_ports st) →
  ports_inv r0 (S i) (mkPortsState ports' table op pa).
Proof.
  intros [_ _ _ Hports] Hsp Hop Hdef Hal Hnp Htable ->. split; simpl; [done..|].
  assert ((<[i:=set_NodePort np sp]> (ps_ports st)) !! i = Some (set_NodePort np sp)) as Hi.
  { apply list_lookup_insert_eq. by eapply lookup_lt_Some. }
  assert (∀ j, (j < i)%nat → (<[i:=set_NodePort np sp]> (ps_ports st)) !! j = ps_ports st !! j) as Hj.
  { intros j Hlt. apply list_lookup_insert_ne. lia. }
  intros p. split.
  - intros Hp.
    assert (p ∈ op_allocated (nodePortOp st) ∨ p = np) as [Hold| ->].
    { destruct Hal as [[Heq _]|Heq]; rewrite Heq in Hp; set_solver. }
    + apply Hports in Hold as (? & j & sp' & Hlt & Hl & Hn). split; [done|].
      exists j, sp'. rewrite Hj by done. split_and!; [lia|done..].
    + split; [done|]. exists i, (set_NodePort np sp). split_and!; [lia|done|done].
  - intros (Hp0 & j & sp' & Hlt & Hl & <-). destruct (decide (j = i)) as [->|Hne].
    + rewrite Hi in Hl. simplify_eq/=. destruct Hal as [[-> ?]| ->]; set_solver.
    + rewrite Hj in Hl by lia.
      assert (NodePort sp' ∈ op_allocated (nodePortOp st)) as Hin.
      { apply Hports. split; [done|]. exists j, sp'. split_and!; [lia|done..]. }
      destruct Hal as [[-> _]| ->]; set_solver.
Qed.

Lemma set_NodePort_same sp : set_NodePort (NodePort sp) sp = sp.
Proof. by destruct sp. Qed.

Lemma ports_inv_skip i st sp :
  ports_inv r0 i st → ps_ports st !! i = Some sp → NodePort sp = 0 → ports_inv r0 (S i) st.
Proof.
  intros [Hop Hd Ht Hports] Hsp H0. split; [done..|]. intros p. rewrite Hports. split.
  - intros (? & j & sp' & ? & ? & ?). split; [done|]. exists j, sp'. split_and!; [lia|done..].
  - intros (Hp & j & sp' & Hlt & Hl & Hn). split; [done|]. exists j, sp'. split_and!; [|done..].
    destruct (decide (j = i)) as [->|]; [|lia]. simplify_eq; congruence.
Qed.

Lemma create_port_inv assign i sp st :
  ports_inv r0 i st → ps_ports st !! i = Some sp →
  let '(err, st') := create_port assign i sp st in
  length (ps_ports st') = length (ps_ports st) ∧
  op_under_way r0 (nodePortOp st') (ps_alloc st') ∧ (err = None → ports_inv r0 (S i) st').
Proof.
  intros Hinv Hsp. pose proof Hinv as [Hop Hdef Htable Hports]. unfold create_port.
  destruct (svcPortToNodePort st !! Port sp) as [np0|] eqn:Hmap; cbn [default from_option].
  - pose proof (Htable _ _ Hmap) as Hin. destruct (pi_valid _ _ _ Hinv Hin) as [Hne Hwrap].
    unfold id. rewrite decide_False by done.
    destruct (decide (NodePort sp ≠ np0)) as [Hdiff|Hsame].
    2: { apply dec_stable in Hsame. split_and!; [done..|]. intros _. destruct st as [ports table op pa].
         eapply (ports_inv_step i _ sp np0); simpl in *; eauto. rewrite <-Hsame, set_NodePort_same.
         by rewrite list_insert_id. }
    destruct (decide (NodePort sp = 0)) as [H0|Hn0].
    + split_and!; [apply length_insert|done|]. intros _. rewrite Hwrap.
      eapply (ports_inv_step i st sp np0); eauto.
    + destruct (Op_Allocate_spec fails ok2 taken2 limit2 r0 (NodePort sp) _ _ Hop)
        as (res & op' & pa' & -> & Hop' & Hd' & Hres).
      split_and!; [done|done|]. destruct res as [u|e]; [|done]. intros _. destruct Hres as [Hv Hal].
      eapply (ports_inv_step i st sp (NodePort sp)); eauto; [congruence| |by rewrite set_NodePort_same, list_insert_id].
      intros port q Hq. rewrite Hal. apply elem_of_app. left. eauto.
  - unfold id. rewrite decide_True by done. set (np := findRequestedNodePort _ _).
    destruct (decide (np ≠ 0)) as [Hn|Hn].
    + destruct (Op_Allocate_spec fails ok2 taken2 limit2 r0 np _ _ Hop) as (res & op' & pa' & -> & Hop' & Hd' & Hres).
      destruct res as [u|e]; simpl; [|done]. destruct Hres as [Hv Hal].
      split_and!; [apply length_insert|done|]. intros _. unfold assign_node_port.
      destruct (valid_node_port r0 np Hrange Hv) as [_ ->].
      eapply (ports_inv_step i st sp np); eauto; [congruence|].
      intros port q. rewrite Hal. rewrite lookup_insert_Some. intros [[_ <-]|[_ Hq]]; [set_solver|].
      apply elem_of_app. left. eauto.
    + destruct assign.
      * destruct (Op_AllocateNext_spec fails ok2 taken2 limit2 r0 (rnd (1 + i)) _ _ Hop)
          as (res & op' & pa' & -> & Hop' & Hd' & Hres).
        destruct res as [p|e]; simpl; [|done]. destruct Hres as [Hv Hal].
        destruct (valid_node_port r0 p Hrange Hv) as [Hp0 Hw].
        split_and!; [apply length_insert|done|]. intros _. unfold assign_node_port. rewrite Hw.
        eapply (ports_inv_step i st sp p); eauto; [congruence|].
        intros port q. rewrite Hal. rewrite lookup_insert_Some. intros [[_ <-]|[_ Hq]]; [set_solver|].
        apply elem_of_app. left. eauto.
      * split_and!; [done..|]. intros _. apply dec_stable in Hn. eapply ports_inv_skip; [done..|].
        eapply findRequested_none; [exact Hn| |done]. by eapply list_elem_of_lookup_2.
Qed.

Lemma create_ports_inv assign n i st :
  ports_inv r0 i st → (i + n = length (ps_ports st))%nat →
  let '(err, st') := create_ports assign (seq i n) st in
  length (ps_ports st') = length (ps_ports st) ∧
  op_under_way r0 (nodePortOp st') (ps_alloc st') ∧ (err = None → ports_inv r0 (i + n) st').
Proof.
  revert i st. induction n as [|n IH]; intros i st Hinv Hlen; simpl.
  { split_and!; [done|apply Hinv|]. intros _. by rewrite Nat.add_0_r. }
  destruct (ps_ports st !! i) as [sp|] eqn:Hsp; [|apply lookup_ge_None in Hsp; lia].
  pose proof (create_port_inv assign i sp st Hinv Hsp) as Hstep.
  destruct (create_port assign i sp st) as [err st1]. destruct Hstep as (Hl & Hop & Hinv1).
  destruct err as [e|]; [by split_and!|].
  specialize (IH (S i) st1 (Hinv1 eq_refl)). destruct (create_ports assign (seq (S i) n) st1) as [err st2].
  destruct IH as (Hl2 & Hop2 & Hinv2); [lia|]. split_and!; [congruence|done|].
  replace (i + S n)%nat with (S i + n)%nat by lia. done.
Qed.

Lemma ports_inv_start ports : port_ok r0 → ports_inv r0 0 (mkPortsState ports ∅ StartOperation r0).
Proof.
  intros Hok. split; simpl; [by apply (StartOperation_under_way fails ok2 taken2 limit2)|done| |].
  - intros port np. by rewrite lookup_empty.
  - intros p. split; [by intros ?%elem_of_nil|]. intros (_ & j & sp & ? & _). lia.
Qed.

(** At the end what was allocated are all node ports. *)
Lemma ports_inv_end st service :
  ports_inv r0 (length (ps_ports st)) st →
  ∀ p, p ∈ op_allocated (nodePortOp st) ↔ p ∈ CollectServiceNodePorts (set_Ports (ps_ports st) service).
Proof.
  intros Hinv p. rewrite (pi_ports _ _ _ Hinv). unfold CollectServiceNodePorts. simpl.
  rewrite list_elem_of_filter, list_elem_of_fmap. split.
  - intros (Hp & j & sp & _ & Hl & <-). split; [done|]. exists sp. split; [done|].
    by eapply list_elem_of_lookup_2.
  - intros (Hp & sp & -> & Hin). split; [done|]. apply list_elem_of_lookup in Hin as [j Hj].
    exists j, sp. split_and!; [by eapply lookup_lt_Some|done..].
Qed.
End loop.

(** *** The health check port *)

Definition health_ports (service : Service) : list Z :=
  if shouldCheckOrAssignHealthCheckNodePort ExternalTrafficLocalOnly service then
    option_list (Annotations service !! BetaAnnotationHealthCheckNodePort ≫= ParseInt)
  else [].

Lemma needs_loop_insert keys a k v : k ∉ keys → needs_loop keys (<[k := v]> a) = needs_loop keys a.
Proof.
  induction keys as [|key keys IH]; intros Hk; simpl; [done|].
  apply not_elem_of_cons in Hk as [Hne Hk]. rewrite lookup_insert_ne by done. by rewrite IH.
Qed.

Lemma create_health_check_spec r0 service op pa :
  0 < Base (portRange r0) ∧ Base (portRange r0) + Size (portRange r0) ≤ 65536 →
  op_under_way r0 op pa → releaseDeferred op = [] →
  ∃ res op' pa', create_health_check ExternalTrafficLocalOnly rnd service op pa = (res, op', pa') ∧
    op_under_way r0 op' pa' ∧ releaseDeferred op' = [] ∧
    match res with
    | Ok service' => op_allocated op' = op_allocated op ++ health_ports service' ∧
        ClusterIP service' = ClusterIP service ∧ Ports service' = Ports service
    | Err _ => True
    end.
Proof.
  intros Hrange Hop Hdef. unfold create_health_check, health_ports.
  destruct (shouldCheckOrAssignHealthCheckNodePort _ service) eqn:Hshould.
  2: { eexists _, _, _. split; [done|]. split_and!; try done. by rewrite Hshould, app_nil_r. }
  destruct (Annotations service !! BetaAnnotationHealthCheckNodePort) as [l|] eqn:Hl.
  - destruct (ParseInt l) as [hp|] eqn:Hp; [|eexists _, _, _; done].
    destruct (decide (hp <= 0)); [eexists _, _, _; done|].
    destruct (Op_Allocate_spec fails ok2 taken2 limit2 r0 hp _ _ Hop) as (res & op' & pa' & -> & Hop' & Hd & Hres).
    eexists _, _, _. split; [done|]. split_and!; [done|congruence|]. destruct res as [u|]; [|done].
    rewrite Hshould, Hl. simpl. rewrite Hp. simpl. tauto.
  - destruct (Op_AllocateNext_spec fails ok2 taken2 limit2 r0 (rnd (1 + length (Ports service))) _ _ Hop)
      as (res & op' & pa' & -> & Hop' & Hd & Hres).
    eexists _, _, _. split; [done|]. split_and!; [done|congruence|]. destruct res as [hp|]; [|done].
    destruct Hres as [Hv Hal]. split; [|done].
    assert (shouldCheckOrAssignHealthCheckNodePort ExternalTrafficLocalOnly
              (set_Annotations (<[BetaAnnotationHealthCheckNodePort:=FormatInt hp]> (Annotations service)) service) = true) as ->.
    { rewrite <-Hshould. unfold shouldCheckOrAssignHealthCheckNodePort, NeedsHealthCheck, set_Annotations.
      cbn [svc_Type Annotations].
      rewrite needs_loop_insert; [done|]. rewrite !not_elem_of_cons. split_and!; [done..|apply not_elem_of_nil]. }
    simpl. rewrite lookup_insert_eq. simpl. rewrite ParseInt_FormatInt_nonneg; [done| |];
      unfold valid_port in Hv; [lia|]. unfold is_int64, MinInt64, MaxInt64. lia.
Qed.

(** *** Create *)

Lemma create_ip_spec service ips :
  range_ok ips →
  ∃ res ips', create_ip rnd service ips = (res, ips') ∧
    match res with
    | Err _ => range_after ips ips' (range_taken ips)
    | Ok (service', release) =>
        Ports service' = Ports service ∧ svc_Type service' = svc_Type service ∧
        release = IsServiceIPSet service' ∧
        if IsServiceIPSet service' then
          ∃ o, contains (parsed_ClusterIP service') ips = Some o ∧ o ∉ range_taken ips ∧
               range_after ips ips' ({[o]} ∪ range_taken ips)
        else range_after ips ips' (range_taken ips)
    end.
Proof.
  intros Hok. unfold create_ip. destruct (IsServiceIPRequested service) eqn:Hreq.
  - destruct (Range_AllocateNext_spec fails ok1 taken1 limit1 (rnd 0) ips Hok) as (res & ips' & -> & Hres).
    destruct res as [ip|e]; (eexists _, _; split; [done|]); [|apply Hres].
    destruct Hres as (o & _ & Hc & Hfree & Ha). split_and!; try done. exists o. done.
  - destruct (IsServiceIPSet service) eqn:Hset.
    + destruct (Range_Allocate_spec fails ok1 taken1 limit1 (parsed_ClusterIP service) ips Hok) as (res & ips' & -> & Hres).
      destruct res as [u|e]; (eexists _, _; split; [done|]); [|apply Hres]. simpl. rewrite Hset. by split_and!.
    + eexists _, _. split; [done|]. simpl. rewrite Hset. split_and!; [done..|]. by apply range_after_same.
Qed.

(** The allocators after a request: nothing is free that was taken, and where no
    call fails nothing changed. *)
Definition rest_same (rs rs' : REST S1 S2) : Prop :=
  range_after (serviceIPs rs) (serviceIPs rs') (range_taken (serviceIPs rs)) ∧
  port_after (serviceNodePorts rs) (serviceNodePorts rs') (ports_taken (serviceNodePorts rs)).

(** The deferred functions undo what was done so far. *)
Lemma create_deferred_undo rs service op ips pa :
  rest_ok rs → op_under_way (serviceNodePorts rs) op pa →
  (if IsServiceIPSet service then
     ∃ o, contains (parsed_ClusterIP service) (serviceIPs rs) = Some o ∧ o ∉ range_taken (serviceIPs rs) ∧
          range_after (serviceIPs rs) ips ({[o]} ∪ range_taken (serviceIPs rs))
   else range_after (serviceIPs rs) ips (range_taken (serviceIPs rs))) →
  rest_same rs (create_deferred (IsServiceIPSet service) service op ips pa).
Proof.
  intros Hok Hop Hip. unfold create_deferred. split; simpl; [|by apply Op_Finish_spec].
  destruct (IsServiceIPSet service); [|done]. destruct Hip as (o & Hc & Hfree & Hok' & Hsame & Ht).
  destruct (Range_Release_spec fails ok1 taken1 limit1 (parsed_ClusterIP service) ips Hok') as (res & ips' & -> & _ & Hok'' & Hsame' & Ht').
  simpl. rewrite Hsame, Hc in Ht'. split_and!; [done|intros ip; by rewrite Hsame'|].
  apply (left_with_difference _ {[o]}) in Ht.
  replace (({[o]} ∪ range_taken (serviceIPs rs)) ∖ {[o]}) with (range_taken (serviceIPs rs)) in Ht by set_solver.
  by eapply left_with_trans.
Qed.

Lemma Create_spec (BeforeCreate CreateService : Service → result string Service)
    (service : Service) (rs : REST S1 S2) :
  rest_ok rs → (∀ s out, CreateService s = Ok out → out = s) →
  let '(res, rs') := Create BeforeCreate CreateService service rs in
  match res with
  | Err _ => rest_same rs rs'
  | Ok svc =>
      (if IsServiceIPSet svc then
         ∃ o, contains (parsed_ClusterIP svc) (serviceIPs rs) = Some o ∧ o ∉ range_taken (serviceIPs rs) ∧
              range_after (serviceIPs rs) (serviceIPs rs') ({[o]} ∪ range_taken (serviceIPs rs))
       else range_after (serviceIPs rs) (serviceIPs rs') (range_taken (serviceIPs rs))) ∧
      let ports := list_to_set (CollectServiceNodePorts svc ++ health_ports svc) in
      ports ## ports_taken (serviceNodePorts rs) ∧
      port_after (serviceNodePorts rs) (serviceNodePorts rs') (ports ∪ ports_taken (serviceNodePorts rs))
  end.
Proof.
  intros Hok Hreg. unfold ServiceRest.Create. destruct (BeforeCreate service) as [svc|]; [|by split; [apply range_after_same, Hok|apply port_after_same, Hok]].
  destruct (create_ip_spec svc (serviceIPs rs) (rest_ips rs Hok)) as (res & ips & -> & Hip).
  pose proof (StartOperation_under_way fails ok2 taken2 limit2 _ (rest_ports rs Hok)) as Hop0.
  destruct res as [[svc1 release]|e]; [|split; [done|by apply (Op_Finish_spec fails ok2 taken2 limit2)]].
  destruct Hip as (_ & _ & -> & Hip).
  pose proof (create_ports_inv _ (rest_port_range rs Hok) (shouldAssignNodePorts svc1) (length (Ports svc1)) 0
    (mkPortsState (Ports svc1) ∅ StartOperation (serviceNodePorts rs)) (ports_inv_start _ _ (rest_ports rs Hok)) eq_refl) as Hloop.
  destruct (create_ports _ _ _) as [err st]. destruct Hloop as (Hlen & Hop & Hinv). simpl in Hlen.
  change (IsServiceIPSet svc1) with (IsServiceIPSet (set_Ports (ps_ports st) svc1)) in *.
  change (parsed_ClusterIP svc1) with (parsed_ClusterIP (set_Ports (ps_ports st) svc1)) in *.
  set (svc2 := set_Ports (ps_ports st) svc1) in *.
  destruct err as [e|]; [by apply create_deferred_undo|].
  specialize (Hinv eq_refl). simpl in Hinv. rewrite <-Hlen in Hinv.
  pose proof (ports_inv_end _ st svc1 Hinv) as Hend. fold svc2 in Hend.
  destruct (create_health_check_spec _ svc2 _ _ (rest_port_range rs Hok) Hop (pi_deferred _ _ _ Hinv))
    as (res & op & pa & -> & Hop' & Hdef & Hres).
  destruct res as [svc3|e]; [|by apply create_deferred_undo].
  destruct Hres as (Hal & HIP & Hports).
  assert (IsServiceIPSet svc2 = IsServiceIPSet svc3) as HeqI by (unfold IsServiceIPSet; by rewrite HIP).
  assert (parsed_ClusterIP svc2 = parsed_ClusterIP svc3) as HeqP by (unfold parsed_ClusterIP; by rewrite HIP).
  rewrite HeqI, HeqP in Hip. rewrite HeqI.
  destruct (CreateService svc3) as [out|e] eqn:Hout; [|by apply create_deferred_undo].
  apply Hreg in Hout as ->.
  destruct (Op_Commit_spec fails ok2 taken2 limit2 _ _ _ Hop') as (errors & op' & pa' & -> & Hfin & Ha).
  unfold create_deferred. simpl. rewrite Hfin. split; [done|].
  assert (list_to_set (op_allocated op) = (list_to_set (CollectServiceNodePorts svc3 ++ health_ports svc3) : gset Z)) as Heq.
  { apply set_eq. intros p. rewrite !elem_of_list_to_set, Hal, !elem_of_app, Hend.
    unfold CollectServiceNodePorts. by rewrite Hports. }
  rewrite Hdef, Heq in Ha. simpl in Ha. rewrite difference_empty_L in Ha.
  destruct Hop' as (_ & Hd & _). by rewrite Heq in Hd.
Qed.


(** *** Delete *)

Definition service_ports (service : Service) : gset Z :=
  list_to_set (CollectServiceNodePorts service ++ health_ports service).

(** The address of a service, by its offset in a range. *)
Definition service_offset (r : Range S1) (service : Service) : gset Z :=
  if IsServiceIPSet service then option_to_set (contains (parsed_ClusterIP service) r) else ∅.

(** Without the older annotation, the port that Delete reads is that of Create. *)
Lemma health_port_read (r : PortAllocator S2) service :
  0 < Base (portRange r) ∧ Base (portRange r) + Size (portRange r) ≤ 65536 →
  Annotations service !! AlphaAnnotationHealthCheckNodePort = None →
  Forall (valid_port (portRange r)) (health_ports service) →
  shouldCheckOrAssignHealthCheckNodePort ExternalTrafficLocalOnly service = true →
  let p := GetServiceHealthCheckNodePort service in
  health_ports service = if decide (p > 0) then [p] else [].
Proof.
  intros Hrange Halpha Hvalid Hshould. unfold health_ports in *. rewrite Hshould in *.
  unfold GetServiceHealthCheckNodePort. replace (NeedsHealthCheck service) with true.
  2: { unfold shouldCheckOrAssignHealthCheckNodePort in Hshould. destruct (decide _); [|done].
       by apply andb_true_iff in Hshould as [_ ->]. }
  cbn [health_port_loop]. rewrite Halpha.
  destruct (Annotations service !! BetaAnnotationHealthCheckNodePort) as [l|]; [|done].
  cbn [mbind option_bind] in *. destruct (ParseInt l) as [p|]; [|done].
  simpl in Hvalid. rewrite Forall_singleton in Hvalid. destruct (valid_node_port r p Hrange Hvalid) as [_ ->].
  unfold valid_port in Hvalid. by rewrite decide_True by lia.
Qed.

Lemma Delete_spec service rs :
  rest_ok rs → Annotations service !! AlphaAnnotationHealthCheckNodePort = None →
  service_ports service ⊆ ports_taken (serviceNodePorts rs) →
  ∃ rs', Delete ExternalTrafficLocalOnly (Ok service) (Ok tt) None rs = (Ok tt, rs') ∧
    range_after (serviceIPs rs) (serviceIPs rs')
      (range_taken (serviceIPs rs) ∖ service_offset (serviceIPs rs) service) ∧
    port_after (serviceNodePorts rs) (serviceNodePorts rs')
      (ports_taken (serviceNodePorts rs) ∖ service_ports service).
Proof.
  intros Hok Halpha Hsub. unfold Delete.
  destruct (release_loop_spec fails ok2 taken2 limit2 (CollectServiceNodePorts service) _ (rest_ports rs Hok))
    as (errors & pa1 & -> & Ha1).
  eexists. split; [done|]. cbn [serviceIPs serviceNodePorts]. split.
  - unfold service_offset. destruct (IsServiceIPSet service).
    2: { rewrite difference_empty_L. by apply range_after_same, Hok. }
    destruct (Range_Release_spec fails ok1 taken1 limit1 (parsed_ClusterIP service) _ (rest_ips rs Hok)) as (res & ips & -> & _ & Ha).
    destruct (contains _ _); simpl; [done|]. by rewrite difference_empty_L.
  - assert (Hvalid : Forall (valid_port (portRange (serviceNodePorts rs))) (health_ports service)).
    { apply Forall_forall. intros p Hp. apply (ports_taken_valid fails ok2 taken2 limit2); [apply Hok|].
      apply Hsub. unfold service_ports. rewrite elem_of_list_to_set, elem_of_app. by right. }
    pose proof (health_port_read _ service (rest_port_range rs Hok) Halpha Hvalid) as Hread.
    unfold service_ports. rewrite list_to_set_app_L, <-difference_difference_l_L.
    destruct (shouldCheckOrAssignHealthCheckNodePort _ service) eqn:Hshould.
    2: { replace (health_ports service) with (@nil Z) by (unfold health_ports; by rewrite Hshould).
         simpl. by rewrite difference_empty_L. }
    rewrite Hread by done. destruct (decide _); [|simpl; by rewrite difference_empty_L].
    destruct (Port_Release_spec fails ok2 taken2 limit2 (GetServiceHealthCheckNodePort service) pa1 (proj1 Ha1))
      as (res & pa2 & -> & _ & Ha2).
    simpl. rewrite union_empty_r_L. by eapply port_after_remove.
Qed.

(** *** Update *)

Lemma contains_port_spec l p : contains_port l p = true ↔ p ∈ l.
Proof.
  unfold contains_port. rewrite existsb_exists. setoid_rewrite bool_decide_eq_true.
  setoid_rewrite <-list_elem_of_In. naive_solver.
Qed.

Lemma defer_releases_spec old new op :
  releaseDeferred (defer_releases old new op) =
  releaseDeferred op ++ filter (λ p, contains_port new p = true) old.
Proof.
  unfold defer_releases. revert op. induction old as [|p old IH]; intros op; simpl; [by rewrite app_nil_r|].
  rewrite IH, filter_cons. destruct (contains_port new p); simpl; [|done]. by rewrite <-(assoc_L (++)).
Qed.

Section update.
Context (r0 : PortAllocator S2).
Hypothesis Hrange : 0 < Base (portRange r0) ∧ Base (portRange r0) + Size (portRange r0) ≤ 65536.

(** The node ports of the ports so far have been recorded. *)
Record update_inv (i : nat) (st : @update_state S2) : Prop := {
  ui_op : op_under_way r0 (us_op st) (us_alloc st);
  ui_deferred : releaseDeferred (us_op st) = [];
  ui_ports j sp : (j < i)%nat → us_ports st !! j = Some sp → NodePort sp ∈ newNodePorts st
}.

Lemma record_node_port_inv i st np ports op pa :
  update_inv i st → op_under_way r0 op pa → releaseDeferred op = [] →
  (∀ j sp, (j < i)%nat → ports !! j = Some sp → us_ports st !! j = Some sp) →
  (∀ sp, ports !! i = Some sp → NodePort sp = np) →
  length ports = length (us_ports st) →
  let '(abort, st') := record_node_port np ports op pa st in
  length (us_ports st') = length (us_ports st) ∧ op_under_way r0 (us_op st') (us_alloc st') ∧
  (abort = None → update_inv (S i) st').
Proof.
  intros [_ _ Hports] Hop Hd Hlow Hi Hlen. unfold record_node_port.
  destruct (contains_port (newNodePorts st) np); [by split_and!|]. split_and!; [done..|]. intros _.
  split; simpl; [done..|]. intros j sp Hj Hsp. apply elem_of_app. destruct (decide (j = i)) as [->|].
  - right. apply list_elem_of_singleton. by apply Hi.
  - left. apply (Hports j); [lia|]. apply Hlow; [lia|done].
Qed.

Lemma update_port_inv old i sp st :
  update_inv i st → us_ports st !! i = Some sp →
  let '(abort, st') := update_port rnd old i sp st in
  length (us_ports st') = length (us_ports st) ∧ op_under_way r0 (us_op st') (us_alloc st') ∧
  (abort = None → update_inv (S i) st').
Proof.
  intros Hinv Hsp. pose proof Hinv as [Hop Hd Hports]. unfold update_port.
  destruct (decide (NodePort sp ≠ 0)) as [Hn|Hn].
  - destruct (contains_port old (NodePort sp)).
    + apply record_node_port_inv; [done|done|done|done| |done]. intros sp'. rewrite Hsp. naive_solver.
    + destruct (Op_Allocate_spec fails ok2 taken2 limit2 r0 (NodePort sp) _ _ Hop)
        as (res & op' & pa' & -> & Hop' & Hd' & _).
      destruct res as [u|]; [|by split_and!].
      apply record_node_port_inv; [done|done|congruence|done| |done]. intros sp'. rewrite Hsp. naive_solver.
  - destruct (Op_AllocateNext_spec fails ok2 taken2 limit2 r0 (rnd (1 + i)) _ _ Hop)
      as (res & op' & pa' & -> & Hop' & Hd' & Hres).
    destruct res as [p|]; [|by split_and!]. destruct Hres as [Hv _].
    destruct (valid_node_port r0 p Hrange Hv) as [_ ->].
    apply record_node_port_inv; [done|done|congruence| | |apply length_insert].
    + intros j sp' Hj. by rewrite list_lookup_insert_ne by lia.
    + intros sp'. rewrite list_lookup_insert_eq by (by eapply lookup_lt_Some). by intros [= <-].
Qed.

Lemma update_ports_inv old n i st :
  update_inv i st → (i + n = length (us_ports st))%nat →
  let '(abort, st') := update_ports rnd old (seq i n) st in
  length (us_ports st') = length (us_ports st) ∧ op_under_way r0 (us_op st') (us_alloc st') ∧
  (abort = None → update_inv (i + n) st').
Proof.
  revert i st. induction n as [|n IH]; intros i st Hinv Hlen; simpl.
  { split_and!; [done|apply Hinv|]. intros _. by rewrite Nat.add_0_r. }
  destruct (us_ports st !! i) as [sp|] eqn:Hsp; [|apply lookup_ge_None in Hsp; lia].
  pose proof (update_port_inv old i sp st Hinv Hsp) as Hstep.
  destruct (update_port rnd old i sp st) as [abort st1]. destruct Hstep as (Hl & Hop & Hinv1).
  destruct abort as [e|]; [by split_and!|].
  specialize (IH (S i) st1 (Hinv1 eq_refl)). destruct (update_ports rnd old (seq (S i) n) st1) as [abort st2].
  destruct IH as (Hl2 & Hop2 & Hinv2); [lia|]. split_and!; [congruence|done|].
  replace (i + S n)%nat with (S i + n)%nat by lia. done.
Qed.
End update.

Lemma healthCheckNodePortUpdate_ok old service pa :
  port_ok pa →
  port_ok (healthCheckNodePortUpdate ExternalTrafficLocalOnly rnd old service pa).2 ∧
  ∀ svc, (healthCheckNodePortUpdate ExternalTrafficLocalOnly rnd old service pa).1 = Ok svc →
    Ports svc = Ports service ∧ svc_Type svc = svc_Type service.
Proof.
  intros Hok. unfold healthCheckNodePortUpdate.
  destruct (shouldCheckOrAssignHealthCheckNodePort _ old), (shouldCheckOrAssignHealthCheckNodePort _ service).
  - destruct (Annotations service !! _); [|done]. destruct (decide _); simpl; [done|].
    split; [done|]. by intros svc [= <-].
  - destruct (Port_Release_spec fails ok2 taken2 limit2 (GetServiceHealthCheckNodePort old) pa Hok) as (res & pa' & -> & _ & Ha).
    destruct res; (split; [apply Ha|]); [by intros svc [= <-]|done].
  - destruct (decide _).
    + destruct (Port_Allocate_spec fails ok2 taken2 limit2 (GetServiceHealthCheckNodePort service) pa Hok) as (res & pa' & -> & Hres).
      destruct res as [u|]; simpl; [split; [apply Hres|by intros svc [= <-]]|split; [apply Hres|done]].
    + destruct (Port_AllocateNext_spec fails ok2 taken2 limit2 (rnd (1 + length (Ports service))) pa Hok) as (res & pa' & -> & Hres).
      destruct res as [u|]; simpl; [split; [apply Hres|by intros svc [= <-]]|split; [apply Hres|done]].
  - destruct (Annotations service !! _); simpl; [done|]. split; [done|]. by intros svc [= <-].
Qed.

End handlers.

Section update_bug.
Context {S1 S2 : Type} `{!Interface S1, !Interface S2}.
Context (ok1 : S1 → Prop) (limit1 : S1 → Z).
Context (ok2 : S2 → Prop) (taken2 : S2 → gset Z) (limit2 : S2 → Z) `{!AllocatorLaws false S2 ok2 taken2 limit2}.
Context (ExternalTrafficLocalOnly : bool) (rnd : nat → Z).
Local Notation rest_ok := (rest_ok ok1 limit1 ok2 limit2).
Local Notation ports_taken := (ports_taken taken2).

(** C13. Updating a service frees the node ports it keeps: after every successful
    update of a service with node ports, no port that the service had and still
    has is taken, so the next service can get it as well.  The loop that defers
    the release of old ports tests for the wrong ones. *)
Theorem service_update_frees_kept_ports (ctx : option string) (oldService : Service) (UpdatedObject : Service → result string Service)
    (ValidateServiceUpdate : Service → Service → option string)
    (UpdateService : Service → result string Service) (rs : REST S1 S2) (out : Service) :
  rest_ok rs → (∀ s out, UpdateService s = Ok out → out = s) → shouldAssignNodePorts out = true →
  let '(res, rs') :=
    Update ExternalTrafficLocalOnly rnd ctx (Ok oldService) UpdatedObject ValidateServiceUpdate UpdateService rs in
  res = Ret (Ok out) →
  ∀ p, p ∈ CollectServiceNodePorts oldService → p ∈ CollectServiceNodePorts out →
    p ∉ ports_taken (serviceNodePorts rs').
Proof.
  intros Hok Hreg Hassign. unfold Update.
  destruct (UpdatedObject oldService) as [service0|]; [|done].
  destruct (ValidNamespace ctx service0) as [[] service]; [|done]. cbn [negb].
  destruct (ValidateServiceUpdate service oldService); [done|].
  set (old := CollectServiceNodePorts oldService). set (st0 := mkUpdateState _ _ _ _).
  assert (update_inv false ok2 taken2 limit2 (serviceNodePorts rs) 0 st0) as Hinv0.
  { split; simpl; [apply (StartOperation_under_way false ok2 taken2 limit2), Hok|done|lia]. }
  pose proof (update_ports_inv false ok2 taken2 limit2 rnd _ (rest_port_range _ _ _ _ rs Hok) old (length (Ports service)) 0 st0 Hinv0 eq_refl) as Hloop.
  destruct (update_ports rnd old _ st0) as [abort st] eqn:Hupd. destruct Hloop as (Hlen & Hop & Hinv).
  destruct (shouldAssignNodePorts service) eqn:Hsvc.
  - destruct abort as [[]|]; [done..|]. specialize (Hinv eq_refl).
    set (svc1 := if decide _ then _ else _).
    assert (Ports svc1 = us_ports st) as Hp1 by (unfold svc1; by destruct (decide _)).
    destruct (healthCheckNodePortUpdate_ok false ok2 taken2 limit2 ExternalTrafficLocalOnly rnd oldService svc1 (us_alloc st)) as [Hok' Hsame]; [apply Hop|].
    destruct (healthCheckNodePortUpdate _ _ _ _ _) as [res pa]. simpl in Hok', Hsame.
    destruct res as [svc2|]; [|done]. destruct (Hsame svc2 eq_refl) as [Hp2 _].
    destruct (UpdateService svc2) as [out'|] eqn:Hout; [|done]. apply Hreg in Hout as ->.
    destruct (release_loop_spec false ok2 taken2 limit2
      (releaseDeferred (defer_releases old (newNodePorts st) (us_op st))) pa Hok') as (errors & pa' & Heq & _ & _ & Ht).
    unfold Op_Commit. rewrite Heq. intros [= <-] p Hold Hnew. unfold Op_Finish. simpl. rewrite Ht.
    apply not_elem_of_difference. right. apply elem_of_list_to_set.
    rewrite defer_releases_spec, elem_of_app, list_elem_of_filter. right. split; [|done].
    apply contains_port_spec. unfold CollectServiceNodePorts in Hnew. rewrite Hp2, Hp1 in Hnew.
    apply list_elem_of_filter in Hnew as [_ (sp & -> & Hsp)%list_elem_of_fmap].
    apply list_elem_of_lookup in Hsp as [j Hj]. eapply (ui_ports _ _ _ _ _ _ _ Hinv); [|done].
    apply lookup_lt_Some in Hj. simpl in Hlen. simpl. lia.
  - set (svc1 := if decide _ then _ else _).
    destruct (healthCheckNodePortUpdate_ok false ok2 taken2 limit2 ExternalTrafficLocalOnly rnd oldService svc1 (us_alloc st0)) as [_ Hsame]; [apply Hok|].
    destruct (healthCheckNodePortUpdate _ _ _ _ _) as [res pa]. simpl in Hsame.
    destruct res as [svc2|]; [|done]. destruct (Hsame svc2 eq_refl) as [_ Ht2].
    destruct (UpdateService svc2) as [out'|] eqn:Hout; [|done]. apply Hreg in Hout as ->.
    destruct (Op_Commit _ _) as [[]]. intros [= <-]. exfalso.
    assert (svc_Type svc1 = svc_Type service) as Ht1 by (unfold svc1; by destruct (decide _)).
    unfold shouldAssignNodePorts in Hassign, Hsvc. rewrite Ht2, Ht1 in Hassign. congruence.
Qed.
End update_bug.

(** ** Examples *)

Definition demo_net : IPNet := mkNet [10; 0; 0; 0] 24.
Definition demo_ips : Range AllocationBitmap :=
  mkRange demo_net (bigForIP (net_IP demo_net) + 1) 254 (NewAllocationMap 254 "10.0.0.0/24").
Definition demo_range : PortRange := mkPortRange 30000 100.
Definition demo_rest : REST AllocationBitmap AllocationBitmap := mkREST demo_ips (NewPortAllocator demo_range).

Local Notation demo_ok := (rest_ok bitmap_ok max bitmap_ok max).

Lemma demo_ips_ok : range_ok bitmap_ok max demo_ips.
Proof.
  split; try reflexivity.
  - apply NewAllocationMap_ok.
  - split; [by left| | |unfold net_bits; simpl; lia|reflexivity].
    + repeat constructor; lia.
    + eexists 10, _. split; [reflexivity|lia].
Qed.

Lemma demo_rest_ok : demo_ok demo_rest.
Proof. split; [apply demo_ips_ok|split; [apply NewAllocationMap_ok|done]|simpl; lia]. Qed.

(** A name server, on the same node port for both protocols. *)
Definition dns_service : Service := mkService "dns" "default" ∅ ServiceTypeNodePort IPUnset
  [mkServicePort "tcp" "TCP" 53 0; mkServicePort "udp" "UDP" 53 30053] [].

Definition dns_created : Service := mkService "dns" "default" ∅ ServiceTypeNodePort (IPAddress (v4InV6Prefix ++ [10; 0; 0; 8]))
  [mkServicePort "tcp" "TCP" 53 30053; mkServicePort "udp" "UDP" 53 30053] [].

(** The calls for node ports fail as the list says. *)
Definition flaky_rest (script : list mishap) : REST Flaky Flaky :=
  mkREST (mkRange demo_net (bigForIP (net_IP demo_net) + 1) 254 ([], NewAllocationMap 254 "10.0.0.0/24"))
    (mkPorts demo_range (script, NewAllocationMap 100 "30000-30099")).

Lemma flaky_rest_ok script : rest_ok flaky_ok flaky_max flaky_ok flaky_max (flaky_rest script).
Proof.
  destruct demo_ips_ok. split; [split; try done; apply NewAllocationMap_ok|split; [apply NewAllocationMap_ok|done]|simpl; lia].
Qed.


(** A web server on a node port, updated without a change. *)
Definition web_service (name : string) : Service :=
  mkService name "default" ∅ ServiceTypeNodePort (IPAddress [10; 0; 0; 9]) [mkServicePort "http" "TCP" 80 30080] [].

Definition web_rest : REST AllocationBitmap AllocationBitmap :=
  mkREST demo_ips (Port_Allocate 30080 (NewPortAllocator demo_range)).2.

Lemma web_rest_ok : demo_ok web_rest.
Proof.
  destruct (Port_Allocate_spec false bitmap_ok bitmap_taken max 30080 (NewPortAllocator demo_range))
    as (res & r' & Heq & Hres); [split; [apply NewAllocationMap_ok|done]|].
  assert (Hr : (Port_Allocate 30080 (NewPortAllocator demo_range)).2 = r') by (by rewrite Heq).
  assert (port_ok bitmap_ok max r' ∧ portRange r' = demo_range) as [Hok Hpr].
  { destruct res; [destruct Hres as (_ & _ & ? & ? & _)|destruct Hres as (_ & ? & ? & _)]; done. }
  unfold web_rest. rewrite Hr. split; [apply demo_ips_ok|done|].
  cbn [serviceNodePorts]. rewrite Hpr. simpl. lia.
Qed.

Lemma service_update_frees_kept_ports_witness :
  let update := Update (S1 := AllocationBitmap) (S2 := AllocationBitmap) false (λ _, 0) (Some "default") (Ok (web_service "a"))
                  Ok (λ _ _, None) Ok web_rest in
  Port_Has 30080 (serviceNodePorts web_rest) = true ∧
  update.1 = Ret (Ok (web_service "a")) ∧
  30080 ∉ ports_taken bitmap_taken (serviceNodePorts update.2) ∧
  (Create false (λ _, 0) Ok Ok (web_service "b") update.2).1 = Ok (web_service "b").
Proof.
  intros update. split; [vm_compute; reflexivity|].
  assert (Hres : update.1 = Ret (Ok (web_service "a"))) by (vm_compute; reflexivity).
  split; [exact Hres|]. split; [|vm_compute; reflexivity].
  pose proof (service_update_frees_kept_ports bitmap_ok max bitmap_ok bitmap_taken max false (λ _, 0)
    (Some "default") (web_service "a") Ok (λ _ _, None) Ok web_rest (web_service "a") web_rest_ok) as H.
  assert (Hid : ∀ s out : Service, Ok (E := string) s = Ok out → out = s) by (by intros s out [= ->]).
  specialize (H Hid eq_refl). fold update in H. destruct update as [res rs']. simpl in Hres. subst res.
  apply (H eq_refl); vm_compute; by left.
Defined.
