(* ===== verification/Services.v ===== *)
(** * The services of a cluster

    Composes the handlers of pkg/registry/core/service/rest.go with a registry of
    services, as a step relation: any number of creations and deletions one after the
    other, with any strategy and draws, failures of the allocators and failures of the
    registry.

    Theorem: no two services ever have an address or a node port in common, and
    the allocators hold what the services have; where their calls do not fail, they
    hold nothing else but what deletions that failed half way left behind. *)

From S2P Require Import Prelude Allocator PortAllocator IPAllocator ServiceRest.
Open Scope Z_scope.

(** ** Ownership

    The set [T] is made up of [L] and of the sets of the owners, all disjoint; where
    calls may fail, there may be more in it. *)

Section ownership.
Context {K : Type} `{Countable K} (fails : bool).
Implicit Types (T L X : gset Z) (m : gmap K (gset Z)) (n k : K).

Record partition T L m : Prop := {
  pt_in x : (x ∈ L ∨ ∃ n X, m !! n = Some X ∧ x ∈ X) → x ∈ T;
  pt_out x : fails = false → x ∈ T → x ∈ L ∨ ∃ n X, m !! n = Some X ∧ x ∈ X;
  pt_rest n X : m !! n = Some X → X ## L;
  pt_disjoint n k X Y : m !! n = Some X → m !! k = Some Y → n ≠ k → X ## Y
}.

Lemma partition_empty : partition ∅ ∅ ∅.
Proof.
  split.
  - intros x [?|(n & X & Hn & _)]; [done|]. by rewrite lookup_empty in Hn.
  - intros x _ Hx. by apply elem_of_empty in Hx.
  - intros n X Hn. by rewrite lookup_empty in Hn.
  - intros n k X Y Hn. by rewrite lookup_empty in Hn.
Qed.

Lemma partition_exact T L m :
  fails = false → partition T L m → ∀ x, x ∈ T ↔ x ∈ L ∨ ∃ n X, m !! n = Some X ∧ x ∈ X.
Proof. intros Hf [Hin Hout _ _] x. split; [by apply Hout|apply Hin]. Qed.

Lemma left_with_out T T' x : left_with fails T T' → fails = false → x ∈ T' → x ∈ T.
Proof. intros Hl ->. simpl in Hl. by rewrite Hl. Qed.

Lemma partition_more T T' L m : partition T L m → left_with fails T T' → partition T' L m.
Proof.
  intros [Hin Hout Hrest Hdisj] Hl. split; [|intros x Hf Hx; apply Hout; [done|by eapply left_with_out]|done..].
  intros x Hx. by apply (left_with_sub _ _ _ Hl), Hin.
Qed.

Lemma partition_insert T L m n X :
  partition T L m → m !! n = None → X ## T → partition (X ∪ T) L (<[n := X]> m).
Proof.
  intros [Hin Hout Hrest Hdisj] Hn HX.
  assert (Hfresh : ∀ k Y, m !! k = Some Y → X ## Y).
  { intros k Y Hk x Hx Hy. apply (HX x Hx), Hin. eauto. }
  split.
  - intros x. rewrite elem_of_union. intros [?|(k & Y & [[-> ->]|[_ Hk]]%lookup_insert_Some & Hx)]; eauto 10.
  - intros x Hf. rewrite elem_of_union. intros [Hx|[?|(k & Y & Hk & Hx)]%(Hout x Hf)]; [|by left|]; right.
    + exists n, X. by rewrite lookup_insert_eq.
    + exists k, Y. split; [|done]. rewrite lookup_insert_ne; [done|congruence].
  - intros k Y [[<- <-]|[_ Hk]]%lookup_insert_Some; [|by eapply Hrest].
    intros x Hx HL. apply (HX x Hx), Hin. by left.
  - intros k l Y Z [[<- <-]|[_ Hk]]%lookup_insert_Some [[<- <-]|[_ Hl]]%lookup_insert_Some Hne; [done| | |].
    + by eapply Hfresh.
    + symmetry. by eapply Hfresh.
    + by eapply Hdisj.
Qed.

(** An owner leaves: what it had is given back, or left behind. *)
Lemma partition_delete T L m n X :
  partition T L m → m !! n = Some X → partition (T ∖ X) L (delete n m).
Proof.
  intros [Hin Hout Hrest Hdisj] Hn. split.
  - intros x. rewrite elem_of_difference. intros [HL|(k & Y & [Hne Hk]%lookup_delete_Some & Hx)].
    + split; [apply Hin; by left|]. intros HX. by apply (Hrest _ _ Hn x).
    + split; [apply Hin; eauto|]. intros HX. by apply (Hdisj _ _ _ _ Hn Hk Hne x).
  - intros x Hf. rewrite elem_of_difference. intros [[?|(k & Y & Hk & Hx)]%(Hout x Hf) HX]; [by left|right].
    exists k, Y. split; [|done]. rewrite lookup_delete_ne; [done|]. intros ->. naive_solver.
  - intros k Y [_ Hk]%lookup_delete_Some. by eapply Hrest.
  - intros k l Y Z [_ Hk]%lookup_delete_Some [_ Hl]%lookup_delete_Some. by eapply Hdisj.
Qed.

Lemma partition_abandon T L m n X :
  partition T L m → m !! n = Some X → partition T (X ∪ L) (delete n m).
Proof.
  intros [Hin Hout Hrest Hdisj] Hn. split.
  - intros x. rewrite elem_of_union. intros [[HX|?]|(k & Y & [_ Hk]%lookup_delete_Some & Hx)]; eauto 10.
  - intros x Hf [?|(k & Y & Hk & Hx)]%(Hout x Hf); [by set_solver|].
    destruct (decide (n = k)) as [<-|Hne]; [left; set_solver|right]. exists k, Y.
    by rewrite lookup_delete_ne.
  - intros k Y [Hne Hk]%lookup_delete_Some. apply disjoint_union_r. split; [|by eapply Hrest].
    symmetry. by eapply Hdisj.
  - intros k l Y Z [_ Hk]%lookup_delete_Some [_ Hl]%lookup_delete_Some. by eapply Hdisj.
Qed.
End ownership.

(** ** The cluster *)

Section cluster.
Context {S1 S2 : Type} `{!Interface S1, !Interface S2}.
Context (ExternalTrafficLocalOnly : bool).

(** The namespace and the name of a service. *)
Definition svc_key (s : Service) : string * string := (svc_Namespace s, svc_Name s).

(** The allocators and the registry; also the offsets and ports that failed
    deletions left behind. *)
Record cluster := mkCluster {
  rest : REST S1 S2;
  services : gmap (string * string) Service;
  left_offsets : gset Z;
  left_ports : gset Z
}.

Definition GetService (c : cluster) (key : string * string) : result string Service :=
  match services c !! key with Some service => Ok service | None => Err "not found" end.

Definition do_create (rnd : nat → Z) (BeforeCreate CreateService : Service → result string Service)
    (service : Service) (c : cluster) : cluster :=
  let '(res, rs) := Create ExternalTrafficLocalOnly rnd BeforeCreate CreateService service (rest c) in
  mkCluster rs
    (match res with Ok out => <[svc_key out := out]> (services c) | Err _ => services c end)
    (left_offsets c) (left_ports c).

(** The registry may have deleted the service although it returned an error:
    [gone].  What is not released then stays behind. *)
Definition do_delete (DeleteService : result string unit) (gone : bool) (DeleteEndpoints : option string)
    (key : string * string) (c : cluster) : cluster :=
  let rs := (Delete ExternalTrafficLocalOnly (GetService c key) DeleteService DeleteEndpoints (rest c)).2 in
  let deleted := match DeleteService with Ok _ => true | Err _ => false end in
  match services c !! key with
  | Some service =>
      if deleted || gone then
        let stays (X : gset Z) := if deleted && bool_decide (DeleteEndpoints = None) then ∅ else X in
        mkCluster rs (delete key (services c))
          (stays (service_offset (serviceIPs (rest c)) service) ∪ left_offsets c)
          (stays (service_ports ExternalTrafficLocalOnly service) ∪ left_ports c)
      else mkCluster rs (services c) (left_offsets c) (left_ports c)
  | None => mkCluster rs (services c) (left_offsets c) (left_ports c)
  end.

(** The registry stores what it is given, under a name that is not in use; when it
    returns an error it has stored nothing. *)
Definition registers (c : cluster) (CreateService : Service → result string Service) : Prop :=
  ∀ s out, CreateService s = Ok out → out = s ∧ services c !! svc_key s = None.

(** Services with the alpha annotation are left out: what Delete releases for
    them is not what Create took. *)
Definition no_alpha_port (service : Service) : Prop :=
  Annotations service !! AlphaAnnotationHealthCheckNodePort = None.

Inductive cluster_step (c : cluster) : cluster → Prop :=
  | step_create rnd BeforeCreate CreateService service :
      registers c CreateService →
      (∀ s, CreateService s = Ok s → no_alpha_port s) →
      cluster_step c (do_create rnd BeforeCreate CreateService service c)
  | step_delete DeleteService gone DeleteEndpoints key :
      cluster_step c (do_delete DeleteService gone DeleteEndpoints key c).
End cluster.
#[global] Arguments cluster S1 S2 : clear implicits.

Section invariant.
Context {S1 S2 : Type} `{!Interface S1, !Interface S2}.
Context (fails : bool).
Context (ok1 : S1 → Prop) (taken1 : S1 → gset Z) (limit1 : S1 → Z) `{!AllocatorLaws fails S1 ok1 taken1 limit1}.
Context (ok2 : S2 → Prop) (taken2 : S2 → gset Z) (limit2 : S2 → Z) `{!AllocatorLaws fails S2 ok2 taken2 limit2}.
Context (ExternalTrafficLocalOnly : bool).
Implicit Types c : cluster S1 S2.

Local Notation range_taken := (range_taken taken1).
Local Notation ports_taken := (ports_taken taken2).
Local Notation rest_ok := (rest_ok ok1 limit1 ok2 limit2).
Local Notation step := (cluster_step ExternalTrafficLocalOnly).
Local Notation ports_of := (service_ports ExternalTrafficLocalOnly).

Record cluster_ok c : Prop := {
  cl_rest : rest_ok (rest c);
  cl_offsets : partition fails (range_taken (serviceIPs (rest c))) (left_offsets c)
                 (service_offset (serviceIPs (rest c)) <$> services c);
  cl_ports : partition fails (ports_taken (serviceNodePorts (rest c))) (left_ports c) (ports_of <$> services c);
  cl_alpha name s : services c !! name = Some s → no_alpha_port s;
  cl_address name s : services c !! name = Some s → IsServiceIPSet s = true →
    is_Some (contains (parsed_ClusterIP s) (serviceIPs (rest c)))
}.

Lemma Create_registered rnd before reg service (rs : REST S1 S2) out :
  (Create ExternalTrafficLocalOnly rnd before reg service rs).1 = Ok out → ∃ s, reg s = Ok out.
Proof.
  unfold Create. destruct (before service) as [s|]; [|done].
  destruct (create_ip rnd s (serviceIPs rs)) as [[[s1 b]|] ips]; [|done].
  destruct (create_ports _ _ _ _) as [[e|] st]; [done|].
  destruct (create_health_check _ _ _ _ _) as [[[s2|] op] pa]; [|done].
  destruct (reg s2) as [out'|] eqn:Hreg; [|done].
  destruct (Op_Commit op pa) as [[]]. intros [= ->]. eauto.
Qed.

Lemma service_offset_range (r r' : Range S1) s :
  (∀ ip, contains ip r' = contains ip r) → service_offset r' s = service_offset r s.
Proof. intros Hsame. unfold service_offset. by rewrite Hsame. Qed.

Lemma offsets_range (r r' : Range S1) (m : gmap (string * string) Service) :
  (∀ ip, contains ip r' = contains ip r) → service_offset r' <$> m = service_offset r <$> m.
Proof. intros Hsame. apply map_fmap_ext. intros n s _. by apply service_offset_range. Qed.

Lemma rest_ok_after (rs rs' : REST S1 S2) T U :
  rest_ok rs → range_after fails ok1 taken1 limit1 (serviceIPs rs) (serviceIPs rs') T →
  port_after fails ok2 taken2 limit2 (serviceNodePorts rs) (serviceNodePorts rs') U → rest_ok rs'.
Proof. intros Hok (? & _) (? & Hr & _). split; [done..|]. rewrite Hr. apply Hok. Qed.

Lemma do_create_ok rnd before reg service c :
  cluster_ok c → registers c reg → (∀ s, reg s = Ok s → no_alpha_port s) →
  cluster_ok (do_create ExternalTrafficLocalOnly rnd before reg service c).
Proof.
  intros [Hrest Hoff Hports Halpha Haddr] Hreg Hguard. unfold do_create.
  pose proof (Create_spec fails ok1 taken1 limit1 ok2 taken2 limit2 ExternalTrafficLocalOnly rnd before reg service
    (rest c) Hrest (λ s out H, proj1 (Hreg s out H))) as Hspec.
  pose proof (Create_registered rnd before reg service (rest c)) as Hout.
  destruct (Create _ _ _ _ _ _) as [[out|e] rs]; cbn [fst] in Hout.
  - destruct (Hout out eq_refl) as [s Hs]. destruct (Hreg s out Hs) as [-> Hnew]. clear Hout.
    destruct Hspec as (Hip & Hd & Hp).
    assert (Hip' : range_after fails ok1 taken1 limit1 (serviceIPs (rest c)) (serviceIPs rs)
              (service_offset (serviceIPs (rest c)) s ∪ range_taken (serviceIPs (rest c))) ∧
            service_offset (serviceIPs (rest c)) s ## range_taken (serviceIPs (rest c)) ∧
            (IsServiceIPSet s = true → is_Some (contains (parsed_ClusterIP s) (serviceIPs (rest c))))).
    { unfold service_offset. destruct (IsServiceIPSet s); [|by rewrite union_empty_l_L; split_and!; [|set_solver|]].
      destruct Hip as (o & -> & Hfree & Ha). simpl. split_and!; [done|set_solver|done]. }
    clear Hip. destruct Hip' as (Hip & Hdis & Hsome). pose proof Hip as (_ & Hsame & Ht1).
    pose proof Hp as (_ & _ & Ht2).
    split; simpl; [by eapply rest_ok_after| | | |].
    + rewrite fmap_insert, (service_offset_range _ _ _ Hsame), (offsets_range _ _ _ Hsame).
      eapply partition_more; [|done]. apply partition_insert; [done| |done]. by rewrite lookup_fmap, Hnew.
    + rewrite fmap_insert. eapply partition_more; [|done].
      apply partition_insert; [done| |done]. by rewrite lookup_fmap, Hnew.
    + intros n t [[_ <-]|[_ Hn]]%lookup_insert_Some; [by apply Hguard|by eapply Halpha].
    + intros n t [[_ <-]|[_ Hn]]%lookup_insert_Some Hset; rewrite Hsame; [by apply Hsome|by eapply Haddr].
  - destruct Hspec as [Hip Hp]. pose proof Hip as (_ & Hsame & Ht1). pose proof Hp as (_ & _ & Ht2).
    split; simpl; [by eapply rest_ok_after| | |done|].
    + rewrite (offsets_range _ _ _ Hsame). by eapply partition_more.
    + by eapply partition_more.
    + intros n t Hn Hset. rewrite Hsame. by eapply Haddr.
Qed.

(** A service is gone and what it had stays behind. *)
Lemma abandon_ok key s c :
  cluster_ok c → services c !! key = Some s →
  cluster_ok (mkCluster (rest c) (delete key (services c))
    (service_offset (serviceIPs (rest c)) s ∪ left_offsets c) (ports_of s ∪ left_ports c)).
Proof.
  intros [Hrest Hoff Hports Halpha Haddr] Hs. split; simpl; [done| | | |].
  - rewrite fmap_delete. apply partition_abandon; [done|]. by rewrite lookup_fmap, Hs.
  - rewrite fmap_delete. apply partition_abandon; [done|]. by rewrite lookup_fmap, Hs.
  - intros n t [_ Hn]%lookup_delete_Some. by eapply Halpha.
  - intros n t [_ Hn]%lookup_delete_Some. by eapply Haddr.
Qed.

Lemma do_delete_ok deleted gone endpoints key c :
  cluster_ok c → cluster_ok (do_delete ExternalTrafficLocalOnly deleted gone endpoints key c).
Proof.
  intros Hc. pose proof Hc as [Hrest Hoff Hports Halpha Haddr]. unfold do_delete, GetService.
  destruct (services c !! key) as [s|] eqn:Hs; [|done].
  destruct deleted as [[]|e]; [|destruct gone; [by apply abandon_ok|done]].
  destruct endpoints as [e|]; [by apply abandon_ok|].
  destruct (Delete_spec fails ok1 taken1 limit1 ok2 taken2 limit2 ExternalTrafficLocalOnly s (rest c) Hrest)
    as (rs & Heq & Hip & Hpo); [by eapply Halpha| |].
  { intros p Hin. apply (pt_in _ _ _ _ Hports). right. exists key, (ports_of s). by rewrite lookup_fmap, Hs. }
  rewrite Heq. pose proof Hip as (_ & Hsame & Ht1). pose proof Hpo as (_ & _ & Ht2).
  split; simpl; [by eapply rest_ok_after| | | |].
  - rewrite union_empty_l_L, (offsets_range _ _ _ Hsame), fmap_delete. eapply partition_more; [|done].
    apply partition_delete; [done|]. by rewrite lookup_fmap, Hs.
  - rewrite union_empty_l_L, fmap_delete. eapply partition_more; [|done].
    apply partition_delete; [done|]. by rewrite lookup_fmap, Hs.
  - intros n t [_ Hn]%lookup_delete_Some. by eapply Halpha.
  - intros n t [_ Hn]%lookup_delete_Some. rewrite Hsame. by eapply Haddr.
Qed.

Lemma cluster_steps_ok c c' : rtc step c c' → cluster_ok c → cluster_ok c'.
Proof.
  apply rtc_invariant. intros a b [rnd before reg service Hreg Hguard|deleted gone endpoints key] Ha.
  - by apply do_create_ok.
  - by apply do_delete_ok.
Qed.

Lemma cluster_start (rs : REST S1 S2) :
  rest_ok rs → range_taken (serviceIPs rs) = ∅ → ports_taken (serviceNodePorts rs) = ∅ →
  cluster_ok (mkCluster rs ∅ ∅ ∅).
Proof.
  intros Hok H1 H2. split; simpl; [done| | |intros n s Hn; by rewrite lookup_empty in Hn..].
  - rewrite H1, fmap_empty. apply partition_empty.
  - rewrite H2, fmap_empty. apply partition_empty.
Qed.

End invariant.

(** ** Example: two services are created, one is deleted but not its endpoints *)

Definition registry_create {S1 S2} (c : cluster S1 S2) (s : Service) : result string Service :=
  match services c !! svc_key s with
  | Some _ => Err "already exists"
  | None => if decide (Annotations s !! AlphaAnnotationHealthCheckNodePort = None) then Ok s else Err "invalid"
  end.

Lemma registry_create_registers {S1 S2} (c : cluster S1 S2) : registers c (registry_create c).
Proof.
  intros s out. unfold registry_create. destruct (services c !! svc_key s); [done|].
  destruct (decide _); [|done]. by intros [= ->].
Qed.

Lemma registry_create_guard {S1 S2} (c : cluster S1 S2) s : registry_create c s = Ok s → no_alpha_port s.
Proof. unfold registry_create. destruct (services c !! svc_key s); [done|]. by destruct (decide _). Qed.

Definition demo_create {S1 S2} `{!Interface S1, !Interface S2} (s : Service) (c : cluster S1 S2) :=
  do_create false (λ _, 7) Ok (registry_create c) s c.

(** A service is refused the address that another one has, which is then deleted. *)
Definition demo_run {S1 S2} `{!Interface S1, !Interface S2} (endpoints : option string) (c : cluster S1 S2) : cluster S1 S2 :=
  do_delete false (Ok tt) false endpoints ("default", "a")
    (demo_create (web_service "b") (demo_create dns_service (demo_create (web_service "a") c))).

Lemma demo_create_step {S1 S2} `{!Interface S1, !Interface S2} s (c : cluster S1 S2) :
  cluster_step false c (demo_create s c).
Proof. apply step_create; [apply registry_create_registers|apply registry_create_guard]. Qed.

Lemma demo_run_steps {S1 S2} `{!Interface S1, !Interface S2} endpoints (c : cluster S1 S2) :
  rtc (cluster_step false) c (demo_run endpoints c).
Proof.
  eapply rtc_l; [apply demo_create_step|]. eapply rtc_l; [apply demo_create_step|].
  eapply rtc_l; [apply demo_create_step|]. eapply rtc_l; [apply step_delete|]. apply rtc_refl.
Qed.

Definition demo_cluster : cluster AllocationBitmap AllocationBitmap :=
  demo_run (Some "timeout") (mkCluster demo_rest ∅ ∅ ∅).

(** The call that gives the node port back fails. *)
Definition flaky_start : REST Flaky Flaky := flaky_rest [Works; Works; Refused].
Definition flaky_cluster : cluster Flaky Flaky := demo_run None (mkCluster flaky_start ∅ ∅ ∅).

