(* ===== verification/Repair.v ===== *)
(** * The repair of allocations

    Models portallocator/controller/repair.go and ipallocator/controller/repair.go
    under pkg/registry/core/service, with RetryOnConflict of
    pkg/client/retry/util.go.  The two controllers are copies of one another, so
    their loops are defined over an interface of pools that both allocators
    implement; each controller has its own [runOnce].

    Theorems: what a run writes; three undisturbed runs leave exactly the ports of
    the services; ports in use for health checks are lost; conflicts use up the
    time that a service has between its allocation and its creation. *)

From S2P Require Import Prelude Allocator PortAllocator IPAllocator ServiceRest.
Open Scope Z_scope.

(** ** Pools *)

Class Pool (A E St : Type) := {
  p_Allocate : A → St → result E unit * St;
  p_Has : A → St → bool;
  p_Release : A → St → result E unit * St;
  p_ForEach : St → list A
}.

#[export] Instance port_pool : Pool Z port_error (PortAllocator AllocationBitmap) := {|
  p_Allocate := Port_Allocate;
  p_Has := Port_Has;
  p_Release := Port_Release;
  p_ForEach := Port_ForEach
|}.

#[export] Instance ip_pool : Pool (list Z) ip_error (Range AllocationBitmap) := {|
  p_Allocate := Range_Allocate;
  p_Has := Range_Has;
  p_Release := Range_Release;
  p_ForEach := Range_ForEach
|}.

Definition numRepairsBeforeLeakCleanup : Z := 3.

(** ** The loops of a run *)

Section loops.
Context {A E St K B : Type} `{!Pool A E St} `{Countable K}.
(** The key of an item in the map of leaks. *)
Context (key : A → K).
(** How the switch over the error of Allocate leaves the function, if it does. *)
Context (abort : E → option B).

Record repair_state := mkRepairState {
  stored : St;
  rebuilt : St;
  leaks : gmap K Z
}.

(** An item that a service has. *)
Definition mark_used (x : A) (st : repair_state) : option B * repair_state :=
  let '(res, r) := p_Allocate x (rebuilt st) in
  match res with
  | Ok _ =>
      let s := if p_Has x (stored st) then (p_Release x (stored st)).2 else stored st in
      (None, mkRepairState s r (delete (key x) (leaks st)))
  | Err err => (abort err, mkRepairState (stored st) r (leaks st))
  end.

Fixpoint mark_loop (xs : list A) (st : repair_state) : option B * repair_state :=
  match xs with
  | [] => (None, st)
  | x :: xs =>
      let '(b, st) := mark_used x st in
      match b with Some _ => (b, st) | None => mark_loop xs st end
  end.

(** An item that is left in the old set. *)
Definition leak_step (x : A) (st : repair_state) : repair_state :=
  let hold count := mkRepairState (stored st) (p_Allocate x (rebuilt st)).2 (<[key x := count - 1]> (leaks st)) in
  match leaks st !! key x with
  | None => hold (numRepairsBeforeLeakCleanup - 1)
  | Some count => if decide (count > 0) then hold count else st
  end.

Definition leak_loop (xs : list A) (st : repair_state) : repair_state :=
  foldl (λ st x, leak_step x st) st xs.
End loops.
#[global] Arguments repair_state St K {_ _}.

(** ** The controllers *)

Record RangeAllocation := mkRangeAllocation {
  ResourceVersion : string;
  ra_Range : string;
  Data : list Z
}.

Inductive repair_error :=
  | RefreshFailed
  | RebuildFailed
  | RangeFull
  | UnknownError
  | PersistFailed
  | ConflictError.

Definition IsConflict (e : repair_error) : bool :=
  match e with ConflictError => true | _ => false end.

(** The registry of allocations and the list of services: the world [W] may also
    change by itself at any call. *)
Class RangeRegistry (W : Type) := {
  registry_Get : W → result string RangeAllocation * W;
  registry_List : W → result string (list Service) * W;
  registry_CreateOrUpdate : RangeAllocation → W → option repair_error * W
}.

(** The error of CreateOrUpdate is passed on when it is a conflict. *)
Definition persist_error (e : option repair_error) : option repair_error :=
  match e with
  | None => None
  | Some err => Some (if IsConflict err then err else PersistFailed)
  end.

Section controllers.
Context {W : Type} `{!RangeRegistry W}.

(** The loop over the services. *)
Fixpoint mark_services {A E St K B} `{!Pool A E St} `{Countable K} (key : A → K) (abort : E → option B)
    (item : Service → list A) (list : list Service) (st : repair_state St K) : option B * repair_state St K :=
  match list with
  | [] => (None, st)
  | svc :: list =>
      let '(b, st) := mark_loop key abort (item svc) st in
      match b with Some _ => (b, st) | None => mark_services key abort item list st end
  end.

(** *** Ports *)

Record PortRepair := mkPortRepair {
  pr_portRange : PortRange;
  pr_leaks : gmap Z Z
}.

Definition NewPortRepair (portRange : PortRange) : PortRepair := mkPortRepair portRange ∅.

(** The third case of the switch is a type assertion, which panics on any error
    but the two before; the cases after it are never reached. *)
Definition port_abort (err : port_error) : option string :=
  match err with
  | ErrAllocated => None
  | ErrNotInRange _ => None
  | _ => Some "interface conversion: error is not *portallocator.ErrNotInRange"
  end.

(** The condition of the poll returns the error of Get, so that the poll ends with
    the first answer, whatever it is. *)
Definition Port_runOnce (c : PortRepair) (w : W) : outcome (option repair_error) * (PortRepair * W) :=
  match registry_Get w with
  | (Err _, w) => (Ret (Some RefreshFailed), (c, w))
  | (Ok snapshot, w) =>
      let range := if decide (ra_Range snapshot = "") then PortRange_String (pr_portRange c) else ra_Range snapshot in
      match Port_NewFromSnapshot range (Data snapshot) with
      | Err _ => (Ret (Some RebuildFailed), (c, w))
      | Ok stored0 =>
          match registry_List w with
          | (Err _, w) => (Ret (Some RefreshFailed), (c, w))
          | (Ok list, w) =>
              let '(b, st) := mark_services id port_abort CollectServiceNodePorts list
                                (mkRepairState stored0 (NewPortAllocator (pr_portRange c)) (pr_leaks c)) in
              match b with
              | Some msg => (Panic msg, (mkPortRepair (pr_portRange c) (leaks st), w))
              | None =>
                  let st := leak_loop id (Port_ForEach (stored st)) st in
                  let '(range, data) := Port_Snapshot (rebuilt st) in
                  let '(err, w) := registry_CreateOrUpdate (mkRangeAllocation (ResourceVersion snapshot) range data) w in
                  (Ret (persist_error err), (mkPortRepair (pr_portRange c) (leaks st), w))
              end
          end
      end
  end.

(** *** Addresses *)

Record IPRepair := mkIPRepair {
  ir_network : IPNet;
  ir_leaks : gmap (list Z) Z
}.

Definition NewIPRepair (network : IPNet) : IPRepair := mkIPRepair network ∅.

Definition ip_abort (err : ip_error) : option repair_error :=
  match err with
  | ErrIPAllocated => None
  | ErrIPNotInRange => None
  | ErrIPFull => Some RangeFull
  | _ => Some UnknownError
  end.

(** No address is needed, or it cannot be read: the service is skipped. *)
Definition service_ip (svc : Service) : list (list Z) :=
  if IsServiceIPSet svc then
    match parsed_ClusterIP svc with [] => [] | ip => [ip] end
  else [].

(** Leaks are counted by the text of an address, which stands for its long form. *)
Definition IP_runOnce (ParseCIDR : string → result string IPNet) (net_String : IPNet → string)
    (c : IPRepair) (w : W) : outcome (option repair_error) * (IPRepair * W) :=
  match registry_Get w with
  | (Err _, w) => (Ret (Some RefreshFailed), (c, w))
  | (Ok snapshot, w) =>
      let range := if decide (ra_Range snapshot = "") then net_String (ir_network c) else ra_Range snapshot in
      match Range_NewFromSnapshot ParseCIDR net_String range (Data snapshot) with
      | Panic msg => (Panic msg, (c, w))
      | Ret (Err _) => (Ret (Some RebuildFailed), (c, w))
      | Ret (Ok stored0) =>
          match registry_List w with
          | (Err _, w) => (Ret (Some RefreshFailed), (c, w))
          | (Ok list, w) =>
              match NewCIDRRange net_String (ir_network c) with
              | Panic msg => (Panic msg, (c, w))
              | Ret rebuilt0 =>
                  let '(b, st) := mark_services ParseIP_String ip_abort service_ip list
                                    (mkRepairState stored0 rebuilt0 (ir_leaks c)) in
                  match b with
                  | Some err => (Ret (Some err), (mkIPRepair (ir_network c) (leaks st), w))
                  | None =>
                      let st := leak_loop ParseIP_String (Range_ForEach (stored st)) st in
                      let '(range, data) := Snapshot (range_alloc (rebuilt st)) in
                      let '(err, w) := registry_CreateOrUpdate (mkRangeAllocation (ResourceVersion snapshot) range data) w in
                      (Ret (persist_error err), (mkIPRepair (ir_network c) (leaks st), w))
                  end
              end
          end
      end
  end.
End controllers.

(** *** Retries *)

(** [steps] attempts are left, [last] is the conflict seen last. *)
Fixpoint RetryOnConflict {X : Type} (steps : nat) (fn : X → outcome (option repair_error) * X)
    (last : option repair_error) (x : X) : outcome (option repair_error) * X :=
  match steps with
  | O => (Ret last, x)
  | S steps =>
      let '(res, x) := fn x in
      match res with
      | Panic msg => (Panic msg, x)
      | Ret None => (Ret None, x)
      | Ret (Some err) =>
          if IsConflict err then RetryOnConflict steps fn (Some err) x else (Ret (Some err), x)
      end
  end.

(** [DefaultBackoff.Steps] *)
Definition DefaultBackoff_Steps : nat := 4.

Definition Port_RunOnce {W} `{!RangeRegistry W} (c : PortRepair) (w : W)
    : outcome (option repair_error) * (PortRepair * W) :=
  RetryOnConflict DefaultBackoff_Steps (λ '(c, w), Port_runOnce c w) None (c, w).

Definition IP_RunOnce {W} `{!RangeRegistry W} ParseCIDR net_String (c : IPRepair) (w : W)
    : outcome (option repair_error) * (IPRepair * W) :=
  RetryOnConflict DefaultBackoff_Steps (λ '(c, w), IP_runOnce ParseCIDR net_String c w) None (c, w).

(** ** The loops as operations on sets *)

(** [good] items are those that can occur, [shape] is what stays the same and
    determines the keys [within] a range, [benign] are the errors of Allocate. *)
Class PoolLaws {A E St : Type} `{!Pool A E St} {K : Type} `{Countable K} (key : A → K) (good : A → Prop)
    {R : Type} (shape : St → R) (ok : St → Prop) (within : St → K → Prop) (taken : St → gset K) (benign : E → Prop) : Prop := {
  p_Allocate_law s x : ok s → good x →
    ∃ res s', p_Allocate x s = (res, s') ∧ ok s' ∧ shape s' = shape s ∧
      match res with
      | Ok _ => within s (key x) ∧ key x ∉ taken s ∧ taken s' = {[key x]} ∪ taken s
      | Err e => benign e ∧ (within s (key x) → key x ∈ taken s) ∧ taken s' = taken s
      end;
  p_Has_law s x : ok s → good x → p_Has x s = bool_decide (key x ∈ taken s);
  p_Release_law s x : ok s → good x →
    ∃ s', p_Release x s = (Ok tt, s') ∧ ok s' ∧ shape s' = shape s ∧ taken s' = taken s ∖ {[key x]};
  p_ForEach_law s : ok s →
    Forall good (p_ForEach s) ∧ NoDup (key <$> p_ForEach s) ∧ ∀ k, k ∈ key <$> p_ForEach s ↔ k ∈ taken s;
  p_within_shape s s' k : ok s → ok s' → shape s' = shape s → within s' k ↔ within s k
}.

(** Whether a leaked item is still held, and its counter after a run. *)
Definition held (c : option Z) : bool :=
  match c with None => true | Some count => bool_decide (count > 0) end.

Definition counted (c : option Z) : option Z :=
  match c with
  | None => Some (numRepairsBeforeLeakCleanup - 1 - 1)
  | Some count => Some (if decide (count > 0) then count - 1 else count)
  end.

Lemma mark_services_concat {A E St K B} `{!Pool A E St} `{Countable K} (key : A → K) (abort : E → option B)
    (item : Service → list A) (list : list Service) (st : repair_state St K) :
  mark_services key abort item list st = mark_loop key abort (list ≫= item) st.
Proof.
  assert (Happ : ∀ xs ys st, mark_loop key abort (xs ++ ys) st =
            let '(b, st) := mark_loop key abort xs st in
            match b with Some _ => (b, st) | None => mark_loop key abort ys st end).
  { intros xs ys. induction xs as [|x xs IH]; intros st'; simpl; [done|].
    destruct (mark_used key abort x st') as [[b|] st'']; [done|apply IH]. }
  revert st. induction list as [|svc list IH]; intros st; [done|]. simpl. rewrite Happ.
  destruct (mark_loop key abort (item svc) st) as [[b|] st']; [done|apply IH].
Qed.

Section spec.
Context {A E St K B R : Type} `{!Pool A E St} `{Countable K}.
Context (key : A → K) (abort : E → option B) (good : A → Prop) (shape : St → R).
Context (ok : St → Prop) (within : St → K → Prop) (taken : St → gset K) (benign : E → Prop).
Context `{!PoolLaws key good shape ok within taken benign} `{!∀ s k, Decision (within s k)}.
Context (Habort : ∀ e, benign e → abort e = None).
Implicit Types st : repair_state St K.

(** The state after the items in [U] were marked. *)
Record marked (st0 : repair_state St K) (U : gset K) st : Prop := {
  mk_stored : ok (stored st);
  mk_rebuilt : ok (rebuilt st);
  mk_start : ok (rebuilt st0);
  mk_shape : shape (rebuilt st) = shape (rebuilt st0);
  mk_taken_s : taken (stored st) = taken (stored st0) ∖ U;
  mk_taken : taken (rebuilt st) = U;
  mk_leaks k : leaks st !! k = if decide (k ∈ U) then None else leaks st0 !! k
}.

Lemma mark_used_spec st0 U x st :
  marked st0 U st → good x →
  (mark_used key abort x st).1 = None ∧
  marked st0 (if decide (within (rebuilt st0) (key x)) then {[key x]} ∪ U else U) (mark_used key abort x st).2.
Proof.
  intros [Hs Hr Hr0 Hsh Hts Ht Hl] Hx. unfold mark_used.
  pose proof (λ k, p_within_shape _ _ k Hr0 Hr Hsh) as Hw.
  destruct (p_Allocate_law (rebuilt st) x Hr Hx) as (res & r & -> & Hr' & Hw' & Hres).
  destruct res as [u|e].
  - destruct Hres as (Hin & Hfree & Ht'). split; [done|]. rewrite decide_True by (by apply Hw).
    rewrite p_Has_law by done.
    assert (∃ s, (if bool_decide (key x ∈ taken (stored st)) then (p_Release x (stored st)).2 else stored st) = s ∧
              ok s ∧ taken s = taken (stored st) ∖ {[key x]}) as (s & -> & Hs' & Hts').
    { destruct (p_Release_law (stored st) x Hs Hx) as (s & -> & ? & ? & ?). case_bool_decide; [by exists s|].
      exists (stored st). split_and!; [done..|set_solver]. }
    split; simpl; [done|done|done|congruence| | |].
    + rewrite Hts', Hts. set_solver.
    + by rewrite Ht', Ht.
    + intros k. destruct (decide (k = key x)) as [->|Hne].
      * rewrite lookup_delete_eq, decide_True by set_solver. done.
      * rewrite lookup_delete_ne, Hl by done. destruct (decide (k ∈ U)); [rewrite decide_True by set_solver|rewrite decide_False by set_solver]; done.
  - destruct Hres as (Hb & Hin & Ht'). split; [by apply Habort|].
    assert ((if decide (within (rebuilt st0) (key x)) then {[key x]} ∪ U else U) = U) as ->.
    { destruct (decide _) as [Hd|]; [|done]. apply Hw, Hin in Hd. rewrite Ht in Hd. set_solver. }
    split; simpl; [done|done|done|congruence|done|congruence|done].
Qed.

Lemma mark_loop_spec st0 xs U st :
  marked st0 U st → Forall good xs →
  (mark_loop key abort xs st).1 = None ∧
  marked st0 (filter (within (rebuilt st0)) (list_to_set (key <$> xs)) ∪ U) (mark_loop key abort xs st).2.
Proof.
  revert U st. induction xs as [|x xs IH]; intros U st Hst Hgood; simpl.
  { split; [done|]. by replace (filter (within (rebuilt st0)) (∅ : gset K) ∪ U) with U by set_solver. }
  apply Forall_cons in Hgood as [Hx Hgood]. destruct (mark_used_spec st0 U x st Hst Hx) as [Hn Hst']. destruct (mark_used key abort x st) as [b st'].
  simpl in Hn. subst b. destruct (IH _ _ Hst' Hgood) as [Hnone Hend]. split; [done|].
  match goal with |- marked _ ?V _ => match type of Hend with marked _ ?W _ => enough (V = W) as -> by done end end.
  apply set_eq. intros k.
  rewrite !elem_of_union, !elem_of_filter, !elem_of_union, !elem_of_singleton.
  destruct (decide (within (rebuilt st0) (key x))); [rewrite elem_of_union, elem_of_singleton; naive_solver|].
  split; [intros [[? [-> |?]]|?]; tauto|tauto].
Qed.

(** The loop over what is left; each item is there once. *)
Lemma leak_loop_spec xs st :
  ok (rebuilt st) → Forall good xs → NoDup (key <$> xs) →
  let st' := leak_loop key xs st in
  ok (rebuilt st') ∧ shape (rebuilt st') = shape (rebuilt st) ∧
  (∀ k, k ∈ taken (rebuilt st') ↔
     k ∈ taken (rebuilt st) ∨ (k ∈ key <$> xs ∧ within (rebuilt st) k ∧ held (leaks st !! k) = true)) ∧
  (∀ k, leaks st' !! k = if decide (k ∈ key <$> xs) then counted (leaks st !! k) else leaks st !! k).
Proof.
  clear abort Habort B. revert st. induction xs as [|x xs IH]; intros st Hok Hgood Hnd; simpl.
  { split_and!; [done|done|set_solver|done]. }
  apply NoDup_cons in Hnd as [Hx Hnd]. apply Forall_cons in Hgood as [Hgx Hgood].
  assert (Hstep : ok (rebuilt (leak_step key x st)) ∧
    shape (rebuilt (leak_step key x st)) = shape (rebuilt st) ∧
    (∀ k, k ∈ taken (rebuilt (leak_step key x st)) ↔
       k ∈ taken (rebuilt st) ∨ (k = key x ∧ within (rebuilt st) k ∧ held (leaks st !! k) = true)) ∧
    (∀ k, leaks (leak_step key x st) !! k = if decide (k = key x) then counted (leaks st !! k) else leaks st !! k)).
  { clear IH. unfold leak_step.
    destruct (p_Allocate_law (rebuilt st) x Hok Hgx) as (res & r & Heq & Hr & Hw & Hres).
    assert (Ht : ∀ k, k ∈ taken r ↔ k ∈ taken (rebuilt st) ∨ (k = key x ∧ within (rebuilt st) k)).
    { intros k. destruct res as [u|e].
      - destruct Hres as (Hin & _ & ->). rewrite elem_of_union, elem_of_singleton. naive_solver.
      - destruct Hres as (_ & Hin & ->). naive_solver. }
    assert (Hins : ∀ z k, <[key x := z]> (leaks st) !! k = if decide (k = key x) then Some z else leaks st !! k).
    { intros z k. destruct (decide (k = key x)) as [->|Hne]; [by rewrite lookup_insert_eq|by rewrite lookup_insert_ne]. }
    destruct (leaks st !! key x) as [count|] eqn:Hl; [destruct (decide (count > 0))|]; simpl;
      rewrite ?Heq; simpl; (split_and!; [done|done| |]).
    - intros k. rewrite Ht. split; [|tauto]. intros [?|[-> ?]]; [tauto|]. right. rewrite Hl. simpl.
      by rewrite bool_decide_eq_true_2.
    - intros k. rewrite Hins. destruct (decide (k = key x)) as [->|]; [|done]. rewrite Hl. simpl. by rewrite decide_True.
    - intros k. split; [tauto|]. intros [?|(-> & _ & Hh)]; [done|]. rewrite Hl in Hh. simpl in Hh.
      by apply bool_decide_eq_true in Hh.
    - intros k. destruct (decide (k = key x)) as [->|]; [|done]. rewrite Hl. simpl. by rewrite decide_False.
    - intros k. rewrite Ht. split; [|tauto]. intros [?|[-> ?]]; [tauto|]. right. by rewrite Hl.
    - intros k. rewrite Hins. destruct (decide (k = key x)) as [->|]; [|done]. by rewrite Hl. }
  destruct Hstep as (Hok' & Hsh & Ht & Hl). pose proof (λ k, p_within_shape _ _ k Hok Hok' Hsh) as Hw.
  destruct (IH _ Hok' Hgood Hnd) as (Hok2 & Hw2 & Ht2 & Hl2).
  change (foldl (λ st x, leak_step key x st) (leak_step key x st) xs) with (leak_loop key xs (leak_step key x st)).
  split_and!; [done|congruence| |].
  - intros k. rewrite Ht2, Ht, Hw, Hl, elem_of_cons.
    destruct (decide (k = key x)) as [->|Hne]; [|tauto]. tauto.
  - intros k. rewrite Hl2, Hl. destruct (decide (k = key x)) as [->|Hne].
    + by rewrite decide_False, decide_True by set_solver.
    + destruct (decide (k ∈ key <$> xs)); [rewrite decide_True by set_solver|rewrite decide_False by set_solver]; done.
Qed.
(** *** A whole run *)

(** What a run leaves, when the services have [U] and [T] was stored, and the
    counters after it. *)
Definition repaired (inside : K → Prop) `{!∀ k, Decision (inside k)} (U T : gset K) (leaks : gmap K Z) : gset K :=
  U ∪ filter (λ k, k ∉ U ∧ inside k ∧ held (leaks !! k) = true) T.

Definition recounted (U T : gset K) (leaks leaks' : gmap K Z) : Prop :=
  ∀ k, leaks' !! k =
    if decide (k ∈ U) then None else if decide (k ∈ T) then counted (leaks !! k) else leaks !! k.

Lemma run_core (item : Service → list A) list (s r : St) (l : gmap K Z) :
  ok s → ok r → taken r = ∅ → Forall good (list ≫= item) →
  let U := filter (within r) (list_to_set (key <$> list ≫= item)) in
  ∃ st, mark_services key abort item list (mkRepairState s r l) = (None, st) ∧
    let st' := leak_loop key (p_ForEach (stored st)) st in
    ok (rebuilt st') ∧ shape (rebuilt st') = shape r ∧
    taken (rebuilt st') = repaired (within r) U (taken s) l ∧ recounted U (taken s) l (leaks st').
Proof.
  intros Hs Hr Ht Hgood U. rewrite mark_services_concat. set (st0 := mkRepairState s r l).
  assert (Hst0 : marked st0 ∅ st0) by (split; simpl; [done|done|done|done|set_solver|done|done]).
  destruct (mark_loop_spec st0 (list ≫= item) ∅ st0 Hst0 Hgood) as [Hnone Hmarked].
  destruct (mark_loop key abort _ st0) as [b st]. simpl in Hnone, Hmarked. subst b.
  replace (filter (within r) _ ∪ ∅) with U in Hmarked by (unfold U; set_solver).
  destruct Hmarked as [Hs' Hr' _ Hsh Hts Htr Hl]. change (stored st0) with s in Hts. change (rebuilt st0) with r in Hsh.
  pose proof (λ k, p_within_shape _ _ k Hr Hr' Hsh) as Hw.
  destruct (p_ForEach_law (stored st) Hs') as (Hg & Hnd & Hin).
  destruct (leak_loop_spec (p_ForEach (stored st)) st Hr' Hg Hnd) as (Hok & Hw' & Ht' & Hl').
  exists st. split; [done|]. split; [done|]. split; [congruence|]. split.
  - apply set_eq. intros k. unfold repaired. rewrite Ht', Hin, Hts, Htr, Hl.
    rewrite elem_of_union, elem_of_filter, elem_of_difference. rewrite (Hw k). simpl.
    destruct (decide (k ∈ U)); tauto.
  - intros k. rewrite Hl'. destruct (decide (k ∈ U)) as [HU|HU].
    + rewrite decide_False; [|rewrite Hin, Hts; set_solver]. rewrite Hl. by rewrite decide_True.
    + assert (leaks st !! k = l !! k) as -> by (rewrite Hl; by rewrite decide_False).
      destruct (decide (k ∈ taken s)) as [Hp|Hp].
      * rewrite decide_True; [done|]. rewrite Hin, Hts. set_solver.
      * rewrite decide_False; [done|]. rewrite Hin, Hts. set_solver.
Qed.
End spec.

(** ** Ports: what a run does *)

Lemma sorted_NoDup (l : list Z) : StronglySorted Z.lt l → NoDup l.
Proof.
  induction 1 as [|x l _ IH Hx]; constructor; [|done].
  intros Hin. rewrite Forall_forall in Hx. specialize (Hx x Hin). lia.
Qed.

#[export] Instance valid_port_dec pr p : Decision (valid_port pr p).
Proof. unfold valid_port. apply _. Defined.

Definition port_benign (e : port_error) : Prop := e = ErrAllocated ∨ ∃ s, e = ErrNotInRange s.

Lemma port_abort_benign e : port_benign e → port_abort e = None.
Proof. by intros [-> | [s ->]]. Qed.

Lemma Bitmap_rangeSpec i (a : AllocationBitmap) :
  rangeSpec (Allocate i a).2 = rangeSpec a ∧ rangeSpec (Release i a).2 = rangeSpec a.
Proof.
  split; simpl.
  - unfold allocate_bit. by destruct (Z.testbit (allocated a) i).
  - unfold release_bit. by destruct (Z.testbit (allocated a) i).
Qed.

Lemma port_stored_ok_after r r' T :
  port_stored_ok r → port_after false bitmap_ok bitmap_taken max r r' T →
  rangeSpec (port_alloc r') = rangeSpec (port_alloc r) → port_stored_ok r'.
Proof. intros [_ Hs] (Hok & Hr & _) Hsp. split; [done|]. by rewrite Hsp, Hr. Qed.

#[export] Instance port_pool_laws :
  PoolLaws id (λ _, True) portRange port_stored_ok (λ r p, valid_port (portRange r) p) (ports_taken bitmap_taken) port_benign.
Proof.
  split.
  - intros r p Hr _. destruct (Port_Allocate_spec false bitmap_ok bitmap_taken max p r (proj1 Hr)) as (res & r' & Heq & Hres).
    assert (Hspec : rangeSpec (port_alloc r') = rangeSpec (port_alloc r)).
    { unfold Port_Allocate in Heq. destruct (Port_contains p r) as [o|]; [|by injection Heq as _ <-].
      pose proof (Bitmap_rangeSpec o (port_alloc r)) as [Hs _].
      destruct (Allocate o (port_alloc r)) as [x a]. by injection Heq as _ <-. }
    exists res, r'. split; [done|]. unfold id. destruct res as [u|e].
    + destruct Hres as (Hv & Hfree & Ha). split; [by eapply port_stored_ok_after|].
      destruct Ha as (_ & Hpr & Ht). by split_and!.
    + destruct Hres as (He & Ha). split; [by eapply port_stored_ok_after|].
      destruct Ha as (_ & Hpr & Ht). split; [done|].
      destruct He as [|[[Hin ->]|[Hv ->]]]; [done| |]; (split; [|split; [tauto|done]]); [by left|right; eauto].
  - intros r p [[Hok Hl] _] _. simpl. unfold Port_Has. rewrite Port_contains_spec. unfold id.
    destruct (decide (valid_port (portRange r) p)) as [Hv|Hv].
    + pose proof (Has_law (port_alloc r) (p - Base (portRange r)) Hok) as ->.
      apply bool_decide_ext. by rewrite elem_of_ports_taken.
    + rewrite bool_decide_eq_false_2; [done|]. intros Hp. apply Hv. by apply (ports_taken_valid false bitmap_ok bitmap_taken max).
  - intros r p Hr _. destruct (Port_Release_spec false bitmap_ok bitmap_taken max p r (proj1 Hr)) as (res & r' & Heq & [| ->] & Ha); [done|].
    exists r'. split; [done|]. split.
    + eapply port_stored_ok_after; [done..|]. unfold Port_Release in Heq.
      destruct (Port_contains p r) as [o|]; [|by injection Heq as <-].
      pose proof (Bitmap_rangeSpec o (port_alloc r)) as [_ Hs].
      destruct (Release o (port_alloc r)) as [x a]. by injection Heq as _ <-.
    + destruct Ha as (_ & Hpr & Ht). done.
  - intros r [[Hok Hl] _]. simpl. unfold Port_ForEach. destruct (ForEach_law (port_alloc r) Hok) as [Hsorted Hin].
    split; [by apply Forall_true|]. rewrite list_fmap_id. split.
    + apply NoDup_fmap_2; [intros x y ?; lia|]. by apply sorted_NoDup.
    + intros p. rewrite list_elem_of_fmap, elem_of_ports_taken. setoid_rewrite Hin. split.
      * intros (o & -> & Ho). by replace (Base (portRange r) + o - Base (portRange r)) with o by lia.
      * intros Ho. eexists. split; [|done]. lia.
  - by intros r r' p _ _ ->.
Qed.

(** The ports of the services that lie in a range. *)
Definition used_ports (pr : PortRange) (list : list Service) : gset Z :=
  filter (valid_port pr) (list_to_set (list ≫= CollectServiceNodePorts)).

(** A snapshot of the ports in [T], in the eyes of a controller of range [pr]. *)
Definition snapshot_of (pr : PortRange) (snapshot : RangeAllocation) (T : gset Z) : Prop :=
  ∃ r, Port_NewFromSnapshot (if decide (ra_Range snapshot = "") then PortRange_String pr else ra_Range snapshot)
         (Data snapshot) = Ok r ∧
       port_stored_ok r ∧ ports_taken bitmap_taken r = T.

Lemma PortRange_String_nonempty pr : range_in_bounds pr → PortRange_String pr ≠ "".
Proof.
  intros (Hb & Hs & Hm). unfold PortRange_String. rewrite decide_False by lia.
  destruct (FormatInt_digits (Base pr) Hb) as [Hne _]. by destruct (FormatInt (Base pr)).
Qed.

Section port_runs.
Context {W : Type} `{!RangeRegistry W}.

Lemma Port_runOnce_spec c (w w1 w2 : W) snapshot list T :
  range_in_bounds (pr_portRange c) →
  registry_Get w = (Ok snapshot, w1) → registry_List w1 = (Ok list, w2) → snapshot_of (pr_portRange c) snapshot T →
  let U := used_ports (pr_portRange c) list in
  ∃ snapshot' leaks',
    Port_runOnce c w =
      (let '(err, w3) := registry_CreateOrUpdate snapshot' w2 in
       (Ret (persist_error err), (mkPortRepair (pr_portRange c) leaks', w3))) ∧
    ResourceVersion snapshot' = ResourceVersion snapshot ∧
    snapshot_of (pr_portRange c) snapshot' (repaired (valid_port (pr_portRange c)) U T (pr_leaks c)) ∧
    recounted U T (pr_leaks c) leaks'.
Proof.
  intros Hb HG HL (r & Hnew & Hr & HT) U. unfold Port_runOnce. rewrite HG, Hnew, HL.
  destruct (run_core id port_abort (λ _, True) portRange port_stored_ok (λ r p, valid_port (portRange r) p)
    (ports_taken bitmap_taken) port_benign port_abort_benign CollectServiceNodePorts list r
    (NewPortAllocator (pr_portRange c)) (pr_leaks c)) as (st & -> & Hok & Hpr & Ht & Hl);
    [done|apply NewPortAllocator_stored_ok|done|by apply Forall_true|].
  rewrite list_fmap_id, HT in Ht, Hl. change (p_ForEach (stored st)) with (Port_ForEach (stored st)) in *.
  set (st' := leak_loop id (Port_ForEach (stored st)) st) in *.
  change (portRange (rebuilt st') = pr_portRange c) in Hpr.
  destruct (Port_NewFromSnapshot_Snapshot (rebuilt st') Hok) as (r' & Hnew' & Hr' & _ & HT'); [by rewrite Hpr|].
  destruct (Port_Snapshot (rebuilt st')) as [range data] eqn:Hsnap.
  assert (range = PortRange_String (pr_portRange c)) as ->.
  { destruct Hok as [_ Hspec]. unfold Port_Snapshot, Snapshot in Hsnap. injection Hsnap as <- _. by rewrite Hspec, Hpr. }
  eexists (mkRangeAllocation (ResourceVersion snapshot) (PortRange_String (pr_portRange c)) data), (leaks st').
  split; [done|]. split; [done|]. split; [|done].
  exists r'. simpl. rewrite decide_False by (by apply PortRange_String_nonempty). split_and!; [done..|].
  by rewrite HT', Ht.
Qed.
End port_runs.

(** ** A world with other writers

    Each of the [writes] is a competing write that makes one attempt of the
    controller fail, and leaves behind what it wrote. *)

Record contended := mkContended {
  writes : list RangeAllocation;
  cell : RangeAllocation;
  listed : list Service
}.

#[export] Instance contended_registry : RangeRegistry contended := {|
  registry_Get w := (Ok (cell w), w);
  registry_List w := (Ok (listed w), w);
  registry_CreateOrUpdate s w :=
    match writes w with
    | [] => (None, mkContended [] s (listed w))
    | s' :: writes => (Some ConflictError, mkContended writes s' (listed w))
    end
|}.

Lemma attempt_spec c (w : contended) T :
  range_in_bounds (pr_portRange c) → snapshot_of (pr_portRange c) (cell w) T →
  let U := used_ports (pr_portRange c) (listed w) in
  ∃ snapshot' leaks',
    Port_runOnce c w =
      match writes w with
      | [] => (Ret None, (mkPortRepair (pr_portRange c) leaks', mkContended [] snapshot' (listed w)))
      | s :: writes => (Ret (Some ConflictError), (mkPortRepair (pr_portRange c) leaks', mkContended writes s (listed w)))
      end ∧
    snapshot_of (pr_portRange c) snapshot' (repaired (valid_port (pr_portRange c)) U T (pr_leaks c)) ∧
    recounted U T (pr_leaks c) leaks'.
Proof.
  intros Hb Hsnap U.
  destruct (Port_runOnce_spec c w w w (cell w) (listed w) T Hb) as (s & l & -> & _ & Hs & Hl);
    [done..|].
  exists s, l. split; [|done]. simpl. by destruct (writes w).
Qed.

(** How many more runs hold a leaked port with this counter. *)
Definition budget (c : option Z) : nat :=
  match c with None => 2 | Some count => Z.to_nat count end.

Lemma held_budget c : held c = true ↔ (0 < budget c)%nat.
Proof. destruct c as [z|]; simpl; [rewrite bool_decide_eq_true; lia|split; [lia|done]]. Qed.

Lemma budget_counted c : budget (counted c) = (budget c - 1)%nat.
Proof. destruct c as [z|]; simpl; [|done]. destruct (decide (z > 0)); lia. Qed.

Lemma retry_grace steps last c (w : contended) p :
  range_in_bounds (pr_portRange c) → (length (writes w) < steps)%nat →
  Forall (λ s, ∃ T, snapshot_of (pr_portRange c) s T ∧ p ∈ T) (cell w :: writes w) →
  valid_port (pr_portRange c) p → p ∉ used_ports (pr_portRange c) (listed w) →
  ∃ c' s' T',
    RetryOnConflict steps (λ '(c, w), Port_runOnce c w) last (c, w) = (Ret None, (c', mkContended [] s' (listed w))) ∧
    snapshot_of (pr_portRange c) s' T' ∧ (p ∈ T' ↔ (length (writes w) < budget (pr_leaks c !! p))%nat).
Proof.
  revert last c w. induction steps as [|steps IH]; intros last c w Hb Hlen Hall Hv Hp; [lia|].
  apply Forall_cons in Hall as [(T & Hsnap & HpT) Hall].
  destruct (attempt_spec c w T Hb Hsnap) as (s & l & Heq & Hs & Hl). simpl. rewrite Heq.
  specialize (Hl p). rewrite decide_False, decide_True in Hl by done.
  destruct (writes w) as [|s1 ws] eqn:Hw.
  - eexists _, s, _. split; [done|]. split; [done|]. unfold repaired.
    rewrite elem_of_union, elem_of_filter, held_budget. simpl. tauto.
  - simpl. destruct (IH (Some ConflictError) (mkPortRepair (pr_portRange c) l) (mkContended ws s1 (listed w)))
      as (c' & s' & T' & Hret & Hs' & HT'); [done|simpl in *; lia|done|done|done|].
    exists c', s', T'. split; [done|]. split; [done|]. simpl in HT'. rewrite Hl, budget_counted in HT'.
    rewrite HT'. simpl. lia.
Qed.

(** Conflicts use up the time that a service has to appear.  A port that is
    taken but of no service yet is meant to be held for two runs of the controller,
    and given up in the third.  Each attempt counts, though, and writing fails
    exactly when others allocate: with two conflicts, the port is given up within
    the first run, some sixty milliseconds after it was seen first. *)
Theorem repair_conflicts_use_up_grace (pr : PortRange) (w : contended) (p : Z) :
  range_in_bounds pr → (length (writes w) < DefaultBackoff_Steps)%nat →
  Forall (λ s, ∃ T, snapshot_of pr s T ∧ p ∈ T) (cell w :: writes w) →
  valid_port pr p → p ∉ used_ports pr (listed w) →
  ∃ c' s' T',
    Port_RunOnce (NewPortRepair pr) w = (Ret None, (c', mkContended [] s' (listed w))) ∧
    snapshot_of pr s' T' ∧ (p ∈ T' ↔ (length (writes w) < 2)%nat).
Proof.
  intros Hb Hlen Hall Hv Hp. unfold Port_RunOnce.
  destruct (retry_grace DefaultBackoff_Steps None (NewPortRepair pr) w p) as (c' & s' & T' & H1 & H2 & H3); try done.
  exists c', s', T'. by rewrite H3.
Qed.

(** *** Undisturbed runs *)

Lemma quiet_run c s list T :
  range_in_bounds (pr_portRange c) → snapshot_of (pr_portRange c) s T →
  let U := used_ports (pr_portRange c) list in
  ∃ leaks' s',
    Port_RunOnce c (mkContended [] s list) = (Ret None, (mkPortRepair (pr_portRange c) leaks', mkContended [] s' list)) ∧
    snapshot_of (pr_portRange c) s' (repaired (valid_port (pr_portRange c)) U T (pr_leaks c)) ∧
    recounted U T (pr_leaks c) leaks'.
Proof.
  intros Hb Hs U. destruct (attempt_spec c (mkContended [] s list) T Hb Hs) as (s' & l & Heq & Hs' & Hl).
  exists l, s'. split; [|done]. unfold Port_RunOnce, DefaultBackoff_Steps. simpl. by rewrite Heq.
Qed.

Lemma three_runs pr s list T :
  range_in_bounds pr → snapshot_of pr s T →
  let U := used_ports pr list in
  ∃ l1 s1 l2 s2 l3 s3,
    Port_RunOnce (NewPortRepair pr) (mkContended [] s list) = (Ret None, (mkPortRepair pr l1, mkContended [] s1 list)) ∧
    Port_RunOnce (mkPortRepair pr l1) (mkContended [] s1 list) = (Ret None, (mkPortRepair pr l2, mkContended [] s2 list)) ∧
    Port_RunOnce (mkPortRepair pr l2) (mkContended [] s2 list) = (Ret None, (mkPortRepair pr l3, mkContended [] s3 list)) ∧
    snapshot_of pr s1 (U ∪ filter (valid_port pr) T) ∧ snapshot_of pr s2 (U ∪ filter (valid_port pr) T) ∧
    snapshot_of pr s3 U.
Proof.
  intros Hb Hs U.
  destruct (quiet_run (NewPortRepair pr) s list T Hb Hs) as (l1 & s1 & H1 & Hs1 & Hl1).
  destruct (quiet_run (mkPortRepair pr l1) s1 list _ Hb Hs1) as (l2 & s2 & H2 & Hs2 & Hl2).
  destruct (quiet_run (mkPortRepair pr l2) s2 list _ Hb Hs2) as (l3 & s3 & H3 & Hs3 & Hl3).
  cbn [NewPortRepair pr_portRange pr_leaks] in *. fold U in Hs1, Hl1, Hs2, Hl2, Hs3, Hl3.
  exists l1, s1, l2, s2, l3, s3. split_and!; try done.
  all: set (T1 := repaired (valid_port pr) U T ∅) in *; assert (HT1 : T1 = U ∪ filter (valid_port pr) T)
    by (apply set_eq; intros p; unfold T1, repaired; rewrite !elem_of_union, !elem_of_filter, lookup_empty; simpl;
        destruct (decide (p ∈ U)); tauto).
  - by rewrite <-HT1.
  - set (T2 := repaired (valid_port pr) U T1 l1) in *. enough (T2 = T1) as Heq by (by rewrite <-HT1, <-Heq). apply set_eq. intros p.
    unfold T2, repaired. rewrite elem_of_union, elem_of_filter, (Hl1 p), lookup_empty, HT1, elem_of_union, elem_of_filter.
    destruct (decide (p ∈ U)); [tauto|]. destruct (decide (p ∈ T)); simpl; tauto.
  - set (T2 := repaired (valid_port pr) U T1 l1) in *. set (T3 := repaired (valid_port pr) U T2 l2) in *. enough (T3 = U) as Heq by (by rewrite <-Heq).
    apply set_eq. intros p. unfold T3, repaired. rewrite elem_of_union, elem_of_filter. split; [|tauto].
    intros [?|[(HU & Hv & Hheld) HT2]]; [done|]. exfalso.
    assert (p ∈ T1 ∧ p ∈ T) as [HpT1 HpT].
    { unfold T2, repaired in HT2. rewrite elem_of_union, elem_of_filter in HT2. rewrite HT1 in *.
      rewrite elem_of_union, elem_of_filter in *. tauto. }
    rewrite (Hl2 p), decide_False, decide_True in Hheld by done.
    rewrite (Hl1 p), decide_False, decide_True in Hheld by done. done.
Qed.

Fixpoint runs (n : nat) (c : PortRepair) (w : contended) : list (outcome (option repair_error)) * (PortRepair * contended) :=
  match n with
  | O => ([], (c, w))
  | S n =>
      let '(res, (c, w)) := Port_RunOnce c w in
      let '(ress, cw) := runs n c w in (res :: ress, cw)
  end.

Lemma runs_stable n c s list :
  range_in_bounds (pr_portRange c) → snapshot_of (pr_portRange c) s (used_ports (pr_portRange c) list) →
  ∃ c' s', runs n c (mkContended [] s list) = (replicate n (Ret None), (c', mkContended [] s' list)) ∧
    snapshot_of (pr_portRange c) s' (used_ports (pr_portRange c) list).
Proof.
  revert c s. induction n as [|n IH]; intros c s Hb Hs; [by exists c, s|].
  destruct (quiet_run c s list _ Hb Hs) as (l1 & s1 & Heq & Hs1 & _).
  destruct (IH (mkPortRepair (pr_portRange c) l1) s1) as (c' & s' & Hruns & Hs'); [done| |].
  { replace (repaired _ _ _ _) with (used_ports (pr_portRange c) list) in Hs1; [done|].
    unfold repaired. apply set_eq. intros p. rewrite elem_of_union, elem_of_filter. tauto. }
  exists c', s'. cbn [runs]. rewrite Heq, Hruns. done.
Qed.

(** C31. Undisturbed, the repair of node ports converges: every run succeeds, the
    first two add the ports of services that were not allocated and hold what seems
    to have leaked, and from the third run on exactly the node ports of the services
    that lie in the range are taken. *)
Theorem repair_converges (pr : PortRange) (s : RangeAllocation) (list : list Service) (T : gset Z) (n : nat) :
  range_in_bounds pr → snapshot_of pr s T →
  let U := used_ports pr list in
  ∃ c' s', runs n (NewPortRepair pr) (mkContended [] s list) = (replicate n (Ret None), (c', mkContended [] s' list)) ∧
    snapshot_of pr s' (if decide (n = 0)%nat then T else if decide (n < 3)%nat then U ∪ filter (valid_port pr) T else U).
Proof.
  intros Hb Hs U. destruct (three_runs pr s list T Hb Hs) as (l1 & s1 & l2 & s2 & l3 & s3 & H1 & H2 & H3 & Hs1 & Hs2 & Hs3).
  destruct n as [|[|[|n]]]; cbn [runs]; rewrite ?H1, ?H2, ?H3; [by eexists _, s|by eexists _, s1|by eexists _, s2|].
  destruct (runs_stable n (mkPortRepair pr l3) s3 list Hb Hs3) as (c' & s' & -> & Hs'). by exists c', s'.
Qed.

(** The repair takes health check ports away from services that use them.  It
    counts the node ports of the ports of a service, not that of its health check,
    so that the third run frees the health check port of every service, and another
    service can get it. *)
Theorem repair_loses_health_ports (pr : PortRange) (s : RangeAllocation) (list : list Service) (T : gset Z)
    (svc : Service) (hp : Z) :
  range_in_bounds pr → snapshot_of pr s T → svc ∈ list → hp ∈ health_ports true svc →
  hp ∈ T → valid_port pr hp → hp ∉ list ≫= CollectServiceNodePorts →
  ∃ ress c' s' T', runs 3 (NewPortRepair pr) (mkContended [] s list) = (ress, (c', mkContended [] s' list)) ∧
    snapshot_of pr s' T' ∧ hp ∉ T'.
Proof.
  intros Hb Hs Hsvc Hhp HT Hv Hunused.
  destruct (three_runs pr s list T Hb Hs) as (l1 & s1 & l2 & s2 & l3 & s3 & H1 & H2 & H3 & _ & _ & Hs3).
  cbn [runs]. rewrite H1, H2, H3. eexists _, _, s3, _. split; [done|]. split; [done|].
  unfold used_ports. rewrite elem_of_filter, elem_of_list_to_set. tauto.
Qed.

(** ** Examples *)

(** The node ports 30000 to 30099, of which 30005 is for a health check, 30007
    leaked and 30080 of the web server. *)
Definition demo_ports : PortAllocator AllocationBitmap :=
  (Port_Allocate 30080 (Port_Allocate 30007 (Port_Allocate 30005 (NewPortAllocator demo_range)).2).2).2.

Definition demo_snapshot : RangeAllocation :=
  mkRangeAllocation "7" (Port_Snapshot demo_ports).1 (Port_Snapshot demo_ports).2.

Lemma demo_bounds : range_in_bounds demo_range.
Proof. unfold range_in_bounds. simpl. lia. Qed.

Lemma demo_snapshot_of : snapshot_of demo_range demo_snapshot {[30005; 30007; 30080]}.
Proof.
  assert (Halloc : ∀ p r, port_stored_ok r → port_stored_ok (Port_Allocate p r).2).
  { intros p r Hr. destruct (port_pool_laws.(p_Allocate_law) r p Hr I) as (res & r' & Heq & Hr' & _).
    change (Port_Allocate p r = (res, r')) in Heq. by rewrite Heq. }
  assert (port_stored_ok demo_ports) as Hok by (do 3 apply Halloc; apply NewPortAllocator_stored_ok).
  destruct (Port_NewFromSnapshot_Snapshot demo_ports Hok) as (r & Hnew & Hr & _ & Ht); [apply demo_bounds|].
  exists r. split; [exact Hnew|]. split; [done|]. rewrite Ht. vm_compute. reflexivity.
Qed.

(** A load balancer that only takes traffic for pods on the node. *)
Definition lb_service : Service :=
  mkService "lb" "default"
    (<[BetaAnnotationExternalTraffic := AnnotationValueExternalTrafficLocal]>
       (<[BetaAnnotationHealthCheckNodePort := "30005"]> ∅))
    ServiceTypeLoadBalancer (IPAddress [10; 0; 0; 9]) [mkServicePort "http" "TCP" 80 30080] [].

Lemma repair_conflicts_use_up_grace_witness :
  let w := mkContended [demo_snapshot; demo_snapshot] demo_snapshot [lb_service] in
  ∃ c' s' T',
    Port_RunOnce (NewPortRepair demo_range) w = (Ret None, (c', mkContended [] s' [lb_service])) ∧
    snapshot_of demo_range s' T' ∧ 30007 ∉ T'.
Proof.
  intros w.
  destruct (repair_conflicts_use_up_grace demo_range w 30007) as (c' & s' & T' & Hrun & Hs & HT).
  - apply demo_bounds.
  - simpl. unfold DefaultBackoff_Steps. lia.
  - repeat constructor; (eexists; split; [apply demo_snapshot_of|set_solver]).
  - unfold valid_port. simpl. lia.
  - vm_compute. discriminate.
  - exists c', s', T'. split; [exact Hrun|]. split; [exact Hs|]. rewrite HT. simpl. lia.
Defined.

Lemma repair_converges_witness :
  ∃ c' s', runs 5 (NewPortRepair demo_range) (mkContended [] demo_snapshot [lb_service])
           = (replicate 5 (Ret None), (c', mkContended [] s' [lb_service])) ∧
    snapshot_of demo_range s' {[30080]}.
Proof.
  pose proof (repair_converges demo_range demo_snapshot [lb_service] _ 5 demo_bounds demo_snapshot_of) as H.
  replace (used_ports demo_range [lb_service]) with ({[30080]} : gset Z) in H by (vm_compute; reflexivity).
  exact H.
Defined.

Lemma repair_loses_health_ports_witness :
  health_ports true lb_service = [30005] ∧
  ∃ ress c' s' T',
    runs 3 (NewPortRepair demo_range) (mkContended [] demo_snapshot [lb_service]) = (ress, (c', mkContended [] s' [lb_service])) ∧
    snapshot_of demo_range s' T' ∧ 30005 ∉ T'.
Proof.
  split; [vm_compute; reflexivity|].
  apply (repair_loses_health_ports demo_range demo_snapshot [lb_service] {[30005; 30007; 30080]} lb_service 30005).
  - apply demo_bounds.
  - apply demo_snapshot_of.
  - by left.
  - replace (health_ports true lb_service) with [30005] by (vm_compute; reflexivity). by left.
  - set_solver.
  - unfold valid_port. simpl. lia.
  - apply (bool_decide_unpack _). vm_compute. exact I.
Defined.
