(* ===== verification/IPRepair.v ===== *)
(** * The repair of cluster addresses

    The address allocator is a pool in the sense of Repair.v, and what a run of
    ipallocator/controller/repair.go does follows from what the loops do. *)

From S2P Require Import Prelude Allocator PortAllocator IPAllocator ServiceRest Repair.
Open Scope Z_scope.

(** ** Addresses: what a run does *)

Definition address (ip : list Z) : Prop := Forall (λ b, 0 ≤ b < 256) ip.

Section addresses.
Context (ParseCIDR : string → result string IPNet) (net_String : IPNet → string).

Definition range_stored_ok (r : Range AllocationBitmap) : Prop :=
  range_ok bitmap_ok max r ∧ rangeSpec (range_alloc r) = net_String (net r).

(** The addresses that are taken, in their long form. *)
Definition addresses_taken (r : Range AllocationBitmap) : gset (list Z) :=
  set_map (λ o, ParseIP_String (addIPOffset (base r) o)) (range_taken bitmap_taken r).

Definition ip_benign (e : ip_error) : Prop := e = ErrIPAllocated ∨ e = ErrIPNotInRange.

Lemma ip_abort_benign e : ip_benign e → ip_abort e = None.
Proof. by intros [-> | ->]. Qed.

Lemma elem_of_addresses_taken r ip :
  range_stored_ok r → address ip →
  ParseIP_String ip ∈ addresses_taken r ↔
  ∃ o, contains ip r = Some o ∧ o ∈ range_taken bitmap_taken r.
Proof.
  intros [Hok _] Hip. unfold addresses_taken. rewrite elem_of_map. split.
  - intros (o & Hkey & Ho). exists o. split; [|done].
    pose proof (bitmap_range (range_alloc r) (range_alloc_ok _ _ r Hok) o Ho) as Hlim. rewrite (range_limit _ _ r Hok) in Hlim.
    rewrite <-(contains_parse bitmap_ok max r ip Hok), Hkey. apply (contains_address bitmap_ok max); auto.
  - intros (o & Hc & Ho). exists o. split; [|done]. by apply (contains_key bitmap_ok max).
Qed.

Lemma range_unique r r' :
  range_stored_ok r → range_stored_ok r' → net r' = net r → base r' = base r ∧ ∀ ip, contains ip r' = contains ip r.
Proof.
  intros [[_ _ _ Hb _ Hm] _] [[_ _ _ Hb' _ Hm'] _] Hnet.
  assert (base r' = base r) as HB by (rewrite Hb, Hb'; by rewrite Hnet). split; [done|].
  intros ip. unfold contains. rewrite Hnet, HB, Hm, Hm', Hnet. done.
Qed.

Lemma taken_in_limit r o :
  range_stored_ok r → o ∈ range_taken bitmap_taken r → in_limit (range_max r) o.
Proof.
  intros [Hok _] Ho. rewrite <-(range_limit _ _ r Hok).
  by apply (bitmap_range (range_alloc r) (range_alloc_ok _ _ r Hok)).
Qed.

Lemma address_key_inj r o o' :
  range_stored_ok r → in_limit (range_max r) o → in_limit (range_max r) o' →
  ParseIP_String (addIPOffset (base r) o) = ParseIP_String (addIPOffset (base r) o') → o = o'.
Proof.
  intros [Hok _] Ho Ho' Heq.
  pose proof (contains_address bitmap_ok max r o _ Hok Ho (or_intror eq_refl)) as H1.
  pose proof (contains_address bitmap_ok max r o' _ Hok Ho' (or_intror eq_refl)) as H2. congruence.
Qed.

Lemma bigForIP_net n : net_ok n → bigForIP (net_IP n) = SetBytes (net_IP n).
Proof.
  intros [Hlen Hb (b & l & Hbl & Hpos) _ _]. unfold bigForIP, To4, To16.
  destruct (decide (length (net_IP n) = 4%nat)) as [H4|H4]; [done|].
  rewrite decide_False.
  - rewrite decide_True by lia. done.
  - intros [_ Hpre]. rewrite Hbl in Hpre. simpl in Hpre. injection Hpre as -> _. lia.
Qed.

(** Each address that is taken is visited. *)
Lemma Range_ForEach_spec r :
  range_stored_ok r → Range_ForEach r = addIPOffset (base r) <$> ForEach (range_alloc r).
Proof.
  intros Hr. pose proof Hr as [Hok _]. unfold Range_ForEach. apply list_fmap_ext. intros i o Hi.
  assert (in_limit (range_max r) o) as Ho.
  { apply (taken_in_limit r o Hr). apply (ForEach_law (range_alloc r) (range_alloc_ok _ _ r Hok)).
    by apply list_elem_of_lookup_2 in Hi. }
  pose proof (contains_address bitmap_ok max r o _ Hok Ho (or_introl eq_refl)) as Hc.
  unfold GetIndexedIP. rewrite (bigForIP_net _ (range_net _ _ r Hok)).
  replace (addIPOffset (SetBytes (net_IP (net r))) (o + 1)) with (addIPOffset (base r) o).
  - unfold contains in Hc. by destruct (Contains (net r) (addIPOffset (base r) o)).
  - unfold addIPOffset. f_equal. rewrite (range_base _ _ r Hok). lia.
Qed.

Lemma range_taken_same r r' :
  range_stored_ok r → range_stored_ok r' → net r' = net r →
  addresses_taken r' = set_map (λ o, ParseIP_String (addIPOffset (base r) o)) (range_taken bitmap_taken r').
Proof. intros Hr Hr' Hnet. unfold addresses_taken. by destruct (range_unique r r' Hr Hr' Hnet) as [-> _]. Qed.

Lemma ip_Allocate_law r ip :
  range_stored_ok r → address ip →
  ∃ res r', Range_Allocate ip r = (res, r') ∧ range_stored_ok r' ∧
    net r' = net r ∧
    match res with
    | Ok _ => is_Some (contains (ParseIP_String ip) r) ∧ ParseIP_String ip ∉ addresses_taken r ∧
              addresses_taken r' = {[ParseIP_String ip]} ∪ addresses_taken r
    | Err e => ip_benign e ∧ (is_Some (contains (ParseIP_String ip) r) → ParseIP_String ip ∈ addresses_taken r) ∧
               addresses_taken r' = addresses_taken r
    end.
Proof.
  intros Hr Hip. pose proof Hr as [Hok Hspec].
  destruct (Range_Allocate_spec false bitmap_ok bitmap_taken max ip r Hok) as (res & r' & Heq & Hres).
  assert (Hkept : rangeSpec (range_alloc r') = rangeSpec (range_alloc r) ∧ net r' = net r).
  { unfold Range_Allocate in Heq. destruct (contains ip r) as [o|]; [|by injection Heq as _ <-].
    pose proof (Bitmap_rangeSpec o (range_alloc r)) as [Hs _].
    destruct (Allocate o (range_alloc r)) as [x a]. by injection Heq as _ <-. }
  destruct Hkept as [Hs Hnet].
  assert (Hr' : range_stored_ok r').
  { split; [|by rewrite Hs, Hnet]. destruct res; [destruct Hres as (? & _ & _ & ? & _)|destruct Hres as (_ & ? & _)]; done. }
  exists res, r'. split; [done|]. split; [done|]. split; [done|].
  rewrite (contains_parse bitmap_ok max r ip Hok). destruct res as [u|e].
  + destruct Hres as (o & Hc & Hfree & _ & _ & Ht). split; [by exists o|]. split.
    * rewrite elem_of_addresses_taken by done. intros (o' & Hc' & Ho'). congruence.
    * rewrite (range_taken_same r r') by done. rewrite Ht, set_map_union_L, set_map_singleton_L.
      by rewrite (contains_key bitmap_ok max r ip o).
  + destruct Hres as (He & _ & _ & Ht). split.
    { destruct He as [|[[_ ->]|(o & _ & _ & ->)]]; [done|by right|by left]. }
    split.
    * intros [o Hc]. rewrite elem_of_addresses_taken by done. destruct He as [|[[Hn _]|(o' & Hc' & Ho' & _)]]; [done|congruence|eauto].
    * rewrite (range_taken_same r r') by done. by rewrite Ht.
Qed.

Lemma ip_Has_law r ip :
  range_stored_ok r → address ip → Range_Has ip r = bool_decide (ParseIP_String ip ∈ addresses_taken r).
Proof.
  intros Hr Hip. unfold Range_Has. destruct (contains ip r) as [o|] eqn:Hc.
  + pose proof (Has_law (range_alloc r) o (range_alloc_ok _ _ r (proj1 Hr))) as ->. apply bool_decide_ext.
    rewrite elem_of_addresses_taken by done. rewrite Hc. unfold range_taken. naive_solver.
  + rewrite bool_decide_eq_false_2; [done|]. rewrite elem_of_addresses_taken by done. naive_solver.
Qed.

Lemma ip_Release_law r ip :
  range_stored_ok r → address ip →
  ∃ r', Range_Release ip r = (Ok tt, r') ∧ range_stored_ok r' ∧
    net r' = net r ∧
    addresses_taken r' = addresses_taken r ∖ {[ParseIP_String ip]}.
Proof.
  intros Hr Hip. pose proof Hr as [Hok Hspec].
  destruct (Range_Release_spec false bitmap_ok bitmap_taken max ip r Hok) as (res & r' & Heq & [| ->] & Hok' & _ & Ht); [done|].
  assert (Hkept : rangeSpec (range_alloc r') = rangeSpec (range_alloc r) ∧ net r' = net r).
  { unfold Range_Release in Heq. destruct (contains ip r) as [o|]; [|by injection Heq as <-].
    pose proof (Bitmap_rangeSpec o (range_alloc r)) as [_ Hs].
    destruct (Release o (range_alloc r)) as [x a]. by injection Heq as _ <-. }
  destruct Hkept as [Hs Hnet]. assert (Hr' : range_stored_ok r') by (split; [done|by rewrite Hs, Hnet]).
  exists r'. split; [done|]. split; [done|]. split; [done|].
  rewrite (range_taken_same r r') by done. rewrite Ht. apply set_eq. intros k. unfold addresses_taken.
  rewrite elem_of_difference, elem_of_singleton, !elem_of_map. destruct (contains ip r) as [o0|] eqn:Hc.
  + pose proof (contains_key bitmap_ok max r ip o0 Hok Hip Hc) as Hkey.
    pose proof (contains_limit bitmap_ok max ip r o0 Hok Hc) as Hlim. rewrite (range_limit _ _ r Hok) in Hlim.
    split.
    * intros (o & -> & [Ho Hne]%elem_of_difference). split; [by exists o|]. rewrite Hkey. intros Hkk.
      apply (address_key_inj r) in Hkk; [set_solver|done|by apply taken_in_limit|done].
    * intros [(o & -> & Ho) Hne]. exists o. split; [done|]. apply elem_of_difference. split; [done|].
      rewrite elem_of_singleton. congruence.
  + split; [|tauto]. intros (o & -> & Ho). split; [by exists o|]. intros Hkk.
    assert (ParseIP_String ip ∈ addresses_taken r) as Hin
      by (rewrite <-Hkk; unfold addresses_taken; apply elem_of_map; by exists o).
    apply elem_of_addresses_taken in Hin as (? & ? & _); [congruence|done|done].
Qed.

Lemma ip_ForEach_law r :
  range_stored_ok r →
  Forall address (Range_ForEach r) ∧ NoDup (ParseIP_String <$> Range_ForEach r) ∧
  ∀ k, k ∈ ParseIP_String <$> Range_ForEach r ↔ k ∈ addresses_taken r.
Proof.
  intros Hr. pose proof Hr as [Hok _]. rewrite (Range_ForEach_spec r Hr).
  destruct (ForEach_law (range_alloc r) (range_alloc_ok _ _ r Hok)) as [Hsorted Hin].
  assert (Hlim : ∀ o, o ∈ ForEach (range_alloc r) → in_limit (range_max r) o).
  { intros o Ho. apply (taken_in_limit r o Hr). by apply Hin. }
  split; [|split].
  + apply Forall_forall. intros ip (o & -> & Ho)%list_elem_of_fmap. apply Bytes_bytes.
    destruct (net_number bitmap_ok max r o Hok (Hlim o Ho)) as (k & _ & _ & Hn & _). lia.
  + rewrite <-list_fmap_compose. apply NoDup_fmap_2_strong; [|by apply sorted_NoDup].
    intros o o' Ho Ho' Heq. by apply (address_key_inj r) in Heq; [|done|apply Hlim..].
  + intros k. rewrite <-list_fmap_compose, list_elem_of_fmap. unfold addresses_taken.
    rewrite elem_of_map. setoid_rewrite Hin. done.
Qed.

Instance ip_pool_laws :
  PoolLaws ParseIP_String address net range_stored_ok (λ r k, is_Some (contains k r)) addresses_taken ip_benign.
Proof.
  split; [apply ip_Allocate_law|apply ip_Has_law|apply ip_Release_law|apply ip_ForEach_law|].
  intros r r' k Hr Hr' Hnet. by destruct (range_unique r r' Hr Hr' Hnet) as [_ ->].
Qed.

(** *** A run *)

Lemma NewCIDRRange_ok n :
  net_ok n → host_bits n < 31 →
  ∃ r, NewCIDRRange net_String n = Ret r ∧ range_stored_ok r ∧ net r = n ∧ addresses_taken r = ∅.
Proof.
  intros Hn Hh. unfold NewCIDRRange, NewAllocatorCIDRRange, RangeSize. rewrite decide_False by lia. simpl.
  eexists. split; [done|]. split_and!; [split; [split; simpl|]|done|]; try done.
  - apply NewAllocationMap_ok.
  - by rewrite bigForIP_net.
Qed.

Definition ip_snapshot_of (n : IPNet) (snapshot : RangeAllocation) (T : gset (list Z)) : Prop :=
  ∃ r, Range_NewFromSnapshot ParseCIDR net_String
         (if decide (ra_Range snapshot = "") then net_String n else ra_Range snapshot) (Data snapshot) = Ret (Ok r) ∧
       range_stored_ok r ∧ addresses_taken r = T.

(** The text of a network is read as the same network. *)
Definition cidr_text (n : IPNet) : Prop := ParseCIDR (net_String n) = Ok n ∧ net_String n ≠ "".

(** A range written out and read back. *)
Lemma Range_NewFromSnapshot_Snapshot r :
  range_stored_ok r → cidr_text (net r) →
  ∃ r', Range_NewFromSnapshot ParseCIDR net_String (Snapshot (range_alloc r)).1 (Snapshot (range_alloc r)).2 = Ret (Ok r') ∧
        range_stored_ok r' ∧ addresses_taken r' = addresses_taken r.
Proof.
  intros [Hok Hspec] [Hparse _]. destruct (NewCIDRRange_ok (net r)) as (r0 & Hnew & [Hok0 Hspec0] & Hnet & _);
    [apply Hok|apply Hok|].
  pose proof (Restore_Snapshot (range_alloc r) (range_alloc r0) (range_alloc_ok _ _ r Hok)) as Hr.
  destruct Hr as (a & Heq & Hoka & Hm & Ha & _ & Hsp);
    [apply (range_alloc_ok _ _ r0 Hok0)
    |rewrite (range_limit _ _ r0 Hok0), (range_limit _ _ r Hok), (range_size _ _ r0 Hok0), (range_size _ _ r Hok); by rewrite Hnet
    |by rewrite Hspec0, Hspec, Hnet|].
  unfold Range_NewFromSnapshot, Snapshot in *. simpl in *. rewrite Hspec, Hparse, Hnew. simpl.
  unfold Range_Restore. rewrite decide_False by auto. rewrite Hspec in Heq. rewrite Heq. simpl. eexists. split; [done|].
  assert (base r0 = base r) as HB by (rewrite (range_base _ _ r0 Hok0), (range_base _ _ r Hok); by rewrite Hnet).
  split.
  - split; [|simpl; by rewrite Hsp, Hnet, Hspec]. destruct Hok0 as [_ Hl Hn Hb Hh Hmx]. destruct Hok as [_ Hl' _ _ _ Hmx'].
    split; simpl; [done| |done|done|done|done]. rewrite Hm, Hl', Hmx, Hmx'. by rewrite Hnet.
  - unfold addresses_taken, range_taken, bitmap_taken. simpl. by rewrite HB, Ha.
Qed.

(** A run of the repair of addresses, in any world: when the stored addresses
    are [T] and the services have those in [U], it writes [U] and what remains of
    [T] while its counter lasts, under the version it read.  Counters start, run
    down and are dropped for addresses in use; the error is that of the write. *)
Theorem ip_repair_exact {W : Type} `{!RangeRegistry W} (c : IPRepair) (w w1 w2 : W)
    (snapshot : RangeAllocation) (list : list Service) (T : gset (Datatypes.list Z)) (r0 : Range AllocationBitmap) :
  net_ok (ir_network c) → host_bits (ir_network c) < 31 → cidr_text (ir_network c) →
  NewCIDRRange net_String (ir_network c) = Ret r0 →
  registry_Get w = (Ok snapshot, w1) → registry_List w1 = (Ok list, w2) →
  ip_snapshot_of (ir_network c) snapshot T → Forall address (list ≫= service_ip) →
  let inside k := is_Some (contains k r0) in
  let U := filter inside (list_to_set (ParseIP_String <$> list ≫= service_ip)) in
  ∃ snapshot' leaks',
    IP_runOnce ParseCIDR net_String c w =
      (let '(err, w3) := registry_CreateOrUpdate snapshot' w2 in
       (Ret (persist_error err), (mkIPRepair (ir_network c) leaks', w3))) ∧
    ResourceVersion snapshot' = ResourceVersion snapshot ∧
    ip_snapshot_of (ir_network c) snapshot' (repaired inside U T (ir_leaks c)) ∧
    recounted U T (ir_leaks c) leaks'.
Proof.
  intros Hn Hh Htext Hr0 HG HL (r & Hnew & Hr & HT) Hgood inside U. unfold IP_runOnce.
  rewrite HG, Hnew, HL, Hr0.
  destruct (NewCIDRRange_ok (ir_network c) Hn Hh) as (r0' & Hr0' & Hok0 & Hnet0 & Hempty).
  assert (r0' = r0) as -> by congruence.
  destruct (run_core ParseIP_String ip_abort address net range_stored_ok (λ r k, is_Some (contains k r))
    addresses_taken ip_benign ip_abort_benign service_ip list r r0 (ir_leaks c)) as (st & -> & Hok & Hnet & Ht & Hl); try done.
  rewrite HT in Ht, Hl. change (p_ForEach (stored st)) with (Range_ForEach (stored st)) in *.
  set (st' := leak_loop ParseIP_String (Range_ForEach (stored st)) st) in *.
  assert (Hnet' : net (rebuilt st') = ir_network c) by (etransitivity; [exact Hnet|done]).
  destruct (Range_NewFromSnapshot_Snapshot (rebuilt st') Hok) as (r' & Hnew' & Hr' & HT'); [by rewrite Hnet'|].
  destruct (Snapshot (range_alloc (rebuilt st'))) as [range data] eqn:Hsnap.
  assert (range = net_String (ir_network c)) as ->.
  { destruct Hok as [_ Hspec]. unfold Snapshot in Hsnap. injection Hsnap as <- _. by rewrite Hspec, Hnet'. }
  eexists (mkRangeAllocation (ResourceVersion snapshot) (net_String (ir_network c)) data), (leaks st').
  split; [done|]. split; [done|]. split; [|done].
  exists r'. simpl. rewrite decide_False by apply Htext. split_and!; [done..|]. by rewrite HT', Ht.
Qed.
End addresses.

(** ** Example: one address in use, one that is not, another given to two services *)

Definition demo_text (n : IPNet) : string := "10.0.0.0/24".
Definition demo_parse (s : string) : result string IPNet := if decide (s = "10.0.0.0/24") then Ok demo_net else Err "invalid CIDR".

Definition demo_taken : Range AllocationBitmap := (Range_Allocate [10; 0; 0; 9] (Range_Allocate [10; 0; 0; 20] demo_ips).2).2.

Definition ip_world : contended :=
  mkContended [] (mkRangeAllocation "3" (Snapshot (range_alloc demo_taken)).1 (Snapshot (range_alloc demo_taken)).2)
    [web_service "a"; dns_created; web_service "b"].

Lemma demo_taken_snapshot :
  ip_snapshot_of demo_parse demo_text demo_net (cell ip_world)
    {[ v4InV6Prefix ++ [10; 0; 0; 9]; v4InV6Prefix ++ [10; 0; 0; 20] ]}.
Proof.
  assert (range_stored_ok demo_text demo_ips) as Hips by (split; [apply demo_ips_ok|done]).
  assert (Halloc : ∀ ip r, address ip → range_stored_ok demo_text r →
            range_stored_ok demo_text (Range_Allocate ip r).2 ∧ net (Range_Allocate ip r).2 = net r).
  { intros ip r Hip Hr. destruct (ip_Allocate_law demo_text r ip Hr Hip) as (res & r' & -> & Hr' & Hnet & _). done. }
  destruct (Halloc [10; 0; 0; 20] demo_ips) as [H1 Hn1]; [repeat constructor; lia|done|].
  destruct (Halloc [10; 0; 0; 9] _ ltac:(repeat constructor; lia) H1) as [H2 Hn2].
  destruct (Range_NewFromSnapshot_Snapshot demo_parse demo_text demo_taken H2) as (r & Hnew & Hr & HT).
  { unfold demo_taken. rewrite Hn2, Hn1. split; [vm_compute; reflexivity|vm_compute; discriminate]. }
  exists r. cbn [ip_world cell ra_Range Data]. rewrite decide_False by (vm_compute; discriminate).
  split; [exact Hnew|]. split; [done|]. rewrite HT. vm_compute. reflexivity.
Qed.

Lemma ip_repair_exact_witness :
  ∃ s l, IP_runOnce demo_parse demo_text (NewIPRepair demo_net) ip_world
         = (Ret None, (mkIPRepair demo_net l, mkContended [] s (listed ip_world))) ∧
    ip_snapshot_of demo_parse demo_text demo_net s
      {[ v4InV6Prefix ++ [10; 0; 0; 8]; v4InV6Prefix ++ [10; 0; 0; 9]; v4InV6Prefix ++ [10; 0; 0; 20] ]}.
Proof.
  destruct (ip_repair_exact demo_parse demo_text (NewIPRepair demo_net) ip_world ip_world ip_world (cell ip_world)
    (listed ip_world) {[ v4InV6Prefix ++ [10; 0; 0; 9]; v4InV6Prefix ++ [10; 0; 0; 20] ]} demo_ips) as (s & l & Hrun & _ & Hs & _).
  - apply demo_ips_ok.
  - vm_compute. reflexivity.
  - split; [vm_compute; reflexivity|discriminate].
  - vm_compute. reflexivity.
  - reflexivity.
  - reflexivity.
  - apply demo_taken_snapshot.
  - repeat constructor; lia.
  - exists s, l. split; [exact Hrun|].
    match type of Hs with ip_snapshot_of _ _ _ _ ?T =>
      replace T with ({[ v4InV6Prefix ++ [10; 0; 0; 8]; v4InV6Prefix ++ [10; 0; 0; 9]; v4InV6Prefix ++ [10; 0; 0; 20] ]}
        : gset (list Z)) in Hs by (vm_compute; reflexivity) end.
    exact Hs.
Defined.
