(* ===== verification/EtcdStore.v ===== *)
(** * The etcd3 store (pkg/storage/etcd3/store.go)

    Also the versioner of pkg/storage/etcd/api_object_versioner.go and the
    suggestion that Cacher.GuaranteedUpdate of pkg/storage/cacher.go passes on.

    The objects, the codec and the client of etcd are parameters.  A request to
    etcd is atomic, but other clients may change anything before it; each change of
    a key gives it a higher revision.  A read with the option WithSerializable, which
    a store without quorum reads uses, may be answered with an earlier state.  The
    loop of an update is unbounded: the model has fuel, and a theorem tells how much
    is enough.

    Theorems: an update that succeeds has taken effect at one instant, on the
    object stored then, or, without quorum reads or with a suggestion, has found
    nothing to change in an earlier state; with as much fuel as there are conflicts
    it ends; an update that is based on a suggestion can succeed without any effect. *)

From S2P Require Import Prelude.
Open Scope Z_scope.

(** ** Objects and their versions *)

Class APIObject (O : Type) := {
  GetResourceVersion : O → string;
  SetResourceVersion : string → O → O;
  GetUID : O → string;
  zero_object : O
}.

Inductive storage_error :=
  | KeyNotFound (key : string)
  | KeyExists (key : string)
  | InvalidObj (key : string)
  | Conflict (msg : string)
  | RequestFailed (msg : string)
  | StoreError (msg : string).

#[export] Instance storage_error_eq_dec : EqDecision storage_error.
Proof. solve_decision. Defined.

Definition MaxUint64 : Z := 2 ^ 64 - 1.

(** [strconv.ParseUint(s, 10, 64)] *)
Definition ParseUint (s : string) : option Z :=
  match s with
  | EmptyString => None
  | _ =>
      match parse_digits 0 s with
      | Some n => if decide (n ≤ MaxUint64) then Some n else None
      | None => None
      end
  end.

Section versioner.
Context {O : Type} `{!APIObject O}.

Definition UpdateObject (resourceVersion : Z) (obj : O) : O :=
  SetResourceVersion (if decide (resourceVersion = 0) then "" else FormatInt resourceVersion) obj.

Definition ObjectResourceVersion (obj : O) : option Z :=
  let version := GetResourceVersion obj in
  if decide (version = "") then Some 0 else ParseUint version.
End versioner.

(** ** The client of etcd *)

(** A value and the revision of its last change. *)
Notation kv D := (D * Z)%type.

Inductive txn_resp (D : Type) :=
  | Succeeded (rev : Z)
  | Conflicted (kvs : option (kv D)).
Arguments Succeeded {D} _.
Arguments Conflicted {D} _.

(** [kv_Get serializable key]: the flag is the option WithSerializable.
    [kv_Txn key rev data]: if the last change of the key has revision [rev], zero
    when there is none, put the data or delete the key, and otherwise read it. *)
Class KV (D W : Type) := {
  kv_Get : bool → string → W → result string (option (kv D)) * W;
  kv_Txn : string → Z → option D → W → result string (txn_resp D) * W;
  kv_GetDelete : string → W → result string (option (kv D)) * W
}.

(** ** The store *)

Section store.
Context {O D W : Type} `{!APIObject O, !KV D W, !EqDecision D}.
Context (Encode : O → result string D) (Decode : D → result string O).

(** Whether the options that newStore sets for reads have WithSerializable. *)
Definition getOps (quorumRead : bool) : bool := negb quorumRead.

Context (quorumRead : bool).

Definition decode (value : D) (rev : Z) : result storage_error O :=
  match Decode value with
  | Err e => Err (StoreError e)
  | Ok obj => Ok (UpdateObject rev obj)
  end.

(** [None] for the data of an object that is not stored. *)
Record objState := mkObjState {
  os_obj : O;
  os_rev : Z;
  os_data : option D
}.

Definition getState (getResp : option (kv D)) (key : string) (ignoreNotFound : bool) : result storage_error objState :=
  match getResp with
  | None => if ignoreNotFound then Ok (mkObjState zero_object 0 None) else Err (KeyNotFound key)
  | Some (value, rev) =>
      obj !<- decode value rev;
      Ok (mkObjState obj rev (Some value))
  end.

Definition getStateFromObject (obj : O) : result storage_error objState :=
  match ObjectResourceVersion obj with
  | None => Err (StoreError "couldn't get resource version")
  | Some rv =>
      match Encode (UpdateObject 0 obj) with
      | Err e => Err (StoreError e)
      | Ok data => Ok (mkObjState (UpdateObject rv obj) (wrap64 rv) (Some data))
      end
  end.

(** The outer option is a nil pointer to preconditions, the inner one to a UID. *)
Definition checkPreconditions (key : string) (preconditions : option (option string)) (obj : O)
    : option storage_error :=
  match preconditions with
  | Some (Some uid) => if decide (uid ≠ GetUID obj) then Some (InvalidObj key) else None
  | _ => None
  end.

(** *** Reading, creating and deleting *)

Definition store_Get (key : string) (ignoreNotFound : bool) (w : W) : result storage_error O * W :=
  let '(resp, w) := kv_Get (getOps quorumRead) key w in
  (match resp with
   | Err e => Err (RequestFailed e)
   | Ok None => if ignoreNotFound then Ok zero_object else Err (KeyNotFound key)
   | Ok (Some (value, rev)) => decode value rev
   end, w).

Definition store_Create (key : string) (obj : O) (w : W) : result storage_error O * W :=
  if decide (ObjectResourceVersion obj = None ∨ ObjectResourceVersion obj = Some 0) then
    match Encode obj with
    | Err e => (Err (StoreError e), w)
    | Ok data =>
        let '(resp, w) := kv_Txn key 0 (Some data) w in
        (match resp with
         | Err e => Err (RequestFailed e)
         | Ok (Conflicted _) => Err (KeyExists key)
         | Ok (Succeeded rev) => decode data rev
         end, w)
    end
  else (Err (StoreError "resourceVersion should not be set on objects to be created"), w).

Definition unconditionalDelete (key : string) (w : W) : result storage_error O * W :=
  let '(resp, w) := kv_GetDelete key w in
  (match resp with
   | Err e => Err (RequestFailed e)
   | Ok None => Err (KeyNotFound key)
   | Ok (Some (value, rev)) => decode value rev
   end, w).

(** One turn of the loop of conditionalDelete: its result, or the revision at which
    to delete with the object to return. *)
Definition cd_attempt (key : string) (preconditions : option (option string)) (getResp : option (kv D))
    : result storage_error O + Z * D :=
  match getState getResp key false with
  | Err e => inl (Err e)
  | Ok st =>
      match checkPreconditions key preconditions (os_obj st), os_data st with
      | Some e, _ => inl (Err e)
      | None, Some data => inr (os_rev st, data)
      | None, None => inl (Err (KeyNotFound key))
      end
  end.

(** [None]: out of fuel. *)
Fixpoint cd_loop (fuel : nat) (key : string) (preconditions : option (option string))
    (getResp : option (kv D)) (w : W) : option (result storage_error O) * W :=
  match cd_attempt key preconditions getResp with
  | inl res => (Some res, w)
  | inr (rev, data) =>
      match fuel with
      | 0%nat => (None, w)
      | S fuel =>
          let '(resp, w) := kv_Txn key rev None w in
          match resp with
          | Err e => (Some (Err (RequestFailed e)), w)
          | Ok (Conflicted getResp) => cd_loop fuel key preconditions getResp w
          | Ok (Succeeded _) => (Some (decode data rev), w)
          end
      end
  end.

Definition conditionalDelete (fuel : nat) (key : string) (preconditions : option (option string)) (w : W)
    : option (result storage_error O) * W :=
  let '(resp, w) := kv_Get false key w in
  match resp with
  | Err e => (Some (Err (RequestFailed e)), w)
  | Ok getResp => cd_loop fuel key preconditions getResp w
  end.

Definition store_Delete (fuel : nat) (key : string) (preconditions : option (option string)) (w : W)
    : option (result storage_error O) * W :=
  match preconditions with
  | None => let '(res, w) := unconditionalDelete key w in (Some res, w)
  | Some _ => conditionalDelete fuel key preconditions w
  end.

(** *** Updating *)

(** The update function runs on the variables [X] that it captures.  The object it
    returns is changed in place by the store, which [write_back] shows to it. *)
Section update.
Context {X : Type} (tryUpdate : O → X → result storage_error O * X) (write_back : O → X → X).

Definition updateState (st : objState) (x : X) : result storage_error O * X :=
  let '(res, x) := tryUpdate (os_obj st) x in
  match res with
  | Err e => (Err e, x)
  | Ok ret =>
      match ObjectResourceVersion ret with
      | None => (Err (StoreError "invalid resource version"), x)
      | Some version =>
          if decide (version ≠ 0) then (Ok (UpdateObject 0 ret), write_back (UpdateObject 0 ret) x) else (Ok ret, x)
      end
  end.

Inductive gu_next :=
  | Finished (res : result storage_error O)
  | Commit (rev : Z) (data : D).

(** One turn of the loop, up to the transaction. *)
Definition gu_attempt (key : string) (preconditions : option (option string)) (origState : objState) (x : X)
    : gu_next * X :=
  match checkPreconditions key preconditions (os_obj origState) with
  | Some e => (Finished (Err e), x)
  | None =>
      let '(res, x) := updateState origState x in
      match res with
      | Err e => (Finished (Err e), x)
      | Ok ret =>
          match Encode ret with
          | Err e => (Finished (Err (StoreError e)), x)
          | Ok data =>
              if decide (Some data = os_data origState) then (Finished (decode data (os_rev origState)), x)
              else (Commit (os_rev origState) data, x)
          end
      end
  end.

(** From the state that a request returned. *)
Definition gu_from (key : string) (ignoreNotFound : bool) (preconditions : option (option string))
    (getResp : option (kv D)) (x : X) : gu_next * X :=
  match getState getResp key ignoreNotFound with
  | Err e => (Finished (Err e), x)
  | Ok st => gu_attempt key preconditions st x
  end.

(** After the transaction. *)
Definition gu_response (key : string) (ignoreNotFound : bool) (preconditions : option (option string))
    (data : D) (resp : result string (txn_resp D)) (x : X) : gu_next * X :=
  match resp with
  | Err e => (Finished (Err (RequestFailed e)), x)
  | Ok (Conflicted getResp) => gu_from key ignoreNotFound preconditions getResp x
  | Ok (Succeeded rev) => (Finished (decode data rev), x)
  end.

(** [None]: out of fuel. *)
Fixpoint gu_loop (fuel : nat) (key : string) (ignoreNotFound : bool) (preconditions : option (option string))
    (next : gu_next) (x : X) (w : W) : option (result storage_error O) * X * W :=
  match next with
  | Finished res => (Some res, x, w)
  | Commit rev data =>
      match fuel with
      | 0%nat => (None, x, w)
      | S fuel =>
          let '(resp, w) := kv_Txn key rev (Some data) w in
          let '(next, x) := gu_response key ignoreNotFound preconditions data resp x in
          gu_loop fuel key ignoreNotFound preconditions next x w
      end
  end.

Definition GuaranteedUpdate (fuel : nat) (key : string) (ignoreNotFound : bool)
    (preconditions : option (option string)) (suggestion : option O) (x : X) (w : W)
    : option (result storage_error O) * X * W :=
  match suggestion with
  | Some obj =>
      match getStateFromObject obj with
      | Err e => (Some (Err e), x, w)
      | Ok st =>
          let '(next, x) := gu_attempt key preconditions st x in
          gu_loop fuel key ignoreNotFound preconditions next x w
      end
  | None =>
      let '(resp, w) := kv_Get (getOps quorumRead) key w in
      match resp with
      | Err e => (Some (Err (RequestFailed e)), x, w)
      | Ok getResp =>
          let '(next, x) := gu_from key ignoreNotFound preconditions getResp x in
          gu_loop fuel key ignoreNotFound preconditions next x w
      end
  end.

(** The cache in front of the store suggests what it has, however old. *)
Definition Cacher_GuaranteedUpdate (fuel : nat) (key : string) (ignoreNotFound : bool)
    (preconditions : option (option string)) (GetByKey : string → result string (option O)) (x : X) (w : W)
    : option (result storage_error O) * X * W :=
  match GetByKey key with
  | Ok (Some currObj) => GuaranteedUpdate fuel key ignoreNotFound preconditions (Some currObj) x w
  | _ => GuaranteedUpdate fuel key ignoreNotFound preconditions None x w
  end.
End update.
End store.

(** ** What the client promises *)

(** The keys with their values and revisions, and the revision of the store. *)
Notation kv_state D := (gmap string (kv D) * Z)%type.

Definition mod_revision {D} (m : gmap string (kv D)) (key : string) : Z := default 0 (snd <$> m !! key).

Definition state_ok {D} (s : kv_state D) : Prop :=
  0 ≤ s.2 ∧ ∀ k v rev, s.1 !! k = Some (v, rev) → 0 < rev ≤ s.2.

(** What other clients may do meanwhile: what they change gets a new revision. *)
Definition others {D} (s s' : kv_state D) : Prop :=
  s.2 ≤ s'.2 ∧
  ∀ k, s'.1 !! k = s.1 !! k ∨
       (s.2 < s'.2 ∧ match s'.1 !! k with Some (_, rev) => s.2 < rev ≤ s'.2 | None => True end).

Definition after_txn {D} (key : string) (data : option D) (rev : Z) (s : kv_state D) : kv_state D :=
  (match data with Some d => <[key := (d, rev)]> s.1 | None => delete key s.1 end, rev).

(** [budget] bounds the conflicts to come.  A serializable read gives what was stored
    at an earlier time, perhaps before the request. *)
Class KVLaws {D W : Type} `{!KV D W} (ok : W → Prop) (st : W → kv_state D) (budget : W → nat) : Prop := {
  kv_wf w : ok w → state_ok (st w);
  kv_Get_law serializable key w res w' : ok w → kv_Get serializable key w = (res, w') →
    ok w' ∧ others (st w) (st w') ∧ (budget w' ≤ budget w)%nat ∧
    (∀ kv, res = Ok kv → ∃ s, state_ok s ∧ others s (st w') ∧ (serializable = false → s = st w') ∧ kv = s.1 !! key);
  kv_Txn_law key rev data w res w' : ok w → kv_Txn key rev data w = (res, w') →
    ok w' ∧ (budget w' ≤ budget w)%nat ∧
    ∃ s, others (st w) s ∧
      match res with
      | Ok (Succeeded rev') => mod_revision s.1 key = rev ∧ s.2 < rev' ∧ st w' = after_txn key data rev' s
      | Ok (Conflicted kv) =>
          mod_revision s.1 key ≠ rev ∧ kv = s.1 !! key ∧ st w' = s ∧
          (mod_revision (st w).1 key = rev → (budget w' < budget w)%nat)
      | Err _ => st w' = s ∨
                 ∃ rev', mod_revision s.1 key = rev ∧ s.2 < rev' ∧ st w' = after_txn key data rev' s
      end
}.

Lemma others_trans {D} (s1 s2 s3 : kv_state D) : others s1 s2 → others s2 s3 → others s1 s3.
Proof.
  intros [Hr1 H1] [Hr2 H2]. split; [lia|]. intros k. destruct (H2 k) as [->|[Hlt H3]].
  - destruct (H1 k) as [->|[Hlt H3]]; [by left|right]. split; [lia|].
    destruct (s2.1 !! k) as [[v rev]|]; [lia|done].
  - right. split; [lia|]. destruct (s3.1 !! k) as [[v rev]|]; [lia|done].
Qed.

Lemma others_refl {D} (s : kv_state D) : others s s.
Proof. split; [lia|]. by left. Qed.

(** The same revision, the same value. *)
Lemma others_same {D} (s s' : kv_state D) key :
  state_ok s → others s s' → mod_revision s'.1 key = mod_revision s.1 key → s'.1 !! key = s.1 !! key.
Proof.
  intros [Hpos Hok] [Hr Ho]. destruct (Ho key) as [->|[Hlt Hnew]]; [done|]. unfold mod_revision.
  destruct (s'.1 !! key) as [[v' rev']|] eqn:H', (s.1 !! key) as [[v rev]|] eqn:H; simpl; try done.
  - pose proof (Hok _ _ _ H). intros ->. lia.
  - lia.
  - pose proof (Hok _ _ _ H). lia.
Qed.

Section atomicity.
Context {O D W X : Type} `{!APIObject O, !KV D W, !EqDecision D}.
Context (Encode : O → result string D) (Decode : D → result string O).
Context (ok : W → Prop) (st : W → kv_state D) (budget : W → nat) `{!KVLaws ok st budget}.
Context (codec_sane : ∀ obj data, Encode obj = Ok data → ∃ obj', Decode data = Ok obj').
Context (tryUpdate : O → X → result storage_error O * X) (write_back : O → X → X).
Context (quorumRead : bool) (key : string) (ignoreNotFound : bool) (preconditions : option (option string)).

Local Notation attempt := (gu_attempt Encode Decode tryUpdate write_back key preconditions).
Local Notation from := (gu_from Encode Decode tryUpdate write_back key ignoreNotFound preconditions).
Local Notation loop := (gu_loop Encode Decode tryUpdate write_back).
Local Notation update := (GuaranteedUpdate Encode Decode quorumRead tryUpdate write_back).

(** The update function, run on what is stored in [s], gives an object with these
    data. *)
Definition computes (s : kv_state D) (x : X) (data : D) (x' : X) : Prop :=
  ∃ orig ret, getState Decode (s.1 !! key) key ignoreNotFound = Ok orig ∧
    checkPreconditions key preconditions (os_obj orig) = None ∧
    updateState tryUpdate write_back orig x = (Ok ret, x') ∧ Encode ret = Ok data.

(** Where the loop stands: an attempt on the state of the last request. *)
Definition standing (s : kv_state D) (next : gu_next) (x' : X) : Prop :=
  match next with
  | Commit rev data => rev = mod_revision s.1 key ∧ ∃ x, computes s x data x'
  | Finished (Ok out) => ∃ x data rev, s.1 !! key = Some (data, rev) ∧ computes s x data x' ∧ decode Decode data rev = Ok out
  | Finished (Err _) => True
  end.

Lemma from_standing s x next x' : from (s.1 !! key) x = (next, x') → standing s next x'.
Proof.
  unfold gu_from. destruct (getState Decode (s.1 !! key) key ignoreNotFound) as [orig|e] eqn:Hst; [|by intros [= <- <-]].
  assert (Hrev : os_rev orig = mod_revision s.1 key ∧ os_data orig = fst <$> s.1 !! key).
  { unfold getState, mod_revision in *. destruct (s.1 !! key) as [[v rev]|].
    - destruct (decode Decode v rev); [|done]. by injection Hst as <-.
    - destruct ignoreNotFound; [|done]. by injection Hst as <-. }
  destruct Hrev as [Hrev Hdata]. unfold gu_attempt.
  destruct (checkPreconditions key preconditions (os_obj orig)) as [e|] eqn:Hpre; [by intros [= <- <-]|].
  destruct (updateState tryUpdate write_back orig x) as [[ret|e] x1] eqn:Hup; [|by intros [= <- <-]].
  destruct (Encode ret) as [data|e] eqn:Henc; [|by intros [= <- <-]].
  assert (computes s x data x1) as Hcomp by (by exists orig, ret).
  destruct (decide _) as [Hsame|Hne]; intros [= <- <-]; simpl; [|by split; [|exists x]].
  destruct (decode Decode data (os_rev orig)) as [out|] eqn:Hdec; [|done].
  rewrite Hdata in Hsame. destruct (s.1 !! key) as [[v rev]|] eqn:Hk; [|done]. simpl in Hsame. injection Hsame as ->.
  exists x, v, rev. split_and!; [done..|]. rewrite <-Hdec. f_equal. rewrite Hrev. unfold mod_revision. by rewrite Hk.
Qed.

(** The loop ends in one effect, or none when the stored object is the result. *)
Definition one_effect (s s' : kv_state D) (x' : X) (out : O) : Prop :=
  ∃ s1 x data, others s s1 ∧ computes s1 x data x' ∧
    ((∃ rev, s1.1 !! key = Some (data, rev) ∧ s' = s1 ∧ decode Decode data rev = Ok out) ∨
     (∃ rev, s1.2 < rev ∧ s' = after_txn key (Some data) rev s1 ∧ decode Decode data rev = Ok out)).

(** Or it has found in an earlier state [s0] an object that the function leaves as it
    is, and has written nothing. *)
Definition stale_answer (s s' : kv_state D) (x' : X) (out : O) : Prop :=
  others s s' ∧ ∃ s0 x data rev, state_ok s0 ∧ others s0 s' ∧ s0.1 !! key = Some (data, rev) ∧
    computes s0 x data x' ∧ decode Decode data rev = Ok out.

(** What an update has done when it returns [res]; [stale]: it may have begun with an
    earlier state. *)
Definition update_effect (stale : bool) (s s' : kv_state D) (x' : X) (res : result storage_error O) : Prop :=
  match res with
  | Ok out => one_effect s s' x' out ∨ (stale = true ∧ stale_answer s s' x' out)
  | Err (RequestFailed _) =>
      others s s' ∨ ∃ s1 x data rev, others s s1 ∧ computes s1 x data x' ∧ s1.2 < rev ∧ s' = after_txn key (Some data) rev s1
  | Err _ => others s s'
  end.

Lemma update_effect_later stale s s1 s' x' res :
  others s s1 → update_effect stale s1 s' x' res → update_effect stale s s' x' res.
Proof.
  intros Ho. destruct res as [out|[]]; simpl.
  1: intros [(s2 & z & d & Ho2 & ?)|(Hstale & Ho2 & ?)]; [left; exists s2, z, d|right];
       repeat (split; [first [done | by eapply others_trans]|]); done.
  all: try (by apply others_trans).
  intros [?|(s2 & z & d & rev & Ho2 & ?)]; [left; by eapply others_trans|right].
  exists s2, z, d, rev. split; [by eapply others_trans|done].
Qed.

Lemma finished_effect stale s0 s x res :
  (stale = true ∨ s0 = s) → state_ok s0 → others s0 s → standing s0 (Finished res) x → update_effect stale s s x res.
Proof.
  intros Hs Hok Ho. destruct res as [out|e]; simpl.
  - intros (y & d & rev & Hk & Hc & Hd). destruct Hs as [-> | ->].
    + right. split; [done|]. split; [apply others_refl|]. exists s0, y, d, rev. by split_and!.
    + left. exists s, y, d. split; [apply others_refl|]. split; [done|]. left. by exists rev.
  - intros _. destruct e; try apply others_refl. left. apply others_refl.
Qed.

Lemma loop_finished fuel res x w : loop fuel key ignoreNotFound preconditions (Finished res) x w = (Some res, x, w).
Proof. by destruct fuel. Qed.

(** The transaction succeeds only if the key has not been changed since [s0]. *)
Lemma loop_effect stale fuel next x w s0 res x' w' :
  ok w → (stale = true ∨ s0 = st w) → state_ok s0 → others s0 (st w) → standing s0 next x →
  loop fuel key ignoreNotFound preconditions next x w = (Some res, x', w') →
  update_effect stale (st w) (st w') x' res.
Proof.
  revert next x w s0. induction fuel as [|fuel IH]; intros next x w s0 Hok Hs0 Hok0 Ho0 Hst; destruct next as [r|rev data].
  1,3: rewrite loop_finished; intros [= -> -> ->]; by apply (finished_effect stale s0).
  { done. }
  destruct Hst as [-> (y & Hcomp)]. simpl. destruct (kv_Txn key _ _ w) as [resp w1] eqn:Htxn.
  destruct (kv_Txn_law _ _ _ _ _ _ Hok Htxn) as (Hok1 & _ & s & Hothers & Hresp).
  assert (Hsame : mod_revision s.1 key = mod_revision s0.1 key → computes s y data x).
  { intros Hmod. destruct Hcomp as (orig & ret & Hget & ?). exists orig, ret. split; [|done].
    rewrite (others_same s0 s key Hok0); [done|by eapply others_trans|done]. }
  destruct resp as [[rev'|kvs]|e]; simpl.
  - destruct Hresp as (Hmod & Hlt & Hst'). rewrite loop_finished. intros [= <- <- <-].
    destruct (decode Decode data rev') as [out|e] eqn:Hdec.
    + left. exists s, y, data. split; [done|]. split; [by apply Hsame|]. right. by exists rev'.
    + destruct Hcomp as (orig & ret & _ & _ & _ & Henc). destruct (codec_sane _ _ Henc) as [o Ho].
      unfold decode in Hdec. by rewrite Ho in Hdec.
  - destruct Hresp as (_ & -> & Hst' & _). intros Hend.
    destruct (from (s.1 !! key) x) as [next x1] eqn:Hfrom. apply from_standing in Hfrom.
    rewrite <-Hst' in Hfrom. apply update_effect_later with s; [done|]. rewrite <-Hst'.
    apply (IH next x1 w1 (st w1)); [done|by right|by apply kv_wf|apply others_refl|done|done].
  - rewrite loop_finished. intros [= <- <- <-]. destruct Hresp as [->|(rev' & Hmod & Hlt & ->)]; simpl; [by left|right].
    exists s, y, data, rev'. split_and!; [done|by apply Hsame|done|done].
Qed.

(** Each conflict uses up some of the budget. *)
Lemma loop_ends fuel next x w :
  ok w → standing (st w) next x → (budget w < fuel)%nat →
  is_Some (loop fuel key ignoreNotFound preconditions next x w).1.1.
Proof.
  revert next x w. induction fuel as [|fuel IH]; intros next x w Hok Hst Hb; [lia|].
  destruct next as [res|rev data]; [by rewrite loop_finished|]. destruct Hst as [-> _]. simpl.
  destruct (kv_Txn key _ _ w) as [resp w1] eqn:Htxn.
  destruct (kv_Txn_law _ _ _ _ _ _ Hok Htxn) as (Hok1 & Hle & s & Hothers & Hresp).
  destruct resp as [[rev'|kvs]|e]; simpl; [by rewrite loop_finished| |by rewrite loop_finished].
  destruct Hresp as (_ & -> & Hst' & Hlt). specialize (Hlt eq_refl).
  destruct (from (s.1 !! key) x) as [next x1] eqn:Hfrom. apply from_standing in Hfrom.
  apply IH; [done|by rewrite Hst'|lia].
Qed.

(** A first attempt on whatever state costs at most one transaction more. *)
Lemma any_loop_ends fuel next x w :
  ok w → (S (budget w) < fuel)%nat → is_Some (loop fuel key ignoreNotFound preconditions next x w).1.1.
Proof.
  intros Hok Hfuel. destruct next as [res|rev data]; [by rewrite loop_finished|].
  destruct fuel as [|fuel]; [lia|]. simpl. destruct (kv_Txn key rev (Some data) w) as [resp w1] eqn:Htxn.
  destruct (kv_Txn_law _ _ _ _ _ _ Hok Htxn) as (Hok1 & Hle & s & Hothers & Hresp).
  destruct resp as [[rev'|kvs]|e]; simpl; [by rewrite loop_finished| |by rewrite loop_finished].
  destruct Hresp as (_ & -> & Hst' & _). destruct (from (s.1 !! key) x) as [next x1] eqn:Hfrom.
  apply from_standing in Hfrom. apply loop_ends; [done|by rewrite Hst'|lia].
Qed.

(** The suggestion is an object as it was stored at an earlier time. *)
Definition suggested (s : kv_state D) (obj : O) : Prop :=
  ∀ orig, getStateFromObject Encode obj = Ok orig →
    ∃ s0, state_ok s0 ∧ others s0 s ∧ getState Decode (s0.1 !! key) key ignoreNotFound = Ok orig.

Lemma from_suggested (s0 : kv_state D) orig x :
  getState Decode (s0.1 !! key) key ignoreNotFound = Ok orig → attempt orig x = from (s0.1 !! key) x.
Proof. intros H. unfold gu_from. by rewrite H. Qed.


(** C30. An update ends: with two more transactions than others can make conflict
    there is an answer, from a state that is read, with or without quorum, and from
    a suggestion. *)
Theorem guaranteed_update_terminates (fuel : nat) (suggestion : option O) (x : X) (w : W) :
  ok w → (S (budget w) < fuel)%nat →
  is_Some (update fuel key ignoreNotFound preconditions suggestion x w).1.1.
Proof.
  intros Hok Hfuel. unfold GuaranteedUpdate. destruct suggestion as [obj|].
  - destruct (getStateFromObject Encode obj) as [orig|e]; [|done].
    destruct (attempt orig x) as [next x1]. by apply any_loop_ends.
  - destruct (kv_Get _ key w) as [resp w1] eqn:Hget.
    destruct (kv_Get_law _ _ _ _ _ Hok Hget) as (Hok1 & _ & Hle & _). destruct resp as [kvs|e]; [|done].
    destruct (from kvs x) as [next x1]. apply any_loop_ends; [done|lia].
Qed.

(** A deletion with a UID removes only an object that has it: if it returns an
    object, then at one instant that object was stored under the key, with this
    UID, and was removed, whatever others stored there before. *)
Theorem conditional_delete_safe (fuel : nat) (uid : string) (w : W) out w' :
  ok w → store_Delete Decode fuel key (Some (Some uid)) w = (Some (Ok out), w') →
  ∃ s data rev rev', others (st w) s ∧ s.1 !! key = Some (data, rev) ∧ decode Decode data rev = Ok out ∧
    GetUID out = uid ∧ s.2 < rev' ∧ st w' = after_txn key None rev' s.
Proof.
  intros Hok. unfold store_Delete, conditionalDelete. destruct (kv_Get false key w) as [resp w1] eqn:Hget.
  destruct (kv_Get_law _ _ _ _ _ Hok Hget) as (Hok1 & Hothers & _ & Hresp). destruct resp as [kvs|e]; [|done].
  destruct (Hresp kvs eq_refl) as (sr & _ & _ & Hq & ->). rewrite (Hq eq_refl). clear Hget Hresp Hq sr. revert Hothers. generalize (st w) as s0. intros s0. clear w Hok.
  revert w1 Hok1. induction fuel as [|fuel IH]; intros w Hok Hs0; simpl; unfold cd_attempt, getState;
    destruct ((st w).1 !! key) as [[data rev]|] eqn:Hk; simpl; try done;
    destruct (decode Decode data rev) as [obj|e] eqn:Hdec; simpl; try done;
    (destruct (decide (uid ≠ GetUID obj)) as [|Huid]; simpl; [done|]); [done|].
  destruct (kv_Txn key rev None w) as [resp w1] eqn:Htxn.
  destruct (kv_Txn_law _ _ _ _ _ _ Hok Htxn) as (Hok1 & _ & s & Hothers & Hresp).
  destruct resp as [[rev'|kvs]|e]; [| |done].
  - destruct Hresp as (Hmod & Hlt & Hst'). rewrite Hdec. intros [= <- <-]. exists s, data, rev, rev'.
    split_and!; [by eapply others_trans| |done| |done|done].
    + rewrite <-Hk. apply (others_same (st w)); [by apply kv_wf|done|]. rewrite Hmod. unfold mod_revision. by rewrite Hk.
    + by destruct (decide (uid = GetUID obj)).
  - destruct Hresp as (_ & -> & Hst' & _). rewrite <-Hst'. apply IH; [done|]. rewrite Hst'. by eapply others_trans.
Qed.

(** C17. An update through the cache can be lost.  When the function gives the
    object that the cache has, which may be long out of date, the update returns
    it as a success: no request is made, and what is stored stays as it is, even if
    it is another object or none at all. *)
Theorem cached_update_lost (fuel : nat) (GetByKey : string → result string (option O)) (cached ret out : O)
    (rv : Z) (data : D) (x x1 : X) (w : W) :
  GetByKey key = Ok (Some cached) → ObjectResourceVersion cached = Some rv → preconditions = None →
  tryUpdate (UpdateObject rv cached) x = (Ok ret, x1) → ObjectResourceVersion ret = Some rv → rv ≠ 0 →
  Encode (UpdateObject 0 cached) = Ok data → Encode (UpdateObject 0 ret) = Ok data →
  decode Decode data (wrap64 rv) = Ok out →
  ∃ x', Cacher_GuaranteedUpdate Encode Decode quorumRead tryUpdate write_back fuel key ignoreNotFound preconditions GetByKey x w
        = (Some (Ok out), x', w).
Proof.
  intros Hcache Hrv Hpre Htry Hret Hne Hold Hnew Hdec. unfold Cacher_GuaranteedUpdate. rewrite Hcache.
  unfold GuaranteedUpdate, getStateFromObject. rewrite Hrv, Hold. unfold gu_attempt, updateState. simpl.
  replace (checkPreconditions key preconditions (UpdateObject rv cached)) with (@None storage_error) by (by rewrite Hpre).
  rewrite Htry, Hret, decide_True, Hnew, decide_True, Hdec by done. rewrite loop_finished. by eexists.
Qed.
End atomicity.

(** ** A store of etcd, with a script of what other clients do *)

Inductive fault := NoFault | FailsBefore | FailsAfter.

(** [e_lagging] is the state of the member that answers serializable reads. *)
Record etcd (D : Type) := mkEtcd {
  e_state : kv_state D;
  e_lagging : kv_state D;
  e_script : list (list (string * option D) * fault)
}.
Arguments mkEtcd {D} _ _ _.
Arguments e_state {D} _.
Arguments e_lagging {D} _.
Arguments e_script {D} _.

Section model.
Context {D : Type}.

Definition change (s : kv_state D) (c : string * option D) : kv_state D := after_txn c.1 c.2 (s.2 + 1) s.

(** What is done before the next request, and how the request fails. *)
Definition next_request (w : etcd D) : kv_state D * fault * list (list (string * option D) * fault) :=
  match e_script w with
  | [] => (e_state w, NoFault, [])
  | (changes, f) :: script => (foldl change (e_state w) changes, f, script)
  end.

Definition request {R} (act : kv_state D → R * kv_state D) (w : etcd D) : result string R * etcd D :=
  let '(s, f, script) := next_request w in
  match f with
  | NoFault => let '(r, s) := act s in (Ok r, mkEtcd s (e_lagging w) script)
  | FailsBefore => (Err "timeout", mkEtcd s (e_lagging w) script)
  | FailsAfter => (Err "timeout", mkEtcd (act s).2 (e_lagging w) script)
  end.

#[export] Instance etcd_kv : KV D (etcd D) := {|
  kv_Get serializable key w := request (λ s, (if serializable : bool then (e_lagging w).1 !! key else s.1 !! key, s)) w;
  kv_Txn key rev data := request (λ s,
    if decide (mod_revision s.1 key = rev) then (Succeeded (s.2 + 1), after_txn key data (s.2 + 1) s)
    else (Conflicted (s.1 !! key), s));
  kv_GetDelete key := request (λ s, (s.1 !! key, after_txn key None (s.2 + 1) s))
|}.

Definition etcd_budget (w : etcd D) : nat := length (e_script w ≫= fst).

Definition etcd_ok (w : etcd D) : Prop :=
  state_ok (e_state w) ∧ state_ok (e_lagging w) ∧ others (e_lagging w) (e_state w).

Lemma change_others s c : state_ok s → state_ok (change s c) ∧ others s (change s c).
Proof.
  intros [H0 Hok]. destruct c as [k d]. split; split; simpl; [lia| |lia|].
  - intros k' v rev. destruct d as [d|].
    + intros [[_ [= _ <-]]|[_ Hk]]%lookup_insert_Some; [lia|]. apply Hok in Hk. lia.
    + intros [_ Hk]%lookup_delete_Some. apply Hok in Hk. lia.
  - intros k'. destruct (decide (k = k')) as [<-|Hne]; [right|left].
    + split; [lia|]. destruct d; [rewrite lookup_insert_eq; lia|by rewrite lookup_delete_eq].
    + destruct d; [by rewrite lookup_insert_ne|by rewrite lookup_delete_ne].
Qed.

Lemma changes_others s changes : state_ok s → state_ok (foldl change s changes) ∧ others s (foldl change s changes).
Proof.
  revert s. induction changes as [|c changes IH]; intros s Hs; simpl; [split; [done|apply others_refl]|].
  destruct (change_others s c Hs) as [Hs1 Ho]. destruct (IH _ Hs1) as [Hs2 Ho2]. split; [done|]. by eapply others_trans.
Qed.

Lemma next_request_spec (w : etcd D) s f script :
  state_ok (e_state w) → next_request w = (s, f, script) →
  state_ok s ∧ others (e_state w) s ∧ (length (script ≫= fst) ≤ etcd_budget w)%nat ∧
  (s = e_state w ∨ (length (script ≫= fst) < etcd_budget w)%nat).
Proof.
  intros Hs. unfold next_request, etcd_budget. destruct (e_script w) as [|[changes g] rest].
  - intros [= <- <- <-]. split_and!; [done|apply others_refl|done|by left].
  - intros [= <- <- <-]. destruct (changes_others (e_state w) changes Hs) as [Hs' Ho].
    rewrite bind_cons, length_app. split_and!; [done|done|lia|]. simpl.
    destruct changes as [|c changes]; [by left|right]. simpl. lia.
Qed.

#[export] Instance etcd_kv_laws : KVLaws etcd_ok e_state etcd_budget.
Proof.
  split.
  - by intros w [? _].
  - intros serializable key w res w' (Hs & Hl & Hlo). simpl. unfold request.
    destruct (next_request w) as [[s f] script] eqn:Hn.
    destruct (next_request_spec w s f script Hs Hn) as (Hs' & Ho & Hb & _). pose proof (others_trans _ _ _ Hlo Ho) as Hlo'.
    unfold etcd_budget in *. destruct f; intros [= <- <-]; simpl; (split_and!; [done|done|done|]); [|done|done].
    intros kv [= <-]. destruct serializable; [by exists (e_lagging w)|]. exists s. by split_and!; [|apply others_refl| |].
  - intros key rev data w res w' (Hs & Hl & Hlo). simpl. unfold request. destruct (next_request w) as [[s f] script] eqn:Hn.
    destruct (next_request_spec w s f script Hs Hn) as (Hs' & Ho & Hb & Hlt). pose proof (others_trans _ _ _ Hlo Ho) as Hlo'.
    pose proof (change_others s (key, data) Hs') as [Hs1 Ho1]. pose proof (others_trans _ _ _ Hlo' Ho1) as Hlo1.
    unfold change in Hs1, Hlo1. simpl in Hs1, Hlo1.
    destruct (decide (mod_revision s.1 key = rev)) as [Hmod|Hmod]; destruct f; intros [= <- <-];
      (split; [done|]); (split; [done|]); exists s; (split; [done|]); simpl.
    + split_and!; [done|lia|done].
    + by left.
    + right. exists (s.2 + 1). split_and!; [done|lia|done].
    + split_and!; [done..|]. intros Hold. destruct Hlt as [->|?]; [done|done].
    + by left.
    + by left.
Qed.
End model.

(** ** Examples: counters *)

Record counter := mkCounter { c_version : string; c_uid : string; c_value : Z }.

#[export] Instance counter_eq_dec : EqDecision counter.
Proof. solve_decision. Defined.

#[export] Instance counter_object : APIObject counter := {|
  GetResourceVersion := c_version;
  SetResourceVersion v c := mkCounter v (c_uid c) (c_value c);
  GetUID := c_uid;
  zero_object := mkCounter "" "" 0
|}.

(** The data of a counter are the counter; the variables are the number of calls. *)
Definition count_up (c : counter) (calls : nat) : result storage_error counter * nat :=
  (Ok (mkCounter (c_version c) (c_uid c) (c_value c + 1)), S calls).

Definition no_write_back (c : counter) (calls : nat) : nat := calls.

(** Another client counts up, too, between the read and the first transaction.  A
    member of etcd still has the value of an earlier time. *)
Definition earlier : kv_state counter := (<["a" := (mkCounter "" "u" 4, 2)]> ∅, 2).

Definition counters : etcd counter :=
  mkEtcd (<["a" := (mkCounter "" "u" 5, 3)]> ∅, 7) earlier [([], NoFault); ([("a", Some (mkCounter "" "u" 6))], NoFault)].

Lemma single_ok k (c : counter) rev last : 0 < rev ≤ last → state_ok (<[k := (c, rev)]> ∅, last).
Proof.
  intros Hr. split; simpl; [lia|]. intros k' v rev'. rewrite lookup_insert_Some, lookup_empty. intros [[_ [= _ <-]]|[_ [=]]]. lia.
Qed.

Lemma counters_ok : etcd_ok counters.
Proof.
  split_and!; [apply single_ok; lia..|]. split; simpl; [lia|]. intros k. destruct (decide (k = "a")) as [->|Hne].
  - right. rewrite lookup_insert_eq. lia.
  - left. by rewrite !lookup_insert_ne, lookup_empty.
Qed.

Lemma counter_codec obj data : @Ok string counter obj = Ok data → ∃ obj', @Ok string counter data = Ok obj'.
Proof. intros _. by exists data. Qed.

Lemma earlier_suggested : suggested Ok Ok "a" false (e_state counters) (mkCounter "2" "u" 4).
Proof. intros orig [= <-]. exists earlier. split_and!; [apply counters_ok..|]. vm_compute. reflexivity. Qed.


Lemma guaranteed_update_terminates_witness :
  is_Some (GuaranteedUpdate Ok Ok false count_up no_write_back 3 "a" false None (Some (mkCounter "3" "u" 5)) O counters).1.1.
Proof.
  apply (guaranteed_update_terminates Ok Ok etcd_ok e_state etcd_budget
    count_up no_write_back false "a" false None 3%nat (Some (mkCounter "3" "u" 5)) O counters).
  - apply counters_ok.
  - vm_compute. lia.
Defined.

Lemma conditional_delete_safe_witness :
  let run := store_Delete (O := counter) Ok 3 "a" (Some (Some "u")) counters in
  run.1 = Some (Ok (mkCounter "8" "u" 6)) ∧
  ∃ s data rev rev', others (e_state counters) s ∧ s.1 !! "a" = Some (data, rev) ∧
    decode (O := counter) Ok data rev = Ok (mkCounter "8" "u" 6) ∧ GetUID (mkCounter "8" "u" 6) = "u" ∧ s.2 < rev' ∧
    e_state run.2 = after_txn "a" None rev' s.
Proof.
  intros run. assert (Hrun : run.1 = Some (Ok (mkCounter "8" "u" 6))) by (vm_compute; reflexivity).
  split; [exact Hrun|].
  apply (conditional_delete_safe (O := counter) Ok etcd_ok e_state etcd_budget "a" 3%nat "u" counters
    (mkCounter "8" "u" 6) run.2).
  - apply counters_ok.
  - rewrite <-Hrun. apply surjective_pairing.
Defined.

(** The cache still has the value 5; setting it to 5 is a success, and 6 stays. *)
Lemma cached_update_lost_witness :
  let set_5 := λ (c : counter) (calls : nat), (Ok (mkCounter (c_version c) (c_uid c) 5) : result storage_error counter, S calls) in
  let cache := λ _ : string, Ok (Some (mkCounter "3" "u" 5)) : result string (option counter) in
  let w := mkEtcd (<["a" := (mkCounter "" "u" 6, 8)]> ∅, 8) earlier [] in
  ∃ x', Cacher_GuaranteedUpdate Ok Ok true set_5 no_write_back 3 "a" false None cache O w
        = (Some (Ok (mkCounter "3" "u" 5)), x', w).
Proof.
  intros set_5 cache w.
  apply (cached_update_lost Ok Ok set_5 no_write_back true "a" false None 3%nat cache (mkCounter "3" "u" 5) (mkCounter "3" "u" 5)
    (mkCounter "3" "u" 5) 3 (mkCounter "" "u" 5) O 1%nat w); try reflexivity. discriminate.
Defined.
