(* ===== verification/EtcdAllocator.v ===== *)
(** * Allocation shared through etcd (pkg/registry/core/service/allocator/etcd/etcd.go)

    An allocator that keeps a local copy and writes every change through the store.
    The operations are defined over any client of etcd; [EtcdServers] has what they
    guarantee when several API servers share the data. *)

From S2P Require Import Prelude Allocator PortAllocator IPAllocator ServiceRest Repair EtcdStore.
Open Scope Z_scope.

#[export] Instance RangeAllocation_eq_dec : EqDecision RangeAllocation.
Proof. solve_decision. Defined.

#[export] Instance RangeAllocation_object : APIObject RangeAllocation := {|
  GetResourceVersion := ResourceVersion;
  SetResourceVersion v r := mkRangeAllocation v (ra_Range r) (Data r);
  GetUID _ := "";
  zero_object := mkRangeAllocation "" "" []
|}.

(** ** The allocator *)

Record Etcd := mkEtcdAllocator {
  alloc : AllocationBitmap;
  last : string
}.

Definition NewEtcd (a : AllocationBitmap) : Etcd := mkEtcdAllocator a "".

Definition set_alloc (a : AllocationBitmap) (e : Etcd) : Etcd := mkEtcdAllocator a (last e).

Definition errorUnableToAllocate : storage_error := StoreError "unable to allocate".

(** The variables of an operation: the allocator and the offset. *)
Notation vars := (Etcd * Z)%type.

(** The function that tryUpdate passes to the store. *)
Definition tryUpdate_func (fn : vars → option storage_error * vars) (existing : RangeAllocation) (x : vars)
    : result storage_error RangeAllocation * vars :=
  if decide (ResourceVersion existing = "") then
    (Err (StoreError "cannot allocate resources of this type at this time"), x)
  else
    let '(err, x) :=
      if decide (ResourceVersion existing ≠ last x.1) then
        let '(res, a) := Restore (ra_Range existing) (Data existing) (alloc x.1) in
        let x := (set_alloc a x.1, x.2) in
        match res with
        | Err msg => (Some (StoreError msg), x)
        | Ok _ => fn x
        end
      else (None, x) in
    match err with
    | Some e => (Err e, x)
    | None =>
        let e := mkEtcdAllocator (alloc x.1) (ResourceVersion existing) in
        let '(rangeSpec, data) := Snapshot (alloc e) in
        (Ok (mkRangeAllocation (ResourceVersion existing) rangeSpec data), (e, x.2))
    end.

(** The store may call it several times: each time there is a random number of its
    own. *)
Definition drawing (fn : Z → vars → option storage_error * vars) (existing : RangeAllocation) (x : vars * list Z)
    : result storage_error RangeAllocation * (vars * list Z) :=
  let '(res, x') := tryUpdate_func (fn (List.hd 0 x.2)) existing x.1 in
  (res, (x', List.tl x.2)).

(** The object that is returned is not seen again. *)
Definition keep_vars {X : Type} (_ : RangeAllocation) (x : X) : X := x.

(** What each operation does again after a restore.  The operation has looked at the
    bit before, so the offset is not negative. *)
Definition allocate_func (x : vars) : option storage_error * vars :=
  let '(ok, a) := allocate_bit x.2 (alloc x.1) in
  (if ok then None else Some errorUnableToAllocate, (set_alloc a x.1, x.2)).

Definition allocateNext_func (rnd : Z) (x : vars) : option storage_error * vars :=
  let '(ok, a) := allocate_bit x.2 (alloc x.1) in
  if ok then (None, (set_alloc a x.1, x.2))
  else
    let '(next, a) := Bitmap_AllocateNext rnd a in
    match next with
    | None => (Some errorUnableToAllocate, (set_alloc a x.1, 0))
    | Some offset => (None, (set_alloc a x.1, offset))
    end.

Definition release_func (item : Z) (x : vars) : option storage_error * vars :=
  (None, (set_alloc (release_bit item (alloc x.1)) x.1, x.2)).

Section operations.
Context {D W : Type} `{!KV D W, !EqDecision D}.
Context (Encode : RangeAllocation → result string D) (Decode : D → result string RangeAllocation).
Context (quorumRead : bool) (baseKey : string).
(** Transactions that are tried at most. *)
Context (fuel : nat).

Definition tryUpdate (fn : Z → vars → option storage_error * vars) (rnds : list Z) (x : vars) (w : W)
    : option (result storage_error RangeAllocation) * vars * W :=
  let '(res, (x, _), w) := GuaranteedUpdate Encode Decode quorumRead (drawing fn) keep_vars fuel baseKey true None None (x, rnds) w in
  (res, x, w).

Definition Etcd_Allocate (offset : Z) (e : Etcd) (w : W)
    : outcome (option (result storage_error bool) * Etcd * W) :=
  first ?<- Bitmap_Allocate offset (alloc e);
  let '(ok, a) := first in
  let e := set_alloc a e in
  if ok : bool then
    let '(res, x, w) := tryUpdate (λ _, allocate_func) [] (e, offset) w in
    Ret (match res with
         | None => None
         | Some (Ok _) => Some (Ok true)
         | Some (Err err) => Some (if decide (err = errorUnableToAllocate) then Ok false else Err err)
         end, x.1, w)
  else Ret (Some (Ok false), e, w).

(** The offset, whether there is one, and the error: the result of the function
    that is passed on does not change the flag. *)
Definition Etcd_AllocateNext (rnd : Z) (rnds : list Z) (e : Etcd) (w : W)
    : option (Z * bool * option storage_error) * Etcd * W :=
  let '(next, a) := Bitmap_AllocateNext rnd (alloc e) in
  let e := set_alloc a e in
  match next with
  | None => (Some (0, false, None), e, w)
  | Some offset =>
      let '(res, x, w) := tryUpdate allocateNext_func rnds (e, offset) w in
      (match res with
       | None => None
       | Some (Ok _) => Some (x.2, true, None)
       | Some (Err err) => Some (x.2, true, Some err)
       end, x.1, w)
  end.

Definition Etcd_Release (item : Z) (e : Etcd) (w : W)
    : outcome (option (result storage_error unit) * Etcd * W) :=
  a ?<- Bitmap_Release item (alloc e);
  let '(res, x, w) := tryUpdate (λ _, release_func item) [] (set_alloc a e, item) w in
  Ret (match res with
       | None => None
       | Some (Ok _) => Some (Ok tt)
       | Some (Err err) => Some (Err err)
       end, x.1, w).

Definition Etcd_ForEach (e : Etcd) : list Z := Bitmap_ForEach (alloc e).
Definition Etcd_Has (item : Z) (e : Etcd) : outcome bool := Bitmap_Has item (alloc e).
Definition Etcd_Free (e : Etcd) : Z := Bitmap_Free (alloc e).

Definition Etcd_Get (w : W) : result storage_error RangeAllocation * W := store_Get Decode quorumRead baseKey true w.

(** The function of CreateOrUpdate, with the snapshot and the version to remember. *)
Definition createOrUpdate_func (existing : RangeAllocation) (x : RangeAllocation * string)
    : result storage_error RangeAllocation * (RangeAllocation * string) :=
  let '(snapshot, _) := x in
  if decide (ResourceVersion snapshot ≠ "" ∧ ResourceVersion existing ≠ "" ∧
             ResourceVersion snapshot ≠ ResourceVersion existing) then
    (Err (Conflict "the provided resource version does not match"), x)
  else if decide (ResourceVersion snapshot = "" ∧ ResourceVersion existing ≠ "") then
    (Err (Conflict "another caller has already initialized the resource"), x)
  else (Ok snapshot, (snapshot, ResourceVersion snapshot)).

(** The snapshot is the object that the store changes in place. *)
Definition see_snapshot (snapshot : RangeAllocation) (x : RangeAllocation * string) : RangeAllocation * string :=
  (snapshot, x.2).

Definition CreateOrUpdate (snapshot : RangeAllocation) (e : Etcd) (w : W)
    : option (result storage_error unit) * Etcd * W :=
  let '(res, x, w) :=
    GuaranteedUpdate Encode Decode quorumRead createOrUpdate_func see_snapshot fuel baseKey true None None (snapshot, "") w in
  match res with
  | None => (None, e, w)
  | Some (Err err) => (Some (Err err), e, w)
  | Some (Ok _) =>
      let '(res, a) := Restore (ra_Range x.1) (Data x.1) (alloc e) in
      match res with
      | Err msg => (Some (Err (StoreError msg)), set_alloc a e, w)
      | Ok _ => (Some (Ok tt), mkEtcdAllocator a x.2, w)
      end
  end.
End operations.
