(* ===== verification/EtcdServers.v ===== *)
(** * Several API servers that allocate through etcd

    The functions of [EtcdAllocator] as the steps of a system in which each request
    to etcd is a step of its own and may fail before or after it took effect.  Without
    quorum reads a read may give any earlier state.

    Theorems: with quorum reads, no number is handed out twice without a release in
    between, by whichever server, in any interleaving and with any failures; without
    them a number is handed out twice in a run without any failure; and the operations
    of the allocator, run over a client of etcd that the other servers use as well,
    are runs of this system. *)

From S2P Require Import Prelude Allocator PortAllocator IPAllocator ServiceRest Repair EtcdStore EtcdAllocator.
Open Scope Z_scope.

(** ** Several API servers

    Each server runs one operation at a time, as it holds its lock.  The requests
    to etcd are steps of their own.  [given] is what was handed out and not asked
    back since; [past] is what was stored before.  Only what is given is released. *)

Inductive kind := KAllocate | KNext | KRelease (item : Z).

Definition kind_func (k : kind) (rnd : Z) : vars → option storage_error * vars :=
  match k with
  | KAllocate => allocate_func
  | KNext => allocateNext_func rnd
  | KRelease item => release_func item
  end.

Inductive event :=
  | Handed (server : nat) (offset : Z)
  | Released (server : nat) (offset : Z).

Section system.
Context {D : Type} `{!EqDecision D}.
Context (Encode : RangeAllocation → result string D) (Decode : D → result string RangeAllocation).
Context (baseKey : string) (quorumRead : bool).

Inductive pc := Idle | Reading (k : kind) | Writing (k : kind) (rev : Z) (data : D).

Record server := mkServer { sv_vars : vars; sv_pc : pc }.

Record system := mkSystem {
  servers : list server;
  shared : option (kv D);
  revision : Z;
  given : gset Z;
  past : list (option (kv D))
}.

Definition set_server (i : nat) (sv : server) (s : system) : system :=
  mkSystem (<[i := sv]> (servers s)) (shared s) (revision s) (given s) (past s).

Definition set_shared (data : D) (rev : Z) (s : system) : system :=
  mkSystem (servers s) (Some (data, rev)) rev (given s) (shared s :: past s).

(** The server goes on with what the store decided. *)
Definition continue (i : nat) (k : kind) (next : gu_next (O := RangeAllocation)) (x : vars) (s : system)
    : option event * system :=
  match next with
  | Commit rev data => (None, set_server i (mkServer x (Writing k rev data)) s)
  | Finished res =>
      let s := set_server i (mkServer x Idle) s in
      match res, k with
      | Ok _, KRelease _ => (None, s)
      | Ok _, _ => (Some (Handed i x.2), mkSystem (servers s) (shared s) (revision s) ({[x.2]} ∪ given s) (past s))
      | Err _, _ => (None, s)
      end
  end.

Definition look (k : kind) (rnd : Z) (x : vars) (cell : option (kv D)) : gu_next (O := RangeAllocation) * vars :=
  gu_from Encode Decode (tryUpdate_func (kind_func k rnd)) keep_vars baseKey true None cell x.

(** What the first read of an update may give. *)
Definition readable (s : system) (cell : option (kv D)) : Prop :=
  cell = shared s ∨ (getOps quorumRead = true ∧ cell ∈ past s).

Inductive sys_step (limit : Z) (s : system) : option event → system → Prop :=
  (* an operation starts, on the local copy *)
  | sys_allocate i e y offset a :
      servers s !! i = Some (mkServer (e, y) Idle) → in_limit limit offset →
      Bitmap_Allocate offset (alloc e) = Ret (true, a) →
      sys_step limit s None (set_server i (mkServer (set_alloc a e, offset) (Reading KAllocate)) s)
  | sys_next i e y rnd offset a :
      servers s !! i = Some (mkServer (e, y) Idle) →
      Bitmap_AllocateNext rnd (alloc e) = (Some offset, a) →
      sys_step limit s None (set_server i (mkServer (set_alloc a e, offset) (Reading KNext)) s)
  | sys_release i e y item a :
      servers s !! i = Some (mkServer (e, y) Idle) → item ∈ given s → Bitmap_Release item (alloc e) = Ret a →
      sys_step limit s (Some (Released i item))
        (mkSystem (<[i := mkServer (set_alloc a e, item) (Reading (KRelease item))]> (servers s))
           (shared s) (revision s) (given s ∖ {[item]}) (past s))
  (* the read of an update *)
  | sys_read i x k rnd cell next x' ev s' :
      servers s !! i = Some (mkServer x (Reading k)) → readable s cell → look k rnd x cell = (next, x') →
      continue i k next x' s = (ev, s') → sys_step limit s ev s'
  | sys_read_fails i x k :
      servers s !! i = Some (mkServer x (Reading k)) →
      sys_step limit s None (set_server i (mkServer x Idle) s)
  (* the transaction of an update *)
  | sys_write i x k rev data rev' ev s' :
      servers s !! i = Some (mkServer x (Writing k rev data)) → default 0 (snd <$> shared s) = rev → revision s < rev' →
      continue i k (Finished (decode Decode data rev')) x (set_shared data rev' s) = (ev, s') → sys_step limit s ev s'
  | sys_conflict i x k rev data rnd next x' ev s' :
      servers s !! i = Some (mkServer x (Writing k rev data)) → default 0 (snd <$> shared s) ≠ rev →
      look k rnd x (shared s) = (next, x') → continue i k next x' s = (ev, s') → sys_step limit s ev s'
  | sys_write_fails i x k rev data :
      servers s !! i = Some (mkServer x (Writing k rev data)) →
      sys_step limit s None (set_server i (mkServer x Idle) s)
  | sys_write_lost i x k rev data rev' :
      servers s !! i = Some (mkServer x (Writing k rev data)) → default 0 (snd <$> shared s) = rev → revision s < rev' →
      sys_step limit s None (set_server i (mkServer x Idle) (set_shared data rev' s)).

(** The events of a run, in order. *)
Inductive sys_run (limit : Z) (s : system) : list event → system → Prop :=
  | run_start : sys_run limit s [] s
  | run_step l s1 ev s2 : sys_run limit s l s1 → sys_step limit s1 ev s2 → sys_run limit s (l ++ option_list ev) s2.

(** ** The invariant *)

Context (codec_roundtrip : ∀ obj data, Encode obj = Ok data → Decode data = Ok obj).
Context (limit : Z) (spec : string).

Definition local_ok (a : AllocationBitmap) : Prop := bitmap_ok a ∧ max a = limit ∧ rangeSpec a = spec.

(** Data that stand for the set [T]. *)
Definition data_holds (d : D) (T : gset Z) : Prop :=
  ∃ a, local_ok a ∧ Encode (mkRangeAllocation "" spec (Bytes (allocated a))) = Ok d ∧ bitmap_taken a = T.

Definition local (sv : server) : gset Z := bitmap_taken (alloc (sv_vars sv).1).
Definition seen (sv : server) : string := last (sv_vars sv).1.

(** The offset of an allocation under way, and the item of a release. *)
Definition taking (sv : server) : option Z :=
  match sv_pc sv with
  | Reading KAllocate | Reading KNext | Writing KAllocate _ _ | Writing KNext _ _ => Some (sv_vars sv).2
  | _ => None
  end.

Definition releasing (sv : server) : option Z :=
  match sv_pc sv with Reading (KRelease p) | Writing (KRelease p) _ _ => Some p | _ => None end.

(** The local copy without what is not handed out yet. *)
Definition settled (sv : server) : gset Z := local sv ∖ option_to_set (taking sv).

Record server_ok (sv : server) : Prop := {
  so_local : local_ok (alloc (sv_vars sv).1);
  so_taking o : taking sv = Some o → o ∈ local sv ∧ in_limit limit o;
  so_writing k rev data : sv_pc sv = Writing k rev data →
    seen sv = FormatInt rev ∧ 0 < rev ∧ data_holds data (local sv)
}.

(** [v] is the version of the shared data and [T] what they hold.  A server that
    has seen this version has everything that is handed out, and of what is stored
    at most one such server misses any number.  What is being released is no longer
    handed out but still stored, and no other such server misses it. *)
Record system_ok (s : system) (d : D) (v : Z) (T : gset Z) : Prop := {
  sy_shared : shared s = Some (d, v);
  sy_version : 0 < v ≤ revision s;
  sy_holds : data_holds d T;
  sy_given : given s ⊆ T;
  sy_servers i sv : servers s !! i = Some sv → server_ok sv;
  sy_seen i sv n : servers s !! i = Some sv → 0 ≤ n → seen sv = FormatInt n → n ≤ revision s;
  sy_current i sv : servers s !! i = Some sv → seen sv = FormatInt v → given s ⊆ settled sv;
  sy_pair i j sv sv' o : servers s !! i = Some sv → servers s !! j = Some sv' → i ≠ j →
    seen sv = FormatInt v → seen sv' = FormatInt v → o ∈ T → o ∈ settled sv ∨ o ∈ settled sv';
  sy_releasing i sv p : servers s !! i = Some sv → releasing sv = Some p →
    p ∉ given s ∧ p ∈ T ∧
    ∀ j sv', servers s !! j = Some sv' → i ≠ j → seen sv' = FormatInt v → p ∈ settled sv';
  sy_distinct i j sv sv' p : servers s !! i = Some sv → servers s !! j = Some sv' → i ≠ j →
    releasing sv = Some p → releasing sv' ≠ Some p
}.

Lemma FormatInt_inj n m : FormatInt n = FormatInt m → n = m.
Proof. apply (inj pretty). Qed.

Lemma FormatInt_nonempty n : 0 ≤ n → FormatInt n ≠ "".
Proof. intros Hn. apply (FormatInt_digits n Hn). Qed.

Lemma data_holds_inj d T T' : data_holds d T → data_holds d T' → T = T'.
Proof.
  intros (a & [Hok _] & He & <-) (a' & [Hok' _] & He' & <-).
  apply codec_roundtrip in He, He'. rewrite He in He'. injection He' as Hb. unfold bitmap_taken. f_equal.
  rewrite <-(SetBytes_Bytes (allocated a)), <-(SetBytes_Bytes (allocated a')), Hb; [done|apply Hok'|apply Hok].
Qed.

(** *** The local copy *)

Lemma Bitmap_Allocate_Ret o a res : Bitmap_Allocate o a = Ret res → 0 ≤ o ∧ allocate_bit o a = res.
Proof. unfold Bitmap_Allocate, at_bit. case_decide; [done|]. intros [= <-]. split; [lia|done]. Qed.

Lemma Bitmap_Release_Ret o a a' : Bitmap_Release o a = Ret a' → 0 ≤ o ∧ release_bit o a = a'.
Proof. unfold Bitmap_Release, at_bit. case_decide; [done|]. intros [= <-]. split; [lia|done]. Qed.

Lemma local_allocate a o :
  local_ok a → in_limit limit o →
  ∃ a', allocate_bit o a = (bool_decide (o ∉ bitmap_taken a), a') ∧ local_ok a' ∧
        bitmap_taken a' = {[o]} ∪ bitmap_taken a.
Proof.
  intros (Hok & Hm & Hs) Ho. rewrite <-Hm in Ho. destruct (allocate_bit_ok a o Hok Ho) as (a' & Heq & Hok' & Hm' & Ht).
  pose proof (Bitmap_rangeSpec o a) as [Hsp _]. simpl in Hsp.
  rewrite Heq in *. exists a'. split; [done|].
  split_and!; [|done]. split_and!; [done|congruence|]. simpl in Hsp. congruence.
Qed.

Lemma local_next a rnd :
  local_ok a →
  ∃ next a', Bitmap_AllocateNext rnd a = (next, a') ∧ local_ok a' ∧
    match next with
    | Some o => in_limit limit o ∧ o ∉ bitmap_taken a ∧ bitmap_taken a' = {[o]} ∪ bitmap_taken a
    | None => bitmap_taken a' = bitmap_taken a
    end.
Proof.
  intros (Hok & Hm & Hs). destruct (AllocateNext_ok a rnd Hok) as (next & a' & Heq & Hok' & Hm' & Ht).
  assert (rangeSpec (Bitmap_AllocateNext rnd a).2 = rangeSpec a) as Hsp.
  { unfold Bitmap_AllocateNext. by destruct (strategy a _ _ _ _). }
  rewrite Heq in *. simpl in Hsp. exists next, a'. split; [done|].
  split; [split_and!; [done|congruence|congruence]|]. destruct next; [|by destruct Ht]. by rewrite <-Hm.
Qed.

Lemma local_release a p : local_ok a → local_ok (release_bit p a) ∧ bitmap_taken (release_bit p a) = bitmap_taken a ∖ {[p]}.
Proof.
  intros (Hok & Hm & Hs). destruct (release_bit_ok a p Hok) as (Hok' & Hm' & Ht).
  pose proof (Bitmap_rangeSpec p a) as [_ Hsp]. simpl in Hsp.
  split; [split_and!; [done|congruence|congruence]|done].
Qed.

(** What the function of an operation has done to the copy [T]. *)
Definition redone (k : kind) (T : gset Z) (x : vars) : Prop :=
  match k with
  | KRelease p => bitmap_taken (alloc x.1) = T ∖ {[p]}
  | _ => in_limit limit x.2 ∧ x.2 ∉ T ∧ bitmap_taken (alloc x.1) = {[x.2]} ∪ T
  end.

Lemma kind_func_spec k rnd x :
  local_ok (alloc x.1) → (match k with KRelease _ => True | _ => in_limit limit x.2 end) →
  ∃ err x', kind_func k rnd x = (err, x') ∧ last x'.1 = last x.1 ∧ local_ok (alloc x'.1) ∧
    (err = None → redone k (bitmap_taken (alloc x.1)) x').
Proof.
  intros Hl Ho. destruct x as [e o]. destruct k as [| |p]; simpl in *.
  - unfold allocate_func. simpl. destruct (local_allocate _ o Hl Ho) as (a & -> & Ha & Ht).
    eexists _, _. split; [done|]. simpl. split_and!; [done|done|]. case_bool_decide; [|done]. by intros _.
  - unfold allocateNext_func. simpl. destruct (local_allocate _ o Hl Ho) as (a & -> & Ha & Ht).
    case_bool_decide as Hfree; [by eexists _, _|].
    destruct (local_next a rnd Ha) as (next & a' & -> & Ha' & Hn).
    destruct next as [n|]; eexists _, _; (split; [done|]); simpl; (split_and!; [done|done|]); [|done]. intros _.
    destruct Hn as (Hin & Hnf & Ht'). rewrite Ht in *. split_and!; [done|set_solver|]. rewrite Ht'. set_solver.
  - eexists _, _. split; [done|]. simpl. destruct (local_release _ p Hl) as [? ?]. split_and!; [done|done|]. by intros _.
Qed.

Lemma restore_holds d T a :
  data_holds d T → local_ok a →
  ∃ data a', Decode d = Ok (mkRangeAllocation "" spec data) ∧ Restore spec data a = (Ok tt, a') ∧
    local_ok a' ∧ bitmap_taken a' = T.
Proof.
  intros (b & (Hb & Hbm & Hbs) & He & <-) (Ha & Hm & Hs). apply codec_roundtrip in He.
  destruct (Restore_Snapshot b a Hb) as (a' & Heq & Hok & Hm' & Hal & _ & Hsp); [apply Ha|congruence|congruence|].
  unfold Snapshot in Heq. simpl in Heq. rewrite Hbs in Heq. eexists _, a'. split; [done|]. split; [done|].
  split; [split_and!; [done|congruence|congruence]|]. unfold bitmap_taken. by rewrite Hal.
Qed.

(** *** What a server makes of a state that it read *)

Lemma ParseUint_FormatInt n m : 0 < n → ParseUint (FormatInt n) = Some m → m = n.
Proof.
  intros Hn. destruct n as [|p|p]; [done| |done]. unfold ParseUint, FormatInt.
  change (pretty (Z.pos p)) with (pretty (N.pos p)). rewrite parse_digits_pretty.
  destruct (pretty (N.pos p)); [done|]. case_decide; [|done]. by intros [= <-].
Qed.

(** The variables follow the version [v]: unchanged if they did before, otherwise
    the operation is done again on what is stored. *)
Definition caught_up (k : kind) (v : Z) (T : gset Z) (x x' : vars) : Prop :=
  last x'.1 = FormatInt v ∧
  ((last x.1 = FormatInt v ∧ x' = x) ∨ (last x.1 ≠ FormatInt v ∧ redone k T x')).

Definition fits (k : kind) (o : Z) : Prop := match k with KRelease _ => True | _ => in_limit limit o end.

Lemma tryUpdate_func_spec k rnd x v T data a res x' :
  0 < v → local_ok (alloc x.1) → fits k x.2 →
  Restore spec data (alloc x.1) = (Ok tt, a) → local_ok a → bitmap_taken a = T →
  tryUpdate_func (kind_func k rnd) (mkRangeAllocation (FormatInt v) spec data) x = (res, x') →
  local_ok (alloc x'.1) ∧
  match res with
  | Err _ => last x'.1 = last x.1 ∧ last x.1 ≠ FormatInt v
  | Ok ret => caught_up k v T x x' ∧ ret = mkRangeAllocation (FormatInt v) spec (Bytes (allocated (alloc x'.1)))
  end.
Proof.
  intros Hv Hl Hf Hr Ha HT. unfold tryUpdate_func. cbn [ResourceVersion ra_Range Data].
  rewrite decide_False by (apply FormatInt_nonempty; lia). case_decide as Hlast.
  - rewrite Hr. destruct (kind_func_spec k rnd (set_alloc a x.1, x.2) Ha Hf) as (err & x1 & -> & Hl1 & Hok1 & Hdone).
    destruct err as [e|]; intros [= <- <-]; simpl; [by split_and!|]. split; [done|]. destruct Hok1 as (_ & _ & <-).
    split; [|done]. split; [done|]. right. split; [congruence|]. simpl in Hdone. rewrite HT in Hdone.
    specialize (Hdone eq_refl). by destruct k.
  - intros [= <- <-]. simpl. split; [done|]. destruct Hl as (_ & _ & <-). split; [|done].
    split; [done|]. left. split; [done|]. destruct x as [[al la] o]. simpl in *. by subst la.
Qed.

Lemma look_spec k rnd x cell d v T next x' :
  cell = Some (d, v) → 0 < v → data_holds d T → local_ok (alloc x.1) → fits k x.2 →
  look k rnd x cell = (next, x') →
  local_ok (alloc x'.1) ∧
  match next with
  | Finished (Err _) => (last x'.1 = last x.1 ∧ last x.1 ≠ FormatInt v) ∨ caught_up k v T x x'
  | Finished (Ok _) => caught_up k v T x x' ∧ bitmap_taken (alloc x'.1) = T
  | Commit rev d' => rev = v ∧ caught_up k v T x x' ∧ data_holds d' (bitmap_taken (alloc x'.1))
  end.
Proof.
  intros Hs Hv Hd Hl Hf. destruct (restore_holds d T _ Hd Hl) as (data & a & Hdec & Hr & Ha & HT).
  unfold look, gu_from. subst cell. unfold getState, decode. rewrite Hdec. unfold gu_attempt, updateState, UpdateObject. simpl.
  rewrite (decide_False (P := v = 0)) by lia.
  destruct (tryUpdate_func (kind_func k rnd) (mkRangeAllocation (FormatInt v) spec data) x) as [[ret|e] x1] eqn:Htry;
    destruct (tryUpdate_func_spec _ _ _ _ _ _ _ _ _ Hv Hl Hf Hr Ha HT Htry) as [Hok Hres]; [|intros [= <- <-]; by auto].
  destruct Hres as [Hc ->]. unfold ObjectResourceVersion. simpl. rewrite decide_False by (apply FormatInt_nonempty; lia).
  destruct (ParseUint (FormatInt v)) as [m|] eqn:Hm; [|intros [= <- <-]; by auto].
  apply ParseUint_FormatInt in Hm as ->; [|done]. rewrite (decide_True (P := v ≠ 0)) by lia. unfold keep_vars.
  destruct (Encode _) as [d'|e] eqn:He; [|intros [= <- <-]; by auto].
  assert (Hd' : data_holds d' (bitmap_taken (alloc x1.1))) by (exists (alloc x1.1); done).
  case_decide as Heq; intros [= <- <-]; [|done]. split; [done|]. injection Heq as ->. unfold decode. rewrite Hdec.
  split; [done|]. by eapply data_holds_inj.
Qed.

(** *** Preservation *)

(** A server with the version [v] whose copy leaves out [o], which no other current
    server may leave out as well. *)
Definition others_have (s : system) (i : nat) (v : Z) (o : Z) : Prop :=
  ∀ j sv, servers s !! j = Some sv → i ≠ j → seen sv = FormatInt v → o ∈ settled sv.

(** What a server may become while the shared data stay, [G] being handed out then. *)
Record may_become (s : system) (v : Z) (T : gset Z) (i : nat) (sv sv' : server) (G : gset Z) : Prop := {
  mb_ok : server_ok sv';
  mb_seen : seen sv' = seen sv ∨ seen sv' = FormatInt v;
  mb_given : G ⊆ T;
  mb_current : seen sv' = FormatInt v → G ⊆ settled sv';
  mb_others o : o ∈ G → others_have s i v o;
  mb_pair o : seen sv' = FormatInt v → o ∈ T → o ∉ settled sv' → others_have s i v o;
  mb_releasing p : releasing sv' = Some p → p ∉ G ∧ p ∈ T ∧ others_have s i v p ∧
    ∀ j svj, servers s !! j = Some svj → i ≠ j → releasing svj ≠ Some p;
  mb_others_release j svj p : servers s !! j = Some svj → i ≠ j → releasing svj = Some p →
    p ∉ G ∧ (seen sv' = FormatInt v → p ∈ settled sv')
}.

Lemma lookup_set_server i sv s j svj :
  servers (set_server i sv s) !! j = Some svj → (i = j ∧ svj = sv) ∨ (i ≠ j ∧ servers s !! j = Some svj).
Proof. simpl. intros H. apply list_lookup_insert_Some in H as [(-> & <- & _)|[Hne H]]; by auto. Qed.

Lemma update_ok s d v T i sv sv' G :
  system_ok s d v T → servers s !! i = Some sv → may_become s v T i sv sv' G →
  system_ok (mkSystem (<[i := sv']> (servers s)) (shared s) (revision s) G (past s)) d v T.
Proof.
  intros Hs Hi Hb. pose proof (sy_version _ _ _ _ Hs) as Hv.
  assert (Hl : ∀ j svj, <[i := sv']> (servers s) !! j = Some svj →
    (i = j ∧ svj = sv') ∨ (i ≠ j ∧ servers s !! j = Some svj)) by (intros j svj; apply lookup_set_server).
  split; simpl; [apply Hs|done|apply Hs|apply Hb|..].
  - intros j svj [[-> ->]|[Hne Hj]]%Hl; [apply Hb|by eapply Hs].
  - intros j svj n [[-> ->]|[Hne Hj]]%Hl Hn Hseen; [|by eapply Hs].
    destruct (mb_seen _ _ _ _ _ _ _ Hb) as [He|He]; [eapply (sy_seen _ _ _ _ Hs); [done..|congruence]|].
    rewrite He in Hseen. apply FormatInt_inj in Hseen. lia.
  - intros j svj [[-> ->]|[Hne Hj]]%Hl Hseen; [by apply Hb|]. intros o Ho. by eapply (mb_others _ _ _ _ _ _ _ Hb).
  - intros j1 j2 sv1 sv2 o [[-> ->]|[Hne1 Hj1]]%Hl [[-> ->]|[Hne2 Hj2]]%Hl Hne Hs1 Hs2 Ho; [done|..].
    + destruct (decide (o ∈ settled sv')); [by left|right]. by eapply (mb_pair _ _ _ _ _ _ _ Hb).
    + destruct (decide (o ∈ settled sv')); [by right|left]. by eapply (mb_pair _ _ _ _ _ _ _ Hb).
    + by eapply (sy_pair _ _ _ _ Hs j1 j2).
  - intros j svj p [[-> ->]|[Hne Hj]]%Hl Hp.
    + destruct (mb_releasing _ _ _ _ _ _ _ Hb p Hp) as (Hg & HT & Ho & _). split_and!; [done..|].
      intros j' sv2 [[-> ->]|[Hne Hj]]%Hl Hne' Hseen; [done|]. by eapply Ho.
    + destruct (mb_others_release _ _ _ _ _ _ _ Hb j svj p Hj Hne Hp) as [Hg Hset].
      destruct (sy_releasing _ _ _ _ Hs j svj p Hj Hp) as (_ & HT & Ho). split_and!; [done..|].
      intros j' sv2 [[-> ->]|[Hne2 Hj2]]%Hl Hne' Hseen; [by apply Hset|by eapply Ho].
  - intros j1 j2 sv1 sv2 p [[-> ->]|[Hne1 Hj1]]%Hl [[-> ->]|[Hne2 Hj2]]%Hl Hne Hp; [done|..].
    + by eapply (mb_releasing _ _ _ _ _ _ _ Hb).
    + intros Hp'. destruct (mb_releasing _ _ _ _ _ _ _ Hb p Hp') as (_ & _ & _ & Hd). by eapply Hd.
    + by eapply (sy_distinct _ _ _ _ Hs j1 j2).
Qed.

(** A server that gives up, or goes on with the same variables. *)
Lemma same_becomes s d v T i sv sv' :
  system_ok s d v T → servers s !! i = Some sv → server_ok sv' →
  seen sv' = seen sv → settled sv ⊆ settled sv' → (∀ p, releasing sv' = Some p → releasing sv = Some p) →
  may_become s v T i sv sv' (given s).
Proof.
  intros Hs Hi Hok Hseen Hset Hrel. split; [done|by left|apply Hs|..].
  - intros Hv. rewrite Hseen in Hv. pose proof (sy_current _ _ _ _ Hs i sv Hi Hv). set_solver.
  - intros o Ho j svj Hj Hne Hv. by eapply (sy_current _ _ _ _ Hs j svj).
  - intros o Hv HT Ho j svj Hj Hne Hv'. rewrite Hseen in Hv.
    destruct (sy_pair _ _ _ _ Hs i j sv svj o Hi Hj Hne Hv Hv' HT); set_solver.
  - intros p Hp%Hrel. destruct (sy_releasing _ _ _ _ Hs i sv p Hi Hp) as (Hg & HT & Ho). split_and!; [done..|].
    intros j svj Hj Hne. by eapply (sy_distinct _ _ _ _ Hs i j).
  - intros j svj p Hj Hne Hp. destruct (sy_releasing _ _ _ _ Hs j svj p Hj Hp) as (Hg & HT & Ho). split; [done|].
    intros Hv. rewrite Hseen in Hv. assert (p ∈ settled sv) by (eapply Ho; done). set_solver.
Qed.

(** A server whose copy is what is stored, without what it releases. *)
Lemma restored_becomes s d v T i sv sv' q :
  system_ok s d v T → servers s !! i = Some sv → server_ok sv' →
  seen sv' = FormatInt v → releasing sv = q → (releasing sv' = q ∨ releasing sv' = None) →
  T ∖ option_to_set q ⊆ settled sv' → may_become s v T i sv sv' (given s).
Proof.
  intros Hs Hi Hok Hseen Hq Hq' Hset. pose proof (sy_given _ _ _ _ Hs) as HG.
  assert (Hnot : ∀ p, p ∉ T ∖ option_to_set q → p ∈ T → releasing sv = Some p)
    by (intros p Hp HT; destruct (decide (q = Some p)); [congruence|]; exfalso; apply Hp;
        apply elem_of_difference; by rewrite elem_of_option_to_set).
  assert (Hothers : ∀ p, releasing sv = Some p → p ∉ given s ∧ p ∈ T ∧ others_have s i v p).
  { intros p Hp. destruct (sy_releasing _ _ _ _ Hs i sv p Hi Hp) as (Hg & HT & Ho). by split_and!. }
  split; [done|by right|done|..].
  - intros _ o Ho. apply Hset. destruct (decide (o ∈ T ∖ option_to_set q)) as [|Hn]; [done|].
    destruct (Hothers o) as [? _]; [apply Hnot; [done|by apply HG]|done].
  - intros o Ho j svj Hj Hne Hv. by eapply (sy_current _ _ _ _ Hs j svj).
  - intros o _ HT Ho. apply Hothers, Hnot; [|done]. intros Hin. by apply Ho, Hset.
  - intros p Hp. assert (releasing sv = Some p) as Hp' by (destruct Hq'; congruence).
    destruct (Hothers p Hp') as (? & ? & ?). split_and!; [done..|]. intros j svj Hj Hne. by eapply (sy_distinct _ _ _ _ Hs i j).
  - intros j svj p Hj Hne Hp. destruct (sy_releasing _ _ _ _ Hs j svj p Hj Hp) as (Hg & HT & _). split; [done|]. intros _.
    apply Hset. destruct (decide (p ∈ T ∖ option_to_set q)) as [|Hn]; [done|].
    exfalso. by eapply (sy_distinct _ _ _ _ Hs i j sv svj p Hi Hj Hne); [apply Hnot|].
Qed.

(** A server that remembers an older version. *)
Lemma behind_becomes s d v T i sv sv' :
  system_ok s d v T → servers s !! i = Some sv → server_ok sv' →
  seen sv' = seen sv → seen sv ≠ FormatInt v → releasing sv' = None →
  may_become s v T i sv sv' (given s).
Proof.
  intros Hs Hi Hok Hseen Hv Hrel. split; [done|by left|apply Hs|congruence|..].
  - intros o Ho j svj Hj Hne Hv'. by eapply (sy_current _ _ _ _ Hs j svj).
  - congruence.
  - congruence.
  - intros j svj p Hj Hne Hp. split; [by eapply (sy_releasing _ _ _ _ Hs j svj)|congruence].
Qed.

(** A server that finds its number stored already. *)
Lemma handed_becomes s d v T i sv sv' o :
  system_ok s d v T → servers s !! i = Some sv → server_ok sv' →
  seen sv = FormatInt v → taking sv = Some o → local sv = T →
  seen sv' = FormatInt v → settled sv' = T → releasing sv' = None →
  may_become s v T i sv sv' ({[o]} ∪ given s).
Proof.
  intros Hs Hi Hok Hv Ho HT Hv' HT' Hrel. pose proof (sy_given _ _ _ _ Hs) as HG.
  assert (o ∈ T ∧ o ∉ settled sv) as [HoT Hset].
  { rewrite <-HT. split; [by apply (so_taking sv (sy_servers _ _ _ _ Hs i sv Hi))|].
    unfold settled. rewrite Ho. simpl. set_solver. }
  split; [done|by right|set_solver|set_solver| |set_solver|congruence|].
  - intros o' [->%elem_of_singleton|Ho']%elem_of_union j svj Hj Hne Hvj; [|by eapply (sy_current _ _ _ _ Hs j svj)].
    by destruct (sy_pair _ _ _ _ Hs i j sv svj o Hi Hj Hne Hv Hvj HoT).
  - intros j svj p Hj Hne Hp. destruct (sy_releasing _ _ _ _ Hs j svj p Hj Hp) as (Hg & HpT & Hp').
    assert (p ∈ settled sv) by (by eapply Hp'). set_solver.
Qed.

Lemma asked_becomes s d v T i sv sv' item :
  system_ok s d v T → servers s !! i = Some sv → server_ok sv' → item ∈ given s →
  seen sv' = seen sv → settled sv' = settled sv ∖ {[item]} → releasing sv' = Some item →
  may_become s v T i sv sv' (given s ∖ {[item]}).
Proof.
  intros Hs Hi Hok Hitem Hseen Hset Hrel. pose proof (sy_given _ _ _ _ Hs) as HG.
  assert (Hcur : ∀ o, o ∈ given s → others_have s i v o).
  { intros o Ho j svj Hj Hne Hv. by eapply (sy_current _ _ _ _ Hs j svj). }
  assert (Hfree : ∀ j svj p, servers s !! j = Some svj → releasing svj = Some p → p ≠ item).
  { intros j svj p Hj Hp ->. by destruct (sy_releasing _ _ _ _ Hs j svj item Hj Hp). }
  split; [done|by left|set_solver|..].
  - intros Hv. rewrite Hseen in Hv. pose proof (sy_current _ _ _ _ Hs i sv Hi Hv). set_solver.
  - intros o Ho. apply Hcur. set_solver.
  - intros o Hv HT Ho. destruct (decide (o = item)) as [->|Hne]; [by apply Hcur|]. rewrite Hseen in Hv.
    intros j svj Hj Hji Hvj. destruct (sy_pair _ _ _ _ Hs i j sv svj o Hi Hj Hji Hv Hvj HT); set_solver.
  - intros p Hp. rewrite Hrel in Hp. injection Hp as <-. split_and!; [set_solver|set_solver|by apply Hcur|].
    intros j svj Hj Hne Hp. by apply (Hfree j svj item).
  - intros j svj p Hj Hne Hp. destruct (sy_releasing _ _ _ _ Hs j svj p Hj Hp) as (Hg & HT & Ho).
    pose proof (Hfree j svj p Hj Hp). split; [set_solver|]. intros Hv. rewrite Hseen in Hv.
    assert (p ∈ settled sv) by (by eapply Ho). set_solver.
Qed.

(** The transaction of a server: no server has seen the new version. *)
Lemma commit_ok s d v T i sv sv' k rev data rev' G :
  system_ok s d v T → servers s !! i = Some sv → sv_pc sv = Writing k rev data →
  default 0 (snd <$> shared s) = rev → revision s < rev' →
  sv_vars sv' = sv_vars sv → sv_pc sv' = Idle →
  G ⊆ given s ∪ option_to_set (taking sv) →
  system_ok (mkSystem (<[i := sv']> (servers s)) (Some (data, rev')) rev' G (shared s :: past s)) data rev' (local sv).
Proof.
  intros Hs Hi Hpc Hrev Hlt Hx Hpc' HG. pose proof (sy_servers _ _ _ _ Hs i sv Hi) as Hok.
  destruct (so_writing sv Hok k rev data Hpc) as (Hseen & Hpos & Hd).
  assert (rev = v) as -> by (rewrite (sy_shared _ _ _ _ Hs) in Hrev; simpl in Hrev; congruence).
  assert (Hset : settled sv ⊆ local sv) by (unfold settled; set_solver).
  pose proof (sy_current _ _ _ _ Hs i sv Hi Hseen) as Hcur. pose proof (sy_version _ _ _ _ Hs) as Hv.
  assert (Hl : ∀ j svj, <[i := sv']> (servers s) !! j = Some svj →
    (i = j ∧ svj = sv') ∨ (i ≠ j ∧ servers s !! j = Some svj)) by (intros j svj; apply lookup_set_server).
  assert (Hbound : ∀ j svj n, <[i := sv']> (servers s) !! j = Some svj → 0 ≤ n → seen svj = FormatInt n → n ≤ revision s).
  { intros j svj n [[-> ->]|[Hne Hj]]%Hl Hn Hsn; [|by eapply (sy_seen _ _ _ _ Hs)].
    eapply (sy_seen _ _ _ _ Hs); [done..|]. unfold seen in *. by rewrite <-Hx. }
  assert (Hnew : ∀ j svj, <[i := sv']> (servers s) !! j = Some svj → seen svj = FormatInt rev' → False).
  { intros j svj Hj Hsn. pose proof (Hbound j svj rev' Hj ltac:(lia) Hsn). lia. }
  assert (Hnone : releasing sv' = None) by (unfold releasing; by rewrite Hpc').
  assert (Htak : ∀ o, taking sv = Some o → o ∈ local sv ∧ o ∉ settled sv).
  { intros o Ho. split; [by apply (so_taking sv Hok)|]. unfold settled. rewrite Ho. simpl. set_solver. }
  assert (HG' : ∀ o, o ∈ G → o ∈ given s ∨ taking sv = Some o).
  { intros o Ho. apply HG, elem_of_union in Ho as [Ho|Ho%elem_of_option_to_set]; by auto. }
  split; simpl; [done|lia|done|..].
  - intros o [Ho|Ho]%HG'; [by apply Hset, Hcur|by apply Htak].
  - intros j svj [[-> ->]|[Hne Hj]]%Hl; [|by eapply (sy_servers _ _ _ _ Hs)]. split.
    + rewrite Hx. apply Hok.
    + intros o. unfold taking. by rewrite Hpc'.
    + intros k' r dd. by rewrite Hpc'.
  - intros j svj n Hj Hn Hsn. pose proof (Hbound j svj n Hj Hn Hsn). lia.
  - intros j svj Hj Hsn. by destruct (Hnew j svj).
  - intros j1 j2 sv1 sv2 o Hj1 Hj2 Hne Hsn. by destruct (Hnew j1 sv1).
  - intros j svj p [[-> ->]|[Hne Hj]]%Hl Hp; [congruence|].
    destruct (sy_releasing _ _ _ _ Hs j svj p Hj Hp) as (Hg & _ & Ho). assert (p ∈ settled sv) by (by eapply Ho).
    split_and!; [|by apply Hset|].
    + intros [?|Ht]%HG'; [done|]. by apply Htak in Ht as [_ ?].
    + intros j' sv2 Hj2 _ Hsn. by destruct (Hnew j' sv2).
  - intros j1 j2 sv1 sv2 p [[-> ->]|[Hne1 Hj1]]%Hl [[-> ->]|[Hne2 Hj2]]%Hl Hne Hp; [done|congruence|congruence|].
    by eapply (sy_distinct _ _ _ _ Hs j1 j2).
Qed.

(** *** The steps *)

Definition fresh (ev : option event) (s : system) : Prop :=
  match ev with Some (Handed _ o) => o ∉ given s | _ => True end.

Definition working (k : kind) (p : pc) : Prop := p = Reading k ∨ ∃ rev data, p = Writing k rev data.

Definition takes (k : kind) (o : Z) : option Z := match k with KRelease _ => None | _ => Some o end.
Definition gives (k : kind) : option Z := match k with KRelease p => Some p | _ => None end.

Lemma working_taking k sv : working k (sv_pc sv) → taking sv = takes k (sv_vars sv).2.
Proof. unfold working, taking. intros [->|(? & ? & ->)]; by destruct k. Qed.

Lemma working_releasing k sv : working k (sv_pc sv) → releasing sv = gives k.
Proof. unfold working, releasing. intros [->|(? & ? & ->)]; by destruct k. Qed.

Lemma working_fits k sv : working k (sv_pc sv) → server_ok sv → fits k (sv_vars sv).2.
Proof.
  intros Hw Hok. pose proof (so_taking sv Hok) as Ht. rewrite (working_taking k) in Ht by done.
  destruct k; simpl in *; [by apply Ht|by apply Ht|done].
Qed.

Lemma idle_ok x : local_ok (alloc x.1) → server_ok (mkServer x Idle).
Proof. by split. Qed.

(** The server after a restore and its operation, in the middle of it or done. *)
Lemma redone_becomes s d v T i sv x p k :
  system_ok s d v T → servers s !! i = Some sv → working k (sv_pc sv) → server_ok (mkServer x p) →
  last x.1 = FormatInt v → redone k T x → (working k p ∨ p = Idle) →
  may_become s v T i sv (mkServer x p) (given s).
Proof.
  intros Hs Hi Hw Hok Hlast Hdone Hp. apply (restored_becomes s d v T i sv _ (gives k)); [done..| | |].
  - by apply working_releasing.
  - destruct Hp as [Hp| ->]; [left; by apply working_releasing|by right].
  - assert (Hset : settled (mkServer x p) = bitmap_taken (alloc x.1) ∖ option_to_set (taking (mkServer x p))) by done.
    rewrite Hset. destruct Hp as [Hp| ->].
    + rewrite (working_taking k) by done. destruct k; simpl in *; set_solver.
    + change (taking (mkServer x Idle)) with (@None Z). destruct k; simpl in *; set_solver.
Qed.

(** A server that keeps its variables. *)
Lemma kept_becomes s d v T i x p p' k :
  system_ok s d v T → servers s !! i = Some (mkServer x p) → working k p → server_ok (mkServer x p') →
  (working k p' ∨ p' = Idle) → may_become s v T i (mkServer x p) (mkServer x p') (given s).
Proof.
  intros Hs Hi Hw Hok Hp. apply (same_becomes s d); [done..| |].
  - unfold settled, local. simpl. rewrite (working_taking k) by done.
    destruct Hp as [Hp| ->]; [by rewrite (working_taking k)|]. simpl. set_solver.
  - destruct Hp as [Hp| ->]; [|done]. by rewrite !(working_releasing k).
Qed.

Lemma writing_ok k x v data :
  local_ok (alloc x.1) → (∀ o, takes k x.2 = Some o → o ∈ bitmap_taken (alloc x.1) ∧ in_limit limit o) →
  last x.1 = FormatInt v → 0 < v → data_holds data (bitmap_taken (alloc x.1)) →
  server_ok (mkServer x (Writing k v data)).
Proof.
  intros Hl Htak Hlast Hv Hd. split; [done| |].
  - intros o. rewrite (working_taking k) by (right; eauto). apply Htak.
  - by intros k' rev dd [= <- <- <-].
Qed.

(** However an update goes on after a read, a server that caught up stays in order. *)
Lemma caught_up_becomes s d v T i x x' p p' k :
  system_ok s d v T → servers s !! i = Some (mkServer x p) → working k p → caught_up k v T x x' →
  server_ok (mkServer x' p') → (working k p' ∨ p' = Idle) →
  may_become s v T i (mkServer x p) (mkServer x' p') (given s).
Proof.
  intros Hs Hi Hw [Hlast [[Hv ->]|[Hv Hdone]]] Hok Hp; [by eapply kept_becomes|by eapply redone_becomes].
Qed.

Lemma caught_up_takes k v T x x' p :
  server_ok (mkServer x p) → working k p → caught_up k v T x x' →
  ∀ o, takes k x'.2 = Some o → o ∈ bitmap_taken (alloc x'.1) ∧ in_limit limit o.
Proof.
  intros Hok Hw [_ [[_ ->]|[_ Hdone]]] o Ho.
  - apply (so_taking _ Hok). by rewrite (working_taking k).
  - destruct k; simplify_eq/=; (destruct Hdone as (? & _ & ->); split; [set_solver|done]).
Qed.

Lemma read_ok s d v T i x p k rnd next x' ev s' :
  system_ok s d v T → servers s !! i = Some (mkServer x p) → working k p →
  look k rnd x (shared s) = (next, x') → continue i k next x' s = (ev, s') →
  system_ok s' d v T ∧ fresh ev s.
Proof.
  intros Hs Hi Hw Hlook Hcont. pose proof (sy_servers _ _ _ _ Hs i _ Hi) as Hok.
  pose proof (sy_version _ _ _ _ Hs) as [Hv _].
  destruct (look_spec k rnd x (shared s) d v T next x') as [Hl Hn]; [apply Hs|done|apply Hs|apply Hok| |done|].
  { by apply (working_fits k (mkServer x p)). }
  pose proof (idle_ok _ Hl) as Hidle.
  assert (Hupdate : ∀ sv', may_become s v T i (mkServer x p) sv' (given s) → system_ok (set_server i sv' s) d v T).
  { intros sv' Hb. by apply (update_ok s d v T i _ sv' (given s) Hs Hi). }
  destruct next as [[ret|e]|rev d']; simpl in Hcont.
  - destruct Hn as [Hc HT]. destruct (gives k) as [q|] eqn:Hk.
    { destruct k; [done..|]. injection Hcont as <- <-. split; [|done]. apply Hupdate.
      eapply caught_up_becomes; eauto. }
    destruct Hc as [Hlast [[Hlx ->]|[_ Hdone]]].
    + assert (Htak : taking (mkServer x p) = Some x.2) by (rewrite (working_taking k) by done; by destruct k).
      assert (Hnew : x.2 ∉ given s).
      { intros Hin. apply (sy_current _ _ _ _ Hs i _ Hi Hlx) in Hin. unfold settled in Hin. rewrite Htak in Hin.
        simpl in Hin. set_solver. }
      destruct k; [| |done]; injection Hcont as <- <-; (split; [|done]);
        (eapply update_ok; [done|done|]); eapply handed_becomes; try done; unfold settled, local; simpl; set_solver.
    + exfalso. destruct k; [| |done]; destruct Hdone as (_ & Hno & Heq); rewrite Heq in HT; set_solver.
  - injection Hcont as <- <-. split; [|done]. apply Hupdate. destruct Hn as [[Hx Hne]|Hc].
    + by eapply behind_becomes.
    + eapply caught_up_becomes; eauto.
  - destruct Hn as (-> & Hc & Hd). injection Hcont as <- <-. split; [|done]. apply Hupdate.
    eapply caught_up_becomes; [done..| |left; right; eauto].
    apply writing_ok; [done|exact (caught_up_takes k v T x x' p Hok Hw Hc)|apply Hc|done|done].
Qed.

(** An allocation starts: what it takes is not settled yet. *)
Lemma start_becomes s d v T i e y o a k :
  system_ok s d v T → servers s !! i = Some (mkServer (e, y) Idle) → takes k o = Some o →
  local_ok a → in_limit limit o → o ∉ bitmap_taken (alloc e) → bitmap_taken a = {[o]} ∪ bitmap_taken (alloc e) →
  may_become s v T i (mkServer (e, y) Idle) (mkServer (set_alloc a e, o) (Reading k)) (given s).
Proof.
  intros Hs Hi Hk Hok Hin Hfree Ht.
  assert (Htak : taking (mkServer (set_alloc a e, o) (Reading k)) = Some o) by (by destruct k).
  apply (same_becomes s d); [done|done| |done| |].
  - split; [done| |done]. intros o' Ho'. rewrite Htak in Ho'. injection Ho' as <-. unfold local. simpl. rewrite Ht. set_solver.
  - unfold settled. rewrite Htak. unfold local. simpl. rewrite Ht. set_solver.
  - by destruct k.
Qed.

Lemma write_ok s d v T i x k rev data rev' ev s' :
  system_ok s d v T → servers s !! i = Some (mkServer x (Writing k rev data)) →
  default 0 (snd <$> shared s) = rev → revision s < rev' →
  continue i k (Finished (decode Decode data rev')) x (set_shared data rev' s) = (ev, s') →
  system_ok s' data rev' (bitmap_taken (alloc x.1)) ∧ fresh ev s.
Proof.
  intros Hs Hi Hrev Hlt. pose proof (sy_servers _ _ _ _ Hs i _ Hi) as Hok.
  destruct (so_writing _ Hok k rev data eq_refl) as (Hseen & _ & b & _ & He & _). apply codec_roundtrip in He.
  assert (rev = v) as -> by (rewrite (sy_shared _ _ _ _ Hs) in Hrev; simpl in Hrev; congruence).
  pose proof (sy_current _ _ _ _ Hs i _ Hi Hseen) as Hcur.
  assert (Htak : taking (mkServer x (Writing k v data)) = takes k x.2) by (apply working_taking; right; by eauto).
  assert (Hcommit : ∀ G, G ⊆ given s ∪ option_to_set (takes k x.2) →
    system_ok (mkSystem (<[i := mkServer x Idle]> (servers s)) (Some (data, rev')) rev' G (shared s :: past s)) data rev'
      (bitmap_taken (alloc x.1))).
  { intros G HG. apply (commit_ok s d v T i (mkServer x (Writing k v data)) _ k v); [done..|]. by rewrite Htak. }
  unfold settled in Hcur. rewrite Htak in Hcur. unfold decode. rewrite He. simpl.
  destruct k; intros [= <- <-]; (split; [apply Hcommit; simpl; set_solver|]); simpl in *; [set_solver..|done].
Qed.

Lemma step_ok s d v T ev s' :
  quorumRead = true → system_ok s d v T → sys_step limit s ev s' → ∃ d' v' T', system_ok s' d' v' T' ∧ fresh ev s.
Proof.
  intros Hq Hs Hstep. assert (Hall : ∀ i sv, servers s !! i = Some sv → local_ok (alloc (sv_vars sv).1))
    by (intros i sv Hi; by apply (so_local _ (sy_servers _ _ _ _ Hs i sv Hi))).
  assert (Hkeep : ∀ i sv sv', servers s !! i = Some sv → may_become s v T i sv sv' (given s) →
    ∃ d' v' T', system_ok (set_server i sv' s) d' v' T' ∧ fresh None s).
  { intros i sv sv' Hi Hb. exists d, v, T. split; [|done]. by apply (update_ok s d v T i sv). }
  inversion Hstep as [i e y o a Hi Ho Ha|i e y rnd o a Hi Ha|i e y item a Hi Hin Ha|
    i x k rnd cell next x' ev' s1 Hi Hcell Hlook Hc|i x k Hi|i x k rev data rev' ev' s1 Hi Hrev Hlt Hc|i x k rev data rnd next x' ev' s1 Hi Hrev Hlook Hc|
    i x k rev data Hi|i x k rev data rev' Hi Hrev Hlt]; subst; pose proof (Hall i _ Hi) as Hl.
  - destruct (local_allocate (alloc e) o Hl Ho) as (a' & Heq & Hok & Ht). apply Bitmap_Allocate_Ret in Ha as [_ Ha].
    rewrite Ha in Heq. injection Heq as Hfree ->. symmetry in Hfree. apply bool_decide_eq_true in Hfree. by apply (Hkeep i _ _ Hi), (start_becomes s d).
  - destruct (local_next (alloc e) rnd Hl) as (n & a' & Heq & Hok & Ht). rewrite Ha in Heq. injection Heq as <- <-.
    destruct Ht as (Hin & Hfree & Ht). by apply (Hkeep i _ _ Hi), (start_becomes s d).
  - exists d, v, T. split; [|done]. apply Bitmap_Release_Ret in Ha as [_ <-].
    destruct (local_release (alloc e) item Hl) as [Hok Ht].
    apply (update_ok s d v T i _ _ _ Hs Hi), (asked_becomes s d); [done|done|by split|done|done| |done].
    unfold settled, local. simpl. rewrite Ht. set_solver.
  - exists d, v, T. assert (cell = shared s) as -> by (unfold readable, getOps in Hcell; rewrite Hq in Hcell; naive_solver).
    eapply read_ok; [done|done|by left|done|done].
  - apply (Hkeep i _ _ Hi). eapply kept_becomes; [done|done|by left|by apply idle_ok|by right].
  - exists data, rev', (bitmap_taken (alloc x.1)). by eapply write_ok.
  - exists d, v, T. eapply read_ok; [done|done|right; by eauto|done|done].
  - apply (Hkeep i _ _ Hi). eapply kept_becomes; [done|done|right; by eauto|by apply idle_ok|by right].
  - eexists _, _, _. split; [|done]. eapply (commit_ok s d v T i _ (mkServer x Idle) k); [done..|]. set_solver.
Qed.

(** *** Runs *)

(** What is handed out after some events, if every number was free when it was
    handed out and handed out when it was released. *)
Definition ledger_step (G : option (gset Z)) (ev : event) : option (gset Z) :=
  G ← G;
  match ev with
  | Handed _ o => if decide (o ∈ G) then None else Some ({[o]} ∪ G)
  | Released _ o => if decide (o ∈ G) then Some (G ∖ {[o]}) else None
  end.

Definition ledger (G : gset Z) (l : list event) : option (gset Z) := foldl ledger_step (Some G) l.

Lemma ledger_None l : foldl ledger_step None l = None.
Proof. by induction l. Qed.

Lemma ledger_twice l i j o G G' :
  ledger G (Handed i o :: l ++ [Handed j o]) = Some G' → ∃ k, Released k o ∈ l.
Proof.
  unfold ledger. simpl. case_decide; [by rewrite ledger_None|].
  assert (Hin : o ∈ {[o]} ∪ G) by set_solver. revert Hin. generalize ({[o]} ∪ G). clear.
  induction l as [|ev l IH]; intros G Hin; simpl.
  - by rewrite decide_True.
  - destruct ev as [i' o'|i' o']; case_decide; rewrite ?ledger_None; try done.
    + intros Hl. destruct (IH ({[o']} ∪ G)) as [k Hk]; [set_solver|done|]. exists k. by right.
    + destruct (decide (o = o')) as [->|Hne]; [intros _; exists i'; by left|].
      intros Hl. destruct (IH (G ∖ {[o']})) as [k Hk]; [set_solver|done|]. exists k. by right.
Qed.

Lemma step_ledger s ev s' :
  sys_step limit s ev s' → fresh ev s → ledger (given s) (option_list ev) = Some (given s').
Proof.
  intros Hstep Hfresh.
  assert (Hcont : ∀ i k next x s0 s1, given s0 = given s → continue i k next x s0 = (ev, s1) →
    ledger (given s) (option_list ev) = Some (given s1)).
  { intros i k next x s0 s1 Hg Hc. unfold continue in Hc. destruct next as [[ret|e]|rev data]; [destruct k|..];
      injection Hc as <- <-; unfold ledger; simpl in *; rewrite ?decide_False by done; by rewrite Hg. }
  inversion Hstep; subst; try done; try (eapply Hcont; [|eassumption]; done).
  unfold ledger. simpl. by rewrite decide_True.
Qed.

Lemma run_ok s d v T l s' :
  quorumRead = true → system_ok s d v T → sys_run limit s l s' →
  (∃ d' v' T', system_ok s' d' v' T') ∧ ledger (given s) l = Some (given s').
Proof.
  intros Hq Hs Hrun. induction Hrun as [|l s1 ev s2 Hrun [(d1 & v1 & T1 & Hs1) Hl] Hstep]; [split; [by eauto|done]|].
  destruct (step_ok s1 d1 v1 T1 ev s2 Hq Hs1 Hstep) as (d2 & v2 & T2 & Hs2 & Hfresh). split; [by eauto|].
  pose proof (step_ledger _ _ _ Hstep Hfresh) as Hev. unfold ledger in *. by rewrite foldl_app, Hl.
Qed.

(** Servers that were started on what is stored, whatever their copies hold. *)
Record started (s : system) (d : D) (v : Z) (T : gset Z) : Prop := {
  st_shared : shared s = Some (d, v);
  st_version : 0 < v ≤ revision s;
  st_holds : data_holds d T;
  st_given : given s ⊆ T;
  st_servers sv : sv ∈ servers s → ∃ a o, sv = mkServer (NewEtcd a, o) Idle ∧ local_ok a
}.

Lemma started_ok s d v T : started s d v T → system_ok s d v T.
Proof.
  intros [Hsh Hv Hd HG Hsv].
  assert (Hi : ∀ i sv, servers s !! i = Some sv → server_ok sv ∧ releasing sv = None ∧ seen sv = "").
  { intros i sv H%list_elem_of_lookup_2. destruct (Hsv sv H) as (a & o & -> & Ha). split; [|done]. by apply idle_ok. }
  assert (Hseen : ∀ i sv n, servers s !! i = Some sv → 0 ≤ n → seen sv ≠ FormatInt n).
  { intros i sv n (_ & _ & ->)%Hi Hn Heq. by eapply FormatInt_nonempty. }
  assert (0 ≤ v) by lia. split; try done.
  - by intros i sv [? _]%Hi.
  - intros i sv n H1 Hn H2. by destruct (Hseen i sv n).
  - intros i sv H1 H2. by destruct (Hseen i sv v).
  - intros i j sv sv' o H1 _ _ H2. by destruct (Hseen i sv v).
  - intros i sv p (_ & Hr & _)%Hi Hp. congruence.
  - intros i j sv sv' p (_ & Hr & _)%Hi _ _ Hp. congruence.
Qed.

End system.

(** ** The operations are runs of the system

    [sys w] is what a client of etcd on server [i] is connected to, apart from what
    server [i] itself does: during each request the other servers may run. *)

Section simulation.
Context {D W : Type} `{!EqDecision D, !KV D W}.
Context (Encode : RangeAllocation → result string D) (Decode : D → result string RangeAllocation).
Context (baseKey : string) (quorumRead : bool) (limit : Z) (fuel : nat).

Notation run := (sys_run Encode Decode baseKey quorumRead limit).

Definition by_server (i : nat) (ev : event) : Prop :=
  match ev with Handed j _ | Released j _ => j = i end.

Definition others_run (i : nat) (s : system) (l : list event) (s' : system) : Prop :=
  (∀ sv, run (set_server i sv s) l (set_server i sv s')) ∧ Forall (λ ev, ¬ by_server i ev) l.

Class SharedKV (i : nat) (sys : W → system (D := D)) : Prop := {
  shared_Get_law w res w' : kv_Get (getOps quorumRead) baseKey w = (res, w') →
    ∃ l, others_run i (sys w) l (sys w') ∧ ∀ kv, res = Ok kv → readable quorumRead (sys w') kv;
  shared_Txn_law rev data w res w' : kv_Txn baseKey rev (Some data) w = (res, w') →
    ∃ l s, others_run i (sys w) l s ∧
      match res with
      | Ok (Succeeded rev') =>
          default 0 (snd <$> shared s) = rev ∧ revision s < rev' ∧ sys w' = set_shared data rev' s
      | Ok (Conflicted kv) => default 0 (snd <$> shared s) ≠ rev ∧ kv = shared s ∧ sys w' = s
      | Err _ =>
          sys w' = s ∨
          ∃ rev', default 0 (snd <$> shared s) = rev ∧ revision s < rev' ∧ sys w' = set_shared data rev' s
      end
}.

Lemma run_trans s l s1 l' s2 : run s l s1 → run s1 l' s2 → run s (l ++ l') s2.
Proof.
  intros H1 H2. induction H2 as [|l' s2 ev s3 H2 IH Hstep]; [by rewrite app_nil_r|].
  rewrite app_assoc. by eapply run_step.
Qed.

Lemma run_one s ev s' : sys_step Encode Decode baseKey quorumRead limit s ev s' → run s (option_list ev) s'.
Proof. intros H. apply (run_step _ _ _ _ _ s [] s ev s' (run_start _ _ _ _ _ s) H). Qed.

Lemma set_server_twice i sv sv' (s : system (D := D)) : set_server i sv (set_server i sv' s) = set_server i sv s.
Proof. unfold set_server. simpl. by rewrite list_insert_insert_eq. Qed.

Lemma continue_set i k next x sv (s : system (D := D)) : continue i k next x (set_server i sv s) = continue i k next x s.
Proof. destruct next as [[ret|e]|rev data]; simpl; [destruct k|..]; by rewrite ?set_server_twice, ?list_insert_insert_eq. Qed.

Lemma gu_from_drawing k key cell x rnds next y :
  gu_from Encode Decode (drawing (kind_func k)) keep_vars key true None cell (x, rnds) = (next, y) →
  gu_from Encode Decode (tryUpdate_func (kind_func k (List.hd 0 rnds))) keep_vars key true None cell x = (next, y.1).
Proof.
  unfold gu_from. destruct (getState Decode cell key true) as [st|e]; [|by intros [= <- <-]].
  unfold gu_attempt, updateState, drawing. simpl.
  destruct (tryUpdate_func _ _ x) as [[ret|e] x']; [|by intros [= <- <-]].
  destruct (ObjectResourceVersion ret) as [version|]; [|by intros [= <- <-]].
  destruct (decide (version ≠ 0)); (destruct (Encode _) as [d|e]; [|by intros [= <- <-]]);
    case_decide; by intros [= <- <-].
Qed.
Lemma run_length s l s' : run s l s' → length (servers s') = length (servers s).
Proof.
  induction 1 as [|l s1 ev s2 _ <- Hstep]; [done|].
  assert (Hc : ∀ i k next x (s0 s3 : system (D := D)) ev, continue i k next x s0 = (ev, s3) → length (servers s3) = length (servers s0)).
  { intros i k next x s0 s3 ev' Hc. destruct next as [[ret|e]|rev data]; simpl in Hc; [destruct k|..];
      injection Hc as <- <-; simpl; by rewrite length_insert. }
  inversion Hstep; subst; simpl; rewrite ?length_insert; try done; match goal with H : continue _ _ _ _ _ = _ |- _ => by rewrite (Hc _ _ _ _ _ _ _ H) end.
Qed.

Lemma from_keeps (P : vars → Prop) fn cell x :
  (∀ rnd existing x, P x → P (tryUpdate_func (fn rnd) existing x).2) → P x.1 →
  P (gu_from Encode Decode (drawing fn) keep_vars baseKey true None cell x).2.1.
Proof.
  intros HP Hx. unfold gu_from. destruct (getState Decode cell baseKey true) as [st|e]; [|done].
  unfold gu_attempt, updateState, drawing. simpl. specialize (HP (List.hd 0 x.2) (os_obj st) x.1 Hx).
  destruct (tryUpdate_func _ _ x.1) as [[ret|e] x']; [|done].
  destruct (ObjectResourceVersion ret) as [version|]; [|done].
  destruct (decide (version ≠ 0)); (destruct (Encode _) as [d|e]; [|done]); by case_decide.
Qed.

Section client.
Context (i : nat) (sys : W → system (D := D)) `{!SharedKV i sys}.

Lemma others_length s l s' : others_run i s l s' → length (servers s') = length (servers s).
Proof.
  intros [H _]. specialize (H (mkServer (NewEtcd (NewAllocationMap 0 ""), 0) Idle)). apply run_length in H. simpl in H.
  by rewrite !length_insert in H.
Qed.

(** Where server [i] is when the store has decided, after the events [l] of others. *)
Definition reaches (s0 : system) (k : kind) (next : gu_next (O := RangeAllocation)) (x : vars) (s : system) : Prop :=
  ∃ l, Forall (λ ev, ¬ by_server i ev) l ∧
    run s0 (l ++ option_list (continue i k next x s).1) (continue i k next x s).2.

Lemma reaches_step s0 l s1 k next x s :
  Forall (λ ev, ¬ by_server i ev) l → run s0 l s1 →
  sys_step Encode Decode baseKey quorumRead limit s1 (continue i k next x s).1 (continue i k next x s).2 →
  reaches s0 k next x s.
Proof. intros Hl Hrun Hstep. exists l. split; [done|]. by eapply run_step. Qed.

Lemma lookup_self sv (s : system (D := D)) : (i < length (servers s))%nat → servers (set_server i sv s) !! i = Some sv.
Proof. intros H. simpl. by rewrite list_lookup_insert_eq. Qed.

(** Where server [i] is when the update has returned, or has used up its fuel. *)
Definition stops (s0 : system) (k : kind) (res : option (result storage_error RangeAllocation)) (x : vars) (s : system) : Prop :=
  match res with
  | Some res => reaches s0 k (Finished res) x s
  | None => ∃ rev data, reaches s0 k (Commit rev data) x s
  end.

Lemma loop_reaches s0 k n next x rnds w res y w' :
  (i < length (servers (sys w)))%nat →
  gu_loop Encode Decode (drawing (kind_func k)) keep_vars n baseKey true None next (x, rnds) w = (res, y, w') →
  reaches s0 k next x (sys w) → stops s0 k res y.1 (sys w').
Proof.
  revert next x rnds w. induction n as [|n IH]; intros [res'|rev data] x rnds w Hi;
    [by intros [= <- <- <-]|intros [= <- <- <-]; simpl; by eauto|by intros [= <- <- <-]|].
  cbn [gu_loop]. destruct (kv_Txn baseKey rev (Some data) w) as [resp w1] eqn:Htxn. intros Hloop (l & Hl & Hrun).
  simpl in Hrun. rewrite app_nil_r in Hrun.
  destruct (shared_Txn_law rev data w resp w1 Htxn) as (l1 & s & Hothers & Hresp).
  pose proof (others_length _ _ _ Hothers) as Hlen. destruct Hothers as [Hmove Hl1].
  pose proof (run_trans _ _ _ _ _ Hrun (Hmove (mkServer x (Writing k rev data)))) as Hrun1.
  assert (Hself : servers (set_server i (mkServer x (Writing k rev data)) s) !! i = Some (mkServer x (Writing k rev data)))
    by (apply lookup_self; congruence).
  assert (Hl' : Forall (λ ev, ¬ by_server i ev) (l ++ l1)) by (by apply Forall_app).
  destruct resp as [[rev'|kv]|e]; simpl in Hloop.
  - destruct Hresp as (Hrev & Hlt & Hw1). apply IH in Hloop; [done|rewrite Hw1; simpl; congruence|].
    eapply reaches_step; [done..|]. rewrite Hw1. eapply sys_write; [done..|].
    change (set_shared data rev' (set_server i (mkServer x (Writing k rev data)) s))
      with (set_server i (mkServer x (Writing k rev data)) (set_shared data rev' s)).
    rewrite continue_set. by destruct (continue _ _ _ _ _).
  - destruct Hresp as (Hrev & -> & Hw1).
    destruct (gu_from Encode Decode (drawing (kind_func k)) keep_vars baseKey true None (shared s) (x, rnds)) as [next [x1 rnds1]] eqn:Hfrom.
    apply gu_from_drawing in Hfrom. apply IH in Hloop; [done|congruence|].
    eapply reaches_step; [done..|]. rewrite Hw1. eapply sys_conflict; [done|done|exact Hfrom|].
    rewrite continue_set. by destruct (continue _ _ _ _ _).
  - assert (Hgo : reaches s0 k (Finished (Err (RequestFailed e))) x (sys w1)).
    { eapply reaches_step; [done..|]. destruct Hresp as [->|(rev' & Hrev & Hlt & ->)]; simpl.
      - rewrite <-(set_server_twice i (mkServer x Idle) (mkServer x (Writing k rev data)) s). by eapply sys_write_fails.
      - rewrite <-(set_server_twice i (mkServer x Idle) (mkServer x (Writing k rev data)) (set_shared data rev' s)).
        exact (sys_write_lost _ _ _ _ _ _ i x k rev data rev' Hself Hrev Hlt). }
    destruct n; by injection Hloop as <- <- <-.
Qed.

Lemma tryUpdate_reaches k rnds x w res x' w' :
  (i < length (servers (sys w)))%nat →
  tryUpdate Encode Decode quorumRead baseKey fuel (kind_func k) rnds x w = (res, x', w') →
  stops (set_server i (mkServer x (Reading k)) (sys w)) k res x' (sys w').
Proof.
  intros Hi. unfold tryUpdate, GuaranteedUpdate. destruct (kv_Get _ baseKey w) as [resp w1] eqn:Hget.
  destruct (shared_Get_law w resp w1 Hget) as (l & Hothers & Hresp). pose proof (others_length _ _ _ Hothers) as Hlen.
  destruct Hothers as [Hmove Hl]. specialize (Hmove (mkServer x (Reading k))).
  assert (Hself : servers (set_server i (mkServer x (Reading k)) (sys w1)) !! i = Some (mkServer x (Reading k)))
    by (apply lookup_self; congruence).
  destruct resp as [cell|e].
  - specialize (Hresp cell eq_refl).
    destruct (gu_from Encode Decode (drawing (kind_func k)) keep_vars baseKey true None cell (x, rnds))
      as [next [x1 rnds1]] eqn:Hfrom. apply gu_from_drawing in Hfrom.
    destruct (gu_loop _ _ _ _ _ _ _ _ _ _ _) as [[res' [x2 rnds2]] w2] eqn:Hloop. intros [= -> <- <-].
    apply (loop_reaches _ k fuel next x1 rnds1 w1 res (x2, rnds2) w2); [congruence|done|].
    eapply reaches_step; [done..|]. eapply sys_read; [done| |exact Hfrom|].
    { exact Hresp. }
    rewrite continue_set. by destruct (continue _ _ _ _ _).
  - intros [= <- <- <-]. simpl. eapply reaches_step; [done..|]. simpl.
    rewrite <-(set_server_twice i (mkServer x Idle) (mkServer x (Reading k)) (sys w1)). by eapply sys_read_fails.
Qed.

(** The system when the server is done and [G] is handed out. *)
Definition done_with (e : Etcd) (y : Z) (G : gset Z) (s : system (D := D)) : system :=
  mkSystem (<[i := mkServer (e, y) Idle]> (servers s)) (shared s) (revision s) G (past s).

Definition events (handed : option Z) : list event :=
  match handed with Some o => [Handed i o] | None => [] end.

(** The server [i] goes from an idle state to an idle state in which it has handed
    out at most [handed], while others run; without a result, [None], it stands
    before the next transaction. *)
Definition operates (s0 : system) (l0 : list event) (res : option (option Z)) (e : Etcd) (w : W) : Prop :=
  ∃ l y, Forall (λ ev, ¬ by_server i ev) l ∧
    match res with
    | Some handed =>
        run s0 (l0 ++ l ++ events handed)
          (done_with e y (match handed with Some o => {[o]} ∪ given (sys w) | None => given (sys w) end) (sys w))
    | None => ∃ k rev data, run s0 (l0 ++ l) (set_server i (mkServer (e, y) (Writing k rev data)) (sys w))
    end.

Lemma tryUpdate_operates s0 l0 k rnds x w res x' w' :
  (i < length (servers (sys w)))%nat → run s0 l0 (set_server i (mkServer x (Reading k)) (sys w)) →
  tryUpdate Encode Decode quorumRead baseKey fuel (kind_func k) rnds x w = (res, x', w') →
  operates s0 l0 (match res with Some (Ok _) => Some (takes k x'.2) | Some (Err _) => Some None | None => None end) x'.1 w'.
Proof.
  intros Hi H0 Htry. pose proof (tryUpdate_reaches _ _ _ _ _ _ _ Hi Htry) as Hstop. destruct x' as [e y].
  destruct res as [res|]; [destruct Hstop as (l & Hl & Hrun)|destruct Hstop as (rev & data & l & Hl & Hrun)];
    exists l, y; (split; [done|]); pose proof (run_trans _ _ _ _ _ H0 Hrun) as H1.
  - destruct res as [ret|err], k; simpl in *; rewrite ?app_nil_r in *; done.
  - simpl in H1. rewrite app_nil_r in H1. by exists k, rev, data.
Qed.

Lemma self_length w sv : servers (sys w) !! i = Some sv → (i < length (servers (sys w)))%nat.
Proof. apply lookup_lt_Some. Qed.

Lemma allocate_bit_refused o a a' : allocate_bit o a = (false, a') → a' = a.
Proof. unfold allocate_bit. destruct (Z.testbit _ _); by intros [= <-]. Qed.

Lemma Bitmap_AllocateNext_full rnd a a' : Bitmap_AllocateNext rnd a = (None, a') → a' = a.
Proof. unfold Bitmap_AllocateNext. destruct (strategy a _ _ _ _); by intros [= <-]. Qed.

Lemma done_with_same w e y : servers (sys w) !! i = Some (mkServer (e, y) Idle) → done_with e y (given (sys w)) (sys w) = sys w.
Proof. intros Hi. unfold done_with. rewrite list_insert_id by done. by destruct (sys w). Qed.
(** What every call of the function keeps, the update keeps. *)
Lemma loop_keeps (P : vars → Prop) fn n next x w res x' w' :
  (∀ rnd existing x, P x → P (tryUpdate_func (fn rnd) existing x).2) → P x.1 →
  gu_loop Encode Decode (drawing fn) keep_vars n baseKey true None next x w = (res, x', w') → P x'.1.
Proof.
  intros HP. revert next x w. induction n as [|n IH]; intros [r|rev data] x w Hx; [by intros [= _ <- _]..|].
  cbn [gu_loop]. destruct (kv_Txn baseKey rev (Some data) w) as [resp w1]. intros Hloop.
  destruct (gu_response Encode Decode (drawing fn) keep_vars baseKey true None data resp x) as [next x1] eqn:Hr.
  eapply IH; [|done]. replace x1 with (gu_response Encode Decode (drawing fn) keep_vars baseKey true None data resp x).2 by (by rewrite Hr).
  destruct resp as [[rev'|cell]|e]; [done| |done]. apply (from_keeps P fn cell x HP Hx).
Qed.


Lemma tryUpdate_keeps (P : vars → Prop) fn rnds x w res x' w' :
  (∀ rnd existing x, P x → P (tryUpdate_func (fn rnd) existing x).2) → P x →
  tryUpdate Encode Decode quorumRead baseKey fuel fn rnds x w = (res, x', w') → P x'.
Proof.
  intros HP Hx. unfold tryUpdate, GuaranteedUpdate. destruct (kv_Get _ baseKey w) as [[cell|e] w1]; [|by intros [= _ <- _]].
  destruct (gu_from Encode Decode (drawing fn) keep_vars baseKey true None cell (x, rnds)) as [next x1] eqn:Hf.
  destruct (gu_loop _ _ _ _ _ _ _ _ _ _ _) as [[res' [x2 rnds2]] w2] eqn:Hloop. intros [= _ <- _].
  apply (loop_keeps P fn fuel next x1 w1 res' (x2, rnds2) w2 HP); [|done].
  pose proof (from_keeps P fn cell (x, rnds) HP Hx) as H. by rewrite Hf in H.
Qed.

Lemma allocate_keeps_offset offset existing x :
  x.2 = offset → (tryUpdate_func allocate_func existing x).2.2 = offset.
Proof.
  intros <-. unfold tryUpdate_func, allocate_func. case_decide; [done|]. case_decide; [|done].
  destruct (Restore _ _ _) as [[u|msg] a]; [|done]. simpl. by destruct (allocate_bit _ _) as [[] a'].
Qed.

Lemma idle_operates e y w : servers (sys w) !! i = Some (mkServer (e, y) Idle) → operates (sys w) [] (Some None) e w.
Proof.
  intros Hi. exists [], y. split; [done|]. rewrite (done_with_same w e y Hi). apply run_start.
Qed.

Definition allocated_number (offset : Z) (res : option (result storage_error bool)) : option (option Z) :=
  match res with Some (Ok true) => Some (Some offset) | Some _ => Some None | None => None end.

Lemma Etcd_Allocate_run e y offset w res e' w' :
  servers (sys w) !! i = Some (mkServer (e, y) Idle) → in_limit limit offset →
  Etcd_Allocate Encode Decode quorumRead baseKey fuel offset e w = Ret (res, e', w') →
  operates (sys w) [] (allocated_number offset res) e' w'.
Proof.
  intros Hi Ho. unfold Etcd_Allocate. destruct (Bitmap_Allocate offset (alloc e)) as [[ok a]|msg] eqn:Ha; [|done].
  cbn [outcome_bind]. destruct ok.
  - change (λ _ : Z, allocate_func) with (kind_func KAllocate).
    destruct (tryUpdate _ _ _ _ _ _ _ _ _) as [[tres x1] w1] eqn:Htry. intros [= Hres <- <-].
    pose proof (run_one _ _ _ (sys_allocate Encode Decode baseKey quorumRead limit (sys w) i e y offset a Hi Ho Ha)) as H0.
    pose proof (tryUpdate_operates _ _ _ _ _ _ _ _ _ (self_length _ _ Hi) H0 Htry) as Hop.
    assert (x1.2 = offset) as Hx.
    { refine (tryUpdate_keeps (λ x, x.2 = offset) _ _ _ _ _ _ _ _ _ Htry); [|done]. intros rnd. apply allocate_keeps_offset. }
    destruct tres as [[ret|err]|]; [subst res; simpl in Hop; by rewrite Hx in Hop| |by subst res].
    case_decide; by subst res.
  - apply Bitmap_Allocate_Ret in Ha as [_ ->%allocate_bit_refused]. intros [= <- <- <-]. destruct e. by apply (idle_operates _ y).
Qed.

(** The number, where there is one and no error. *)
Definition next_number (res : option (Z * bool * option storage_error)) : option (option Z) :=
  match res with Some (o, true, None) => Some (Some o) | Some _ => Some None | None => None end.

Lemma Etcd_AllocateNext_run e y rnd rnds w res e' w' :
  servers (sys w) !! i = Some (mkServer (e, y) Idle) →
  Etcd_AllocateNext Encode Decode quorumRead baseKey fuel rnd rnds e w = (res, e', w') →
  operates (sys w) [] (next_number res) e' w'.
Proof.
  intros Hi. unfold Etcd_AllocateNext. destruct (Bitmap_AllocateNext rnd (alloc e)) as [[offset|] a] eqn:Ha.
  - change allocateNext_func with (kind_func KNext).
    destruct (tryUpdate _ _ _ _ _ _ _ _ _) as [[tres x1] w1] eqn:Htry. intros [= <- <- <-].
    pose proof (run_one _ _ _ (sys_next Encode Decode baseKey quorumRead limit (sys w) i e y rnd offset a Hi Ha)) as H0.
    pose proof (tryUpdate_operates _ _ _ _ _ _ _ _ _ (self_length _ _ Hi) H0 Htry) as Hop.
    by destruct tres as [[ret|er]|].
  - apply Bitmap_AllocateNext_full in Ha as ->. intros [= <- <- <-]. destruct e. by apply (idle_operates _ y).
Qed.

(** The system in which [item] is still handed out. *)
Definition with_given (item : Z) (s : system (D := D)) : system :=
  mkSystem (servers s) (shared s) (revision s) ({[item]} ∪ given s) (past s).

Lemma Etcd_Release_run e y item w res e' w' :
  servers (sys w) !! i = Some (mkServer (e, y) Idle) → item ∉ given (sys w) →
  Etcd_Release Encode Decode quorumRead baseKey fuel item e w = Ret (res, e', w') →
  operates (with_given item (sys w)) [Released i item] ((λ _, None) <$> res) e' w'.
Proof.
  intros Hi Hg. unfold Etcd_Release. change (λ _ : Z, release_func item) with (kind_func (KRelease item)).
  destruct (Bitmap_Release item (alloc e)) as [a|msg] eqn:Ha; [|done]. cbn [outcome_bind].
  destruct (tryUpdate _ _ _ _ _ _ _ _ _) as [[tres x1] w1] eqn:Htry. intros [= Hres <- <-].
  assert (Hin : item ∈ given (with_given item (sys w))) by (simpl; set_solver).
  pose proof (run_one _ _ _ (sys_release Encode Decode baseKey quorumRead limit (with_given item (sys w)) i e y item a Hi Hin Ha)) as H0.
  replace (given (with_given item (sys w)) ∖ {[item]}) with (given (sys w)) in H0 by (simpl; set_solver).
  pose proof (tryUpdate_operates _ _ _ _ _ _ _ _ _ (self_length _ _ Hi) H0 Htry) as Hop.
  subst res. by destruct tres as [[ret|err]|].
Qed.

(** C16. Allocate of an offset of the range, AllocateNext, and Release of what was
    handed out, run through the store with or without quorum reads, over a client of
    etcd whose requests the other servers interleave with and which fail in any way,
    are runs of the system: from idle to idle, handing out exactly the number that is
    returned without an error.  An update that has not ended after the number of
    transactions that the model allows stands in a run of the system before the next
    one. *)
Theorem etcd_operations_run e y w :
  servers (sys w) !! i = Some (mkServer (e, y) Idle) →
  (∀ offset res e' w', in_limit limit offset →
     Etcd_Allocate Encode Decode quorumRead baseKey fuel offset e w = Ret (res, e', w') →
     operates (sys w) [] (allocated_number offset res) e' w') ∧
  (∀ rnd rnds res e' w',
     Etcd_AllocateNext Encode Decode quorumRead baseKey fuel rnd rnds e w = (res, e', w') →
     operates (sys w) [] (next_number res) e' w') ∧
  (∀ item res e' w', item ∉ given (sys w) →
     Etcd_Release Encode Decode quorumRead baseKey fuel item e w = Ret (res, e', w') →
     operates (with_given item (sys w)) [Released i item] ((λ _, None) <$> res) e' w').
Proof.
  intros Hi. split_and!; intros.
  - by eapply Etcd_Allocate_run.
  - by eapply Etcd_AllocateNext_run.
  - by eapply Etcd_Release_run.
Qed.
End client.
End simulation.

(** ** Schedules

    The steps as a function of what happens next; [None] where it cannot. *)

Section schedule.
Context {D : Type} `{!EqDecision D}.
Context (Encode : RangeAllocation → result string D) (Decode : D → result string RangeAllocation).
Context (baseKey : string) (quorumRead : bool) (limit : Z).

(** [DoStale i n]: the read of server [i] gives what was stored [n] changes before
    the last one. *)
Inductive action :=
  | DoAllocate (i : nat) (offset : Z)
  | DoRelease (i : nat) (item : Z)
  | DoGo (i : nat)
  | DoFail (i : nat)
  | DoStale (i n : nat).

Definition exec (act : action) (s : system (D := D)) : option (option event * system) :=
  match act with
  | DoAllocate i offset =>
      sv ← servers s !! i;
      match sv with
      | mkServer (e, _) Idle =>
          match Bitmap_Allocate offset (alloc e) with
          | Ret (true, a) =>
              if decide (in_limit limit offset)
              then Some (None, set_server i (mkServer (set_alloc a e, offset) (Reading KAllocate)) s) else None
          | _ => None
          end
      | _ => None
      end
  | DoRelease i item =>
      sv ← servers s !! i;
      match sv with
      | mkServer (e, _) Idle =>
          match Bitmap_Release item (alloc e) with
          | Ret a =>
              if decide (item ∈ given s) then
                Some (Some (Released i item),
                  mkSystem (<[i := mkServer (set_alloc a e, item) (Reading (KRelease item))]> (servers s))
                    (shared s) (revision s) (given s ∖ {[item]}) (past s))
              else None
          | _ => None
          end
      | _ => None
      end
  | DoGo i =>
      sv ← servers s !! i;
      match sv with
      | mkServer x (Reading k) =>
          let '(next, x) := look Encode Decode baseKey k 0 x (shared s) in Some (continue i k next x s)
      | mkServer x (Writing k rev data) =>
          if decide (default 0 (snd <$> shared s) = rev) then
            let rev' := revision s + 1 in
            Some (continue i k (Finished (decode Decode data rev')) x (set_shared data rev' s))
          else let '(next, x) := look Encode Decode baseKey k 0 x (shared s) in Some (continue i k next x s)
      | _ => None
      end
  | DoFail i =>
      sv ← servers s !! i;
      match sv with
      | mkServer x Idle => None
      | mkServer x _ => Some (None, set_server i (mkServer x Idle) s)
      end
  | DoStale i n =>
      sv ← servers s !! i;
      match sv, past s !! n with
      | mkServer x (Reading k), Some cell =>
          if getOps quorumRead then let '(next, x) := look Encode Decode baseKey k 0 x cell in Some (continue i k next x s)
          else None
      | _, _ => None
      end
  end.

Lemma exec_step act s ev s' : exec act s = Some (ev, s') → sys_step Encode Decode baseKey quorumRead limit s ev s'.
Proof.
  destruct act as [i o|i o|i|i|i n]; unfold exec; destruct (servers s !! i) as [[[e y] p]|] eqn:Hi; try done;
    cbn [mbind option_bind]; destruct p as [|k|k rev data]; try done.
  - destruct (Bitmap_Allocate o (alloc e)) as [[[] a]|] eqn:Ha; [|done..]. case_decide; [|done].
    intros [= <- <-]. by eapply sys_allocate.
  - destruct (Bitmap_Release o (alloc e)) as [a|] eqn:Ha; [|done]. case_decide; [|done].
    intros [= <- <-]. by eapply sys_release.
  - destruct (look Encode Decode baseKey k 0 (e, y) (shared s)) as [next x] eqn:Hl. intros [= Hc]. eapply sys_read; [done|by left|done|done].
  - case_decide; [intros [= Hc]; apply (sys_write _ _ _ _ _ _ i (e, y) k rev data (revision s + 1)); [done|done|lia|done]|].
    destruct (look Encode Decode baseKey k 0 (e, y) (shared s)) as [next x] eqn:Hl. intros [= Hc]. by eapply sys_conflict.
  - intros [= <- <-]. by eapply sys_read_fails.
  - intros [= <- <-]. by eapply sys_write_fails.
  - destruct (past s !! n) as [cell|] eqn:Hn; [|done]. destruct (getOps quorumRead) eqn:Hq; [|done].
    destruct (look Encode Decode baseKey k 0 (e, y) cell) as [next x] eqn:Hl. intros [= Hc].
    eapply sys_read; [done| |done|done]. right. split; [done|]. by eapply list_elem_of_lookup_2.
Qed.

Fixpoint exec_all (acts : list action) (s : system (D := D)) : option (list event * system) :=
  match acts with
  | [] => Some ([], s)
  | act :: acts =>
      '(ev, s) ← exec act s;
      '(l, s) ← exec_all acts s;
      Some (option_list ev ++ l, s)
  end.

Lemma exec_all_run acts s0 l0 s l s' :
  sys_run Encode Decode baseKey quorumRead limit s0 l0 s → exec_all acts s = Some (l, s') →
  sys_run Encode Decode baseKey quorumRead limit s0 (l0 ++ l) s'.
Proof.
  revert s l0 l. induction acts as [|act acts IH]; intros s l0 l Hrun; simpl.
  - intros [= <- <-]. by rewrite app_nil_r.
  - destruct (exec act s) as [[ev s1]|] eqn:He; [|done]. simpl.
    destruct (exec_all acts s1) as [[l1 s2]|] eqn:Hall; [|done]. simpl. intros [= <- <-]. rewrite app_assoc.
    apply (IH s1); [|done]. eapply run_step; [done|]. by eapply exec_step.
Qed.
End schedule.

(** ** A client that shares etcd with the other servers of a schedule *)

Definition actor (act : action) : nat :=
  match act with DoAllocate i _ | DoRelease i _ | DoGo i | DoFail i | DoStale i _ => i end.

Record client (D : Type) := mkClient {
  cl_system : system (D := D);
  cl_script : list (list action * fault)
}.
Arguments mkClient {D} _ _.
Arguments cl_system {D} _.
Arguments cl_script {D} _.

Section client_model.
Context {D : Type} `{!EqDecision D}.
Context (Encode : RangeAllocation → result string D) (Decode : D → result string RangeAllocation).
Context (baseKey : string) (quorumRead : bool) (limit : Z) (i : nat).

(** What the others do before the next request, and how it fails. *)
Definition before_request (w : client D) : system (D := D) * fault * list (list action * fault) :=
  match cl_script w with
  | [] => (cl_system w, NoFault, [])
  | (acts, f) :: script =>
      (default (cl_system w)
         (snd <$> exec_all Encode Decode baseKey quorumRead limit (filter (λ act, actor act ≠ i) acts) (cl_system w)), f, script)
  end.

Definition client_Txn (rev : Z) (data : D) (s : system (D := D)) : txn_resp D * system :=
  if decide (default 0 (snd <$> shared s) = rev) then (Succeeded (revision s + 1), set_shared data (revision s + 1) s)
  else (Conflicted (shared s), s).

Definition client_kv : KV D (client D) := {|
  kv_Get serializable _ w :=
    let '(s, f, script) := before_request w in
    (match f with NoFault => Ok (if serializable then default (shared s) (head (past s)) else shared s) | _ => Err "timeout" end, mkClient s script);
  kv_Txn _ rev data w :=
    let '(s, f, script) := before_request w in
    match f, data with
    | NoFault, Some d => let '(r, s) := client_Txn rev d s in (Ok r, mkClient s script)
    | FailsAfter, Some d => (Err "timeout", mkClient (client_Txn rev d s).2 script)
    | _, _ => (Err "timeout", mkClient s script)
    end;
  kv_GetDelete _ w := (Err "not used", w)
|}.

Lemma continue_other j k next x sv (s s' : system (D := D)) ev :
  j ≠ i → continue j k next x s = (ev, s') →
  continue j k next x (set_server i sv s) = (ev, set_server i sv s') ∧ (∀ e, ev = Some e → by_server j e).
Proof.
  intros Hne. unfold set_server.
  destruct next as [[ret|e]|rev data]; simpl; [destruct k|..]; intros [= <- <-]; unfold set_server; simpl;
    (split; [by rewrite list_insert_insert_ne|]); (done || by intros e' [= <-]).
Qed.
Lemma exec_other act sv (s s' : system (D := D)) ev :
  actor act ≠ i → exec Encode Decode baseKey quorumRead limit act s = Some (ev, s') →
  exec Encode Decode baseKey quorumRead limit act (set_server i sv s) = Some (ev, set_server i sv s') ∧
  (∀ e, ev = Some e → by_server (actor act) e).
Proof.
  intros Hne. assert (Hlook : servers (set_server i sv s) !! actor act = servers s !! actor act).
  { simpl. by apply list_lookup_insert_ne. }
  destruct act as [j o|j o|j|j|j n]; simpl in Hne; unfold exec; cbn [actor] in *; rewrite Hlook;
    destruct (servers s !! j) as [[[e y] p]|]; try done; cbn [mbind option_bind]; destruct p as [|k|k rev data]; try done.
  - destruct (Bitmap_Allocate o (alloc e)) as [[[] a]|]; [|done..]. case_decide; [|done]. intros [= <- <-].
    split; [|done]. unfold set_server. simpl. by rewrite list_insert_insert_ne.
  - destruct (Bitmap_Release o (alloc e)) as [a|]; [|done]. change (given (set_server i sv s)) with (given s).
    case_decide; [|done]. intros [= <- <-].
    split; [|by intros ? [= <-]]. unfold set_server. simpl. by rewrite list_insert_insert_ne.
  - change (shared (set_server i sv s)) with (shared s).
    destruct (look _ _ _ _ _ _ _) as [next x]. intros [= Hc].
    destruct (continue_other j k next x sv s s' ev Hne Hc) as [-> He]. done.
  - change (shared (set_server i sv s)) with (shared s). case_decide.
    + set (r := decode Decode data (revision s + 1)).
      change (decode Decode data (revision (set_server i sv s) + 1)) with r. intros Heq.
      assert (Hc : continue j k (Finished r) (e, y) (set_shared data (revision s + 1) s) = (ev, s')) by (by injection Heq).
      destruct (continue_other j k _ _ sv _ _ _ Hne Hc) as [Hc' He]. split; [|done]. f_equal. exact Hc'.
    + change (shared (set_server i sv s)) with (shared s).
      destruct (look _ _ _ _ _ _ _) as [next x]. intros [= Hc].
      destruct (continue_other j k next x sv s s' ev Hne Hc) as [-> He]. done.
  - intros [= <- <-]. split; [|done]. unfold set_server. simpl. by rewrite list_insert_insert_ne.
  - intros [= <- <-]. split; [|done]. unfold set_server. simpl. by rewrite list_insert_insert_ne.
  - change (past (set_server i sv s)) with (past s). destruct (past s !! n) as [cell|]; [|done].
    destruct (getOps quorumRead); [|done]. destruct (look _ _ _ _ _ _ _) as [next x]. intros [= Hc].
    destruct (continue_other j k next x sv s s' ev Hne Hc) as [-> He]. done.
Qed.

Lemma exec_all_other acts sv (s s' : system (D := D)) l :
  Forall (λ act, actor act ≠ i) acts → exec_all Encode Decode baseKey quorumRead limit acts s = Some (l, s') →
  exec_all Encode Decode baseKey quorumRead limit acts (set_server i sv s) = Some (l, set_server i sv s') ∧
  Forall (λ ev, ¬ by_server i ev) l.
Proof.
  intros Hacts. revert s l. induction Hacts as [|act acts Hne Hacts IH]; intros s l; simpl; [by intros [= <- <-]|].
  destruct (exec Encode Decode baseKey quorumRead limit act s) as [[ev s1]|] eqn:He; [|done]. simpl.
  destruct (exec_all Encode Decode baseKey quorumRead limit acts s1) as [[l1 s2]|] eqn:Hall; [|done]. simpl. intros [= <- <-].
  destruct (exec_other act sv s s1 ev Hne He) as [-> Hev]. destruct (IH s1 l1 Hall) as [Hall' Hl1]. simpl.
  rewrite Hall'. simpl. split; [done|]. destruct ev as [e|]; [|done]. simpl. constructor; [|done].
  specialize (Hev e eq_refl). destruct e; simpl in *; congruence.
Qed.

Lemma before_request_others w s f script :
  before_request w = (s, f, script) → ∃ l, others_run Encode Decode baseKey quorumRead limit i (cl_system w) l s.
Proof.
  assert (Hsame : ∃ l, others_run Encode Decode baseKey quorumRead limit i (cl_system w) l (cl_system w)).
  { exists []. split; [|done]. intros sv. apply run_start. }
  unfold before_request. destruct (cl_script w) as [|[acts g] rest]; [by intros [= <- <- <-]|].
  destruct (exec_all _ _ _ _ _ _ _) as [[l s1]|] eqn:Hall; simpl; [|by intros [= <- <- <-]]. intros [= <- <- <-].
  assert (Hacts : Forall (λ act, actor act ≠ i) (filter (λ act, actor act ≠ i) acts)).
  { apply Forall_forall. intros act. rewrite list_elem_of_filter. by intros [? _]. }
  exists l. split; [|by eapply (exec_all_other _ (mkServer (NewEtcd (NewAllocationMap 0 ""), 0) Idle))].
  intros sv. eapply (exec_all_run _ _ _ _ _ _ _ []); [apply run_start|]. by apply exec_all_other.
Qed.

#[export] Instance client_shared : SharedKV (KV0 := client_kv) Encode Decode baseKey quorumRead limit i cl_system.
Proof.
  split.
  - intros w res w'. simpl. destruct (before_request w) as [[s f] script] eqn:Hb.
    destruct (before_request_others w s f script Hb) as [l Hl]. intros [= <- <-]. exists l. split; [done|].
    intros kv. destruct f; [|done|done]. intros [= <-]. unfold readable.
    destruct (getOps quorumRead) eqn:Hq; [|by left]. destruct (past s) as [|cell rest] eqn:Hp; simpl; [by left|].
    right. split; [done|]. rewrite Hp. apply list_elem_of_here.
  - intros rev data w res w'. simpl. destruct (before_request w) as [[s f] script] eqn:Hb.
    destruct (before_request_others w s f script Hb) as [l Hl]. unfold client_Txn. exists l, s. split; [done|].
    destruct f; [|simplify_eq/=; by left|]; case_decide; simplify_eq/=; try done.
    + split_and!; [done|lia|done].
    + right. exists (revision s + 1). split_and!; [done|lia|done].
    + by left.
Qed.
End client_model.

(** Two servers: the first takes number 1, the second loses the race for it, the
    first gives it back after a request that failed, and the second takes it when
    it has seen that. *)
Definition demo_bitmap : AllocationBitmap := NewContiguousAllocationMap 4 "r".

Definition demo_system : system :=
  mkSystem [mkServer (NewEtcd demo_bitmap, 0) Idle; mkServer (NewEtcd demo_bitmap, 0) Idle]
    (Some (mkRangeAllocation "" "r" (Bytes 0), 5)) 5 ∅ [].

Definition demo_actions : list action :=
  [DoAllocate 0 1; DoGo 0; DoAllocate 1 1; DoGo 1; DoGo 0; DoGo 1;
   DoAllocate 0 3; DoGo 0; DoFail 0; DoRelease 0 1; DoGo 0; DoGo 0;
   DoAllocate 1 2; DoGo 1; DoGo 1; DoAllocate 1 1; DoGo 1; DoGo 1].

Definition demo_events : list event := [Handed 0 1; Released 0 1; Handed 1 2; Handed 1 1].

Definition demo_final : system := default demo_system (snd <$> exec_all Ok Ok "k" true 4 demo_actions demo_system).

Lemma demo_events_run : sys_run Ok Ok "k" true 4 demo_system demo_events demo_final.
Proof. apply (exec_all_run Ok Ok "k" true 4 demo_actions demo_system [] demo_system); [apply run_start|]. vm_compute. reflexivity. Qed.

Lemma demo_servers_started : started Ok 4 "r" demo_system (mkRangeAllocation "" "r" (Bytes 0)) 5 ∅.
Proof.
  assert (local_ok 4 "r" demo_bitmap).
  { split_and!; [|done..]. split; [by right|done|done|]. intros i Hi. by apply elem_of_empty in Hi. }
  split; [done|done| |done|].
  - exists demo_bitmap. split_and!; [done..|]. vm_compute. reflexivity.
  - intros sv Hsv. exists demo_bitmap, 0. split; [|done]. simpl in Hsv. set_solver.
Qed.


(** The first server is about to write number 0 when the second one takes it: the
    first one gets number 1. *)
Definition demo_client : client RangeAllocation :=
  mkClient demo_system [([], NoFault); ([DoAllocate 1 0; DoGo 1; DoGo 1], NoFault)].

#[local] Instance demo_kv : KV RangeAllocation (client RangeAllocation) := client_kv Ok Ok "k" true 4 0.

Definition demo_next := Etcd_AllocateNext Ok Ok true "k" 3 0 [] (NewEtcd demo_bitmap) demo_client.

Lemma etcd_operations_run_witness :
  operates Ok Ok "k" true 4 0 cl_system demo_system [] (Some (Some 1)) demo_next.1.2 demo_next.2.
Proof.
  destruct (etcd_operations_run Ok Ok "k" true 4 3 0 cl_system (NewEtcd demo_bitmap) 0 demo_client eq_refl) as (_ & H & _).
  apply (H 0 [] (Some (1, true, None))). vm_compute. reflexivity.
Defined.

(** ** Without quorum reads

    Number 1 is stored and handed out.  The first server releases it, the second one
    allocates it.  Then the first server allocates it too, and its read gives what was
    stored before both changes: the version is the one that the server remembers, so
    it does not restore its copy, and its copy is what it read, so nothing is written. *)
Definition stale_system : system :=
  mkSystem [mkServer (NewEtcd demo_bitmap, 0) Idle; mkServer (NewEtcd demo_bitmap, 0) Idle]
    (Some (mkRangeAllocation "" "r" (Bytes 2), 5)) 5 {[1]} [].

Definition stale_actions : list action :=
  [DoRelease 0 1; DoGo 0; DoGo 0; DoAllocate 1 1; DoGo 1; DoGo 1; DoAllocate 0 1; DoStale 0 1].

Definition stale_final : system := default stale_system (snd <$> exec_all Ok Ok "k" false 4 stale_actions stale_system).

Lemma stale_system_started : started Ok 4 "r" stale_system (mkRangeAllocation "" "r" (Bytes 2)) 5 {[1]}.
Proof.
  assert (Hok : local_ok 4 "r" (set_allocated 1 2 demo_bitmap)).
  { split_and!; [|done..]. split; [by right|done|done|]. intros i Hi.
    assert (bitmap_taken (set_allocated 1 2 demo_bitmap) = {[1]}) as Heq by (vm_compute; reflexivity).
    rewrite Heq in Hi. apply elem_of_singleton in Hi as ->. done. }
  split; [done|done| |done|].
  - exists (set_allocated 1 2 demo_bitmap). split_and!; [apply Hok..| |]; vm_compute; reflexivity.
  - intros sv Hsv. exists demo_bitmap, 0. split; [simpl in Hsv; set_solver|].
    split_and!; [|done..]. split; [by right|done|done|]. intros i Hi. by apply elem_of_empty in Hi.
Qed.

(** Without quorum reads a number is handed out twice, in a run of two servers in
    which no request fails: after its release the second server allocates it, and then
    the first server allocates it again, from a read that gives an earlier state, with
    no release in between. *)
Theorem stale_read_double_allocation :
  started Ok 4 "r" stale_system (mkRangeAllocation "" "r" (Bytes 2)) 5 {[1]} ∧
  sys_run Ok Ok "k" false 4 stale_system [Released 0 1; Handed 1 1; Handed 0 1] stale_final.
Proof.
  split; [apply stale_system_started|].
  apply (exec_all_run Ok Ok "k" false 4 stale_actions stale_system [] stale_system); [apply run_start|]. vm_compute. reflexivity.
Qed.
