(* ===== verification/Expectations.v ===== *)
(** * Expectations of the controllers (pkg/controller/controller_utils.go)

    A controller that has asked for creations or deletions waits until it has seen
    them: counters per controller, and for deletions the keys that are still to be
    seen.  The entries are shared by reference in the source, so that changing the
    counters of an entry changes the store.

    Theorem: after any calls, in any order, the counters have not wrapped, and that of
    deletions is at most the number of keys that are expected. *)

From S2P Require Import Prelude.
Open Scope Z_scope.

(** [5 * time.Minute], in nanoseconds. *)
Definition ExpectationsTimeout : Z := 300000000000.

Record ControlleeExpectations := mkExpectations {
  exp_add : Z;
  exp_del : Z;
  exp_key : string;
  timestamp : Z
}.

Definition Expectations_Add (add del : Z) (e : ControlleeExpectations) : ControlleeExpectations :=
  mkExpectations (wrap64 (exp_add e + add)) (wrap64 (exp_del e + del)) (exp_key e) (timestamp e).

Definition Fulfilled (e : ControlleeExpectations) : bool :=
  bool_decide (exp_add e ≤ 0) && bool_decide (exp_del e ≤ 0).

Definition isExpired (now : Z) (e : ControlleeExpectations) : bool :=
  bool_decide (now - timestamp e > ExpectationsTimeout).

(** ** ControllerExpectations *)

Notation ControllerExpectations := (gmap string ControlleeExpectations).

Definition GetExpectations (controllerKey : string) (r : ControllerExpectations) : option ControlleeExpectations :=
  r !! controllerKey.

Definition DeleteExpectations (controllerKey : string) (r : ControllerExpectations) : ControllerExpectations :=
  delete controllerKey r.

Definition SatisfiedExpectations (now : Z) (controllerKey : string) (r : ControllerExpectations) : bool :=
  match GetExpectations controllerKey r with
  | Some exp => if Fulfilled exp then true else isExpired now exp
  | None => true
  end.

Definition SetExpectations (now : Z) (controllerKey : string) (add del : Z) (r : ControllerExpectations)
    : ControllerExpectations :=
  <[controllerKey := mkExpectations add del controllerKey now]> r.

Definition ExpectCreations (now : Z) (controllerKey : string) (adds : Z) (r : ControllerExpectations)
    : ControllerExpectations :=
  SetExpectations now controllerKey adds 0 r.

Definition ExpectDeletions (now : Z) (controllerKey : string) (dels : Z) (r : ControllerExpectations)
    : ControllerExpectations :=
  SetExpectations now controllerKey 0 dels r.

Definition LowerExpectations (controllerKey : string) (add del : Z) (r : ControllerExpectations)
    : ControllerExpectations :=
  match GetExpectations controllerKey r with
  | Some exp => <[controllerKey := Expectations_Add (- add) (- del) exp]> r
  | None => r
  end.

Definition RaiseExpectations (controllerKey : string) (add del : Z) (r : ControllerExpectations)
    : ControllerExpectations :=
  match GetExpectations controllerKey r with
  | Some exp => <[controllerKey := Expectations_Add add del exp]> r
  | None => r
  end.

Definition CreationObserved (controllerKey : string) (r : ControllerExpectations) : ControllerExpectations :=
  LowerExpectations controllerKey 1 0 r.

Definition DeletionObserved (controllerKey : string) (r : ControllerExpectations) : ControllerExpectations :=
  LowerExpectations controllerKey 0 1 r.

(** ** UIDTrackingControllerExpectations *)

Record UIDTracking := mkUIDTracking {
  expectations : ControllerExpectations;
  uidStore : gmap string (gset string)
}.

Definition NewUIDTracking : UIDTracking := mkUIDTracking ∅ ∅.

Definition on_expectations (f : ControllerExpectations → ControllerExpectations) (u : UIDTracking) : UIDTracking :=
  mkUIDTracking (f (expectations u)) (uidStore u).

Definition GetUIDs (controllerKey : string) (u : UIDTracking) : option (gset string) := uidStore u !! controllerKey.

Definition UID_ExpectDeletions (now : Z) (rcKey : string) (deletedKeys : list string) (u : UIDTracking) : UIDTracking :=
  let expectedUIDs : gset string := list_to_set deletedKeys in
  mkUIDTracking (ExpectDeletions now rcKey (Z.of_nat (size expectedUIDs)) (expectations u))
    (<[rcKey := expectedUIDs]> (uidStore u)).

Definition UID_DeletionObserved (rcKey deleteKey : string) (u : UIDTracking) : UIDTracking :=
  match GetUIDs rcKey u with
  | Some uids =>
      if decide (deleteKey ∈ uids)
      then mkUIDTracking (DeletionObserved rcKey (expectations u)) (<[rcKey := uids ∖ {[deleteKey]}]> (uidStore u))
      else u
  | None => u
  end.

Definition UID_DeleteExpectations (rcKey : string) (u : UIDTracking) : UIDTracking :=
  mkUIDTracking (DeleteExpectations rcKey (expectations u)) (delete rcKey (uidStore u)).

(** ** Lemmas *)

Definition adds_of (k : string) (u : UIDTracking) : Z := default 0 (exp_add <$> expectations u !! k).
Definition dels_of (k : string) (u : UIDTracking) : Z := default 0 (exp_del <$> expectations u !! k).
Definition uids_of (k : string) (u : UIDTracking) : gset string := default ∅ (uidStore u !! k).

Lemma satisfied_inv now k u :
  SatisfiedExpectations now k (expectations u) = true →
  (∀ e, expectations u !! k = Some e → Fulfilled e = false → isExpired now e = false) →
  adds_of k u ≤ 0 ∧ dels_of k u ≤ 0.
Proof.
  unfold SatisfiedExpectations, GetExpectations, adds_of, dels_of. destruct (expectations u !! k) as [e|]; [|done].
  intros Hs He. specialize (He e eq_refl). unfold Fulfilled in *. simpl. destruct (bool_decide_reflect (exp_add e ≤ 0));
    destruct (bool_decide_reflect (exp_del e ≤ 0)); simpl in *; [done|..]; rewrite He in Hs; done.
Qed.

Lemma expect_creations_of now k n u :
  let u' := on_expectations (ExpectCreations now k n) u in
  adds_of k u' = n ∧ dels_of k u' = 0 ∧ uids_of k u' = uids_of k u.
Proof. unfold adds_of, dels_of. simpl. unfold ExpectCreations, SetExpectations. by rewrite lookup_insert_eq. Qed.

Lemma expect_deletions_of now k keys u :
  let u' := UID_ExpectDeletions now k keys u in
  adds_of k u' = 0 ∧ dels_of k u' = Z.of_nat (size (list_to_set keys : gset string)) ∧ uids_of k u' = list_to_set keys.
Proof.
  unfold adds_of, dels_of, uids_of. simpl. unfold ExpectDeletions, SetExpectations. by rewrite !lookup_insert_eq.
Qed.

(** The counter of creations is no larger than any number of pods, and that of
    deletions is the number of keys. *)
Record counted (k : string) (u : UIDTracking) : Prop := {
  counted_adds : 0 ≤ adds_of k u < 2 ^ 62;
  counted_dels : dels_of k u = Z.of_nat (size (uids_of k u));
  counted_size : Z.of_nat (size (uids_of k u)) < 2 ^ 62
}.

Lemma wrap64_small n : - 2 ^ 62 ≤ n < 2 ^ 62 → wrap64 n = n.
Proof. intros H. apply wrap64_id. unfold is_int64, MinInt64, MaxInt64. lia. Qed.

Lemma creation_observed_of k u :
  counted k u → 0 < adds_of k u →
  let u' := on_expectations (CreationObserved k) u in
  counted k u' ∧ adds_of k u' = adds_of k u - 1 ∧ uids_of k u' = uids_of k u.
Proof.
  intros [Ha Hd Hs]. unfold on_expectations, CreationObserved, LowerExpectations, GetExpectations.
  destruct (expectations u !! k) as [e|] eqn:He; unfold adds_of, dels_of, uids_of in *; rewrite He in *; simpl in *; [|lia].
  intros Hpos. assert (Hadd : wrap64 (exp_add e + - (1)) = exp_add e - 1) by (rewrite wrap64_small; lia).
  assert (Hdel : wrap64 (exp_del e + - 0) = exp_del e) by (rewrite wrap64_small; lia).
  split; [split|]; unfold adds_of, dels_of, uids_of; simpl; rewrite ?lookup_insert_eq; simpl; rewrite ?Hadd, ?Hdel; [lia|done|done|].
  split; [lia|done].
Qed.

Lemma size_remove_key (uids : gset string) key : key ∈ uids → size uids = S (size (uids ∖ {[key]})).
Proof.
  intros Hin. rewrite (union_difference_L {[key]} uids) at 1 by set_solver. rewrite size_union by set_solver. by rewrite size_singleton.
Qed.

(** A deletion that is seen is taken off once, one that is not expected not at all. *)
Lemma deletion_observed_of k key u :
  counted k u →
  let u' := UID_DeletionObserved k key u in
  counted k u' ∧ adds_of k u' = adds_of k u ∧ uids_of k u' = uids_of k u ∖ {[key]}.
Proof.
  intros Hc. pose proof Hc as [Ha Hd Hs]. unfold UID_DeletionObserved, GetUIDs.
  destruct (uidStore u !! k) as [uids|] eqn:Hu; [|simpl; split_and!; [done|done|]; unfold uids_of; rewrite Hu; simpl; set_solver].
  assert (Huids : uids_of k u = uids) by (unfold uids_of; by rewrite Hu).
  case_decide as Hin; [|simpl; split_and!; [done|done|]; rewrite Huids; set_solver].
  rewrite Huids in *. pose proof (size_remove_key uids key Hin) as Hsize.
  unfold DeletionObserved, LowerExpectations, GetExpectations.
  destruct (expectations u !! k) as [e|] eqn:He; [|unfold dels_of in Hd; rewrite He in Hd; simpl in Hd; lia].
  unfold adds_of, dels_of in Ha, Hd. rewrite He in Ha, Hd. simpl in Ha, Hd.
  assert (Hadd : wrap64 (exp_add e + - 0) = exp_add e) by (rewrite wrap64_small; lia).
  assert (Hdel : wrap64 (exp_del e + - (1)) = exp_del e - 1) by (rewrite wrap64_small; lia).
  split; [split|]; unfold adds_of, dels_of, uids_of; simpl; rewrite ?He, ?lookup_insert_eq; simpl; rewrite ?Hadd, ?Hdel; [lia|lia|lia|done].
Qed.

(** ** Any calls in any order

    A round that starts after the timeout sets expectations while others are open, and
    [ExpectCreations] leaves the keys of the deletions, so that the counters of the next
    batch can be lowered on behalf of an earlier one. *)

Inductive tracker_call :=
  | CallExpectCreations (now : Z) (k : string) (n : Z)
  | CallExpectDeletions (now : Z) (k : string) (keys : list string)
  | CallCreationObserved (k : string)
  | CallDeletionObserved (k key : string)
  | CallDelete (k : string).

Definition tracker_step (u : UIDTracking) (call : tracker_call) : UIDTracking :=
  match call with
  | CallExpectCreations now k n => on_expectations (ExpectCreations now k n) u
  | CallExpectDeletions now k keys => UID_ExpectDeletions now k keys u
  | CallCreationObserved k => on_expectations (CreationObserved k) u
  | CallDeletionObserved k key => UID_DeletionObserved k key u
  | CallDelete k => UID_DeleteExpectations k u
  end.

(** No batch is larger than a burst. *)
Definition call_small (burst : Z) (call : tracker_call) : Prop :=
  match call with
  | CallExpectCreations _ _ n => 0 ≤ n ≤ burst
  | CallExpectDeletions _ _ keys => Z.of_nat (length keys) ≤ burst
  | _ => True
  end.

Record in_bounds (burst calls : Z) (u : UIDTracking) (k : string) : Prop := {
  ib_adds : - calls ≤ adds_of k u ≤ burst;
  ib_dels : Z.of_nat (size (uids_of k u)) - burst ≤ dels_of k u ≤ Z.of_nat (size (uids_of k u));
  ib_uids : Z.of_nat (size (uids_of k u)) ≤ burst
}.

Lemma in_bounds_agree burst calls calls' u u' k :
  calls ≤ calls' → expectations u' !! k = expectations u !! k → uidStore u' !! k = uidStore u !! k →
  in_bounds burst calls u k → in_bounds burst calls' u' k.
Proof.
  intros Hle He Hs [Ha Hd Hu]. split; unfold adds_of, dels_of, uids_of in *; rewrite ?He, ?Hs; lia.
Qed.

(** Lowering one counter of an entry, without wrapping. *)
Lemma lower_in_bounds burst calls add del k e r :
  0 ≤ burst < 2 ^ 62 → calls < 2 ^ 62 → 0 ≤ add ≤ 1 → 0 ≤ del ≤ 1 →
  - calls ≤ exp_add e ≤ burst → - burst ≤ exp_del e ≤ burst → r !! k = Some e →
  LowerExpectations k add del r !! k = Some (mkExpectations (exp_add e - add) (exp_del e - del) (exp_key e) (timestamp e)).
Proof.
  intros Hb Hc Hadd Hdel Ha Hd He. unfold LowerExpectations, GetExpectations. rewrite He, lookup_insert_eq.
  unfold Expectations_Add. rewrite !wrap64_id by (unfold is_int64, MinInt64, MaxInt64; lia). do 2 f_equal; lia.
Qed.

Lemma lower_other k k' add del r : k ≠ k' → LowerExpectations k add del r !! k' = r !! k'.
Proof. intros Hk. unfold LowerExpectations, GetExpectations. destruct (r !! k); [by rewrite lookup_insert_ne|done]. Qed.

Lemma creation_in_bounds burst calls u k :
  0 ≤ burst < 2 ^ 62 → 0 ≤ calls < 2 ^ 62 → in_bounds burst calls u k →
  in_bounds burst (calls + 1) (on_expectations (CreationObserved k) u) k.
Proof.
  intros Hb Hc [Ha Hd Hu]. unfold CreationObserved. destruct (expectations u !! k) as [e|] eqn:He.
  - unfold adds_of, dels_of in Ha, Hd. rewrite He in Ha, Hd. simpl in Ha, Hd.
    pose proof (lower_in_bounds burst calls 1 0 k e (expectations u) Hb ltac:(lia) ltac:(lia) ltac:(lia) Ha ltac:(lia) He) as Hl.
    split; unfold adds_of, dels_of; simpl; rewrite ?Hl; unfold uids_of in *; simpl in *; lia.
  - apply (in_bounds_agree burst calls _ u); [lia| |done|by split]. simpl. unfold LowerExpectations, GetExpectations. by rewrite He.
Qed.

Lemma deletion_in_bounds burst calls u k key :
  0 ≤ burst < 2 ^ 62 → 0 ≤ calls < 2 ^ 62 → in_bounds burst calls u k →
  in_bounds burst (calls + 1) (UID_DeletionObserved k key u) k.
Proof.
  intros Hb Hc Hin. pose proof Hin as [Ha Hd Hu]. unfold UID_DeletionObserved, GetUIDs.
  destruct (uidStore u !! k) as [uids|] eqn:Hs; [|by apply (in_bounds_agree burst calls _ u); [lia|..]].
  case_decide as Hkey; [|by apply (in_bounds_agree burst calls _ u); [lia|..]].
  pose proof (size_remove_key uids key Hkey) as Hsize.
  unfold adds_of, dels_of, uids_of in Ha, Hd, Hu. rewrite Hs in Hd, Hu. simpl in Hd, Hu.
  unfold DeletionObserved. destruct (expectations u !! k) as [e|] eqn:He.
  - simpl in Ha, Hd.
    pose proof (lower_in_bounds burst calls 0 1 k e (expectations u) Hb ltac:(lia) ltac:(lia) ltac:(lia) Ha ltac:(lia) He) as Hl.
    split; unfold adds_of, dels_of, uids_of; simpl; rewrite ?Hl, ?lookup_insert_eq; simpl; lia.
  - simpl in Ha, Hd. assert (Hl : LowerExpectations k 0 1 (expectations u) !! k = None)
      by (unfold LowerExpectations, GetExpectations; by rewrite He).
    split; unfold adds_of, dels_of, uids_of; simpl; rewrite ?Hl, ?lookup_insert_eq; simpl; lia.
Qed.

Lemma size_keys_le (keys : list string) : (size (list_to_set keys : gset string) ≤ length keys)%nat.
Proof.
  induction keys as [|x keys IH]; [by rewrite list_to_set_nil, size_empty|]. rewrite list_to_set_cons. cbn [length].
  pose proof (size_union_alt {[x]} (list_to_set keys : gset string)) as Hs. rewrite size_singleton in Hs.
  assert ((size ((list_to_set keys : gset string) ∖ {[x]}) ≤ size (list_to_set keys : gset string))%nat) by (apply subseteq_size; set_solver).
  lia.
Qed.

Lemma tracker_step_bounds burst calls u call k :
  0 ≤ burst < 2 ^ 62 → 0 ≤ calls < 2 ^ 62 → call_small burst call → in_bounds burst calls u k →
  in_bounds burst (calls + 1) (tracker_step u call) k.
Proof.
  intros Hb Hc Hsmall Hin. pose proof Hin as [Ha Hd Hu].
  destruct call as [now k' n|now k' keys|k'|k' key|k']; simpl in *; destruct (decide (k' = k)) as [->|Hne].
  - pose proof (expect_creations_of now k n u) as (Ha' & Hd' & Hu'). split; rewrite ?Ha', ?Hd', ?Hu'; lia.
  - apply (in_bounds_agree burst calls _ u); [lia|by apply lookup_insert_ne|done|done].
  - pose proof (expect_deletions_of now k keys u) as (Ha' & Hd' & Hu').
    assert (Hlen : (size (list_to_set keys : gset string) ≤ length keys)%nat) by apply size_keys_le.
    split; rewrite ?Ha', ?Hd', ?Hu'; lia.
  - apply (in_bounds_agree burst calls _ u); [lia|by apply lookup_insert_ne|by apply lookup_insert_ne|done].
  - by apply creation_in_bounds.
  - apply (in_bounds_agree burst calls _ u); [lia|by apply lower_other|done|done].
  - by apply deletion_in_bounds.
  - unfold UID_DeletionObserved, GetUIDs. destruct (uidStore u !! k') as [uids|]; [case_decide|];
      (apply (in_bounds_agree burst calls _ u); [lia| | |done]); simpl; try done; [by apply lower_other|by apply lookup_insert_ne].
  - split; unfold adds_of, dels_of, uids_of; simpl; unfold DeleteExpectations; rewrite ?lookup_delete_eq; cbn [default from_option fmap option_fmap option_map]; rewrite ?size_empty; simpl; lia.
  - apply (in_bounds_agree burst calls _ u); [lia|by apply lookup_delete_ne|by apply lookup_delete_ne|done].
Qed.

(** C29. The counters never wrap.  After any calls, of which there can be 2^62, the
    creations that are expected are no more than a burst and no fewer than minus the number
    of calls, and the deletions are within a burst of the keys that are open and never
    more than those: a controller never waits for a deletion whose key is not open. *)
Theorem expectation_counters_bounded burst calls k :
  0 ≤ burst < 2 ^ 62 → Z.of_nat (length calls) < 2 ^ 62 → Forall (call_small burst) calls →
  in_bounds burst (Z.of_nat (length calls)) (foldl tracker_step NewUIDTracking calls) k.
Proof.
  intros Hb. induction calls as [|call calls IH] using rev_ind; intros Hlen Hsmall.
  - split; unfold adds_of, dels_of, uids_of; simpl; rewrite ?lookup_empty; cbn [default from_option fmap option_fmap option_map]; rewrite ?size_empty; simpl; lia.
  - apply Forall_app in Hsmall as [Hsmall [Hcall _]%Forall_cons]. rewrite foldl_snoc. rewrite length_app in *. simpl in *.
    rewrite Nat2Z.inj_add. apply tracker_step_bounds; [done|lia|done|]. apply IH; [lia|done].
Qed.

Lemma expectation_counters_bounded_witness :
  in_bounds 2 3 (foldl tracker_step NewUIDTracking
    [CallExpectDeletions 0 "rs" ["a"; "b"]; CallExpectCreations 300000000001 "rs" 1; CallDeletionObserved "rs" "a"]) "rs".
Proof.
  apply (expectation_counters_bounded 2
    [CallExpectDeletions 0 "rs" ["a"; "b"]; CallExpectCreations 300000000001 "rs" 1; CallDeletionObserved "rs" "a"] "rs").
  - lia.
  - simpl. lia.
  - repeat constructor; simpl; lia.
Defined.
