(* ===== verification/ReplicaSet.v ===== *)
(** * The replica set controller (pkg/controller/replicaset)

    Also the parts of pkg/controller that it uses: the order in which pods are
    deleted, the references to the controller and the lookup cache.

    The API server is a world [W] that the calls change and that may refuse them;
    the least recently used cache of a third party is a parameter.  Times are in
    nanoseconds, 0 being the zero time.  Goroutines that make one call each are run
    one after the other here; [ReplicaSystem] interleaves them.

    Theorems: a round asks for exactly the difference and deletes the least pods; the
    order of pods is a lexicographic one; the status that is written is well formed. *)

From S2P Require Import Prelude Validation Labels Selector MetaSelector ClientStore Expectations.
Open Scope Z_scope.

(** ** Data *)

Record OwnerReference := mkOwnerReference {
  APIVersion : string;
  Kind : string;
  or_Name : string;
  or_UID : string;
  Controller : option bool
}.

Record PodCondition := mkPodCondition {
  pc_Type : string;
  pc_Status : string;
  pc_LastTransitionTime : Z
}.

Record Pod := mkPod {
  pod_Namespace : string;
  pod_Name : string;
  pod_UID : string;
  pod_ResourceVersion : string;
  pod_Labels : Set_;
  OwnerReferences : list OwnerReference;
  CreationTimestamp : Z;
  DeletionTimestamp : option Z;
  NodeName : string;
  Phase : string;
  Conditions : list PodCondition;
  RestartCounts : list Z
}.

Definition PodPending : string := "Pending".
Definition PodRunning : string := "Running".
Definition PodSucceeded : string := "Succeeded".
Definition PodFailed : string := "Failed".
Definition PodUnknown : string := "Unknown".
Definition PodReady : string := "Ready".
Definition ConditionTrue : string := "True".

(** [v1.PodKey] of the controllers: also for an empty namespace with the slash. *)
Definition PodKey (pod : Pod) : string := pod_Namespace pod +:+ "/" +:+ pod_Name pod.

(** ** Pods *)

Fixpoint GetPodCondition (conditions : list PodCondition) (conditionType : string) : option PodCondition :=
  match conditions with
  | [] => None
  | c :: conditions => if decide (pc_Type c = conditionType) then Some c else GetPodCondition conditions conditionType
  end.

Definition IsPodReady (pod : Pod) : bool :=
  match GetPodCondition (Conditions pod) PodReady with
  | Some condition => bool_decide (pc_Status condition = ConditionTrue)
  | None => false
  end.

Definition Second : Z := 1000000000.

Definition IsPodAvailable (pod : Pod) (minReadySeconds now : Z) : bool :=
  if negb (IsPodReady pod) then false
  else
    match GetPodCondition (Conditions pod) PodReady with
    | Some c =>
        bool_decide (minReadySeconds = 0) ||
        (bool_decide (pc_LastTransitionTime c ≠ 0) &&
         bool_decide (pc_LastTransitionTime c + minReadySeconds * Second < now))
    | None => false
    end.

Definition IsPodActive (p : Pod) : bool :=
  bool_decide (Phase p ≠ PodSucceeded) && bool_decide (Phase p ≠ PodFailed) && bool_decide (DeletionTimestamp p = None).

Definition FilterActivePods (pods : list Pod) : list Pod := filter (λ p, IsPodActive p = true) pods.

Definition afterOrZero (t1 t2 : Z) : bool :=
  if bool_decide (t1 = 0) || bool_decide (t2 = 0) then bool_decide (t1 = 0) else bool_decide (t1 > t2).

Fixpoint ready_time_loop (conditions : list PodCondition) : Z :=
  match conditions with
  | [] => 0
  | c :: conditions =>
      if bool_decide (pc_Type c = PodReady) && bool_decide (pc_Status c = ConditionTrue)
      then pc_LastTransitionTime c else ready_time_loop conditions
  end.

Definition podReadyTime (pod : Pod) : Z := if IsPodReady pod then ready_time_loop (Conditions pod) else 0.

Definition maxContainerRestarts (pod : Pod) : Z := foldl Z.max 0 (RestartCounts pod).

(** The map of the phases: 0 for those that are not in it. *)
Definition phase_rank (phase : string) : Z :=
  if decide (phase = PodUnknown) then 1 else if decide (phase = PodRunning) then 2 else 0.

(** [ActivePods.Less] *)
Definition ActivePods_Less (p q : Pod) : bool :=
  if bool_decide (NodeName p ≠ NodeName q) && (bool_decide (NodeName p = "") || bool_decide (NodeName q = ""))
  then bool_decide (NodeName p = "")
  else if bool_decide (phase_rank (Phase p) ≠ phase_rank (Phase q))
  then bool_decide (phase_rank (Phase p) < phase_rank (Phase q))
  else if bool_decide (IsPodReady p ≠ IsPodReady q) then negb (IsPodReady p)
  else if IsPodReady p && IsPodReady q && bool_decide (podReadyTime p ≠ podReadyTime q)
  then afterOrZero (podReadyTime p) (podReadyTime q)
  else if bool_decide (maxContainerRestarts p ≠ maxContainerRestarts q)
  then bool_decide (maxContainerRestarts p > maxContainerRestarts q)
  else if bool_decide (CreationTimestamp p ≠ CreationTimestamp q)
  then afterOrZero (CreationTimestamp p) (CreationTimestamp q)
  else false.

(** [sort.Sort] sorts by the relation that is not reversed. *)
Definition ActivePods_le (p q : Pod) : Prop := ActivePods_Less q p = false.

#[export] Instance ActivePods_le_dec : RelDecision ActivePods_le.
Proof. intros p q. unfold ActivePods_le. apply _. Defined.

(** *** The order as a lexicographic one *)

Fixpoint lex_lt (l1 l2 : list Z) : bool :=
  match l1, l2 with
  | x :: l1, y :: l2 => if bool_decide (x = y) then lex_lt l1 l2 else bool_decide (x < y)
  | _, _ => false
  end.

(** A time, zero first and then the latest first. *)
Definition time_rank (t : Z) : list Z := if decide (t = 0) then [0; 0] else [1; - t].

Definition pod_rank (p : Pod) : list Z :=
  [if decide (NodeName p = "") then 0 else 1; phase_rank (Phase p); if IsPodReady p then 1 else 0] ++
  time_rank (podReadyTime p) ++ [- maxContainerRestarts p] ++ time_rank (CreationTimestamp p).

Lemma lex_time t1 t2 l1 l2 :
  lex_lt (time_rank t1 ++ l1) (time_rank t2 ++ l2) = if bool_decide (t1 ≠ t2) then afterOrZero t1 t2 else lex_lt l1 l2.
Proof.
  unfold time_rank, afterOrZero. repeat case_decide; simpl; repeat (case_bool_decide || simpl); try lia; try done.
Qed.

Lemma lex_step x y l1 l2 : lex_lt (x :: l1) (y :: l2) = if bool_decide (x ≠ y) then bool_decide (x < y) else lex_lt l1 l2.
Proof. simpl. by repeat case_bool_decide. Qed.

Lemma Less_lex p q : ActivePods_Less p q = lex_lt (pod_rank p) (pod_rank q).
Proof.
  unfold ActivePods_Less, pod_rank. cbn [app]. rewrite !lex_step, lex_time, lex_step.
  rewrite <-(app_nil_r (time_rank (CreationTimestamp p))), <-(app_nil_r (time_rank (CreationTimestamp q))), lex_time.
  cbn [lex_lt].
  assert (Hsome : bool_decide (maxContainerRestarts p ≠ maxContainerRestarts q)
    = bool_decide (- maxContainerRestarts p ≠ - maxContainerRestarts q)) by (apply bool_decide_ext; lia).
  assert (Hmore : bool_decide (maxContainerRestarts p > maxContainerRestarts q)
    = bool_decide (- maxContainerRestarts p < - maxContainerRestarts q)) by (apply bool_decide_ext; lia).
  rewrite Hsome, Hmore. clear Hsome Hmore. generalize (bool_decide (- maxContainerRestarts p ≠ - maxContainerRestarts q)).
  intros b. generalize (bool_decide (- maxContainerRestarts p < - maxContainerRestarts q)). intros b'.
  set (created := if bool_decide (CreationTimestamp p ≠ CreationTimestamp q) then _ else _).
  set (rest := if b then b' else created).
  set (ready := if bool_decide (IsPodReady p ≠ IsPodReady q) then _ else _).
  assert (Hready : ready = (if bool_decide ((if IsPodReady p then 1 else 0) ≠ (if IsPodReady q then 1 else 0))
    then bool_decide ((if IsPodReady p then 1 else 0) < (if IsPodReady q then 1 else 0))
    else if bool_decide (podReadyTime p ≠ podReadyTime q) then afterOrZero (podReadyTime p) (podReadyTime q) else rest)).
  { subst ready. unfold podReadyTime. by destruct (IsPodReady p), (IsPodReady q). }
  rewrite <-Hready. generalize ready. clear. intros ready.
  destruct (decide (NodeName p = "")) as [Hp|Hp], (decide (NodeName q = "")) as [Hq|Hq].
  - rewrite Hp, Hq. done.
  - rewrite Hp, (bool_decide_eq_true_2 ("" ≠ NodeName q)) by naive_solver. done.
  - rewrite Hq, (bool_decide_eq_true_2 (NodeName p ≠ "")), (bool_decide_eq_false_2 (NodeName p = "")) by naive_solver. done.
  - rewrite (bool_decide_eq_false_2 (NodeName p = "")), (bool_decide_eq_false_2 (NodeName q = "")) by done.
    rewrite andb_false_r. done.
Qed.

Lemma lex_asym l1 l2 : lex_lt l1 l2 = true → lex_lt l2 l1 = false.
Proof.
  revert l2. induction l1 as [|x l1 IH]; intros [|y l2]; try done. rewrite !lex_step.
  repeat case_bool_decide; try lia; try done. apply IH.
Qed.

Lemma lex_le_trans l1 l2 l3 :
  length l1 = length l2 → length l2 = length l3 →
  lex_lt l2 l1 = false → lex_lt l3 l2 = false → lex_lt l3 l1 = false.
Proof.
  revert l2 l3. induction l1 as [|x l1 IH]; intros [|y l2] [|z l3]; try done. intros [= H12] [= H23]. rewrite !lex_step.
  repeat case_bool_decide; try lia; try done. by apply IH.
Qed.

Lemma pod_rank_length p : length (pod_rank p) = 8%nat.
Proof. unfold pod_rank, time_rank. by repeat case_decide. Qed.

#[export] Instance ActivePods_total : Total ActivePods_le.
Proof.
  intros p q. unfold ActivePods_le. rewrite !Less_lex. destruct (lex_lt (pod_rank q) (pod_rank p)) eqn:H; [|by left].
  right. by apply lex_asym.
Qed.

#[export] Instance ActivePods_trans : Transitive ActivePods_le.
Proof.
  intros p q r. unfold ActivePods_le. rewrite !Less_lex. apply lex_le_trans; by rewrite !pod_rank_length.
Qed.

(** ** The lookup cache (pkg/controller/lookup_cache.go) *)

Record ReplicaSetCondition := mkReplicaSetCondition {
  rc_Type : string;
  rc_Status : string;
  rc_LastTransitionTime : Z;
  rc_Reason : string;
  rc_Message : string
}.

Record ReplicaSetStatus := mkReplicaSetStatus {
  st_Replicas : Z;
  FullyLabeledReplicas : Z;
  ReadyReplicas : Z;
  AvailableReplicas : Z;
  ObservedGeneration : Z;
  st_Conditions : list ReplicaSetCondition
}.

#[export] Instance ReplicaSetCondition_eq_dec : EqDecision ReplicaSetCondition.
Proof. solve_decision. Defined.

Record ReplicaSet := mkReplicaSet {
  rs_Namespace : string;
  rs_Name : string;
  rs_UID : string;
  rs_Generation : Z;
  rs_CreationTimestamp : Z;
  rs_DeletionTimestamp : option Z;
  Replicas : Z;
  MinReadySeconds : Z;
  rs_Selector : option LabelSelector;
  TemplateLabels : Set_;
  rs_Status : ReplicaSetStatus
}.

Definition KeyFunc (rs : ReplicaSet) : result key_error string :=
  MetaNamespaceKeyFunc (WithMeta (rs_Namespace rs) (rs_Name rs)).

(** The cache of the third party: [lru_Get] also changes what was used last. *)
Class LRU (C : Type) := {
  lru_New : Z → C;
  lru_MaxEntries : C → Z;
  lru_Add : Z → ReplicaSet → C → C;
  lru_Get : Z → C → option ReplicaSet * C
}.

Section lookup.
Context `{!MapRange, !SortSort} {C : Type} `{!LRU C}.
(** The hash of a namespace and labels. *)
Context (hash : string → Set_ → Z).

Definition keyFunc (pod : Pod) : Z := hash (pod_Namespace pod) (pod_Labels pod).

Definition NewMatchingCache (maxCacheEntries : Z) : C := lru_New maxCacheEntries.
Definition MatchingCache_Add (pod : Pod) (rs : ReplicaSet) (c : C) : C := lru_Add (keyFunc pod) rs c.
Definition GetMatchingObject (pod : Pod) (c : C) : option ReplicaSet * C := lru_Get (keyFunc pod) c.
Definition InvalidateAll (c : C) : C := lru_New (lru_MaxEntries c).

(** ** The replica set of a pod *)

(** What an indexer has in a namespace, or in all of them, with labels that match. *)
Definition ListAllByNamespace {A : Type} (namespace_of : A → string) (labels_of : A → Set_) (indexer : gmap string A)
    (namespace : string) (selector : Selector) : list A :=
  let items := snd <$> map_range indexer in
  let items := if decide (namespace = "") then items else filter (λ m, namespace_of m = namespace) items in
  filter (λ m, Selector_Matches selector (labels_of m) = true) items.

Definition isReplicaSetMatch (pod : Pod) (rs : ReplicaSet) : bool :=
  if decide (rs_Namespace rs ≠ pod_Namespace pod) then false
  else
    match LabelSelectorAsSelector (rs_Selector rs) with
    | Err _ => false
    | Ok selector => negb (Selector_Empty selector || negb (Selector_Matches selector (pod_Labels pod)))
    end.

(** The loop of the lister over the replica sets of the namespace: one selector
    that is not valid ends it. *)
Fixpoint pod_replica_sets_loop (pod : Pod) (rsl rss : list ReplicaSet) : option (list ReplicaSet) :=
  match rsl with
  | [] => Some rss
  | rs :: rsl =>
      if decide (rs_Namespace rs ≠ pod_Namespace pod) then pod_replica_sets_loop pod rsl rss
      else
        match LabelSelectorAsSelector (rs_Selector rs) with
        | Err _ => None
        | Ok selector =>
            if Selector_Empty selector || negb (Selector_Matches selector (pod_Labels pod))
            then pod_replica_sets_loop pod rsl rss
            else pod_replica_sets_loop pod rsl (rss ++ [rs])
        end
  end.

(** [None] for an error. *)
Definition GetPodReplicaSets (pod : Pod) (rsl : list ReplicaSet) : option (list ReplicaSet) :=
  if decide (size (pod_Labels pod) = 0%nat) then None
  else
    match pod_replica_sets_loop pod rsl [] with
    | None | Some [] => None
    | Some rss => Some rss
    end.

(** [ReplicaSetsByCreationTimestamp.Less] *)
Definition ReplicaSets_Less (r1 r2 : ReplicaSet) : bool :=
  if decide (rs_CreationTimestamp r1 = rs_CreationTimestamp r2) then bool_decide (¬ String.le (rs_Name r2) (rs_Name r1))
  else bool_decide (rs_CreationTimestamp r1 < rs_CreationTimestamp r2).

Definition ReplicaSets_le (r1 r2 : ReplicaSet) : Prop := ReplicaSets_Less r2 r1 = false.

#[local] Instance ReplicaSets_le_dec : RelDecision ReplicaSets_le.
Proof. intros r1 r2. unfold ReplicaSets_le. apply _. Defined.

(** [rsLister] is the indexer: the replica sets by their keys. *)
Definition isCacheValid (rsLister : gmap string ReplicaSet) (pod : Pod) (cachedRS : ReplicaSet) : bool :=
  match rsLister !! (rs_Namespace cachedRS +:+ "/" +:+ rs_Name cachedRS) with
  | None => false
  | Some _ => isReplicaSetMatch pod cachedRS
  end.

Definition getPodReplicaSet (rsLister : gmap string ReplicaSet) (pod : Pod) (c : C) : option ReplicaSet * C :=
  let '(obj, c) := GetMatchingObject pod c in
  let search c :=
    match GetPodReplicaSets pod (ListAllByNamespace rs_Namespace (λ _, ∅) rsLister (pod_Namespace pod) Everything) with
    | None | Some [] => (None, c)
    | Some (rs0 :: rest) =>
        let rss := if decide (1 < length (rs0 :: rest))%nat then sort_Sort ReplicaSets_le (rs0 :: rest) else rs0 :: rest in
        let rs := default rs0 (head rss) in
        (Some rs, MatchingCache_Add pod rs c)
    end in
  match obj with
  | Some rs => if isCacheValid rsLister pod rs then (Some rs, c) else search c
  | None => search c
  end.
End lookup.

(** ** References to the controller (pkg/controller/controller_ref_manager.go) *)

Inductive api_error :=
  | ErrNotFound
  | ErrInvalid
  | ErrOther (msg : string)
  | ErrAggregate (errs : list api_error).

(** The patches that are sent. *)
Inductive pod_patch :=
  | SetController (ref : OwnerReference) (podUID : string)
  | DropOwner (ownerUID podUID : string).

(** The calls of the API server that concern pods. *)
Class PodControl (W : Type) := {
  CreatePods : ReplicaSet → W → option api_error * W;
  CreatePodsWithControllerRef : ReplicaSet → OwnerReference → W → option api_error * W;
  DeletePod : string → string → W → option api_error * W;
  PatchPod : string → string → pod_patch → W → option api_error * W
}.

Fixpoint GetControllerOf (refs : list OwnerReference) : option OwnerReference :=
  match refs with
  | [] => None
  | owner :: refs => if decide (Controller owner = Some true) then Some owner else GetControllerOf refs
  end.

(** Pods that match and are controlled, that match and need a controller, and that
    are controlled but do not match. *)
Definition classify_pod (uid : string) (selector : Selector) (acc : list Pod * list Pod * list Pod) (pod : Pod)
    : list Pod * list Pod * list Pod :=
  let '(matchesAndControlled, matchesNeedsController, controlledDoesNotMatch) := acc in
  if negb (IsPodActive pod) then acc
  else
    match GetControllerOf (OwnerReferences pod) with
    | Some controllerRef =>
        if decide (or_UID controllerRef = uid) then
          if Selector_Matches selector (pod_Labels pod)
          then (matchesAndControlled ++ [pod], matchesNeedsController, controlledDoesNotMatch)
          else (matchesAndControlled, matchesNeedsController, controlledDoesNotMatch ++ [pod])
        else acc
    | None =>
        if negb (Selector_Matches selector (pod_Labels pod)) then acc
        else (matchesAndControlled, matchesNeedsController ++ [pod], controlledDoesNotMatch)
    end.

Definition Classify (uid : string) (selector : Selector) (pods : list Pod) : list Pod * list Pod * list Pod :=
  foldl (classify_pod uid selector) ([], [], []) pods.

Definition controller_ref (rs : ReplicaSet) : OwnerReference :=
  mkOwnerReference "extensions/v1beta1" "ReplicaSet" (rs_Name rs) (rs_UID rs) (Some true).

Section control.
Context {W : Type} `{!PodControl W}.

Definition AdoptPod (rs : ReplicaSet) (pod : Pod) (w : W) : option api_error * W :=
  match rs_DeletionTimestamp rs with
  | Some _ => (Some (ErrOther "cancel the adopt attempt"), w)
  | None => PatchPod (pod_Namespace pod) (pod_Name pod) (SetController (controller_ref rs) (pod_UID pod)) w
  end.

Definition ReleasePod (rs : ReplicaSet) (pod : Pod) (w : W) : option api_error * W :=
  let '(err, w) := PatchPod (pod_Namespace pod) (pod_Name pod) (DropOwner (rs_UID rs) (pod_UID pod)) w in
  (match err with
   | Some ErrNotFound | Some ErrInvalid => None
   | err => err
   end, w).

(** The loops of syncReplicaSet over the pods to adopt and to release. *)
Fixpoint adopt_loop (rs : ReplicaSet) (pods adopted : list Pod) (w : W) : list Pod * W :=
  match pods with
  | [] => (adopted, w)
  | pod :: pods =>
      let '(err, w) := AdoptPod rs pod w in
      adopt_loop rs pods (match err with Some _ => adopted | None => adopted ++ [pod] end) w
  end.

Fixpoint release_pods_loop (rs : ReplicaSet) (pods : list Pod) (errlist : list api_error) (w : W) : list api_error * W :=
  match pods with
  | [] => (errlist, w)
  | pod :: pods =>
      let '(err, w) := ReleasePod rs pod w in
      release_pods_loop rs pods (errlist ++ option_list err) w
  end.

(** ** manageReplicas *)

(** What the goroutines do; an error is sent on the channel. *)
Definition create_pod (gc : bool) (rsKey : string) (rs : ReplicaSet) (s : UIDTracking * W)
    : option api_error * (UIDTracking * W) :=
  let '(u, w) := s in
  let '(err, w) := if gc then CreatePodsWithControllerRef rs (controller_ref rs) w else CreatePods rs w in
  match err with
  | Some e => (Some e, (on_expectations (CreationObserved rsKey) u, w))
  | None => (None, (u, w))
  end.

Definition delete_pod (rsKey : string) (rs : ReplicaSet) (pod : Pod) (s : UIDTracking * W)
    : option api_error * (UIDTracking * W) :=
  let '(u, w) := s in
  let '(err, w) := DeletePod (rs_Namespace rs) (pod_Name pod) w in
  match err with
  | Some e => (Some e, (UID_DeletionObserved rsKey (PodKey pod) u, w))
  | None => (None, (u, w))
  end.

(** One after the other, with the first error. *)
Fixpoint run_all {S : Type} (calls : list (S → option api_error * S)) (s : S) : option api_error * S :=
  match calls with
  | [] => (None, s)
  | call :: calls =>
      let '(err, s) := call s in
      let '(err', s) := run_all calls s in
      (match err with Some e => Some e | None => err' end, s)
  end.

(** What is to be done about the pods that were found. *)
Inductive plan :=
  | PlanCreate (n : nat)
  | PlanDelete (pods : list Pod)
  | PlanNothing.

Context `{!SortSort}.

Definition manage_plan (burstReplicas : Z) (filteredPods : list Pod) (rs : ReplicaSet) : outcome plan :=
  let diff := Z.of_nat (length filteredPods) - Replicas rs in
  if decide (diff < 0) then Ret (PlanCreate (Z.to_nat (Z.min (- diff) burstReplicas)))
  else if decide (diff > 0) then
    let diff := Z.to_nat (Z.min diff burstReplicas) in
    let filteredPods := if decide (Replicas rs ≠ 0) then sort_Sort ActivePods_le filteredPods else filteredPods in
    if decide (diff ≤ length filteredPods)%nat then Ret (PlanDelete (take diff filteredPods)) else Panic "index out of range"
  else Ret PlanNothing.

(** The expectations are set before the calls are made. *)
Definition expect_plan (now : Z) (rsKey : string) (p : plan) (u : UIDTracking) : UIDTracking :=
  match p with
  | PlanCreate n => on_expectations (ExpectCreations now rsKey (Z.of_nat n)) u
  | PlanDelete pods => UID_ExpectDeletions now rsKey (PodKey <$> pods) u
  | PlanNothing => u
  end.

Definition plan_calls (gc : bool) (rsKey : string) (rs : ReplicaSet) (p : plan)
    : list (UIDTracking * W → option api_error * (UIDTracking * W)) :=
  match p with
  | PlanCreate n => replicate n (create_pod gc rsKey rs)
  | PlanDelete pods => delete_pod rsKey rs <$> pods
  | PlanNothing => []
  end.

Definition manageReplicas (burstReplicas : Z) (gc : bool) (now : Z) (filteredPods : list Pod) (rs : ReplicaSet)
    (s : UIDTracking * W) : outcome (option api_error * (UIDTracking * W)) :=
  match KeyFunc rs with
  | Err _ => Ret (None, s)
  | Ok rsKey =>
      p ?<- manage_plan burstReplicas filteredPods rs;
      Ret (run_all (plan_calls gc rsKey rs p) (expect_plan now rsKey p s.1, s.2))
  end.
End control.

(** ** The status (replica_set_utils.go) *)

Definition ReplicaSetReplicaFailure : string := "ReplicaFailure".

Fixpoint GetCondition (conditions : list ReplicaSetCondition) (condType : string) : option ReplicaSetCondition :=
  match conditions with
  | [] => None
  | c :: conditions => if decide (rc_Type c = condType) then Some c else GetCondition conditions condType
  end.

Definition filterOutCondition (conditions : list ReplicaSetCondition) (condType : string) : list ReplicaSetCondition :=
  filter (λ c, rc_Type c ≠ condType) conditions.

Definition SetCondition (conditions : list ReplicaSetCondition) (condition : ReplicaSetCondition)
    : list ReplicaSetCondition :=
  let keep :=
    match GetCondition conditions (rc_Type condition) with
    | Some currentCond =>
        bool_decide (rc_Status currentCond = rc_Status condition) && bool_decide (rc_Reason currentCond = rc_Reason condition)
    | None => false
    end in
  if keep : bool then conditions else filterOutCondition conditions (rc_Type condition) ++ [condition].

Section status.
Context `{!MapRange, !SortSort}.
(** The text of an error. *)
Context (error_text : api_error → string).

Definition count_pods (f : Pod → bool) (pods : list Pod) : Z := Z.of_nat (length (filter (λ p, f p = true) pods)).

Definition calculateStatus (now : Z) (rs : ReplicaSet) (filteredPods : list Pod) (manageReplicasErr : option api_error)
    : ReplicaSetStatus :=
  let templateLabel := SelectorFromValidatedSet (TemplateLabels rs) in
  let failureCond := GetCondition (st_Conditions (rs_Status rs)) ReplicaSetReplicaFailure in
  let conditions :=
    match manageReplicasErr, failureCond with
    | Some err, None =>
        let diff := Z.of_nat (length filteredPods) - Replicas rs in
        let reason := if decide (diff < 0) then "FailedCreate" else if decide (diff > 0) then "FailedDelete" else "" in
        SetCondition (st_Conditions (rs_Status rs))
          (mkReplicaSetCondition ReplicaSetReplicaFailure ConditionTrue now reason (error_text err))
    | None, Some _ => filterOutCondition (st_Conditions (rs_Status rs)) ReplicaSetReplicaFailure
    | _, _ => st_Conditions (rs_Status rs)
    end in
  mkReplicaSetStatus
    (wrap32 (Z.of_nat (length filteredPods)))
    (wrap32 (count_pods (λ p, Selector_Matches templateLabel (pod_Labels p)) filteredPods))
    (wrap32 (count_pods IsPodReady filteredPods))
    (wrap32 (count_pods (λ p, IsPodReady p && IsPodAvailable p (MinReadySeconds rs) now) filteredPods))
    (ObservedGeneration (rs_Status rs)) conditions.

(** The calls that concern replica sets. *)
Class RSClient (W : Type) := {
  UpdateStatus : ReplicaSet → W → option api_error * W;
  GetRS : string → string → W → result api_error ReplicaSet * W
}.

Context {W : Type} `{!RSClient W}.

Definition statusUpdateRetries : nat := 1.

Definition set_status (st : ReplicaSetStatus) (rs : ReplicaSet) : ReplicaSet :=
  mkReplicaSet (rs_Namespace rs) (rs_Name rs) (rs_UID rs) (rs_Generation rs) (rs_CreationTimestamp rs)
    (rs_DeletionTimestamp rs) (Replicas rs) (MinReadySeconds rs) (rs_Selector rs) (TemplateLabels rs) st.

(** [retries]: those that are left. *)
Fixpoint update_status_loop (retries : nat) (newStatus : ReplicaSetStatus) (namespace : string) (rs : ReplicaSet) (w : W)
    : option api_error * W :=
  let '(updateErr, w) := UpdateStatus (set_status newStatus rs) w in
  match updateErr, retries with
  | None, _ | _, O => (updateErr, w)
  | Some _, S retries =>
      match GetRS namespace (rs_Name rs) w with
      | (Err getErr, w) => (Some getErr, w)
      | (Ok rs, w) => update_status_loop retries newStatus namespace rs w
      end
  end.

Definition updateReplicaSetStatus (rs : ReplicaSet) (newStatus : ReplicaSetStatus) (w : W) : option api_error * W :=
  let old := rs_Status rs in
  if decide (st_Replicas old = st_Replicas newStatus ∧ FullyLabeledReplicas old = FullyLabeledReplicas newStatus ∧
             ReadyReplicas old = ReadyReplicas newStatus ∧ AvailableReplicas old = AvailableReplicas newStatus ∧
             rs_Generation rs = ObservedGeneration old ∧ st_Conditions old = st_Conditions newStatus)
  then (None, w)
  else
    let newStatus :=
      mkReplicaSetStatus (st_Replicas newStatus) (FullyLabeledReplicas newStatus) (ReadyReplicas newStatus)
        (AvailableReplicas newStatus) (rs_Generation rs) (st_Conditions newStatus) in
    update_status_loop statusUpdateRetries newStatus (rs_Namespace rs) rs w.

(** ** The controller *)

Inductive queue_call := QueueAdd (key : string) | QueueAddAfter (key : string) (after : Z).

Record ReplicaSetController (C : Type) := mkController {
  burstReplicas : Z;
  garbageCollectorEnabled : bool;
  rsLister : gmap string ReplicaSet;
  podLister : gmap string Pod;
  lookupCache : C;
  tracking : UIDTracking;
  queue_calls : list queue_call
}.
End status.
Arguments mkController {C} _ _ _ _ _ _ _.
Arguments burstReplicas {C} _.
Arguments garbageCollectorEnabled {C} _.
Arguments rsLister {C} _.
Arguments podLister {C} _.
Arguments lookupCache {C} _.
Arguments tracking {C} _.
Arguments queue_calls {C} _.

Definition set_lookup {C} (l : C) (c : ReplicaSetController C) : ReplicaSetController C :=
  mkController (burstReplicas c) (garbageCollectorEnabled c) (rsLister c) (podLister c) l (tracking c) (queue_calls c).

Definition set_tracking {C} (u : UIDTracking) (c : ReplicaSetController C) : ReplicaSetController C :=
  mkController (burstReplicas c) (garbageCollectorEnabled c) (rsLister c) (podLister c) (lookupCache c) u (queue_calls c).

Definition call_queue {C} (q : queue_call) (c : ReplicaSetController C) : ReplicaSetController C :=
  mkController (burstReplicas c) (garbageCollectorEnabled c) (rsLister c) (podLister c) (lookupCache c) (tracking c)
    (queue_calls c ++ [q]).

(** *** Handlers of the informers *)

Section handlers.
Context `{!MapRange, !SortSort} {C : Type} `{!LRU C}.
Context (hash : string → Set_ → Z).

Definition enqueueReplicaSet (rs : ReplicaSet) (c : ReplicaSetController C) : ReplicaSetController C :=
  match KeyFunc rs with
  | Err _ => c
  | Ok key => call_queue (QueueAdd key) c
  end.

Definition enqueueReplicaSetAfter (rs : ReplicaSet) (after : Z) (c : ReplicaSetController C) : ReplicaSetController C :=
  match KeyFunc rs with
  | Err _ => c
  | Ok key => call_queue (QueueAddAfter key after) c
  end.

Definition lookup_pod (pod : Pod) (c : ReplicaSetController C) : option ReplicaSet * ReplicaSetController C :=
  let '(rs, l) := getPodReplicaSet hash (rsLister c) pod (lookupCache c) in
  (rs, set_lookup l c).

(** What a deletion is reported with: a pod, a tombstone with or without a pod, or
    anything else. *)
Inductive deleted_obj := DeletedPod (pod : Pod) | Tombstone (pod : option Pod) | DeletedOther.

Definition deletePod (obj : deleted_obj) (c : ReplicaSetController C) : ReplicaSetController C :=
  match obj with
  | DeletedPod pod | Tombstone (Some pod) =>
      let '(rs, c) := lookup_pod pod c in
      match rs with
      | None => c
      | Some rs =>
          match KeyFunc rs with
          | Err _ => c
          | Ok rsKey => enqueueReplicaSet rs (set_tracking (UID_DeletionObserved rsKey (PodKey pod) (tracking c)) c)
          end
      end
  | _ => c
  end.

Definition ReplicaSetController_addPod (pod : Pod) (c : ReplicaSetController C) : ReplicaSetController C :=
  let '(rs, c) := lookup_pod pod c in
  match rs with
  | None => c
  | Some rs =>
      match KeyFunc rs with
      | Err _ => c
      | Ok rsKey =>
          match DeletionTimestamp pod with
          | Some _ => deletePod (DeletedPod pod) c
          | None => enqueueReplicaSet rs (set_tracking (on_expectations (CreationObserved rsKey) (tracking c)) c)
          end
      end
  end.

Definition updatePod (oldPod curPod : Pod) (c : ReplicaSetController C) : ReplicaSetController C :=
  if decide (pod_ResourceVersion curPod = pod_ResourceVersion oldPod) then c
  else
    let labelChanged := bool_decide (pod_Labels curPod ≠ pod_Labels oldPod) in
    match DeletionTimestamp curPod with
    | Some _ =>
        let c := deletePod (DeletedPod curPod) c in
        if labelChanged then deletePod (DeletedPod oldPod) c else c
    | None =>
        let c :=
          if labelChanged then
            let '(oldRS, c) := lookup_pod oldPod c in
            match oldRS with Some oldRS => enqueueReplicaSet oldRS c | None => c end
          else c in
        let changedToReady := negb (IsPodReady oldPod) && IsPodReady curPod in
        let '(curRS, c) := lookup_pod curPod c in
        match curRS with
        | None => c
        | Some curRS =>
            let c := enqueueReplicaSet curRS c in
            if changedToReady && bool_decide (MinReadySeconds curRS > 0)
            then enqueueReplicaSetAfter curRS (MinReadySeconds curRS * Second) c else c
        end
    end.

(** The store has the new object already. *)
Definition updateRS (oldRS curRS : ReplicaSet) (c : ReplicaSetController C) : ReplicaSetController C :=
  enqueueReplicaSet curRS
    (if decide (rs_Selector oldRS ≠ rs_Selector curRS) then set_lookup (InvalidateAll (lookupCache c)) c else c).

(** *** syncReplicaSet *)

Context {W : Type} `{!PodControl W, !RSClient W}.
Context (error_text : api_error → string).

(** The pods of the replica set, or the errors of releasing others. *)
Definition sync_pods (rs : ReplicaSet) (selector : Selector) (c : ReplicaSetController C) (w : W)
    : result api_error (list Pod) * W :=
  if garbageCollectorEnabled c then
    let pods := ListAllByNamespace pod_Namespace pod_Labels (podLister c) (rs_Namespace rs) Everything in
    let '(matchesAndControlled, matchesNeedsController, controlledDoesNotMatch) := Classify (rs_UID rs) selector pods in
    let '(filteredPods, w) :=
      match rs_DeletionTimestamp rs with
      | None => adopt_loop rs matchesNeedsController matchesAndControlled w
      | Some _ => (matchesAndControlled, w)
      end in
    let '(errlist, w) := release_pods_loop rs controlledDoesNotMatch [] w in
    match errlist with
    | [] => (Ok filteredPods, w)
    | _ => (Err (ErrAggregate errlist), w)
    end
  else (Ok (FilterActivePods (ListAllByNamespace pod_Namespace pod_Labels (podLister c) (rs_Namespace rs) selector)), w).

Definition syncReplicaSet (now : Z) (key : string) (c : ReplicaSetController C) (w : W)
    : outcome (option api_error * (ReplicaSetController C * W)) :=
  match rsLister c !! key with
  | None => Ret (None, (set_tracking (UID_DeleteExpectations key (tracking c)) c, w))
  | Some rs =>
      let rsNeedsSync := SatisfiedExpectations now key (expectations (tracking c)) in
      match LabelSelectorAsSelector (rs_Selector rs) with
      | Err _ => Ret (None, (c, w))
      | Ok selector =>
          match sync_pods rs selector c w with
          | (Err err, w) => Ret (Some err, (c, w))
          | (Ok filteredPods, w) =>
              managed ?<-
                (if rsNeedsSync && bool_decide (rs_DeletionTimestamp rs = None)
                 then manageReplicas (burstReplicas c) (garbageCollectorEnabled c) now filteredPods rs (tracking c, w)
                 else Ret (None, (tracking c, w)));
              let '(manageReplicasErr, (u, w)) := managed in
              let newStatus := calculateStatus error_text now rs filteredPods manageReplicasErr in
              let '(err, w) := updateReplicaSetStatus rs newStatus w in
              Ret (match err with Some e => Some e | None => manageReplicasErr end, (set_tracking u c, w))
          end
      end
  end.
End handlers.

(** ** What a round asks for *)

Lemma sorted_take_drop {A} (R : relation A) `{!Transitive R} (l : list A) n x y :
  Sorted R l → x ∈ take n l → y ∈ drop n l → R x y.
Proof.
  intros Hs%Sorted_StronglySorted Hx Hy; [|done]. rewrite <-(take_drop n l) in Hs.
  by eapply StronglySorted_app_1_elem_of.
Qed.

(** What is to be deleted: how many, which, and that they are the least. *)
Definition deletes_least (burst : Z) (pods : list Pod) (n : Z) (gone : list Pod) : Prop :=
  Z.of_nat (length gone) = Z.min (Z.of_nat (length pods) - n) burst ∧
  ∃ kept, pods ≡ₚ gone ++ kept ∧ (n ≠ 0 → ∀ p q, p ∈ gone → q ∈ kept → ActivePods_Less q p = false).

Lemma manage_plan_spec `{!SortSort} burst pods rs :
  0 ≤ Replicas rs → 0 ≤ burst →
  ∃ p, manage_plan burst pods rs = Ret p ∧
    match p with
    | PlanCreate k =>
        Z.of_nat (length pods) < Replicas rs ∧ Z.of_nat k = Z.min (Replicas rs - Z.of_nat (length pods)) burst
    | PlanDelete gone => Replicas rs < Z.of_nat (length pods) ∧ deletes_least burst pods (Replicas rs) gone
    | PlanNothing => Z.of_nat (length pods) = Replicas rs
    end.
Proof.
  intros Hn Hb. unfold manage_plan. case_decide as Hlt; [eexists; split; [done|]; simpl; lia|].
  case_decide as Hgt; [|eexists; split; [done|]; simpl; lia].
  set (l := if decide (Replicas rs ≠ 0) then _ else _).
  assert (Hperm : l ≡ₚ pods) by (subst l; case_decide; [apply sort_Sort_perm|done]).
  pose proof (Permutation_length Hperm) as Hlen.
  rewrite decide_True by lia. eexists. split; [done|]. simpl. split; [lia|]. split; [rewrite length_take; lia|].
  exists (drop (Z.to_nat (Z.min (Z.of_nat (length pods) - Replicas rs) burst)) l). split; [by rewrite take_drop|].
  intros H0 p q Hp Hq. eapply (sorted_take_drop ActivePods_le l); [|exact Hp|exact Hq]. subst l. rewrite decide_True by done.
  apply sort_Sort_sorted, _.
Qed.

Lemma manage_plan_sublist `{!SortSort} burst pods rs gone :
  manage_plan burst pods rs = Ret (PlanDelete gone) → ∀ p, p ∈ gone → p ∈ pods.
Proof.
  unfold manage_plan. case_decide; [done|]. case_decide; [|done]. case_decide; [|done]. intros [= <-] p Hp.
  apply elem_of_take in Hp as (i & Hp & _). apply list_elem_of_lookup_2 in Hp. case_decide; [|done].
  by rewrite sort_Sort_perm in Hp.
Qed.

(** C27. A round returns, for a number of replicas that is not negative, and asks for
    exactly the difference, up to a burst: for creations if there are too few pods, else
    for deletions of the pods that are least in the order of usefulness (none that is
    kept is strictly before one that is deleted).  Before the first call it expects what
    it asks for: the number of creations, or the keys of the deletions. *)
Theorem replica_plan_exact `{!SortSort} {W} `{!PodControl W} burst gc now pods rs rsKey (u : UIDTracking) (w : W) :
  KeyFunc rs = Ok rsKey → 0 ≤ Replicas rs → 0 ≤ burst →
  ∃ p u', manageReplicas burst gc now pods rs (u, w) = Ret (run_all (plan_calls gc rsKey rs p) (u', w)) ∧
    match p with
    | PlanCreate k =>
        Z.of_nat (length pods) < Replicas rs ∧ Z.of_nat k = Z.min (Replicas rs - Z.of_nat (length pods)) burst ∧
        adds_of rsKey u' = Z.of_nat k ∧ dels_of rsKey u' = 0
    | PlanDelete gone =>
        Replicas rs < Z.of_nat (length pods) ∧ deletes_least burst pods (Replicas rs) gone ∧
        adds_of rsKey u' = 0 ∧ uids_of rsKey u' = list_to_set (PodKey <$> gone) ∧
        dels_of rsKey u' = Z.of_nat (size (uids_of rsKey u'))
    | PlanNothing => Z.of_nat (length pods) = Replicas rs ∧ u' = u
    end.
Proof.
  intros Hkey Hn Hb. destruct (manage_plan_spec burst pods rs Hn Hb) as (p & Hp & Hspec).
  exists p, (expect_plan now rsKey p u). split; [unfold manageReplicas; by rewrite Hkey, Hp|].
  destruct p as [k|gone|]; cbn [expect_plan].
  - pose proof (expect_creations_of now rsKey (Z.of_nat k) u) as (Ha & Hd & _). destruct Hspec. by split_and!.
  - pose proof (expect_deletions_of now rsKey (PodKey <$> gone) u) as (Ha & Hd & Hu). destruct Hspec.
    split_and!; [done|done|done|done|]. by rewrite Hu.
  - done.
Qed.

(** ** The status *)

Lemma count_pods_le (f g : Pod → bool) pods : (∀ p, f p = true → g p = true) → 0 ≤ count_pods f pods ≤ count_pods g pods.
Proof.
  intros Hfg. unfold count_pods. induction pods as [|p pods IH]; [done|]. rewrite !filter_cons. specialize (Hfg p).
  repeat case_decide; simpl; try lia. exfalso. by auto.
Qed.

Lemma count_pods_all pods : count_pods (λ _, true) pods = Z.of_nat (length pods).
Proof. unfold count_pods. by rewrite filter_all_true by (by apply Forall_true). Qed.

Lemma count_pods_int32 (f : Pod → bool) pods : Z.of_nat (length pods) < 2 ^ 31 → wrap32 (count_pods f pods) = count_pods f pods.
Proof.
  intros Hlen. apply wrap32_id. pose proof (count_pods_le f (λ _, true) pods (λ _ _, eq_refl)) as Hle.
  rewrite count_pods_all in Hle. unfold is_int32. lia.
Qed.

Lemma GetCondition_None conditions t : GetCondition conditions t = None ↔ t ∉ (rc_Type <$> conditions).
Proof.
  induction conditions as [|c conditions IH]; [set_solver|]. simpl. case_decide; [set_solver|]. rewrite IH. set_solver.
Qed.

Lemma filterOut_types conditions t : rc_Type <$> filterOutCondition conditions t = filter (λ t', t' ≠ t) (rc_Type <$> conditions).
Proof.
  unfold filterOutCondition. induction conditions as [|c conditions IH]; [done|]. rewrite fmap_cons, !filter_cons.
  destruct (decide (rc_Type c = t)) as [Heq|Hne]; [|by rewrite !decide_True by done; csimpl; rewrite IH].
  rewrite !decide_False by auto. exact IH.
Qed.

(** The counts are ordered, and no type has two conditions. *)
Record status_wf (st : ReplicaSetStatus) : Prop := {
  wf_available : 0 ≤ AvailableReplicas st ≤ ReadyReplicas st;
  wf_ready : ReadyReplicas st ≤ st_Replicas st;
  wf_labeled : 0 ≤ FullyLabeledReplicas st ≤ st_Replicas st;
  wf_conditions : NoDup (rc_Type <$> st_Conditions st)
}.

(** C28. The status that a round computes is well formed: of the replicas some are ready,
    of those some are available, no type has two conditions, and there is a condition
    of failure just if the round failed.  The counts are of 32 bits. *)
Theorem replica_status_wf `{!MapRange, !SortSort} error_text now rs pods err :
  NoDup (rc_Type <$> st_Conditions (rs_Status rs)) → Z.of_nat (length pods) < 2 ^ 31 →
  let st := calculateStatus error_text now rs pods err in
  status_wf st ∧ st_Replicas st = Z.of_nat (length pods) ∧
  (ReplicaSetReplicaFailure ∈ (rc_Type <$> st_Conditions st) ↔ err ≠ None).
Proof.
  intros Hnd Hlen. unfold calculateStatus. cbn zeta.
  rewrite <-(count_pods_all pods), !count_pods_int32 by done.
  set (conds := match err with Some _ => _ | None => _ end).
  assert (Hconds : NoDup (rc_Type <$> conds) ∧ (ReplicaSetReplicaFailure ∈ (rc_Type <$> conds) ↔ err ≠ None)).
  { subst conds. destruct err as [e|], (GetCondition _ ReplicaSetReplicaFailure) as [c|] eqn:Hc.
    - split; [done|]. split; [done|]. intros _. apply dec_stable. rewrite <-GetCondition_None, Hc. done.
    - unfold SetCondition. cbn [rc_Type]. rewrite Hc. rewrite fmap_app, filterOut_types. split; [|set_solver].
      apply NoDup_app. split_and!; [by apply NoDup_filter| |apply NoDup_singleton].
      intros t Ht%list_elem_of_filter. set_solver.
    - rewrite filterOut_types. split; [by apply NoDup_filter|]. rewrite list_elem_of_filter. naive_solver.
    - apply GetCondition_None in Hc. naive_solver. }
  destruct Hconds as [Hnd' Hfail]. split_and!; [|done|exact Hfail].
  split; cbn; [| | |done]; apply count_pods_le || (pose proof (count_pods_le IsPodReady (λ _, true) pods (λ _ _, eq_refl)); lia); try done.
  intros p Hp. by apply andb_true_iff in Hp as [? _].
Qed.

(** ** A replica set of pods named web *)

Definition web_labels : Set_ := {[ "app" := "web" ]}.
Definition web_selector : Selector := internalSelector [mkRequirement "app" OpEquals ["web"]].

Definition web_pod (name version : string) (deletion : option Z) : Pod :=
  mkPod "default" name "" version web_labels [] 0 deletion "" PodRunning [] [].

Definition web_set (replicas : Z) : ReplicaSet :=
  mkReplicaSet "default" "web" "u" 1 0 None replicas 0 (Some (mkLabelSelector web_labels [])) web_labels
    (mkReplicaSetStatus 0 0 0 0 0 []).

#[local] Existing Instance canonical_range.
#[local] Existing Instance canonical_sort.

(** An API server that accepts every call, and counts them. *)
#[local] Instance web_accept : PodControl nat := {|
  CreatePods _ w := (None, S w);
  CreatePodsWithControllerRef _ _ w := (None, S w);
  DeletePod _ _ w := (None, S w);
  PatchPod _ _ _ w := (None, S w)
|}.

Definition web_found : list Pod := [web_pod "a" "1" None; web_pod "b" "1" None; web_pod "c" "1" None].

(** One pod of three stays, two are deleted. *)
Lemma replica_plan_exact_witness :
  match manageReplicas 500 false 0 web_found (web_set 1) (NewUIDTracking, O) with
  | Ret (None, (_, calls)) => calls = 2%nat
  | _ => False
  end ∧
  ∃ p u', manageReplicas 500 false 0 web_found (web_set 1) (NewUIDTracking, O)
    = Ret (run_all (plan_calls false "default/web" (web_set 1) p) (u', O)) ∧
    match p with PlanDelete gone => length gone = 2%nat | _ => False end.
Proof.
  split; [vm_compute; reflexivity|].
  destruct (replica_plan_exact 500 false 0 web_found (web_set 1) "default/web" NewUIDTracking O) as (p & u' & Heq & Hp);
    [reflexivity|simpl; lia|lia|]. exists p, u'. split; [exact Heq|].
  destruct p as [k|gone|]; [destruct Hp as [Hp _]; simpl in Hp; lia| |destruct Hp as [Hp _]; simpl in Hp; lia].
  destruct Hp as (_ & [Hlen _] & _). simpl in Hlen. lia.
Defined.

(** A round that failed, over a status with a condition of another type. *)
Lemma replica_status_wf_witness :
  let rs := set_status (mkReplicaSetStatus 0 0 0 0 0 [mkReplicaSetCondition "Other" ConditionTrue 0 "" ""]) (web_set 4) in
  let st := calculateStatus (λ _, "quota") 0 rs web_found (Some (ErrOther "quota")) in
  status_wf st ∧ st_Replicas st = 3.
Proof.
  set (rs := set_status _ _).
  destruct (replica_status_wf (λ _, "quota") 0 rs web_found (Some (ErrOther "quota"))) as (Hwf & Hn & _).
  - apply NoDup_singleton.
  - simpl. lia.
  - split; [exact Hwf|exact Hn].
Defined.
