(* ===== verification/ReplicaSystem.v ===== *)
(** * The replica set controller against a stale cache

    One replica set, the pods in the API server, the cache of the informer that
    follows them with any delay, the notifications of the handlers that follow the
    cache with any delay, and the controller, which makes one call at a time.  The
    steps use the operations of [Expectations] and [ReplicaSet].

    Theorems: however late events arrive, and whatever calls are refused, the
    controller never has more pods than the largest number of replicas it read, and
    never deletes below the smallest one, as long as its expectations do not expire;
    but at a start it can exceed it, as the handlers may not have caught up with the
    cache, and so it can after expectations expired. *)

From S2P Require Import Prelude Validation Labels Selector MetaSelector ClientStore Expectations ReplicaSet.
Open Scope Z_scope.

(** ** Events and notifications *)

Inductive watch_event :=
  | EvPut (pod : Pod)
  | EvDelete (pod : Pod).

Inductive pod_notification :=
  | NoteAdd (pod : Pod)
  | NoteUpdate (oldPod curPod : Pod)
  | NoteDelete (pod : Pod).

(** The informer changes the cache and notifies the handlers of it. *)
Definition deliver (ev : watch_event) (cache : gmap string Pod) : pod_notification * gmap string Pod :=
  match ev with
  | EvPut pod =>
      (match cache !! PodKey pod with Some oldPod => NoteUpdate oldPod pod | None => NoteAdd pod end,
       <[PodKey pod := pod]> cache)
  | EvDelete pod => (NoteDelete pod, delete (PodKey pod) cache)
  end.

(** What the handlers do to the expectations of the replica set of the pod. *)
Definition observe (rsKey : string) (n : pod_notification) (u : UIDTracking) : UIDTracking :=
  match n with
  | NoteAdd pod =>
      match DeletionTimestamp pod with
      | Some _ => UID_DeletionObserved rsKey (PodKey pod) u
      | None => on_expectations (CreationObserved rsKey) u
      end
  | NoteUpdate oldPod curPod =>
      if decide (pod_ResourceVersion curPod = pod_ResourceVersion oldPod) then u
      else
        match DeletionTimestamp curPod with
        | Some _ => UID_DeletionObserved rsKey (PodKey curPod) u
        | None => u
        end
  | NoteDelete pod => UID_DeletionObserved rsKey (PodKey pod) u
  end.

(** The handlers of the controller do that, for pods that are found to be of one
    replica set and keep their labels. *)
Definition handle `{!MapRange, !SortSort} {C} `{!LRU C} (hash : string → Set_ → Z) (n : pod_notification)
    (c : ReplicaSetController C) : ReplicaSetController C :=
  match n with
  | NoteAdd pod => ReplicaSetController_addPod hash pod c
  | NoteUpdate oldPod curPod => updatePod hash oldPod curPod c
  | NoteDelete pod => deletePod hash (DeletedPod pod) c
  end.

(** ** The system *)

Inductive pc := Idle | Checked (needsSync : bool) | Creating (n : nat) | Deleting (pods : list Pod).

(** What others do to the pods: nothing; they change pods, but do not delete them or
    have them stop; or they do so as well. *)
Inductive others := Nobody | Harmless | Anyone.

Record state := mkState {
  api : gmap string Pod;
  used : gset string;
  log : list watch_event;
  cache : gmap string Pod;
  notes : list pod_notification;
  track : UIDTracking;
  clock : Z;
  at_pc : pc
}.

Definition set_pc (p : pc) (s : state) : state :=
  mkState (api s) (used s) (log s) (cache s) (notes s) (track s) (clock s) p.
Definition set_track (u : UIDTracking) (s : state) : state :=
  mkState (api s) (used s) (log s) (cache s) (notes s) u (clock s) (at_pc s).
Definition put_pod (pod : Pod) (s : state) : state :=
  mkState (<[PodKey pod := pod]> (api s)) ({[PodKey pod]} ∪ used s) (log s ++ [EvPut pod]) (cache s) (notes s)
    (track s) (clock s) (at_pc s).
Definition remove_pod (pod : Pod) (s : state) : state :=
  mkState (delete (PodKey pod) (api s)) (used s) (log s ++ [EvDelete pod]) (cache s) (notes s)
    (track s) (clock s) (at_pc s).

Definition active_keys (m : gmap string Pod) : gset string := dom (filter (λ kp, IsPodActive kp.2 = true) m).

Section system.
Context `{!MapRange, !SortSort}.
Context (rsKey ns : string) (selector : Selector) (burst lowest highest : Z).
Context (burst_ok : 0 ≤ burst < 2 ^ 62) (lowest_ok : 0 ≤ lowest).

(** The pods that the controller lists: those of the namespace that match. *)
Definition mine (p : Pod) : Prop := pod_Namespace p = ns ∧ Selector_Matches selector (pod_Labels p) = true.

Definition listed (cache : gmap string Pod) : list Pod :=
  FilterActivePods (ListAllByNamespace pod_Namespace pod_Labels cache ns selector).

(** A new list of the pods replaces the events that were not seen. *)
Definition relisted (s : state) : list watch_event :=
  (EvDelete ∘ snd <$> map_range (filter (λ kp, kp.1 ∉ dom (api s)) (cache s))) ++ (EvPut ∘ snd <$> map_range (api s)).

(** [prompt]: whether each round starts before expectations that are open expire. *)
Inductive step (prompt : bool) (env : others) (s : state) : state → Prop :=
  (* others: a pod may change, stop being active or disappear *)
  | step_change p p' : env ≠ Nobody → (env = Harmless → IsPodActive p' = IsPodActive p) →
      api s !! PodKey p = Some p → PodKey p' = PodKey p → mine p' →
      (IsPodActive p' = true → IsPodActive p = true) → step prompt env s (put_pod p' s)
  | step_vanish p : env = Anyone → api s !! PodKey p = Some p → step prompt env s (remove_pod p s)
  | step_time t : clock s ≤ t →
      step prompt env s (mkState (api s) (used s) (log s) (cache s) (notes s) (track s) t (at_pc s))
  (* the informer and the handlers *)
  | step_deliver ev rest n m : log s = ev :: rest → deliver ev (cache s) = (n, m) →
      step prompt env s (mkState (api s) (used s) rest m (notes s ++ [n]) (track s) (clock s) (at_pc s))
  | step_relist :
      step prompt env s (mkState (api s) (used s) (relisted s) (cache s) (notes s) (track s) (clock s) (at_pc s))
  | step_observe n rest : notes s = n :: rest →
      step prompt env s (mkState (api s) (used s) (log s) (cache s) rest (observe rsKey n (track s)) (clock s) (at_pc s))
  (* a round of the controller *)
  | step_check : at_pc s = Idle →
      (prompt = true →
       ∀ e, expectations (track s) !! rsKey = Some e → Fulfilled e = false → isExpired (clock s) e = false) →
      step prompt env s (set_pc (Checked (SatisfiedExpectations (clock s) rsKey (expectations (track s)))) s)
  | step_skip b : at_pc s = Checked b → step prompt env s (set_pc Idle s)
  | step_plan rs p : at_pc s = Checked true → lowest ≤ Replicas rs ≤ highest →
      manage_plan burst (listed (cache s)) rs = Ret p →
      step prompt env s (set_pc (match p with PlanCreate n => Creating n | PlanDelete pods => Deleting pods | PlanNothing => Idle end)
                    (set_track (expect_plan (clock s) rsKey p (track s)) s))
  (* creations, in any order and each accepted or refused *)
  | step_create n p : at_pc s = Creating (S n) → PodKey p ∉ used s → mine p → step prompt env s (set_pc (Creating n) (put_pod p s))
  | step_create_refused n : at_pc s = Creating (S n) →
      step prompt env s (set_pc (Creating n) (set_track (on_expectations (CreationObserved rsKey) (track s)) s))
  | step_created : at_pc s = Creating 0 → step prompt env s (set_pc Idle s)
  (* deletions: graceful, at once, of a pod that is being deleted already, refused *)
  | step_delete_graceful l1 p l2 q q' : at_pc s = Deleting (l1 ++ p :: l2) → api s !! PodKey p = Some q →
      PodKey q' = PodKey p → mine q' → DeletionTimestamp q' ≠ None → step prompt env s (set_pc (Deleting (l1 ++ l2)) (put_pod q' s))
  | step_delete_now l1 p l2 q : at_pc s = Deleting (l1 ++ p :: l2) → api s !! PodKey p = Some q → PodKey q = PodKey p →
      step prompt env s (set_pc (Deleting (l1 ++ l2)) (remove_pod q s))
  | step_delete_again l1 p l2 q : at_pc s = Deleting (l1 ++ p :: l2) → api s !! PodKey p = Some q →
      DeletionTimestamp q ≠ None → step prompt env s (set_pc (Deleting (l1 ++ l2)) s)
  | step_delete_refused l1 p l2 : at_pc s = Deleting (l1 ++ p :: l2) →
      step prompt env s (set_pc (Deleting (l1 ++ l2)) (set_track (UID_DeletionObserved rsKey (PodKey p) (track s)) s))
  | step_deleted : at_pc s = Deleting [] → step prompt env s (set_pc Idle s).

(** ** The invariant *)

Definition is_put (k : string) (ev : watch_event) : bool :=
  match ev with EvPut p => bool_decide (PodKey p = k) | EvDelete _ => false end.

Definition puts (l : list watch_event) : gset string :=
  list_to_set (omap (λ ev, match ev with EvPut p => Some (PodKey p) | EvDelete _ => None end) l).

(** Pods of the log that the cache has not seen, and creations that the handlers
    have not been told of yet. *)
Definition unseen (s : state) : gset string := puts (log s) ∖ dom (cache s).
Definition note_adds (l : list pod_notification) : nat :=
  length (filter (λ n, match n with NoteAdd _ => true | _ => false end = true) l).
Definition creating (p : pc) : nat := match p with Creating n => n | _ => 0%nat end.

(** A pod as it is in the cache or will be. *)
Definition version (s : state) (p : Pod) : Prop := EvPut p ∈ log s ∨ cache s !! PodKey p = Some p.

Record informed (s : state) : Prop := {
  inf_api k p : api s !! k = Some p → PodKey p = k ∧ mine p ∧ k ∈ used s;
  inf_cache k p : cache s !! k = Some p → PodKey p = k ∧ mine p ∧ k ∈ used s;
  inf_put p : EvPut p ∈ log s → mine p ∧ PodKey p ∈ used s;
  inf_delete p : EvDelete p ∈ log s → PodKey p ∈ used s ∧ api s !! PodKey p = None;
  inf_last l1 l2 p q : log s = l1 ++ EvDelete p :: l2 → EvPut q ∈ l2 → PodKey q ≠ PodKey p;
  inf_older p pa : version s p → api s !! PodKey p = Some pa → IsPodActive pa = true → IsPodActive p = true;
  inf_dom k p : api s !! k = Some p → k ∈ dom (cache s) ∪ puts (log s)
}.

Record waiting (s : state) : Prop := {
  wait_counted : counted rsKey (track s);
  wait_pending : Z.of_nat (size (unseen s) + note_adds (notes s) + creating (at_pc s)) ≤ adds_of rsKey (track s);
  wait_checked : at_pc s = Checked true → adds_of rsKey (track s) = 0 ∧ uids_of rsKey (track s) = ∅
}.

Definition bounded (s : state) : Prop := Z.of_nat (size (active_keys (api s)) + creating (at_pc s)) ≤ highest.

(** *** Sets of keys *)

Lemma elem_of_puts k l : k ∈ puts l ↔ ∃ p, EvPut p ∈ l ∧ PodKey p = k.
Proof.
  unfold puts. rewrite elem_of_list_to_set, list_elem_of_omap. split.
  - intros ([p|p] & Hin & Heq); [injection Heq as <-; by eauto|done].
  - intros (p & Hin & <-). by exists (EvPut p).
Qed.

Lemma elem_of_active k m : k ∈ active_keys m ↔ ∃ p, m !! k = Some p ∧ IsPodActive p = true.
Proof.
  unfold active_keys. rewrite elem_of_dom. split.
  - intros [p Hp]. apply map_lookup_filter_Some in Hp. by exists p.
  - intros (p & Hp & Ha). exists p. by apply map_lookup_filter_Some.
Qed.

Lemma active_keys_insert k p m : active_keys (<[k := p]> m) ⊆ {[k]} ∪ active_keys m.
Proof.
  intros k'. rewrite elem_of_union, elem_of_singleton, !elem_of_active. intros (q & Hq & Ha).
  apply lookup_insert_Some in Hq as [[<- <-]|[Hne Hq]]; by eauto.
Qed.

Lemma active_keys_insert_inactive k p m :
  (IsPodActive p = true → k ∈ active_keys m) → active_keys (<[k := p]> m) ⊆ active_keys m.
Proof.
  intros Hp k' Hk. pose proof Hk as Hk2. apply elem_of_active in Hk as (q & Hq & Ha).
  apply lookup_insert_Some in Hq as [[<- <-]|[Hne Hq]]; [by apply Hp|]. apply elem_of_active. by eauto.
Qed.

Lemma active_keys_delete k m : active_keys (delete k m) ⊆ active_keys m.
Proof.
  intros k'. rewrite !elem_of_active. intros (q & Hq & Ha). apply lookup_delete_Some in Hq as [_ Hq]. by eauto.
Qed.

(** What the controller lists is what is active in the cache. *)
Lemma listed_eq m : (∀ k p, m !! k = Some p → mine p) →
  listed m = filter (λ p, IsPodActive p = true) (snd <$> map_range m).
Proof.
  intros Hm. unfold listed, FilterActivePods, ListAllByNamespace. f_equal.
  assert (Hall : ∀ p, p ∈ snd <$> map_range m → mine p).
  { intros p Hp. apply list_elem_of_fmap in Hp as ([k q] & -> & Hp). apply elem_of_map_range in Hp. by eapply Hm. }
  rewrite filter_all_true.
  - case_decide; [done|]. apply filter_all_true, Forall_forall. intros p Hp. by apply Hall.
  - apply Forall_forall. intros p Hp. apply Hall. case_decide; [done|]. by apply list_elem_of_filter in Hp as [_ Hp].
Qed.

Lemma listed_elem s p : informed s → p ∈ listed (cache s) ↔ cache s !! PodKey p = Some p ∧ IsPodActive p = true.
Proof.
  intros Hs. rewrite listed_eq by (intros k q Hk; by eapply (inf_cache _ Hs)). rewrite list_elem_of_filter, list_elem_of_fmap.
  split.
  - intros (Ha & [k q] & -> & Hq). apply elem_of_map_range in Hq. simpl in *. by destruct (inf_cache _ Hs k q Hq) as [-> _].
  - intros [Hc Ha]. split; [done|]. exists (PodKey p, p). split; [done|]. by apply elem_of_map_range.
Qed.

Lemma listed_keys s : informed s →
  NoDup (PodKey <$> listed (cache s)) ∧ length (listed (cache s)) = size (active_keys (cache s)).
Proof.
  intros Hs. assert (Hnd : NoDup (PodKey <$> listed (cache s))).
  { rewrite listed_eq by (intros k q Hk; by eapply (inf_cache _ Hs)).
    apply (sublist_NoDup _ (PodKey <$> (snd <$> map_range (cache s)))); [|apply fmap_sublist, sublist_filter].
    rewrite <-list_fmap_compose. erewrite (list_fmap_ext _ fst); [apply NoDup_fst_map_range|].
    intros j [k p] Hj%list_elem_of_lookup_2%elem_of_map_range. simpl. by apply (inf_cache _ Hs). }
  split; [done|]. rewrite <-(length_fmap PodKey), <-(size_list_to_set (C := gset string)) by done. f_equal.
  apply set_eq. intros k. rewrite elem_of_list_to_set, list_elem_of_fmap, elem_of_active. split.
  - intros (p & -> & Hp). apply (listed_elem s p Hs) in Hp. by eauto.
  - intros (p & Hp & Ha). exists p. destruct (inf_cache _ Hs k p Hp) as [<- _]. split; [done|]. by apply listed_elem.
Qed.

(** *** Steps of the API server *)

Lemma version_used s p : informed s → version s p → PodKey p ∈ used s.
Proof. intros Hs [Hp|Hp]; [by apply (inf_put _ Hs)|by apply (inf_cache _ Hs) in Hp as (_ & _ & ?)]. Qed.

Lemma puts_app l1 l2 : puts (l1 ++ l2) = puts l1 ∪ puts l2.
Proof. unfold puts. by rewrite omap_app, list_to_set_app_L. Qed.

(** The last event of a log that has a deletion. *)
Lemma snoc_split (l l1 l2 : list watch_event) ev d :
  l ++ [ev] = l1 ++ d :: l2 → (l2 = [] ∧ ev = d ∧ l = l1) ∨ ∃ l3, l2 = l3 ++ [ev] ∧ l = l1 ++ d :: l3.
Proof.
  destruct l2 as [|y l3 _] using rev_ind; intros Heq.
  - apply app_inj_tail in Heq as [-> ->]. by left.
  - right. rewrite app_comm_cons, app_assoc in Heq. apply app_inj_tail in Heq as [-> ->]. by eauto.
Qed.

(** The log grows by a pod whose key is in use, or is new. *)
Lemma informed_put s p :
  informed s → mine p → (∀ q, api s !! PodKey p = Some q → IsPodActive p = true → IsPodActive q = true) →
  (PodKey p ∉ used s ∨ is_Some (api s !! PodKey p)) → informed (put_pod p s).
Proof.
  intros Hs Hm Ha Hk. split; simpl.
  - intros k q [[<- <-]|[Hne Hq]]%lookup_insert_Some; [split_and!; [done|done|set_solver]|].
    destruct (inf_api _ Hs k q Hq) as (? & ? & ?). split_and!; [done|done|set_solver].
  - intros k q Hq. destruct (inf_cache _ Hs k q Hq) as (? & ? & ?). split_and!; [done|done|set_solver].
  - intros q [Hq|Hq%list_elem_of_singleton]%elem_of_app; [|injection Hq as ->; split; [done|set_solver]].
    destruct (inf_put _ Hs q Hq). split; [done|set_solver].
  - intros q [Hq|Hq%list_elem_of_singleton]%elem_of_app; [|done].
    destruct (inf_delete _ Hs q Hq) as [Hu Hn]. split; [set_solver|]. rewrite lookup_insert_ne; [done|].
    intros Heq. destruct Hk as [Hk|[r Hr]]; [by rewrite Heq in Hk|congruence].
  - intros l1 l2 q r [(_ & ? & _)|(l3 & -> & Hlog)]%snoc_split Hin; [done|].
    apply elem_of_app in Hin as [Hin|Hin%list_elem_of_singleton]; [by eapply (inf_last _ Hs)|]. injection Hin as ->.
    destruct (inf_delete _ Hs q) as [Hu Hn]; [rewrite Hlog; set_solver|]. intros Heq.
    destruct Hk as [Hk|[x Hx]]; [by rewrite Heq in Hk|rewrite <-Heq in Hn; congruence].
  - intros q pa Hv Hq Hact. assert (Hv' : q = p ∨ version s q).
    { destruct Hv as [Hv|Hv]; simpl in Hv; [|by right; right]. apply elem_of_app in Hv as [Hv|Hv%list_elem_of_singleton];
        [by right; left|left; by injection Hv]. }
    apply lookup_insert_Some in Hq as [[Hkq <-]|[Hne Hq]].
    + destruct Hv' as [->|Hv']; [done|]. pose proof (version_used s q Hs Hv') as Hu. rewrite <-Hkq in Hu.
      destruct Hk as [Hk|[x Hx]]; [done|]. apply (inf_older _ Hs q x Hv'); [congruence|by apply Ha].
    + destruct Hv' as [->|Hv']; [done|]. by eapply (inf_older _ Hs).
  - intros k q Hq. rewrite puts_app. apply lookup_insert_Some in Hq as [[<- <-]|[Hne Hq]].
    + apply elem_of_union. right. apply elem_of_union. right. apply elem_of_puts. exists p. set_solver.
    + apply (inf_dom _ Hs) in Hq. set_solver.
Qed.

Lemma informed_remove s p : informed s → api s !! PodKey p = Some p → informed (remove_pod p s).
Proof.
  intros Hs Hp. split; simpl.
  - intros k q [_ Hq]%lookup_delete_Some. by apply (inf_api _ Hs).
  - apply (inf_cache _ Hs).
  - intros q [Hq|Hq%list_elem_of_singleton]%elem_of_app; [by apply (inf_put _ Hs)|done].
  - intros q [Hq|Hq%list_elem_of_singleton]%elem_of_app.
    + destruct (inf_delete _ Hs q Hq). split; [done|]. apply lookup_delete_None. by right.
    + injection Hq as ->. split; [by apply (inf_api _ Hs) in Hp as (_ & _ & ?)|apply lookup_delete_eq].
  - intros l1 l2 q r [(-> & _ & _)|(l3 & -> & Hlog)]%snoc_split Hin; [set_solver|].
    apply elem_of_app in Hin as [Hin|Hin%list_elem_of_singleton]; [by eapply (inf_last _ Hs)|done].
  - intros q pa Hv Hq Hact. apply lookup_delete_Some in Hq as [_ Hq]. apply (inf_older _ Hs q pa); [|done..].
    destruct Hv as [Hv|Hv]; [|by right]. simpl in Hv. apply elem_of_app in Hv as [Hv|Hv%list_elem_of_singleton]; [by left|done].
  - intros k q [_ Hq]%lookup_delete_Some. apply (inf_dom _ Hs) in Hq. rewrite puts_app. set_solver.
Qed.

(** *** Steps of the informer *)

Lemma puts_cons ev l : puts (ev :: l) = puts [ev] ∪ puts l.
Proof. apply (puts_app [ev] l). Qed.

Lemma informed_deliver s ev rest n m :
  informed s → log s = ev :: rest → deliver ev (cache s) = (n, m) →
  informed (mkState (api s) (used s) rest m (notes s ++ [n]) (track s) (clock s) (at_pc s)).
Proof.
  intros Hs Hlog Hd. assert (Hsub : ∀ e, e ∈ rest → e ∈ log s) by (rewrite Hlog; set_solver).
  assert (Hcache : ∀ k q, m !! k = Some q → cache s !! k = Some q ∨ (ev = EvPut q ∧ PodKey q = k)).
  { intros k q Hq. destruct ev as [p|p]; injection Hd as <- <-.
    - apply lookup_insert_Some in Hq as [[<- <-]|[_ Hq]]; by auto.
    - apply lookup_delete_Some in Hq as [_ Hq]. by left. }
  assert (Hver : ∀ q, EvPut q ∈ rest ∨ m !! PodKey q = Some q → version s q).
  { intros q [Hq|Hq]; [left; by apply Hsub|]. destruct (Hcache _ _ Hq) as [?|[-> _]]; [by right|left; rewrite Hlog; set_solver]. }
  split; simpl.
  - apply (inf_api _ Hs).
  - intros k q Hq. destruct (Hcache k q Hq) as [?|[-> <-]]; [by apply (inf_cache _ Hs)|].
    destruct (inf_put _ Hs q); [rewrite Hlog; set_solver|done].
  - intros q Hq. by apply (inf_put _ Hs), Hsub.
  - intros q Hq. by apply (inf_delete _ Hs), Hsub.
  - intros l1 l2 q r Heq. apply (inf_last _ Hs (ev :: l1)). by rewrite Hlog, Heq.
  - intros q pa Hv. by apply (inf_older _ Hs), Hver.
  - intros k q Hq. pose proof (inf_dom _ Hs k q Hq) as Hk. rewrite Hlog, puts_cons in Hk.
    destruct ev as [p|p]; injection Hd as <- <-.
    + unfold puts at 1 in Hk. simpl in Hk. set_solver.
    + destruct (inf_delete _ Hs p) as [_ Hn]; [rewrite Hlog; set_solver|].
      assert (k ≠ PodKey p) by congruence. unfold puts at 1 in Hk. simpl in Hk. set_solver.
Qed.

Lemma relisted_put s p : informed s → EvPut p ∈ relisted s ↔ api s !! PodKey p = Some p.
Proof.
  intros Hs. unfold relisted. rewrite elem_of_app, !list_elem_of_fmap. split.
  - intros [(x & Hx & _)|([k q] & Hx & Hq)]; [done|]. injection Hx as ->. apply elem_of_map_range in Hq.
    simpl in *. by destruct (inf_api _ Hs k q Hq) as [-> _].
  - intros Hp. right. exists (PodKey p, p). split; [done|]. by apply elem_of_map_range.
Qed.

Lemma relisted_delete s p : informed s → EvDelete p ∈ relisted s → cache s !! PodKey p = Some p ∧ api s !! PodKey p = None.
Proof.
  intros Hs. unfold relisted. rewrite elem_of_app, !list_elem_of_fmap.
  intros [([k q] & Hx & Hq)|(x & Hx & _)]; [|done]. injection Hx as ->. apply elem_of_map_range, map_lookup_filter_Some in Hq as [Hq Hn].
  simpl in *. destruct (inf_cache _ Hs k q Hq) as [-> _]. split; [done|]. by apply not_elem_of_dom.
Qed.

Lemma informed_relist s : informed s →
  informed (mkState (api s) (used s) (relisted s) (cache s) (notes s) (track s) (clock s) (at_pc s)).
Proof.
  intros Hs. split; simpl.
  - apply (inf_api _ Hs).
  - apply (inf_cache _ Hs).
  - intros p Hp%relisted_put; [|done]. by destruct (inf_api _ Hs _ p Hp) as (_ & ? & ?).
  - intros p Hp%relisted_delete; [|done]. destruct Hp as [Hc Hn]. by destruct (inf_cache _ Hs _ p Hc) as (_ & _ & ?).
  - intros l1 l2 p q Heq Hin.
    assert (Hq : api s !! PodKey q = Some q) by (apply relisted_put; [done|]; rewrite Heq; set_solver).
    assert (Hp : EvDelete p ∈ relisted s) by (rewrite Heq; set_solver). apply relisted_delete in Hp as [_ Hn]; [|done]. congruence.
  - intros p pa [Hp|Hp] Hpa Ha; simpl in Hp.
    + apply relisted_put in Hp; [|done]. congruence.
    + apply (inf_older _ Hs p pa); [by right|done|done].
  - intros k p Hp. apply elem_of_union. right. apply elem_of_puts. exists p. destruct (inf_api _ Hs k p Hp) as [<- _].
    split; [|done]. by apply relisted_put.
Qed.

Lemma informed_same s s' :
  api s' = api s → used s' = used s → log s' = log s → cache s' = cache s → informed s → informed s'.
Proof.
  intros Ha Hu Hl Hc Hs. split; unfold version; rewrite ?Ha, ?Hu, ?Hl, ?Hc; apply Hs.
Qed.

Lemma inactive_deleted p : DeletionTimestamp p ≠ None → IsPodActive p = false.
Proof. intros Hd. unfold IsPodActive. rewrite (bool_decide_eq_false_2 (DeletionTimestamp p = None)) by done. by rewrite andb_false_r. Qed.

Lemma step_informed prompt env s s' : informed s → step prompt env s s' → informed s'.
Proof.
  intros Hs Hstep. destruct Hstep as [p p' _ _ Hp Hk Hm Ha|p _ Hp|t Ht|ev rest n m Hlog Hd| |n rest Hn|Hpc He|b Hpc|rs pl Hpc Hr Hpl|
    n p Hpc Hnew Hm|n Hpc|Hpc|l1 p l2 q q' Hpc Hq Hk Hm Hdel|l1 p l2 q Hpc Hq Hk|l1 p l2 q Hpc Hq Hdel|l1 p l2 Hpc|Hpc];
    try (by apply (informed_same s)).
  - apply informed_put; [done|done| |right; rewrite Hk; by eauto]. intros q Hq. rewrite Hk, Hp in Hq. by injection Hq as <-.
  - by apply informed_remove.
  - by eapply informed_deliver.
  - by apply informed_relist.
  - apply (informed_same (put_pod p s)); [done..|]. apply informed_put; [done|done| |by left].
    intros q Hq. by apply (inf_api _ Hs) in Hq as (_ & _ & ?).
  - apply (informed_same (put_pod q' s)); [done..|]. apply informed_put; [done|done| |right; rewrite Hk; by eauto].
    intros r _ Hact. by rewrite inactive_deleted in Hact.
  - apply (informed_same (remove_pod q s)); [done..|]. apply informed_remove; [done|]. by rewrite Hk.
Qed.

(** *** Creations are waited for *)

Lemma unseen_put_known s p : informed s → is_Some (api s !! PodKey p) → unseen (put_pod p s) = unseen s.
Proof.
  intros Hs [q Hq]. apply (inf_dom _ Hs) in Hq. unfold unseen. simpl. rewrite puts_app.
  assert (puts [EvPut p] = {[PodKey p]}) as -> by (unfold puts; simpl; set_solver). set_solver.
Qed.

Lemma unseen_put s p : (size (unseen (put_pod p s)) ≤ S (size (unseen s)))%nat.
Proof.
  unfold unseen. simpl. rewrite puts_app. assert (puts [EvPut p] = {[PodKey p]}) as -> by (unfold puts; simpl; set_solver).
  trans (size ({[PodKey p]} ∪ (puts (log s) ∖ dom (cache s)))); [apply subseteq_size; set_solver|].
  pose proof (size_union_alt {[PodKey p]} (puts (log s) ∖ dom (cache s))) as Hsz. rewrite size_singleton in Hsz.
  pose proof (subseteq_size (puts (log s) ∖ dom (cache s) ∖ {[PodKey p]}) (puts (log s) ∖ dom (cache s)) ltac:(set_solver)). lia.
Qed.

Lemma unseen_remove s p : unseen (remove_pod p s) = unseen s.
Proof. unfold unseen. simpl. rewrite puts_app. assert (puts [EvDelete p] = ∅) as -> by done. set_solver. Qed.

Lemma note_adds_app l1 l2 : note_adds (l1 ++ l2) = (note_adds l1 + note_adds l2)%nat.
Proof. unfold note_adds. by rewrite filter_app, length_app. Qed.

Lemma unseen_deliver s ev rest n m :
  informed s → log s = ev :: rest → deliver ev (cache s) = (n, m) →
  (size (puts rest ∖ dom m) + note_adds [n] ≤ size (unseen s))%nat.
Proof.
  intros Hs Hlog Hd. unfold unseen. rewrite Hlog, puts_cons. destruct ev as [p|p]; simpl in Hd.
  - assert (puts [EvPut p] = {[PodKey p]}) as -> by (unfold puts; simpl; set_solver).
    destruct (cache s !! PodKey p) as [q|] eqn:Hq; injection Hd as <- <-; unfold note_adds; simpl.
    + rewrite Nat.add_0_r. apply subseteq_size. rewrite dom_insert_L. set_solver.
    + apply not_elem_of_dom in Hq.
      assert (PodKey p ∉ puts rest ∖ dom (<[PodKey p := p]> (cache s))) by (rewrite dom_insert_L; set_solver).
      pose proof (size_union {[PodKey p]} (puts rest ∖ dom (<[PodKey p := p]> (cache s))) ltac:(set_solver)) as Hsz.
      rewrite size_singleton in Hsz. rewrite Nat.add_1_r. change (S ?n) with (1 + n)%nat. rewrite <-Hsz.
      apply subseteq_size. rewrite dom_insert_L. set_solver.
  - injection Hd as <- <-. unfold note_adds. simpl. rewrite Nat.add_0_r. apply subseteq_size. rewrite dom_delete_L.
    assert (PodKey p ∉ puts rest); [|set_solver]. intros (q & Hq & Heq)%elem_of_puts. by apply (inf_last _ Hs [] rest p q).
Qed.

Lemma unseen_relist s : informed s → puts (relisted s) ∖ dom (cache s) ⊆ unseen s.
Proof.
  intros Hs k [Hk Hc]%elem_of_difference. apply elem_of_puts in Hk as (p & Hp & <-). apply relisted_put in Hp; [|done].
  apply (inf_dom _ Hs) in Hp. unfold unseen. set_solver.
Qed.

(** What the handlers do to the counters. *)
Lemma observe_waiting n u :
  counted rsKey u → Z.of_nat (note_adds [n]) ≤ adds_of rsKey u →
  let u' := observe rsKey n u in
  counted rsKey u' ∧ adds_of rsKey u ≤ adds_of rsKey u' + Z.of_nat (note_adds [n]) ∧ adds_of rsKey u' ≤ adds_of rsKey u ∧
  uids_of rsKey u' ⊆ uids_of rsKey u.
Proof.
  intros Hc Hn. assert (Hdel : ∀ k, let u' := UID_DeletionObserved rsKey k u in
    counted rsKey u' ∧ adds_of rsKey u' = adds_of rsKey u ∧ uids_of rsKey u' ⊆ uids_of rsKey u).
  { intros k. cbn zeta. destruct (deletion_observed_of rsKey k u Hc) as (? & ? & ->). split_and!; [done|done|set_solver]. }
  destruct n as [p|p q|p]; unfold note_adds in *; simpl in *.
  - destruct (DeletionTimestamp p); [destruct (Hdel (PodKey p)) as (? & ? & ?); split_and!; [done|lia|lia|done]|].
    destruct (creation_observed_of rsKey u Hc) as (? & ? & ->); [lia|]. split_and!; [done|lia|lia|done].
  - case_decide; [split_and!; [done|lia|lia|done]|]. destruct (DeletionTimestamp q); [|split_and!; [done|lia|lia|done]].
    destruct (Hdel (PodKey q)) as (? & ? & ?). split_and!; [done|lia|lia|done].
  - destruct (Hdel (PodKey p)) as (? & ? & ?). split_and!; [done|lia|lia|done].
Qed.

Lemma waiting_keep s s' :
  waiting s → track s' = track s → (at_pc s' = Checked true → at_pc s = Checked true) →
  (size (unseen s') + note_adds (notes s') + creating (at_pc s') ≤ size (unseen s) + note_adds (notes s) + creating (at_pc s))%nat →
  waiting s'.
Proof.
  intros [Hc Hp Hch] Ht Hpc Hle. split; rewrite Ht; [done|lia|]. intros Hpc2%Hpc. by apply Hch.
Qed.

Lemma bounded_keep s s' :
  bounded s → active_keys (api s') ⊆ active_keys (api s) → (creating (at_pc s') ≤ creating (at_pc s))%nat → bounded s'.
Proof. unfold bounded. intros Hb Hsub%subseteq_size Hle. lia. Qed.

Lemma active_cached s : informed s → unseen s = ∅ → active_keys (api s) ⊆ active_keys (cache s).
Proof.
  intros Hs Hun k. rewrite !elem_of_active. intros (p & Hp & Ha).
  pose proof (inf_dom _ Hs k p Hp) as Hk. assert (Hc : k ∈ dom (cache s)) by (unfold unseen in Hun; set_solver).
  apply elem_of_dom in Hc as [q Hq]. exists q. split; [done|]. destruct (inf_cache _ Hs k q Hq) as [<- _].
  apply (inf_older _ Hs q p); [by right|done|done].
Qed.

Lemma waiting_plan s rs p :
  informed s → waiting s → bounded s → at_pc s = Checked true → lowest ≤ Replicas rs ≤ highest →
  manage_plan burst (listed (cache s)) rs = Ret p →
  let s' := set_pc (match p with PlanCreate n => Creating n | PlanDelete pods => Deleting pods | PlanNothing => Idle end)
              (set_track (expect_plan (clock s) rsKey p (track s)) s) in
  waiting s' ∧ bounded s'.
Proof.
  intros Hs Hw Hb Hpc Hr Hplan. cbn zeta. destruct Hw as [Hc Hp Hch]. destruct (Hch Hpc) as [Ha Hu].
  assert (Hun : unseen s = ∅) by (apply leibniz_equiv, size_empty_inv; lia).
  pose proof (subseteq_size _ _ (active_cached s Hs Hun)) as Hact. pose proof (listed_keys s Hs) as [Hnd Hlen].
  destruct (manage_plan_spec burst (listed (cache s)) rs) as (p' & Hp' & Hspec); [lia|lia|]. rewrite Hplan in Hp'.
  injection Hp' as <-. unfold bounded in *. rewrite Hpc in *. simpl in *. rewrite Nat.add_0_r in *.
  destruct p as [n|gone|]; simpl.
  - destruct (expect_creations_of (clock s) rsKey (Z.of_nat n) (track s)) as (Ha' & Hd' & Hu'). simpl in Ha', Hd', Hu'.
    split; [split; simpl; [split; rewrite ?Ha', ?Hd', ?Hu', ?Hu, ?size_empty; lia| |done]|]; [|lia].
    unfold unseen in *. simpl. rewrite Hun, Ha', size_empty. lia.
  - destruct (expect_deletions_of (clock s) rsKey (PodKey <$> gone) (track s)) as (Ha' & Hd' & Hu'). simpl in Ha', Hd', Hu'.
    destruct Hspec as (_ & Hgone & _).
    assert (Hsize : (size (list_to_set (PodKey <$> gone) : gset string) ≤ length gone)%nat).
    { rewrite <-(length_fmap PodKey). generalize (PodKey <$> gone). clear. intros l. induction l as [|k l IH]; simpl; [done|].
      pose proof (size_union_alt {[k]} (list_to_set l : gset string)) as Hsz. rewrite size_singleton in Hsz.
      pose proof (subseteq_size (list_to_set l ∖ {[k]} : gset string) (list_to_set l) ltac:(set_solver)). lia. }
    split; [split; simpl; [split; rewrite ?Ha', ?Hd', ?Hu'; lia| |done]|]; [|lia].
    unfold unseen in *. simpl. rewrite Hun, Ha', size_empty. lia.
  - split; [split; simpl; [done|unfold unseen in *; simpl; lia|done]|lia].
Qed.

Lemma waiting_check s :
  waiting s → at_pc s = Idle →
  (∀ e, expectations (track s) !! rsKey = Some e → Fulfilled e = false → isExpired (clock s) e = false) →
  waiting (set_pc (Checked (SatisfiedExpectations (clock s) rsKey (expectations (track s)))) s).
Proof.
  intros [Hc Hp Hch] Hpc He. rewrite Hpc in Hp. split; [done|unfold unseen in *; simpl in *; lia|].
  simpl. intros [= Hsat]. destruct (satisfied_inv _ _ _ Hsat He) as [Ha Hd]. pose proof (counted_adds _ _ Hc).
  rewrite (counted_dels _ _ Hc) in Hd. split; [lia|]. apply leibniz_equiv, size_empty_inv. lia.
Qed.

Lemma waiting_observe s n rest :
  waiting s → notes s = n :: rest →
  waiting (mkState (api s) (used s) (log s) (cache s) rest (observe rsKey n (track s)) (clock s) (at_pc s)).
Proof.
  intros [Hc Hp Hch] Hn. rewrite Hn in Hp.
  assert (Hsplit : note_adds (n :: rest) = (note_adds [n] + note_adds rest)%nat) by apply (note_adds_app [n] rest).
  rewrite Hsplit in Hp. destruct (observe_waiting n (track s) Hc) as (Hc' & Hlo & Hhi & Hsub); [lia|].
  split; simpl; [done|unfold unseen in *; simpl; lia|]. intros Hpc. destruct (Hch Hpc) as [Ha Hu].
  pose proof (counted_adds _ _ Hc'). split; [lia|set_solver].
Qed.

Lemma waiting_refused s n :
  waiting s → at_pc s = Creating (S n) →
  waiting (set_pc (Creating n) (set_track (on_expectations (CreationObserved rsKey) (track s)) s)).
Proof.
  intros [Hc Hp _] Hpc. rewrite Hpc in Hp. simpl in Hp.
  destruct (creation_observed_of rsKey (track s) Hc) as (Hc' & Ha & _); [lia|].
  split; [done| |done]. unfold unseen in *. simpl in *. lia.
Qed.

Lemma bounded_create s n p :
  bounded s → at_pc s = Creating (S n) → bounded (set_pc (Creating n) (put_pod p s)).
Proof.
  unfold bounded. intros Hb Hpc. rewrite Hpc in Hb. simpl in *.
  pose proof (subseteq_size _ _ (active_keys_insert (PodKey p) p (api s))) as Hle.
  pose proof (size_union_alt {[PodKey p]} (active_keys (api s))) as Hsz. rewrite size_singleton in Hsz.
  pose proof (subseteq_size (active_keys (api s) ∖ {[PodKey p]}) (active_keys (api s)) ltac:(set_solver)). lia.
Qed.

Lemma step_waiting env s s' :
  informed s → waiting s → bounded s → step true env s s' → waiting s' ∧ bounded s'.
Proof.
  intros Hs Hw Hb Hstep.
  destruct Hstep as [p p' _ _ Hp Hk Hm Ha|p _ Hp|t Ht|ev rest n m Hlog Hd| |n rest Hn|Hpc He|b Hpc|rs pl Hpc Hr Hpl|
    n p Hpc Hnew Hm|n Hpc|Hpc|l1 p l2 q q' Hpc Hq Hk Hm Hdel|l1 p l2 q Hpc Hq Hk|l1 p l2 q Hpc Hq Hdel|l1 p l2 Hpc|Hpc].
  - split; [apply (waiting_keep s)|apply (bounded_keep s)]; try done; simpl.
    + rewrite unseen_put_known; [done|done|rewrite Hk; by eauto].
    + apply active_keys_insert_inactive. intros Hact%Ha. rewrite Hk. apply elem_of_active. by eauto.
  - split; [apply (waiting_keep s)|apply (bounded_keep s)]; try done; simpl; [by rewrite unseen_remove|apply active_keys_delete].
  - split; [by apply (waiting_keep s)|by apply (bounded_keep s)].
  - split; [apply (waiting_keep s)|by apply (bounded_keep s)]; try done. simpl. rewrite note_adds_app.
    pose proof (unseen_deliver s ev rest n m Hs Hlog Hd) as Hle. unfold unseen at 1. simpl. lia.
  - split; [apply (waiting_keep s)|by apply (bounded_keep s)]; try done. simpl.
    pose proof (subseteq_size _ _ (unseen_relist s Hs)). unfold unseen at 1. simpl. lia.
  - split; [by apply waiting_observe|by apply (bounded_keep s)].
  - split; [apply waiting_check; by auto|apply (bounded_keep s); by rewrite ?Hpc].
  - split; [apply (waiting_keep s)|apply (bounded_keep s)]; by rewrite ?Hpc.
  - by eapply waiting_plan.
  - split; [|by apply bounded_create]. apply (waiting_keep s); [done..|]. rewrite Hpc.
    pose proof (unseen_put s p). change (unseen (set_pc (Creating n) (put_pod p s))) with (unseen (put_pod p s)). simpl. lia.
  - split; [by apply waiting_refused|]. apply (bounded_keep s); [done|done|]. rewrite Hpc. simpl. lia.
  - split; [apply (waiting_keep s)|apply (bounded_keep s)]; by rewrite ?Hpc.
  - split; [apply (waiting_keep s)|apply (bounded_keep s)]; try done; rewrite ?Hpc; try done.
    + change (unseen (set_pc _ _)) with (unseen (put_pod q' s)). by rewrite unseen_put_known by (rewrite ?Hk; by eauto).
    + simpl. apply active_keys_insert_inactive. intros Hact. by rewrite inactive_deleted in Hact.
  - split; [apply (waiting_keep s)|apply (bounded_keep s)]; try done; rewrite ?Hpc; try done.
    + change (unseen (set_pc _ _)) with (unseen (remove_pod q s)). by rewrite unseen_remove.
    + apply active_keys_delete.
  - split; [apply (waiting_keep s)|apply (bounded_keep s)]; by rewrite ?Hpc.
  - split; [|apply (bounded_keep s); by rewrite ?Hpc]. destruct Hw as [Hc Hp _]. rewrite Hpc in Hp.
    destruct (deletion_observed_of rsKey (PodKey p) (track s) Hc) as (Hc' & Ha & _).
    split; [done|unfold unseen in *; simpl in *; lia|done].
  - split; [apply (waiting_keep s)|apply (bounded_keep s)]; by rewrite ?Hpc.
Qed.

(** *** Deletions are waited for *)

Definition note_deletes (n : pod_notification) : option string :=
  match n with
  | NoteAdd p | NoteUpdate _ p => match DeletionTimestamp p with Some _ => Some (PodKey p) | None => None end
  | NoteDelete p => Some (PodKey p)
  end.

Definition deleting (p : pc) : list Pod := match p with Deleting l => l | _ => [] end.

(** The pod of a key was deleted for good, and this is in the cache. *)
Definition dead (s : state) (k : string) : Prop :=
  k ∈ used s ∧ k ∉ active_keys (api s) ∧ ∀ p, version s p → PodKey p = k → IsPodActive p = false.

Record kept (s : state) : Prop := {
  kept_alive p : version s p → IsPodActive p = true → PodKey p ∈ active_keys (api s) ∪ uids_of rsKey (track s);
  kept_notes n k : n ∈ notes s → note_deletes n = Some k → dead s k;
  kept_order l1 l2 p q : log s = l1 ++ EvPut p :: l2 → IsPodActive p = false →
    EvPut q ∈ l2 → PodKey q = PodKey p → IsPodActive q = false;
  kept_behind p q : cache s !! PodKey p = Some p → IsPodActive p = false →
    EvPut q ∈ log s → PodKey q = PodKey p → IsPodActive q = false;
  kept_distinct : NoDup (PodKey <$> deleting (at_pc s));
  kept_remaining p : p ∈ deleting (at_pc s) → PodKey p ∈ active_keys (api s) ∩ uids_of rsKey (track s);
  kept_total : lowest + Z.of_nat (length (deleting (at_pc s))) ≤ Z.of_nat (size (active_keys (api s)))
}.

Lemma version_put s p q : version (put_pod p s) q → q = p ∨ version s q.
Proof.
  intros [Hq|Hq]; simpl in Hq; [|right; by right].
  apply elem_of_app in Hq as [Hq|Hq%list_elem_of_singleton]; [right; by left|left; by injection Hq].
Qed.

Lemma version_remove s p q : version (remove_pod p s) q → version s q.
Proof.
  intros [Hq|Hq]; simpl in Hq; [|by right]. apply elem_of_app in Hq as [Hq|Hq%list_elem_of_singleton]; [by left|done].
Qed.

(** Orders of the log when it grows. *)
Lemma order_snoc (l l1 l2 : list watch_event) ev p q :
  (∀ l1 l2 p q, l = l1 ++ EvPut p :: l2 → IsPodActive p = false → EvPut q ∈ l2 → PodKey q = PodKey p → IsPodActive q = false) →
  (∀ p q, EvPut p ∈ l → IsPodActive p = false → ev = EvPut q → PodKey q = PodKey p → IsPodActive q = false) →
  l ++ [ev] = l1 ++ EvPut p :: l2 → IsPodActive p = false → EvPut q ∈ l2 → PodKey q = PodKey p → IsPodActive q = false.
Proof.
  intros Hl Hev [(-> & _ & _)|(l3 & -> & Heq)]%snoc_split Hp Hq Hk; [set_solver|].
  apply elem_of_app in Hq as [Hq|Hq%list_elem_of_singleton]; [by eapply Hl|].
  apply (Hev p q); [rewrite Heq; set_solver|done..].
Qed.

Lemma kept_create s n p :
  informed s → kept s → at_pc s = Creating (S n) → PodKey p ∉ used s → kept (set_pc (Creating n) (put_pod p s)).
Proof.
  intros Hs Hk Hpc Hnew.
  assert (Hne : ∀ q, version s q → PodKey q ≠ PodKey p) by (intros q Hq ?; pose proof (version_used s q Hs Hq); congruence).
  assert (Hact : ∀ k, k ∈ active_keys (<[PodKey p := p]> (api s)) ↔ (k = PodKey p ∧ IsPodActive p = true) ∨ k ∈ active_keys (api s)).
  { intros k. rewrite !elem_of_active. split.
    - intros (q & [[<- <-]|[? Hq]]%lookup_insert_Some & Ha); [by left|right; by eauto].
    - intros [[-> Ha]|(q & Hq & Ha)]; [exists p; by rewrite lookup_insert_eq|]. exists q. rewrite lookup_insert_ne; [done|].
      intros <-. by apply (inf_api _ Hs) in Hq as (_ & _ & ?). }
  split; simpl.
  - intros q Hq Ha. apply version_put in Hq as [->|Hq]; [apply elem_of_union; left; apply Hact; by left|].
    apply (kept_alive _ Hk) in Hq; [|done]. apply elem_of_union in Hq as [Hq|Hq]; apply elem_of_union; [left; apply Hact; by right|by right].
  - intros m k Hm Hdel. destruct (kept_notes _ Hk m k Hm Hdel) as (Hu & Hna & Hv). split_and!; simpl.
    + set_solver.
    + intros [[-> _]|?]%Hact; done.
    + intros q Hq Hqk. apply version_put in Hq as [->|Hq]; [congruence|by apply Hv].
  - intros l1 l2 q r. apply order_snoc; [apply (kept_order _ Hk)|]. intros q' r' Hq' _ [= <-] Heq.
    exfalso. by apply (Hne q'); [left|].
  - intros q r Hq Ha [Hr|Hr%list_elem_of_singleton]%elem_of_app Heq; [by eapply (kept_behind _ Hk)|]. injection Hr as ->.
    exfalso. by apply (Hne q); [right|].
  - constructor.
  - intros q Hq. by apply not_elem_of_nil in Hq.
  - pose proof (kept_total _ Hk) as Ht. rewrite Hpc in Ht. simpl in Ht.
    pose proof (subseteq_size (active_keys (api s)) (active_keys (<[PodKey p := p]> (api s))) ltac:(intros k ?; apply Hact; by right)). lia.
Qed.

(** A deletion that was accepted: its key is expected. *)
Lemma kept_gone s s1 l1 p l2 ev :
  kept s → at_pc s = Deleting (l1 ++ p :: l2) → at_pc s1 = Deleting (l1 ++ l2) →
  active_keys (api s1) = active_keys (api s) ∖ {[PodKey p]} → used s ⊆ used s1 →
  log s1 = log s ++ [ev] → (∀ r, ev = EvPut r → IsPodActive r = false) →
  cache s1 = cache s → notes s1 = notes s → track s1 = track s → kept s1.
Proof.
  intros Hk Hpc Hpc1 Hact Hused Hlog Hev Hcache Hnotes Htrack.
  assert (Hver : ∀ q, version s1 q → IsPodActive q = true → version s q).
  { intros q [Hq|Hq] Ha; [|right; by rewrite <-Hcache]. rewrite Hlog in Hq.
    apply elem_of_app in Hq as [Hq|Hq%list_elem_of_singleton]; [by left|]. rewrite (Hev q) in Ha by done. done. }
  pose proof (kept_distinct _ Hk) as Hnd. rewrite Hpc in Hnd. simpl in Hnd. rewrite fmap_app, fmap_cons in Hnd.
  apply NoDup_app in Hnd as (Hnd1 & Hsep & Hnd2). apply NoDup_cons in Hnd2 as [Hp2 Hnd2].
  assert (Hp : PodKey p ∈ active_keys (api s) ∩ uids_of rsKey (track s)) by (apply (kept_remaining _ Hk); rewrite Hpc; simpl; set_solver).
  split; rewrite ?Hpc1, ?Htrack; simpl.
  - intros q Hq Ha. apply (kept_alive _ Hk q (Hver q Hq Ha)) in Ha. rewrite Hact. destruct (decide (PodKey q = PodKey p)) as [->|?]; set_solver.
  - intros n k Hn Hdel. rewrite Hnotes in Hn. destruct (kept_notes _ Hk n k Hn Hdel) as (Hu & Hna & Hv).
    split_and!; [set_solver|rewrite Hact; set_solver|]. intros q Hq Hqk. destruct (IsPodActive q) eqn:Ha; [|done].
    by rewrite (Hv q (Hver q Hq Ha) Hqk) in Ha.
  - rewrite Hlog. intros m1 m2 q r. apply order_snoc; [apply (kept_order _ Hk)|]. intros q' r' _ _ Hr _. by apply Hev.
  - rewrite Hlog, Hcache. intros q r Hq Ha [Hr|Hr%list_elem_of_singleton]%elem_of_app Heq; [by eapply (kept_behind _ Hk)|by apply Hev].
  - rewrite fmap_app. apply NoDup_app. split_and!; [done| |done]. intros k Hk1 Hk2. apply (Hsep k Hk1). by right.
  - intros q Hq. assert (PodKey q ≠ PodKey p).
    { intros Heq. apply elem_of_app in Hq as [Hq|Hq].
      - apply (Hsep (PodKey p)); [rewrite <-Heq; by apply list_elem_of_fmap_2|by left].
      - apply Hp2. rewrite <-Heq. by apply list_elem_of_fmap_2. }
    assert (PodKey q ∈ active_keys (api s) ∩ uids_of rsKey (track s)) by (apply (kept_remaining _ Hk); rewrite Hpc; simpl; set_solver).
    rewrite Hact. set_solver.
  - pose proof (kept_total _ Hk) as Ht. rewrite Hpc in Ht. simpl in Ht. rewrite length_app in *. simpl in Ht. rewrite Hact.
    rewrite size_difference by set_solver. rewrite size_singleton. lia.
Qed.

Lemma active_keys_remove k m : active_keys (delete k m) = active_keys m ∖ {[k]}.
Proof.
  apply set_eq. intros k'. rewrite elem_of_difference, elem_of_singleton, !elem_of_active. split.
  - intros (q & Hq & Ha). apply lookup_delete_Some in Hq as [? Hq]. split; [by eauto|done].
  - intros [(q & Hq & Ha) Hne]. exists q. by rewrite lookup_delete_ne.
Qed.

Lemma active_keys_stop k p m : IsPodActive p = false → active_keys (<[k := p]> m) = active_keys m ∖ {[k]}.
Proof.
  intros Hp. apply set_eq. intros k'. rewrite elem_of_difference, elem_of_singleton, !elem_of_active. split.
  - intros (q & Hq & Ha). apply lookup_insert_Some in Hq as [[<- <-]|[? Hq]]; [congruence|]. split; [by eauto|done].
  - intros [(q & Hq & Ha) Hne]. exists q. by rewrite lookup_insert_ne.
Qed.

(** Steps that leave pods, log and cache alone. *)
Lemma kept_same s s' :
  kept s → api s' = api s → used s' = used s → log s' = log s → cache s' = cache s →
  (∀ n, n ∈ notes s' → n ∈ notes s) → 
  (∀ p, version s p → IsPodActive p = true → PodKey p ∈ active_keys (api s) ∪ uids_of rsKey (track s')) →
  NoDup (PodKey <$> deleting (at_pc s')) →
  (∀ p, p ∈ deleting (at_pc s') → PodKey p ∈ active_keys (api s) ∩ uids_of rsKey (track s')) →
  lowest + Z.of_nat (length (deleting (at_pc s'))) ≤ Z.of_nat (size (active_keys (api s))) → kept s'.
Proof.
  intros Hk Ha Hu Hl Hc Hn Hv Hd Hr Ht.
  split; unfold version, dead in *; rewrite ?Ha, ?Hu, ?Hl, ?Hc; try done.
  - intros n k Hin Hdel. pose proof (kept_notes _ Hk n k (Hn n Hin) Hdel) as Hdead. unfold dead, version in *. by rewrite ?Ha, ?Hu, ?Hl, ?Hc.
  - apply (kept_order _ Hk).
  - apply (kept_behind _ Hk).
Qed.

Lemma kept_deliver s ev rest n m :
  informed s → kept s → log s = ev :: rest → deliver ev (cache s) = (n, m) →
  kept (mkState (api s) (used s) rest m (notes s ++ [n]) (track s) (clock s) (at_pc s)).
Proof.
  intros Hs Hk Hlog Hd. set (s' := mkState _ _ _ _ _ _ _ _). assert (Hsub : ∀ e, e ∈ rest → e ∈ log s) by (rewrite Hlog; set_solver).
  assert (Hcache : ∀ q, m !! PodKey q = Some q → cache s !! PodKey q = Some q ∨ ev = EvPut q).
  { intros q Hq. destruct ev as [p|p]; injection Hd as <- <-.
    - apply lookup_insert_Some in Hq as [[_ <-]|[_ Hq]]; by auto.
    - apply lookup_delete_Some in Hq as [_ Hq]. by left. }
  assert (Hver : ∀ q, version s' q → version s q).
  { intros q [Hq|Hq]; [left; by apply Hsub|]. destruct (Hcache _ Hq) as [?| ->]; [by right|left; rewrite Hlog; set_solver]. }
  assert (Hrest : ∀ p q, ev = EvPut p → IsPodActive p = false → EvPut q ∈ rest → PodKey q = PodKey p → IsPodActive q = false).
  { intros p q -> Hp Hq Heq. by apply (kept_order _ Hk [] rest p q). }
  split; simpl; try apply Hk.
  - intros q Hq. by apply (kept_alive _ Hk), Hver.
  - intros n' k [Hn'|Hn'%list_elem_of_singleton]%elem_of_app Hdel.
    { destruct (kept_notes _ Hk n' k Hn' Hdel) as (Hu & Hna & Hv). split_and!; [done|done|]. intros q Hq. by apply Hv, Hver. }
    subst n'. destruct ev as [p|p]; simpl in Hd.
    + assert (DeletionTimestamp p ≠ None ∧ k = PodKey p ∧ m = <[PodKey p := p]> (cache s)) as (Hdt & -> & ->).
      { destruct (cache s !! PodKey p); injection Hd as <- <-; simpl in Hdel; destruct (DeletionTimestamp p); by simplify_eq. }
      pose proof (inactive_deleted p Hdt) as Hina. assert (Hin : EvPut p ∈ log s) by (rewrite Hlog; set_solver).
      split_and!; [by apply (inf_put _ Hs)| |].
      * intros (pa & Hpa & Ha)%elem_of_active. by rewrite (inf_older _ Hs p pa (or_introl Hin) Hpa Ha) in Hina.
      * intros q [Hq|Hq] Heq; simpl in Hq; [by apply (Hrest p q)|]. rewrite Heq, lookup_insert_eq in Hq. congruence.
    + injection Hd as <- <-. injection Hdel as <-. destruct (inf_delete _ Hs p) as [Hu Hn]; [rewrite Hlog; set_solver|].
      split_and!; [done| |].
      * intros (pa & Hpa & _)%elem_of_active. simpl in Hpa. congruence.
      * intros q [Hq|Hq] Heq; simpl in Hq; [by destruct (inf_last _ Hs [] rest p q)|]. rewrite Heq, lookup_delete_eq in Hq. done.
  - intros l1 l2 p q Heq. apply (kept_order _ Hk (ev :: l1)). by rewrite Hlog, Heq.
  - intros p q Hp Ha Hq Heq. destruct (Hcache p Hp) as [Hc| ->]; [|by apply (Hrest p q)].
    apply (kept_behind _ Hk p q); [done|done|by apply Hsub|done].
Qed.

Lemma kept_relist s : informed s → kept s →
  kept (mkState (api s) (used s) (relisted s) (cache s) (notes s) (track s) (clock s) (at_pc s)).
Proof.
  intros Hs Hk. assert (Hput : ∀ p, EvPut p ∈ relisted s → api s !! PodKey p = Some p) by (intros p Hp; by apply relisted_put).
  split; simpl; try apply Hk.
  - intros p [Hp|Hp] Ha; simpl in Hp; [|apply (kept_alive _ Hk); [by right|done]].
    apply elem_of_union. left. apply elem_of_active. exists p. split; [by apply Hput|done].
  - intros n k Hn Hdel. destruct (kept_notes _ Hk n k Hn Hdel) as (Hu & Hna & Hv). split_and!; [done|done|].
    intros p [Hp|Hp] <-; simpl in Hp; [|apply Hv; [by right|done]]. destruct (IsPodActive p) eqn:Ha; [|done].
    exfalso. apply Hna, elem_of_active. exists p. split; [by apply Hput|done].
  - intros l1 l2 p q Heq Ha Hq Hqp. assert (Hp : EvPut p ∈ relisted s) by (rewrite Heq; set_solver).
    assert (Hq' : EvPut q ∈ relisted s) by (rewrite Heq; set_solver). apply Hput in Hp, Hq'. congruence.
  - intros p q Hp Ha Hq Heq. apply Hput in Hq. destruct (IsPodActive q) eqn:Haq; [|done]. rewrite Heq in Hq.
    by rewrite (inf_older _ Hs p q (or_intror Hp) Hq Haq) in Ha.
Qed.

(** A handler takes off at most the key whose deletion it is told of. *)
Lemma observe_uids n u k : counted rsKey u → k ∈ uids_of rsKey u → k ∉ uids_of rsKey (observe rsKey n u) → note_deletes n = Some k.
Proof.
  intros Hc Hin. assert (Hobs : ∀ k', k ∉ uids_of rsKey (UID_DeletionObserved rsKey k' u) → k = k').
  { intros k'. destruct (deletion_observed_of rsKey k' u Hc) as (_ & _ & ->). intros Hn. destruct (decide (k = k')); [done|]. exfalso. apply Hn. set_solver. }
  destruct n as [p|p q|p]; simpl.
  - destruct (DeletionTimestamp p); [by intros ->%Hobs|]. unfold uids_of in *. by intros [].
  - case_decide; [by intros []|]. destruct (DeletionTimestamp q); [by intros ->%Hobs|by intros []].
  - by intros ->%Hobs.
Qed.

Lemma kept_observe s n rest :
  waiting s → kept s → notes s = n :: rest →
  kept (mkState (api s) (used s) (log s) (cache s) rest (observe rsKey n (track s)) (clock s) (at_pc s)).
Proof.
  intros Hw Hk Hn. pose proof (wait_counted _ Hw) as Hc.
  assert (Hdead : ∀ k, note_deletes n = Some k → dead s k) by (intros k; apply (kept_notes _ Hk n k); rewrite Hn; set_solver).
  apply (kept_same s); simpl; try done; try apply Hk.
  - rewrite Hn. set_solver.
  - intros p Hp Ha. pose proof (kept_alive _ Hk p Hp Ha) as Hin. destruct (decide (PodKey p ∈ active_keys (api s))); [set_solver|].
    destruct (decide (PodKey p ∈ uids_of rsKey (observe rsKey n (track s)))) as [|Hno]; [set_solver|]. exfalso.
    destruct (Hdead (PodKey p)) as (_ & _ & Hv); [apply (observe_uids n (track s)); [done|set_solver|done]|].
    by rewrite (Hv p Hp eq_refl) in Ha.
  - intros p Hp. apply (kept_remaining _ Hk) in Hp.
    destruct (decide (PodKey p ∈ uids_of rsKey (observe rsKey n (track s)))) as [|Hno]; [set_solver|]. exfalso.
    destruct (Hdead (PodKey p)) as (_ & Hna & _); [apply (observe_uids n (track s)); [done|set_solver|done]|]. set_solver.
Qed.

Lemma kept_refused s l1 p l2 :
  waiting s → kept s → at_pc s = Deleting (l1 ++ p :: l2) →
  kept (set_pc (Deleting (l1 ++ l2)) (set_track (UID_DeletionObserved rsKey (PodKey p) (track s)) s)).
Proof.
  intros Hw Hk Hpc. destruct (deletion_observed_of rsKey (PodKey p) (track s) (wait_counted _ Hw)) as (_ & _ & Hu).
  assert (Hp : PodKey p ∈ active_keys (api s)).
  { assert (p ∈ deleting (at_pc s)) as Hin by (rewrite Hpc; simpl; set_solver). apply (kept_remaining _ Hk) in Hin. set_solver. }
  pose proof (kept_distinct _ Hk) as Hnd. pose proof (kept_total _ Hk) as Ht. rewrite Hpc in Hnd, Ht. simpl in Hnd, Ht.
  rewrite fmap_app, fmap_cons in Hnd. apply NoDup_app in Hnd as (Hnd1 & Hsep & Hnd2). apply NoDup_cons in Hnd2 as [Hp2 Hnd2].
  apply (kept_same s); simpl; try done; try apply Hk; rewrite ?Hu.
  - intros q Hq Ha. pose proof (kept_alive _ Hk q Hq Ha). destruct (decide (PodKey q = PodKey p)) as [->|?]; set_solver.
  - rewrite fmap_app. apply NoDup_app. split_and!; [done| |done]. intros k Hk1 Hk2. apply (Hsep k Hk1). by right.
  - intros q Hq. assert (PodKey q ≠ PodKey p).
    { intros Heq. apply elem_of_app in Hq as [Hq|Hq].
      - apply (Hsep (PodKey p)); [rewrite <-Heq; by apply list_elem_of_fmap_2|by left].
      - apply Hp2. rewrite <-Heq. by apply list_elem_of_fmap_2. }
    assert (PodKey q ∈ active_keys (api s) ∩ uids_of rsKey (track s)) by (apply (kept_remaining _ Hk); rewrite Hpc; simpl; set_solver).
    set_solver.
  - rewrite length_app in *. simpl in Ht. lia.
Qed.

Lemma kept_plan s rs p :
  informed s → waiting s → kept s → at_pc s = Checked true → lowest ≤ Replicas rs ≤ highest →
  manage_plan burst (listed (cache s)) rs = Ret p →
  kept (set_pc (match p with PlanCreate n => Creating n | PlanDelete pods => Deleting pods | PlanNothing => Idle end)
          (set_track (expect_plan (clock s) rsKey p (track s)) s)).
Proof.
  intros Hs Hw Hk Hpc Hr Hplan. destruct (wait_checked _ Hw Hpc) as [_ Hu].
  assert (Halive : ∀ q, version s q → IsPodActive q = true → PodKey q ∈ active_keys (api s)).
  { intros q Hq Ha. apply (kept_alive _ Hk) in Hq; [|done]. rewrite Hu in Hq. set_solver. }
  pose proof (kept_total _ Hk) as Ht. rewrite Hpc in Ht. simpl in Ht. destruct (listed_keys s Hs) as [Hnd Hlen].
  destruct (manage_plan_spec burst (listed (cache s)) rs) as (p' & Hp' & Hspec); [lia|lia|]. rewrite Hplan in Hp'. injection Hp' as <-.
  destruct p as [n|gone|]; apply (kept_same s); simpl; try done; try (by intros q Hq Ha; apply elem_of_union; left; apply Halive);
    try (by constructor); try (by intros q Hq; apply not_elem_of_nil in Hq).
  - destruct Hspec as (_ & _ & kept' & Hperm & _). apply (fmap_Permutation PodKey) in Hperm. rewrite Hperm, fmap_app in Hnd.
    by apply NoDup_app in Hnd as [? _].
  - destruct Hspec as (_ & _ & kept' & Hperm & _). intros q Hq.
    assert (Hlq : q ∈ listed (cache s)) by (rewrite Hperm; set_solver). apply (listed_elem s q Hs) in Hlq as [Hc Ha].
    destruct (expect_deletions_of (clock s) rsKey (PodKey <$> gone) (track s)) as (_ & _ & ->).
    apply elem_of_intersection. split; [apply Halive; [by right|done]|]. apply elem_of_list_to_set. by apply list_elem_of_fmap_2.
  - destruct Hspec as (_ & Hgone & _). rewrite Hlen in Hgone.
    assert (Hsub : active_keys (cache s) ⊆ active_keys (api s)).
    { intros k (q & Hq & Ha)%elem_of_active. destruct (inf_cache _ Hs k q Hq) as [<- _]. apply Halive; [by right|done]. }
    apply subseteq_size in Hsub. lia.
Qed.

Lemma kept_round s p u :
  kept s → deleting (at_pc s) = [] → deleting p = [] → uids_of rsKey u = uids_of rsKey (track s) →
  kept (set_pc p (set_track u s)).
Proof.
  intros Hk Hpc Hp Hu. pose proof (kept_total _ Hk) as Ht. rewrite Hpc in Ht.
  apply (kept_same s); simpl; rewrite ?Hp, ?Hu; try done; try apply Hk; [by constructor|]. intros q Hq. by apply not_elem_of_nil in Hq.
Qed.

Lemma set_track_same s : set_track (track s) s = s.
Proof. by destruct s. Qed.

(** A pod changes and stays as active as it was. *)
Lemma kept_change s p p' :
  informed s → kept s → api s !! PodKey p = Some p → PodKey p' = PodKey p → IsPodActive p' = IsPodActive p → kept (put_pod p' s).
Proof.
  intros Hs Hk Hp Hkey Ha.
  assert (Hact : active_keys (api (put_pod p' s)) = active_keys (api s)).
  { apply set_eq. intros k. rewrite !elem_of_active. simpl. rewrite Hkey. split.
    - intros (q & [[<- <-]|[_ Hq]]%lookup_insert_Some & Hq'); [exists p; by rewrite <-Ha|by eauto].
    - intros (q & Hq & Hq'). destruct (decide (k = PodKey p)) as [->|Hne]; [exists p'|exists q].
      + rewrite lookup_insert_eq. split; [done|]. congruence.
      + by rewrite lookup_insert_ne. }
  assert (Hold : ∀ q, version s q → PodKey q = PodKey p' → IsPodActive q = false → IsPodActive p' = false).
  { intros q Hq Heq Hina. destruct (IsPodActive p') eqn:Hp'; [|done].
    rewrite (inf_older _ Hs q p Hq) in Hina; [done|congruence|congruence]. }
  split; rewrite ?Hact; simpl; try apply Hk.
  - intros q Hq Haq. apply version_put in Hq as [->|Hq]; [|by apply (kept_alive _ Hk)].
    apply elem_of_union. left. apply elem_of_active. exists p. rewrite Hkey. split; [done|congruence].
  - intros n k Hn Hdel. destruct (kept_notes _ Hk n k Hn Hdel) as (Hu & Hna & Hv). unfold dead. rewrite Hact.
    split_and!; [simpl; set_solver|done|]. intros q Hq Hqk. apply version_put in Hq as [->|Hq]; [|by apply Hv].
    destruct (IsPodActive p') eqn:Hp'; [|done]. exfalso. apply Hna, elem_of_active. exists p. split; [|congruence].
    by rewrite <-Hqk, Hkey.
  - intros l1 l2 q r. apply order_snoc; [apply (kept_order _ Hk)|]. intros q' r' Hq' Hina [= <-] Heq.
    apply (Hold q'); [by left|done|done].
  - intros q r Hq Hina [Hr|Hr%list_elem_of_singleton]%elem_of_app Heq; [by eapply (kept_behind _ Hk)|]. injection Hr as ->.
    apply (Hold q); [by right|done|done].
Qed.

Lemma step_kept s s' : informed s → waiting s → kept s → step true Harmless s s' → kept s'.
Proof.
  intros Hs Hw Hk Hstep.
  assert (Hround : ∀ p, deleting (at_pc s) = [] → deleting p = [] → kept (set_pc p s)).
  { intros p Hpc Hp. rewrite <-(set_track_same s). by apply kept_round. }
  destruct Hstep as [p p' ? Hsame Hp Hkey Hm Ha|p ? Hp|t Ht|ev rest n m Hlog Hd| |n rest Hn|Hpc He|b Hpc|rs pl Hpc Hr Hpl|
    n p Hpc Hnew Hm|n Hpc|Hpc|l1 p l2 q q' Hpc Hq Hkey Hm Hdel|l1 p l2 q Hpc Hq Hkey|l1 p l2 q Hpc Hq Hdel|l1 p l2 Hpc|Hpc]; [|done|..].
  - apply (kept_change s p); by auto.
  - by apply (kept_same s); try apply Hk.
  - by eapply kept_deliver.
  - by apply kept_relist.
  - by apply kept_observe.
  - apply Hround; by rewrite ?Hpc.
  - apply Hround; by rewrite ?Hpc.
  - by eapply kept_plan.
  - by apply kept_create.
  - apply kept_round; by rewrite ?Hpc.
  - apply Hround; by rewrite ?Hpc.
  - eapply (kept_gone s _ l1 p l2 (EvPut q')); simpl; try done; [|set_solver|intros r [= <-]; by apply inactive_deleted].
    rewrite Hkey. by apply active_keys_stop, inactive_deleted.
  - eapply (kept_gone s _ l1 p l2 (EvDelete q)); simpl; try done. rewrite Hkey. by apply active_keys_remove.
  - exfalso. assert (Hin : p ∈ deleting (at_pc s)) by (rewrite Hpc; simpl; set_solver).
    apply (kept_remaining _ Hk), elem_of_intersection in Hin as [(q2 & Hq2 & Ha)%elem_of_active _].
    assert (q2 = q) as -> by congruence. by rewrite inactive_deleted in Ha.
  - by apply kept_refused.
  - apply Hround; by rewrite ?Hpc.
Qed.

(** ** The theorems *)

(** The controller starts: the cache is up to date and the handlers have been told of
    everything in it. *)
Record started (s : state) : Prop := {
  st_keys k p : api s !! k = Some p → PodKey p = k ∧ mine p;
  st_used : dom (api s) ⊆ used s;
  st_log : log s = [];
  st_cache : cache s = api s;
  st_notes : notes s = [];
  st_track : track s = NewUIDTracking;
  st_idle : at_pc s = Idle
}.

Lemma started_informed s : started s → informed s.
Proof.
  intros [Hk Hu Hl Hc _ _ _]. assert (Hall : ∀ k p, api s !! k = Some p → PodKey p = k ∧ mine p ∧ k ∈ used s).
  { intros k p Hp. destruct (Hk k p Hp). split_and!; [done|done|]. apply Hu, elem_of_dom. by eauto. }
  split; unfold version; rewrite ?Hl, ?Hc; try done.
  - intros p Hp. by apply not_elem_of_nil in Hp.
  - intros p Hp. by apply not_elem_of_nil in Hp.
  - intros l1 l2 p q Heq. by destruct l1.
  - intros p pa [Hp|Hp] Hpa; [by apply not_elem_of_nil in Hp|]. by rewrite Hp in Hpa; injection Hpa as <-.
  - intros k p Hp. apply elem_of_union. left. apply elem_of_dom. by eauto.
Qed.

Lemma started_waiting s : started s → waiting s.
Proof.
  intros [_ _ Hl Hc Hn Ht Hi]. split; rewrite ?Ht, ?Hi, ?Hn; [by split| |done]. unfold unseen. rewrite Hl.
  replace (puts [] ∖ dom (cache s)) with (∅ : gset string) by set_solver. by rewrite size_empty.
Qed.

Lemma started_kept s : started s → lowest ≤ Z.of_nat (size (active_keys (api s))) → kept s.
Proof.
  intros [_ _ Hl Hc Hn _ Hi] Hlow. split; unfold version; rewrite ?Hl, ?Hc, ?Hn, ?Hi; simpl.
  - intros p [Hp|Hp] Ha; [by apply not_elem_of_nil in Hp|]. apply elem_of_union. left. apply elem_of_active. by eauto.
  - intros n k Hin. by apply not_elem_of_nil in Hin.
  - intros l1 l2 p q Heq. by destruct l1.
  - intros p q _ _ Hq. by apply not_elem_of_nil in Hq.
  - constructor.
  - intros p Hp. by apply not_elem_of_nil in Hp.
  - lia.
Qed.

Lemma run_bounded env s s' :
  informed s → waiting s → bounded s → rtc (step true env) s s' → informed s' ∧ waiting s' ∧ bounded s'.
Proof.
  intros Hs Hw Hb Hrun. induction Hrun as [|s1 s2 s3 Hstep Hrun IH]; [done|].
  destruct (step_waiting env s1 s2 Hs Hw Hb Hstep) as [Hw2 Hb2]. apply IH; [by eapply step_informed|done|done].
Qed.


End system.

(** The handlers of the controller change the expectations as [observe] says. *)
Lemma handle_observe `{!MapRange, !SortSort} {C} `{!LRU C} (hash : string → Set_ → Z) n (c : ReplicaSetController C) rs rsKey :
  KeyFunc rs = Ok rsKey →
  (∀ p l, (match n with NoteAdd q | NoteDelete q => p = q | NoteUpdate q r => p = q ∨ p = r end) →
     (getPodReplicaSet hash (rsLister c) p l).1 = Some rs) →
  (match n with NoteUpdate p q => pod_Labels q = pod_Labels p | _ => True end) →
  tracking (handle hash n c) = observe rsKey n (tracking c).
Proof.
  intros Hkey Hlook Hlabels.
  assert (Hdel : ∀ p (c' : ReplicaSetController C), rsLister c' = rsLister c →
    (match n with NoteAdd q | NoteDelete q => p = q | NoteUpdate q r => p = q ∨ p = r end) →
    tracking (deletePod hash (DeletedPod p) c') = UID_DeletionObserved rsKey (PodKey p) (tracking c')).
  { intros p c' Hc' Hp. unfold deletePod, lookup_pod. rewrite Hc'. specialize (Hlook p (lookupCache c') Hp).
    destruct (getPodReplicaSet hash (rsLister c) p (lookupCache c')) as [r l]. simpl in Hlook. subst r.
    rewrite Hkey. unfold enqueueReplicaSet. by rewrite Hkey. }
  destruct n as [p|p q|p]; simpl.
  - unfold ReplicaSetController_addPod, lookup_pod. pose proof (Hlook p (lookupCache c) eq_refl) as Hp.
    destruct (getPodReplicaSet hash (rsLister c) p (lookupCache c)) as [r l]. simpl in Hp. subst r. rewrite Hkey.
    destruct (DeletionTimestamp p); [by apply (Hdel p (set_lookup l c))|]. unfold enqueueReplicaSet. by rewrite Hkey.
  - unfold updatePod. case_decide; [done|]. rewrite (bool_decide_eq_false_2 (pod_Labels q ≠ pod_Labels p)) by naive_solver.
    destruct (DeletionTimestamp q); [apply Hdel; by auto|].
    unfold lookup_pod. pose proof (Hlook q (lookupCache c) (or_intror eq_refl)) as Hq.
    destruct (getPodReplicaSet hash (rsLister c) q (lookupCache c)) as [r l]. simpl in Hq. subst r.
    unfold enqueueReplicaSet, enqueueReplicaSetAfter. rewrite Hkey. by destruct (_ && _).
  - by apply Hdel.
Qed.

(** ** A round of the controller is a run of the system

    The API server is any world in which a call that is accepted has an effect on the
    pods and one that is refused has none, and in which others and the informer may
    act before each call. *)

Section simulation.
Context `{!MapRange, !SortSort} {C W : Type} `{!LRU C, !PodControl W, !RSClient W}.
Context (rsKey ns : string) (selector : Selector) (burst lowest highest : Z) (prompt : bool).

Notation step := (step rsKey ns selector burst lowest highest prompt Anyone).
Notation mine := (mine ns selector).

(** The system when the controller has these expectations and is at this point. *)
Definition view (u : UIDTracking) (p : pc) (s : state) : state := set_pc p (set_track u s).

Definition quiet (s s' : state) : Prop := ∀ u p, rtc step (view u p s) (view u p s').

Definition created (s s' : state) : Prop := ∃ p, PodKey p ∉ used s ∧ mine p ∧ s' = put_pod p s.

Definition removed (k : string) (s s' : state) : Prop :=
  ∃ q, api s !! k = Some q ∧ PodKey q = k ∧
    ((∃ q', PodKey q' = k ∧ mine q' ∧ DeletionTimestamp q' ≠ None ∧ s' = put_pod q' s) ∨
     s' = remove_pod q s ∨ (DeletionTimestamp q ≠ None ∧ s' = s)).

Class PodServer (sys : W → state) : Prop := {
  create_law rs w err w' : CreatePods rs w = (err, w') →
    ∃ s, quiet (sys w) s ∧ match err with None => created s (sys w') | Some _ => sys w' = s end;
  create_ref_law rs ref w err w' : CreatePodsWithControllerRef rs ref w = (err, w') →
    ∃ s, quiet (sys w) s ∧ match err with None => created s (sys w') | Some _ => sys w' = s end;
  delete_law name w err w' : DeletePod ns name w = (err, w') →
    ∃ s, quiet (sys w) s ∧ match err with None => removed (ns +:+ "/" +:+ name) s (sys w') | Some _ => sys w' = s end;
  update_law rs w err w' : UpdateStatus rs w = (err, w') → quiet (sys w) (sys w');
  get_law name w res w' : GetRS ns name w = (res, w') → quiet (sys w) (sys w')
}.

Context (sys : W → state) `{!PodServer sys}.
Context (rs : ReplicaSet) (rs_key : KeyFunc rs = Ok rsKey) (rs_ns : rs_Namespace rs = ns).

Lemma create_loop gc n u w err u' w' :
  run_all (replicate n (create_pod gc rsKey rs)) (u, w) = (err, (u', w')) →
  rtc step (view u (Creating n) (sys w)) (view u' (Creating 0) (sys w')).
Proof.
  revert u w err. induction n as [|n IH]; intros u w err; cbn [replicate run_all]; [by intros [= _ <- <-]|].
  destruct (create_pod gc rsKey rs (u, w)) as [e [u1 w1]] eqn:Hc.
  destruct (run_all (replicate n (create_pod gc rsKey rs)) (u1, w1)) as [e' [u2 w2]] eqn:Hr. intros [= _ <- <-].
  trans (view u1 (Creating n) (sys w1)); [|by eapply IH]. unfold create_pod in Hc.
  destruct (if gc then CreatePodsWithControllerRef rs (controller_ref rs) w else CreatePods rs w) as [err1 w'1] eqn:Hcall.
  assert (∃ s, quiet (sys w) s ∧ match err1 with None => created s (sys w'1) | Some _ => sys w'1 = s end) as (s & Hq & Hs)
    by (destruct gc; [by eapply create_ref_law|by eapply create_law]).
  trans (view u (Creating (S n)) s); [apply Hq|]. apply rtc_once.
  destruct err1 as [e1|]; injection Hc as _ <- <-.
  - rewrite Hs. apply (step_create_refused _ _ _ _ _ _ _ _ (view u (Creating (S n)) s) n). done.
  - destruct Hs as (p & Hu & Hm & ->). by apply (step_create _ _ _ _ _ _ _ _ (view u (Creating (S n)) s) n p).
Qed.

Lemma delete_loop l u w err u' w' :
  Forall (λ p, pod_Namespace p = ns) l →
  run_all (delete_pod rsKey rs <$> l) (u, w) = (err, (u', w')) →
  rtc step (view u (Deleting l) (sys w)) (view u' (Deleting []) (sys w')).
Proof.
  intros Hl. revert u w err. induction Hl as [|p l Hp Hl IH]; intros u w err; [by intros [= _ <- <-]|].
  rewrite fmap_cons. cbn [run_all]. destruct (delete_pod rsKey rs p (u, w)) as [e1 [u1 w1']] eqn:Hd.
  destruct (run_all (delete_pod rsKey rs <$> l) (u1, w1')) as [e' [u2 w2]] eqn:Hr. intros [= _ <- <-].
  trans (view u1 (Deleting l) (sys w1')); [|by eapply IH]. unfold delete_pod in Hd. rewrite rs_ns in Hd.
  destruct (DeletePod ns (pod_Name p) w) as [err1 w1] eqn:Hcall.
  destruct (delete_law (pod_Name p) w err1 w1 Hcall) as (s & Hq & Hs).
  trans (view u (Deleting (p :: l)) s); [apply Hq|]. apply rtc_once.
  assert (Hkey : PodKey p = ns +:+ "/" +:+ pod_Name p) by (unfold PodKey; by rewrite Hp).
  destruct err1 as [e|]; injection Hd as _ <- <-.
  - rewrite Hs. by apply (step_delete_refused _ _ _ _ _ _ _ _ (view u (Deleting (p :: l)) s) [] p l).
  - rewrite <-Hkey in Hs. destruct Hs as (q & Hq' & Hkq & [(q' & Hk' & Hm & Hdt & ->)|[->|[Hdt ->]]]).
    + by apply (step_delete_graceful _ _ _ _ _ _ _ _ (view u (Deleting (p :: l)) s) [] p l q q').
    + by apply (step_delete_now _ _ _ _ _ _ _ _ (view u (Deleting (p :: l)) s) [] p l q).
    + by apply (step_delete_again _ _ _ _ _ _ _ _ (view u (Deleting (p :: l)) s) [] p l q).
Qed.

Lemma quiet_trans s1 s2 s3 : quiet s1 s2 → quiet s2 s3 → quiet s1 s3.
Proof. intros H12 H23 u p. trans (view u p s2); [apply H12|apply H23]. Qed.

Lemma update_status_quiet n st rs' w err w' :
  update_status_loop n st ns rs' w = (err, w') → quiet (sys w) (sys w').
Proof.
  revert rs' w. induction n as [|n IH]; intros rs' w; simpl;
    destruct (UpdateStatus (set_status st rs') w) as [e w1] eqn:Hu; apply update_law in Hu.
  - destruct e; by intros [= _ <-].
  - destruct e as [e|]; [|by intros [= _ <-]]. destruct (GetRS ns (rs_Name rs') w1) as [[rs2|e2] w2] eqn:Hg; apply get_law in Hg.
    + intros Hl%IH. eapply quiet_trans; [done|]. by eapply quiet_trans.
    + intros [= _ <-]. by eapply quiet_trans.
Qed.

Lemma updateReplicaSetStatus_quiet st w err w' :
  updateReplicaSetStatus rs st w = (err, w') → quiet (sys w) (sys w').
Proof.
  unfold updateReplicaSetStatus. case_decide; [intros [= _ <-]; intros u p; apply rtc_refl|]. rewrite rs_ns. apply update_status_quiet.
Qed.

Lemma manage_run gc now u w err u' w' :
  (∀ k p, cache (sys w) !! k = Some p → pod_Namespace p = ns) →
  now = clock (sys w) → lowest ≤ Replicas rs ≤ highest →
  manageReplicas burst gc now (listed ns selector (cache (sys w))) rs (u, w) = Ret (err, (u', w')) →
  rtc step (view u (Checked true) (sys w)) (view u' Idle (sys w')).
Proof.
  intros Hns -> Hr. unfold manageReplicas. rewrite rs_key.
  destruct (manage_plan burst (listed ns selector (cache (sys w))) rs) as [p|] eqn:Hp; [|done]. simpl. intros [= Hrun].
  eapply rtc_l; [by eapply (step_plan _ _ _ _ _ _ _ _ (view u (Checked true) (sys w)) rs p)|]. simpl.
  destruct p as [n|gone|]; simpl in *.
  - eapply rtc_r; [exact (create_loop gc n _ w err u' w' Hrun)|].
    by apply (step_created _ _ _ _ _ _ _ _ (view u' (Creating 0) (sys w'))).
  - eapply rtc_r; [apply (delete_loop gone _ w err u' w'); [|exact Hrun]|].
    + apply Forall_forall. intros p Hin. apply (manage_plan_sublist _ _ _ _ Hp) in Hin.
      unfold listed, FilterActivePods, ListAllByNamespace in Hin. apply list_elem_of_filter in Hin as [_ Hin].
      apply list_elem_of_filter in Hin as [_ Hin]. case_decide; [|by apply list_elem_of_filter in Hin as [? _]].
      apply list_elem_of_fmap in Hin as ([k q] & -> & Hq). apply elem_of_map_range in Hq. by eapply Hns.
    + by apply (step_deleted _ _ _ _ _ _ _ _ (view u' (Deleting []) (sys w'))).
  - injection Hrun as _ <- <-. apply rtc_refl.
Qed.

Context (error_text : api_error → string).

(** With the garbage collector: all pods of the cache are pods of the replica set and
    have it as their controller, so that there are none to adopt or to release. *)
Definition all_owned (pods : gmap string Pod) : Prop :=
  ∀ k p, pods !! k = Some p →
    mine p ∧ ∃ ref, GetControllerOf (OwnerReferences p) = Some ref ∧ or_UID ref = rs_UID rs.

Lemma Classify_owned l :
  Forall (λ p, mine p ∧ ∃ ref, GetControllerOf (OwnerReferences p) = Some ref ∧ or_UID ref = rs_UID rs) l →
  Classify (rs_UID rs) selector l = (FilterActivePods l, [], []).
Proof.
  unfold Classify, FilterActivePods. intros Hl.
  assert (∀ acc, foldl (classify_pod (rs_UID rs) selector) (acc, [], []) l = (acc ++ filter (λ p, IsPodActive p = true) l, [], []))
    as Hacc; [|apply Hacc].
  induction Hl as [|p l [[_ Hm] (ref & Href & Huid)] _ IH]; intros acc; [by rewrite app_nil_r|].
  cbn [foldl]. unfold classify_pod at 2. rewrite filter_cons. destruct (IsPodActive p); simpl; [|by rewrite IH].
  rewrite Href, decide_True, Hm by done. rewrite IH. by rewrite <-(assoc_L (++)).
Qed.

Lemma listed_everything (pods : gmap string Pod) :
  (∀ k p, pods !! k = Some p → mine p) →
  ListAllByNamespace pod_Namespace pod_Labels pods ns Everything = ListAllByNamespace pod_Namespace pod_Labels pods ns selector.
Proof.
  intros Hm. unfold ListAllByNamespace. set (l := if decide _ then _ else _).
  assert (Forall (λ p, Selector_Matches selector (pod_Labels p) = true) l) as Hall.
  { apply Forall_forall. intros p Hp. assert (Hin : p ∈ snd <$> map_range pods).
    { unfold l in Hp. case_decide; [done|]. by apply list_elem_of_filter in Hp as [_ ?]. }
    apply list_elem_of_fmap in Hin as ([k q] & -> & Hq%elem_of_map_range). by eapply Hm. }
  rewrite !filter_all_true; [done|done|by apply Forall_true].
Qed.

(** The pods of a round are those that the system lists. *)
Lemma sync_pods_listed (c : ReplicaSetController C) (w : W) pods :
  podLister c = pods → (garbageCollectorEnabled c = true → all_owned pods) →
  sync_pods rs selector c w = (Ok (listed ns selector pods), w).
Proof.
  intros Hpods Hgc. unfold sync_pods. rewrite Hpods, rs_ns. destruct (garbageCollectorEnabled c); [|done].
  specialize (Hgc eq_refl). rewrite listed_everything by (intros k p Hp; by eapply Hgc).
  rewrite Classify_owned; [by destruct (rs_DeletionTimestamp rs)|]. apply Forall_forall. intros p Hp.
  unfold ListAllByNamespace in Hp. apply list_elem_of_filter in Hp as [_ Hp].
  assert (Hin : p ∈ snd <$> map_range pods) by (case_decide; [done|]; by apply list_elem_of_filter in Hp as [_ ?]).
  apply list_elem_of_fmap in Hin as ([k q] & -> & Hq%elem_of_map_range). by eapply Hgc.
Qed.

End simulation.

(** ** Schedules *)

Inductive action :=
  | DoTime (t : Z) | DoDeliver | DoObserve | DoCheck | DoPlan (rs : ReplicaSet) | DoFinish
  | DoCreate (pod : Pod) | DoRefuse | DoDelete (pod : Pod).

Section schedule.
Context `{!MapRange, !SortSort}.
Context (rsKey ns : string) (selector : Selector) (burst lowest highest : Z) (prompt : bool).

#[local] Instance mine_dec p : Decision (mine ns selector p).
Proof. unfold mine. apply _. Defined.

(** The steps as a function. *)
Definition exec (act : action) (s : state) : option state :=
  match act, at_pc s with
  | DoTime t, _ =>
      if decide (clock s ≤ t)
      then Some (mkState (api s) (used s) (log s) (cache s) (notes s) (track s) t (at_pc s)) else None
  | DoDeliver, _ =>
      match log s with
      | [] => None
      | ev :: rest =>
          let '(n, m) := deliver ev (cache s) in
          Some (mkState (api s) (used s) rest m (notes s ++ [n]) (track s) (clock s) (at_pc s))
      end
  | DoObserve, _ =>
      match notes s with
      | [] => None
      | n :: rest =>
          Some (mkState (api s) (used s) (log s) (cache s) rest (observe rsKey n (track s)) (clock s) (at_pc s))
      end
  | DoCheck, Idle =>
      if forallb (λ e, negb prompt || Fulfilled e || negb (isExpired (clock s) e)) (option_list (expectations (track s) !! rsKey))
      then Some (set_pc (Checked (SatisfiedExpectations (clock s) rsKey (expectations (track s)))) s) else None
  | DoPlan rs, Checked true =>
      if decide (lowest ≤ Replicas rs ≤ highest) then
        match manage_plan burst (listed ns selector (cache s)) rs with
        | Ret p =>
            Some (set_pc (match p with PlanCreate n => Creating n | PlanDelete pods => Deleting pods | PlanNothing => Idle end)
                    (set_track (expect_plan (clock s) rsKey p (track s)) s))
        | Panic _ => None
        end
      else None
  | DoFinish, Checked false | DoFinish, Creating O | DoFinish, Deleting [] => Some (set_pc Idle s)
  | DoCreate p, Creating (S n) =>
      if decide (PodKey p ∉ used s) then
        if decide (mine ns selector p) then Some (set_pc (Creating n) (put_pod p s)) else None
      else None
  | DoRefuse, Creating (S n) =>
      Some (set_pc (Creating n) (set_track (on_expectations (CreationObserved rsKey) (track s)) s))
  | DoRefuse, Deleting (p :: l) =>
      Some (set_pc (Deleting l) (set_track (UID_DeletionObserved rsKey (PodKey p) (track s)) s))
  | DoDelete q, Deleting (p :: l) =>
      if decide (PodKey q = PodKey p) then
        if decide (mine ns selector q) then
          match DeletionTimestamp q, api s !! PodKey p with
          | Some _, Some _ => Some (set_pc (Deleting l) (put_pod q s))
          | _, _ => None
          end
        else None
      else None
  | _, _ => None
  end.

Lemma replica_exec_step env act s s' :
  exec act s = Some s' → step rsKey ns selector burst lowest highest prompt env s s'.
Proof.
  destruct act as [t| | | |rs| |p| |q]; simpl.
  - case_decide; [|done]. intros [= <-]. by apply step_time.
  - destruct (log s) as [|ev rest] eqn:Hl; [done|]. destruct (deliver ev (cache s)) as [n m] eqn:Hd. intros [= <-]. by eapply step_deliver.
  - destruct (notes s) as [|n rest] eqn:Hn; [done|]. intros [= <-]. by apply step_observe.
  - destruct (at_pc s) eqn:Hpc; try done. destruct (forallb _ _) eqn:Hall; [|done]. intros [= <-]. apply step_check; [done|].
    intros -> e He Hf. rewrite He in Hall. simpl in Hall. rewrite Hf in Hall. by destruct (isExpired _ _).
  - destruct (at_pc s) as [|[]|n|l] eqn:Hpc; try done. case_decide; [|done]. destruct (manage_plan _ _ _) as [pl|] eqn:Hp; [|done].
    intros [= <-]. by eapply step_plan.
  - destruct (at_pc s) as [|[]|[|n]|[|p l]] eqn:Hpc; try done; intros [= <-]; [by eapply step_skip|by apply step_created|by apply step_deleted].
  - destruct (at_pc s) as [|[]|[|n]|l] eqn:Hpc; try done. case_decide; [|done]. case_decide; [|done]. intros [= <-]. by apply step_create.
  - destruct (at_pc s) as [|[]|[|n]|[|p l]] eqn:Hpc; try done; intros [= <-]; [by apply step_create_refused|].
    by apply (step_delete_refused _ _ _ _ _ _ _ _ s [] p l).
  - destruct (at_pc s) as [|[]|n|[|p l]] eqn:Hpc; try done. case_decide; [|done]. case_decide; [|done].
    destruct (DeletionTimestamp q) eqn:Hd; [|done]. destruct (api s !! PodKey p) eqn:Ha; [|done]. intros [= <-].
    apply (step_delete_graceful _ _ _ _ _ _ _ _ s [] p l p0 q); [done|done|done|done|congruence].
Qed.

Definition exec_all (acts : list action) (s : state) : option state := foldl (λ s act, s ← s; exec act s) (Some s) acts.

Lemma replica_exec_run env acts s s' :
  exec_all acts s = Some s' → rtc (step rsKey ns selector burst lowest highest prompt env) s s'.
Proof.
  unfold exec_all. revert s. induction acts as [|act acts IH]; intros s; simpl; [intros [= ->]; apply rtc_refl|].
  destruct (exec act s) as [s1|] eqn:He; [intros Hrun; eapply rtc_l; [by eapply replica_exec_step|by apply IH]|].
  assert (Hnone : foldl (λ s act, s ← s; exec act s) None acts = None) by (clear; by induction acts). by rewrite Hnone.
Qed.
End schedule.

Definition web_pods (names : list string) : gmap string Pod :=
  list_to_map ((λ n, (PodKey (web_pod n "1" None), web_pod n "1" None)) <$> names).

Definition web_start (names : list string) (notes : list pod_notification) : state :=
  mkState (web_pods names) (dom (web_pods names)) [] (web_pods names) notes NewUIDTracking 0 Idle.

Notation web_exec lowest highest prompt :=
  (@exec_all canonical_range canonical_sort "default/web" "default" web_selector 500 lowest highest prompt).
Notation web_step lowest highest prompt :=
  (@step canonical_range canonical_sort "default/web" "default" web_selector 500 lowest highest prompt).

(** Scaled up to two and down to one again, with late events, a refused creation and a
    round that is skipped. *)
Definition web_actions : list action :=
  [DoCheck; DoPlan (web_set 2); DoRefuse; DoFinish;
   DoCheck; DoPlan (web_set 2); DoCreate (web_pod "b" "1" None); DoFinish;
   DoCheck; DoFinish; DoDeliver; DoCheck; DoFinish; DoObserve;
   DoCheck; DoPlan (web_set 1); DoDelete (web_pod "a" "2" (Some 30)); DoFinish; DoCheck; DoFinish; DoDeliver; DoObserve; DoCheck].

Definition web_final : state := default (web_start ["a"] []) (web_exec 1 2 true web_actions (web_start ["a"] [])).

Lemma web_run env : rtc (web_step 1 2 true env) (web_start ["a"] []) web_final.
Proof. apply (@replica_exec_run canonical_range canonical_sort _ _ _ _ _ _ _ _ web_actions). vm_compute. reflexivity. Qed.

Lemma web_started notes names : notes = [] → started "default" web_selector (web_start names notes).
Proof.
  intros ->. split; try done. simpl. unfold web_pods. intros k p Hp. apply elem_of_list_to_map_2 in Hp.
  apply list_elem_of_fmap in Hp as (n & Hn & _). injection Hn as -> ->. split; [done|]. split; [done|]. vm_compute. reflexivity.
Qed.



(** The handlers have not been told of a pod of the cache when the first round starts. *)
Definition late_start : state := web_start ["a"] [NoteAdd (web_pod "a" "1" None)].

Definition late_actions : list action :=
  [DoCheck; DoPlan (web_set 2); DoCreate (web_pod "b" "1" None); DoFinish; DoObserve;
   DoCheck; DoPlan (web_set 2); DoCreate (web_pod "c" "1" None); DoFinish].

(** C18. When the controller starts before the handlers have been told of the pods in the
    cache, it can create too many: the pod of the cache is taken for the one that was
    just created.  Two replicas are asked for throughout, and there are three pods. *)
Theorem startup_overshoot :
  ∃ s', rtc (web_step 2 2 true Nobody) late_start s' ∧
    cache late_start = api late_start ∧ log late_start = [] ∧ track late_start = NewUIDTracking ∧
    size (active_keys (api late_start)) = 1%nat ∧ size (active_keys (api s')) = 3%nat.
Proof.
  exists (default late_start (web_exec 2 2 true late_actions late_start)). split_and!; try done.
  apply (@replica_exec_run canonical_range canonical_sort _ _ _ _ _ _ _ _ late_actions). vm_compute. reflexivity.
Qed.

(** A creation is not seen before the expectation of it expires. *)
Definition expired_actions : list action :=
  [DoCheck; DoPlan (web_set 2); DoCreate (web_pod "b" "1" None); DoFinish; DoTime (2 * ExpectationsTimeout);
   DoCheck; DoPlan (web_set 2); DoCreate (web_pod "c" "1" None); DoFinish].

Lemma expired_overshoot :
  ∃ s', rtc (web_step 2 2 false Nobody) (web_start ["a"] []) s' ∧ size (active_keys (api s')) = 3%nat.
Proof.
  exists (default (web_start ["a"] []) (web_exec 2 2 false expired_actions (web_start ["a"] []))). split; [|done].
  apply (@replica_exec_run canonical_range canonical_sort _ _ _ _ _ _ _ _ expired_actions). vm_compute. reflexivity.
Qed.

(** An API server that takes the names of new pods from a list, and deletes at once. *)
Record web_world := mkWebWorld { ws_state : state; ws_names : list string }.

Definition web_create (w : web_world) : option api_error * web_world :=
  match ws_names w with
  | [] => (Some (ErrOther "quota"), w)
  | n :: names =>
      if decide (PodKey (web_pod n "1" None) ∈ used (ws_state w)) then (Some (ErrOther "exists"), mkWebWorld (ws_state w) names)
      else (None, mkWebWorld (put_pod (web_pod n "1" None) (ws_state w)) names)
  end.

#[local] Instance web_control : PodControl web_world := {|
  CreatePods _ := web_create;
  CreatePodsWithControllerRef _ _ := web_create;
  DeletePod ns name w :=
    match api (ws_state w) !! (ns +:+ "/" +:+ name) with
    | Some q =>
        if decide (PodKey q = ns +:+ "/" +:+ name) then (None, mkWebWorld (remove_pod q (ws_state w)) (ws_names w))
        else (Some ErrNotFound, w)
    | None => (Some ErrNotFound, w)
    end;
  PatchPod _ _ _ w := (Some ErrNotFound, w)
|}.

#[local] Instance web_client : RSClient web_world := {|
  UpdateStatus _ w := (None, w);
  GetRS _ _ w := (Err ErrNotFound, w)
|}.

#[local] Existing Instance canonical_range.
#[local] Existing Instance canonical_sort.

#[local] Instance web_server : PodServer "default/web" "default" web_selector 500 1 2 true ws_state.
Proof.
  assert (Hrefl : ∀ s, quiet "default/web" "default" web_selector 500 1 2 true s s) by (intros s u p; apply rtc_refl).
  assert (Hcreate : ∀ w err w', web_create w = (err, w') →
    ∃ s, quiet "default/web" "default" web_selector 500 1 2 true (ws_state w) s ∧
      match err with None => created "default" web_selector s (ws_state w') | Some _ => ws_state w' = s end).
  { intros w err w'. unfold web_create. destruct (ws_names w) as [|n names]; [intros [= <- <-]; by eauto|].
    case_decide; intros [= <- <-]; exists (ws_state w); (split; [done|]); [done|].
    exists (web_pod n "1" None). split_and!; [done| |done]. split; [done|]. vm_compute. reflexivity. }
  split; simpl; [by auto|by auto| |by intros rs w err w' [= _ <-]|by intros name w res w' [= _ <-]].
  intros name w err w'. destruct (api (ws_state w) !! _) as [q|] eqn:Hq; [|intros [= <- <-]; by eauto].
  case_decide as Hk; intros [= <- <-]; exists (ws_state w); (split; [done|]); [|done].
  exists q. split_and!; [done|done|]. right. by left.
Qed.

Definition web_controller : ReplicaSetController unit :=
  mkController 500 false {[ "default/web" := web_set 2 ]} (web_pods ["a"]) tt NewUIDTracking [].

Definition web_synced : ReplicaSetController unit * web_world :=
  match syncReplicaSet (λ _, "") 0 "default/web" web_controller (mkWebWorld (web_start ["a"] []) ["b"]) with
  | Ret (_, r) => r
  | Panic _ => (web_controller, mkWebWorld (web_start ["a"] []) [])
  end.

