(* ===== verification/ReplicaWorker.v ===== *)
(** * The workers of the replica set controller (pkg/controller/replicaset/replica_set.go)

    [processNextWorkItem] over the rate limiting queue, for any handler, and with
    [syncReplicaSet] as the handler; and the calls of the event handlers on the queue.

    Theorem: a round that fails is tried again, and one that succeeds is not unless the
    key was added meanwhile; in both cases the key is free for another worker. *)

From S2P Require Import Prelude Validation Labels Selector MetaSelector ClientStore Workqueue DelayingQueue RateLimiters Expectations ReplicaSet.
Open Scope Z_scope.

Section worker.
Context {Bucket : Type} (Bucket_Take : Bucket → Z * Bucket) (unrepresentable : float64 → Z).

Notation queue_type := (@rateLimitingType string _ _ Bucket).

Definition set_delaying (d : delayingType) (q : queue_type) : queue_type := mkRateLimiting d (rateLimiter q).
Definition inner_of (q : queue_type) : @Queue string _ _ := inner (delaying q).

(** What the event handlers ask of the queue; [None] if the caller blocks. *)
Definition perform_call (now : Z) (abandon_send : bool) (call : queue_call) (q : queue_type) : option queue_type :=
  match call with
  | QueueAdd key => Some (set_delaying (delaying_Add now key (delaying q)) q)
  | QueueAddAfter key after => d ← AddAfter true now key after abandon_send (delaying q); Some (set_delaying d q)
  end.

(** After the handler: forget the failures or count one, and then the deferred Done. *)
Definition finish_item {E : Type} (now : Z) (abandon_send : bool) (key : string) (err : option E) (q : queue_type)
    : option queue_type :=
  q ← match err with
      | None => Some (rateLimiting_Forget key q)
      | Some _ => AddRateLimited Bucket_Take unrepresentable true now key abandon_send q
      end;
  Some (set_delaying (set_inner (Queue_Done now key (inner_of q)).1 (delaying q)) q).

(** [None] while there is nothing to do, or while the queue takes no more. *)
Definition processNextWorkItem {E S : Type} (syncHandler : string → S → outcome (option E * S)) (now : Z)
    (abandon_send : bool) (q : queue_type) (s : S) : option (outcome (bool * (queue_type * S))) :=
  match Queue_Get now (inner_of q) with
  | None => None
  | Some ((_, true), _) => Some (Ret (false, (q, s)))
  | Some ((None, false), _) => None
  | Some ((Some key, false), inner') =>
      let q := set_delaying (set_inner inner' (delaying q)) q in
      match syncHandler key s with
      | Panic msg => Some (Panic msg)
      | Ret (err, s) => q ← finish_item now abandon_send key err q; Some (Ret (true, (q, s)))
      end
  end.

(** The handler of the controller: it does not touch the queue. *)
Definition syncHandler `{!MapRange, !SortSort} {C W} `{!PodControl W, !RSClient W} (error_text : api_error → string)
    (now : Z) (key : string) (s : ReplicaSetController C * W) : outcome (option api_error * (ReplicaSetController C * W)) :=
  syncReplicaSet error_text now key s.1 s.2.

(** ** Lemmas *)

Lemma done_frees now (x : string) q : x ∉ processing (Queue_Done now x q).1.
Proof. unfold Queue_Done. case_decide; simpl; set_solver. Qed.

Lemma done_queues now (x : string) q : x ∈ dirty q → x ∈ queue (Queue_Done now x q).1.
Proof. intros Hx. unfold Queue_Done. rewrite decide_True by done. simpl. set_solver. Qed.

Lemma done_clean now (x : string) q : x ∉ dirty q → queue (Queue_Done now x q).1 = queue q.
Proof. intros Hx. unfold Queue_Done. by rewrite decide_False. Qed.

(** Adding to a queue that is open makes the item dirty. *)
Lemma add_dirty now (x : string) q : shuttingDown q = false → x ∈ dirty (Queue_Add now x q).1.
Proof.
  intros Hs. unfold Queue_Add. rewrite Hs. case_decide; [done|]. case_decide; simpl; set_solver.
Qed.

Lemma rate_limited_retries now abandon key q q' :
  AddRateLimited Bucket_Take unrepresentable true now key abandon q = Some q' →
  shuttingDown (inner_of q) = false → stopCh_closed (delaying q) = false →
  key ∈ dirty (inner_of q') ∨ ∃ t, underway (delaying q') (mkWaitFor key t).
Proof.
  unfold AddRateLimited, inner_of. destruct (When _ _ _ _) as [delay limiter]. intros Hq Hopen Hstop.
  apply bind_Some in Hq as (d & Hd & [= <-]). simpl. revert Hd. unfold AddAfter, Queue_ShuttingDown. rewrite Hopen.
  case_decide; [intros [= <-]; left; simpl; by apply add_dirty|].
  destruct abandon; simpl; [by rewrite Hstop|]. case_decide; [|done]. intros [= <-]. right. exists (now + delay).
  left. simpl. set_solver.
Qed.

Lemma add_keeps_dirty now (x y : string) q : y ∈ dirty q → y ∈ dirty (Queue_Add now x q).1.
Proof. intros Hy. unfold Queue_Add. repeat case_match; simpl; set_solver. Qed.

Lemma rate_limited_keeps_dirty now abandon key q q' x :
  AddRateLimited Bucket_Take unrepresentable true now key abandon q = Some q' →
  x ∈ dirty (inner_of q) → x ∈ dirty (inner_of q').
Proof.
  unfold AddRateLimited, inner_of. destruct (When _ _ _ _) as [delay limiter]. intros Hq Hx.
  apply bind_Some in Hq as (d & Hd & [= <-]). simpl. revert Hd. unfold AddAfter.
  repeat case_match; intros [= <-]; simpl; try done. by apply add_keeps_dirty.
Qed.

(** Forgetting an item resets its count in every limiter. *)
Lemma forget_resets (x : string) : ∀ r : @RateLimiter string _ _ Bucket, NumRequeues x (Forget x r) = 0.
Proof.
  fix IH 1. intros [b|r|r|limiters]; [done| | |].
  - simpl. unfold Exponential_NumRequeues, Exponential_Forget, count_of. simpl. by rewrite lookup_delete_eq.
  - simpl. unfold FastSlow_NumRequeues, FastSlow_Forget, count_of. simpl. by rewrite lookup_delete_eq.
  - simpl. induction limiters as [|r limiters IHl]; [done|]. simpl. rewrite IH. exact IHl.
Qed.

(** C39. When a worker finishes a key, whatever happened to the queue since it took it: the
    key is free for other workers; it is queued again if it was added meanwhile; if the
    round failed it is queued, or waits to be; if it succeeded the failures before are
    forgotten, and nothing is queued otherwise. *)
Theorem failed_round_retried {E : Type} now abandon key (err : option E) q q' :
  shuttingDown (inner_of q) = false → stopCh_closed (delaying q) = false →
  finish_item now abandon key err q = Some q' →
  key ∉ processing (inner_of q') ∧ (key ∈ dirty (inner_of q) → key ∈ queue (inner_of q')) ∧
  match err with
  | Some _ => key ∈ queue (inner_of q') ∨ ∃ t, underway (delaying q') (mkWaitFor key t)
  | None =>
      NumRequeues key (rateLimiter q') = 0 ∧ (key ∉ dirty (inner_of q) → queue (inner_of q') = queue (inner_of q))
  end.
Proof.
  intros Hopen Hstop Hq. apply bind_Some in Hq as (q1 & Hq1 & [= <-]).
  split; [apply done_frees|]. destruct err as [e|].
  - split; [intros Hd; apply done_queues; by eapply rate_limited_keeps_dirty|].
    destruct (rate_limited_retries now abandon key q q1 Hq1 Hopen Hstop) as [Hd|Ht]; [left; by apply done_queues|by right].
  - injection Hq1 as <-. split_and!; [apply done_queues|apply forget_resets|apply done_clean].
Qed.
End worker.

(** A queue with one key, which a worker takes and fails to sync. *)
Definition worker_queue : @rateLimitingType string _ _ unit :=
  let q := NewNamedRateLimitingQueue (DefaultControllerRateLimiter tt) "replicaset" in
  set_delaying (delaying_Add 0 "default/web" (delaying q)) q.

Definition worker_taken : @rateLimitingType string _ _ unit :=
  match Queue_Get 1 (inner_of worker_queue) with
  | Some (_, inner') => set_delaying (set_inner inner' (delaying worker_queue)) worker_queue
  | None => worker_queue
  end.

Definition worker_failed : @rateLimitingType string _ _ unit :=
  default worker_taken (finish_item (λ b, (0, b)) (λ _, 0) 2 false "default/web" (Some tt) worker_taken).

Lemma failed_round_retried_witness :
  processNextWorkItem (λ b, (0, b)) (λ _, 0) (λ _ s, Ret (Some tt, s)) 2 false worker_queue tt ≠ None ∧
  "default/web" ∈ processing (inner_of worker_taken) ∧
  ("default/web" ∈ queue (inner_of worker_failed) ∨ ∃ t, underway (delaying worker_failed) (mkWaitFor "default/web" t)).
Proof.
  split; [vm_compute; discriminate|]. split; [set_solver|].
  apply (failed_round_retried (λ b : unit, (0, b)) (λ _, 0) 2 false "default/web" (Some tt) worker_taken); reflexivity.
Defined.
